(* ===== verification/_CoqProject ===== *)
-Q . S2P
Prelude.v
Effects.v
TopoSort.v
Event.v
RumaExample.v
PowerLevels.v
EventAuth.v
EventAuthSpec.v
StateRes.v
StateResConflicts.v
StateResGraph.v
StateResMainline.v
StateResResolve.v
StateResOrder.v
Bytes.v
PduCount.v
DbSer.v
DbTypes.v
Database.v
PairKeys.v
Scans.v
Short.v
Tables.v
AccountData.v
Json.v
Host.v
UserKeys.v
Devices.v
Accounts.v
RegistrationTokens.v
Threepid.v
Uiaa.v
OAuth.v
UsersExample.v
DevicesSpec.v
UserKeysSpec.v
UiaaSpec.v
OAuthSpec.v
KeyBackups.v
Cache.v
StateCompressor.v
StateCompressorSpec.v
RoomState.v
Timeline.v
ReadReceipt.v
StateCache.v
StateCacheSpec.v
StateAccessor.v
StateAccessorSpec.v
AuthChain.v
Sending.v
SendingWorker.v
SendingSpec.v
SendingWorkerSpec.v
Transactions.v
TransactionsSpec.v
PduMetadata.v
EventStore.v
EventChecks.v
ServerKeys.v
StateAtIncoming.v
Extremities.v
Outliers.v
OutliersSpec.v
EventHandler.v
EventHandlerSpec.v
LocalEvents.v
LocalEventsSpec.v
FederationApi.v
FederationApiSpec.v
Joins.v
RequestAuth.v
JoinsSpec.v
Invites.v
EventStoreDb.v
ExampleStore.v
HandlerExamples.v
LocalExample.v
FederationApiExample.v
