(* ===== verification/Prelude.v ===== *)
(** * Verification of continuwuity

    continuwuity is a Matrix homeserver in Rust.  This library models the parts of it that decide
    which events rooms hold and who may act in them, and the storage below: definitions
    translated from the source, function by function, and theorems about them.  The comment before each
    definition names the lines it translates, as path, lines and symbol.

    ** The program and the files

    A request of a client or of another server passes the services of src/src/service, which keep
    their state in columns of a RocksDB database (src/src/database) and use the algorithms of
    src/src/core.  From the bottom up:

    - Prelude.v, Effects.v: the error monads, Rust's [Ord], sorting, hash iteration; steps over a state
      that may fail or panic, and what they leave as it is.
    - Bytes.v, PduCount.v: machine words and bytes (core/utils/bytes.rs), positions in a timeline and
      their keys (core/matrix/pdu/count.rs, raw_id.rs, id.rs).
    - DbSer.v, DbTypes.v: the encoding of keys and values (database/ser.rs, de.rs): round trips, exact
      prefixes, totality, stack buffers, and the types of what is read.
    - Database.v, PairKeys.v, Scans.v, Tables.v, Host.v, Json.v: the maps of the database
      (database/map), scans over them, and the patterns in which services use columns: pairs of names, an
      image of a map, a log under an owner and a number; the effects on database, counter and wakers.
    - Short.v, Cache.v, StateCompressor.v, StateCompressorSpec.v: short identifiers (service/rooms/short,
      globals/data.rs) and the layered storage of room states (rooms/state_compressor).
    - RoomState.v, StateAccessor.v, StateAccessorSpec.v: the state of rooms and who may
      see what (rooms/state, rooms/state_accessor).
    - StateCache.v, StateCacheSpec.v: who is joined to, invited to or gone from which room
      (rooms/state_cache).
    - Timeline.v, PduMetadata.v, AuthChain.v, ReadReceipt.v, AccountData.v: the events of
      rooms and what is kept beside them (rooms/timeline/data.rs, rooms/pdu_metadata, rooms/outlier,
      rooms/auth_chain, rooms/read_receipt, rooms/user, account_data).
    - TopoSort.v, Event.v, RumaExample.v, PowerLevels.v, EventAuth.v, EventAuthSpec.v, StateRes.v and,
      for its proofs, StateResConflicts.v, StateResGraph.v, StateResMainline.v, StateResOrder.v,
      StateResResolve.v: state resolution and event authorisation (core/matrix/state_res).
    - EventStore.v, EventChecks.v, StateAtIncoming.v, Extremities.v, Outliers.v, EventHandler.v with
      OutliersSpec.v, EventHandlerSpec.v, EventStoreDb.v, ExampleStore.v, HandlerExamples.v: what becomes of an
      event of another server (rooms/event_handler, rooms/timeline/append.rs).
    - LocalEvents.v, LocalEventsSpec.v, LocalExample.v: the events this server makes
      (rooms/timeline/create.rs, build.rs).
    - ServerKeys.v, RequestAuth.v: the keys other servers sign with, where they come from and when they are
      taken (service/server_keys); whom a request is taken for: servers by their signatures, clients by their
      tokens, application services by theirs (api/router/auth.rs, service/appservice).
    - FederationApi.v, FederationApiSpec.v, Joins.v, JoinsSpec.v, Invites.v, FederationApiExample.v: what other
      servers ask for (api/server): events, states, pages and missing events; joins, leaves, knocks and invites.
    - Sending.v, SendingWorker.v, SendingSpec.v, SendingWorkerSpec.v: the sending queue (service/sending).
    - Transactions.v, TransactionsSpec.v: idempotent requests (service/transactions, api/server/send.rs,
      api/client/send.rs).
    - Accounts.v, Threepid.v, RegistrationTokens.v: accounts, email addresses and the tokens that
      registration takes (service/users, service/threepid, service/registration_tokens).
    - UserKeys.v, UserKeysSpec.v, Devices.v, DevicesSpec.v, UsersExample.v, KeyBackups.v:
      devices, sessions, keys of users and their backups (service/users, service/key_backups,
      api/client/backup.rs).
    - Uiaa.v, UiaaSpec.v, OAuth.v, OAuthSpec.v: user-interactive authentication and OAuth (service/uiaa,
      service/oauth).

    ** How the code is embedded

    Pure functions are functions; [Result] is [result], and where the code can panic the error type is
    [comp], which tells failing from panicking.  State is passed explicitly: a database is a map
    from columns to finite maps from byte strings to byte strings, iterated in bytewise order;
    services with more state have a record.  What several tasks do at once is a list of labelled steps, each
    as long as the code holds the lock (Transactions.v, SendingWorker.v).  The handlers of events are
    written in the monad of Effects.v.  Words have their width (Bytes.v); hash maps are iterated in an order
    that is a parameter ([HashIter]), and results are shown not to depend on it or to do so.

    ** Parameters and interfaces

    Code that is not in the repository is a parameter with the behaviour relied on as a law: the Matrix types
    and parsers of the ruma library ([Event.Ruma], [RumaLaws], instance in RumaExample.v), JSON and CBOR
    parsers ([DbSer.Parsers], [Json.Json], [EventStoreDb.JsonText]), signatures and hashes
    ([EventChecks.HandlerLibrary], [StateCompressor.Digest]), LRU caches ([Cache.Lru]), other servers
    ([EventChecks.Federation]: any answer whatsoever), the order in which futures complete
    ([StateRes.Scheduler]).  Interfaces between components are classes as well: the handlers of events are
    verified against [EventStore.EventStore] and [EventStoreLaws], which EventStoreDb.v shows the
    database tables keep; [Ord] and [OrdLaws] serve the sorts and the priority queue.

    ** What is shown

    - State resolution and authorisation: the sort returns a topological order that breaks ties as
      the code says and is independent of hash order; [auth_check] agrees with the authorisation rules
      stated as relations, reads nothing but the state it asks for, and lets nobody raise a
      level above the own or remove a peer; [resolve] keeps unconflicted state, adds only events that
      pass, and depends on no iteration order.
    - Storage: keys are read back, prefix scans are exact, nothing read has another type than asked, reading
      never panics; short identifiers implement one abstract table; stored states are read
      back whatever the layers and the cache; membership tables agree with the relation of each user to
      each room.
    - Events: an event of another server gets its place in the timeline only after all checks, rejected ones
      stay out, forward extremities and auth chains are exactly what their definitions say.  An event of this
      server is authorised by the state it names and takes the place of the extremities it refers to.
    - Other servers: what they read they may read, and missing events are found by a walk that ends; a room
      changes for a membership event only after every check, and an invite is taken only with a valid state.
    - Requests: a key of another server is taken from a response that server signed and that is in date, and
      only then a request signed with it; a token is the one of the device or the application service.
    - Delivery: nothing queued is lost whatever interleaving, back-off is bounded, repeated requests have one
      effect and one answer, and every waiting request is answered.
    - Users: access tokens are a map from devices to tokens, removed devices are locked out, one-time
      keys are handed out once, authentication ends only with all stages of a flow checked, authorization
      codes are traded once and refresh tokens replaced, and backups of keys are maps from sessions to keys.

    ** Fuel

    Searches take fuel where Rust loops: theorems that a result is right come with how much fuel
    suffices (the number of events and their auth events for the graph searches, the depth of the
    events for the mainline, the length of the buffer for vectors, the layers of a state for loading).

    ** Findings

    Examples named in the text show where the code does not do what it means to; the theorems are then
    stated about what it does (HandlerExamples.v and the Witness modules).

    ** Not modelled

    - src/src/synapse_migration: a one-off import from other databases, SQL and file formats.
    - src/src/admin, src/src/web, src/src/router, src/src/main, src/src/macros, src/src/xtask: commands, pages
      and start-up over the services, without state of their own.
    - src/src/api beyond the transactions, backups and the requests of other servers named above: routes
      that unpack requests and call the services.
    - src/src/core/config, log, metrics, alloc: settings and instrumentation.
    - src/src/database/engine, pool, and options: RocksDB itself and the threads before it.
    - src/src/service: media, pusher, presence, typing, sync, directory, search, spaces, threads, resolver,
      the registration of application services, emergency, announcements, firstrun, mailer: I/O, or state
      that touches none of
      the invariants above.
    - The parts of modelled files that render results for clients (unsigned data, bundled
      aggregations, packed receipts) and the server's own signing key. *)


From stdpp Require Import prelude gmap strings sorting.
From Stdlib Require Import ZArith Lia.
From Stdlib.Strings Require Byte.

(** * The [Result] monad *)

(** Rust's [Result<A, E>]. *)
Inductive result (E A : Type) : Type :=
| Ok (a : A)
| Err (e : E).
Arguments Ok {E A} a.
Arguments Err {E A} e.

#[export] Instance result_ret E : MRet (result E) := fun A a => Ok a.
#[export] Instance result_bind E : MBind (result E) := fun A B f m =>
  match m with Ok a => f a | Err e => Err e end.
#[export] Instance result_fmap E : FMap (result E) := fun A B f m =>
  match m with Ok a => Ok (f a) | Err e => Err e end.

(** [Option::ok_or]. *)
Definition ok_or {E A} (e : E) (o : option A) : result E A :=
  match o with Some a => Ok a | None => Err e end.

(** [Result::ok]. *)
Definition ok {E A} (r : result E A) : option A :=
  match r with Ok a => Some a | Err _ => None end.

Definition is_ok {E A} (r : result E A) : bool :=
  match r with Ok _ => true | Err _ => false end.

#[export] Instance result_eq_dec `{EqDecision E, EqDecision A} : EqDecision (result E A).
Proof. solve_decision. Defined.

Lemma bind_Ok {E A B} (m : result E A) (f : A → result E B) b :
  m ≫= f = Ok b → ∃ a, m = Ok a ∧ f a = Ok b.
Proof. destruct m; naive_solver. Qed.

Lemma ok_or_Ok {E A} (e : E) (o : option A) a : ok_or e o = Ok a ↔ o = Some a.
Proof. destruct o; naive_solver. Qed.

(** Traversal of a list with a fallible function, stopping at the first error. *)
Fixpoint mapR {E A B} (f : A → result E B) (l : list A) : result E (list B) :=
  match l with
  | [] => Ok []
  | x :: l => y ← f x; ys ← mapR f l; Ok (y :: ys)
  end.

(** Inversion of a computation that returned [Ok]. *)
Ltac inv_ok :=
  repeat match goal with
  | H : Ok _ = Ok _ |- _ => injection H as H; try subst
  | H : Err _ = Ok _ |- _ => discriminate H
  | H : Ok _ = Err _ |- _ => discriminate H
  | H : mret _ = Ok _ |- _ => injection H as H; try subst
  | H : _ ≫= _ = Ok _ |- _ =>
      let a := fresh "a" in let Ha := fresh "Ha" in
      apply bind_Ok in H as (a & Ha & H); simpl in *
  | H : ok_or _ _ = Ok _ |- _ => apply ok_or_Ok in H
  end.

(** Case analysis of a [decide] of the goal, hypotheses untouched. *)
Tactic Notation "goal_decide" "as" ident(H) :=
  match goal with |- context [@decide ?P ?d] => destruct (@decide P d) as [H|H] end.
Tactic Notation "goal_decide" :=
  let H := fresh in goal_decide as H.

Lemma mapR_Forall2 {E A B} (f : A → result E B) l k :
  mapR f l = Ok k ↔ Forall2 (fun x y => f x = Ok y) l k.
Proof.
  revert k. induction l as [|x l IH]; intros k; simpl.
  - split; [intros [= <-]; constructor | by inversion 1].
  - split.
    + intros H. inv_ok. constructor; [done|]. by apply IH.
    + inversion 1 as [|? y ? ys Hy Hl]; subst. rewrite Hy. simpl.
      apply IH in Hl. by rewrite Hl.
Qed.

(** * Rust's [Ord] *)

(** [std::cmp::Ord]: a comparison function. *)
Class Ord (A : Type) := ord_cmp : A → A → comparison.

(** The laws the trait's documentation asks of an implementation. *)
Class OrdLaws (A : Type) `{Ord A} : Prop := {
  ord_eq x y : ord_cmp x y = Eq ↔ x = y;
  ord_antisym x y : ord_cmp y x = CompOpp (ord_cmp x y);
  ord_lt_trans x y z : ord_cmp x y = Lt → ord_cmp y z = Lt → ord_cmp x z = Lt;
}.

(** [Ordering::then]. *)
Definition cmp_then (a b : comparison) : comparison :=
  match a with Eq => b | _ => a end.

Definition ord_le {A} `{Ord A} (x y : A) : Prop := ord_cmp x y ≠ Gt.
Definition ord_lt {A} `{Ord A} (x y : A) : Prop := ord_cmp x y = Lt.

#[export] Instance ord_le_dec {A} `{Ord A} : RelDecision (ord_le (A := A)).
Proof. intros x y. unfold ord_le. apply _. Defined.
#[export] Instance ord_lt_dec {A} `{Ord A} : RelDecision (ord_lt (A := A)).
Proof. intros x y. unfold ord_lt. apply _. Defined.

Section ord_facts.
Context {A : Type} `{OrdLaws A}.
Implicit Types x y z : A.

Lemma ord_refl x : ord_cmp x x = Eq.
Proof. by apply ord_eq. Qed.

Lemma ord_gt_lt x y : ord_cmp x y = Gt ↔ ord_cmp y x = Lt.
Proof. rewrite (ord_antisym x y). destruct (ord_cmp x y); naive_solver. Qed.

Lemma ord_lt_irrefl x : ¬ ord_lt x x.
Proof. unfold ord_lt. by rewrite ord_refl. Qed.

Lemma ord_le_alt x y : ord_le x y ↔ ord_lt x y ∨ x = y.
Proof.
  unfold ord_le, ord_lt. destruct (ord_cmp x y) eqn:E.
  - apply ord_eq in E. naive_solver.
  - naive_solver.
  - split; [done|]. intros [?|<-]; [done|]. by rewrite ord_refl in E.
Qed.

Lemma ord_not_lt x y : ¬ ord_lt x y ↔ ord_le y x.
Proof.
  unfold ord_lt, ord_le. rewrite (ord_antisym x y).
  destruct (ord_cmp x y); naive_solver.
Qed.

#[export] Instance ord_le_trans : Transitive (ord_le (A := A)).
Proof.
  intros x y z. rewrite !ord_le_alt. intros [?| ->] [?| ->]; auto.
  left. by eapply ord_lt_trans.
Qed.
#[export] Instance ord_le_total : Total (ord_le (A := A)).
Proof.
  intros x y. unfold ord_le. rewrite (ord_antisym x y).
  destruct (ord_cmp x y); naive_solver.
Qed.
#[export] Instance ord_le_antisymm : AntiSymm (=) (ord_le (A := A)).
Proof.
  intros x y. rewrite !ord_le_alt. intros [Hlt|?] [Hgt|?]; auto.
  exfalso. apply (ord_lt_irrefl x). by eapply ord_lt_trans.
Qed.
#[export] Instance ord_le_refl : Reflexive (ord_le (A := A)).
Proof. intros x. apply ord_le_alt. by right. Qed.
End ord_facts.

(** Sorting: [sort] / [sort_unstable] with a total order. *)
Definition sort {A} `{Ord A} (l : list A) : list A := merge_sort ord_le l.

Section sort_facts.
Context {A : Type} `{OrdLaws A}.
Implicit Types l : list A.

Lemma sort_Permutation l : sort l ≡ₚ l.
Proof. apply merge_sort_Permutation. Qed.

Lemma sort_StronglySorted l : StronglySorted ord_le (sort l).
Proof. apply (StronglySorted_merge_sort ord_le). Qed.

Lemma elem_of_sort x l : x ∈ sort l ↔ x ∈ l.
Proof. by rewrite sort_Permutation. Qed.

Lemma sort_unique l k : StronglySorted ord_le k → k ≡ₚ l → sort l = k.
Proof.
  intros Hk Hp. eapply (StronglySorted_unique ord_le);
    [apply sort_StronglySorted|done|]. by rewrite sort_Permutation.
Qed.

Lemma sort_proper l k : l ≡ₚ k → sort l = sort k.
Proof.
  intros Hp. apply sort_unique; [apply sort_StronglySorted|].
  by rewrite sort_Permutation.
Qed.

Lemma sort_cons_min x l r :
  l ≡ₚ x :: r → (∀ y, y ∈ r → ord_le x y) → sort l = x :: sort r.
Proof.
  intros Hp Hmin. apply sort_unique; [|by rewrite Hp, sort_Permutation].
  apply StronglySorted_cons. split; [|apply sort_StronglySorted].
  apply Forall_forall. intros y Hy. rewrite elem_of_sort in Hy. by apply Hmin.
Qed.
End sort_facts.

(** [Vec::dedup]. *)
Fixpoint dedup {A} `{EqDecision A} (l : list A) : list A :=
  match l with
  | [] => []
  | x :: l => match dedup l with
              | [] => [x]
              | y :: r => if decide (x = y) then y :: r else x :: y :: r
              end
  end.

Lemma dedup_elem {A} `{EqDecision A} (l : list A) x : x ∈ dedup l ↔ x ∈ l.
Proof.
  induction l as [|y l IH]; [done|]. simpl. rewrite elem_of_cons, <-IH.
  destruct (dedup l) as [|z r]; [set_solver|]. case_decide; subst; rewrite ?elem_of_cons; naive_solver.
Qed.

(** A sorted list becomes strictly sorted. *)
Lemma dedup_sorted {A} `{OrdLaws A, !EqDecision A} (l : list A) :
  StronglySorted ord_le l → StronglySorted ord_lt (dedup l).
Proof.
  induction 1 as [|x l Hs IH Hx]; [constructor|]. simpl.
  assert (∀ z, z ∈ dedup l → ord_le x z) as Hle'.
  { intros z Hz. rewrite dedup_elem in Hz. rewrite Forall_forall in Hx. by apply Hx. }
  destruct (dedup l) as [|y r]; [by repeat constructor|]. case_decide as Hxy; [done|].
  pose proof (Hle' y ltac:(by left)) as Hle.
  constructor; [done|]. apply StronglySorted_inv in IH as [Hr Hy].
  assert (ord_lt x y) as Hlt by (apply ord_le_alt in Hle as [?|?]; done).
  constructor; [done|]. eapply Forall_impl; [exact Hy|]. intros z Hz. by eapply (ord_lt_trans x y z).
Qed.

(** Strictly sorted lists with the same elements are the same. *)
Lemma ord_lt_sorted_unique {A} `{OrdLaws A} (l k : list A) :
  StronglySorted ord_lt l → StronglySorted ord_lt k → (∀ x, x ∈ l ↔ x ∈ k) → l = k.
Proof.
  assert (∀ l : list A, StronglySorted ord_lt l → NoDup l ∧ StronglySorted ord_le l) as Hs.
  { induction 1 as [|x r Hr [Hnd Hle] Hx]; [by repeat constructor|]. split.
    - constructor; [|done]. intros Hin. eapply Forall_forall in Hx; [|done]. by apply ord_lt_irrefl in Hx.
    - constructor; [done|]. eapply Forall_impl; [exact Hx|]. intros y Hy. apply ord_le_alt. by left. }
  intros [Hl Hl']%Hs [Hk Hk']%Hs Heq. apply (StronglySorted_unique ord_le); [done..|].
  by apply NoDup_Permutation.
Qed.

(** Filtering by predicates that agree on the list. *)
Lemma filter_ext_in {A} (P Q : A → Prop) `{!∀ x, Decision (P x), !∀ x, Decision (Q x)} (l : list A) :
  (∀ x, x ∈ l → P x ↔ Q x) → filter P l = filter Q l.
Proof.
  induction l as [|a l IH]; intros HPQ; [done|].
  rewrite !filter_cons, IH by set_solver.
  specialize (HPQ a ltac:(set_solver)). repeat case_decide; naive_solver.
Qed.

(** A set emptied by two removals. *)
Lemma difference_twice_empty {K} `{Countable K} (X Y Z : gset K) :
  X ∖ Y ∖ Z = ∅ ↔ X ⊆ Z ∪ Y.
Proof.
  rewrite difference_difference_l_L, (union_comm_L Y Z). split.
  - intros HX x Hx. destruct (decide (x ∈ Z ∪ Y)); [done|]. set_solver.
  - intros HX. set_solver.
Qed.

(** Removing a member makes a set smaller. *)
Lemma size_remove_lt {K} `{Countable K} (X D : gset K) n :
  n ∈ X → n ∉ D → size (X ∖ ({[n]} ∪ D)) < size (X ∖ D).
Proof. intros Hn HD. apply subset_size. set_solver. Qed.

(** Instances. *)
#[export] Instance Z_ord : Ord Z := Z.compare.
#[export] Instance Z_ord_laws : OrdLaws Z.
Proof.
  split; unfold ord_cmp, Z_ord.
  - apply Z.compare_eq_iff.
  - intros. apply Z.compare_antisym.
  - intros x y z. rewrite !Z.compare_lt_iff. lia.
Qed.

#[export] Instance nat_ord : Ord nat := Nat.compare.
#[export] Instance nat_ord_laws : OrdLaws nat.
Proof.
  split; unfold ord_cmp, nat_ord.
  - apply Nat.compare_eq_iff.
  - intros. apply Nat.compare_antisym.
  - intros x y z. rewrite !Nat.compare_lt_iff. lia.
Qed.

#[export] Instance prod_ord {A B} `{Ord A, Ord B} : Ord (A * B) :=
  fun p q => cmp_then (ord_cmp p.1 q.1) (ord_cmp p.2 q.2).
Lemma prod_cmp {A B} `{Ord A, Ord B} (a c : A) (b d : B) :
  ord_cmp (a, b) (c, d) = cmp_then (ord_cmp a c) (ord_cmp b d).
Proof. done. Qed.
#[export] Instance prod_ord_laws {A B} `{OrdLaws A, OrdLaws B} : OrdLaws (A * B).
Proof.
  split.
  - intros [a b] [c d]. rewrite prod_cmp. split.
    + destruct (ord_cmp a c) eqn:E; simpl; try done.
      apply ord_eq in E as ->. intros ->%ord_eq. done.
    + intros [= -> ->]. by rewrite !ord_refl.
  - intros [a b] [c d]. rewrite !prod_cmp.
    rewrite (ord_antisym a c), (ord_antisym b d). by destruct (ord_cmp a c).
  - intros [a b] [c d] [e f]. rewrite !prod_cmp.
    destruct (ord_cmp a c) eqn:E1; simpl; try done.
    + apply ord_eq in E1 as ->. intros Hbd.
      destruct (ord_cmp c e) eqn:E2; simpl; try done.
      intros Hdf. by eapply ord_lt_trans.
    + intros _. destruct (ord_cmp c e) eqn:E2; simpl; try done.
      * apply ord_eq in E2 as ->. by rewrite E1.
      * by rewrite (ord_lt_trans _ _ _ E1 E2).
Qed.

(** [std::cmp::Reverse]. *)
Record Reverse (A : Type) := MkReverse { unReverse : A }.
Arguments MkReverse {A} unReverse.
Arguments unReverse {A} r.
#[export] Instance Reverse_ord {A} `{Ord A} : Ord (Reverse A) :=
  fun x y => ord_cmp (unReverse y) (unReverse x).
#[export] Instance Reverse_ord_laws {A} `{OrdLaws A} : OrdLaws (Reverse A).
Proof.
  split; unfold ord_cmp, Reverse_ord.
  - intros [x] [y]. simpl. etrans; [apply ord_eq|]. naive_solver.
  - intros [x] [y]. apply ord_antisym.
  - intros [x] [y] [z]. simpl. intros. by eapply ord_lt_trans.
Qed.

(** Lexicographic order of slices. *)
Fixpoint list_cmp {A} `{Ord A} (l k : list A) : comparison :=
  match l, k with
  | [], [] => Eq
  | [], _ :: _ => Lt
  | _ :: _, [] => Gt
  | x :: l, y :: k => cmp_then (ord_cmp x y) (list_cmp l k)
  end.
#[export] Instance list_ord {A} `{Ord A} : Ord (list A) := list_cmp.
#[export] Instance list_ord_laws {A} `{OrdLaws A} : OrdLaws (list A).
Proof.
  split; unfold ord_cmp, list_ord.
  - induction x as [|a x IH]; intros [|b y]; simpl; try done.
    split.
    + destruct (ord_cmp a b) eqn:E; simpl; try done.
      apply ord_eq in E as ->. intros ->%IH. done.
    + intros [= -> ->]. rewrite ord_refl. simpl. by apply IH.
  - induction x as [|a x IH]; intros [|b y]; simpl; try done.
    rewrite (ord_antisym a b), IH. by destruct (ord_cmp a b).
  - induction x as [|a x IH]; intros [|b y] [|c z]; simpl; try done.
    destruct (ord_cmp a b) eqn:E1; simpl; try done.
    + apply ord_eq in E1 as ->. intros Hxy.
      destruct (ord_cmp b c) eqn:E2; simpl; try done.
      intros Hyz. by eapply IH.
    + intros _. destruct (ord_cmp b c) eqn:E2; simpl; try done.
      * apply ord_eq in E2 as ->. by rewrite E1.
      * by rewrite (ord_lt_trans _ _ _ E1 E2).
Qed.

(** Pull an order back along an injective key. *)
Definition cmp_by {A B} `{Ord B} (f : A → B) : Ord A :=
  fun x y => ord_cmp (f x) (f y).
Lemma cmp_by_laws {A B} `{OrdLaws B} (f : A → B) `{!Inj (=) (=) f} :
  OrdLaws A (H := cmp_by f).
Proof.
  split; unfold ord_cmp, cmp_by.
  - intros x y. etrans; [apply ord_eq|]. split; [apply inj, _|naive_solver].
  - intros x y. apply ord_antisym.
  - intros x y z. apply ord_lt_trans.
Qed.

(** [str]'s order: bytewise lexicographic. *)
Fixpoint str_codes (s : string) : list Z :=
  match s with
  | EmptyString => []
  | String a s => Z.of_N (Ascii.N_of_ascii a) :: str_codes s
  end.
#[export] Instance str_codes_inj : Inj (=) (=) str_codes.
Proof.
  intros s. induction s as [|a s IH]; intros [|b t]; simpl; try done.
  intros [= Hab Hst]. f_equal; [|by apply IH].
  rewrite <-(Ascii.ascii_N_embedding a), <-(Ascii.ascii_N_embedding b). f_equal. lia.
Qed.
#[export] Instance string_ord : Ord string := cmp_by str_codes.
#[export] Instance string_ord_laws : OrdLaws string := cmp_by_laws str_codes.

(** * Outcomes other than a returned value

    A translated function returns [comp E A]: the value, one of the errors the
    Rust function returns ([Fail]), a panic ([Panicked]: an [expect]/[unwrap]
    that failed), or [OutOfFuel] where a loop is bounded by fuel.  The last two
    are shown not to happen. *)
Inductive fault (E : Type) : Type :=
| Fail (e : E)
| Panicked
| OutOfFuel.
Arguments Fail {E} e.
Arguments Panicked {E}.
Arguments OutOfFuel {E}.

Abbreviation comp E A := (result (fault E) A).

#[export] Instance fault_eq_dec `{EqDecision E} : EqDecision (fault E).
Proof. solve_decision. Defined.

(** [Option::expect]. *)
Definition expect {E A} (o : option A) : comp E A := ok_or Panicked o.

(** [return Err(e)] when the option is empty. *)
Definition ok_or_fail {E A} (e : E) (o : option A) : comp E A := ok_or (Fail e) o.

(** * Hash containers

    [HashMap] and [HashSet] iterate in an unspecified order.  A definition that
    iterates one takes the order from this interface; a theorem that holds for
    every lawful instance does not depend on it. *)
Class HashIter (K : Type) `{Countable K} := {
  iter_set : gset K → list K;
  iter_map {V} : gmap K V → list (K * V);
}.
Class HashIterLaws (K : Type) `{HashIter K} : Prop := {
  iter_set_perm s : iter_set s ≡ₚ elements s;
  iter_map_perm {V} (m : gmap K V) : iter_map m ≡ₚ map_to_list m;
}.

(** Two iteration orders, used by the witnesses. *)
Definition hash_iter_fwd (K : Type) `{Countable K} : HashIter K :=
  {| iter_set := elements; iter_map V := map_to_list |}.
Definition hash_iter_bwd (K : Type) `{Countable K} : HashIter K :=
  {| iter_set s := reverse (elements s); iter_map V m := reverse (map_to_list m) |}.
#[export] Instance hash_iter_fwd_laws K `{Countable K} : HashIterLaws K (H0 := hash_iter_fwd K).
Proof. by split. Qed.
#[export] Instance hash_iter_bwd_laws K `{Countable K} : HashIterLaws K (H0 := hash_iter_bwd K).
Proof. split; intros; simpl; apply reverse_Permutation. Qed.

(** * [BinaryHeap]: a priority queue whose [pop] returns a greatest element. *)
Definition heap_pop {A} `{Ord A} (h : list A) : option (A * list A) :=
  match reverse (sort h) with
  | [] => None
  | x :: r => Some (x, r)
  end.

Section heap_facts.
Context {A : Type} `{OrdLaws A}.

Lemma heap_pop_None (h : list A) : heap_pop h = None ↔ h = [].
Proof.
  unfold heap_pop. destruct (reverse (sort h)) as [|x r] eqn:E.
  - split; [intros _|done]. apply (f_equal reverse) in E.
    rewrite reverse_involutive in E. simpl in E. apply Permutation_nil.
    pose proof (sort_Permutation h) as Hp. by rewrite E in Hp.
  - split; [done|]. intros ->. done.
Qed.

Lemma heap_pop_Some (h : list A) x r :
  heap_pop h = Some (x, r) → h ≡ₚ x :: r ∧ ∀ y, y ∈ r → ord_le y x.
Proof.
  unfold heap_pop. destruct (reverse (sort h)) as [|x' r'] eqn:E; [done|].
  intros [= -> ->]. split.
  - by rewrite <-E, reverse_Permutation, sort_Permutation.
  - apply (f_equal reverse) in E. rewrite reverse_involutive, reverse_cons in E.
    pose proof (sort_StronglySorted h) as Hs. rewrite E in Hs.
    intros y Hy. eapply (StronglySorted_app_1_elem_of ord_le);
      [exact Hs|by apply elem_of_reverse|set_solver].
Qed.
End heap_facts.

(** The [?] operator on a callee that cannot panic. *)
Definition lift {E A} (r : result E A) : comp E A :=
  match r with Ok a => Ok a | Err e => Err (Fail e) end.
