(* ===== verification/Effects.v ===== *)
(** Steps over a state that may fail, as the services that change several tables take them: a monad
    in which what was done before an error stays done, and a calculus for what a step leaves as it is. *)

From stdpp Require Import prelude.
From S2P Require Import Prelude.

(** * Effects

    A step over a state that may fail: what it did before failing stays done. *)
Definition eff (S E A : Type) : Type := S → comp E A * S.

#[export] Instance eff_ret S E : MRet (eff S E) := fun A a s => (Ok a, s).
#[export] Instance eff_bind S E : MBind (eff S E) := fun A B f m s =>
  match m s with (Ok a, s) => f a s | (Err e, s) => (Err e, s) end.

Section eff.
Context {S E : Type}.

Definition fail {A} (e : E) : eff S E A := fun s => (Err (Fail e), s).
Definition panic {A} : eff S E A := fun s => (Err Panicked, s).
(** A result that needs no state; reading; an update that gives nothing. *)
Definition pure {A} (r : comp E A) : eff S E A := fun s => (r, s).
Definition gets {A} (f : S → A) : eff S E A := fun s => (Ok (f s), s).
Definition modify (f : S → S) : eff S E unit := fun s => (Ok tt, f s).

Fixpoint for_each {A} (f : A → eff S E unit) (l : list A) : eff S E unit :=
  match l with
  | [] => mret tt
  | x :: l => _ ← f x; for_each f l
  end.

Fixpoint traverse {A B} (f : A → eff S E B) (l : list A) : eff S E (list B) :=
  match l with
  | [] => mret []
  | x :: l => y ← f x; ys ← traverse f l; mret (y :: ys)
  end.

(** An update that gives a result and does not fail; the result of one that failed, without it. *)
Definition infallible {A} (f : S → A * S) : eff S E A := fun s => (Ok (f s).1, (f s).2).
Definition attempt {A} (m : eff S E A) : eff S E (option A) := fun s =>
  match m s with
  | (Ok a, s) => (Ok (Some a), s)
  | (Err (Fail _), s) => (Ok None, s)
  | (Err e, s) => (Err e, s)
  end.

Lemma bind_inv {A B} (m : eff S E A) (f : A → eff S E B) s b s' :
  (m ≫= f) s = (Ok b, s') → ∃ a s1, m s = (Ok a, s1) ∧ f a s1 = (Ok b, s').
Proof. unfold mbind, eff_bind. destruct (m s) as [[a|e] s1]; [eauto|done]. Qed.

Lemma bind_run {A B} (m : eff S E A) (f : A → eff S E B) s a s1 : m s = (Ok a, s1) → (m ≫= f) s = f a s1.
Proof. unfold mbind, eff_bind. by intros ->. Qed.

(** Statements that do not fail. *)
Lemma bind_gets {A B} (f : S → A) (g : A → eff S E B) s : (gets f ≫= g) s = g (f s) s.
Proof. done. Qed.
Lemma bind_gets_id {B} (g : S → eff S E B) s : (gets id ≫= g) s = g s s.
Proof. done. Qed.
Lemma bind_modify {B} (f : S → S) (g : unit → eff S E B) s : (modify f ≫= g) s = g tt (f s).
Proof. done. Qed.
Lemma mret_Ok {A} (a b : A) s s' : (mret a : eff S E A) s = (Ok b, s') ↔ a = b ∧ s = s'.
Proof. unfold mret, eff_ret. split; [by intros [= -> ->]|by intros [-> ->]]. Qed.
Lemma pure_Ok {A} (r : comp E A) b s s' : pure r s = (Ok b, s') ↔ r = Ok b ∧ s = s'.
Proof. unfold pure. split; [by intros [= -> ->]|by intros [-> ->]]. Qed.
End eff.

(** Takes a run that succeeded apart, statement by statement. *)
Ltac inv_run H :=
  let a := fresh "a" in let s := fresh "s" in let Ha := fresh "Hrun" in
  rewrite ?bind_gets_id, ?bind_gets, ?bind_modify in H;
  apply bind_inv in H as (a & s & Ha & H); rewrite ?bind_gets_id, ?bind_gets, ?bind_modify in H;
  first [apply pure_Ok in Ha as [Ha <-] | apply mret_Ok in Ha as [<- <-] | idtac].

(** ** What effects leave as it is

    A relation between the states before and after, whatever the outcome. *)
Definition preserves {S E A} (R : S → S → Prop) (m : eff S E A) : Prop := ∀ s, R s (m s).2.

Section preserves.
Context {S E : Type} (R : S → S → Prop) `{!PreOrder R}.

Lemma preserves_same {A} (f : S → comp E A) : preserves R (fun s => (f s, s)).
Proof. intros s. simpl. reflexivity. Qed.
Lemma preserves_modify (f : S → S) : (∀ s, R s (f s)) → preserves R (modify f : eff S E unit).
Proof. done. Qed.
Lemma preserves_infallible {A} (f : S → A * S) : (∀ s, R s (f s).2) → preserves R (infallible f : eff S E A).
Proof. done. Qed.

Lemma preserves_bind {A B} (m : eff S E A) (f : A → eff S E B) :
  preserves R m → (∀ a, preserves R (f a)) → preserves R (m ≫= f).
Proof.
  intros Hm Hf s. unfold mbind, eff_bind. specialize (Hm s).
  destruct (m s) as [[a|e] s']; simpl in *; [|done].
  transitivity s'; [done|apply Hf].
Qed.

Lemma preserves_attempt {A} (m : eff S E A) : preserves R m → preserves R (attempt m).
Proof. intros Hm s. unfold attempt. specialize (Hm s). by destruct (m s) as [[a|[]] s']. Qed.

Lemma preserves_for_each {A} (f : A → eff S E unit) l : (∀ a, preserves R (f a)) → preserves R (for_each f l).
Proof.
  intros Hf. induction l as [|a l IH]; simpl; [apply preserves_same|]. by apply preserves_bind.
Qed.

Lemma preserves_traverse {A B} (f : A → eff S E B) l : (∀ a, preserves R (f a)) → preserves R (traverse f l).
Proof.
  intros Hf. induction l as [|a l IH]; simpl; [apply preserves_same|].
  apply preserves_bind; [done|]. intros b. apply preserves_bind; [done|]. intros. apply preserves_same.
Qed.
End preserves.

Create HintDb preserves.

(** Follows the shape of an effect; what is left are the updates. *)
Ltac preserve :=
  repeat first
    [ progress intros
    | solve [auto 2 with preserves nocore]
    | match goal with
      | |- preserves _ (mret _) => apply preserves_same
      | |- preserves _ (fail _) => apply preserves_same
      | |- preserves _ panic => apply preserves_same
      | |- preserves _ (pure _) => apply preserves_same
      | |- preserves _ (gets _) => apply preserves_same
      | |- preserves _ (λ s, (_, s)) => apply preserves_same
      | |- preserves _ (modify _) => apply preserves_modify
      | |- preserves _ (infallible _) => apply preserves_infallible
      | |- preserves _ (_ ≫= _) => apply preserves_bind
      | |- preserves _ (attempt _) => apply preserves_attempt
      | |- preserves _ (for_each _ _) => apply preserves_for_each
      | |- preserves _ (traverse _ _) => apply preserves_traverse
      | |- preserves _ (match ?x with _ => _ end) => destruct x
      | |- PreOrder _ => typeclasses eauto
      end ].
