(* ===== verification/TopoSort.v ===== *)
(** The lexicographical topological sort of state resolution
    (src/src/core/matrix/state_res/mod.rs, [lexicographical_topological_sort]):
    Kahn's algorithm with a priority queue.  The translation keeps the
    out-degree map, the reverse graph, the heap and the two loops; it is shown
    equal to a reference that repeatedly takes the least ready event, from which
    the properties follow. *)

From stdpp Require Import prelude gmap strings sorting well_founded.
From S2P Require Import Prelude.

Section tie_breaker.
Context {Id : Type} `{Ord Id}.

(** [TieBreaker].
    @src src/src/core/matrix/state_res/mod.rs:436-441 TieBreaker *)
Record TieBreaker := {
  power_level : Z;
  origin_server_ts : Z;
  tb_event_id : Id;
}.

(** [TieBreaker]'s comparison: the power level is compared backwards.
    @src src/src/core/matrix/state_res/mod.rs:443-461 TieBreaker::cmp *)
#[export] Instance TieBreaker_ord : Ord TieBreaker := fun self other =>
  cmp_then (ord_cmp (power_level other) (power_level self))
    (cmp_then (ord_cmp (origin_server_ts self) (origin_server_ts other))
      (ord_cmp (tb_event_id self) (tb_event_id other))).

Definition tb_key (t : TieBreaker) : Reverse Z * (Z * Id) :=
  (MkReverse (power_level t), (origin_server_ts t, tb_event_id t)).

#[export] Instance tb_key_inj : Inj (=) (=) tb_key.
Proof. intros [] []. unfold tb_key. simpl. by intros [= -> -> ->]. Qed.
End tie_breaker.
Arguments TieBreaker Id : clear implicits.

#[export] Instance TieBreaker_ord_laws {Id} `{OrdLaws Id} : OrdLaws (TieBreaker Id) :=
  cmp_by_laws tb_key.

Section kahn.
Context {Id : Type} `{Countable Id, !Ord Id, !HashIter Id} {E : Type}.
Implicit Types (graph reverse_graph : gmap Id (gset Id)) (node edge parent : Id).

(** The mutable state of the function's second phase.
    @src src/src/core/matrix/state_res/mod.rs:481-508 lexicographical_topological_sort *)
Record kahn_state := {
  outdegree_map : gmap Id (gset Id);
  heap : list (Reverse (TieBreaker Id));
  sorted : list Id;
}.

Variable key_fn : Id → result E (Z * Z).

(** A heap entry for an event, from [key_fn].
    @src src/src/core/matrix/state_res/mod.rs:491-499 lexicographical_topological_sort *)
Definition tie_break (node : Id) : comp E (Reverse (TieBreaker Id)) :=
  k ← lift (key_fn node);
  Ok (MkReverse {| power_level := k.1; origin_server_ts := k.2; tb_event_id := node |}).

(** [reverse_graph.entry(edge).or_default().insert(node)].
    @src src/src/core/matrix/state_res/mod.rs:502-505 lexicographical_topological_sort *)
Definition add_reverse (node : Id) (rev : gmap Id (gset Id)) (edge : Id) : gmap Id (gset Id) :=
  <[edge := {[node]} ∪ default ∅ (rev !! edge)]> rev.

(** The first loop: collect the events without outgoing edges and reverse
    every edge.
    @src src/src/core/matrix/state_res/mod.rs:490-506 lexicographical_topological_sort *)
Fixpoint scan_graph (items : list (Id * gset Id)) (rev : gmap Id (gset Id))
    (zero_outdegree : list (Reverse (TieBreaker Id)))
  : comp E (gmap Id (gset Id) * list (Reverse (TieBreaker Id))) :=
  match items with
  | [] => Ok (rev, zero_outdegree)
  | (node, edges) :: items =>
      zero' ← (if decide (edges = ∅)
               then t ← tie_break node; Ok (zero_outdegree ++ [t])
               else Ok zero_outdegree);
      let rev := <[node := default ∅ (rev !! node)]> rev in
      scan_graph items (foldl (add_reverse node) rev (iter_set edges)) zero'
  end.

(** The inner loop: clear the edge to [node] from each event that has it; push
    those left with none.
    @src src/src/core/matrix/state_res/mod.rs:517-537 lexicographical_topological_sort *)
Fixpoint relax (node : Id) (parents : list Id) (st : kahn_state) : comp E kahn_state :=
  match parents with
  | [] => Ok st
  | parent :: parents =>
      out ← expect (outdegree_map st !! parent);
      let out := out ∖ {[node]} in
      let odm := <[parent := out]> (outdegree_map st) in
      heap' ← (if decide (out = ∅)
               then t ← tie_break parent; Ok (t :: heap st)
               else Ok (heap st));
      relax node parents {| outdegree_map := odm; heap := heap'; sorted := sorted st |}
  end.

(** The main loop, with fuel for the heap's pops.
    @src src/src/core/matrix/state_res/mod.rs:514-542 lexicographical_topological_sort *)
Fixpoint drain (fuel : nat) (reverse_graph : gmap Id (gset Id)) (st : kahn_state)
  : comp E (list Id) :=
  match heap_pop (heap st) with
  | None => Ok (sorted st)
  | Some (item, heap') =>
      match fuel with
      | O => Err OutOfFuel
      | S fuel =>
          let node := tb_event_id (unReverse item) in
          parents ← expect (reverse_graph !! node);
          st' ← relax node (iter_set parents)
            {| outdegree_map := outdegree_map st; heap := heap'; sorted := sorted st |};
          drain fuel reverse_graph
            {| outdegree_map := outdegree_map st'; heap := heap st';
               sorted := sorted st' ++ [node] |}
      end
  end.

(** [lexicographical_topological_sort].  Every event is pushed at most once, so
    the number of events bounds the pops.
    @src src/src/core/matrix/state_res/mod.rs:425-543 lexicographical_topological_sort *)
Definition lexicographical_topological_sort (graph : gmap Id (gset Id)) : comp E (list Id) :=
  '(reverse_graph, zero_outdegree) ← scan_graph (iter_map graph) ∅ [];
  drain (size graph) reverse_graph
    {| outdegree_map := graph; heap := zero_outdegree; sorted := [] |}.
End kahn.
Arguments kahn_state Id {_ _}.

Section reference.
Context {Id : Type} `{Countable Id, !Ord Id}.
Variables (key : Id → Z * Z) (graph : gmap Id (gset Id)).

Definition edges_of (node : Id) : gset Id := default ∅ (graph !! node).

(** The tie-breaker of an event. *)
Definition tb (node : Id) : TieBreaker Id :=
  {| power_level := (key node).1; origin_server_ts := (key node).2; tb_event_id := node |}.

(** The events not yet emitted all of whose references have been. *)
Definition ready (done_ : gset Id) : gset Id :=
  filter (fun n => n ∉ done_ ∧ edges_of n ⊆ done_) (dom graph).

(** The least ready event. *)
Definition least_ready (done_ : gset Id) : option Id :=
  head (tb_event_id <$> sort (tb <$> elements (ready done_))).

(** The reference: emit the least ready event, until none is left. *)
Fixpoint greedy (fuel : nat) (done_ : gset Id) : list Id :=
  match fuel with
  | O => []
  | S fuel =>
      match least_ready done_ with
      | None => []
      | Some n => n :: greedy fuel ({[n]} ∪ done_)
      end
  end.
Definition reference_sort : list Id := greedy (size graph) ∅.

(** The events that can be emitted: all references are events of the graph
    that can be emitted. *)
Inductive grounded : Id → Prop :=
| grounded_intro n es :
    graph !! n = Some es → (∀ m, m ∈ es → grounded m) → grounded n.
End reference.

Section kahn_correct.
Context {Id : Type} `{Countable Id, !Ord Id, !OrdLaws Id, !HashIter Id, !HashIterLaws Id}.
Context {E : Type} (key_fn : Id → result E (Z * Z)) (key : Id → Z * Z).
Implicit Types (graph rev : gmap Id (gset Id)) (n m p : Id) (D : gset Id).

(** The heap entry of an event. *)
Definition entry (n : Id) : Reverse (TieBreaker Id) := MkReverse (tb key n).

#[local] Instance entry_inj : Inj (=) (=) entry.
Proof. intros n m. unfold entry, tb. congruence. Qed.

Lemma tie_break_Ok n : key_fn n = Ok (key n) → tie_break key_fn n = Ok (entry n).
Proof. intros Hk. unfold tie_break. by rewrite Hk. Qed.

(** ** The first loop *)
Lemma add_reverse_lookup node rev l e m :
  m ∈ edges_of (foldl (add_reverse node) rev l) e
  ↔ m ∈ edges_of rev e ∨ (m = node ∧ e ∈ l).
Proof.
  revert rev. induction l as [|x l IH]; intros rev; simpl; [set_solver|].
  rewrite IH. unfold add_reverse, edges_of at 1.
  destruct (decide (x = e)) as [->|Hne].
  - rewrite lookup_insert_eq. simpl. unfold edges_of. set_solver.
  - rewrite lookup_insert_ne by done. unfold edges_of. set_solver.
Qed.

Lemma add_reverse_is_Some node rev l e :
  is_Some (rev !! e) → is_Some (foldl (add_reverse node) rev l !! e).
Proof.
  revert rev. induction l as [|x l IH]; intros rev He; simpl; [done|].
  apply IH. unfold add_reverse. destruct (decide (x = e)) as [->|].
  - by rewrite lookup_insert_eq.
  - by rewrite lookup_insert_ne.
Qed.

Lemma scan_graph_spec items rev zero :
  (∀ n, (n, ∅) ∈ items → key_fn n = Ok (key n)) →
  ∃ rev', scan_graph key_fn items rev zero
            = Ok (rev', zero ++ (entry <$> (filter (fun x => x.2 = ∅) items).*1))
    ∧ (∀ n, n ∈ items.*1 ∨ is_Some (rev !! n) → is_Some (rev' !! n))
    ∧ (∀ e m, m ∈ edges_of rev' e
              ↔ m ∈ edges_of rev e ∨ ∃ es, (m, es) ∈ items ∧ e ∈ es).
Proof.
  revert rev zero. induction items as [|[n es] items IH]; intros rev zero Hk.
  { exists rev. simpl. rewrite app_nil_r. split; [done|]. set_solver. }
  simpl. set (rev1 := foldl _ _ _).
  destruct (IH rev1 (zero ++ (if decide (es = ∅) then [entry n] else [])))
    as (rev' & Heq & Hsome & Hedges); [set_solver|].
  exists rev'. split_and!.
  - rewrite filter_cons. simpl. destruct (decide (es = ∅)) as [->|Hne].
    + rewrite (tie_break_Ok n) by set_solver. simpl. rewrite Heq.
      by rewrite <-(assoc_L (++)).
    + simpl. rewrite app_nil_r in Heq. done.
  - intros m Hm. apply Hsome.
    assert (m = n ∨ m ∈ items.*1 ∨ is_Some (rev !! m)) as [->|[?|Hm']]
      by (destruct Hm; set_solver); [right|by left|right].
    + apply add_reverse_is_Some. by rewrite lookup_insert_eq.
    + apply add_reverse_is_Some. destruct (decide (n = m)) as [->|].
      * by rewrite lookup_insert_eq.
      * by rewrite lookup_insert_ne.
  - intros e m. rewrite Hedges. unfold rev1. rewrite add_reverse_lookup.
    rewrite iter_set_perm, elem_of_elements.
    assert (edges_of (<[n:=default ∅ (rev !! n)]> rev) e = edges_of rev e) as ->.
    { unfold edges_of. destruct (decide (n = e)) as [->|].
      - by rewrite lookup_insert_eq.
      - by rewrite lookup_insert_ne. }
    set_solver.
Qed.

(** ** The inner loop *)
Lemma relax_spec node parents st :
  NoDup parents →
  (∀ p, p ∈ parents → is_Some (outdegree_map st !! p)) →
  (∀ p, p ∈ parents → edges_of (outdegree_map st) p ∖ {[node]} = ∅ →
        key_fn p = Ok (key p)) →
  ∃ st', relax key_fn node parents st = Ok st' ∧ sorted st' = sorted st
    ∧ (∀ p, outdegree_map st' !! p
            = (fun es => if decide (p ∈ parents) then es ∖ {[node]} else es)
              <$> outdegree_map st !! p)
    ∧ heap st' ≡ₚ (entry <$> filter (fun p => edges_of (outdegree_map st) p ∖ {[node]} = ∅) parents)
                  ++ heap st.
Proof.
  revert st. induction parents as [|p parents IH]; intros st Hnd Hsome Hk; simpl.
  { exists st. split_and!; [done..| |done]. intros p. by destruct (_ !! p). }
  apply NoDup_cons in Hnd as [Hp Hnd].
  destruct (Hsome p) as [es Hes]; [set_solver|]. rewrite Hes. simpl.
  assert (edges_of (outdegree_map st) p = es) as Hpe by (unfold edges_of; by rewrite Hes).
  set (st1 := {| outdegree_map := <[p:=es ∖ {[node]}]> (outdegree_map st);
                 heap := if decide (es ∖ {[node]} = ∅) then entry p :: heap st else heap st;
                 sorted := sorted st |}).
  assert (Hothers : ∀ q, q ∈ parents → outdegree_map st1 !! q = outdegree_map st !! q).
  { intros q Hq. simpl. rewrite lookup_insert_ne; [done|]. by intros <-. }
  destruct (IH st1) as (st' & Heq & Hsorted & Hodm & Hheap); [done|..].
  { intros q Hq. rewrite Hothers by done. apply Hsome. set_solver. }
  { intros q Hq. unfold edges_of. rewrite Hothers by done. apply Hk. set_solver. }
  exists st'. split_and!.
  - rewrite <-Heq. unfold st1. destruct (decide (es ∖ {[node]} = ∅)) as [He|He]; [|done].
    rewrite (tie_break_Ok p); [done|]. apply Hk; [set_solver|by rewrite Hpe].
  - by rewrite Hsorted.
  - intros q. rewrite Hodm. simpl. destruct (decide (p = q)) as [->|Hne].
    + rewrite lookup_insert_eq, Hes. simpl.
      rewrite decide_False, decide_True by set_solver. done.
    + rewrite lookup_insert_ne by done. destruct (_ !! q); simpl; [|done].
      f_equal. by repeat case_decide; set_solver.
  - rewrite Hheap.
    assert (filter (fun q => edges_of (outdegree_map st1) q ∖ {[node]} = ∅) parents
            = filter (fun q => edges_of (outdegree_map st) q ∖ {[node]} = ∅) parents) as ->.
    { apply filter_ext_in. intros q Hq. unfold edges_of. by rewrite Hothers. }
    rewrite filter_cons, Hpe. unfold st1. simpl.
    case_decide; [|done]. rewrite fmap_cons. simpl. by rewrite <-Permutation_middle.
Qed.

(** ** The main loop *)
Variable graph : gmap Id (gset Id).
#[local] Abbreviation ready := (ready graph).
#[local] Abbreviation edges := (edges_of graph).

Lemma elem_of_ready D n :
  n ∈ ready D ↔ n ∈ dom graph ∧ n ∉ D ∧ edges n ⊆ D.
Proof. unfold TopoSort.ready. rewrite elem_of_filter. set_solver. Qed.

(** The loop's state after the events [D] have been emitted. *)
Record kahn_inv (D : gset Id) (st : kahn_state Id) : Prop := {
  inv_closed p : p ∈ D → edges p ⊆ D;
  inv_odm p : outdegree_map st !! p = (fun es => es ∖ D) <$> graph !! p;
  inv_heap : heap st ≡ₚ entry <$> elements (ready D);
}.

(** The reverse graph: who refers to an event. *)
Definition reverses (rev : gmap Id (gset Id)) : Prop :=
  ∀ n, n ∈ dom graph → ∃ ps, rev !! n = Some ps ∧ ∀ p, p ∈ ps ↔ n ∈ edges p.

Lemma edges_dom n m : m ∈ edges n → n ∈ dom graph.
Proof.
  unfold edges_of. rewrite elem_of_dom. destruct (_ !! n); simpl; [done|set_solver].
Qed.

Lemma least_ready_pop D (h r : list (Reverse (TieBreaker Id))) x :
  h ≡ₚ entry <$> elements (ready D) → heap_pop h = Some (x, r) →
  ∃ n, x = entry n ∧ n ∈ ready D ∧ least_ready key graph D = Some n
       ∧ r ≡ₚ entry <$> elements (ready D ∖ {[n]}).
Proof.
  intros Hh [Hp Hmax]%heap_pop_Some.
  assert (x ∈ entry <$> elements (ready D)) as (n & -> & Hn)%list_elem_of_fmap.
  { rewrite <-Hh, Hp. set_solver. }
  rewrite elem_of_elements in Hn.
  assert (elements (ready D) ≡ₚ n :: elements (ready D ∖ {[n]})) as Hels.
  { rewrite <-elements_union_singleton by set_solver.
    by rewrite <-(union_difference_L {[n]} (ready D)) by set_solver. }
  exists n. split_and!; [done..| |].
  - unfold least_ready. rewrite (sort_cons_min (tb key n) _ (tb key <$> elements (ready D ∖ {[n]}))).
    + done.
    + by rewrite Hels.
    + intros y (m & -> & Hm)%list_elem_of_fmap.
      assert (r ≡ₚ entry <$> elements (ready D ∖ {[n]})) as Hr.
      { apply (Permutation_cons_inv (a := entry n)). by rewrite <-Hp, Hh, Hels. }
      apply (Hmax (entry m)). rewrite Hr. by apply list_elem_of_fmap_2.
  - apply (Permutation_cons_inv (a := entry n)). by rewrite <-Hp, Hh, Hels.
Qed.

(** Emitting [n] makes ready exactly those whose last reference it was. *)
Lemma ready_step D n (ps : gset Id) :
  (∀ p, p ∈ D → edges p ⊆ D) → n ∈ ready D → (∀ p, p ∈ ps ↔ n ∈ edges p) →
  elements (ready ({[n]} ∪ D))
  ≡ₚ filter (fun p => edges p ∖ D ∖ {[n]} = ∅) (iter_set ps) ++ elements (ready D ∖ {[n]}).
Proof.
  intros Hcl [Hdom [HD Hn]]%elem_of_ready Hps. apply NoDup_Permutation.
  - apply NoDup_elements.
  - apply NoDup_app. split_and!; [|intros p|apply NoDup_elements].
    + apply NoDup_filter. rewrite iter_set_perm. apply NoDup_elements.
    + rewrite list_elem_of_filter, iter_set_perm, !elem_of_elements, Hps.
      rewrite elem_of_difference, elem_of_ready. set_solver.
  - intros p. rewrite elem_of_app, list_elem_of_filter, iter_set_perm, !elem_of_elements.
    rewrite elem_of_difference, !elem_of_ready, Hps, difference_twice_empty, elem_of_union.
    rewrite !elem_of_singleton. pose proof (edges_dom p n). split.
    + intros (Hp & HpD & Hsub). destruct (decide (n ∈ edges p)) as [Hnp|Hnp].
      * left. done.
      * right. split; [split_and!; [done|tauto|]|tauto].
        intros q Hq. specialize (Hsub q Hq). set_solver.
    + intros [[Hsub Hnp]|[(Hp & HpD & Hsub) Hne]].
      * split_and!; [auto| |done]. intros [->|HpD]; [by apply HD, Hn|by apply HD, (Hcl p)].
      * split_and!; [done|tauto|]. intros q Hq. apply elem_of_union. right. auto.
Qed.

Hypothesis key_fn_ok : ∀ n, n ∈ dom graph → key_fn n = Ok (key n).

Lemma relax_inv D st n r ps :
  kahn_inv D st → n ∈ ready D → r ≡ₚ entry <$> elements (ready D ∖ {[n]}) →
  (∀ p, p ∈ ps ↔ n ∈ edges p) →
  ∃ st', relax key_fn n (iter_set ps)
           {| outdegree_map := outdegree_map st; heap := r; sorted := sorted st |} = Ok st'
    ∧ sorted st' = sorted st
    ∧ kahn_inv ({[n]} ∪ D)
        {| outdegree_map := outdegree_map st'; heap := heap st'; sorted := sorted st' ++ [n] |}.
Proof.
  intros [Hcl Hodm Hheap] Hn Hr Hps.
  assert (Hedges : ∀ p, edges_of (outdegree_map st) p = edges p ∖ D).
  { intros p. unfold edges_of. rewrite Hodm. destruct (graph !! p); simpl; set_solver. }
  destruct (relax_spec n (iter_set ps)
    {| outdegree_map := outdegree_map st; heap := r; sorted := sorted st |})
    as (st' & Heq & Hs & Hodm' & Hheap').
  - rewrite iter_set_perm. apply NoDup_elements.
  - intros p. rewrite iter_set_perm, elem_of_elements, Hps. simpl. intros Hp%edges_dom.
    apply elem_of_dom in Hp as [es Hes]. rewrite Hodm, Hes. done.
  - intros p. rewrite iter_set_perm, elem_of_elements, Hps. intros Hp%edges_dom _. auto.
  - exists st'. split_and!; [done..|]. pose proof Hn as [Hdom [HnD Hsub]]%elem_of_ready. split.
    + intros p [->%elem_of_singleton|Hp]%elem_of_union; [set_solver|].
      specialize (Hcl p Hp). set_solver.
    + intros p. simpl. rewrite Hodm'. simpl. rewrite Hodm.
      destruct (graph !! p) as [es|] eqn:Hes; simpl; [|done]. f_equal.
      assert (n ∈ es ↔ p ∈ iter_set ps) as Hiff.
      { rewrite iter_set_perm, elem_of_elements, Hps. unfold edges_of. by rewrite Hes. }
      case_decide as Hd; [set_solver|]. rewrite <-Hiff in Hd. set_solver.
    + simpl. rewrite Hheap'. simpl. rewrite Hr, (ready_step D n ps) by done.
      rewrite fmap_app. f_equiv. f_equiv.
      erewrite filter_ext_in; [done|]. intros p _. simpl. by rewrite Hedges.
Qed.

Lemma drain_spec rev fuel D st :
  reverses rev → kahn_inv D st → size (dom graph ∖ D) ≤ fuel →
  drain key_fn fuel rev st = Ok (sorted st ++ greedy key graph fuel D).
Proof.
  intros Hrev. revert D st. induction fuel as [|fuel IH]; intros D st Hinv Hsize; simpl;
    pose proof (inv_heap _ _ Hinv) as Hheap;
    destruct (heap_pop (heap st)) as [[x r]|] eqn:Hpop.
  - exfalso. destruct (least_ready_pop D _ _ _ Hheap Hpop) as (n & -> & Hn & _).
    apply elem_of_ready in Hn as (Hdom & HD & _).
    pose proof (size_remove_lt (dom graph) D n Hdom HD). lia.
  - by rewrite app_nil_r.
  - destruct (least_ready_pop D _ _ _ Hheap Hpop) as (n & -> & Hn & Hleast & Hr).
    pose proof Hn as (Hdom & HD & _)%elem_of_ready.
    destruct (Hrev n Hdom) as (ps & Hps & Hpse). simpl. rewrite Hps. simpl.
    destruct (relax_inv D st n r ps Hinv Hn Hr Hpse) as (st' & -> & Hs & Hinv'). simpl.
    rewrite (IH ({[n]} ∪ D)); [|done|].
    + simpl. rewrite Hleast, Hs. by rewrite <-(assoc_L (++)).
    + pose proof (size_remove_lt (dom graph) D n Hdom HD). lia.
  - apply heap_pop_None in Hpop. rewrite Hpop in Hheap.
    symmetry in Hheap. apply Permutation_nil_r, fmap_nil_inv in Hheap.
    unfold least_ready. rewrite Hheap. simpl. by rewrite app_nil_r.
Qed.

(** The events without references are those ready at the start. *)
Lemma ready_empty : (filter (fun x => x.2 = ∅) (iter_map graph)).*1 ≡ₚ elements (ready ∅).
Proof.
  apply NoDup_Permutation; [|apply NoDup_elements|].
  - assert (NoDup (iter_map graph).*1) as Hnd.
    { rewrite iter_map_perm. apply NoDup_fst_map_to_list. }
    revert Hnd. generalize (iter_map graph). intros l.
    induction l as [|[n es] l IH]; intros Hnd; [constructor|].
    rewrite filter_cons. apply NoDup_cons in Hnd as [Hn Hnd].
    case_decide; [|auto]. apply NoDup_cons. split; [|auto].
    intros (x & Heq & Hx)%list_elem_of_fmap. apply Hn, list_elem_of_fmap.
    exists x. split; [done|]. by apply list_elem_of_filter in Hx as [_ ?].
  - intros n. rewrite elem_of_elements, elem_of_ready, list_elem_of_fmap, elem_of_dom.
    setoid_rewrite list_elem_of_filter. setoid_rewrite iter_map_perm. split.
    + intros ([m es] & -> & He & Hin%elem_of_map_to_list). simpl in *. subst es.
      unfold edges_of. rewrite Hin. split_and!; [by eexists|set_solver|done].
    + intros ([es Hes] & _ & Hsub). unfold edges_of in Hsub. rewrite Hes in Hsub.
      exists (n, es). simpl. split_and!; [done|set_solver|by apply elem_of_map_to_list].
Qed.

(** The optimised sort computes the reference. *)
Lemma topological_sort_reference :
  lexicographical_topological_sort key_fn graph = Ok (reference_sort key graph).
Proof.
  unfold lexicographical_topological_sort.
  destruct (scan_graph_spec (iter_map graph) ∅ []) as (rev & -> & Hsome & Hedges).
  { intros n Hn. apply key_fn_ok. rewrite iter_map_perm, elem_of_map_to_list in Hn.
    by apply elem_of_dom_2 in Hn. }
  simpl. rewrite (drain_spec rev _ ∅); [done|..].
  - intros n [es Hes]%elem_of_dom. destruct (Hsome n) as [ps Hps].
    + left. apply list_elem_of_fmap. exists (n, es).
      by rewrite iter_map_perm, elem_of_map_to_list.
    + exists ps. split; [done|]. intros p.
      transitivity (p ∈ edges_of rev n); [unfold edges_of; by rewrite Hps|].
      rewrite Hedges. unfold edges_of at 1. rewrite lookup_empty. simpl.
      setoid_rewrite iter_map_perm. setoid_rewrite elem_of_map_to_list.
      unfold edges_of. destruct (graph !! p) eqn:Hp; simpl; set_solver.
  - split.
    + set_solver.
    + intros p. simpl. destruct (graph !! p); simpl; [|done]. f_equal. set_solver.
    + simpl. by rewrite ready_empty.
  - rewrite difference_empty_L. by rewrite size_dom.
Qed.
End kahn_correct.

(** ** Properties of the reference *)
Section reference_facts.
Context {Id : Type} `{Countable Id, !Ord Id, !OrdLaws Id}.
Context (key : Id → Z * Z) (graph : gmap Id (gset Id)).
Implicit Types (n m : Id) (D : gset Id) (l : list Id).
#[local] Abbreviation ready := (ready graph).
#[local] Abbreviation edges := (edges_of graph).

Lemma least_ready_Some D n :
  least_ready key graph D = Some n →
  n ∈ ready D ∧ ∀ m, m ∈ ready D → ord_le (tb key n) (tb key m).
Proof.
  unfold least_ready. destruct (sort _) as [|t ts] eqn:Hsort; [done|].
  intros [= <-]. pose proof (sort_StronglySorted (tb key <$> elements (ready D))) as Hss.
  rewrite Hsort in Hss. apply StronglySorted_cons in Hss as [Hall _].
  assert (∀ m, m ∈ ready D ↔ tb key m ∈ t :: ts) as Hin.
  { intros m. rewrite <-Hsort, elem_of_sort, list_elem_of_fmap. setoid_rewrite elem_of_elements.
    split; [by eauto|]. intros (k & Heq & Hk). injection Heq as _ _ Heq. by subst. }
  assert (tb key (tb_event_id t) = t) as Ht.
  { assert (t ∈ t :: ts) as Ht by set_solver. rewrite <-Hsort, elem_of_sort in Ht.
    by apply list_elem_of_fmap in Ht as (k & -> & _). }
  split; [by rewrite Hin, Ht; left|]. intros m. rewrite Hin, Ht.
  intros [->|Hm]%elem_of_cons; [done|]. by eapply Forall_forall in Hall.
Qed.

Lemma least_ready_None D : least_ready key graph D = None → ready D = ∅.
Proof.
  unfold least_ready. destruct (sort _) as [|t ts] eqn:Hsort; [|done]. intros _.
  apply leibniz_equiv, elements_empty_inv.
  pose proof (sort_Permutation (tb key <$> elements (ready D))) as Hp.
  rewrite Hsort in Hp. by apply Permutation_nil_l in Hp as Hp%eq_sym%fmap_nil_inv.
Qed.

Lemma greedy_least fuel D l1 n l2 :
  greedy key graph fuel D = l1 ++ n :: l2 →
  least_ready key graph (list_to_set l1 ∪ D) = Some n.
Proof.
  revert D l1. induction fuel as [|fuel IH]; intros D l1; simpl.
  { intros []%app_cons_not_nil. }
  destruct (least_ready key graph D) as [m|] eqn:Hm; [|by intros []%app_cons_not_nil].
  destruct l1 as [|m' l1]; intros [= -> Hl]; simpl.
  - by rewrite union_empty_l_L.
  - rewrite <-(IH _ _ Hl). f_equal. set_solver.
Qed.

Lemma greedy_complete fuel D :
  size (dom graph ∖ D) ≤ fuel → ready (list_to_set (greedy key graph fuel D) ∪ D) = ∅.
Proof.
  revert D. induction fuel as [|fuel IH]; intros D Hsize; simpl.
  - apply Nat.le_0_r, size_empty_inv in Hsize. unfold TopoSort.ready.
    apply leibniz_equiv. intros n. rewrite elem_of_filter. set_solver.
  - destruct (least_ready key graph D) as [n|] eqn:Hn; simpl.
    + apply least_ready_Some in Hn as [[[HD _] Hdom]%elem_of_filter _].
      pose proof (size_remove_lt (dom graph) D n Hdom HD).
      rewrite <-(IH ({[n]} ∪ D)) by lia. f_equal. set_solver.
    + rewrite union_empty_l_L. by apply least_ready_None.
Qed.

#[local] Abbreviation sorted_events := (reference_sort key graph).

Lemma reference_step l1 n l2 :
  sorted_events = l1 ++ n :: l2 →
  n ∈ ready (list_to_set l1) ∧
  ∀ m, m ∈ ready (list_to_set l1) → ord_le (tb key n) (tb key m).
Proof.
  intros Hl%greedy_least. rewrite union_empty_r_L in Hl. by apply least_ready_Some.
Qed.

Lemma reference_exhausted n :
  n ∈ dom graph → (∀ m, m ∈ edges n → m ∈ sorted_events) → n ∈ sorted_events.
Proof.
  intros Hdom Hsub. destruct (decide (n ∈ sorted_events)) as [|Hn]; [done|exfalso].
  pose proof (greedy_complete (size graph) ∅) as Hr.
  rewrite difference_empty_L, size_dom, union_empty_r_L in Hr.
  specialize (Hr ltac:(done)). apply (not_elem_of_empty (C := gset Id) n).
  rewrite <-Hr. unfold TopoSort.ready. apply elem_of_filter. split; [split|done].
  - by rewrite elem_of_list_to_set.
  - intros m Hm. by apply elem_of_list_to_set, Hsub.
Qed.

Lemma reference_grounded n : n ∈ sorted_events ↔ grounded graph n.
Proof.
  split.
  - assert (∀ l, (∃ l2, sorted_events = l ++ l2) → ∀ n, n ∈ l → grounded graph n) as Hpre.
    { intros l. induction l as [|x l IH] using rev_ind; [set_solver|].
      intros [l2 Hl] m [Hm| ->%list_elem_of_singleton]%elem_of_app.
      { apply IH; [|done]. exists (x :: l2). by rewrite Hl, <-(assoc_L (++)). }
      rewrite <-(assoc_L (++)) in Hl. pose proof (reference_step _ _ _ Hl) as [Hr _].
      apply elem_of_filter in Hr as [[_ Hsub] [es Hes]%elem_of_dom].
      apply (grounded_intro _ x es); [done|]. intros m Hm.
      apply IH; [by eexists|]. apply (elem_of_list_to_set (C := gset Id)), Hsub.
      unfold edges_of. by rewrite Hes. }
    apply (Hpre sorted_events). exists []. by rewrite app_nil_r.
  - induction 1 as [n es Hes _ IH]. apply reference_exhausted.
    + by apply elem_of_dom.
    + unfold edges_of. by rewrite Hes.
Qed.

Lemma reference_NoDup : NoDup sorted_events.
Proof.
  assert (∀ l, (∃ l2, sorted_events = l ++ l2) → NoDup l) as Hpre.
  { intros l. induction l as [|x l IH] using rev_ind; [constructor|]. intros [l2 Hl].
    rewrite <-(assoc_L (++)) in Hl. apply NoDup_app. split_and!.
    - apply IH. by eexists.
    - apply reference_step in Hl as [Hr _]. apply elem_of_filter in Hr as [[Hx _] _].
      rewrite elem_of_list_to_set in Hx. intros y Hy ->%list_elem_of_singleton. done.
    - apply NoDup_singleton. }
  apply (Hpre sorted_events). exists []. by rewrite app_nil_r.
Qed.
End reference_facts.

(** The relation a graph stores: [m] is referenced by [n]. *)
Definition refers {Id} `{Countable Id} (graph : gmap Id (gset Id)) (m n : Id) : Prop :=
  m ∈ edges_of graph n.

(** In a well-founded graph closed under its edges every event can be emitted. *)
Lemma grounded_total {Id} `{Countable Id} (graph : gmap Id (gset Id)) :
  well_founded (refers graph) → (∀ n, edges_of graph n ⊆ dom graph) →
  ∀ n, n ∈ dom graph → grounded graph n.
Proof.
  intros Hwf Hclosed n. induction (Hwf n) as [n _ IH]. intros [es Hes]%elem_of_dom.
  assert (edges_of graph n = es) as He by (unfold edges_of; by rewrite Hes).
  apply (grounded_intro _ n es); [done|]. intros m Hm. apply IH.
  - unfold refers. by rewrite He.
  - apply (Hclosed n). by rewrite He.
Qed.

(** Whatever the keys, a sort that returns only emits events of the graph. *)
Section sort_nodes.
Context {Id : Type} `{Countable Id, !Ord Id, !OrdLaws Id, !HashIter Id, !HashIterLaws Id}.
Context {E : Type} (key_fn : Id → result E (Z * Z)) (nodes : gset Id).

Definition heap_within (h : list (Reverse (TieBreaker Id))) : Prop :=
  ∀ x, x ∈ h → tb_event_id (unReverse x) ∈ nodes.
Definition within (st : kahn_state Id) : Prop :=
  dom (outdegree_map st) ⊆ nodes ∧ heap_within (heap st) ∧ ∀ n, n ∈ sorted st → n ∈ nodes.

Lemma tie_break_within n t : tie_break key_fn n = Ok t → tb_event_id (unReverse t) = n.
Proof. intros (k & _ & Ht)%bind_Ok. by injection Ht as <-. Qed.

Lemma scan_graph_within items rev zero rev' zero' :
  (∀ n es, (n, es) ∈ items → n ∈ nodes) → heap_within zero →
  scan_graph key_fn items rev zero = Ok (rev', zero') → heap_within zero'.
Proof.
  revert rev zero. induction items as [|[n es] items IH]; intros rev zero Hin Hz; simpl.
  { by intros [= _ <-]. }
  intros (z & Hz' & Hok)%bind_Ok. apply IH in Hok; [done| |].
  { intros m es' Hm. eapply Hin. by right. }
  destruct (decide (es = ∅)); [|by injection Hz' as <-].
  apply bind_Ok in Hz' as (t & Ht%tie_break_within & Hz'). injection Hz' as <-.
  intros x [Hx| ->%list_elem_of_singleton]%elem_of_app; [by apply Hz|].
  rewrite Ht. eapply Hin. by left.
Qed.

Lemma relax_within node parents st st' :
  within st → relax key_fn node parents st = Ok st' → within st'.
Proof.
  revert st. induction parents as [|p parents IH]; intros st Hst; simpl; [by intros [= <-]|].
  intros (out & Hout%ok_or_Ok & (h & Hh & Hok)%bind_Ok)%bind_Ok. eapply IH; [|exact Hok].
  destruct Hst as (Hd & Hhp & Hs). apply elem_of_dom_2 in Hout.
  split_and!; simpl; [rewrite dom_insert_L; set_solver| |done].
  case_decide; [|by injection Hh as <-].
  apply bind_Ok in Hh as (t & Ht%tie_break_within & Hh). injection Hh as <-.
  intros x [->|Hx]%elem_of_cons; [rewrite Ht; set_solver|by apply Hhp].
Qed.

Lemma drain_within fuel rev st l :
  within st → drain key_fn fuel rev st = Ok l → ∀ n, n ∈ l → n ∈ nodes.
Proof.
  revert st. induction fuel as [|fuel IH]; intros st Hst; simpl;
    destruct (heap_pop (heap st)) as [[x r]|] eqn:Hpop; try done.
  1, 3: intros [= <-]; apply Hst.
  intros (ps & _ & (st' & Hst' & Hok)%bind_Ok)%bind_Ok. eapply IH; [|exact Hok].
  apply heap_pop_Some in Hpop as [Hp _]. destruct Hst as (Hd & Hh & Hs).
  assert (tb_event_id (unReverse x) ∈ nodes) as Hx by (apply Hh; rewrite Hp; by left).
  apply relax_within in Hst' as (Hd' & Hh' & Hs').
  - split_and!; [done|done|]. simpl. intros n [Hn| ->%list_elem_of_singleton]%elem_of_app; auto.
  - split_and!; [done| |done]. intros y Hy. apply Hh. rewrite Hp. by right.
Qed.
End sort_nodes.

Lemma topological_sort_nodes {Id} `{Countable Id, !Ord Id, !OrdLaws Id, !HashIter Id, !HashIterLaws Id}
    {E} (key_fn : Id → result E (Z * Z)) (graph : gmap Id (gset Id)) l :
  lexicographical_topological_sort key_fn graph = Ok l → ∀ n, n ∈ l → n ∈ dom graph.
Proof.
  unfold lexicographical_topological_sort. intros ([rev zero] & Hscan & Hdrain)%bind_Ok.
  eapply drain_within; [|exact Hdrain]. split_and!; simpl; [done| |by intros n ?%elem_of_nil].
  eapply scan_graph_within; [| |exact Hscan].
  - intros n es. rewrite iter_map_perm, elem_of_map_to_list. apply elem_of_dom_2.
  - by intros x ?%elem_of_nil.
Qed.

(** ** The properties of the sort *)
Section sort_properties.
Context {Id : Type} `{Countable Id, !Ord Id, !OrdLaws Id} {E : Type}.
Context (key_fn : Id → result E (Z * Z)) (key : Id → Z * Z) (graph : gmap Id (gset Id)).
Hypothesis key_fn_ok : ∀ n, n ∈ dom graph → key_fn n = Ok (key n).

(** C8: Kahn's sort returns (it neither panics nor exhausts its fuel) each
    event whose references can all be emitted exactly once; every event comes
    after all events it references and is, when emitted, the least of the ready
    events by power level (descending), timestamp and event ID.  Events on a
    cycle, behind one, or with a reference outside the graph are left out. *)
Theorem topological_sort_correct `{!HashIter Id, !HashIterLaws Id} :
  ∃ l, lexicographical_topological_sort key_fn graph = Ok l
    ∧ NoDup l
    ∧ (∀ n, n ∈ l ↔ grounded graph n)
    ∧ (∀ l1 n l2, l = l1 ++ n :: l2 →
         edges_of graph n ⊆ list_to_set l1
         ∧ ∀ m, m ∈ ready graph (list_to_set l1) → ord_le (tb key n) (tb key m)).
Proof.
  exists (reference_sort key graph). split_and!.
  - by apply topological_sort_reference.
  - apply reference_NoDup.
  - apply reference_grounded.
  - intros l1 n l2 Hl. apply reference_step in Hl as [Hr Hmin].
    split; [|done]. by apply elem_of_filter in Hr as [[_ ?] _].
Qed.

(** On an acyclic graph closed under its edges the sort returns every event
    of the graph exactly once. *)
Theorem topological_sort_complete `{!HashIter Id, !HashIterLaws Id} :
  well_founded (refers graph) → (∀ n, edges_of graph n ⊆ dom graph) →
  ∃ l, lexicographical_topological_sort key_fn graph = Ok l ∧ l ≡ₚ elements (dom graph).
Proof.
  intros Hwf Hclosed. exists (reference_sort key graph).
  split; [by apply topological_sort_reference|].
  apply NoDup_Permutation; [apply reference_NoDup|apply NoDup_elements|].
  intros n. rewrite elem_of_elements, reference_grounded.
  split; [|by apply grounded_total].
  destruct 1 as [n es Hes _]. by apply elem_of_dom.
Qed.

(** The order in which the hash maps and sets of the sort are iterated does
    not influence its result. *)
Theorem topological_sort_order_independent (h1 h2 : HashIter Id) :
  HashIterLaws Id (H0 := h1) → HashIterLaws Id (H0 := h2) →
  lexicographical_topological_sort (HashIter0 := h1) key_fn graph
  = lexicographical_topological_sort (HashIter0 := h2) key_fn graph.
Proof.
  intros L1 L2. rewrite (topological_sort_reference (HashIter0 := h1) _ key) by done.
  by rewrite (topological_sort_reference (HashIter0 := h2) _ key).
Qed.
End sort_properties.

(** ** Concrete graphs *)
Module TopoWitness.
Definition graph : gmap string (gset string) :=
  {[ "l" := {["o"]}; "m" := {["n"; "o"]}; "n" := {["o"]}; "o" := ∅; "p" := {["o"]} ]}.
Definition key (_ : string) : Z * Z := (0, 0)%Z.
Definition key_fn (n : string) : result unit (Z * Z) := Ok (key n).
Definition depth (n : string) : nat :=
  if decide (n = "m") then 2 else if decide (n = "o") then 0 else 1.

Lemma graph_edges n m :
  m ∈ edges_of graph n → depth m < depth n ∧ m ∈ dom graph.
Proof.
  unfold edges_of. destruct (graph !! n) as [es|] eqn:Hes; simpl; [|set_solver].
  intros Hm. apply elem_of_map_to_list in Hes.
  apply elem_of_elements in Hm. revert n es m Hes Hm.
  assert (Forall (fun x => Forall (fun m => depth m < depth x.1 ∧ m ∈ dom graph) (elements x.2))
            (map_to_list graph)) as Hall.
  { apply (bool_decide_unpack _). vm_compute. exact I. }
  intros n es m Hes Hm. eapply Forall_forall in Hall; [|exact Hes]. simpl in Hall.
  by eapply Forall_forall in Hall.
Qed.

Lemma graph_wf : well_founded (refers graph).
Proof.
  apply (wf_projected lt depth); [|apply lt_wf]. intros m n Hm. by apply graph_edges.
Qed.

Lemma topological_sort_correct_witness :
  ∃ l, lexicographical_topological_sort (HashIter0 := hash_iter_bwd string) key_fn graph = Ok l
    ∧ NoDup l.
Proof.
  destruct (topological_sort_correct key_fn key graph (fun _ _ => eq_refl)
              (HashIter0 := hash_iter_bwd string)) as (l & Hl & Hnd & _).
  exists l. split; [exact Hl|exact Hnd].
Defined.

Lemma topological_sort_complete_witness :
  ∃ l, lexicographical_topological_sort (HashIter0 := hash_iter_bwd string) key_fn graph = Ok l
    ∧ l ≡ₚ elements (dom graph).
Proof.
  exact (topological_sort_complete key_fn key graph (fun _ _ => eq_refl)
    (HashIter0 := hash_iter_bwd string) graph_wf (fun n m Hm => proj2 (graph_edges n m Hm))).
Defined.

Lemma topological_sort_order_independent_witness :
  lexicographical_topological_sort (HashIter0 := hash_iter_fwd string) key_fn graph
  = lexicographical_topological_sort (HashIter0 := hash_iter_bwd string) key_fn graph.
Proof.
  exact (topological_sort_order_independent key_fn key graph (fun _ _ => eq_refl)
    (hash_iter_fwd string) (hash_iter_bwd string) _ _).
Defined.

(** The unit test [test_lexicographical_sort] of the source. *)
Example sort_test :
  lexicographical_topological_sort (HashIter0 := hash_iter_bwd string) key_fn graph
  = Ok ["o"; "l"; "n"; "m"; "p"].
Proof. vm_compute. reflexivity. Qed.
End TopoWitness.
