(* ===== verification/Event.v ===== *)
(** Events and the interface to the Matrix library.

    [Pdu] is the event record of src/src/core/matrix/pdu.rs with the fields state
    resolution reads.  Identifiers and event types are strings, as they compare
    and hash in the source.  What the source takes from the ruma and serde_json
    crates is the class [Ruma]: the operations are its fields, and the documented
    behaviour a theorem relies on is the class [RumaLaws].  The enumerations and
    records below that come from ruma list the constructors and fields the source
    uses. *)

From stdpp Require Import prelude gmap strings.
From Stdlib.Strings Require Import Ascii.
From S2P Require Import Prelude.

Abbreviation EventId := string (only parsing).
Abbreviation UserId := string (only parsing).
Abbreviation RoomId := string (only parsing).

(** The errors of state resolution; the messages are left out.
    @src src/src/core/matrix/state_res/error.rs:5-23 Error *)
Inductive error : Set :=
| SerdeJson
| Unsupported
| NotFound
| InvalidPdu.

#[export] Instance error_eq_dec : EqDecision error.
Proof. solve_decision. Defined.

(** ** Types of the Matrix library *)

Inductive MembershipState : Set :=
| Ban | Invite | Join | Knock | Leave
| CustomMembership (s : string).
#[export] Instance MembershipState_eq_dec : EqDecision MembershipState.
Proof. solve_decision. Defined.

Inductive JoinRule : Set :=
| JRInvite | JRKnock | JRPrivate | JRRestricted | JRKnockRestricted | JRPublic
| JRCustom (s : string).
#[export] Instance JoinRule_eq_dec : EqDecision JoinRule.
Proof. solve_decision. Defined.

Inductive RoomIdFormatVersion : Set := RoomIdV1 | RoomIdV2.
#[export] Instance RoomIdFormatVersion_eq_dec : EqDecision RoomIdFormatVersion.
Proof. solve_decision. Defined.

Inductive StateResolutionVersion : Set :=
| StateResV1
| StateResV2 (consider_conflicted_state_subgraph : bool).

Record AuthorizationRules := {
  use_room_create_sender : bool;
  explicitly_privilege_room_creators : bool;
  special_case_room_aliases : bool;
  special_case_room_redaction : bool;
  knocking : bool;
  knock_restricted_join_rule : bool;
  limit_notifications_power_levels : bool;
  integer_power_levels : bool;
}.

Record RoomVersionRules := {
  state_res : StateResolutionVersion;
  room_id_format : RoomIdFormatVersion;
  authorization : AuthorizationRules;
}.

(** [RoomPowerLevelsEventContent]; [notifications_room] is [notifications.room].
    The maps are [BTreeMap]s, used through lookups and their key sets. *)
Record RoomPowerLevelsEventContent := {
  pl_ban : Z;
  pl_events : gmap string Z;
  pl_events_default : Z;
  pl_invite : Z;
  pl_kick : Z;
  pl_redact : Z;
  pl_state_default : Z;
  pl_users : gmap UserId Z;
  pl_users_default : Z;
  pl_notifications_room : Z;
}.

(** [UserPowerLevel]. *)
Inductive UserPowerLevel : Set :=
| Infinite
| IntLevel (level : Z).
#[export] Instance UserPowerLevel_eq_dec : EqDecision UserPowerLevel.
Proof. solve_decision. Defined.

(** [Raw<T>]: a lazily parsed value, which the source only ever [deserialize]s;
    it is represented by the outcome of that call. *)
Abbreviation raw T := (option T).

(** ** Content structures declared by the source *)

(** @src src/src/core/matrix/state_res/event_auth.rs:36-40 RoomMemberContentFields *)
Record RoomMemberContentFields := {
  mc_membership : option (raw MembershipState);
  mc_join_authorised_via_users_server : option (raw UserId);
}.

(** [room_version] is only tested for whether it deserializes.
    @src src/src/core/matrix/state_res/event_auth.rs:42-49 RoomCreateContentFields *)
Record RoomCreateContentFields := {
  cc_room_version : option (raw unit);
  cc_creator : option (raw UserId);
  cc_additional_creators : option (list (raw UserId));
  cc_federate : bool;
}.

(** @src src/src/core/matrix/state_res/mod.rs:607-611 RoomCreateContentFields *)
Record SortCreateContentFields := {
  sc_creator : option (raw UserId);
  sc_additional_creators : option (list (raw UserId));
}.

(** @src src/src/core/matrix/state_res/power_levels.rs:21-52 IntRoomPowerLevelsEventContent *)
Record IntRoomPowerLevelsEventContent := {
  int_ban : Z;
  int_events : gmap string Z;
  int_events_default : Z;
  int_invite : Z;
  int_kick : Z;
  int_redact : Z;
  int_state_default : Z;
  int_users : gmap UserId Z;
  int_users_default : Z;
  int_notifications_room : Z;
}.

(** ** The Matrix library *)

(** [json] is [RawJsonValue]; [de_T] is [serde_json::from_str::<T>] for a type [T]
    whose deserializer is derived. *)
Class Ruma := {
  json : Type;
  user_server_name : UserId → string;
  room_server_name : RoomId → option string;
  event_server_name : EventId → option string;
  is_user_id : string → bool;
  is_event_id : string → bool;
  is_room_id : string → bool;
  upl_cmp : UserPowerLevel → UserPowerLevel → comparison;
  pl_new : AuthorizationRules → RoomPowerLevelsEventContent;
  (** [serde_json::to_value(content)], then the named field read back as an integer. *)
  pl_serialized_level : RoomPowerLevelsEventContent → string → option Z;
  de_GetMembership : json → option MembershipState;
  de_RoomMemberContentFields : json → option RoomMemberContentFields;
  (** The structure of the same name local to [auth_types_for_event]. *)
  de_AuthTypesContentFields : json → option RoomMemberContentFields;
  de_GetThirdPartyInvite : json → option (option (raw unit));
  de_RoomMemberEventContent : json → option MembershipState;
  de_RoomCreateContentFields : json → option RoomCreateContentFields;
  de_SortCreateContentFields : json → option SortCreateContentFields;
  de_RoomJoinRulesEventContent : json → option JoinRule;
  de_RoomPowerLevelsEventContent : json → option RoomPowerLevelsEventContent;
  de_IntRoomPowerLevelsEventContent : json → option IntRoomPowerLevelsEventContent;
  (** The entries of [users], in document order, and [users_default]. *)
  de_PowerLevelsContentFields : json → option (list (UserId * Z) * Z);
  de_PowerLevelsContentInvite : json → option Z;
  de_IntPowerLevelsContentInvite : json → option Z;
  de_PowerLevelsContentRedact : json → option Z;
  de_IntPowerLevelsContentRedact : json → option Z;
}.

(** [UserPowerLevel]'s documented order: [Infinite] is above every integer.  And
    serde's derived deserializers: structures that name the same JSON field read
    the same value. *)
Class RumaLaws `{!Ruma} : Prop := {
  upl_cmp_infinite : upl_cmp Infinite Infinite = Eq;
  upl_cmp_infinite_l l : upl_cmp Infinite (IntLevel l) = Gt;
  upl_cmp_infinite_r l : upl_cmp (IntLevel l) Infinite = Lt;
  upl_cmp_level l k : upl_cmp (IntLevel l) (IntLevel k) = (l ?= k)%Z;
  de_auth_types_fields j f :
    de_AuthTypesContentFields j = Some f → de_RoomMemberContentFields j = Some f;
  de_membership_field j f m :
    de_RoomMemberContentFields j = Some f → mc_membership f = Some (Some m) →
    de_GetMembership j = Some m;
}.

Section power_order.
Context `{!Ruma}.

Definition upl_ltb (a b : UserPowerLevel) : bool :=
  match upl_cmp a b with Lt => true | _ => false end.
Definition upl_geb (a b : UserPowerLevel) : bool :=
  match upl_cmp a b with Lt => false | _ => true end.
(** [a > b] on options: [None] is below every [Some]. *)
Definition opt_upl_gtb (a b : option UserPowerLevel) : bool :=
  match a, b with
  | Some a, Some b => upl_ltb b a
  | Some _, None => true
  | None, _ => false
  end.

(** The power order as a proposition, for specifications. *)
Definition upl_le (a b : UserPowerLevel) : Prop :=
  match a, b with
  | _, Infinite => True
  | Infinite, IntLevel _ => False
  | IntLevel l, IntLevel k => (l ≤ k)%Z
  end.
Definition upl_lt (a b : UserPowerLevel) : Prop := ¬ upl_le b a.

Context `{!RumaLaws}.

Lemma upl_ltb_spec a b : upl_ltb a b = true ↔ upl_lt a b.
Proof.
  unfold upl_ltb, upl_lt. destruct a as [|l], b as [|k]; simpl.
  - rewrite upl_cmp_infinite. naive_solver.
  - rewrite upl_cmp_infinite_l. naive_solver.
  - rewrite upl_cmp_infinite_r. naive_solver.
  - rewrite upl_cmp_level. destruct (Z.compare_spec l k); split; try done; lia.
Qed.

Lemma upl_geb_spec a b : upl_geb a b = true ↔ upl_le b a.
Proof.
  unfold upl_geb. destruct a as [|l], b as [|k]; simpl.
  - by rewrite upl_cmp_infinite.
  - by rewrite upl_cmp_infinite_l.
  - by rewrite upl_cmp_infinite_r.
  - rewrite upl_cmp_level. destruct (Z.compare_spec l k); split; try done; lia.
Qed.

Lemma upl_ltb_false a b : upl_ltb a b = false ↔ upl_le b a.
Proof. rewrite <-upl_geb_spec. unfold upl_ltb, upl_geb. by destruct (upl_cmp a b). Qed.
End power_order.

#[export] Instance upl_le_dec a b : Decision (upl_le a b).
Proof. destruct a, b; simpl; apply _. Defined.
#[export] Instance upl_lt_dec a b : Decision (upl_lt a b).
Proof. unfold upl_lt. apply _. Defined.

(** ** Events *)

Section pdu.
Context `{!Ruma}.

(** The fields of [Pdu] that state resolution reads.
    @src src/src/core/matrix/pdu.rs:33-83 Pdu *)
Record Pdu := {
  event_id : EventId;
  room_id : option RoomId;
  sender : UserId;
  origin_server_ts : Z;
  kind : string;
  content : json;
  state_key : option string;
  prev_events : list EventId;
  auth_events : list EventId;
  redacts : option EventId;
  depth : Z;
}.

Definition RoomCreate : string := "m.room.create".
Definition RoomMember : string := "m.room.member".
Definition RoomPowerLevels : string := "m.room.power_levels".
Definition RoomJoinRules : string := "m.room.join_rules".
Definition RoomThirdPartyInvite : string := "m.room.third_party_invite".
Definition RoomRedaction : string := "m.room.redaction".
Definition RoomAliases : string := "m.room.aliases".

(** [str::replace] of one character by another. *)
Fixpoint replace_char (a b : Ascii.ascii) (s : string) : string :=
  match s with
  | EmptyString => EmptyString
  | String c s => String (if Ascii.eqb c a then b else c) (replace_char a b s)
  end.

(** [room_id_or_hash]; the [expect]s panic.
    @src src/src/core/matrix/pdu.rs:130-146 Pdu::room_id_or_hash *)
Definition room_id_or_hash {E} (ev : Pdu) : comp E RoomId :=
  if decide (kind ev ≠ RoomCreate) then expect (room_id ev)
  else match room_id ev with
       | Some room_id => Ok room_id
       | None =>
           let constructed_hash := replace_char "$"%char "!"%char (event_id ev) in
           if is_room_id constructed_hash then Ok constructed_hash else Err Panicked
       end.

(** @src src/src/core/matrix/state_res/mod.rs:1068-1092 EventTypeExt::with_state_key *)
Definition with_state_key (ty key : string) : string * string := (ty, key).
End pdu.

(** [StateMap]: from event type and state key. *)
Abbreviation StateMap T := (gmap (string * string) T).
