(* ===== verification/RumaExample.v ===== *)
(** A concrete instance of the interface to the Matrix library, on which the
    theorems that assume [RumaLaws] are evaluated.  Event contents are the few
    shapes the examples need; identifiers are recognised by their sigil, and a
    server name is what follows the first colon. *)

From stdpp Require Import prelude gmap strings list.
From Stdlib.Strings Require Import Ascii.
From S2P Require Import Prelude Event.

Inductive example_json : Type :=
| JMember (membership : MembershipState) (authorised : option UserId) (third_party : bool)
| JCreate (creator : option UserId) (additional : list UserId) (federate : bool)
| JPower (levels : RoomPowerLevelsEventContent) (entries : list (UserId * Z))
| JJoinRule (rule : JoinRule)
| JOther
| JBroken.

Fixpoint after_colon (s : string) : option string :=
  match s with
  | EmptyString => None
  | String c s => if Ascii.eqb c ":"%char then Some s else after_colon s
  end.
Definition has_sigil (a : ascii) (s : string) : bool :=
  match s with String c _ => Ascii.eqb c a | EmptyString => false end.

Definition example_upl_cmp (a b : UserPowerLevel) : comparison :=
  match a, b with
  | Infinite, Infinite => Eq
  | Infinite, IntLevel _ => Gt
  | IntLevel _, Infinite => Lt
  | IntLevel l, IntLevel k => (l ?= k)%Z
  end.

Definition default_levels : RoomPowerLevelsEventContent :=
  {| pl_ban := 50; pl_events := ∅; pl_events_default := 0; pl_invite := 0; pl_kick := 50;
     pl_redact := 50; pl_state_default := 50; pl_users := ∅; pl_users_default := 0;
     pl_notifications_room := 50 |}.

(** Levels equal to their default are left out of the serialised object. *)
Definition example_serialized_level (p : RoomPowerLevelsEventContent) (name : string) : option Z :=
  let field (get : RoomPowerLevelsEventContent → Z) :=
    if decide (get p = get default_levels) then None else Some (get p) in
  if decide (name = "users_default") then field pl_users_default
  else if decide (name = "events_default") then field pl_events_default
  else if decide (name = "state_default") then field pl_state_default
  else if decide (name = "ban") then field pl_ban
  else if decide (name = "redact") then field pl_redact
  else if decide (name = "kick") then field pl_kick
  else if decide (name = "invite") then field pl_invite
  else None.

Definition example_levels (j : example_json) : option RoomPowerLevelsEventContent :=
  match j with
  | JPower p entries => Some p
  | JBroken => None
  | _ => Some default_levels
  end.

#[export] Instance example_ruma : Ruma := {|
  json := example_json;
  user_server_name u := default "" (after_colon u);
  room_server_name := after_colon;
  event_server_name := after_colon;
  is_user_id := has_sigil "@";
  is_event_id := has_sigil "$";
  is_room_id := has_sigil "!";
  upl_cmp := example_upl_cmp;
  pl_new rules := default_levels;
  pl_serialized_level := example_serialized_level;
  de_GetMembership j := match j with JMember m _ _ => Some m | _ => None end;
  de_RoomMemberContentFields j :=
    match j with
    | JMember m a _ => Some {| mc_membership := Some (Some m);
                               mc_join_authorised_via_users_server := Some <$> a |}
    | JBroken => None
    | _ => Some {| mc_membership := None; mc_join_authorised_via_users_server := None |}
    end;
  de_AuthTypesContentFields j :=
    match j with
    | JMember m a _ => Some {| mc_membership := Some (Some m);
                               mc_join_authorised_via_users_server := Some <$> a |}
    | JBroken => None
    | _ => Some {| mc_membership := None; mc_join_authorised_via_users_server := None |}
    end;
  de_GetThirdPartyInvite j :=
    match j with
    | JMember _ _ true => Some (Some (Some tt))
    | JBroken => None
    | _ => Some None
    end;
  de_RoomMemberEventContent j := match j with JMember m _ _ => Some m | _ => None end;
  de_RoomCreateContentFields j :=
    match j with
    | JCreate c a f => Some {| cc_room_version := None; cc_creator := Some <$> c;
                               cc_additional_creators := Some (Some <$> a); cc_federate := f |}
    | JBroken => None
    | _ => Some {| cc_room_version := None; cc_creator := None;
                   cc_additional_creators := None; cc_federate := true |}
    end;
  de_SortCreateContentFields j :=
    match j with
    | JCreate c a f => Some {| sc_creator := Some <$> c; sc_additional_creators := Some (Some <$> a) |}
    | JBroken => None
    | _ => Some {| sc_creator := None; sc_additional_creators := None |}
    end;
  de_RoomJoinRulesEventContent j := match j with JJoinRule r => Some r | _ => None end;
  de_RoomPowerLevelsEventContent := example_levels;
  de_IntRoomPowerLevelsEventContent j :=
    p ← example_levels j;
    Some {| int_ban := pl_ban p; int_events := pl_events p; int_events_default := pl_events_default p;
            int_invite := pl_invite p; int_kick := pl_kick p; int_redact := pl_redact p;
            int_state_default := pl_state_default p; int_users := pl_users p;
            int_users_default := pl_users_default p;
            int_notifications_room := pl_notifications_room p |};
  de_PowerLevelsContentFields j :=
    match j with
    | JPower p entries => Some (entries, pl_users_default p)
    | JBroken => None
    | _ => Some ([], 0%Z)
    end;
  de_PowerLevelsContentInvite j := pl_invite <$> example_levels j;
  de_IntPowerLevelsContentInvite j := pl_invite <$> example_levels j;
  de_PowerLevelsContentRedact j := pl_redact <$> example_levels j;
  de_IntPowerLevelsContentRedact j := pl_redact <$> example_levels j;
|}.

#[export] Instance example_ruma_laws : RumaLaws.
Proof. split; try done; intros []; naive_solver. Qed.

(** Authorisation rules of room version 11 and of room version 12. *)
Definition auth_v11 : AuthorizationRules := {|
  use_room_create_sender := true;
  explicitly_privilege_room_creators := false;
  special_case_room_aliases := false;
  special_case_room_redaction := false;
  knocking := true;
  knock_restricted_join_rule := true;
  limit_notifications_power_levels := true;
  integer_power_levels := true;
|}.
Definition auth_v12 : AuthorizationRules := {|
  use_room_create_sender := true;
  explicitly_privilege_room_creators := true;
  special_case_room_aliases := false;
  special_case_room_redaction := false;
  knocking := true;
  knock_restricted_join_rule := true;
  limit_notifications_power_levels := true;
  integer_power_levels := true;
|}.
Definition room_v11 : RoomVersionRules :=
  {| state_res := StateResV2 false; room_id_format := RoomIdV1; authorization := auth_v11 |}.
Definition room_v12 : RoomVersionRules :=
  {| state_res := StateResV2 true; room_id_format := RoomIdV2; authorization := auth_v12 |}.

(** A room: alice created it and has level 100, bob is a member with level 50,
    carol and dave are ordinary. *)
Definition mk_event (id : EventId) (ty : string) (who : UserId) (key : option string)
    (j : example_json) (auth : list EventId) : Pdu :=
  {| event_id := id; room_id := Some "!r:a"; sender := who; origin_server_ts := 0; kind := ty;
     content := j; state_key := key; prev_events := []; auth_events := auth; redacts := None; depth := 1 |}.

Definition alice : UserId := "@alice:a".
Definition bob : UserId := "@bob:a".
Definition carol : UserId := "@carol:b".
Definition dave : UserId := "@dave:c".

Definition ev_create : Pdu := mk_event "$create" RoomCreate alice (Some "") (JCreate None [] true) [].
Definition room_levels : RoomPowerLevelsEventContent :=
  {| pl_ban := 50; pl_events := {["m.room.name" := 50%Z]}; pl_events_default := 0; pl_invite := 0;
     pl_kick := 50; pl_redact := 50; pl_state_default := 50;
     pl_users := {[alice := 100%Z; bob := 50%Z]}; pl_users_default := 0;
     pl_notifications_room := 50 |}.
Definition ev_levels : Pdu :=
  mk_event "$levels" RoomPowerLevels alice (Some "")
    (JPower room_levels [(alice, 100%Z); (bob, 50%Z)]) ["$create"; "$alice"].
Definition ev_member (id : EventId) (who : UserId) (m : MembershipState) : Pdu :=
  mk_event id RoomMember who (Some who) (JMember m None false) ["$create"].
Definition ev_rules (r : JoinRule) : Pdu :=
  mk_event "$rules" RoomJoinRules alice (Some "") (JJoinRule r) ["$create"; "$alice"; "$levels"].

Definition room_state (r : JoinRule) : StateMap Pdu :=
  {[ (RoomCreate, "") := ev_create;
     (RoomPowerLevels, "") := ev_levels;
     (RoomJoinRules, "") := ev_rules r;
     (RoomMember, alice) := ev_member "$alice" alice Join;
     (RoomMember, bob) := ev_member "$bob" bob Join;
     (RoomMember, carol) := ev_member "$carol" carol Join ]}.

(** ** Event stores given as lists of events *)

Definition store_of (l : list Pdu) (id : EventId) : option Pdu :=
  snd <$> list_find (fun ev => event_id ev = id) l.
Definition store_ids (l : list Pdu) : gset EventId := list_to_set (event_id <$> l).

(** An event's place in the list, from one. *)
Definition store_rank (l : list Pdu) (id : EventId) : nat :=
  match list_find (fun ev => event_id ev = id) l with Some (i, _) => S i | None => 0 end.

(** Every event comes after its auth events. *)
Definition store_ordered (l : list Pdu) : Prop :=
  Forall (fun ev => Forall (fun a => store_rank l a < store_rank l (event_id ev)) (auth_events ev)) l.
#[export] Instance store_ordered_dec l : Decision (store_ordered l).
Proof. unfold store_ordered. apply _. Defined.

Lemma store_of_Some l id ev : store_of l id = Some ev → ev ∈ l ∧ event_id ev = id.
Proof.
  unfold store_of. intros ([i ev'] & Hf & ->)%fmap_Some_1.
  apply list_find_Some in Hf as (Hl & Hid & _). split; [by eapply list_elem_of_lookup_2|done].
Qed.
