(* ===== verification/PowerLevels.v ===== *)
(** Power level contents (src/src/core/matrix/state_res/power_levels.rs) and the
    sorted vectors they are read into (serde_backports.rs). *)

From stdpp Require Import prelude gmap strings sorting.
From S2P Require Import Prelude Event RumaExample.

(** ** Sorted vectors *)

(** [Vec::dedup_by(|a, b| a.0 == b.0)]: drop every entry whose key is that of the
    last one kept.
    @src src/src/core/matrix/state_res/serde_backports.rs:66-67 visit_map *)
Fixpoint dedup_by_key {K V} `{EqDecision K} (prev : K) (l : list (K * V)) : list (K * V) :=
  match l with
  | [] => []
  | (k, v) :: l =>
      if decide (k = prev) then dedup_by_key prev l else (k, v) :: dedup_by_key k l
  end.

(** [visit_map] of [vec_deserialize_v1_powerlevel_values] and
    [vec_deserialize_int_powerlevel_values], on the entries the parser yields.
    @src src/src/core/matrix/state_res/serde_backports.rs:56-70 visit_map *)
Definition visit_map {K V} `{EqDecision K, Ord K, Ord V} (entries : list (K * V)) : list (K * V) :=
  match sort entries with
  | [] => []
  | (k, v) :: l => (k, v) :: dedup_by_key k l
  end.

(** [slice::binary_search_by]: halve the window [base, base + size). *)
Fixpoint binary_search_loop {A} (f : A → comparison) (l : list A) (fuel base size : nat) : nat :=
  match fuel with
  | O => base
  | S fuel =>
      if decide (size ≤ 1) then base
      else
        let half := size / 2 in
        let mid := base + half in
        let base := match f <$> l !! mid with Some Gt => base | _ => mid end in
        binary_search_loop f l fuel base (size - half)
  end.
Definition binary_search_by {A} (f : A → comparison) (l : list A) : option nat :=
  let base := binary_search_loop f l (length l) 0 (length l) in
  match f <$> l !! base with Some Eq => Some base | _ => None end.

(** ** Power level contents *)

Section power_levels.
Context `{!Ruma}.

(** @src src/src/core/matrix/state_res/power_levels.rs:54-85 into_room_power_levels_content *)
Definition into_room_power_levels_content (self : IntRoomPowerLevelsEventContent)
    (auth_rules : AuthorizationRules) : RoomPowerLevelsEventContent :=
  {| pl_ban := int_ban self;
     pl_events := int_events self;
     pl_events_default := int_events_default self;
     pl_invite := int_invite self;
     pl_kick := int_kick self;
     pl_redact := int_redact self;
     pl_state_default := int_state_default self;
     pl_users := int_users self;
     pl_users_default := int_users_default self;
     pl_notifications_room := int_notifications_room self |}.

(** @src src/src/core/matrix/state_res/power_levels.rs:119-130 deserialize_integer_power_levels *)
Definition deserialize_integer_power_levels (content : json) (auth_rules : AuthorizationRules)
  : option RoomPowerLevelsEventContent :=
  match de_IntRoomPowerLevelsEventContent content with
  | Some content => Some (into_room_power_levels_content content auth_rules)
  | None => None
  end.

(** @src src/src/core/matrix/state_res/power_levels.rs:132-142 deserialize_legacy_power_levels *)
Definition deserialize_legacy_power_levels (content : json) : option RoomPowerLevelsEventContent :=
  de_RoomPowerLevelsEventContent content.

(** @src src/src/core/matrix/state_res/power_levels.rs:107-117 deserialize_power_levels *)
Definition deserialize_power_levels (content : json) (room_version : RoomVersionRules)
  : option RoomPowerLevelsEventContent :=
  if integer_power_levels (authorization room_version)
  then deserialize_integer_power_levels content (authorization room_version)
  else deserialize_legacy_power_levels content.

(** @src src/src/core/matrix/state_res/power_levels.rs:144-151 PowerLevelsContentFields *)
Record PowerLevelsContentFields := {
  users : list (UserId * Z);
  users_default : Z;
}.

(** [from_json_str::<PowerLevelsContentFields>]: the parser's entries, collected by
    [visit_map].
    @src src/src/core/matrix/state_res/serde_backports.rs:19-73 vec_deserialize_v1_powerlevel_values *)
Definition parse_power_levels_content_fields (content : json) : option PowerLevelsContentFields :=
  '(entries, default_level) ← de_PowerLevelsContentFields content;
  Some {| users := visit_map entries; users_default := default_level |}.

(** @src src/src/core/matrix/state_res/power_levels.rs:153-165 PowerLevelsContentFields::get_user_power *)
Definition get_user_power (self : PowerLevelsContentFields) (user_id : UserId) : option Z :=
  let comparator := fun item : UserId * Z => ord_cmp item.1 user_id in
  idx ← binary_search_by comparator (users self);
  item ← users self !! idx;
  Some item.2.

(** @src src/src/core/matrix/state_res/power_levels.rs:202-211 deserialize_power_levels_content_invite *)
Definition deserialize_power_levels_content_invite (content : json) (room_version : RoomVersionRules)
  : result error Z :=
  ok_or SerdeJson
    (if integer_power_levels (authorization room_version)
     then de_IntPowerLevelsContentInvite content
     else de_PowerLevelsContentInvite content).

(** @src src/src/core/matrix/state_res/power_levels.rs:232-241 deserialize_power_levels_content_redact *)
Definition deserialize_power_levels_content_redact (content : json) (room_version : RoomVersionRules)
  : result error Z :=
  ok_or SerdeJson
    (if integer_power_levels (authorization room_version)
     then de_IntPowerLevelsContentRedact content
     else de_PowerLevelsContentRedact content).
End power_levels.

(** ** Binary search finds what is there *)

Section search.
Context {K V : Type} `{EqDecision K, OrdLaws K, OrdLaws V}.
Implicit Types (l entries : list (K * V)) (k : K).

(** Keys strictly increase. *)
Definition keys_increase (l : list (K * V)) : Prop := StronglySorted (fun x y => ord_lt x.1 y.1) l.

Lemma keys_increase_lookup l i j x y :
  keys_increase l → l !! i = Some x → l !! j = Some y → i < j → ord_lt x.1 y.1.
Proof.
  intros Hs. revert i j. induction Hs as [|z l Hs IH Hall]; intros i j Hi Hj Hij; [done|].
  destruct j as [|j]; [lia|]. destruct i as [|i]; simpl in *.
  - injection Hi as ->. rewrite Forall_lookup in Hall. by eapply Hall.
  - by eapply (IH i j); [..|lia].
Qed.

Lemma binary_search_loop_spec l fuel base size i k v :
  keys_increase l → l !! i = Some (k, v) →
  base ≤ i < base + size → base + size ≤ length l → size ≤ S fuel →
  binary_search_loop (fun item => ord_cmp item.1 k) l fuel base size = i.
Proof.
  intros Hs Hi. revert base size. induction fuel as [|fuel IH]; intros base size Hb Hlen Hf; cbn [binary_search_loop].
  { lia. }
  case_decide; [lia|].
  assert (1 ≤ size / 2 ∧ size / 2 + size / 2 ≤ size) as Hhalf.
  { pose proof (Nat.div_mod_eq size 2). pose proof (Nat.mod_upper_bound size 2). lia. }
  set (half := size / 2) in *.
  destruct (lookup_lt_is_Some_2 l (base + half)) as [[k' v'] Hmid]; [lia|].
  rewrite Hmid. simpl. destruct (ord_cmp k' k) eqn:Hcmp; apply IH; try lia.
  - apply ord_eq in Hcmp as ->. destruct (decide (i < base + half)) as [Hlt|]; [|lia].
    pose proof (keys_increase_lookup _ _ _ _ _ Hs Hi Hmid Hlt) as Hkk.
    by apply ord_lt_irrefl in Hkk.
  - destruct (decide (i < base + half)) as [Hlt|]; [|lia].
    pose proof (keys_increase_lookup _ _ _ _ _ Hs Hi Hmid Hlt) as Hkk.
    by pose proof (ord_lt_irrefl k (ord_lt_trans _ _ _ Hkk Hcmp)).
  - apply ord_gt_lt in Hcmp. destruct (decide (base + half ≤ i)); [|lia].
    destruct (decide (base + half = i)) as [Heq|].
    + rewrite Heq, Hi in Hmid. injection Hmid as -> ->. by apply ord_lt_irrefl in Hcmp.
    + pose proof (keys_increase_lookup _ _ _ _ _ Hs Hmid Hi ltac:(lia)) as Hkk.
      by pose proof (ord_lt_irrefl k (ord_lt_trans _ _ _ Hcmp Hkk)).
Qed.

Lemma binary_search_spec l k i :
  keys_increase l →
  binary_search_by (fun item => ord_cmp item.1 k) l = Some i ↔ ∃ v, l !! i = Some (k, v).
Proof.
  intros Hs. unfold binary_search_by. split.
  - destruct (l !! _) as [[k' v]|] eqn:Hl; simpl; [|done].
    destruct (ord_cmp k' k) eqn:Hc; try done. intros [= <-].
    apply ord_eq in Hc as ->. eauto.
  - intros [v Hi]. pose proof (lookup_lt_Some _ _ _ Hi).
    rewrite (binary_search_loop_spec l (length l) 0 (length l) i k v) by (done || lia).
    rewrite Hi. simpl. by rewrite ord_refl.
Qed.

Lemma pair_le_fst (x y : K * V) : ord_le x y → ord_le x.1 y.1.
Proof.
  destruct x as [a b], y as [c d]. unfold ord_le. rewrite prod_cmp. simpl.
  by destruct (ord_cmp a c).
Qed.

Lemma pair_le_snd k (v w : V) : ord_le (k, v) (k, w) ↔ ord_le v w.
Proof. unfold ord_le. by rewrite prod_cmp, ord_refl. Qed.

(** The least value paired with a key. *)
Definition least_entry (l : list (K * V)) (k : K) (v : V) : Prop :=
  (k, v) ∈ l ∧ ∀ w, (k, w) ∈ l → ord_le v w.

Lemma least_entry_exists (l : list (K * V)) k v : (k, v) ∈ l → ∃ w, least_entry l k w.
Proof.
  revert v. induction l as [|[k' v'] l IH]; intros v; [set_solver|].
  destruct (decide (k = k')) as [->|Hk].
  - intros _. destruct (decide (Exists (fun x => x.1 = k') l)) as [Hex|Hnex].
    + apply Exists_exists in Hex as ([k'' w] & Hw & Heq). simpl in Heq. subst k''.
      destruct (IH w Hw) as (u & Hu & Hmin).
      destruct (total ord_le v' u).
      * exists v'. split; [by left|]. intros w' [[= ->]|Hw']%elem_of_cons; [done|].
        trans u; [done|]. by apply Hmin.
      * exists u. split; [by right|]. intros w' [[= ->]|Hw']%elem_of_cons; [done|by apply Hmin].
    + exists v'. split; [by left|]. intros w [[= ->]|Hw]%elem_of_cons; [done|].
      exfalso. apply Hnex, Exists_exists. exists (k', w). done.
  - intros [[= -> ->]|Hin]%elem_of_cons; [done|]. destruct (IH v Hin) as (u & Hu & Hmin).
    exists u. split; [by right|]. intros w [[= -> ->]|Hw]%elem_of_cons; [done|by apply Hmin].
Qed.

Lemma dedup_by_key_spec k0 v0 l :
  StronglySorted ord_le ((k0, v0) :: l) →
  keys_increase ((k0, v0) :: dedup_by_key k0 l)
  ∧ ∀ k v, (k, v) ∈ (k0, v0) :: dedup_by_key k0 l ↔ least_entry ((k0, v0) :: l) k v.
Proof.
  revert k0 v0. induction l as [|[k v] l IH]; intros k0 v0 Hs; simpl.
  { split; [by repeat constructor|]. intros k v. unfold least_entry.
    rewrite !list_elem_of_singleton. split; [|by intros []].
    intros [= -> ->]. split; [done|]. by intros w [= ->]%list_elem_of_singleton. }
  apply StronglySorted_cons in Hs as [Hle Hs]. case_decide as Hk.
  - subst k. apply Forall_cons in Hle as [Hv Hle]. apply pair_le_snd in Hv.
    destruct (IH k0 v0) as [Hinc Hmem].
    { apply StronglySorted_cons in Hs as [_ Hs]. by apply StronglySorted_cons. }
    split; [done|]. intros k w. rewrite Hmem. unfold least_entry.
    repeat setoid_rewrite elem_of_cons. split.
    + intros [Hin Hmin]. split; [naive_solver|].
      intros w' [?|[[= -> ->]|?]]; [by apply Hmin; left| |by apply Hmin; right].
      trans v0; [|done]. apply Hmin. by left.
    + intros [Hin Hmin]. split; [|naive_solver].
      destruct Hin as [?|[[= -> ->]|?]]; [by left| |by right].
      left. f_equal. apply (anti_symm ord_le); [|done]. apply Hmin. by left.
  - destruct (IH k v Hs) as [Hinc Hmem].
    assert (ord_lt k0 k) as Hlt.
    { apply Forall_cons in Hle as [Hle%pair_le_fst _]. simpl in Hle.
      apply ord_le_alt in Hle as [|]; [done|congruence]. }
    assert (∀ x, x ∈ (k, v) :: l → ord_lt k0 x.1) as Hall.
    { intros x Hx. apply StronglySorted_cons in Hs as [Hle' _].
      apply elem_of_cons in Hx as [->|Hx]; [done|].
      pose proof (proj1 (Forall_forall _ _) Hle' x Hx) as Hkx%pair_le_fst. simpl in Hkx.
      apply ord_le_alt in Hkx as [Hkx|<-]; [by eapply ord_lt_trans|done]. }
    split.
    + apply StronglySorted_cons. split; [|done]. apply Forall_forall.
      intros [k' v'] [Hin _]%Hmem. by apply Hall.
    + intros k' v'. rewrite elem_of_cons, Hmem. unfold least_entry. split.
      * intros [[= -> ->]|[Hin Hmin]].
        -- split; [by left|]. intros w [[= ->]|Hw%Hall]%elem_of_cons; [done|].
           by apply ord_lt_irrefl in Hw.
        -- split; [by right|]. intros w [[= -> ->]|Hw]%elem_of_cons; [|by apply Hmin].
           apply Hall in Hin. by apply ord_lt_irrefl in Hin.
      * intros [[[= -> ->]|Hin]%elem_of_cons Hmin]; [by left|right].
        split; [done|]. intros w Hw. apply Hmin. by right.
Qed.

Lemma visit_map_spec entries :
  keys_increase (visit_map entries)
  ∧ ∀ k v, (k, v) ∈ visit_map entries ↔ least_entry entries k v.
Proof.
  unfold visit_map. pose proof (sort_StronglySorted entries) as Hs.
  assert (∀ k v, least_entry (sort entries) k v ↔ least_entry entries k v) as Hiff.
  { intros k v. unfold least_entry. by setoid_rewrite elem_of_sort. }
  destruct (sort entries) as [|[k0 v0] l].
  - split; [constructor|]. intros k v. rewrite <-Hiff. unfold least_entry. set_solver.
  - destruct (dedup_by_key_spec k0 v0 l Hs) as [Hinc Hmem]. split; [done|].
    intros k v. by rewrite Hmem.
Qed.
End search.

Section user_power.
Context `{!Ruma}.

(** For a power level content read from the entries of its [users] object,
    [get_user_power] (a binary search of the sorted, deduplicated vector) returns
    the user's level: the least one when the object repeats the user, and nothing
    exactly when the user has no entry. *)
Theorem get_user_power_correct (content : json) entries default_level (user_id : UserId) :
  de_PowerLevelsContentFields content = Some (entries, default_level) →
  ∃ fields, parse_power_levels_content_fields content = Some fields
    ∧ users_default fields = default_level
    ∧ (∀ level, get_user_power fields user_id = Some level ↔ least_entry entries user_id level)
    ∧ (get_user_power fields user_id = None ↔ ∀ level, (user_id, level) ∉ entries).
Proof.
  intros Hde. unfold parse_power_levels_content_fields. rewrite Hde. simpl. eexists.
  pose proof (visit_map_spec entries) as [Hinc Hmem].
  assert (∀ level, get_user_power {| users := visit_map entries; users_default := default_level |}
                     user_id = Some level ↔ least_entry entries user_id level) as Hget.
  { intros level. rewrite <-Hmem, list_elem_of_lookup. unfold get_user_power. simpl. split.
    - intros (i & (v & Hi)%binary_search_spec & Hl)%bind_Some; [|done].
      rewrite Hi in Hl. injection Hl as ->. eauto.
    - intros [i Hi]. rewrite (proj2 (binary_search_spec _ user_id i Hinc)) by eauto.
      simpl. by rewrite Hi. }
  split_and!; [done..|]. split.
  - intros Hnone level Hin.
    destruct (least_entry_exists entries user_id level Hin) as [v Hv].
    apply Hget in Hv. congruence.
  - intros Hno. apply eq_None_not_Some. intros [v [Hin _]%Hget].
    by apply Hno in Hin.
Qed.
End user_power.

(** The entries repeat bob: his level is the lower one. *)
Lemma get_user_power_correct_witness :
  let entries := [(bob, 50%Z); (alice, 100%Z); (bob, 20%Z)] in
  ∃ fields, parse_power_levels_content_fields
              (content (mk_event "$p" RoomPowerLevels alice (Some "") (JPower room_levels entries) []))
            = Some fields
    ∧ users_default fields = 0%Z
    ∧ (∀ level, get_user_power fields bob = Some level ↔ least_entry entries bob level)
    ∧ (get_user_power fields bob = None ↔ ∀ level, (bob, level) ∉ entries).
Proof. apply get_user_power_correct. reflexivity. Defined.
Example get_user_power_bob :
  match parse_power_levels_content_fields
    (content (mk_event "$p" RoomPowerLevels alice (Some "")
       (JPower room_levels [(bob, 50%Z); (alice, 100%Z); (bob, 20%Z)]) [])) with
  | Some fields => get_user_power fields bob | None => None end = Some 20%Z.
Proof. vm_compute. reflexivity. Qed.
