(* ===== verification/EventAuth.v ===== *)
(** Event authorisation: src/src/core/matrix/state_res/event_auth.rs.

    [auth_check] is split where the source branches on the event type:
    [auth_check_create], [auth_check_member] and [auth_check_other], and
    [valid_membership_change] has one definition per arm of its final match.
    [fetch_state] is a function, as every caller passes a lookup in a state
    snapshot.  Log calls are left out. *)

From stdpp Require Import prelude gmap strings.
From Stdlib.Strings Require Import Ascii.
From S2P Require Import Prelude Event PowerLevels.

Section event_auth.
Context `{!Ruma}.
Implicit Types (room_version : RoomVersionRules) (ev : Pdu).

Abbreviation auth A := (comp error A).

(** [from_json_str(..)?] and [deserialize()?]. *)
Definition parse {A} (o : option A) : auth A := ok_or_fail SerdeJson o.

(** ** The auth events an event selects *)

(** [if !auth_types.contains(&key) { auth_types.push(key) }].
    @src src/src/core/matrix/state_res/event_auth.rs:99-101 auth_types_for_event *)
Definition push_key (auth_types : list (string * string)) (key : string * string) : list (string * string) :=
  if decide (key ∈ auth_types) then auth_types else auth_types ++ [key].

(** [content.field.map(|m| m.deserialize())] matched against [Some(Ok(x))]. *)
Definition raw_ok {A} (o : option (raw A)) : option A := mjoin o.

(** @src src/src/core/matrix/state_res/event_auth.rs:58-134 auth_types_for_event *)
Definition auth_types_for_event (kind : string) (sender : UserId) (state_key : option string)
    (content : json) (room_version : RoomVersionRules) : result error (list (string * string)) :=
  if decide (kind = RoomCreate) then Ok []
  else
    let auth_types :=
      if decide (room_id_format room_version = RoomIdV2)
      then [(RoomPowerLevels, ""); (RoomMember, sender)]
      else [(RoomPowerLevels, ""); (RoomMember, sender); (RoomCreate, "")] in
    if decide (kind = RoomMember) then
      match state_key with
      | Some state_key =>
          content ← ok_or SerdeJson (de_AuthTypesContentFields content);
          match raw_ok (mc_membership content) with
          | Some membership =>
              let auth_types :=
                if decide (membership ∈ [Join; Invite; Knock]) then
                  let auth_types := push_key auth_types (RoomJoinRules, "") in
                  match raw_ok (mc_join_authorised_via_users_server content) with
                  | Some u => push_key auth_types (RoomMember, u)
                  | None => auth_types
                  end
                else auth_types in
              Ok (push_key auth_types (RoomMember, state_key))
          | None => Ok auth_types
          end
      | None => Ok auth_types
      end
    else Ok auth_types.

(** ** Power levels of users *)

(** @src src/src/core/matrix/state_res/event_auth.rs:136-159 get_user_power_level *)
Definition get_user_power_level (room_version_rules : RoomVersionRules) (creator : UserId)
    (additional_creators : list (raw UserId)) (power_levels : option RoomPowerLevelsEventContent)
    (user_id : UserId) : UserPowerLevel :=
  if explicitly_privilege_room_creators (authorization room_version_rules)
     && (bool_decide (user_id = creator)
         || existsb (fun c => bool_decide (c = Some user_id)) additional_creators)
  then Infinite
  else
    match power_levels with
    | Some pls => IntLevel (default (pl_users_default pls) (pl_users pls !! user_id))
    | None => IntLevel (if decide (user_id = creator) then 100 else 0)
    end.

(** @src src/src/core/matrix/state_res/event_auth.rs:1414-1436 get_send_level *)
Definition get_send_level (e_type : string) (state_key : option string) (power_lvl : option Pdu) : Z :=
  match ple ← power_lvl; de_RoomPowerLevelsEventContent (content ple) with
  | Some content =>
      match pl_events content !! e_type with
      | Some level => level
      | None => if decide (is_Some state_key) then pl_state_default content
                else pl_events_default content
      end
  | None => if decide (is_Some state_key) then 50 else 0
  end.

(** [k.starts_with('@')]. *)
Definition starts_with_at (s : string) : bool :=
  match s with
  | String c _ => Ascii.eqb c "@"%char
  | EmptyString => false
  end.

(** @src src/src/core/matrix/state_res/event_auth.rs:1113-1152 can_send_event *)
Definition can_send_event (event : Pdu) (ple : option Pdu) (user_level : UserPowerLevel) : bool :=
  let event_type_power_level := get_send_level (kind event) (state_key event) ple in
  if upl_ltb user_level (IntLevel event_type_power_level) then false
  else if match state_key event with
          | Some k => starts_with_at k && bool_decide (k ≠ sender event)
          | None => false
          end
  then false
  else true.

(** @src src/src/core/matrix/state_res/event_auth.rs:1386-1412 check_redaction *)
Definition check_redaction (room_version : RoomVersionRules) (redaction_event : Pdu)
    (user_level : UserPowerLevel) (redact_level : Z) : bool :=
  if upl_geb user_level (IntLevel redact_level) then true
  else if decide (event_server_name (event_id redaction_event)
                  = (redacts redaction_event ≫= event_server_name)) then true
  else false.

(** @src src/src/core/matrix/state_res/event_auth.rs:1438-1446 verify_third_party_invite *)
Definition verify_third_party_invite (target_user : option UserId) (sender : UserId)
    (tp_id : unit) (current_third_party_invite : option Pdu) : bool := true.

(** ** Power level events *)

(** Iteration of a [BTreeSet] of strings. *)
Definition btree_elements (s : gset string) : list string := sort (elements s).

(** The body of the loop over users: [None] continues, [Some b] returns [Some(b)].
    @src src/src/core/matrix/state_res/event_auth.rs:1224-1279 check_power_levels *)
Definition check_user_level (old_state new_state : RoomPowerLevelsEventContent) (sender : UserId)
    (user_level : UserPowerLevel) (creators : gset UserId) (user : UserId) : option bool :=
  let old_level := pl_users old_state !! user in
  let new_level := pl_users new_state !! user in
  if decide (is_Some new_level ∧ user ∈ creators) then Some false
  else if decide (is_Some old_level ∧ is_Some new_level ∧ old_level = new_level) then None
  else if decide (user ≠ sender ∧ IntLevel <$> old_level = Some user_level) then Some false
  else
    let old_level_too_big := opt_upl_gtb (IntLevel <$> old_level) (Some user_level) in
    let new_level_too_big := opt_upl_gtb (IntLevel <$> new_level) (Some user_level) in
    if old_level_too_big then Some false
    else if new_level_too_big then Some false
    else None.

(** The body of the loop over event types.
    @src src/src/core/matrix/state_res/event_auth.rs:1281-1316 check_power_levels *)
Definition check_event_level (old_state new_state : RoomPowerLevelsEventContent)
    (user_level : UserPowerLevel) (ev_type : string) : option bool :=
  let old_level := pl_events old_state !! ev_type in
  let new_level := pl_events new_state !! ev_type in
  if decide (is_Some old_level ∧ is_Some new_level ∧ old_level = new_level) then None
  else
    let old_level_too_big := opt_upl_gtb (IntLevel <$> old_level) (Some user_level) in
    let new_level_too_big := opt_upl_gtb (IntLevel <$> new_level) (Some user_level) in
    if old_level_too_big then Some false
    else if new_level_too_big then Some false
    else None.

(** @src src/src/core/matrix/state_res/event_auth.rs:1375-1384 get_deserialize_levels *)
Definition get_deserialize_levels (old new : RoomPowerLevelsEventContent) (name : string)
  : option (Z * Z) :=
  old_lvl ← pl_serialized_level old name;
  new_lvl ← pl_serialized_level new name;
  Some (old_lvl, new_lvl).

(** The body of the loop over the named levels.
    @src src/src/core/matrix/state_res/event_auth.rs:1341-1370 check_power_levels *)
Definition check_named_level (old_state new_state : RoomPowerLevelsEventContent)
    (user_level : UserPowerLevel) (lvl_name : string) : option bool :=
  match get_deserialize_levels old_state new_state lvl_name with
  | Some (old_lvl, new_lvl) =>
      let old_level_too_big := upl_ltb user_level (IntLevel old_lvl) in
      let new_level_too_big := upl_ltb user_level (IntLevel new_lvl) in
      if old_level_too_big || new_level_too_big then Some false else None
  | None => None
  end.

(** A [for] loop whose body may return. *)
Fixpoint for_loop {A R} (body : A → option R) (l : list A) : option R :=
  match l with
  | [] => None
  | x :: l => match body x with Some r => Some r | None => for_loop body l end
  end.

(** @src src/src/core/matrix/state_res/event_auth.rs:1341-1349 check_power_levels *)
Definition levels : list string :=
  ["users_default"; "events_default"; "state_default"; "ban"; "redact"; "kick"; "invite"].

(** The notifications check.
    @src src/src/core/matrix/state_res/event_auth.rs:1318-1339 check_power_levels *)
Definition check_notifications (room_version : RoomVersionRules)
    (old_state new_state : RoomPowerLevelsEventContent) (user_level : UserPowerLevel) : option bool :=
  if limit_notifications_power_levels (authorization room_version) then
    let old_level := pl_notifications_room old_state in
    let new_level := pl_notifications_room new_state in
    if decide (old_level ≠ new_level) then
      let old_level_too_big := upl_ltb user_level (IntLevel old_level) in
      let new_level_too_big := upl_ltb user_level (IntLevel new_level) in
      if old_level_too_big || new_level_too_big then Some false else None
    else None
  else None.

(** Run the checks in order; the first that returns decides. *)
Definition or_else {A} (o p : option A) : option A := match o with Some _ => o | None => p end.

(** [None]: not a power level event that can be checked.
    @src src/src/core/matrix/state_res/event_auth.rs:1154-1373 check_power_levels *)
Definition check_power_levels (room_version : RoomVersionRules) (power_event : Pdu)
    (previous_power_event : option Pdu) (user_level : UserPowerLevel) (creators : gset UserId)
  : option bool :=
  match state_key power_event with
  | Some "" =>
      user_content ← deserialize_power_levels (content power_event) room_version;
      match previous_power_event with
      | None => Some true
      | Some current_state =>
          current_content ← deserialize_power_levels (content current_state) room_version;
          let user_levels_to_check :=
            btree_elements (dom (pl_users current_content) ∪ dom (pl_users user_content)) in
          let event_levels_to_check :=
            btree_elements (dom (pl_events current_content) ∪ dom (pl_events user_content)) in
          or_else (for_loop (check_user_level current_content user_content (sender power_event)
                               user_level creators) user_levels_to_check)
          (or_else (for_loop (check_event_level current_content user_content user_level)
                      event_levels_to_check)
          (or_else (check_notifications room_version current_content user_content user_level)
          (or_else (for_loop (check_named_level current_content user_content user_level) levels)
             (Some true))))
      end
  | Some _ => None
  | None => None
  end.

(** ** Membership events *)

(** The join arm; [allows] is [membership_allows_join].
    @src src/src/core/matrix/state_res/event_auth.rs:764-900 valid_membership_change *)
Definition join_arm (room_version : RoomVersionRules) (sender creator target_user : UserId)
    (current_event create_room : Pdu) (target_user_current_membership : MembershipState)
    (join_rules : JoinRule) (user_for_join_auth_is_valid : bool) : bool :=
  let prev_event_is_create_event :=
    match head (prev_events current_event) with
    | Some event_id' => bool_decide (event_id' = event_id create_room)
    | None => false
    end in
  let no_more_prev_events := bool_decide (tail (prev_events current_event) = []) in
  if prev_event_is_create_event && no_more_prev_events && bool_decide (sender = creator) then true
  else
    let membership_allows_join :=
      bool_decide (target_user_current_membership ∈ [Join; Invite]) in
    if decide (sender ≠ target_user) then false
    else if decide (target_user_current_membership = Ban) then false
    else
      match join_rules with
      | JRInvite => membership_allows_join
      | JRKnock => if knocking (authorization room_version) then membership_allows_join else false
      | JRKnockRestricted =>
          if knock_restricted_join_rule (authorization room_version)
          then membership_allows_join || user_for_join_auth_is_valid
          else false
      | JRRestricted => membership_allows_join || user_for_join_auth_is_valid
      | JRPublic => true
      | _ => false
      end.

(** @src src/src/core/matrix/state_res/event_auth.rs:901-964 valid_membership_change *)
Definition invite_arm (sender target_user : UserId) (sender_is_joined : bool)
    (target_user_current_membership : MembershipState) (third_party_invite : option (raw unit))
    (current_third_party_invite : option Pdu) (sender_power : UserPowerLevel)
    (effective_power_levels : RoomPowerLevelsEventContent) : bool :=
  match raw_ok third_party_invite with
  | Some tp_id =>
      if decide (target_user_current_membership = Ban) then false
      else verify_third_party_invite (Some target_user) sender tp_id current_third_party_invite
  | None =>
      if negb sender_is_joined then false
      else if decide (target_user_current_membership ∈ [Join; Ban]) then false
      else upl_geb sender_power (IntLevel (pl_invite effective_power_levels))
  end.

(** @src src/src/core/matrix/state_res/event_auth.rs:965-1027 valid_membership_change *)
Definition leave_arm (sender target_user : UserId) (sender_is_joined : bool)
    (target_user_current_membership : MembershipState) (sender_power target_power : UserPowerLevel)
    (effective_power_levels : RoomPowerLevelsEventContent) : bool :=
  if decide (sender = target_user) then
    bool_decide (target_user_current_membership ∈ [Join; Invite; Knock])
  else if negb sender_is_joined then false
  else
    let cannot_unban :=
      bool_decide (target_user_current_membership = Ban)
      && upl_ltb sender_power (IntLevel (pl_ban effective_power_levels)) in
    let can_kick :=
      upl_geb sender_power (IntLevel (pl_kick effective_power_levels))
      && upl_ltb target_power sender_power in
    if cannot_unban then false else if can_kick then true else false.

(** @src src/src/core/matrix/state_res/event_auth.rs:1028-1053 valid_membership_change *)
Definition ban_arm (sender_is_joined : bool) (sender_power target_power : UserPowerLevel)
    (effective_power_levels : RoomPowerLevelsEventContent) : bool :=
  if negb sender_is_joined then false
  else upl_geb sender_power (IntLevel (pl_ban effective_power_levels))
       && upl_ltb target_power sender_power.

(** @src src/src/core/matrix/state_res/event_auth.rs:1054-1096 valid_membership_change *)
Definition knock_arm (room_version : RoomVersionRules) (sender target_user : UserId)
    (sender_membership : MembershipState) (join_rules : JoinRule) : bool :=
  match join_rules with
  | JRKnock | JRKnockRestricted =>
      if bool_decide (join_rules = JRKnockRestricted)
         && negb (knock_restricted_join_rule (authorization room_version)) then false
      else if decide (sender ≠ target_user) then false
      else if decide (sender_membership ∈ [Ban; Invite; Join]) then false
      else true
  | _ => false
  end.

(** The creator of the room, from the create event's content.
    @src src/src/core/matrix/state_res/event_auth.rs:666-677 valid_membership_change *)
Definition room_creator (room_version : RoomVersionRules) (create_room : Pdu)
    (create_content : RoomCreateContentFields) : auth UserId :=
  if use_room_create_sender (authorization room_version) then Ok (sender create_room)
  else
    creator ← ok_or_fail InvalidPdu (cc_creator create_content);
    parse creator.

(** [membership] of a member event, [Leave] without one.
    @src src/src/core/matrix/state_res/event_auth.rs:682-685 valid_membership_change *)
Definition membership_of (ev : option Pdu) : auth MembershipState :=
  match ev with
  | Some pdu => parse (de_GetMembership (content pdu))
  | None => Ok Leave
  end.

(** [map(|ev| from_json_str(..)).transpose()?].
    @src src/src/core/matrix/state_res/event_auth.rs:693-695 valid_membership_change *)
Definition parse_power_levels (ev : option Pdu) : auth (option RoomPowerLevelsEventContent) :=
  match ev with
  | Some ev => pl ← parse (de_RoomPowerLevelsEventContent (content ev)); Ok (Some pl)
  | None => Ok None
  end.

(** [JoinRule::Invite] without a join rules event.
    @src src/src/core/matrix/state_res/event_auth.rs:721-725 valid_membership_change *)
Definition join_rules_of (ev : option Pdu) : auth JoinRule :=
  match ev with
  | Some jr => parse (de_RoomJoinRulesEventContent (content jr))
  | None => Ok JRInvite
  end.

(** @src src/src/core/matrix/state_res/event_auth.rs:732-762 valid_membership_change *)
Definition join_auth_is_valid (room_version : RoomVersionRules) (creator : UserId)
    (create_content : RoomCreateContentFields) (power_levels_event : option Pdu)
    (power_levels : option RoomPowerLevelsEventContent) (user_for_join_auth : option UserId)
    (user_for_join_auth_membership : MembershipState) : auth bool :=
  match user_for_join_auth with
  | Some user_for_join_auth =>
      '(auth_user_pl, invite_level) ←
        match power_levels_event with
        | Some pl =>
            invite ← lift (deserialize_power_levels_content_invite (content pl) room_version);
            Ok (get_user_power_level room_version creator
                  (default [] (cc_additional_creators create_content)) power_levels
                  user_for_join_auth, invite)
        | None => Ok (IntLevel 0, 0%Z)
        end;
      let user_joined := bool_decide (user_for_join_auth_membership = Join) in
      let okay_power := upl_geb auth_user_pl (IntLevel invite_level) in
      Ok (user_joined && okay_power)
  | None => Ok false
  end.

(** @src src/src/core/matrix/state_res/event_auth.rs:642-1111 valid_membership_change *)
Definition valid_membership_change (room_version : RoomVersionRules) (target_user : UserId)
    (target_user_membership_event : option Pdu) (sender : UserId)
    (sender_membership_event : option Pdu) (current_event : Pdu)
    (current_third_party_invite power_levels_event join_rules_event : option Pdu)
    (user_for_join_auth : option UserId) (user_for_join_auth_membership : MembershipState)
    (create_room : Pdu) : auth bool :=
  create_content ← parse (de_RoomCreateContentFields (content create_room));
  creator ← room_creator room_version create_room create_content;
  target_membership ← parse (de_GetMembership (content current_event));
  third_party_invite ← parse (de_GetThirdPartyInvite (content current_event));
  sender_membership ← membership_of sender_membership_event;
  let sender_is_joined := bool_decide (sender_membership = Join) in
  target_user_current_membership ← membership_of target_user_membership_event;
  power_levels ← parse_power_levels power_levels_event;
  let effective_power_levels := default (pl_new (authorization room_version)) power_levels in
  let additional_creators := default [] (cc_additional_creators create_content) in
  let sender_power :=
    get_user_power_level room_version creator additional_creators power_levels sender in
  let target_power :=
    get_user_power_level room_version creator additional_creators power_levels target_user in
  join_rules ← join_rules_of join_rules_event;
  user_for_join_auth_is_valid ←
    join_auth_is_valid room_version creator create_content power_levels_event power_levels
      user_for_join_auth user_for_join_auth_membership;
  Ok match target_membership with
     | Join => join_arm room_version sender creator target_user current_event create_room
                 target_user_current_membership join_rules user_for_join_auth_is_valid
     | Invite => invite_arm sender target_user sender_is_joined target_user_current_membership
                   third_party_invite current_third_party_invite sender_power
                   effective_power_levels
     | Leave => leave_arm sender target_user sender_is_joined target_user_current_membership
                  sender_power target_power effective_power_levels
     | Ban => ban_arm sender_is_joined sender_power target_power effective_power_levels
     | Knock => if knocking (authorization room_version)
                then knock_arm room_version sender target_user sender_membership join_rules
                else false
     | _ => false
     end.

(** ** [auth_check] *)

(** [v.deserialize().is_err()] of a present [room_version].
    @src src/src/core/matrix/state_res/event_auth.rs:233-240 auth_check *)
Definition unsupported_version (c : RoomCreateContentFields) : bool :=
  match cc_room_version c with Some None => true | _ => false end.

(** @src src/src/core/matrix/state_res/event_auth.rs:207-268 auth_check *)
Definition auth_check_create (room_version : RoomVersionRules) (incoming_event : Pdu) : auth bool :=
  if decide (prev_events incoming_event ≠ []) then Ok false
  else if match room_id incoming_event with
          | Some room_id =>
              match room_server_name room_id with
              | None => true
              | Some name => bool_decide (name ≠ user_server_name (sender incoming_event))
              end
          | None => false
          end then Ok false
  else
    content ← parse (de_RoomCreateContentFields (content incoming_event));
    if unsupported_version content then Ok false
    else if decide (room_id_format room_version = RoomIdV2 ∧ is_Some (room_id incoming_event))
    then Ok false
    else if negb (use_room_create_sender (authorization room_version))
            && negb (explicitly_privilege_room_creators (authorization room_version))
            && bool_decide (cc_creator content = None)
    then Ok false
    else Ok true.

(** @src src/src/core/matrix/state_res/event_auth.rs:393-459 auth_check *)
Definition auth_check_member (room_version : RoomVersionRules) (incoming_event : Pdu)
    (current_third_party_invite : option Pdu) (fetch_state : string → string → option Pdu)
    (power_levels_event sender_member_event : option Pdu) (room_create_event : Pdu) : auth bool :=
  match state_key incoming_event with
  | None => Ok false
  | Some state_key =>
      fields ← parse (de_RoomMemberContentFields (content incoming_event));
      if decide (raw_ok (mc_membership fields) = None) then Ok false
      else
        if is_user_id state_key then
          let target_user := state_key in
          let user_for_join_auth := raw_ok (mc_join_authorised_via_users_server fields) in
          let user_for_join_auth_event :=
            auth_user ← user_for_join_auth; fetch_state RoomMember auth_user in
          let target_user_member_event := fetch_state RoomMember target_user in
          let join_rules_event := fetch_state RoomJoinRules "" in
          let user_for_join_auth_membership :=
            default Leave (mem ← user_for_join_auth_event; de_GetMembership (content mem)) in
          valid_membership_change room_version target_user target_user_member_event
            (sender incoming_event) sender_member_event incoming_event
            current_third_party_invite power_levels_event join_rules_event
            user_for_join_auth user_for_join_auth_membership room_create_event
        else Err (Fail InvalidPdu)
  end.

(** The creators a power levels event may not list.
    @src src/src/core/matrix/state_res/event_auth.rs:567-576 auth_check *)
Definition privileged_creators (room_version : RoomVersionRules) (create_event : Pdu)
    (create_content : RoomCreateContentFields) : auth (gset UserId) :=
  if explicitly_privilege_room_creators (authorization room_version) then
    additional ← mapR parse (default [] (cc_additional_creators create_content));
    Ok ({[sender create_event]} ∪ list_to_set additional)
  else Ok ∅.

(** @src src/src/core/matrix/state_res/event_auth.rs:461-627 auth_check *)
Definition auth_check_other (room_version : RoomVersionRules) (incoming_event : Pdu)
    (power_levels_event sender_member_event : option Pdu)
    (create_event : Pdu) (room_create_content : RoomCreateContentFields)
    (expected_room_id : RoomId) : auth bool :=
  match sender_member_event with
  | None => Ok false
  | Some sender_member_event =>
      member_room_id ← expect (room_id sender_member_event);
      if decide (member_room_id ≠ expected_room_id) then Ok false
      else
        fields ← parse (de_RoomMemberContentFields (content sender_member_event));
        membership_state ← ok_or_fail InvalidPdu (mc_membership fields);
        membership_state ← parse membership_state;
        if decide (membership_state ≠ Join) then Ok false
        else
          creator ← room_creator room_version create_event room_create_content;
          power_levels ← parse_power_levels power_levels_event;
          let effective_power_levels :=
            default (pl_new (authorization room_version)) power_levels in
          let sender_power_level :=
            get_user_power_level room_version creator
              (default [] (cc_additional_creators room_create_content)) power_levels
              (sender incoming_event) in
          if decide (kind incoming_event = RoomThirdPartyInvite) then
            Ok (negb (upl_ltb sender_power_level (IntLevel (pl_invite effective_power_levels))))
          else if negb (can_send_event incoming_event power_levels_event sender_power_level)
          then Ok false
          else
            power_levels_allowed ←
              (if decide (kind incoming_event = RoomPowerLevels) then
                 creators ← privileged_creators room_version create_event room_create_content;
                 Ok (bool_decide
                       (check_power_levels room_version incoming_event power_levels_event
                          sender_power_level creators = Some true))
               else Ok true);
            if negb power_levels_allowed then Ok false
            else if special_case_room_redaction (authorization room_version)
                    && bool_decide (kind incoming_event = RoomRedaction) then
              redact_level ←
                match power_levels_event with
                | Some pl => lift (deserialize_power_levels_content_redact (content pl) room_version)
                | None => Ok 50%Z
                end;
              Ok (check_redaction room_version incoming_event sender_power_level redact_level)
            else Ok true
  end.

(** @src src/src/core/matrix/state_res/event_auth.rs:179-627 auth_check *)
Definition auth_check (room_version : RoomVersionRules) (incoming_event : Pdu)
    (current_third_party_invite : option Pdu) (fetch_state : string → string → option Pdu)
    (create_event : Pdu) : auth bool :=
  if decide (kind incoming_event = RoomCreate) then auth_check_create room_version incoming_event
  else
    let power_levels_event := fetch_state RoomPowerLevels "" in
    let sender_member_event := fetch_state RoomMember (sender incoming_event) in
    room_create_content ← parse (de_RoomCreateContentFields (content create_event));
    if unsupported_version room_create_content then Ok false
    else
      expected_room_id ← room_id_or_hash create_event;
      incoming_room_id ← expect (room_id incoming_event);
      if decide (incoming_room_id ≠ expected_room_id) then Ok false
      else
        let claims_create_event := bool_decide (event_id create_event ∈ auth_events incoming_event) in
        if bool_decide (room_id_format room_version = RoomIdV2) && claims_create_event
        then Ok false
        else if negb (bool_decide (room_id_format room_version = RoomIdV2))
                && negb claims_create_event
        then Ok false
        else
          power_levels_room_id ←
            match power_levels_event with
            | Some pe => expect (room_id pe)
            | None => Ok expected_room_id
            end;
          if decide (power_levels_room_id ≠ expected_room_id) then Ok false
          else if negb (cc_federate room_create_content)
                  && bool_decide (user_server_name (sender create_event)
                                  ≠ user_server_name (sender incoming_event))
          then Ok false
          else if special_case_room_aliases (authorization room_version)
                  && bool_decide (kind incoming_event = RoomAliases)
          then Ok (bool_decide (state_key incoming_event
                                = Some (user_server_name (sender incoming_event))))
          else if decide (kind incoming_event = RoomMember)
          then auth_check_member room_version incoming_event current_third_party_invite
                 fetch_state power_levels_event sender_member_event create_event
          else auth_check_other room_version incoming_event power_levels_event
                 sender_member_event create_event room_create_content expected_room_id.
End event_auth.
