(* ===== verification/EventAuthSpec.v ===== *)
(** What event authorisation guarantees: the Matrix authorisation rules as
    inductive relations, and the theorems that relate [EventAuth] to them. *)

From stdpp Require Import prelude gmap strings.
From S2P Require Import Prelude Event PowerLevels EventAuth RumaExample.

(** ** The rules for membership changes *)

(** What [valid_membership_change] works out of its arguments. *)
Record membership_context := {
  mx_sender : UserId;
  mx_target : UserId;
  mx_creator : UserId;
  mx_after_create : bool;         (* the create event is the only previous event *)
  mx_sender_membership : MembershipState;
  mx_target_membership : MembershipState;
  mx_third_party : bool;          (* the content carries a third party invite *)
  mx_sender_power : UserPowerLevel;
  mx_target_power : UserPowerLevel;
  mx_levels : RoomPowerLevelsEventContent;
  mx_join_rule : JoinRule;
  mx_authorised : bool;           (* a joined user able to invite authorised the join *)
}.

(** Join rules whose join needs an invite, in room versions that know them. *)
Definition invite_rule_supported (rules : AuthorizationRules) (r : JoinRule) : Prop :=
  match r with
  | JRInvite | JRRestricted => True
  | JRKnock => knocking rules = true
  | JRKnockRestricted => knock_restricted_join_rule rules = true
  | _ => False
  end.

(** [join_permitted rules ctx]: the join rule lets the target in. *)
Inductive join_permitted (rules : AuthorizationRules) (ctx : membership_context) : Prop :=
| permitted_public :
    mx_join_rule ctx = JRPublic → join_permitted rules ctx
| permitted_invited :
    invite_rule_supported rules (mx_join_rule ctx) →
    mx_target_membership ctx ∈ [Join; Invite] → join_permitted rules ctx
| permitted_authorised :
    invite_rule_supported rules (mx_join_rule ctx) →
    mx_join_rule ctx = JRRestricted ∨ mx_join_rule ctx = JRKnockRestricted →
    mx_authorised ctx = true → join_permitted rules ctx.

(** [membership_allowed rules ctx m]: the change to [m] is allowed. *)
Inductive membership_allowed (rules : AuthorizationRules) (ctx : membership_context)
  : MembershipState → Prop :=
| allow_first_join :
    mx_after_create ctx = true → mx_sender ctx = mx_creator ctx →
    membership_allowed rules ctx Join
| allow_join :
    mx_sender ctx = mx_target ctx → mx_target_membership ctx ≠ Ban → join_permitted rules ctx →
    membership_allowed rules ctx Join
| allow_third_party_invite :
    mx_third_party ctx = true → mx_target_membership ctx ≠ Ban →
    membership_allowed rules ctx Invite
| allow_invite :
    mx_third_party ctx = false → mx_sender_membership ctx = Join →
    mx_target_membership ctx ∉ [Join; Ban] →
    upl_le (IntLevel (pl_invite (mx_levels ctx))) (mx_sender_power ctx) →
    membership_allowed rules ctx Invite
| allow_leave :
    mx_sender ctx = mx_target ctx → mx_target_membership ctx ∈ [Join; Invite; Knock] →
    membership_allowed rules ctx Leave
| allow_kick :
    mx_sender ctx ≠ mx_target ctx → mx_sender_membership ctx = Join →
    (mx_target_membership ctx = Ban →
      upl_le (IntLevel (pl_ban (mx_levels ctx))) (mx_sender_power ctx)) →
    upl_le (IntLevel (pl_kick (mx_levels ctx))) (mx_sender_power ctx) →
    upl_lt (mx_target_power ctx) (mx_sender_power ctx) →
    membership_allowed rules ctx Leave
| allow_ban :
    mx_sender_membership ctx = Join →
    upl_le (IntLevel (pl_ban (mx_levels ctx))) (mx_sender_power ctx) →
    upl_lt (mx_target_power ctx) (mx_sender_power ctx) →
    membership_allowed rules ctx Ban
| allow_knock :
    knocking rules = true →
    mx_join_rule ctx = JRKnock
      ∨ (mx_join_rule ctx = JRKnockRestricted ∧ knock_restricted_join_rule rules = true) →
    mx_sender ctx = mx_target ctx → mx_sender_membership ctx ∉ [Ban; Invite; Join] →
    membership_allowed rules ctx Knock.

Section membership.
Context `{!Ruma}.

(** The context [valid_membership_change] reads from the events it is given. *)
Record context_of (rv : RoomVersionRules) (target : UserId) (target_ev : option Pdu)
    (sender_id : UserId) (sender_ev : option Pdu) (ev : Pdu) (levels_ev rules_ev : option Pdu)
    (auth_user : option UserId) (auth_membership : MembershipState) (create : Pdu)
    (m : MembershipState) (ctx : membership_context) : Prop := {
  cx_sender : mx_sender ctx = sender_id;
  cx_target : mx_target ctx = target;
  cx_after_create : mx_after_create ctx = bool_decide (prev_events ev = [event_id create]);
  cx_membership : de_GetMembership (content ev) = Some m;
  cx_sender_membership : membership_of sender_ev = Ok (mx_sender_membership ctx);
  cx_target_membership : membership_of target_ev = Ok (mx_target_membership ctx);
  cx_third_party : ∃ invite, de_GetThirdPartyInvite (content ev) = Some invite
                     ∧ mx_third_party ctx = bool_decide (is_Some (raw_ok invite));
  cx_create : ∃ create_content levels,
    de_RoomCreateContentFields (content create) = Some create_content
    ∧ room_creator rv create create_content = Ok (mx_creator ctx)
    ∧ parse_power_levels levels_ev = Ok levels
    ∧ mx_levels ctx = default (pl_new (authorization rv)) levels
    ∧ (let power := get_user_power_level rv (mx_creator ctx)
                      (default [] (cc_additional_creators create_content)) levels in
       mx_sender_power ctx = power sender_id ∧ mx_target_power ctx = power target)
    ∧ join_auth_is_valid rv (mx_creator ctx) create_content levels_ev levels auth_user
        auth_membership = Ok (mx_authorised ctx);
  cx_join_rule : join_rules_of rules_ev = Ok (mx_join_rule ctx);
}.

Context `{!RumaLaws}.

Lemma first_of_one {A} `{EqDecision A} (l : list A) x :
  match head l with Some y => bool_decide (y = x) | None => false end
    && bool_decide (tail l = []) = bool_decide (l = [x]).
Proof.
  destruct l as [|y [|z l]]; simpl; repeat case_bool_decide; naive_solver.
Qed.

Lemma membership_allowed_iff rules ctx m :
  membership_allowed rules ctx m ↔
  match m with
  | Join =>
      (mx_after_create ctx = true ∧ mx_sender ctx = mx_creator ctx)
      ∨ (mx_sender ctx = mx_target ctx ∧ mx_target_membership ctx ≠ Ban
         ∧ join_permitted rules ctx)
  | Invite =>
      (mx_third_party ctx = true ∧ mx_target_membership ctx ≠ Ban)
      ∨ (mx_third_party ctx = false ∧ mx_sender_membership ctx = Join
         ∧ mx_target_membership ctx ∉ [Join; Ban]
         ∧ upl_le (IntLevel (pl_invite (mx_levels ctx))) (mx_sender_power ctx))
  | Leave =>
      (mx_sender ctx = mx_target ctx ∧ mx_target_membership ctx ∈ [Join; Invite; Knock])
      ∨ (mx_sender ctx ≠ mx_target ctx ∧ mx_sender_membership ctx = Join
         ∧ (mx_target_membership ctx = Ban →
             upl_le (IntLevel (pl_ban (mx_levels ctx))) (mx_sender_power ctx))
         ∧ upl_le (IntLevel (pl_kick (mx_levels ctx))) (mx_sender_power ctx)
         ∧ upl_lt (mx_target_power ctx) (mx_sender_power ctx))
  | Ban =>
      mx_sender_membership ctx = Join
      ∧ upl_le (IntLevel (pl_ban (mx_levels ctx))) (mx_sender_power ctx)
      ∧ upl_lt (mx_target_power ctx) (mx_sender_power ctx)
  | Knock =>
      knocking rules = true
      ∧ (mx_join_rule ctx = JRKnock
         ∨ (mx_join_rule ctx = JRKnockRestricted ∧ knock_restricted_join_rule rules = true))
      ∧ mx_sender ctx = mx_target ctx ∧ mx_sender_membership ctx ∉ [Ban; Invite; Join]
  | CustomMembership _ => False
  end.
Proof.
  split.
  - intros []; tauto.
  - destruct m.
    + intros (?&?&?). by constructor 7.
    + intros [(?&?)|(?&?&?&?)]; [by constructor 3|by constructor 4].
    + intros [(?&?)|(?&?&?)]; [by constructor 1|by constructor 2].
    + intros (?&?&?&?). by constructor 8.
    + intros [(?&?)|(?&?&?&?&?)]; [by constructor 5|by constructor 6].
    + done.
Qed.

Lemma join_permitted_alt rules ctx :
  join_permitted rules ctx ↔
    mx_join_rule ctx = JRPublic
    ∨ invite_rule_supported rules (mx_join_rule ctx)
      ∧ (mx_target_membership ctx ∈ [Join; Invite]
         ∨ (mx_join_rule ctx = JRRestricted ∨ mx_join_rule ctx = JRKnockRestricted)
           ∧ mx_authorised ctx = true).
Proof.
  split; [intros []; tauto|].
  intros [?|[? [?|[??]]]]; [by constructor 1|by constructor 2|by constructor 3].
Qed.

Lemma join_arm_spec rv ctx ev create :
  mx_after_create ctx = bool_decide (prev_events ev = [event_id create]) →
  join_arm rv (mx_sender ctx) (mx_creator ctx) (mx_target ctx) ev create
    (mx_target_membership ctx) (mx_join_rule ctx) (mx_authorised ctx) = true
  ↔ membership_allowed (authorization rv) ctx Join.
Proof.
  intros Hafter. rewrite membership_allowed_iff. unfold join_arm. rewrite first_of_one, <-Hafter.
  destruct (mx_after_create ctx && _) eqn:Hfirst.
  { apply andb_true_iff in Hfirst as [? ?%bool_decide_eq_true]. tauto. }
  assert (¬ (mx_after_create ctx = true ∧ mx_sender ctx = mx_creator ctx)) as Hno.
  { intros [Ha Hb]. rewrite Ha, bool_decide_true in Hfirst; done. }
  goal_decide as Hst; [split; [done|tauto]|]. apply dec_stable in Hst.
  goal_decide as Hban; [split; [done|tauto]|].
  transitivity (join_permitted (authorization rv) ctx); [|tauto].
  rewrite join_permitted_alt. destruct (mx_join_rule ctx); simpl;
    try destruct (knocking _); try destruct (knock_restricted_join_rule _);
    rewrite ?orb_true_iff, ?bool_decide_eq_true; intuition congruence.
Qed.

Lemma invite_arm_spec rules ctx invite tp :
  mx_third_party ctx = bool_decide (is_Some (raw_ok invite)) →
  invite_arm (mx_sender ctx) (mx_target ctx) (bool_decide (mx_sender_membership ctx = Join))
    (mx_target_membership ctx) invite tp (mx_sender_power ctx) (mx_levels ctx) = true
  ↔ membership_allowed rules ctx Invite.
Proof.
  intros Htp. rewrite membership_allowed_iff. unfold invite_arm, verify_third_party_invite.
  destruct (raw_ok invite) as [[]|].
  - rewrite bool_decide_true in Htp by eauto. goal_decide; intuition congruence.
  - rewrite bool_decide_false in Htp by (intros []%is_Some_None).
    case_bool_decide; simpl; [|intuition congruence].
    goal_decide; [intuition congruence|]. rewrite upl_geb_spec. intuition congruence.
Qed.

Lemma leave_arm_spec rules ctx :
  leave_arm (mx_sender ctx) (mx_target ctx) (bool_decide (mx_sender_membership ctx = Join))
    (mx_target_membership ctx) (mx_sender_power ctx) (mx_target_power ctx) (mx_levels ctx) = true
  ↔ membership_allowed rules ctx Leave.
Proof.
  rewrite membership_allowed_iff. unfold leave_arm. goal_decide.
  { rewrite bool_decide_eq_true. tauto. }
  case_bool_decide; cbn [negb]; [|intuition congruence].
  rewrite <-(upl_ltb_false (mx_sender_power ctx) (IntLevel (pl_ban _))),
    <-upl_geb_spec, <-upl_ltb_spec.
  destruct (upl_ltb _ (IntLevel _)), (upl_geb _ _), (upl_ltb _ (mx_sender_power ctx));
    case_bool_decide; simpl; intuition congruence.
Qed.

Lemma ban_arm_spec rules ctx :
  ban_arm (bool_decide (mx_sender_membership ctx = Join)) (mx_sender_power ctx)
    (mx_target_power ctx) (mx_levels ctx) = true
  ↔ membership_allowed rules ctx Ban.
Proof.
  rewrite membership_allowed_iff. unfold ban_arm.
  case_bool_decide; simpl; [|intuition congruence].
  rewrite andb_true_iff, upl_geb_spec, upl_ltb_spec. tauto.
Qed.

Lemma knock_arm_spec rv ctx :
  (if knocking (authorization rv)
   then knock_arm rv (mx_sender ctx) (mx_target ctx) (mx_sender_membership ctx) (mx_join_rule ctx)
   else false) = true
  ↔ membership_allowed (authorization rv) ctx Knock.
Proof.
  rewrite membership_allowed_iff.
  destruct (knocking _) eqn:Hk; [|intuition congruence].
  unfold knock_arm. destruct (mx_join_rule ctx) eqn:Hjr; simpl; try (intuition congruence);
    destruct (knock_restricted_join_rule _) eqn:Hkr; simpl; try (intuition congruence);
    (goal_decide; [intuition congruence|]; goal_decide; [intuition congruence|]);
    match goal with H : ¬ (_ ≠ _) |- _ => apply dec_stable in H end; tauto.
Qed.

Lemma valid_membership_change_spec rv target target_ev sender_id sender_ev ev tp levels_ev
    rules_ev auth_user auth_membership create verdict :
  valid_membership_change rv target target_ev sender_id sender_ev ev tp levels_ev rules_ev
    auth_user auth_membership create = Ok verdict
  ↔ ∃ m ctx, context_of rv target target_ev sender_id sender_ev ev levels_ev rules_ev auth_user
               auth_membership create m ctx
             ∧ (verdict = true ↔ membership_allowed (authorization rv) ctx m).
Proof.
  assert (∀ m ctx invite, 
    mx_after_create ctx = bool_decide (prev_events ev = [event_id create]) →
    mx_third_party ctx = bool_decide (is_Some (raw_ok invite)) →
    match m with
     | Join => join_arm rv (mx_sender ctx) (mx_creator ctx) (mx_target ctx) ev create
                 (mx_target_membership ctx) (mx_join_rule ctx) (mx_authorised ctx)
     | Invite => invite_arm (mx_sender ctx) (mx_target ctx)
                   (bool_decide (mx_sender_membership ctx = Join)) (mx_target_membership ctx)
                   invite tp (mx_sender_power ctx) (mx_levels ctx)
     | Leave => leave_arm (mx_sender ctx) (mx_target ctx)
                  (bool_decide (mx_sender_membership ctx = Join)) (mx_target_membership ctx)
                  (mx_sender_power ctx) (mx_target_power ctx) (mx_levels ctx)
     | Ban => ban_arm (bool_decide (mx_sender_membership ctx = Join)) (mx_sender_power ctx)
                (mx_target_power ctx) (mx_levels ctx)
     | Knock => if knocking (authorization rv)
                then knock_arm rv (mx_sender ctx) (mx_target ctx) (mx_sender_membership ctx)
                       (mx_join_rule ctx)
                else false
     | _ => false
     end = true ↔ membership_allowed (authorization rv) ctx m) as Harms.
  { intros m ctx invite Ha Ht. destruct m;
      [apply ban_arm_spec|by apply invite_arm_spec|by apply join_arm_spec|apply knock_arm_spec
      |apply leave_arm_spec|split; [done|by inversion 1]]. }
  unfold valid_membership_change, parse, ok_or_fail. split.
  - intros Hok. inv_ok.
    match goal with
    | Hc : de_RoomCreateContentFields _ = Some ?cc, Hcr : room_creator _ _ _ = Ok ?creator,
      Hm : de_GetMembership _ = Some ?m, Ht : de_GetThirdPartyInvite _ = Some ?inv,
      Hs : membership_of sender_ev = Ok ?sm, Hg : membership_of target_ev = Ok ?tm,
      Hp : parse_power_levels _ = Ok ?pls, Hj : join_rules_of _ = Ok ?jr,
      Hv : join_auth_is_valid _ _ _ _ _ _ _ = Ok ?valid |- _ =>
        exists m, (Build_membership_context sender_id target creator
          (bool_decide (prev_events ev = [event_id create])) sm tm
          (bool_decide (is_Some (raw_ok inv)))
          (get_user_power_level rv creator (default [] (cc_additional_creators cc)) pls sender_id)
          (get_user_power_level rv creator (default [] (cc_additional_creators cc)) pls target)
          (default (pl_new (authorization rv)) pls) jr valid);
        split; [split; simpl; eauto 10|]
    end.
    rewrite <-(Harms _ _ a2); done.
  - intros (m & ctx & [Hs Ht Ha Hm Hsm Htm (inv & Hi & Hit)
      (cc & pls & Hcc & Hcr & Hpl & Hlv & [Hsp Htp] & Hau) Hjr] & Hv).
    specialize (Harms m ctx inv Ha Hit).
    rewrite Hcc; simpl; rewrite Hcr; simpl; rewrite Hm; simpl; rewrite Hi; simpl;
      rewrite Hsm; simpl; rewrite Htm; simpl; rewrite Hpl; simpl; rewrite Hjr; simpl;
      rewrite Hau; simpl. f_equal.
    rewrite <-Hlv, <-Hsp, <-Htp, <-Hs, <-Ht. apply Bool.eq_iff_eq_true.
    rewrite Hv. rewrite <-Harms. done.
Qed.

End membership.

(** ** Power level events *)

Section power_levels.
Context `{!Ruma, !RumaLaws}.

Lemma for_loop_None {A R} (body : A → option R) l :
  for_loop body l = None ↔ ∀ x, x ∈ l → body x = None.
Proof.
  induction l as [|x l IH]; simpl; [set_solver|].
  setoid_rewrite elem_of_cons. destruct (body x) eqn:Hx; [|naive_solver].
  split; [done|]. intros Hall. rewrite Hall in Hx; [done|by left].
Qed.

Lemma for_loop_Some {A R} (body : A → option R) l r :
  for_loop body l = Some r → ∃ x, x ∈ l ∧ body x = Some r.
Proof.
  induction l as [|x l IH]; simpl; [done|]. destruct (body x) eqn:Hx.
  - intros [= ->]. exists x. split; [by left|done].
  - intros (y & Hy & Hb)%IH. exists y. split; [by right|done].
Qed.

(** A level, where present, is at most [power]. *)
Definition level_within (power : UserPowerLevel) (level : option Z) : Prop :=
  ∀ l, level = Some l → upl_le (IntLevel l) power.

Lemma opt_upl_gtb_false level power :
  opt_upl_gtb (IntLevel <$> level) (Some power) = false ↔ level_within power level.
Proof.
  unfold level_within. destruct level as [l|]; simpl; [|naive_solver].
  rewrite upl_ltb_false. naive_solver.
Qed.

(** An entry may change from [old] to [new] when both are within the sender's power. *)
Definition entry_change_allowed (power : UserPowerLevel) (old new : option Z) : Prop :=
  old ≠ new → level_within power old ∧ level_within power new.

(** What a power levels event may change, for a sender of the given power. *)
Record levels_change_allowed (rules : AuthorizationRules) (sender_id : UserId)
    (power : UserPowerLevel) (creators : gset UserId) (old new : RoomPowerLevelsEventContent)
  : Prop := {
  lc_creators user : user ∈ creators → pl_users new !! user = None;
  lc_users user : entry_change_allowed power (pl_users old !! user) (pl_users new !! user);
  lc_equals user : user ≠ sender_id → pl_users old !! user ≠ pl_users new !! user →
    IntLevel <$> pl_users old !! user ≠ Some power;
  lc_events ty : entry_change_allowed power (pl_events old !! ty) (pl_events new !! ty);
  lc_notifications : limit_notifications_power_levels rules = true →
    entry_change_allowed power (Some (pl_notifications_room old)) (Some (pl_notifications_room new));
  lc_named name l k : name ∈ levels →
    pl_serialized_level old name = Some l → pl_serialized_level new name = Some k →
    upl_le (IntLevel l) power ∧ upl_le (IntLevel k) power;
}.

(** The shape of the two entry checks: an unchanged entry is skipped, a changed one
    is refused by either flag. *)
Lemma changed_entry_None {A} `{EqDecision A} (o n : option A) (r : option bool) :
  (o = None → n = None → r = None) →
  (if decide (is_Some o ∧ is_Some n ∧ o = n) then None else r) = None ↔ (o ≠ n → r = None).
Proof.
  intros Hr. destruct (decide (o = n)) as [->|Hne].
  - destruct n as [x|].
    + rewrite decide_True by eauto. naive_solver.
    + rewrite decide_False by (intros [[? ?] _]; done). naive_solver.
  - rewrite decide_False by tauto. naive_solver.
Qed.

Lemma either_flag (a b : bool) :
  (if a then Some false else if b then Some false else None) = None ↔ a = false ∧ b = false.
Proof. destruct a, b; naive_solver. Qed.

Lemma check_event_level_None old new power ty :
  check_event_level old new power ty = None
  ↔ entry_change_allowed power (pl_events old !! ty) (pl_events new !! ty).
Proof.
  unfold check_event_level, entry_change_allowed. cbv zeta.
  rewrite changed_entry_None by (by intros -> ->).
  by rewrite either_flag, !opt_upl_gtb_false.
Qed.

Lemma check_event_level_absent old new power ty :
  ty ∉ dom (pl_events old) ∪ dom (pl_events new) →
  entry_change_allowed power (pl_events old !! ty) (pl_events new !! ty).
Proof.
  rewrite not_elem_of_union, !not_elem_of_dom. intros [-> ->]. by intros [].
Qed.

Lemma check_user_level_None old new sender_id power creators user :
  check_user_level old new sender_id power creators user = None
  ↔ (user ∈ creators → pl_users new !! user = None)
    ∧ entry_change_allowed power (pl_users old !! user) (pl_users new !! user)
    ∧ (user ≠ sender_id → pl_users old !! user ≠ pl_users new !! user →
       IntLevel <$> pl_users old !! user ≠ Some power).
Proof.
  unfold check_user_level, entry_change_allowed. cbv zeta. goal_decide as Hc.
  { split; [done|]. destruct Hc as [[l Hl] Hc]. rewrite Hl. naive_solver. }
  assert (user ∈ creators → pl_users new !! user = None) as Hcr.
  { intros Hu. apply eq_None_not_Some. tauto. }
  rewrite changed_entry_None.
  2: { intros -> ->. rewrite decide_False by (intros [_ Hf]; done). done. }
  goal_decide as He.
  - split; [|naive_solver]. intros Hno.
    destruct (decide (pl_users old !! user = pl_users new !! user)); [|naive_solver].
    split_and!; [done|tauto|tauto].
  - rewrite either_flag, !opt_upl_gtb_false. tauto.
Qed.

Lemma check_notifications_None rv old new power :
  check_notifications rv old new power = None
  ↔ (limit_notifications_power_levels (authorization rv) = true →
     entry_change_allowed power (Some (pl_notifications_room old))
       (Some (pl_notifications_room new))).
Proof.
  unfold check_notifications, entry_change_allowed, level_within.
  destruct (limit_notifications_power_levels _); [|done].
  goal_decide as Hn; [|apply dec_stable in Hn; split; [|done]; intros _ _ Hd; congruence].
  assert (∀ l, upl_ltb power (IntLevel l) = false ↔ ∀ k, Some l = Some k → upl_le (IntLevel k) power)
    as Hs by (intros l; rewrite upl_ltb_false; naive_solver).
  rewrite <-!Hs. destruct (upl_ltb _ _), (upl_ltb _ _); simpl; naive_solver.
Qed.

Lemma check_named_level_None old new power name :
  check_named_level old new power name = None
  ↔ ∀ l k, pl_serialized_level old name = Some l → pl_serialized_level new name = Some k →
      upl_le (IntLevel l) power ∧ upl_le (IntLevel k) power.
Proof.
  unfold check_named_level, get_deserialize_levels.
  destruct (pl_serialized_level old name) as [l|]; simpl; [|naive_solver].
  destruct (pl_serialized_level new name) as [k|]; simpl; [|naive_solver].
  transitivity (upl_ltb power (IntLevel l) = false ∧ upl_ltb power (IntLevel k) = false).
  - destruct (upl_ltb _ _), (upl_ltb _ _); simpl; intuition congruence.
  - rewrite !upl_ltb_false. split; [by intros Hlk ? ? [= <-] [= <-]|intros Hall; by apply Hall].
Qed.

(** A loop or check of [check_power_levels] only ever returns [Some(false)]. *)
Lemma check_step_false {A} (body : A → option bool) l r :
  (∀ x b, body x = Some b → b = false) → for_loop body l = Some r → r = false.
Proof. intros Hb (x & _ & Hx)%for_loop_Some. by eapply Hb. Qed.

Ltac step_false :=
  intros *; repeat match goal with
  | |- context [match ?x with _ => _ end] => destruct x
  end; naive_solver.
Lemma check_user_level_false old new sender_id power creators user b :
  check_user_level old new sender_id power creators user = Some b → b = false.
Proof. unfold check_user_level. step_false. Qed.
Lemma check_event_level_false old new power ty b :
  check_event_level old new power ty = Some b → b = false.
Proof. unfold check_event_level. step_false. Qed.
Lemma check_notifications_false rv old new power b :
  check_notifications rv old new power = Some b → b = false.
Proof. unfold check_notifications. step_false. Qed.
Lemma check_named_level_false old new power name b :
  check_named_level old new power name = Some b → b = false.
Proof. unfold check_named_level. step_false. Qed.

Lemma or_else_true (o p : option bool) :
  (∀ b, o = Some b → b = false) → or_else o p = Some true ↔ o = None ∧ p = Some true.
Proof. intros Ho. destruct o as [[]|]; simpl; naive_solver. Qed.

Lemma elem_of_btree_elements (s : gset string) x : x ∈ btree_elements s ↔ x ∈ s.
Proof. unfold btree_elements. by rewrite elem_of_sort, elem_of_elements. Qed.

Lemma users_checked old new sender_id power creators :
  for_loop (check_user_level old new sender_id power creators)
    (btree_elements (dom (pl_users old) ∪ dom (pl_users new))) = None
  ↔ ∀ user, (user ∈ creators → pl_users new !! user = None)
    ∧ entry_change_allowed power (pl_users old !! user) (pl_users new !! user)
    ∧ (user ≠ sender_id → pl_users old !! user ≠ pl_users new !! user →
       IntLevel <$> pl_users old !! user ≠ Some power).
Proof.
  rewrite for_loop_None. split.
  - intros Hall user.
    destruct (decide (user ∈ dom (pl_users old) ∪ dom (pl_users new))) as [Hin|Hin].
    + by apply check_user_level_None, Hall, elem_of_btree_elements.
    + apply not_elem_of_union in Hin as [Ho%not_elem_of_dom Hn%not_elem_of_dom].
      rewrite Ho, Hn. split_and!; [done|by intros []|done].
  - intros Hall user _. by apply check_user_level_None.
Qed.

Lemma events_checked old new power :
  for_loop (check_event_level old new power)
    (btree_elements (dom (pl_events old) ∪ dom (pl_events new))) = None
  ↔ ∀ ty, entry_change_allowed power (pl_events old !! ty) (pl_events new !! ty).
Proof.
  rewrite for_loop_None. split.
  - intros Hall ty.
    destruct (decide (ty ∈ dom (pl_events old) ∪ dom (pl_events new))) as [Hin|Hin].
    + by apply check_event_level_None, Hall, elem_of_btree_elements.
    + by apply check_event_level_absent.
  - intros Hall ty _. by apply check_event_level_None.
Qed.

Lemma named_levels_checked old new power :
  for_loop (check_named_level old new power) levels = None
  ↔ ∀ name l k, name ∈ levels →
      pl_serialized_level old name = Some l → pl_serialized_level new name = Some k →
      upl_le (IntLevel l) power ∧ upl_le (IntLevel k) power.
Proof.
  rewrite for_loop_None. split.
  - intros Hall name l k Hname. by apply check_named_level_None, Hall.
  - intros Hall name Hname. apply check_named_level_None. intros l k. by apply Hall.
Qed.

Lemma check_power_levels_lc rv ev prev power creators :
  check_power_levels rv ev (Some prev) power creators = Some true
  ↔ state_key ev = Some ""
    ∧ ∃ old new, deserialize_power_levels (content prev) rv = Some old
      ∧ deserialize_power_levels (content ev) rv = Some new
      ∧ levels_change_allowed (authorization rv) (sender ev) power creators old new.
Proof.
  unfold check_power_levels.
  destruct (state_key ev) as [[|]|]; [|naive_solver..].
  destruct (deserialize_power_levels (content ev) rv) as [new|]; cbn [mbind option_bind]; [|naive_solver].
  destruct (deserialize_power_levels (content prev) rv) as [old|]; cbn [mbind option_bind]; [|naive_solver].
  transitivity (levels_change_allowed (authorization rv) (sender ev) power creators old new);
    [|naive_solver].
  rewrite !or_else_true, users_checked, events_checked, check_notifications_None,
    named_levels_checked
    by (intros *; eauto using check_step_false, check_user_level_false, check_event_level_false,
          check_notifications_false, check_named_level_false).
  split.
  - intros (Hu & He & Hn & Hl & _). split; try done; intros; by apply Hu.
  - intros [Hc Hu Heq He Hn Hl]. split_and!; auto.
Qed.

(** C11: A power levels event that replaces an existing one is accepted exactly when
    it is a state event with an empty key, both contents parse, and every change is
    one the sender's power covers ([levels_change_allowed]): no creator is listed,
    every added, removed or changed entry of [users] and [events] lies within the
    sender's power on both sides, nobody else's level equal to the sender's is
    touched, and so on for notifications and the named levels that both contents
    serialise. *)
Theorem check_power_levels_correct rv ev prev power creators :
  check_power_levels rv ev (Some prev) power creators = Some true
  ↔ state_key ev = Some ""
    ∧ ∃ old new, deserialize_power_levels (content prev) rv = Some old
      ∧ deserialize_power_levels (content ev) rv = Some new
      ∧ levels_change_allowed (authorization rv) (sender ev) power creators old new.
Proof. apply check_power_levels_lc. Qed.
End power_levels.

(** ** [auth_check] *)

Section auth_check.
Context `{!Ruma}.

(** The power of a user in the room state [fetch] describes. *)
Definition user_power (rv : RoomVersionRules) (create : Pdu) (fetch : string → string → option Pdu)
    (user : UserId) : option UserPowerLevel :=
  create_content ← de_RoomCreateContentFields (content create);
  creator ← ok (room_creator rv create create_content);
  levels ← ok (parse_power_levels (fetch RoomPowerLevels ""));
  Some (get_user_power_level rv creator (default [] (cc_additional_creators create_content))
          levels user).

(** The power level content in force. *)
Definition levels_in_force (rv : RoomVersionRules) (fetch : string → string → option Pdu)
  : option RoomPowerLevelsEventContent :=
  levels ← ok (parse_power_levels (fetch RoomPowerLevels ""));
  Some (default (pl_new (authorization rv)) levels).

(** What an accepted event other than a create event satisfies, whatever its type. *)
Record accepted_in_room (rv : RoomVersionRules) (ev : Pdu) (fetch : string → string → option Pdu)
    (create : Pdu) (create_content : RoomCreateContentFields) (room : RoomId) : Prop := {
  ar_create : de_RoomCreateContentFields (content create) = Some create_content;
  ar_version : unsupported_version create_content = false;
  ar_room : room_id_or_hash (E := error) create = Ok room;
  ar_same_room : room_id ev = Some room;
  ar_levels_room : ∀ pl, fetch RoomPowerLevels "" = Some pl → room_id pl = Some room;
  ar_claims : event_id create ∈ auth_events ev ↔ room_id_format rv ≠ RoomIdV2;
  ar_federate : cc_federate create_content = false →
    user_server_name (sender create) = user_server_name (sender ev);
}.

(** Split a chain of early returns of [Ok false]. *)
Ltac inv_returns :=
  repeat match goal with
  | H : (if ?b then Ok false else _) = Ok true |- _ =>
      let E := fresh "E" in destruct b eqn:E; [discriminate H|]
  | H : (if decide ?P then Ok false else _) = Ok true |- _ =>
      destruct (decide P); [discriminate H|]
  end.

Lemma auth_check_inv rv ev tp fetch create :
  auth_check rv ev tp fetch create = Ok true → kind ev ≠ RoomCreate →
  ∃ create_content room, accepted_in_room rv ev fetch create create_content room ∧
    ((special_case_room_aliases (authorization rv) = true ∧ kind ev = RoomAliases
      ∧ state_key ev = Some (user_server_name (sender ev)))
     ∨ (kind ev = RoomMember
        ∧ auth_check_member rv ev tp fetch (fetch RoomPowerLevels "")
            (fetch RoomMember (sender ev)) create = Ok true)
     ∨ (kind ev ≠ RoomMember
        ∧ auth_check_other rv ev (fetch RoomPowerLevels "") (fetch RoomMember (sender ev))
            create create_content room = Ok true)).
Proof.
  intros Hok Hk. unfold auth_check in Hok. rewrite decide_False in Hok by done.
  apply bind_Ok in Hok as (cc & Hcc%ok_or_Ok & Hok). inv_returns.
  apply bind_Ok in Hok as (room & Hroom & Hok).
  apply bind_Ok in Hok as (room' & Hroom'%ok_or_Ok & Hok).
  destruct (decide (room' ≠ room)) as [|Heq%dec_stable]; [done|]. subst room'. cbv zeta in Hok.
  inv_returns. apply bind_Ok in Hok as (plroom & Hpl & Hok). inv_returns.
  exists cc, room. split.
  - split; try done.
    + intros pl Hfetch. rewrite Hfetch in Hpl. apply ok_or_Ok in Hpl.
      rewrite Hpl. f_equal. by apply dec_stable.
    + destruct (decide (event_id create ∈ auth_events ev)) as [Hin|Hin],
        (decide (room_id_format rv = RoomIdV2)) as [Hv|Hv];
        repeat match goal with H : _ && _ = false |- _ => revert H end;
        rewrite ?(bool_decide_true _ Hv), ?(bool_decide_false _ Hv),
          ?(bool_decide_true _ Hin), ?(bool_decide_false _ Hin); naive_solver.
    + intros Hf. rewrite Hf in *. apply dec_stable.
      by match goal with H : negb false && bool_decide _ = false |- _ =>
        apply bool_decide_eq_false in H end.
  - destruct (special_case_room_aliases _ && _) eqn:Ha.
    + apply andb_true_iff in Ha as [? ?%bool_decide_eq_true].
      injection Hok as Hok%bool_decide_eq_true. auto.
    + destruct (decide (kind ev = RoomMember)); auto.
Qed.

(** The power of the sender as [auth_check_other] computes it. *)
Lemma user_power_eq rv create fetch user create_content creator levels :
  de_RoomCreateContentFields (content create) = Some create_content →
  room_creator rv create create_content = Ok creator →
  parse_power_levels (fetch RoomPowerLevels "") = Ok levels →
  user_power rv create fetch user =
    Some (get_user_power_level rv creator (default [] (cc_additional_creators create_content))
            levels user).
Proof. intros Hcc Hcr Hpl. unfold user_power. rewrite Hcc. simpl. rewrite Hcr. simpl. by rewrite Hpl. Qed.

Lemma auth_check_other_inv rv ev fetch create create_content room :
  de_RoomCreateContentFields (content create) = Some create_content →
  auth_check_other rv ev (fetch RoomPowerLevels "") (fetch RoomMember (sender ev))
    create create_content room = Ok true →
  ∃ member fields power levels,
    fetch RoomMember (sender ev) = Some member ∧ room_id member = Some room
    ∧ de_RoomMemberContentFields (content member) = Some fields
    ∧ raw_ok (mc_membership fields) = Some Join
    ∧ user_power rv create fetch (sender ev) = Some power
    ∧ levels_in_force rv fetch = Some levels
    ∧ ((kind ev = RoomThirdPartyInvite ∧ upl_ltb power (IntLevel (pl_invite levels)) = false)
       ∨ (kind ev ≠ RoomThirdPartyInvite
          ∧ can_send_event ev (fetch RoomPowerLevels "") power = true
          ∧ (kind ev = RoomPowerLevels →
             ∃ creators, privileged_creators rv create create_content = Ok creators
               ∧ check_power_levels rv ev (fetch RoomPowerLevels "") power creators = Some true))).
Proof.
  intros Hcc Hok. unfold auth_check_other in Hok.
  destruct (fetch RoomMember (sender ev)) as [member|]; [|done].
  apply bind_Ok in Hok as (mroom & Hmroom%ok_or_Ok & Hok).
  destruct (decide (mroom ≠ room)) as [|Heq%dec_stable]; [done|]. subst mroom.
  apply bind_Ok in Hok as (fields & Hfields%ok_or_Ok & Hok).
  apply bind_Ok in Hok as (raw & Hraw%ok_or_Ok & Hok).
  apply bind_Ok in Hok as (m & Hm%ok_or_Ok & Hok).
  destruct (decide (m ≠ Join)) as [|Hj%dec_stable]; [done|]. subst m.
  apply bind_Ok in Hok as (creator & Hcreator & Hok).
  apply bind_Ok in Hok as (levels & Hlevels & Hok). cbv zeta in Hok.
  eexists member, fields, _, (default (pl_new (authorization rv)) levels).
  split_and!; try done; [|by eapply user_power_eq| |].
  { unfold raw_ok. by rewrite Hraw, Hm. }
  { unfold levels_in_force. by rewrite Hlevels. }
  destruct (decide (kind ev = RoomThirdPartyInvite)).
  { left. injection Hok as Hok%negb_true_iff. done. }
  right. split; [done|]. destruct (can_send_event _ _ _); [|done]. split; [done|].
  cbn [negb] in Hok. intros Hpl. rewrite decide_True in Hok by done.
  apply bind_Ok in Hok as (allowed & Hal & Hok).
  apply bind_Ok in Hal as (creators & Hcr & Hal). exists creators. split; [done|].
  injection Hal as <-. by case_bool_decide.
Qed.

(** A create event is accepted exactly when it has no previous events, its room
    id, if any, names the sender's server and is absent in room versions that
    derive it from the event, its room version is known, and it names a creator in
    the versions that need one. *)
Theorem auth_check_create_correct rv ev tp fetch create :
  kind ev = RoomCreate →
  auth_check rv ev tp fetch create = Ok true ↔
    prev_events ev = []
    ∧ (∀ room, room_id ev = Some room → room_server_name room = Some (user_server_name (sender ev)))
    ∧ ∃ fields, de_RoomCreateContentFields (content ev) = Some fields
      ∧ unsupported_version fields = false
      ∧ (room_id_format rv = RoomIdV2 → room_id ev = None)
      ∧ (use_room_create_sender (authorization rv) = false →
         explicitly_privilege_room_creators (authorization rv) = false →
         cc_creator fields ≠ None).
Proof.
  intros Hk. unfold auth_check. rewrite decide_True by done. unfold auth_check_create.
  goal_decide as Hp; [naive_solver|]. apply dec_stable in Hp.
  destruct (match room_id ev with Some _ => _ | None => false end) eqn:Hr.
  { split; [done|]. intros (_ & Hroom & _). destruct (room_id ev) as [room|]; [|done].
    rewrite (Hroom room) in Hr by done. by rewrite bool_decide_false in Hr by auto. }
  assert (∀ room, room_id ev = Some room →
            room_server_name room = Some (user_server_name (sender ev))) as Hroom.
  { intros room Hid. rewrite Hid in Hr. destruct (room_server_name room); [|done].
    by apply bool_decide_eq_false, dec_stable in Hr as ->. }
  destruct (de_RoomCreateContentFields (content ev)) as [fields|]; simpl;
    [|split; [done|]; by intros (_ & _ & ? & ? & _)].
  transitivity (unsupported_version fields = false
      ∧ (room_id_format rv = RoomIdV2 → room_id ev = None)
      ∧ (use_room_create_sender (authorization rv) = false →
         explicitly_privilege_room_creators (authorization rv) = false →
         cc_creator fields ≠ None)).
  2: { split; [by eauto 8|]. intros (_ & _ & f & [= <-] & Hf); exact Hf. }
  destruct (unsupported_version fields) eqn:Hv; [intuition congruence|].
  goal_decide as Hf.
  { split; [done|]. intros (_ & Hnone & _). destruct Hf as [Hf [id Hid]].
    rewrite (Hnone Hf) in Hid. done. }
  assert (room_id_format rv = RoomIdV2 → room_id ev = None) as Hnone.
  { intros Hf'. apply eq_None_not_Some. tauto. }
  destruct (use_room_create_sender _), (explicitly_privilege_room_creators _); simpl;
    try case_bool_decide; intuition congruence.
Qed.

(** Only members send: an accepted event that is neither a create event, a
    membership event nor a specially treated alias event comes from a sender whose
    member event in the state says [join], and, third party invites apart, whose
    power reaches the level the event type needs; and a state key that starts with
    [@] is the sender's own id. *)
Theorem auth_check_sender_joined `{!RumaLaws} rv ev tp fetch create :
  auth_check rv ev tp fetch create = Ok true →
  kind ev ≠ RoomCreate → kind ev ≠ RoomMember →
  (special_case_room_aliases (authorization rv) = true → kind ev ≠ RoomAliases) →
  ∃ member fields power,
    fetch RoomMember (sender ev) = Some member
    ∧ de_RoomMemberContentFields (content member) = Some fields
    ∧ raw_ok (mc_membership fields) = Some Join
    ∧ user_power rv create fetch (sender ev) = Some power
    ∧ (kind ev ≠ RoomThirdPartyInvite →
       upl_le (IntLevel (get_send_level (kind ev) (state_key ev) (fetch RoomPowerLevels ""))) power
       ∧ ∀ key, state_key ev = Some key → starts_with_at key = true → key = sender ev).
Proof.
  intros Hok Hc Hm Ha.
  destruct (auth_check_inv _ _ _ _ _ Hok Hc) as (cc & room & Hin & [(?&?&_)|[[? _]|[_ Hother]]]);
    [naive_solver|done|].
  destruct (auth_check_other_inv _ _ _ _ _ _ (ar_create _ _ _ _ _ _ Hin) Hother)
    as (member & fields & power & levels & Hmem & _ & Hf & Hj & Hp & _ & Hcase).
  exists member, fields, power. split_and!; try done. intros Htp.
  destruct Hcase as [[? _]|(_ & Hsend & _)]; [done|]. unfold can_send_event in Hsend.
  cbv zeta in Hsend. destruct (upl_ltb _ _) eqn:Hl; [done|]. split; [by apply upl_ltb_false|].
  intros key Hkey Hat. rewrite Hkey, Hat in Hsend. simpl in Hsend.
  by case_bool_decide.
Qed.

Lemma upl_le_antisym a b : upl_le a b → upl_le b a → a = b.
Proof. destruct a, b; simpl; try done. intros. f_equal. lia. Qed.

(** C1: No escalation: an accepted power levels event that replaces another leaves
    unchanged every user or event level above the sender's own power that it
    contains, and every level of another user at or above the sender's power that
    was there before. *)
Theorem auth_check_no_escalation `{!RumaLaws} rv ev tp fetch create prev :
  auth_check rv ev tp fetch create = Ok true →
  kind ev = RoomPowerLevels → fetch RoomPowerLevels "" = Some prev →
  ∃ power old new,
    user_power rv create fetch (sender ev) = Some power
    ∧ deserialize_power_levels (content prev) rv = Some old
    ∧ deserialize_power_levels (content ev) rv = Some new
    ∧ (∀ user level, pl_users new !! user = Some level → upl_lt power (IntLevel level) →
       pl_users old !! user = Some level)
    ∧ (∀ user level, user ≠ sender ev → pl_users old !! user = Some level →
       upl_le power (IntLevel level) → pl_users new !! user = Some level)
    ∧ (∀ ty level, upl_lt power (IntLevel level) →
       pl_events new !! ty = Some level ↔ pl_events old !! ty = Some level).
Proof.
  intros Hok Hk Hprev. assert (kind ev ≠ RoomCreate) as Hc by (by rewrite Hk).
  destruct (auth_check_inv _ _ _ _ _ Hok Hc) as (cc & room & Hin & [(_&Ht&_)|[[Ht _]|[_ Hother]]]);
    [by rewrite Hk in Ht..|].
  destruct (auth_check_other_inv _ _ _ _ _ _ (ar_create _ _ _ _ _ _ Hin) Hother)
    as (member & fields & power & levels & _ & _ & _ & _ & Hp & _ & [[Ht _]|(_ & _ & Hcheck)]);
    [by rewrite Hk in Ht|].
  destruct (Hcheck Hk) as (creators & _ & Hok'). rewrite Hprev in Hok'.
  apply check_power_levels_lc in Hok' as (_ & old & new & Hold & Hnew & [_ Hu Heq He _ _]).
  exists power, old, new. split_and!; try done.
  - intros user level Hl Hlt. destruct (decide (pl_users old !! user = pl_users new !! user)); [congruence|].
    destruct (Hu user) as [_ Hw]; [done|]. by destruct Hlt; apply Hw.
  - intros user level Hs Hl Hle. destruct (decide (pl_users old !! user = pl_users new !! user)); [congruence|].
    destruct (Hu user) as [Hw _]; [done|].
    destruct (Heq user); [done..|]. rewrite Hl. simpl. f_equal.
    apply upl_le_antisym; [by apply Hw|done].
  - intros ty level Hlt. destruct (decide (pl_events old !! ty = pl_events new !! ty)) as [->|Hne]; [done|].
    destruct (He ty Hne) as [Hwo Hwn].
    split; intros Hl; destruct Hlt; [by apply Hwn|by apply Hwo].
Qed.

Lemma auth_check_member_inv `{!RumaLaws} rv ev tp fetch create :
  auth_check rv ev tp fetch create = Ok true → kind ev = RoomMember →
  ∃ target auth_user auth_membership m ctx, state_key ev = Some target
    ∧ context_of rv target (fetch RoomMember target) (sender ev) (fetch RoomMember (sender ev)) ev
        (fetch RoomPowerLevels "") (fetch RoomJoinRules "") auth_user auth_membership create m ctx
    ∧ membership_allowed (authorization rv) ctx m.
Proof.
  intros Hok Hk. assert (kind ev ≠ RoomCreate) as Hc by (by rewrite Hk).
  destruct (auth_check_inv _ _ _ _ _ Hok Hc)
    as (cc & room & Hin & [(_&Ht&_)|[[_ Hmember]|[? _]]]); [by rewrite Hk in Ht| |done].
  unfold auth_check_member in Hmember. destruct (state_key ev) as [target|]; [|done].
  apply bind_Ok in Hmember as (fields & Hfields & Hmember).
  destruct (decide (raw_ok _ = None)); [done|]. destruct (is_user_id target); [|done].
  apply valid_membership_change_spec in Hmember as (m & ctx & Hctx & Hv).
  exists target. eexists _, _, m, ctx. split_and!; [done|exact Hctx|by apply Hv].
Qed.

(** C2: Nobody removes a peer: when a ban, or a leave of somebody other than its
    sender, is accepted, the sender is joined, the target's power is strictly below
    the sender's, and the sender's power reaches the ban level for a ban and for
    lifting one, the kick level for a leave. *)
Theorem auth_check_removal `{!RumaLaws} rv ev tp fetch create target m :
  auth_check rv ev tp fetch create = Ok true →
  kind ev = RoomMember → state_key ev = Some target →
  de_GetMembership (content ev) = Some m →
  m = Ban ∨ (m = Leave ∧ target ≠ sender ev) →
  ∃ sender_power target_power levels,
    user_power rv create fetch (sender ev) = Some sender_power
    ∧ user_power rv create fetch target = Some target_power
    ∧ levels_in_force rv fetch = Some levels
    ∧ membership_of (fetch RoomMember (sender ev)) = Ok Join
    ∧ upl_lt target_power sender_power
    ∧ (m = Ban ∨ membership_of (fetch RoomMember target) = Ok Ban →
       upl_le (IntLevel (pl_ban levels)) sender_power)
    ∧ (m = Leave → upl_le (IntLevel (pl_kick levels)) sender_power).
Proof.
  intros Hok Hk Hkey Hm Hremove.
  destruct (auth_check_member_inv _ _ _ _ _ Hok Hk) as (target' & au & am & m' & ctx & Hkey' & Hctx & Hal).
  assert (target' = target) as -> by congruence.
  destruct Hctx as [Hs Ht _ Hm' Hsm Htm _ (cc & pls & Hcc & Hcr & Hpl & Hlv & [Hsp Htp] & _) _].
  assert (m' = m) as -> by congruence.
  exists (mx_sender_power ctx), (mx_target_power ctx), (mx_levels ctx).
  assert (levels_in_force rv fetch = Some (mx_levels ctx)) as Hin.
  { unfold levels_in_force. rewrite Hpl. simpl. by rewrite Hlv. }
  split_and!; [by rewrite Hsp; eapply user_power_eq|by rewrite Htp; eapply user_power_eq|done|..];
    rewrite ?Hsm, ?Htm; apply membership_allowed_iff in Hal;
    destruct Hremove as [->|[-> Hne]].
  all: try (destruct Hal as [[Hself _]|Hal]; [congruence|]).
  all: destruct_and?; try done; try congruence.
  - intros [?|[= ?]]; [done|tauto].
Qed.

(** A join is accepted only for its own sender, who is not banned and whom the
    join rule admits, or for the first event after the create event, sent by the
    room's creator. *)
Theorem auth_check_join `{!RumaLaws} rv ev tp fetch create target :
  auth_check rv ev tp fetch create = Ok true →
  kind ev = RoomMember → state_key ev = Some target →
  de_GetMembership (content ev) = Some Join →
  (prev_events ev = [event_id create]
   ∧ ∃ create_content, de_RoomCreateContentFields (content create) = Some create_content
     ∧ room_creator rv create create_content = Ok (sender ev))
  ∨ (target = sender ev
     ∧ membership_of (fetch RoomMember target) ≠ Ok Ban
     ∧ (membership_of (fetch RoomMember target) ∈ [Ok Join; Ok Invite]
        ∨ ∃ rule, join_rules_of (fetch RoomJoinRules "") = Ok rule
          ∧ rule ∈ [JRPublic; JRRestricted; JRKnockRestricted])).
Proof.
  intros Hok Hk Hkey Hm.
  destruct (auth_check_member_inv _ _ _ _ _ Hok Hk) as (target' & au & am & m' & ctx & Hkey' & Hctx & Hal).
  assert (target' = target) as -> by congruence.
  destruct Hctx as [Hs Ht Ha Hm' Hsm Htm _ (cc & pls & Hcc & Hcr & _) Hjr].
  assert (m' = Join) as -> by congruence.
  apply membership_allowed_iff in Hal as [[Hfirst Hcreator]|(Hself & Hban & Hp)].
  - left. rewrite Ha in Hfirst. apply bool_decide_eq_true in Hfirst. split; [done|].
    exists cc. split; [done|]. by rewrite Hcr, <-Hcreator, Hs.
  - right. split_and!; [congruence|congruence|].
    rewrite Htm. apply join_permitted_alt in Hp as [Hpub|(_ & [Hinv|[Hr _]])].
    + right. exists JRPublic. rewrite <-Hpub. split; [done|]. rewrite Hpub. by left.
    + left. apply elem_of_cons in Hinv as [-> | ->%list_elem_of_singleton]; [by left|by right; left].
    + right. exists (mx_join_rule ctx). split; [done|].
      destruct Hr as [->| ->]; [by right; left|by right; right; left].
Qed.
End auth_check.

(** ** The auth events an event selects *)

Section auth_types.
Context `{!Ruma}.

Lemma elem_of_push_key l key k : k ∈ push_key l key ↔ k ∈ l ∨ k = key.
Proof.
  unfold push_key. case_decide.
  - split; [by left|]. by intros [| ->].
  - rewrite elem_of_app, list_elem_of_singleton. done.
Qed.

Lemma push_key_NoDup l key : NoDup l → NoDup (push_key l key).
Proof.
  intros Hl. unfold push_key. case_decide; [done|]. apply NoDup_app. split_and!; [done| |].
  - intros x Hx ->%list_elem_of_singleton. done.
  - apply NoDup_singleton.
Qed.

(** [auth_type rv sender key content k]: the specification's rules for the auth events
    of an event that is not a create event. *)
Inductive auth_type (rv : RoomVersionRules) (ty : string) (sender_id : UserId)
    (key : option string) (fields : option RoomMemberContentFields) : string * string → Prop :=
| type_levels : auth_type rv ty sender_id key fields (RoomPowerLevels, "")
| type_sender : auth_type rv ty sender_id key fields (RoomMember, sender_id)
| type_create :
    room_id_format rv ≠ RoomIdV2 → auth_type rv ty sender_id key fields (RoomCreate, "")
| type_target target f m :
    ty = RoomMember → key = Some target → fields = Some f →
    raw_ok (mc_membership f) = Some m → auth_type rv ty sender_id key fields (RoomMember, target)
| type_join_rules target f m :
    ty = RoomMember → key = Some target → fields = Some f →
    raw_ok (mc_membership f) = Some m → m ∈ [Join; Invite; Knock] →
    auth_type rv ty sender_id key fields (RoomJoinRules, "")
| type_authoriser target f m u :
    ty = RoomMember → key = Some target → fields = Some f →
    raw_ok (mc_membership f) = Some m → m ∈ [Join; Invite; Knock] →
    raw_ok (mc_join_authorised_via_users_server f) = Some u →
    auth_type rv ty sender_id key fields (RoomMember, u).

Lemma base_types (rv : RoomVersionRules) sender_id k :
  k ∈ (if decide (room_id_format rv = RoomIdV2)
       then [(RoomPowerLevels, ""); (RoomMember, sender_id)]
       else [(RoomPowerLevels, ""); (RoomMember, sender_id); (RoomCreate, "")])
  ↔ k = (RoomPowerLevels, "") ∨ k = (RoomMember, sender_id)
    ∨ (room_id_format rv ≠ RoomIdV2 ∧ k = (RoomCreate, "")).
Proof. case_decide; rewrite !elem_of_cons, elem_of_nil; tauto. Qed.

Lemma auth_types_elem ty sender_id key j rv types k :
  auth_types_for_event ty sender_id key j rv = Ok types → ty ≠ RoomCreate →
  k ∈ types ↔ auth_type rv ty sender_id key (de_AuthTypesContentFields j) k.
Proof.
  intros Hok Hc. unfold auth_types_for_event in Hok. rewrite decide_False in Hok by done.
  assert (∀ (P : Prop), ¬ (∃ target f m, ty = RoomMember ∧ key = Some target
            ∧ de_AuthTypesContentFields j = Some f ∧ raw_ok (mc_membership f) = Some m) →
          (k = (RoomPowerLevels, "") ∨ k = (RoomMember, sender_id)
            ∨ (room_id_format rv ≠ RoomIdV2 ∧ k = (RoomCreate, ""))) ↔
          auth_type rv ty sender_id key (de_AuthTypesContentFields j) k) as Hbase.
  { intros _ Hno. split; [intros [->|[->|[? ->]]]; by constructor|].
    destruct 1; auto; destruct Hno; eauto 10. }
  destruct (decide (ty = RoomMember)) as [Ht|Ht].
  2:{ injection Hok as <-. rewrite base_types. apply (Hbase True). naive_solver. }
  destruct key as [target|].
  2:{ injection Hok as <-. rewrite base_types. apply (Hbase True). naive_solver. }
  apply bind_Ok in Hok as (f & Hf%ok_or_Ok & Hok).
  destruct (raw_ok (mc_membership f)) as [m|] eqn:Hm.
  2:{ injection Hok as <-. rewrite base_types. apply (Hbase True). naive_solver. }
  injection Hok as <-. rewrite elem_of_push_key, Hf. clear Hbase. split.
  - intros [Hk| ->]; [|by econstructor].
    destruct (decide (m ∈ _)) as [Hjik|_]; cbv zeta in Hk.
    + destruct (raw_ok (mc_join_authorised_via_users_server f)) as [u|] eqn:Hu;
        rewrite ?elem_of_push_key, base_types in Hk;
        repeat match goal with H : _ ∨ _ |- _ => destruct H end; destruct_and?; subst;
        first [by constructor 1|by constructor 2|by constructor 3|by econstructor 5
              |by econstructor 6].
    + rewrite base_types in Hk. destruct Hk as [->|[->|[? ->]]]; by constructor.
  - assert (∀ u, raw_ok (mc_join_authorised_via_users_server f) = Some u ∨ True) as _ by auto.
    intros Hk. destruct Hk as [ | | |target' f' m' ? Hk ? |target' f' m' _ Hk Hf' Hm' Hjik
                              |target' f' m' u _ Hk Hf' Hm' Hjik Hu].
    4: { right. by injection Hk as ->. }
    1-3: left; goal_decide; cbv zeta;
         [destruct (raw_ok (mc_join_authorised_via_users_server f)); rewrite ?elem_of_push_key|];
         rewrite base_types; tauto.
    all: left; injection Hf' as <-; rewrite Hm in Hm'; injection Hm' as <-.
    all: rewrite decide_True by done; cbv zeta.
    + destruct (raw_ok (mc_join_authorised_via_users_server f)); rewrite ?elem_of_push_key; tauto.
    + rewrite Hu, !elem_of_push_key. tauto.
Qed.

Lemma auth_types_NoDup ty sender_id key j rv types :
  auth_types_for_event ty sender_id key j rv = Ok types → NoDup types.
Proof.
  intros Hok. unfold auth_types_for_event in Hok.
  assert (NoDup (if decide (room_id_format rv = RoomIdV2)
       then [(RoomPowerLevels, ""); (RoomMember, sender_id)]
       else [(RoomPowerLevels, ""); (RoomMember, sender_id); (RoomCreate, "")])) as Hb.
  { unfold RoomPowerLevels, RoomMember, RoomCreate.
    destruct (decide (room_id_format rv = RoomIdV2));
      repeat constructor; rewrite ?elem_of_cons, ?elem_of_nil; intuition congruence. }
  destruct (decide (ty = RoomCreate)); [injection Hok as <-; constructor|].
  destruct (decide (ty = RoomMember)); [|by injection Hok as <-].
  destruct key as [target|]; [|by injection Hok as <-].
  apply bind_Ok in Hok as (f & _ & Hok).
  destruct (raw_ok (mc_membership f)) as [m|]; [|by injection Hok as <-].
  injection Hok as <-. apply push_key_NoDup. goal_decide; [|done]. cbv zeta.
  destruct (raw_ok (mc_join_authorised_via_users_server f)); by repeat apply push_key_NoDup.
Qed.

(** [auth_types_for_event] lists, without repetition, exactly the state keys the
    specification names: power levels, the sender's membership, the create event in
    the room versions that reference it, and for a membership event its target, the
    join rules for a join, invite or knock, and the user who authorised it. *)
Theorem auth_types_for_event_correct ty sender_id key j rv types :
  auth_types_for_event ty sender_id key j rv = Ok types →
  NoDup types
  ∧ (ty = RoomCreate → types = [])
  ∧ (ty ≠ RoomCreate → ∀ k, k ∈ types ↔
       auth_type rv ty sender_id key (de_AuthTypesContentFields j) k).
Proof.
  intros Hok. split_and!.
  - by eapply auth_types_NoDup.
  - intros ->. unfold auth_types_for_event in Hok. rewrite decide_True in Hok by done.
    by injection Hok as <-.
  - intros Hc k. by apply auth_types_elem.
Qed.

Lemma join_auth_membership_irrelevant rv creator create_content levels_ev levels auth_user m1 m2 :
  (∃ b1 b2, join_auth_is_valid rv creator create_content levels_ev levels auth_user m1 = Ok b1
     ∧ join_auth_is_valid rv creator create_content levels_ev levels auth_user m2 = Ok b2)
  ∨ (∃ e, join_auth_is_valid rv creator create_content levels_ev levels auth_user m1 = Err e
     ∧ join_auth_is_valid rv creator create_content levels_ev levels auth_user m2 = Err e).
Proof.
  unfold join_auth_is_valid. destruct auth_user as [u|]; [|left; eauto].
  destruct levels_ev as [pl|]; simpl; [|left; eauto].
  destruct (lift _) as [l|e]; simpl; [left|right]; eauto.
Qed.

(** For the other memberships neither the join rules nor the authorising user count. *)
Lemma membership_change_ignores rv target target_ev sender_id sender_ev ev tp levels_ev r1 r2
    auth_user m1 m2 create m :
  de_GetMembership (content ev) = Some m → m ∉ [Join; Invite; Knock] →
  is_ok (join_rules_of r1) = true → is_ok (join_rules_of r2) = true →
  valid_membership_change rv target target_ev sender_id sender_ev ev tp levels_ev r1 auth_user m1 create
  = valid_membership_change rv target target_ev sender_id sender_ev ev tp levels_ev r2 auth_user m2
      create.
Proof.
  intros Hm Hno Hr1 Hr2. unfold valid_membership_change. rewrite Hm.
  destruct (parse (de_RoomCreateContentFields _)) as [cc|]; simpl; [|done].
  destruct (room_creator rv create cc) as [creator|]; simpl; [|done].
  destruct (parse (de_GetThirdPartyInvite _)) as [inv|]; simpl; [|done].
  destruct (membership_of sender_ev) as [sm|]; simpl; [|done].
  destruct (membership_of target_ev) as [tm|]; simpl; [|done].
  destruct (parse_power_levels levels_ev) as [pls|]; simpl; [|done].
  destruct (join_rules_of r1) as [j1|]; [|done]. destruct (join_rules_of r2) as [j2|]; [|done].
  simpl.
  destruct (join_auth_membership_irrelevant rv creator cc levels_ev pls auth_user m1 m2)
    as [(b1 & b2 & -> & ->)|(e & -> & ->)]; simpl; [|done].
  rewrite !elem_of_cons, elem_of_nil in Hno. destruct m; try done; tauto.
Qed.

(** [auth_check] reads nothing but the state [auth_types_for_event] selects: two
    states that agree on those keys give the same outcome, errors included, as long
    as the join rules event, which it parses in every membership check, parses. *)
Theorem auth_check_reads_auth_types `{!RumaLaws} rv ev tp fetch1 fetch2 create types :
  auth_types_for_event (kind ev) (sender ev) (state_key ev) (content ev) rv = Ok types →
  (∀ ty key, (ty, key) ∈ types → fetch1 ty key = fetch2 ty key) →
  is_ok (join_rules_of (fetch1 RoomJoinRules "")) = true →
  is_ok (join_rules_of (fetch2 RoomJoinRules "")) = true →
  auth_check rv ev tp fetch1 create = auth_check rv ev tp fetch2 create.
Proof.
  intros Hok Hagree Hj1 Hj2. unfold auth_check. goal_decide as Hc; [done|].
  assert (∀ k, k ∈ types ↔ auth_type rv (kind ev) (sender ev) (state_key ev)
                             (de_AuthTypesContentFields (content ev)) k) as Hel.
  { intros k. by apply auth_types_elem. }
  rewrite !(Hagree RoomPowerLevels "") by (apply Hel; constructor).
  rewrite !(Hagree RoomMember (sender ev)) by (apply Hel; constructor).
  destruct (decide (kind ev = RoomMember)) as [Hk|]; [|done].
  assert (auth_check_member rv ev tp fetch1 (fetch2 RoomPowerLevels "")
            (fetch2 RoomMember (sender ev)) create
          = auth_check_member rv ev tp fetch2 (fetch2 RoomPowerLevels "")
              (fetch2 RoomMember (sender ev)) create) as ->; [|done].
  unfold auth_check_member. destruct (state_key ev) as [target|] eqn:Hkey; [|done].
  unfold auth_types_for_event in Hok. rewrite decide_False, decide_True in Hok by done.
  apply bind_Ok in Hok as (f & Hf%ok_or_Ok & _).
  rewrite (de_auth_types_fields _ _ Hf). simpl. goal_decide as Hm; [done|].
  destruct (is_user_id target); [|done].
  destruct (raw_ok (mc_membership f)) as [m|] eqn:Hraw; [|done].
  rewrite (Hagree RoomMember target) by (apply Hel; by econstructor).
  destruct (decide (m ∈ [Join; Invite; Knock])) as [Hin|Hnin].
  - rewrite (Hagree RoomJoinRules "") by (apply Hel; by econstructor).
    destruct (raw_ok (mc_join_authorised_via_users_server f)) as [u|] eqn:Hu; [|done]. simpl.
    by rewrite (Hagree RoomMember u) by (apply Hel; by econstructor).
  - eapply membership_change_ignores; [|exact Hnin|done..].
    apply (de_membership_field _ f); [by apply de_auth_types_fields|].
    unfold raw_ok in Hraw. by destruct (mc_membership f) as [[]|]; simplify_eq/=.
Qed.
End auth_types.

(** ** The theorems on a concrete room *)

Module AuthWitness.

Definition fetch (s : StateMap Pdu) (ty key : string) : option Pdu := s !! (ty, key).
Definition public_room := fetch (room_state JRPublic).
Definition invite_room := fetch (room_state JRInvite).

Definition member_event (who target : UserId) (m : MembershipState) (third_party : bool) : Pdu :=
  mk_event "$new" RoomMember who (Some target) (JMember m None third_party) ["$create"].
Definition levels_event (who : UserId) (p : RoomPowerLevelsEventContent) : Pdu :=
  mk_event "$newlevels" RoomPowerLevels who (Some "") (JPower p []) ["$create"].
Definition message (who : UserId) : Pdu :=
  mk_event "$msg" "m.room.message" who None JOther ["$create"].

(** Bob bans carol, but not alice; dave may join the public room only. *)
Example bob_bans_carol :
  auth_check room_v11 (member_event bob carol Ban false) None public_room ev_create = Ok true.
Proof. vm_compute. reflexivity. Qed.
Example bob_cannot_ban_alice :
  auth_check room_v11 (member_event bob alice Ban false) None public_room ev_create = Ok false.
Proof. vm_compute. reflexivity. Qed.
Example dave_joins :
  auth_check room_v11 (member_event dave dave Join false) None public_room ev_create = Ok true
  ∧ auth_check room_v11 (member_event dave dave Join false) None invite_room ev_create = Ok false.
Proof. vm_compute. split; reflexivity. Qed.

(** An invite that carries a third party invite is accepted from somebody who is not
    in the room: [verify_third_party_invite] accepts everything. *)
Example third_party_invite_from_outsider :
  membership_of (invite_room RoomMember dave) = Ok Leave
  ∧ auth_check room_v11 (member_event dave dave Invite true) None invite_room ev_create = Ok true.
Proof. vm_compute. split; reflexivity. Qed.

(** The creator's exemption does not look at the state key: right after the create
    event alice may join dave to her invite-only room. *)
Example creator_joins_another :
  auth_check room_v11
    {| event_id := "$new"; room_id := Some "!r:a"; sender := alice; origin_server_ts := 0;
       kind := RoomMember; content := JMember Join None false; state_key := Some dave;
       prev_events := ["$create"]; auth_events := ["$create"]; redacts := None; depth := 1 |}
    None (λ _ _, None) ev_create = Ok true.
Proof. vm_compute. reflexivity. Qed.

Definition set_ban (level : Z) (p : RoomPowerLevelsEventContent) : RoomPowerLevelsEventContent :=
  {| pl_ban := level; pl_events := pl_events p; pl_events_default := pl_events_default p;
     pl_invite := pl_invite p; pl_kick := pl_kick p; pl_redact := pl_redact p;
     pl_state_default := pl_state_default p; pl_users := pl_users p;
     pl_users_default := pl_users_default p; pl_notifications_room := pl_notifications_room p |}.

(** A named level at its default is not serialised, so a change from the default is
    not compared: bob, at 50, moves the ban level to 100. *)
Example default_level_not_compared :
  check_power_levels room_v11 (levels_event bob (set_ban 100 room_levels)) (Some ev_levels)
    (IntLevel 50) ∅ = Some true.
Proof. vm_compute. reflexivity. Qed.

(** And an unchanged named level above the sender's power refuses the event: with the
    ban level at 100 on both sides bob can change nothing. *)
Example unchanged_level_refused :
  check_power_levels room_v11 (levels_event bob (set_ban 100 room_levels))
    (Some (levels_event alice (set_ban 100 room_levels))) (IntLevel 50) ∅ = Some false.
Proof. vm_compute. reflexivity. Qed.


Lemma check_power_levels_correct_witness :
  ∃ old new, deserialize_power_levels (content ev_levels) room_v11 = Some old
    ∧ deserialize_power_levels (JPower (set_ban 20 room_levels) []) room_v11 = Some new
    ∧ levels_change_allowed auth_v11 alice (IntLevel 100) ∅ old new.
Proof.
  apply (check_power_levels_correct room_v11 (levels_event alice (set_ban 20 room_levels)) ev_levels
    (IntLevel 100) ∅). vm_compute. reflexivity.
Defined.

Lemma auth_check_create_correct_witness :
  prev_events ev_create = [] ∧ auth_check room_v11 ev_create None public_room ev_create = Ok true.
Proof.
  split; [reflexivity|].
  apply (auth_check_create_correct room_v11 ev_create None public_room ev_create); [reflexivity|].
  split; [reflexivity|]. split; [intros room [= <-]; reflexivity|].
  eexists. split; [reflexivity|]. split; [reflexivity|]. split; [intros [=]|intros [=]].
Defined.

Lemma auth_check_sender_joined_witness :
  ∃ member fields power,
    public_room RoomMember carol = Some member
    ∧ de_RoomMemberContentFields (content member) = Some fields
    ∧ raw_ok (mc_membership fields) = Some Join
    ∧ user_power room_v11 ev_create public_room carol = Some power
    ∧ ("m.room.message" ≠ RoomThirdPartyInvite →
       upl_le (IntLevel (get_send_level "m.room.message" None (public_room RoomPowerLevels ""))) power
       ∧ ∀ key, state_key (message carol) = Some key → starts_with_at key = true → key = carol).
Proof.
  apply (auth_check_sender_joined room_v11 (message carol) None public_room ev_create);
    [vm_compute; reflexivity|discriminate..].
Defined.

Lemma auth_check_no_escalation_witness :
  auth_check room_v11 (levels_event bob (set_ban 50 room_levels)) None public_room ev_create = Ok true
  ∧ ∃ power old new,
    user_power room_v11 ev_create public_room bob = Some power
    ∧ deserialize_power_levels (content ev_levels) room_v11 = Some old
    ∧ deserialize_power_levels (JPower (set_ban 50 room_levels) []) room_v11 = Some new
    ∧ (∀ user level, pl_users new !! user = Some level → upl_lt power (IntLevel level) →
       pl_users old !! user = Some level)
    ∧ (∀ user level, user ≠ bob → pl_users old !! user = Some level →
       upl_le power (IntLevel level) → pl_users new !! user = Some level)
    ∧ (∀ ty level, upl_lt power (IntLevel level) →
       pl_events new !! ty = Some level ↔ pl_events old !! ty = Some level).
Proof.
  split; [vm_compute; reflexivity|].
  apply (auth_check_no_escalation room_v11 (levels_event bob (set_ban 50 room_levels)) None public_room
    ev_create ev_levels); [vm_compute; reflexivity..].
Defined.

Lemma auth_check_removal_witness :
  ∃ sender_power target_power levels,
    user_power room_v11 ev_create public_room bob = Some sender_power
    ∧ user_power room_v11 ev_create public_room carol = Some target_power
    ∧ levels_in_force room_v11 public_room = Some levels
    ∧ membership_of (public_room RoomMember bob) = Ok Join
    ∧ upl_lt target_power sender_power
    ∧ (Ban = Ban ∨ membership_of (public_room RoomMember carol) = Ok Ban →
       upl_le (IntLevel (pl_ban levels)) sender_power)
    ∧ (Ban = Leave → upl_le (IntLevel (pl_kick levels)) sender_power).
Proof.
  apply (auth_check_removal room_v11 (member_event bob carol Ban false) None public_room ev_create
    carol Ban); [vm_compute; reflexivity|reflexivity..|left; reflexivity].
Defined.

Lemma auth_check_join_witness :
  (prev_events (member_event dave dave Join false) = [event_id ev_create]
   ∧ ∃ create_content, de_RoomCreateContentFields (content ev_create) = Some create_content
     ∧ room_creator room_v11 ev_create create_content = Ok dave)
  ∨ (dave = dave
     ∧ membership_of (public_room RoomMember dave) ≠ Ok Ban
     ∧ (membership_of (public_room RoomMember dave) ∈ [Ok Join; Ok Invite]
        ∨ ∃ rule, join_rules_of (public_room RoomJoinRules "") = Ok rule
          ∧ rule ∈ [JRPublic; JRRestricted; JRKnockRestricted])).
Proof.
  apply (auth_check_join room_v11 (member_event dave dave Join false) None public_room ev_create dave);
    [vm_compute; reflexivity|reflexivity..].
Defined.

Definition join_types : list (string * string) :=
  [(RoomPowerLevels, ""); (RoomMember, dave); (RoomCreate, ""); (RoomJoinRules, "")].

Lemma auth_types_for_event_correct_witness :
  NoDup join_types
  ∧ (RoomMember = RoomCreate → join_types = [])
  ∧ (RoomMember ≠ RoomCreate → ∀ k, k ∈ join_types ↔
       auth_type room_v11 RoomMember dave (Some dave)
         (de_AuthTypesContentFields (content (member_event dave dave Join false))) k).
Proof.
  apply (auth_types_for_event_correct RoomMember dave (Some dave)
    (content (member_event dave dave Join false)) room_v11
    join_types). vm_compute. reflexivity.
Defined.

Lemma auth_check_reads_auth_types_witness :
  auth_check room_v11 (member_event dave dave Join false) None public_room ev_create
  = auth_check room_v11 (member_event dave dave Join false) None
      (λ ty key, if decide (key = carol) then None else public_room ty key) ev_create.
Proof.
  apply (auth_check_reads_auth_types room_v11 (member_event dave dave Join false) None public_room _
    ev_create join_types); [vm_compute; reflexivity| |vm_compute; reflexivity..].
  intros ty key Hin. rewrite decide_False; [reflexivity|]. intros ->.
  repeat (apply elem_of_cons in Hin as [[=]|Hin]). by apply elem_of_nil in Hin.
Defined.
End AuthWitness.
