(* ===== verification/StateRes.v ===== *)
(** State resolution: src/src/core/matrix/state_res/mod.rs, apart from the
    topological sort (TopoSort) and event authorisation (EventAuth).

    [fetch_event] and [event_exists] are functions, as they read the event store.
    Streams are lists.  The combinators of the source whose names start with
    [broad] or [wide] yield results in the order the futures complete; where the
    order reaches the result it is the parameter [complete] of [Scheduler].
    Collections into sets and maps do not depend on it.  Loops that follow
    [auth_events] are bounded by fuel. *)

From stdpp Require Import prelude gmap strings sorting.
From Stdlib.Strings Require Import Ascii.
From S2P Require Import Prelude TopoSort Event PowerLevels EventAuth.

(** The order in which concurrently awaited futures complete. *)
Class Scheduler := complete : ∀ {A}, list A → list A.
Class SchedulerLaws (sched : Scheduler) : Prop := {
  complete_perm {A} (l : list A) : complete l ≡ₚ l;
}.
Definition in_order : Scheduler := fun A l => l.
Definition last_first : Scheduler := fun A l => reverse l.
#[export] Instance in_order_laws : SchedulerLaws in_order.
Proof. by split. Qed.
#[export] Instance last_first_laws : SchedulerLaws last_first.
Proof. split. intros A l. apply reverse_Permutation. Qed.

(** ** Conflicts between state sets *)

Section separate.
Context `{!HashIter (string * string), !HashIter string}.

(** One more occurrence of an entry of a state set.
    @src src/src/core/matrix/state_res/mod.rs:249-256 separate *)
Definition count_occurrence (occurrences : gmap (string * string) (gmap EventId nat))
    (kv : (string * string) * EventId) : gmap (string * string) (gmap EventId nat) :=
  let inner := default ∅ (occurrences !! kv.1) in
  <[kv.1 := <[kv.2 := S (default 0 (inner !! kv.2))]> inner]> occurrences.

(** The loop over the event IDs of one key.
    @src src/src/core/matrix/state_res/mod.rs:263-271 separate *)
Definition place_event (state_set_count : nat) (k : string * string)
    (acc : StateMap EventId * StateMap (list EventId)) (idc : EventId * nat)
  : StateMap EventId * StateMap (list EventId) :=
  if decide (idc.2 = state_set_count)
  then (<[k := idc.1]> acc.1, acc.2)
  else (acc.1, <[k := default [] (acc.2 !! k) ++ [idc.1]]> acc.2).

(** @src src/src/core/matrix/state_res/mod.rs:237-275 separate *)
Definition separate (state_sets : list (StateMap EventId))
  : StateMap EventId * StateMap (list EventId) :=
  let state_set_count := length state_sets in
  let occurrences := foldl count_occurrence ∅ (mjoin (iter_map <$> state_sets)) in
  foldl (fun acc kv => foldl (place_event state_set_count kv.1) acc (iter_map kv.2))
    (∅, ∅) (iter_map occurrences).
End separate.

(** @src src/src/core/matrix/state_res/mod.rs:334-353 get_auth_chain_diff *)
Definition get_auth_chain_diff `{!HashIter string} (auth_chain_sets : list (gset EventId))
  : list EventId :=
  let num_sets := length auth_chain_sets in
  let id_counts :=
    foldl (fun m id => <[id := S (default 0 (m !! id))]> m) (∅ : gmap EventId nat)
      (mjoin (iter_set <$> auth_chain_sets)) in
  (filter (fun idc : EventId * nat => idc.2 < num_sets) (iter_map id_counts)).*1.

Section resolution.
Context `{!Ruma, !HashIter (string * string), !HashIter string, !Scheduler}.
Variables (room_version : RoomVersionRules) (fetch_event : EventId → option Pdu).

Abbreviation step A := (comp error A).

(** ** The conflicted subgraph *)

(** The search's state; the top of [stack] and the end of [path] come first.
    @src src/src/core/matrix/state_res/mod.rs:285-292 calculate_conflicted_subgraph *)
Record subgraph_state := {
  ss_subgraph : gset EventId;
  ss_stack : list (list EventId);
  ss_path : list EventId;
  ss_seen : gset EventId;
}.

(** The closure [next_event]: leave finished frames, then pop from the top one. The
    end of a frame comes first.
    @src src/src/core/matrix/state_res/mod.rs:293-299 calculate_conflicted_subgraph *)
Fixpoint next_event (stack : list (list EventId)) (path : list EventId)
  : option (EventId * list (list EventId) * list EventId) :=
  match stack with
  | [] => None
  | [] :: stack => next_event stack (tail path)
  | (event_id :: frame) :: stack => Some (event_id, frame :: stack, path)
  end.

(** The body of the loop, on the popped event.
    @src src/src/core/matrix/state_res/mod.rs:300-330 calculate_conflicted_subgraph *)
Definition visit_event (conflicted_events : gset EventId) (event_id : EventId)
    (st : subgraph_state) : subgraph_state :=
  let path := event_id :: ss_path st in
  if decide (event_id ∈ ss_subgraph st) then
    {| ss_subgraph := (if decide (1 < length path) then list_to_set path else ∅) ∪ ss_subgraph st;
       ss_stack := ss_stack st; ss_path := tail path; ss_seen := ss_seen st |}
  else
    let subgraph :=
      (if decide (event_id ∈ conflicted_events ∧ 1 < length path) then list_to_set path else ∅)
      ∪ ss_subgraph st in
    if decide (event_id ∈ ss_seen st) then
      {| ss_subgraph := subgraph; ss_stack := ss_stack st; ss_path := tail path;
         ss_seen := ss_seen st |}
    else
      match fetch_event event_id with
      | None =>
          {| ss_subgraph := subgraph; ss_stack := ss_stack st; ss_path := tail path;
             ss_seen := ss_seen st |}
      | Some evt =>
          {| ss_subgraph := subgraph; ss_stack := reverse (auth_events evt) :: ss_stack st;
             ss_path := path; ss_seen := {[event_id]} ∪ ss_seen st |}
      end.

(** @src src/src/core/matrix/state_res/mod.rs:300-331 calculate_conflicted_subgraph *)
Fixpoint subgraph_loop (fuel : nat) (conflicted_events : gset EventId) (st : subgraph_state)
  : step (gset EventId) :=
  match next_event (ss_stack st) (ss_path st) with
  | None => Ok (ss_subgraph st)
  | Some (event_id, stack, path) =>
      match fuel with
      | O => Err OutOfFuel
      | S fuel =>
          subgraph_loop fuel conflicted_events
            (visit_event conflicted_events event_id
               {| ss_subgraph := ss_subgraph st; ss_stack := stack; ss_path := path;
                  ss_seen := ss_seen st |})
      end
  end.

(** @src src/src/core/matrix/state_res/mod.rs:277-332 calculate_conflicted_subgraph *)
Definition calculate_conflicted_subgraph (fuel : nat) (conflicted : StateMap (list EventId))
  : step (gset EventId) :=
  let conflicted_events : gset EventId := list_to_set (mjoin (iter_map conflicted).*2) in
  subgraph_loop fuel conflicted_events
    {| ss_subgraph := ∅; ss_stack := [reverse (iter_set conflicted_events)]; ss_path := [];
       ss_seen := ∅ |}.

(** ** Power events *)

(** @src src/src/core/matrix/state_res/mod.rs:1046-1048 is_type_and_key *)
Definition is_type_and_key (ev : Pdu) (ev_type state_key' : string) : bool :=
  bool_decide (kind ev = ev_type) && bool_decide (state_key ev = Some state_key').

(** @src src/src/core/matrix/state_res/mod.rs:1050-1066 is_power_event *)
Definition is_power_event (event : Pdu) : bool :=
  if decide (kind event ∈ [RoomPowerLevels; RoomJoinRules; RoomCreate])
  then bool_decide (state_key event = Some "")
  else if decide (kind event = RoomMember) then
    match de_RoomMemberEventContent (content event) with
    | Some membership =>
        if decide (membership ∈ [Leave; Ban]) then bool_decide (Some (sender event) ≠ state_key event)
        else false
    | None => false
    end
  else false.

(** @src src/src/core/matrix/state_res/mod.rs:1034-1044 is_power_event_id *)
Definition is_power_event_id (event_id : EventId) : bool :=
  match fetch_event event_id with
  | Some state => is_power_event state
  | None => false
  end.

(** The edges from an event to its auth events in [auth_diff], and the stack.  The
    end of the stack comes first.
    @src src/src/core/matrix/state_res/mod.rs:1018-1030 add_event_and_auth_chain_to_graph *)
Definition add_edge (auth_diff : gset EventId) (eid : EventId)
    (acc : gmap EventId (gset EventId) * list EventId) (aid : EventId)
  : gmap EventId (gset EventId) * list EventId :=
  if decide (aid ∈ auth_diff) then
    let state := if decide (aid ∈ dom acc.1) then acc.2 else aid :: acc.2 in
    (<[eid := {[aid]} ∪ default ∅ (acc.1 !! eid)]> acc.1, state)
  else acc.

(** @src src/src/core/matrix/state_res/mod.rs:1012-1031 add_event_and_auth_chain_to_graph *)
Fixpoint graph_loop (fuel : nat) (auth_diff : gset EventId) (graph : gmap EventId (gset EventId))
    (state : list EventId) : step (gmap EventId (gset EventId)) :=
  match state with
  | [] => Ok graph
  | eid :: state =>
      match fuel with
      | O => Err OutOfFuel
      | S fuel =>
          let graph := <[eid := default ∅ (graph !! eid)]> graph in
          let auth := match fetch_event eid with Some event => auth_events event | None => [] end in
          let '(graph, state) := foldl (add_edge auth_diff eid) (graph, state) auth in
          graph_loop fuel auth_diff graph state
      end
  end.

(** @src src/src/core/matrix/state_res/mod.rs:1002-1032 add_event_and_auth_chain_to_graph *)
Definition add_event_and_auth_chain_to_graph (fuel : nat) (graph : gmap EventId (gset EventId))
    (event_id : EventId) (auth_diff : gset EventId) : step (gmap EventId (gset EventId)) :=
  graph_loop fuel auth_diff graph [event_id].

(** ** The power level of an event's sender *)

(** [js_int::Int::MAX]. *)
Definition int_MAX : Z := 2 ^ 53 - 1.

(** @src src/src/core/matrix/state_res/mod.rs:613-678 sender_is_creator *)
Definition sender_is_creator (event : Pdu) (auth_evs : list Pdu) : step bool :=
  create_event ←
    match find (fun aev => is_type_and_key aev RoomCreate "") auth_evs with
    | Some create_event => Ok (Some create_event)
    | None =>
        id ← room_id_or_hash event;
        let create_event_id := replace_char "!"%char "$"%char id in
        if is_event_id create_event_id then Ok (fetch_event create_event_id) else Ok None
    end;
  match create_event with
  | None => Ok false
  | Some create_event =>
      fields ← parse (de_SortCreateContentFields (content create_event));
      let is_sender (creator : raw UserId) := bool_decide (creator = Some (sender event)) in
      let is_creator :=
        if use_room_create_sender (authorization room_version)
        then bool_decide (sender create_event = sender event)
        else match sc_creator fields with Some creator => is_sender creator | None => false end in
      if is_creator then Ok true
      else if negb (explicitly_privilege_room_creators (authorization room_version)) then Ok false
      else Ok (existsb is_sender (default [] (sc_additional_creators fields)))
  end.

(** @src src/src/core/matrix/state_res/mod.rs:551-605 get_power_level_for_sender *)
Definition get_power_level_for_sender (event_id : EventId) : step Z :=
  match fetch_event event_id with
  | None => Ok 0%Z
  | Some event =>
      let auth_evs := complete (omap fetch_event (auth_events event)) in
      creator ← sender_is_creator event auth_evs;
      if creator && explicitly_privilege_room_creators (authorization room_version)
      then Ok int_MAX
      else
        match find (fun aev => is_type_and_key aev RoomPowerLevels "") auth_evs with
        | None => Ok (if creator then 100 else 0)%Z
        | Some ev =>
            content ← parse (parse_power_levels_content_fields (content ev));
            match get_user_power content (sender event) with
            | Some user_level => Ok user_level
            | None => Ok (users_default content)
            end
        end
  end.

(** [event_to_pl]: events whose level cannot be read are left out.
    @src src/src/core/matrix/state_res/mod.rs:383-403 reverse_topological_power_sort *)
Fixpoint event_levels (keys : list EventId) : step (gmap EventId Z) :=
  match keys with
  | [] => Ok ∅
  | event_id :: keys =>
      m ← event_levels keys;
      match get_power_level_for_sender event_id with
      | Ok pl => Ok (<[event_id := pl]> m)
      | Err (Fail _) => Ok m
      | Err f => Err f
      end
  end.

(** The closure [fetcher].
    @src src/src/core/matrix/state_res/mod.rs:405-415 reverse_topological_power_sort *)
Definition sort_key (event_to_pl : gmap EventId Z) (event_id : EventId) : result error (Z * Z) :=
  pl ← ok_or NotFound (event_to_pl !! event_id);
  ev ← ok_or NotFound (fetch_event event_id);
  Ok (pl, Event.origin_server_ts ev).

(** @src src/src/core/matrix/state_res/mod.rs:377-380 reverse_topological_power_sort *)
Fixpoint build_graph (fuel : nat) (auth_diff : gset EventId) (graph : gmap EventId (gset EventId))
    (events_to_sort : list EventId) : step (gmap EventId (gset EventId)) :=
  match events_to_sort with
  | [] => Ok graph
  | event_id :: events =>
      graph ← add_event_and_auth_chain_to_graph fuel graph event_id auth_diff;
      build_graph fuel auth_diff graph events
  end.

(** @src src/src/core/matrix/state_res/mod.rs:364-418 reverse_topological_power_sort *)
Definition reverse_topological_power_sort (fuel : nat) (events_to_sort : list EventId)
    (auth_diff : gset EventId) : step (list EventId) :=
  graph ← build_graph fuel auth_diff ∅ events_to_sort;
  event_to_pl ← event_levels (iter_map graph).*1;
  lexicographical_topological_sort (sort_key event_to_pl) graph.

(** ** The mainline *)

(** The first auth event that is the power levels event; fetching stops there.
    @src src/src/core/matrix/state_res/mod.rs:986-996 get_mainline_depth *)
Fixpoint find_power_levels (aids : list EventId) : step (option Pdu) :=
  match aids with
  | [] => Ok None
  | aid :: aids =>
      ev ← ok_or_fail NotFound (fetch_event aid);
      if is_type_and_key ev RoomPowerLevels "" then Ok (Some ev) else find_power_levels aids
  end.

(** The same search in [mainline_sort], which keeps the ID it fetched.
    @src src/src/core/matrix/state_res/mod.rs:922-932 mainline_sort *)
Fixpoint find_power_levels_id (aids : list EventId) : step (option EventId) :=
  match aids with
  | [] => Ok None
  | aid :: aids =>
      ev ← ok_or_fail NotFound (fetch_event aid);
      if is_type_and_key ev RoomPowerLevels "" then Ok (Some aid) else find_power_levels_id aids
  end.

(** The loop that collects the mainline, newest first.
    @src src/src/core/matrix/state_res/mod.rs:913-931 mainline_sort *)
Fixpoint collect_mainline (fuel : nat) (pl : option EventId) : step (list EventId) :=
  match pl with
  | None => Ok []
  | Some p =>
      match fuel with
      | O => Err OutOfFuel
      | S fuel =>
          event ← ok_or_fail NotFound (fetch_event p);
          pl ← find_power_levels_id (auth_events event);
          mainline ← collect_mainline fuel pl;
          Ok (p :: mainline)
      end
  end.

(** [mainline.iter().rev().enumerate()] collected.
    @src src/src/core/matrix/state_res/mod.rs:935-940 mainline_sort *)
Definition mainline_positions (mainline : list EventId) : gmap EventId nat :=
  list_to_map (reverse (imap (fun idx eid => (eid, idx)) (reverse mainline))).

(** @src src/src/core/matrix/state_res/mod.rs:966-1000 get_mainline_depth *)
Fixpoint get_mainline_depth (fuel : nat) (event : option Pdu) (mainline_map : gmap EventId nat)
  : step nat :=
  match event with
  | None => Ok 0
  | Some sort_ev =>
      match mainline_map !! event_id sort_ev with
      | Some depth => Ok depth
      | None =>
          match fuel with
          | O => Err OutOfFuel
          | S fuel =>
              event ← find_power_levels (auth_events sort_ev);
              get_mainline_depth fuel event mainline_map
          end
      end
  end.

(** [order_map]: events that are missing or whose depth fails are left out.
    @src src/src/core/matrix/state_res/mod.rs:942-955 mainline_sort *)
Fixpoint order_events (fuel : nat) (mainline_map : gmap EventId nat) (to_sort : list EventId)
  : step (gmap EventId (nat * (Z * EventId))) :=
  match to_sort with
  | [] => Ok ∅
  | ev_id :: to_sort =>
      m ← order_events fuel mainline_map to_sort;
      match fetch_event ev_id with
      | None => Ok m
      | Some event =>
          match get_mainline_depth fuel (Some event) mainline_map with
          | Ok depth => Ok (<[ev_id := (depth, (Event.origin_server_ts event, ev_id))]> m)
          | Err (Fail _) => Ok m
          | Err f => Err f
          end
      end
  end.

(** Sorting IDs by a key that ends in the ID itself is sorting the keys.
    @src src/src/core/matrix/state_res/mod.rs:896-964 mainline_sort *)
Definition mainline_sort (fuel : nat) (to_sort : list EventId)
    (resolved_power_level : option EventId) : step (list EventId) :=
  if decide (to_sort = []) then Ok []
  else
    mainline ← collect_mainline fuel resolved_power_level;
    let mainline_map := mainline_positions mainline in
    order_map ← order_events fuel mainline_map to_sort;
    Ok ((fun k : nat * (Z * EventId) => k.2.2) <$> sort (iter_map order_map).*2).

(** ** Iterative authorisation *)

(** The auth events found, by their own ID.
    @src src/src/core/matrix/state_res/mod.rs:723-737 iterative_auth_check *)
Definition fetch_auth_events (ids : gset EventId) : gmap EventId Pdu :=
  foldl (fun m ev => <[event_id ev := ev]> m) ∅ (complete (omap fetch_event (iter_set ids))).

(** The create event of a room whose ID is derived from it.
    @src src/src/core/matrix/state_res/mod.rs:764-776 iterative_auth_check *)
Definition fetch_create_event (event : Pdu) : step Pdu :=
  id ← room_id_or_hash event;
  let create_event_id := replace_char "!"%char "$"%char id in
  if is_event_id create_event_id then ok_or_fail NotFound (fetch_event create_event_id)
  else Err (Fail InvalidPdu).

(** The loop over an event's own auth events.
    @src src/src/core/matrix/state_res/mod.rs:777-792 iterative_auth_check *)
Fixpoint insert_auth_events (auth_evs : gmap EventId Pdu) (aids : list EventId)
    (auth_state : StateMap Pdu) : step (StateMap Pdu) :=
  match aids with
  | [] => Ok auth_state
  | aid :: aids =>
      match auth_evs !! aid with
      | Some ev =>
          key ← ok_or_fail InvalidPdu (state_key ev);
          insert_auth_events auth_evs aids (<[with_state_key (kind ev) key := ev]> auth_state)
      | None => insert_auth_events auth_evs aids auth_state
      end
  end.

(** The resolved state overrides the event's own auth events.
    @src src/src/core/matrix/state_res/mod.rs:794-809 iterative_auth_check *)
Definition override_auth_state (auth_evs : gmap EventId Pdu) (resolved_state : StateMap EventId)
    (auth_state : StateMap Pdu) (key : string * string) : StateMap Pdu :=
  match ev_id ← resolved_state !! key;
        match auth_evs !! ev_id with
        | Some event => Some event
        | None => fetch_event ev_id
        end with
  | Some event => <[key := event]> auth_state
  | None => auth_state
  end.

(** The state an event is checked against; it has a create event.
    @src src/src/core/matrix/state_res/mod.rs:754-829 iterative_auth_check *)
Definition auth_state_for (auth_evs : gmap EventId Pdu) (resolved_state : StateMap EventId)
    (event : Pdu) (key : string) : step (StateMap Pdu) :=
  auth_types ← lift (auth_types_for_event (kind event) (sender event) (Some key) (content event)
                       room_version);
  auth_state ←
    (if decide (room_id_format room_version = RoomIdV2) then
       create_event ← fetch_create_event event;
       Ok {[with_state_key (kind create_event) "" := create_event]}
     else Ok ∅);
  auth_state ← insert_auth_events auth_evs (auth_events event) auth_state;
  let auth_state := foldl (override_auth_state auth_evs resolved_state) auth_state auth_types in
  let create_key := with_state_key RoomCreate "" in
  if decide (kind event = RoomCreate ∧ key = "")
  then Ok (match auth_state !! create_key with
           | Some _ => auth_state
           | None => <[create_key := event]> auth_state
           end)
  else if decide (create_key ∈ dom auth_state) then Ok auth_state
  else Err (Fail NotFound).

(** One iteration of the loop over the events to check.
    @src src/src/core/matrix/state_res/mod.rs:748-881 iterative_auth_check *)
Definition check_event (auth_evs : gmap EventId Pdu) (resolved_state : StateMap EventId)
    (event : Pdu) : step (StateMap EventId) :=
  key ← ok_or_fail InvalidPdu (state_key event);
  auth_state ← auth_state_for auth_evs resolved_state event key;
  let current_third_party :=
    find (fun pdu => bool_decide (kind pdu = RoomThirdPartyInvite)) (iter_map auth_state).*2 in
  let fetch_state ty key := auth_state !! with_state_key ty key in
  create ← expect (fetch_state RoomCreate "");
  allowed ← auth_check room_version event current_third_party fetch_state create;
  Ok (if (allowed : bool)
      then <[with_state_key (kind event) key := event_id event]> resolved_state
      else resolved_state).

(** @src src/src/core/matrix/state_res/mod.rs:748-881 iterative_auth_check *)
Fixpoint check_events (auth_evs : gmap EventId Pdu) (events : list Pdu)
    (resolved_state : StateMap EventId) : step (StateMap EventId) :=
  match events with
  | [] => Ok resolved_state
  | event :: events =>
      resolved_state ← check_event auth_evs resolved_state event;
      check_events auth_evs events resolved_state
  end.

(** @src src/src/core/matrix/state_res/mod.rs:692-885 iterative_auth_check *)
Definition iterative_auth_check (events_to_check : list EventId)
    (unconflicted_state : StateMap EventId) : step (StateMap EventId) :=
  events ← mapR (fun id => ok_or_fail NotFound (fetch_event id)) events_to_check;
  let events_to_check := complete events in
  if decide (events_to_check = []) then Ok unconflicted_state
  else
    let auth_event_ids : gset EventId := list_to_set (mjoin (auth_events <$> events_to_check)) in
    check_events (fetch_auth_events auth_event_ids) events_to_check unconflicted_state.

(** ** [resolve] *)

Variable event_exists : EventId → bool.

(** The full conflicted set.
    @src src/src/core/matrix/state_res/mod.rs:128-139 resolve *)
Definition full_conflicted_set (conflicting : StateMap (list EventId))
    (auth_chain_sets : list (gset EventId)) (conflicted_state_subgraph : gset EventId)
  : gset EventId :=
  list_to_set (filter (fun id => event_exists id = true)
                 (get_auth_chain_diff auth_chain_sets ++ mjoin (iter_map conflicting).*2))
  ∪ conflicted_state_subgraph.

(** @src src/src/core/matrix/state_res/mod.rs:78-227 resolve *)
Definition resolve (fuel : nat) (state_sets : list (StateMap EventId))
    (auth_chain_sets : list (gset EventId)) : step (StateMap EventId) :=
  let '(unconflicted, conflicting) := separate state_sets in
  if decide (conflicting = ∅) then Ok unconflicted
  else
    '(conflicted_state_subgraph, initial_state) ←
      match state_res room_version with
      | StateResV2 true =>
          csg ← calculate_conflicted_subgraph fuel conflicting;
          Ok (csg, ∅)
      | _ => Ok (∅, unconflicted)
      end;
    let all_conflicted :=
      full_conflicted_set conflicting auth_chain_sets conflicted_state_subgraph in
    let control_events :=
      filter (fun id => is_power_event_id id = true) (iter_set all_conflicted) in
    sorted_control_levels ← reverse_topological_power_sort fuel control_events all_conflicted;
    resolved_control ← iterative_auth_check sorted_control_levels initial_state;
    let deduped_power_ev : gset EventId := list_to_set sorted_control_levels in
    let events_to_resolve :=
      filter (fun id => id ∉ deduped_power_ev) (iter_set all_conflicted) in
    let power_event := resolved_control !! (RoomPowerLevels, "") in
    sorted_left_events ← mainline_sort fuel events_to_resolve power_event;
    resolved_state ← iterative_auth_check sorted_left_events resolved_control;
    Ok (unconflicted ∪ resolved_state).
End resolution.
