(* ===== verification/StateResConflicts.v ===== *)
(** The first phase of state resolution: which state is conflicted
    ([separate]), and which events some auth chains lack ([get_auth_chain_diff]). *)

From stdpp Require Import prelude gmap strings sorting.
From S2P Require Import Prelude Event StateRes.

(** ** Counting *)

Definition count {A} `{EqDecision A} (x : A) (l : list A) : nat := length (filter (x =.) l).

Lemma count_app {A} `{EqDecision A} (x : A) l k : count x (l ++ k) = count x l + count x k.
Proof. unfold count. by rewrite filter_app, length_app. Qed.

Lemma count_cons {A} `{EqDecision A} (x y : A) l :
  count x (y :: l) = (if decide (x = y) then 1 else 0) + count x l.
Proof. unfold count. rewrite filter_cons. by case_decide. Qed.

Lemma count_pos {A} `{EqDecision A} (x : A) l : 0 < count x l ↔ x ∈ l.
Proof.
  induction l as [|y l IH]; [unfold count; simpl; rewrite elem_of_nil; lia|].
  rewrite count_cons, elem_of_cons. case_decide; naive_solver lia.
Qed.

Lemma count_perm {A} `{EqDecision A} (x : A) l k : l ≡ₚ k → count x l = count x k.
Proof. intros Hp. unfold count. by rewrite Hp. Qed.

Lemma count_NoDup {A} `{EqDecision A} (x : A) l :
  NoDup l → count x l = if decide (x ∈ l) then 1 else 0.
Proof.
  induction 1 as [|y l Hy Hnd IH]; [done|]. rewrite count_cons, IH.
  destruct (decide (x = y)) as [->|Hne].
  - rewrite (decide_False (P := y ∈ l)), (decide_True (P := y ∈ y :: l)) by (done || by left). done.
  - destruct (decide (x ∈ l)); [rewrite decide_True by (by right); done|].
    rewrite decide_False; [done|]. by intros [|]%elem_of_cons.
Qed.

(** How many of [sets] satisfy [P]: the count in the concatenation of lists without
    repetitions that list the members. *)
Definition holding {S} (P : S → Prop) `{!∀ s, Decision (P s)} (sets : list S) : nat :=
  length (filter P sets).

Lemma count_join {S A} `{EqDecision A} (f : S → list A) (x : A) (sets : list S)
    (P : S → Prop) `{!∀ s, Decision (P s)} :
  (∀ s, NoDup (f s)) → (∀ s, x ∈ f s ↔ P s) →
  count x (mjoin (f <$> sets)) = holding P sets.
Proof.
  intros Hnd HP. unfold holding. induction sets as [|s sets IH]; [done|].
  csimpl. rewrite count_app, filter_cons, count_NoDup, IH by done.
  rewrite (decide_ext _ (P s)) by apply HP. by case_decide.
Qed.

Lemma holding_all {S} (P : S → Prop) `{!∀ s, Decision (P s)} (sets : list S) :
  holding P sets = length sets ↔ ∀ s, s ∈ sets → P s.
Proof.
  unfold holding. induction sets as [|s sets IH]; [set_solver|].
  rewrite filter_cons. setoid_rewrite elem_of_cons. pose proof (length_filter P sets).
  case_decide; cbn [length]; split; intros Hall.
  - intros s' [->|Hs]; [done|]. apply IH; [lia|done].
  - f_equal. apply IH. auto.
  - lia.
  - match goal with H : ¬ P s |- _ => destruct H end. apply Hall. by left.
Qed.

Lemma holding_le {S} (P : S → Prop) `{!∀ s, Decision (P s)} (sets : list S) :
  holding P sets ≤ length sets.
Proof. apply length_filter. Qed.

Lemma holding_some {S} (P : S → Prop) `{!∀ s, Decision (P s)} (sets : list S) :
  0 < holding P sets ↔ ∃ s, s ∈ sets ∧ P s.
Proof.
  unfold holding. split.
  - destruct (filter P sets) as [|s l] eqn:Hf; simpl; [lia|]. intros _.
    assert (s ∈ filter P sets) as Hs by (rewrite Hf; by left).
    apply list_elem_of_filter in Hs as [HP Hs]. eauto.
  - intros (s & Hs & HP). assert (s ∈ filter P sets) as Hf by (by apply list_elem_of_filter).
    destruct (filter P sets); simpl; [by apply elem_of_nil in Hf|lia].
Qed.

Section diff.
Context `{!HashIter string, !HashIterLaws string}.

Lemma id_counts_lookup (l : list EventId) (m : gmap EventId nat) id :
  foldl (fun m id => <[id := S (default 0 (m !! id))]> m) m l !! id
  = if decide (id ∈ l) then Some (count id l + default 0 (m !! id)) else m !! id.
Proof.
  revert m. induction l as [|x l IH]; intros m; [done|]. cbn [foldl].
  rewrite IH, count_cons. destruct (decide (id = x)) as [->|Hne].
  - rewrite lookup_insert_eq, (decide_True (P := x ∈ x :: l)) by (by left). cbn [default from_option].
    case_decide as Hx; f_equal; [unfold id; simpl; lia|].
    destruct (decide (0 < count x l)) as [Hc|Hc]; [by apply count_pos in Hc|].
    unfold id; simpl; lia.
  - rewrite lookup_insert_ne by done. rewrite (decide_ext (id ∈ x :: l) (id ∈ l)).
    2: { rewrite elem_of_cons. naive_solver. } done.
Qed.

Lemma auth_chain_diff_spec (sets : list (gset EventId)) :
  NoDup (get_auth_chain_diff sets)
  ∧ ∀ id, id ∈ get_auth_chain_diff sets
      ↔ (∃ s, s ∈ sets ∧ id ∈ s) ∧ (∃ s, s ∈ sets ∧ id ∉ s).
Proof.
  unfold get_auth_chain_diff. cbv zeta.
  set (counts := foldl _ ∅ _).
  assert (∀ id, count id (mjoin (iter_set <$> sets)) = holding (id ∈.) sets) as Hcount.
  { intros id. apply count_join.
    - intros s. rewrite iter_set_perm. apply NoDup_elements.
    - intros s. by rewrite iter_set_perm, elem_of_elements. }
  assert (∀ id n, counts !! id = Some n ↔ n = holding (id ∈.) sets ∧ 0 < n) as Hcounts.
  { intros id n. unfold counts. rewrite id_counts_lookup, Hcount, lookup_empty. simpl.
    rewrite Nat.add_0_r. pose proof (count_pos id (mjoin (iter_set <$> sets))) as Hpos.
    rewrite Hcount in Hpos. case_decide; naive_solver lia. }
  split.
  - rewrite iter_map_perm. apply NoDup_fmap_fst.
    + intros id n1 n2 [_ H1]%list_elem_of_filter [_ H2]%list_elem_of_filter.
      apply elem_of_map_to_list in H1, H2. congruence.
    + apply NoDup_filter, NoDup_map_to_list.
  - intros id. rewrite iter_map_perm, list_elem_of_fmap. split.
    + intros ([id' n] & -> & [Hlt Hn]%list_elem_of_filter). simpl in *.
      apply elem_of_map_to_list, Hcounts in Hn as [-> Hpos]. split; [by apply (holding_some (id' ∈.) sets)|].
      destruct (decide (Exists (id' ∉.) sets)) as [He|He]; [by apply Exists_exists in He|].
      exfalso. assert (holding (id' ∈.) sets = length sets); [|lia]. apply (holding_all (id' ∈.) sets).
      intros s Hs. apply dec_stable. intros Hid. apply He, Exists_exists. eauto.
    + intros [Hin (s & Hs & Hno)]. exists (id, holding (id ∈.) sets). split; [done|].
      apply list_elem_of_filter. simpl. split.
      * pose proof (holding_le (id ∈.) sets). pose proof (proj1 (holding_all (id ∈.) sets)) as Hall.
        destruct (decide (holding (id ∈.) sets = length sets)) as [He|]; [|lia].
        by destruct Hno; apply Hall.
      * apply elem_of_map_to_list, Hcounts. split; [done|]. by apply (holding_some (id ∈.) sets).
Qed.

(** [get_auth_chain_diff] returns, without repetition, exactly the events that
    are in some of the auth chains and missing from another. *)
Theorem get_auth_chain_diff_correct (sets : list (gset EventId)) :
  NoDup (get_auth_chain_diff sets)
  ∧ ∀ id, id ∈ get_auth_chain_diff sets
      ↔ (∃ s, s ∈ sets ∧ id ∈ s) ∧ (∃ s, s ∈ sets ∧ id ∉ s).
Proof. apply auth_chain_diff_spec. Qed.
End diff.

(** ** [separate] *)

Section separate.
Context `{!HashIter (string * string), !HashIterLaws (string * string)}.
Context `{!HashIter string, !HashIterLaws string}.
Implicit Types (k : string * string) (id : EventId) (sets : list (StateMap EventId)).

Definition occurrences_of (occ : gmap (string * string) (gmap EventId nat)) k id : option nat :=
  occ !! k ≫= (.!! id).

Lemma count_occurrence_lookup (l : list ((string * string) * EventId)) occ k id :
  occurrences_of (foldl count_occurrence occ l) k id
  = if decide ((k, id) ∈ l)
    then Some (count (k, id) l + default 0 (occurrences_of occ k id)) else occurrences_of occ k id.
Proof.
  revert occ. induction l as [|[k' id'] l IH]; intros occ; [done|]. cbn [foldl].
  rewrite IH, count_cons. clear IH. unfold occurrences_of, count_occurrence. cbn [fst snd].
  destruct (decide ((k, id) = (k', id'))) as [[= -> ->]|Hne].
  - rewrite lookup_insert_eq. cbn [mbind option_bind]. rewrite lookup_insert_eq.
    rewrite (decide_True (P := _ ∈ _ :: _)) by (by left).
    assert (default 0 (default ∅ (occ !! k') !! id') = default 0 (occ !! k' ≫= (.!! id'))) as ->.
    { by destruct (occ !! k'). }
    case_decide as Hx; f_equal; [unfold id; simpl; lia|].
    destruct (decide (0 < count (k', id') l)) as [Hc|Hc]; [by apply count_pos in Hc|].
    unfold id; simpl; lia.
  - rewrite (decide_ext ((k, id) ∈ (k', id') :: l) ((k, id) ∈ l)).
    2: { rewrite elem_of_cons. naive_solver. }
    assert (<[k':=<[id':=S (default 0 (default ∅ (occ !! k') !! id'))]> (default ∅ (occ !! k'))]>
              occ !! k ≫= (.!! id) = occ !! k ≫= (.!! id)) as ->; [|done].
    destruct (decide (k = k')) as [->|Hk]; [|by rewrite lookup_insert_ne].
    rewrite lookup_insert_eq. cbn [mbind option_bind]. rewrite lookup_insert_ne by congruence.
    destruct (occ !! k'); [done|]. simpl. by rewrite lookup_empty.
Qed.

Lemma foldl_nested {K V B C} (f : V → list B) (g : K → C → B → C) (l : list (K * V)) (a : C) :
  foldl (fun acc kv => foldl (g kv.1) acc (f kv.2)) a l
  = foldl (fun acc x => g x.1 acc x.2) a (mjoin ((fun kv => pair kv.1 <$> f kv.2) <$> l)).
Proof.
  revert a. induction l as [|[k v] l IH]; intros a; [done|].
  csimpl. rewrite foldl_app, IH. f_equal. clear. revert a.
  induction (f v) as [|b bs IH]; intros a; [done|]. csimpl. by rewrite IH.
Qed.

(** The occurrence maps as one list, and the placement of its entries. *)
Definition occurrence_list (occ : gmap (string * string) (gmap EventId nat))
  : list ((string * string) * (EventId * nat)) :=
  mjoin ((fun kv => pair kv.1 <$> iter_map kv.2) <$> iter_map occ).

Lemma elem_of_occurrence_list occ k id n :
  (k, (id, n)) ∈ occurrence_list occ ↔ occurrences_of occ k id = Some n.
Proof.
  unfold occurrence_list, occurrences_of. rewrite list_elem_of_join. split.
  - intros (l & Hin & ([k' inner] & -> & Hk)%list_elem_of_fmap).
    apply list_elem_of_fmap in Hin as (idn & [= -> <-] & Hin).
    rewrite iter_map_perm in Hk. rewrite iter_map_perm in Hin. apply elem_of_map_to_list in Hk, Hin.
    simpl in *. rewrite Hk. done.
  - intros (inner & Hk & Hid)%bind_Some. eexists. split.
    2: { apply list_elem_of_fmap. exists (k, inner). split; [done|].
         rewrite iter_map_perm. by apply elem_of_map_to_list. }
    apply list_elem_of_fmap. exists (id, n). split; [done|]. simpl.
    rewrite iter_map_perm. by apply elem_of_map_to_list.
Qed.

Section place.
Variable state_set_count : nat.
#[local] Abbreviation place := (fun acc x => place_event state_set_count x.1 acc x.2).
Implicit Types (acc : StateMap EventId * StateMap (list EventId)).
Implicit Types (l : list ((string * string) * (EventId * nat))).

Lemma place_conflicted l acc k :
  default [] ((foldl place acc l).2 !! k)
  = default [] (acc.2 !! k) ++ (filter (fun x => x.1 = k ∧ x.2.2 ≠ state_set_count) l).*2.*1.
Proof.
  revert acc. induction l as [|[k' [id n]] l IH]; intros acc; [by rewrite app_nil_r|].
  cbn [foldl]. rewrite IH, filter_cons. clear IH. unfold place_event. cbn [fst snd].
  destruct (decide (n = state_set_count)) as [Hn|Hn].
  - rewrite decide_False by naive_solver. done.
  - cbn [fst snd]. destruct (decide (k' = k)) as [->|Hk].
    + rewrite lookup_insert_eq, decide_True by done. cbn [default from_option].
      csimpl. by rewrite <-(assoc_L (++)).
    + rewrite lookup_insert_ne, decide_False by naive_solver. done.
Qed.

Lemma place_conflicted_nonempty l acc k v :
  (∀ k v, acc.2 !! k = Some v → v ≠ []) → (foldl place acc l).2 !! k = Some v → v ≠ [].
Proof.
  revert acc. induction l as [|[k' [id n]] l IH]; intros acc Hacc; [by apply Hacc|].
  cbn [foldl]. apply IH. intros k0 v0. unfold place_event. cbn [fst snd].
  case_decide; cbn [fst snd]; [by apply Hacc|].
  intros [[_ <-]|[_ Hv]]%lookup_insert_Some; [by intros [_ ?]%app_eq_nil|by eapply Hacc].
Qed.

Lemma place_unconflicted l acc k id :
  (foldl place acc l).1 !! k = Some id →
  acc.1 !! k = Some id ∨ (k, (id, state_set_count)) ∈ l.
Proof.
  revert acc. induction l as [|[k' [id' n]] l IH]; intros acc; [by left|].
  cbn [foldl]. intros [Hl|Hl]%IH; [|right; by right]. unfold place_event in Hl. cbn [fst snd] in Hl.
  case_decide as Hn; [|by left]. cbn [fst snd] in Hl.
  apply lookup_insert_Some in Hl as [[-> ->]|[_ Hl]]; [|by left].
  right. rewrite Hn. by left.
Qed.

Lemma place_unconflicted_some l acc k id :
  (k, (id, state_set_count)) ∈ l ∨ is_Some (acc.1 !! k) → is_Some ((foldl place acc l).1 !! k).
Proof.
  revert acc. induction l as [|[k' [id' n]] l IH]; intros acc; cbn [foldl].
  { intros [[]%elem_of_nil|]; done. }
  intros Hin. apply IH. unfold place_event. cbn [fst snd]. rewrite elem_of_cons in Hin.
  destruct Hin as [[[= -> -> ->]|]|Hs]; [|by left|].
  - right. rewrite decide_True by done. cbn [fst snd]. rewrite lookup_insert_eq. eauto.
  - right. case_decide; [|done]. cbn [fst snd].
    destruct (decide (k' = k)) as [->|]; [rewrite lookup_insert_eq; eauto|by rewrite lookup_insert_ne].
Qed.
End place.

Lemma separate_counts sets k id n :
  occurrences_of (foldl count_occurrence ∅ (mjoin (iter_map <$> sets))) k id = Some n
  ↔ n = holding (fun s : StateMap EventId => s !! k = Some id) sets ∧ 0 < n.
Proof.
  assert (count (k, id) (mjoin (iter_map <$> sets))
          = holding (fun s : StateMap EventId => s !! k = Some id) sets) as Hcount.
  { apply count_join.
    - intros s. rewrite iter_map_perm. apply NoDup_map_to_list.
    - intros s. rewrite iter_map_perm. apply elem_of_map_to_list. }
  rewrite count_occurrence_lookup, Hcount. unfold occurrences_of.
  rewrite lookup_empty. simpl. rewrite Nat.add_0_r.
  pose proof (count_pos (k, id) (mjoin (iter_map <$> sets))) as Hpos. rewrite Hcount in Hpos.
  case_decide; naive_solver lia.
Qed.

(** What [separate] returns, key by key. *)
Lemma separate_spec sets :
  let '(unconflicted, conflicted) := separate sets in
  (∀ k id, unconflicted !! k = Some id ↔ sets ≠ [] ∧ ∀ s, s ∈ sets → s !! k = Some id)
  ∧ (∀ k id, id ∈ default [] (conflicted !! k)
       ↔ (∃ s, s ∈ sets ∧ s !! k = Some id) ∧ (∃ s, s ∈ sets ∧ s !! k ≠ Some id))
  ∧ (∀ k ids, conflicted !! k = Some ids → ids ≠ []).
Proof.
  unfold separate. cbv zeta. set (occ := foldl count_occurrence ∅ _). rewrite foldl_nested.
  fold (occurrence_list occ).
  destruct (foldl _ (∅, ∅) (occurrence_list occ)) as [u c] eqn:Hf.
  assert (∀ k id n, (k, (id, n)) ∈ occurrence_list occ
            ↔ n = holding (fun s : StateMap EventId => s !! k = Some id) sets ∧ 0 < n) as Hocc.
  { intros k id n. rewrite elem_of_occurrence_list. apply separate_counts. }
  assert (∀ k id, (k, (id, length sets)) ∈ occurrence_list occ
            ↔ sets ≠ [] ∧ ∀ s, s ∈ sets → s !! k = Some id) as Hall.
  { intros k id. rewrite Hocc, <-(holding_all (fun s : StateMap EventId => s !! k = Some id)).
    destruct sets; simpl; naive_solver lia. }
  split_and!.
  - intros k id. rewrite <-Hall. split.
    + intros Hu. pose proof (place_unconflicted (length sets) (occurrence_list occ) (∅, ∅) k id) as Hp.
      rewrite Hf in Hp. destruct (Hp Hu) as [Hbad|]; [|done]. simpl in Hbad.
      by rewrite lookup_empty in Hbad.
    + intros Hin.
      pose proof (place_unconflicted_some (length sets) (occurrence_list occ) (∅, ∅) k id
                    (or_introl Hin)) as [id' Hid']. rewrite Hf in Hid'.
      pose proof (place_unconflicted (length sets) (occurrence_list occ) (∅, ∅) k id') as Hp.
      rewrite Hf in Hp. destruct (Hp Hid') as [Hbad|Hin'].
      { simpl in Hbad. by rewrite lookup_empty in Hbad. }
      apply Hall in Hin as [Hne Hs], Hin' as [_ Hs']. simpl in Hid'. rewrite Hid'.
      destruct sets as [|s sets]; [done|]. specialize (Hs s ltac:(by left)).
      specialize (Hs' s ltac:(by left)). congruence.
  - intros k id. pose proof (place_conflicted (length sets) (occurrence_list occ) (∅, ∅) k) as Hp.
    rewrite Hf in Hp. cbn [fst snd] in Hp. rewrite Hp, lookup_empty. cbn [default from_option app].
    rewrite list_elem_of_fmap. split.
    + intros ([id' n] & -> & ([k' x] & Hx & [[Hk Hn] Hin]%list_elem_of_filter)%list_elem_of_fmap).
      cbn [fst snd] in *. subst k' x. apply Hocc in Hin as [-> Hpos].
      split; [by apply (holding_some (fun s : StateMap EventId => s !! k = Some id'))|].
      destruct (decide (Exists (fun s : StateMap EventId => s !! k ≠ Some id') sets)) as [He|He];
        [by apply Exists_exists in He|].
      destruct Hn. apply (holding_all (fun s : StateMap EventId => s !! k = Some id')).
      intros s Hs. apply dec_stable. intros Hid. apply He, Exists_exists. eauto.
    + intros [Hin (s & Hs & Hno)].
      exists (id, holding (fun s : StateMap EventId => s !! k = Some id) sets). split; [done|].
      apply list_elem_of_fmap. eexists (k, _). split; [done|]. apply list_elem_of_filter. split.
      * split; [done|]. cbn [fst snd]. intros Heq. destruct Hno.
        by apply (proj1 (holding_all (fun s : StateMap EventId => s !! k = Some id) sets) Heq).
      * apply Hocc. split; [done|].
        by apply (holding_some (fun s : StateMap EventId => s !! k = Some id)).
  - intros k ids Hc. eapply (place_conflicted_nonempty (length sets) (occurrence_list occ) (∅, ∅) k).
    { intros ? ?. simpl. by rewrite lookup_empty. }
    by rewrite Hf.
Qed.

(** [separate] calls a key unconflicted with an event exactly when every state set
    maps the key to that event; and lists as conflicted exactly the events that some
    set has under the key and another does not, a missing entry included. *)
Theorem separate_correct sets :
  let '(unconflicted, conflicted) := separate sets in
  (∀ k id, unconflicted !! k = Some id ↔ sets ≠ [] ∧ ∀ s, s ∈ sets → s !! k = Some id)
  ∧ (∀ k id, id ∈ default [] (conflicted !! k)
       ↔ (∃ s, s ∈ sets ∧ s !! k = Some id) ∧ (∃ s, s ∈ sets ∧ s !! k ≠ Some id)).
Proof.
  pose proof (separate_spec sets) as Hs. destruct (separate sets) as [u c].
  destruct Hs as (Hu & Hc & _). done.
Qed.
End separate.

Module ConflictWitness.
#[local] Instance keys_fwd : HashIter (string * string) := hash_iter_fwd _.
#[local] Instance ids_bwd : HashIter string := hash_iter_bwd _.

Lemma get_auth_chain_diff_correct_witness :
  NoDup (get_auth_chain_diff [{["a"; "b"]}; {["b"; "c"]}])
  ∧ ∀ id, id ∈ get_auth_chain_diff [{["a"; "b"]}; {["b"; "c"]}]
      ↔ (∃ s, s ∈ [{["a"; "b"]}; {["b"; "c"]} : gset EventId] ∧ id ∈ s)
        ∧ (∃ s, s ∈ [{["a"; "b"]}; {["b"; "c"]} : gset EventId] ∧ id ∉ s).
Proof. exact (get_auth_chain_diff_correct [{["a"; "b"]}; {["b"; "c"]}]). Defined.

Definition two_forks : list (StateMap EventId) :=
  [{[ ("t", "") := "$1"; ("u", "") := "$2" ]};
   {[ ("t", "") := "$1"; ("u", "") := "$3"; ("v", "") := "$4" ]}].
Example separate_two_forks :
  (separate two_forks).1 = {[ ("t", "") := "$1" ]}
  ∧ (separate two_forks).2 = {[ ("u", "") := ["$2"; "$3"]; ("v", "") := ["$4"] ]}.
Proof. split; apply (bool_decide_unpack _); vm_compute; exact I. Qed.

Lemma separate_correct_witness :
  (separate two_forks).1 !! ("t", "") = Some "$1".
Proof.
  pose proof (separate_correct two_forks) as Hs.
  destruct (separate two_forks) as [unconflicted conflicted]. destruct Hs as [Hs _].
  apply Hs. split; [discriminate|].
  intros s Hin. repeat (apply elem_of_cons in Hin as [->|Hin]; [reflexivity|]).
  by apply elem_of_nil in Hin.
Defined.
End ConflictWitness.
