(* ===== verification/StateResGraph.v ===== *)
(** The graph searches of state resolution: the conflicted subgraph and the auth
    graph of the power events.  Both are shown to terminate and to compute the set
    their specification describes. *)

From stdpp Require Import prelude gmap strings sorting relations.
From S2P Require Import Prelude Event RumaExample StateRes.

(** ** The auth relation of an event store *)

Section auth_relation.
Context `{!Ruma}.
Variable fetch_event : EventId → option Pdu.

Definition auth_edges (n : EventId) : list EventId :=
  match fetch_event n with Some ev => auth_events ev | None => [] end.

(** [n] names [m] among its auth events. *)
Definition auths (n m : EventId) : Prop := m ∈ auth_edges n.

(** Auth events come before the events that name them: the relation has no cycle. *)
Definition acyclic : Prop := ∃ rank : EventId → nat, ∀ n m, auths n m → rank m < rank n.

(** The store holds finitely many events. *)
Definition finite_store (store : gset EventId) : Prop :=
  ∀ n, is_Some (fetch_event n) → n ∈ store.

Lemma auths_fetched n m : auths n m → is_Some (fetch_event n).
Proof.
  unfold auths, auth_edges. destruct (fetch_event n); [eauto|]. by intros ?%elem_of_nil.
Qed.
End auth_relation.

(** The first and the last step of a path. *)
Lemma tc_first {A} (R : relation A) x y : tc R x y → ∃ d, R x d ∧ rtc R d y.
Proof. destruct 1 as [x y|x z y]; [by exists y|]. exists z. split; [done|by apply tc_rtc]. Qed.
Lemma tc_last {A} (R : relation A) x y : tc R x y → ∃ p, rtc R x p ∧ R p y.
Proof.
  induction 1 as [x y|x z y Hxz _ (p & Hp & Hpy)]; [by exists x|].
  exists p. split; [by eapply rtc_l|done].
Qed.

(** ** The conflicted subgraph *)

Section subgraph.
Context `{!Ruma}.
Variables (fetch_event : EventId → option Pdu) (C : gset EventId).
#[local] Abbreviation auths := (auths fetch_event).

(** [e] lies on a path of at least one step between conflicted events. *)
Definition on_conflict_path (e : EventId) : Prop :=
  ∃ c1 c2, c1 ∈ C ∧ c2 ∈ C ∧ rtc auths c1 e ∧ rtc auths e c2 ∧ (tc auths c1 e ∨ tc auths e c2).

Definition reaches (d : EventId) : Prop := ∃ c, c ∈ C ∧ rtc auths d c.

Variable rank : EventId → nat.
Hypothesis rank_lt : ∀ n m, auths n m → rank m < rank n.

(** Frame [i + 1] of the stack holds auth events of entry [i] of the path; the path
    starts at a conflicted event and follows [auths]. *)
Fixpoint aligned (stack : list (list EventId)) (path : list EventId) {struct path} : Prop :=
  match path with
  | [] => match stack with
          | [] => True
          | [roots] => ∀ x, x ∈ roots → x ∈ C
          | _ => False
          end
  | p :: path =>
      match stack with
      | [] => False
      | f :: stack =>
          (∀ x, x ∈ f → auths p x)
          ∧ match path with [] => p ∈ C | q :: _ => auths q p end
          ∧ stack ≠ [] ∧ aligned stack path
      end
  end.

(** The edge from [p] to [d] is still to be completed. *)
Fixpoint pending (stack : list (list EventId)) (path : list EventId) (p d : EventId) : Prop :=
  match stack, path with
  | f :: stack, p' :: path =>
      (p = p' ∧ d ∈ f) ∨ (head path = Some p ∧ d = p') ∨ pending stack path p d
  | _, _ => False
  end.

(** Along the path, membership in the subgraph is inherited from the tip. *)
Fixpoint tip_closed (path : list EventId) (S : gset EventId) : Prop :=
  match path with
  | [] => True
  | p :: path => (p ∈ S → ∀ q, q ∈ path → q ∈ S) ∧ (p ∈ C → path ≠ [] → p ∈ S) ∧ tip_closed path S
  end.

Definition explored (seen : gset EventId) (d : EventId) : Prop :=
  d ∈ seen ∨ fetch_event d = None.

Definition completed (seen S : gset EventId) (p d : EventId) : Prop :=
  explored seen d ∧ (reaches d → d ∈ S ∧ p ∈ S).

Record search_inv (stack : list (list EventId)) (path : list EventId) (seen S : gset EventId)
  : Prop := {
  si_aligned : aligned stack path;
  si_path : ∀ p, p ∈ path → p ∈ seen;
  si_edges p d : p ∈ seen → auths p d → completed seen S p d ∨ pending stack path p d;
  si_closed : tip_closed path S;
  si_sound e : e ∈ S → on_conflict_path e;
  si_roots c : c ∈ C → c ∈ default [] (last stack) ∨ explored seen c;
  si_seen e : e ∈ S → explored seen e;
}.

Lemma aligned_rank stack path p d :
  aligned stack (p :: path) → auths p d → ∀ q, q ∈ p :: path → rank d < rank q.
Proof.
  revert stack p d. induction path as [|p' path IH]; intros [|f stack] p d Hal Hd; try done.
  - intros q ->%list_elem_of_singleton. by apply rank_lt.
  - destruct Hal as (_ & Hp & _ & Hal). intros q [->|Hq]%elem_of_cons; [by apply rank_lt|].
    etrans; [by apply rank_lt|]. by eapply IH.
Qed.

Lemma aligned_reach stack p path :
  aligned stack (p :: path) → ∀ q, q ∈ p :: path → rtc auths q p ∧ ∃ c, c ∈ C ∧ rtc auths c q.
Proof.
  revert stack p. induction path as [|p' path IH]; intros [|f stack] p Hal; try done.
  - intros q ->%list_elem_of_singleton. split; [done|]. exists p. split; [|done]. apply Hal.
  - destruct Hal as (_ & Hp & _ & Hal). intros q [->|Hq]%elem_of_cons.
    + split; [done|]. destruct (IH stack p' Hal p' ltac:(by left)) as [_ (c & Hc & Hr)].
      exists c. split; [done|]. by eapply rtc_r.
    + destruct (IH stack p' Hal q Hq) as [Hr Hc]. split; [by eapply rtc_r|done].
Qed.

Lemma pending_path stack path p d : pending stack path p d → p ∈ path.
Proof.
  revert path. induction stack as [|f stack IH]; intros [|p' path]; simpl; try done.
  intros [[-> _]|[[Hh _]|Hp]]; [by left| |right; by apply IH].
  right. destruct path as [|q path]; [done|]. simpl in Hh. injection Hh as ->. by left.
Qed.

Lemma tip_closed_mono path S S' :
  tip_closed path S → S ⊆ S' → (∀ e, e ∈ S' → e ∈ S ∨ ∀ q, q ∈ path → q ∈ S') → tip_closed path S'.
Proof.
  induction path as [|p path IH]; simpl; [done|]. intros (H1 & H2 & H3) Hsub Hnew. split_and!.
  - intros [HpS|Hall]%Hnew; [|set_solver]. intros q Hq. by apply Hsub, H1.
  - auto.
  - apply IH; [done..|]. intros e [?|Hall]%Hnew; [by left|right; set_solver].
Qed.

Lemma completed_mono seen S seen' S' p d :
  completed seen S p d → seen ⊆ seen' → S ⊆ S' → completed seen' S' p d.
Proof.
  intros [He Hr] Hs HS. split; [destruct He; [left; set_solver|by right]|].
  intros [? ?]%Hr. set_solver.
Qed.

(** Leaving a finished frame. *)
Lemma leave_frame stack p path seen S :
  search_inv ([] :: stack) (p :: path) seen S → search_inv stack path seen S.
Proof.
  intros [Hal Hpath Hed Hcl Hso Hro Hse].
  assert (p ∉ path) as Hnp.
  { destruct path as [|q path]; [by apply not_elem_of_nil|]. destruct Hal as (_ & Hq & _ & Hal).
    intros Hin. pose proof (aligned_rank _ _ _ _ Hal Hq p Hin). lia. }
  assert (∀ d, auths p d → completed seen S p d) as Hdone.
  { intros d Hd. destruct (Hed p d ltac:(apply Hpath; by left) Hd) as [|Hpe]; [done|]. simpl in Hpe.
    destruct Hpe as [[_ []%elem_of_nil]|[[Hh _]|Hpe]].
    - destruct path as [|q path]; [done|]. simpl in Hh. injection Hh as ->. by destruct Hnp; left.
    - by apply pending_path in Hpe. }
  destruct Hcl as (Hc1 & Hc2 & Hcl). split.
  - destruct stack as [|f stack], path as [|q path]; simpl in *; naive_solver.
  - intros q Hq. apply Hpath. by right.
  - intros p' d Hp' Hd. destruct (Hed p' d Hp' Hd) as [|Hpe]; [by left|]. simpl in Hpe.
    destruct Hpe as [[-> _]|[[Hh ->]|Hpe]]; [left; by apply Hdone| |by right].
    left. split; [left; apply Hpath; by left|]. intros (c & Hc & Hr).
    assert (path ≠ []) as Hne by (by intros ->).
    assert (p ∈ S) as HpS.
    { apply rtc_inv in Hr as [<-|(d & Hpd & Hr)]; [by apply Hc2|].
      destruct (Hdone d Hpd) as [_ Hrd]. apply Hrd. by exists c. }
    split; [done|]. apply (Hc1 HpS). destruct path as [|q path]; [done|].
    injection Hh as ->. by left.
  - done.
  - done.
  - intros c Hc. destruct (Hro c Hc) as [Hin|]; [|by right]. left.
    destruct stack; [|done]. simpl in Hin. by apply elem_of_nil in Hin.
  - done.
Qed.

Lemma next_event_inv stack path seen S :
  search_inv stack path seen S →
  match next_event stack path with
  | None => search_inv [] [] seen S
  | Some (e, stack', path') =>
      ∃ f fs, stack' = f :: fs ∧ search_inv ((e :: f) :: fs) path' seen S
        ∧ length (mjoin stack') < length (mjoin stack)
  end.
Proof.
  revert path. induction stack as [|[|e f] stack IH]; intros path Hinv; simpl.
  - destruct path; [done|]. by destruct (si_aligned _ _ _ _ Hinv).
  - destruct path as [|p path].
    + destruct stack; [|by destruct (si_aligned _ _ _ _ Hinv)]. simpl.
      destruct Hinv as [_ Hp Hed Hc Hs Hro Hse]. split; [done|done| |done|done| |done].
      * intros p d Hps Hd. destruct (Hed p d Hps Hd) as [|Hpe]; [by left|by destruct Hpe].
      * intros c HcC. destruct (Hro c HcC) as [Hin|]; [by apply elem_of_nil in Hin|by right].
    + by apply leave_frame, IH in Hinv.
  - exists f, stack. split_and!; [done|done|]. rewrite !length_app. simpl. lia.
Qed.

(** A path whose tip reaches a conflicted event is a path between conflicted events. *)
Lemma path_sound e f fs path seen S :
  search_inv ((e :: f) :: fs) path seen S → path ≠ [] → reaches e →
  ∀ x, x ∈ e :: path → on_conflict_path x.
Proof.
  intros Hinv Hne (c2 & Hc2 & Hr2) x Hx. pose proof (si_aligned _ _ _ _ Hinv) as Hal.
  destruct path as [|p path]; [done|].
  assert (auths p e) as Hpe by (apply Hal; by left).
  apply elem_of_cons in Hx as [->|Hx].
  - destruct (aligned_reach _ _ _ Hal p ltac:(by left)) as [_ (c1 & Hc1 & Hr1)].
    exists c1, c2. split_and!; [done|done|by eapply rtc_r|done|left].
    eapply tc_rtc_l; [exact Hr1|by apply tc_once].
  - destruct (aligned_reach _ _ _ Hal x Hx) as [Hxp (c1 & Hc1 & Hr1)].
    exists c1, c2. split_and!; [done|done|done| |].
    + etrans; [exact Hxp|]. by eapply rtc_l.
    + right. eapply tc_rtc_l; [exact Hxp|]. eapply tc_rtc_r; [by apply tc_once|done].
Qed.

(** Widening the subgraph by the whole path, whose tip reaches a conflicted event. *)
Lemma extend_path e f fs path seen S :
  search_inv ((e :: f) :: fs) path seen S → path ≠ [] → reaches e → explored seen e →
  search_inv ((e :: f) :: fs) path seen (list_to_set (e :: path) ∪ S).
Proof.
  intros Hinv Hne Hr He. pose proof (path_sound _ _ _ _ _ _ Hinv Hne Hr) as Hsound.
  destruct Hinv as [Hal Hpath Hed Hcl Hso Hro Hse]. split; try done.
  - intros q d Hq Hd. destruct (Hed q d Hq Hd) as [Hcomp|]; [left|by right].
    eapply completed_mono; [done|done|set_solver].
  - eapply tip_closed_mono; [done|set_solver|]. intros x. rewrite elem_of_union, elem_of_list_to_set.
    intros [Hx|]; [right; set_solver|by left].
  - intros x. rewrite elem_of_union, elem_of_list_to_set. intros [Hx|]; [by apply Hsound|by apply Hso].
  - intros x. rewrite elem_of_union, elem_of_list_to_set, elem_of_cons.
    intros [[->|Hx]|]; [done| |by apply Hse]. left. by apply Hpath.
Qed.

(** Dropping an explored event from the top frame. *)
Lemma drop_event e f fs path seen S :
  search_inv ((e :: f) :: fs) path seen S → explored seen e →
  (∀ p, head path = Some p → reaches e → e ∈ S ∧ p ∈ S) →
  search_inv (f :: fs) path seen S.
Proof.
  intros [Hal Hpath Hed Hcl Hso Hro Hse] He Hreach. split; try done.
  - destruct path as [|p path]; simpl in *.
    + destruct fs; [|done]. intros x Hx. apply Hal. by right.
    + destruct Hal as [Hf Hal]. split; [|done]. intros x Hx. apply Hf. by right.
  - intros p d Hp Hd. destruct (Hed p d Hp Hd) as [|Hpe]; [by left|].
    destruct path as [|p' path]; [done|]. simpl in *.
    destruct Hpe as [[-> [->|Hin]%elem_of_cons]|Hpe]; [|right; by left|right; by right].
    left. split; [done|]. by apply Hreach.
  - intros c Hc. destruct (Hro c Hc) as [Hin|]; [|by right].
    destruct fs as [|f' fs]; [|by left]. simpl in *.
    apply elem_of_cons in Hin as [->|Hin]; [by right|by left].
Qed.

(** Exploring a new event, after the subgraph was widened by the path or left alone. *)
Lemma push_event e f fs path seen S S' ev :
  search_inv ((e :: f) :: fs) path seen S → fetch_event e = Some ev → e ∉ seen → e ∉ S →
  S ⊆ S' → (∀ x, x ∈ S' → x ∈ S ∨ (x ∈ e :: path ∧ ∀ q, q ∈ e :: path → q ∈ S')) →
  (∀ x, x ∈ S' → on_conflict_path x) → (e ∈ C → path ≠ [] → e ∈ S') →
  search_inv (reverse (auth_events ev) :: f :: fs) (e :: path) ({[e]} ∪ seen) S'.
Proof.
  intros [Hal Hpath Hed Hcl Hso Hro Hse] Hev Hns HnS Hsub Hnew Hso' HeC.
  assert (∀ d, auths e d ↔ d ∈ auth_events ev) as Hauth.
  { intros d. unfold StateResGraph.auths, auth_edges. by rewrite Hev. }
  split.
  - destruct path as [|p path]; simpl in *.
    + destruct fs; [|done]. split_and!; [|apply Hal; by left|done|by intros x Hx; apply Hal; right].
      intros x. rewrite elem_of_reverse. by apply Hauth.
    + destruct Hal as [Hf Hal]. split; [|split; [apply Hf; by left|split; [done|split; [|exact Hal]]]].
      * intros x. rewrite elem_of_reverse. by apply Hauth.
      * intros x Hx. apply Hf. by right.
  - intros p [->|Hp]%elem_of_cons; [set_solver|]. apply elem_of_union. right. by apply Hpath.
  - intros p d [->%elem_of_singleton|Hp]%elem_of_union Hd.
    { right. simpl. left. split; [done|]. rewrite elem_of_reverse. by apply Hauth. }
    destruct (Hed p d Hp Hd) as [Hcomp|Hpe].
    { left. eapply completed_mono; [done|set_solver|done]. }
    right. simpl. right. destruct path as [|p' path]; [done|]. simpl in *.
    destruct Hpe as [[-> [->|Hin]%elem_of_cons]|Hpe]; [by left|right; by left|right; by right].
  - simpl. split_and!; [|done|].
    + intros [|[_ Hall]]%Hnew q Hq; [done|]. apply Hall. by right.
    + eapply tip_closed_mono; [done|done|]. intros x [|[_ Hall]]%Hnew; [by left|right].
      intros q Hq. apply Hall. by right.
  - done.
  - intros c Hc. destruct (Hro c Hc) as [Hin|[|]]; [|right; left; set_solver|by right; right].
    destruct fs as [|f' fs]; [|by left]. simpl in *.
    apply elem_of_cons in Hin as [->|Hin]; [right; left; set_solver|by left].
  - intros x [Hx|[[->|Hx]%elem_of_cons _]]%Hnew; [|left; set_solver|left].
    + destruct (Hse x Hx); [left; set_solver|by right].
    + apply elem_of_union. right. by apply Hpath.
Qed.

(** An explored event outside the subgraph reaches no conflicted event. *)
Lemma explored_reaches e f fs p path seen S :
  search_inv ((e :: f) :: fs) (p :: path) seen S → explored seen e → e ∉ C → reaches e → e ∈ S.
Proof.
  intros [Hal Hpath Hed Hcl Hso Hro Hse] He HnC (c & Hc & Hr).
  apply rtc_inv in Hr as [<-|(d & Hd & Hr)]; [done|].
  assert (auths p e) as Hpe by (apply Hal; by left).
  destruct He as [Hs|Hf].
  2: { apply auths_fetched in Hd as [ev Hev]. congruence. }
  destruct (Hed e d Hs Hd) as [[_ Hcomp]|Hpend]; [apply Hcomp; by exists c|].
  apply pending_path in Hpend. pose proof (aligned_rank _ _ _ _ Hal Hpe e Hpend). lia.
Qed.

Lemma visit_event_inv e f fs path seen S :
  search_inv ((e :: f) :: fs) path seen S →
  let st := visit_event fetch_event C e
              {| ss_subgraph := S; ss_stack := f :: fs; ss_path := path; ss_seen := seen |} in
  search_inv (ss_stack st) (ss_path st) (ss_seen st) (ss_subgraph st)
  ∧ (ss_seen st = seen ∧ ss_stack st = f :: fs
     ∨ ∃ ev, fetch_event e = Some ev ∧ e ∉ seen ∧ ss_seen st = {[e]} ∪ seen).
Proof.
  intros Hinv. unfold visit_event. cbn [ss_subgraph ss_stack ss_path ss_seen]. cbv zeta.
  destruct (decide (e ∈ S)) as [HS|HS].
  { cbn [ss_subgraph ss_stack ss_path ss_seen]. split; [|by left].
    pose proof (si_seen _ _ _ _ Hinv e HS) as He.
    destruct (si_sound _ _ _ _ Hinv e HS) as (c1 & c2 & _ & Hc2 & _ & Hr & _).
    destruct (decide (1 < length (e :: path))) as [Hlen|Hlen].
    - destruct path as [|p path]; [simpl in Hlen; lia|].
      eapply drop_event; [|done|].
      + apply extend_path; [done|done|by exists c2|done].
      + intros q [= ->] _. set_solver.
    - destruct path as [|p path]; [|simpl in Hlen; lia].
      replace (∅ ∪ S) with S by set_solver. by eapply drop_event. }
  destruct (decide (e ∈ C ∧ 1 < length (e :: path))) as [Hext|Hext].
  - destruct Hext as [HC Hlen]. destruct path as [|p path]; [simpl in Hlen; lia|].
    assert (reaches e) as Hr by (by exists e).
    destruct (decide (e ∈ seen)) as [Hs|Hs].
    + cbn [ss_subgraph ss_stack ss_path ss_seen]. split; [|by left].
      eapply drop_event; [by apply extend_path; [..|left]|by left|].
      intros q [= ->] _. set_solver.
    + destruct (fetch_event e) as [ev|] eqn:Hev; cbn [ss_subgraph ss_stack ss_path ss_seen].
      * split; [|right; eauto]. eapply push_event; try done; [set_solver| | |set_solver].
        -- intros x. rewrite elem_of_union, elem_of_list_to_set. intros [Hx|]; [right|by left].
           split; [done|]. intros q Hq. apply elem_of_union. left. by apply elem_of_list_to_set.
        -- intros x. rewrite elem_of_union, elem_of_list_to_set.
           intros [Hx|Hx]; [by eapply path_sound|by eapply si_sound].
      * split; [|by left]. eapply drop_event; [by apply extend_path; [..|right]|by right|].
        intros q [= ->] _. set_solver.
  - replace (∅ ∪ S) with S by set_solver.
    assert (e ∈ C → path = []) as HnC.
    { intros HC. destruct path; [done|]. destruct Hext. split; [done|simpl; lia]. }
    destruct (decide (e ∈ seen)) as [Hs|Hs]; [|destruct (fetch_event e) as [ev|] eqn:Hev];
      cbn [ss_subgraph ss_stack ss_path ss_seen]; (split; [|eauto]).
    + eapply drop_event; [done|by left|]. intros p Hp Hr. destruct path as [|q path]; [done|].
      destruct HS. eapply explored_reaches; [done|by left| |done]. intros HC. by apply HnC in HC.
    + eapply push_event; try done; [by left|by eapply si_sound|].
      intros HC Hne. by destruct Hne; apply HnC.
    + eapply drop_event; [done|by right|]. intros p Hp Hr. destruct path as [|q path]; [done|].
      destruct HS. eapply explored_reaches; [done|by right| |done]. intros HC. by apply HnC in HC.
Qed.

Variable store : gset EventId.
Hypothesis store_finite : finite_store fetch_event store.

(** Each round pops an event; a round that pushes a frame explores a new one. *)
Lemma subgraph_loop_total stack path seen S :
  search_inv stack path seen S →
  ∃ fuel0 R seen', search_inv [] [] seen' R ∧ ∀ fuel, fuel0 ≤ fuel →
    subgraph_loop fetch_event fuel C
      {| ss_subgraph := S; ss_stack := stack; ss_path := path; ss_seen := seen |} = Ok R.
Proof.
  remember (size (store ∖ seen)) as n eqn:Hn.
  remember (length (mjoin stack)) as m eqn:Hm. revert m stack path seen S Hn Hm.
  induction (lt_wf n) as [n _ IHn]. intros m. induction (lt_wf m) as [m _ IHm].
  intros stack path seen S Hn Hm Hinv. pose proof (next_event_inv _ _ _ _ Hinv) as Hnext.
  destruct (next_event stack path) as [[[e stack'] path']|] eqn:Hne.
  2: { exists 0, S, seen. split; [done|]. intros [|fuel] _; simpl; by rewrite Hne. }
  destruct Hnext as (f & fs & -> & Hinv' & Hlt).
  destruct (visit_event_inv _ _ _ _ _ _ Hinv') as [Hvisit Hcase].
  set (st := visit_event _ _ _ _) in *.
  assert (∃ fuel0 R seen', search_inv [] [] seen' R ∧ ∀ fuel, fuel0 ≤ fuel →
            subgraph_loop fetch_event fuel C st = Ok R) as (fuel0 & R & seen' & HR & Hloop).
  { destruct st as [S1 stack1 path1 seen1]. cbn [ss_subgraph ss_stack ss_path ss_seen] in *.
    destruct Hcase as [[-> ->]|(ev & Hev & Hns & ->)].
    - eapply IHm; [|done|done|done]. by rewrite Hm.
    - eapply IHn; [|done|done|done]. rewrite Hn. apply subset_size.
      assert (e ∈ store) by (apply store_finite; eauto). set_solver. }
  exists (Datatypes.S fuel0), R, seen'. split; [done|]. intros [|fuel] Hfuel; [lia|].
  simpl. rewrite Hne. apply Hloop. lia.
Qed.

(** At the end everything reachable has been explored. *)
Lemma final_complete seen S e :
  search_inv [] [] seen S → on_conflict_path e → e ∈ S.
Proof.
  intros [_ _ Hed _ _ Hro _] (c1 & c2 & Hc1 & Hc2 & Hr1 & Hr2 & Htc).
  assert (∀ p d, p ∈ seen → auths p d → completed seen S p d) as Hdone.
  { intros p d Hp Hd. by destruct (Hed p d Hp Hd). }
  assert (∀ x y, explored seen x → auths x y → x ∈ seen) as Hfetched.
  { intros x y [|Hx] [ev Hev]%auths_fetched; [done|congruence]. }
  assert (∀ x, rtc auths c1 x → explored seen x) as Hexp.
  { intros x. apply rtc_ind_r; [by destruct (Hro c1 Hc1) as [?%elem_of_nil|]|].
    intros y z _ Hyz IH. by apply (Hdone y z); [eapply Hfetched|]. }
  destruct Htc as [(p & Hp & Hpe)%tc_last|(d & Hd & Hdc)%tc_first].
  - destruct (Hdone p e (Hfetched _ _ (Hexp p Hp) Hpe) Hpe) as [_ Hr]. apply Hr. by exists c2.
  - destruct (Hdone e d (Hfetched _ _ (Hexp e Hr1) Hd) Hd) as [_ Hr]. apply Hr. by exists c2.
Qed.
End subgraph.

(** Enough fuel gives the conflicted subgraph, whatever the iteration order. *)
Lemma conflicted_subgraph_spec `{!Ruma, !HashIter (string * string), !HashIterLaws (string * string)}
    `{!HashIter string, !HashIterLaws string} (fetch_event : EventId → option Pdu)
    (store : gset EventId) (conflicted : StateMap (list EventId)) :
  acyclic fetch_event → finite_store fetch_event store →
  ∃ fuel0 R, (∀ fuel, fuel0 ≤ fuel →
      calculate_conflicted_subgraph fetch_event fuel conflicted = Ok R)
    ∧ ∀ e, e ∈ R ↔ on_conflict_path fetch_event (list_to_set (mjoin (map_to_list conflicted).*2)) e.
Proof.
  intros [rank Hrank] Hstore. set (C := list_to_set (mjoin (map_to_list conflicted).*2) : gset EventId).
  assert (list_to_set (mjoin (iter_map conflicted).*2) = C) as HC.
  { apply set_eq. intros x. unfold C. rewrite !elem_of_list_to_set, !list_elem_of_join.
    by setoid_rewrite iter_map_perm. }
  destruct (subgraph_loop_total fetch_event C rank Hrank store Hstore
              [reverse (iter_set C)] [] ∅ ∅) as (fuel0 & R & seen & HR & Hloop).
  { split; try set_solver.
    - intros x. by rewrite elem_of_reverse, iter_set_perm, elem_of_elements.
    - intros c Hc. left. simpl. by rewrite elem_of_reverse, iter_set_perm, elem_of_elements. }
  exists fuel0, R. split.
  - intros fuel Hfuel. unfold calculate_conflicted_subgraph. cbv zeta. rewrite HC. by apply Hloop.
  - intros e. split; [by apply HR|]. by eapply final_complete.
Qed.

(** On a finite event store without cycles [calculate_conflicted_subgraph]
    terminates and returns exactly the events that lie on a path of auth events
    between two conflicted events, the endpoints included. *)
Theorem conflicted_subgraph_correct
    `{!Ruma, !HashIter (string * string), !HashIterLaws (string * string)}
    `{!HashIter string, !HashIterLaws string} (fetch_event : EventId → option Pdu)
    (store : gset EventId) (conflicted : StateMap (list EventId)) :
  acyclic fetch_event → finite_store fetch_event store →
  ∃ fuel0 R, (∀ fuel, fuel0 ≤ fuel →
      calculate_conflicted_subgraph fetch_event fuel conflicted = Ok R)
    ∧ ∀ e, e ∈ R ↔ on_conflict_path fetch_event (list_to_set (mjoin (map_to_list conflicted).*2)) e.
Proof. apply conflicted_subgraph_spec. Qed.

(** ** The auth graph of the power events *)

Section auth_graph.
Context `{!Ruma}.
Variables (fetch_event : EventId → option Pdu) (diff : gset EventId).
Implicit Types (graph : gmap EventId (gset EventId)) (state : list EventId).

(** The auth events of [n] that are in the full conflicted set. *)
Definition diff_edges (n : EventId) : gset EventId :=
  list_to_set (filter (.∈ diff) (auth_edges fetch_event n)).
Definition diff_auths (n m : EventId) : Prop := m ∈ diff_edges n.

Lemma add_edge_fold graph state eid aids :
  eid ∈ dom graph →
  foldl (add_edge diff eid) (graph, state) aids
  = (<[eid := list_to_set (filter (.∈ diff) aids) ∪ default ∅ (graph !! eid)]> graph,
     reverse (filter (fun a => a ∈ diff ∧ a ∉ dom graph) aids) ++ state).
Proof.
  revert graph state. induction aids as [|a aids IH]; intros graph state Hd.
  { simpl. rewrite union_empty_l_L. apply elem_of_dom in Hd as [es Hes]. rewrite Hes. simpl.
    by rewrite insert_id. }
  cbn [foldl]. rewrite !filter_cons. unfold add_edge at 2. cbn [fst snd].
  destruct (decide (a ∈ diff)) as [Ha|Ha].
  - rewrite IH; [|rewrite dom_insert_L; set_solver].
    rewrite insert_insert_eq, lookup_insert_eq. cbn [default from_option list_to_set].
    assert (dom (<[eid:={[a]} ∪ default ∅ (graph !! eid)]> graph) = dom graph) as ->
      by (rewrite dom_insert_L; set_solver).
    f_equal; [f_equal; unfold list_to_set; fold (list_to_set (C := gset EventId) (A := EventId)); set_solver|].
    destruct (decide (a ∈ dom graph)) as [Hin|Hin].
    + by rewrite decide_False by tauto.
    + by rewrite decide_True, reverse_cons, <-(assoc_L (++)) by tauto.
  - rewrite decide_False by tauto. by apply IH.
Qed.

(** The loop's invariant: keys carry their edges; an edge out of the graph is on the
    stack, above every copy of its source. *)
Record graph_inv (roots : EventId → Prop) graph state : Prop := {
  gi_edges n es : graph !! n = Some es → es = diff_edges n;
  gi_open n a : n ∈ dom graph → a ∈ diff_edges n → a ∈ dom graph ∨ a ∈ state;
  gi_above l1 n l2 a : state = l1 ++ n :: l2 → n ∈ dom graph → a ∈ diff_edges n →
    a ∈ dom graph ∨ a ∈ l1;
  gi_reach n : n ∈ dom graph ∨ n ∈ state → ∃ r, roots r ∧ rtc diff_auths r n;
  gi_roots r : roots r → r ∈ dom graph ∨ r ∈ state;
}.

Lemma app_not_in_prefix {A} (l1 l2 k1 k2 : list A) x :
  l1 ++ l2 = k1 ++ x :: k2 → x ∉ l1 → ∃ k, k1 = l1 ++ k ∧ l2 = k ++ x :: k2.
Proof.
  revert k1. induction l1 as [|y l1 IH]; intros k1 Heq Hx; [by exists k1|].
  destruct k1 as [|z k1]; injection Heq as -> Heq; [by destruct Hx; left|].
  destruct (IH k1 Heq) as (k & -> & ->); [|by exists k].
  intros Hin. apply Hx. by right.
Qed.

Definition visited graph eid : gmap EventId (gset EventId) := <[eid := diff_edges eid]> graph.

(** A first visit extends the graph; a second one changes nothing. *)
Lemma graph_round roots graph eid state :
  graph_inv roots graph (eid :: state) →
  let '(graph', state') :=
    foldl (add_edge diff eid) (<[eid := default ∅ (graph !! eid)]> graph, state)
      (auth_edges fetch_event eid) in
  graph_inv roots graph' state'
  ∧ (∀ x, x ∈ state' → x ∈ state ∨ x ∈ diff)
  ∧ (dom graph' = {[eid]} ∪ dom graph)
  ∧ (eid ∈ dom graph → state' = state).
Proof.
  intros [Hed Hop Hab Hre Hro]. rewrite add_edge_fold by (rewrite dom_insert_L; set_solver).
  rewrite insert_insert_eq, lookup_insert_eq, dom_insert_L. cbn [default from_option].
  fold (diff_edges eid).
  assert (diff_edges eid ∪ id (default ∅ (graph !! eid)) = diff_edges eid) as ->.
  { unfold id at 1. destruct (graph !! eid) as [es|] eqn:Hes; simpl; [|set_solver].
    rewrite (Hed _ _ Hes). set_solver. }
  fold (visited graph eid). set (new := reverse _).
  assert (∀ x, x ∈ new ↔ x ∈ diff_edges eid ∧ x ∉ {[eid]} ∪ dom graph) as Hnew.
  { intros x. unfold new, diff_edges. rewrite elem_of_reverse, list_elem_of_filter,
      elem_of_list_to_set, list_elem_of_filter. tauto. }
  assert (dom (visited graph eid) = {[eid]} ∪ dom graph) as Hdom by apply dom_insert_L.
  split_and!.
  - split.
    + unfold visited. intros n es [[<- <-]|[_ Hn]]%lookup_insert_Some; [done|by apply Hed].
    + intros n a. rewrite Hdom. intros [->%elem_of_singleton|Hn]%elem_of_union Ha.
      * destruct (decide (a ∈ {[eid]} ∪ dom graph)); [by left|right].
        apply elem_of_app. left. by apply Hnew.
      * destruct (Hop n a Hn Ha) as [|[->|]%elem_of_cons]; [set_solver..|].
        right. apply elem_of_app. by right.
    + intros l1 n l2 a Heq Hn Ha. rewrite Hdom in Hn. rewrite Hdom.
      destruct (decide (a ∈ {[eid]} ∪ dom graph)) as [|Hna]; [by left|right].
      apply app_not_in_prefix in Heq as (k & -> & Heq); [|rewrite Hnew; tauto].
      apply elem_of_app. destruct (decide (n = eid)) as [->|Hne].
      * left. by apply Hnew.
      * right. destruct (Hab (eid :: k) n l2 a) as [|[->|]%elem_of_cons];
          [by rewrite Heq|set_solver|done|set_solver..|done].
    + intros n. rewrite Hdom, elem_of_app, Hnew.
      destruct (Hre eid) as (r & Hr & Hreach); [right; by left|].
      intros [[->%elem_of_singleton|Hn]%elem_of_union|[[Hn _]|Hn]].
      * by exists r.
      * apply Hre. by left.
      * exists r. split; [done|]. by eapply rtc_r.
      * apply Hre. right. by right.
    + intros r Hr. rewrite Hdom, elem_of_app. apply Hro in Hr as [|[->|]%elem_of_cons]; set_solver.
  - intros x [Hx|]%elem_of_app; [|by left]. right. apply Hnew in Hx as [Hx _].
    unfold diff_edges in Hx. by apply elem_of_list_to_set, list_elem_of_filter in Hx as [].
  - done.
  - intros Hin. assert (new = []) as ->; [|done]. apply elem_of_nil_inv. intros x [Hx Hnx]%Hnew.
    destruct (Hab [] eid state x eq_refl Hin Hx) as [|?%elem_of_nil]; set_solver.
Qed.

Lemma graph_loop_total roots graph state :
  graph_inv roots graph state →
  ∃ fuel0 graph', graph_inv roots graph' [] ∧
    ∀ fuel, fuel0 ≤ fuel → graph_loop fetch_event fuel diff graph state = Ok graph'.
Proof.
  assert (∃ U : gset EventId, diff ⊆ U ∧ ∀ x, x ∈ state → x ∈ U) as (U & HU & Hst).
  { exists (diff ∪ list_to_set state). split; [set_solver|].
    intros x Hx. apply elem_of_union. right. by apply elem_of_list_to_set. }
  remember (size (U ∖ dom graph)) as n eqn:Hn. remember (length state) as m eqn:Hm.
  revert m graph state Hst Hn Hm.
  induction (lt_wf n) as [n _ IHn]. intros m. induction (lt_wf m) as [m _ IHm].
  intros graph [|eid state] Hst Hn Hm Hinv.
  { exists 0, graph. split; [done|]. by intros [|fuel]. }
  pose proof (graph_round _ _ _ _ Hinv) as Hround.
  destruct (foldl _ _ _) as [graph' state'] eqn:Hfold.
  destruct Hround as (Hinv' & Hstate & Hdom & Hsame).
  assert (∀ x, x ∈ state' → x ∈ U) as Hst'.
  { intros x [Hx|Hx]%Hstate; [apply Hst; by right|by apply HU]. }
  assert (∃ fuel0 graph'', graph_inv roots graph'' [] ∧ ∀ fuel, fuel0 ≤ fuel →
            graph_loop fetch_event fuel diff graph' state' = Ok graph'')
    as (fuel0 & graph'' & Hg & Hloop).
  { destruct (decide (eid ∈ dom graph)) as [Hin|Hnin].
    - specialize (Hsame Hin). subst state'.
      assert (dom graph' = dom graph) as Hdom' by set_solver.
      eapply IHm; [|done|by rewrite Hdom'|done|done]. rewrite Hm. simpl. lia.
    - eapply IHn; [|done|done|done|done]. rewrite Hn, Hdom.
      apply size_remove_lt; [apply Hst; by left|done]. }
  exists (S fuel0), graph''. split; [done|]. intros [|fuel] Hfuel; [lia|].
  simpl. unfold auth_edges in Hfold. rewrite Hfold. apply Hloop. lia.
Qed.

(** The graph of the events reachable from [roots] within [diff]. *)
Definition is_auth_graph (roots : EventId → Prop) graph : Prop :=
  ∀ n es, graph !! n = Some es ↔ (∃ r, roots r ∧ rtc diff_auths r n) ∧ es = diff_edges n.

Lemma graph_inv_final roots graph : graph_inv roots graph [] ↔ is_auth_graph roots graph.
Proof.
  split.
  - intros [Hed Hop _ Hre Hro] n es. split.
    + intros Hn. split; [|by apply Hed]. apply Hre. left. apply elem_of_dom. eauto.
    + intros [(r & Hr & Hreach) ->].
      assert (n ∈ dom graph) as [es Hes]%elem_of_dom; [|by rewrite Hes, (Hed _ _ Hes)].
      revert n Hreach. apply rtc_ind_r.
      * by destruct (Hro r Hr) as [|?%elem_of_nil].
      * intros y z _ Hyz Hy. by destruct (Hop y z Hy Hyz) as [|?%elem_of_nil].
  - intros Hg. assert (∀ n, n ∈ dom graph ↔ ∃ r, roots r ∧ rtc diff_auths r n) as Hdom.
    { intros n. rewrite elem_of_dom. split; [by intros [es [? _]%Hg]|].
      intros Hr. exists (diff_edges n). by apply Hg. }
    split.
    + by intros n es [_ ->]%Hg.
    + intros n a (r & Hr & Hn)%Hdom Ha. left. apply Hdom. exists r. split; [done|]. by eapply rtc_r.
    + intros l1 n l2 a Heq. by apply app_cons_not_nil in Heq.
    + intros n [Hn|?%elem_of_nil]; [by apply Hdom|done].
    + intros r Hr. left. apply Hdom. by exists r.
Qed.

Lemma is_auth_graph_unique roots graph1 graph2 :
  is_auth_graph roots graph1 → is_auth_graph roots graph2 → graph1 = graph2.
Proof.
  intros H1 H2. apply map_eq. intros n. apply option_eq. intros es. by rewrite (H1 n es), (H2 n es).
Qed.

Lemma build_graph_total roots graph events :
  is_auth_graph roots graph →
  ∃ fuel0 graph', is_auth_graph (fun r => roots r ∨ r ∈ events) graph' ∧
    ∀ fuel, fuel0 ≤ fuel → build_graph fetch_event fuel diff graph events = Ok graph'.
Proof.
  revert roots graph. induction events as [|e events IH]; intros roots graph Hg.
  { exists 0, graph. split; [|done]. intros n es. rewrite (Hg n es).
    split; intros [(r & Hr & Hn) ->]; (split; [|done]); exists r; (split; [|done]); [by left|].
    by destruct Hr as [|?%elem_of_nil]. }
  assert (graph_inv (fun r => roots r ∨ r = e) graph [e]) as Hinv.
  { apply graph_inv_final in Hg as [Hed Hop _ Hre Hro]. split.
    - done.
    - intros n a Hn Ha. destruct (Hop n a Hn Ha) as [|?%elem_of_nil]; [by left|done].
    - intros l1 n l2 a _ Hn Ha. destruct (Hop n a Hn Ha) as [|?%elem_of_nil]; [by left|done].
    - intros n [Hn| ->%list_elem_of_singleton].
      + destruct (Hre n) as (r & Hr & ?); [by left|]. exists r. split; [by left|done].
      + exists e. split; [by right|done].
    - intros r [Hr| ->]; [|right; by left]. destruct (Hro r Hr) as [|?%elem_of_nil]; [by left|done]. }
  destruct (graph_loop_total _ _ _ Hinv) as (f1 & g1 & Hg1 & Hl1).
  apply graph_inv_final in Hg1. destruct (IH _ _ Hg1) as (f2 & g2 & Hg2 & Hl2).
  exists (f1 `max` f2), g2. split.
  - intros n es. rewrite (Hg2 n es).
    split; intros [(r & Hr & Hn) ->]; (split; [|done]); exists r; (split; [|done]);
      rewrite elem_of_cons in *; tauto.
  - intros fuel Hfuel. simpl. unfold add_event_and_auth_chain_to_graph.
    rewrite Hl1 by lia. simpl. apply Hl2. lia.
Qed.

(** The auth graph of a list of events is built in finitely many rounds and has as
    nodes exactly the events reachable from the list through auth events of the full
    conflicted set, each with all its auth events of that set. *)
Theorem build_graph_correct events :
  ∃ fuel0 graph, (∀ fuel, fuel0 ≤ fuel →
      build_graph fetch_event fuel diff ∅ events = Ok graph)
    ∧ ∀ n es, graph !! n = Some es ↔
        (∃ r, r ∈ events ∧ rtc diff_auths r n) ∧ es = diff_edges n.
Proof.
  destruct (build_graph_total (fun _ => False) ∅ events) as (fuel0 & graph & Hg & Hl).
  { intros n es. rewrite lookup_empty. naive_solver. }
  exists fuel0, graph. split; [done|]. intros n es. rewrite (Hg n es).
  split; intros [(r & Hr & Hn) ->]; (split; [|done]); exists r; tauto.
Qed.
End auth_graph.

(** ** Concrete stores *)

Lemma store_acyclic l : store_ordered l → acyclic (store_of l).
Proof.
  intros Hl. exists (store_rank l). intros n m Hm. unfold auths, auth_edges in Hm.
  destruct (store_of l n) as [ev|] eqn:Hev; [|by apply elem_of_nil in Hm].
  apply store_of_Some in Hev as [Hin <-].
  eapply Forall_forall in Hl; [|exact Hin]. by eapply Forall_forall in Hl.
Qed.

Lemma store_is_finite l : finite_store (store_of l) (store_ids l).
Proof.
  intros n [ev Hev]. apply store_of_Some in Hev as [Hin <-].
  unfold store_ids. apply elem_of_list_to_set, list_elem_of_fmap. by exists ev.
Qed.

Module GraphWitness.
#[local] Instance keys_fwd : HashIter (string * string) := hash_iter_fwd _.
#[local] Instance ids_bwd : HashIter string := hash_iter_bwd _.

(** [$1] is conflicted with [$4], which has it in its auth chain through [$2] and
    [$3]; [$5] lies outside. *)
Definition events : list Pdu :=
  [mk_event "$1" "t" alice (Some "") JOther [];
   mk_event "$2" "u" alice (Some "") JOther ["$1"];
   mk_event "$3" "u" alice (Some "") JOther ["$1"; "$0"];
   mk_event "$5" "u" alice (Some "") JOther ["$0"];
   mk_event "$4" "t" alice (Some "") JOther ["$2"; "$3"; "$5"]].
Definition conflicted : StateMap (list EventId) := {[ ("t", "") := ["$1"; "$4"] ]}.

Example subgraph_of_events :
  calculate_conflicted_subgraph (store_of events) 20 conflicted
  = Ok ({["$1"; "$2"; "$3"; "$4"]} : gset EventId).
Proof. apply (bool_decide_unpack _). vm_compute. exact I. Qed.

Lemma conflicted_subgraph_correct_witness :
  ∃ fuel0 R, (∀ fuel, fuel0 ≤ fuel →
      calculate_conflicted_subgraph (store_of events) fuel conflicted = Ok R)
    ∧ ∀ e, e ∈ R ↔
        on_conflict_path (store_of events) (list_to_set (mjoin (map_to_list conflicted).*2)) e.
Proof.
  apply (conflicted_subgraph_correct (store_of events) (store_ids events) conflicted).
  - apply store_acyclic, (bool_decide_unpack _). vm_compute. exact I.
  - apply store_is_finite.
Defined.
End GraphWitness.
