(* ===== verification/StateResMainline.v ===== *)
(** The mainline ordering of state resolution: [mainline_sort] terminates on an
    acyclic store and sorts by (depth, timestamp, ID), where the depth is the place of
    the closest power levels event on the mainline, the oldest counting as zero. *)

From stdpp Require Import prelude gmap strings sorting.
From S2P Require Import Prelude Event RumaExample StateRes StateResGraph.

Section mainline.
Context `{!Ruma, !HashIter string}.
Variables (fetch_event : EventId → option Pdu) (rank : EventId → nat).
Hypothesis rank_lt : ∀ n m, auths fetch_event n m → rank m < rank n.
(** The store returns the event asked for. *)
Hypothesis coherent : ∀ n ev, fetch_event n = Some ev → event_id ev = n.

Lemma find_power_levels_Some aids p :
  find_power_levels fetch_event aids = Ok (Some p) →
  event_id p ∈ aids ∧ fetch_event (event_id p) = Some p.
Proof.
  induction aids as [|a aids IH]; simpl; [done|]. intros Hf.
  apply bind_Ok in Hf as (ev & Hev%ok_or_Ok & Hf).
  pose proof (coherent _ _ Hev) as Hid. destruct (is_type_and_key _ _ _).
  - injection Hf as <-. rewrite Hid. split; [by left|done].
  - destruct (IH Hf) as [Hin ?]. split; [by right|done].
Qed.

Lemma find_power_levels_id_eq aids :
  find_power_levels_id fetch_event aids
  = match find_power_levels fetch_event aids with
    | Ok o => Ok (event_id <$> o) | Err e => Err e end.
Proof.
  induction aids as [|a aids IH]; simpl; [done|].
  destruct (fetch_event a) as [ev|] eqn:Hev; simpl; [|done].
  destruct (is_type_and_key _ _ _); [|done]. simpl. by rewrite (coherent _ _ Hev).
Qed.

Lemma find_power_levels_Err aids e :
  find_power_levels fetch_event aids = Err e → e = Fail NotFound.
Proof.
  induction aids as [|a aids IH]; simpl; [done|].
  destruct (fetch_event a); simpl; [|congruence]. by destruct (is_type_and_key _ _ _).
Qed.

(** The power levels event an event was authorised by. *)
Definition level_parent (ev p : Pdu) : Prop :=
  find_power_levels fetch_event (auth_events ev) = Ok (Some p).

Lemma level_parent_rank ev p :
  fetch_event (event_id ev) = Some ev → level_parent ev p →
  fetch_event (event_id p) = Some p ∧ rank (event_id p) < rank (event_id ev).
Proof.
  intros Hev [Hin Hp]%find_power_levels_Some. split; [done|]. apply rank_lt.
  unfold auths, auth_edges. by rewrite Hev.
Qed.

(** [mainline_from p l]: [l] is the chain of power levels events from [p] on. *)
Inductive mainline_from : option EventId → list EventId → Prop :=
| mainline_end : mainline_from None []
| mainline_last p ev :
    fetch_event p = Some ev → find_power_levels fetch_event (auth_events ev) = Ok None →
    mainline_from (Some p) [p]
| mainline_next p ev q l :
    fetch_event p = Some ev → level_parent ev q → mainline_from (Some (event_id q)) l →
    mainline_from (Some p) (p :: l).

Lemma collect_mainline_total p fuel :
  (∀ q, p = Some q → rank q < fuel) →
  (∃ l, collect_mainline fetch_event fuel p = Ok l ∧ mainline_from p l)
  ∨ collect_mainline fetch_event fuel p = Err (Fail NotFound).
Proof.
  revert p. induction fuel as [|fuel IH]; intros [p|] Hf; simpl.
  1: specialize (Hf p eq_refl); lia.
  1, 3: left; eexists; split; [done|constructor].
  specialize (Hf p eq_refl). unfold ok_or_fail.
  destruct (fetch_event p) as [ev|] eqn:Hev; simpl; [|by right].
  pose proof (coherent _ _ Hev) as Hid. rewrite find_power_levels_id_eq.
  destruct (find_power_levels fetch_event (auth_events ev)) as [[q|]|e] eqn:Hq; simpl.
  - assert (rank (event_id q) < fuel) as Hlt.
    { destruct (level_parent_rank ev q) as [_ Hr]; [by rewrite Hid|done|]. rewrite Hid in Hr. lia. }
    destruct (IH (Some (event_id q))) as [(l & -> & Hl)| ->]; [by intros ? [= <-]| |by right].
    left. exists (p :: l). split; [done|]. by eapply mainline_next.
  - left. exists [p]. split; [by destruct fuel|]. by eapply mainline_last.
  - right. by rewrite (find_power_levels_Err _ _ Hq).
Qed.

Lemma mainline_rank p l : mainline_from (Some p) l → ∀ q, q ∈ l → rank q ≤ rank p.
Proof.
  intros Hm. remember (Some p) as o eqn:Ho. revert p Ho.
  induction Hm as [|p ev Hev Hn|p ev q l Hev Hq Hm IH]; intros p' [=]; subst p'.
  - by intros q ->%list_elem_of_singleton.
  - intros x [->|Hx]%elem_of_cons; [done|]. specialize (IH _ eq_refl x Hx).
    pose proof (coherent _ _ Hev) as Hid.
    destruct (level_parent_rank ev q) as [_ Hr]; [by rewrite Hid|done|]. rewrite Hid in Hr. lia.
Qed.

Lemma mainline_NoDup p l : mainline_from p l → NoDup l.
Proof.
  induction 1 as [|p ev Hev Hn|p ev q l Hev Hq Hm IH]; [constructor|apply NoDup_singleton|].
  constructor; [|done]. intros Hin. apply (mainline_rank _ _ Hm) in Hin.
  pose proof (coherent _ _ Hev) as Hid.
  destruct (level_parent_rank ev q) as [_ Hr]; [by rewrite Hid|done|]. rewrite Hid in Hr. lia.
Qed.

Lemma mainline_positions_lookup l e i :
  NoDup l → mainline_positions l !! e = Some i ↔ reverse l !! i = Some e.
Proof.
  intros Hnd. unfold mainline_positions.
  assert ((imap (fun idx eid => (eid, idx)) (reverse l)).*1 = reverse l) as Hfst.
  { apply list_eq. intros j. rewrite list_lookup_fmap, list_lookup_imap.
    by destruct (reverse l !! j). }
  rewrite <-elem_of_list_to_map.
  2: { rewrite fmap_reverse, Hfst, reverse_involutive. done. }
  rewrite elem_of_reverse, list_elem_of_lookup. setoid_rewrite list_lookup_imap. split.
  - intros [j Hj]. destruct (reverse l !! j) eqn:Hl; [|done]. simpl in Hj. by injection Hj as -> ->.
  - intros Hi. exists i. by rewrite Hi.
Qed.

(** [closest positions ev d]: the place of the closest event on the mainline, going up
    through power levels events; zero if there is none. *)
Inductive closest (positions : gmap EventId nat) : Pdu → nat → Prop :=
| closest_here ev d : positions !! event_id ev = Some d → closest positions ev d
| closest_up ev p d :
    positions !! event_id ev = None → level_parent ev p → closest positions p d →
    closest positions ev d
| closest_none ev :
    positions !! event_id ev = None →
    find_power_levels fetch_event (auth_events ev) = Ok None → closest positions ev 0.

Lemma get_mainline_depth_total positions ev fuel :
  fetch_event (event_id ev) = Some ev → rank (event_id ev) < fuel →
  (∃ d, get_mainline_depth fetch_event fuel (Some ev) positions = Ok d ∧ closest positions ev d)
  ∨ (get_mainline_depth fetch_event fuel (Some ev) positions = Err (Fail NotFound)
     ∧ ∀ d, ¬ closest positions ev d).
Proof.
  revert ev. induction fuel as [|fuel IH]; intros ev Hev Hf; [lia|]. simpl.
  destruct (positions !! event_id ev) as [d|] eqn:Hpos.
  { left. exists d. split; [done|by constructor]. }
  destruct (find_power_levels fetch_event (auth_events ev)) as [[p|]|e] eqn:Hp; simpl.
  - destruct (level_parent_rank ev p Hev Hp) as [Hfp Hr].
    destruct (IH p Hfp ltac:(lia)) as [(d & -> & Hd)|[-> Hno]].
    + left. exists d. split; [done|]. by eapply closest_up.
    + right. split; [done|]. intros d Hd. inversion Hd as [? ? Hx|? p' ? _ Hp' Hc|? _ Hx]; subst;
        unfold level_parent in *; try congruence. apply (Hno d). congruence.
  - left. exists 0. split; [by destruct fuel|by constructor 3].
  - rewrite (find_power_levels_Err _ _ Hp). right. split; [done|]. intros d Hd.
    inversion Hd; subst; unfold level_parent in *; congruence.
Qed.

Lemma closest_fun positions ev d d' : closest positions ev d → closest positions ev d' → d = d'.
Proof.
  intros Hd. revert d'. induction Hd as [ev d Hp|ev p d Hp Hl Hc IH|ev Hp Hl]; intros d' Hd';
    inversion Hd'; subst; unfold level_parent in *; try congruence.
  apply IH. congruence.
Qed.

(** The key an event is sorted by. *)
Definition mainline_key positions (id : EventId) (k : nat * (Z * EventId)) : Prop :=
  ∃ ev d, fetch_event id = Some ev ∧ closest positions ev d
    ∧ k = (d, (Event.origin_server_ts ev, id)).

Lemma order_events_total positions fuel to_sort :
  (∀ id, id ∈ to_sort → rank id < fuel) →
  ∃ m, order_events fetch_event fuel positions to_sort = Ok m
    ∧ ∀ id k, m !! id = Some k ↔ id ∈ to_sort ∧ mainline_key positions id k.
Proof.
  induction to_sort as [|id to_sort IH]; intros Hf; simpl.
  { exists ∅. split; [done|]. intros id k. rewrite lookup_empty, elem_of_nil. naive_solver. }
  destruct IH as (m & -> & Hm); [intros; apply Hf; by right|]. simpl.
  assert (∀ k, mainline_key positions id k → ∃ ev, fetch_event id = Some ev) as Hfetched.
  { intros k (ev & d & ? & _). eauto. }
  destruct (fetch_event id) as [ev|] eqn:Hev.
  2: { exists m. split; [done|]. intros id' k. rewrite Hm, elem_of_cons.
       split; [tauto|]. intros [[->|] Hk]; [|tauto]. by apply Hfetched in Hk as [? ?]. }
  pose proof (coherent _ _ Hev) as Hid.
  destruct (get_mainline_depth_total positions ev fuel) as [(d & -> & Hd)|[-> Hno]].
  { by rewrite Hid. } { rewrite Hid. apply Hf. by left. }
  - eexists. split; [done|]. intros id' k. rewrite lookup_insert_Some, Hm, elem_of_cons. split.
    + intros [[<- <-]|[Hne [? ?]]]; [|tauto]. split; [by left|]. by exists ev, d.
    + intros [Hin Hk]. destruct (decide (id = id')) as [<-|Hne].
      * left. split; [done|]. destruct Hk as (ev' & d' & Hev' & Hd' & ->).
        assert (ev' = ev) as -> by congruence. by rewrite (closest_fun _ _ _ _ Hd Hd').
      * right. destruct Hin as [->|]; [done|]. done.
  - exists m. split; [done|]. intros id' k. rewrite Hm, elem_of_cons.
    split; [tauto|]. intros [[->|] Hk]; [|tauto].
    destruct Hk as (ev' & d' & Hev' & Hd' & ->). assert (ev' = ev) as -> by congruence.
    by apply Hno in Hd'.
Qed.

(** The order of the result. *)
Definition sorted_by_mainline positions (to_sort sorted : list EventId) : Prop :=
  ∃ keys, StronglySorted ord_le keys ∧ sorted = (fun k : nat * (Z * EventId) => k.2.2) <$> keys
    ∧ NoDup sorted
    ∧ ∀ k, k ∈ keys ↔ ∃ id, id ∈ to_sort ∧ mainline_key positions id k.

Lemma mainline_sort_spec `{!HashIterLaws string} fuel to_sort pl :
  (∀ id, id ∈ to_sort → rank id < fuel) → (∀ p, pl = Some p → rank p < fuel) →
  to_sort ≠ [] →
  (∃ mainline sorted, mainline_from pl mainline
     ∧ mainline_sort fetch_event fuel to_sort pl = Ok sorted
     ∧ sorted_by_mainline (mainline_positions mainline) to_sort sorted)
  ∨ mainline_sort fetch_event fuel to_sort pl = Err (Fail NotFound).
Proof.
  intros Hf Hpl Hne. unfold mainline_sort. rewrite decide_False by done.
  destruct (collect_mainline_total pl fuel Hpl) as [(l & -> & Hl)| ->]; [|by right]. simpl.
  destruct (order_events_total (mainline_positions l) fuel to_sort Hf) as (m & -> & Hm). simpl.
  left. exists l. eexists. split; [done|]. split; [done|].
  exists (sort (iter_map m).*2). split; [apply sort_StronglySorted|]. split; [done|].
  assert (∀ k, k ∈ (iter_map m).*2 ↔ ∃ id, m !! id = Some k) as Hin.
  { intros k. rewrite iter_map_perm, list_elem_of_fmap. split.
    - intros ([id k'] & -> & Hk%elem_of_map_to_list). by exists id.
    - intros [id Hk]. exists (id, k). split; [done|]. by apply elem_of_map_to_list. }
  split.
  - rewrite sort_Permutation, iter_map_perm.
    assert ((fun k : nat * (Z * EventId) => k.2.2) <$> (map_to_list m).*2 = (map_to_list m).*1) as ->.
    { rewrite <-list_fmap_compose. apply list_fmap_ext. intros i [id k] Hk. simpl.
      apply list_elem_of_lookup_2, elem_of_map_to_list, Hm in Hk as [_ (ev & d & _ & _ & ->)]. done. }
    apply NoDup_fst_map_to_list.
  - intros k. rewrite elem_of_sort, Hin. by setoid_rewrite Hm.
Qed.
End mainline.

(** On a coherent store without cycles, with fuel above the depth of the events,
    [mainline_sort] either meets a missing power levels event and fails, or returns
    without repetition exactly those events whose closest mainline event can be
    found, in ascending order of (its place on the mainline, timestamp, event ID),
    where places count from the oldest end of the chain of power levels events that
    starts at the resolved one, and events with no such ancestor are placed at zero. *)
Theorem mainline_sort_correct `{!Ruma, !HashIter string, !HashIterLaws string}
    (fetch_event : EventId → option Pdu) (rank : EventId → nat) fuel to_sort pl :
  (∀ n m, auths fetch_event n m → rank m < rank n) →
  (∀ n ev, fetch_event n = Some ev → event_id ev = n) →
  (∀ id, id ∈ to_sort → rank id < fuel) → (∀ p, pl = Some p → rank p < fuel) →
  to_sort ≠ [] →
  (∃ mainline sorted, mainline_from fetch_event pl mainline
     ∧ mainline_sort fetch_event fuel to_sort pl = Ok sorted
     ∧ sorted_by_mainline fetch_event (mainline_positions mainline) to_sort sorted
     ∧ ∀ e i, mainline_positions mainline !! e = Some i ↔ reverse mainline !! i = Some e)
  ∨ mainline_sort fetch_event fuel to_sort pl = Err (Fail NotFound).
Proof.
  intros Hrank Hcoh Hf Hpl Hne.
  destruct (mainline_sort_spec fetch_event rank Hrank Hcoh fuel to_sort pl Hf Hpl Hne)
    as [(l & sorted & Hl & Hs & Hsort)|]; [|by right].
  left. exists l, sorted. split_and!; [done..|]. intros e i. apply mainline_positions_lookup.
  by eapply mainline_NoDup.
Qed.

(** The most recent event of the mainline has the greatest place, the oldest zero. *)
Lemma mainline_oldest_zero p l : NoDup (l ++ [p]) → mainline_positions (l ++ [p]) !! p = Some 0.
Proof. intros Hnd. apply mainline_positions_lookup; [done|]. by rewrite reverse_snoc. Qed.

Module MainlineWitness.
#[local] Instance ids_bwd : HashIter string := hash_iter_bwd _.

(** Two power levels events, the first authorising the second. *)
Definition at_time (ts : Z) (ev : Pdu) : Pdu :=
  {| event_id := event_id ev; room_id := room_id ev; sender := sender ev; origin_server_ts := ts;
     kind := kind ev; content := content ev; state_key := state_key ev;
     prev_events := prev_events ev; auth_events := auth_events ev; redacts := redacts ev; depth := depth ev |}.
Definition level_event (id : EventId) (auth : list EventId) : Pdu :=
  mk_event id RoomPowerLevels alice (Some "") JOther auth.
Definition topic (id : EventId) (ts : Z) (auth : list EventId) : Pdu :=
  at_time ts (mk_event id "m.room.topic" alice (Some "") JOther auth).
Definition events : list Pdu :=
  [ev_create; level_event "$l1" ["$create"]; level_event "$l2" ["$create"; "$l1"];
   topic "$t1" 30 ["$create"; "$l1"]; topic "$t2" 10 ["$create"; "$l2"];
   topic "$t0" 40 ["$create"]; topic "$t3" 20 ["$create"; "$l1"]].

(** [$t0] has no power levels ancestor, yet sorts after [$t3] and [$t1], which follow
    the oldest power levels event: both places are zero, and the timestamp decides. *)
Example mainline_sort_example :
  mainline_sort (store_of events) 8 ["$t0"; "$t1"; "$t2"; "$t3"] (Some "$l2")
  = Ok ["$t3"; "$t1"; "$t0"; "$t2"].
Proof. vm_compute. reflexivity. Qed.

(** The newest event of the mainline has the greatest place. *)
Example mainline_places :
  collect_mainline (store_of events) 8 (Some "$l2") = Ok ["$l2"; "$l1"]
  ∧ mainline_positions ["$l2"; "$l1"] !! "$l2" = Some 1
  ∧ mainline_positions ["$l2"; "$l1"] !! "$l1" = Some 0.
Proof. vm_compute. split_and!; reflexivity. Qed.

Lemma store_rank_lt l : store_ordered l →
  ∀ n m, auths (store_of l) n m → store_rank l m < store_rank l n.
Proof.
  intros Hl n m Hm. unfold auths, auth_edges in Hm.
  destruct (store_of l n) as [ev|] eqn:Hev; [|by apply elem_of_nil in Hm].
  apply store_of_Some in Hev as [Hin <-].
  eapply Forall_forall in Hl; [|exact Hin]. by eapply Forall_forall in Hl.
Qed.

Lemma mainline_sort_correct_witness :
  let to_sort := ["$t0"; "$t1"; "$t2"; "$t3"] in
  (∃ mainline sorted, mainline_from (store_of events) (Some "$l2") mainline
     ∧ mainline_sort (store_of events) 8 to_sort (Some "$l2") = Ok sorted
     ∧ sorted_by_mainline (store_of events) (mainline_positions mainline) to_sort sorted
     ∧ ∀ e i, mainline_positions mainline !! e = Some i ↔ reverse mainline !! i = Some e)
  ∨ mainline_sort (store_of events) 8 to_sort (Some "$l2") = Err (Fail NotFound).
Proof.
  apply (mainline_sort_correct (store_of events) (store_rank events)).
  - apply store_rank_lt, (bool_decide_unpack _). vm_compute. exact I.
  - intros n ev Hev. by apply store_of_Some in Hev as [_ ?].
  - intros id Hin. repeat (apply elem_of_cons in Hin as [->|Hin]; [vm_compute; lia|]).
    by apply elem_of_nil in Hin.
  - intros p [= <-]. vm_compute. lia.
  - discriminate.
Defined.
End MainlineWitness.
