(* ===== verification/StateResOrder.v ===== *)
(** State resolution does not depend on the iteration order of hash maps and sets. *)

From stdpp Require Import prelude gmap strings sorting.
From S2P Require Import Prelude TopoSort Event RumaExample PowerLevels EventAuth StateRes StateResConflicts StateResGraph StateResMainline StateResResolve.

(** ** Authorisation never runs out of fuel *)

Definition fuelled {E A} (r : comp E A) : Prop := r ≠ Err OutOfFuel.

Lemma fuelled_Ok {E A} (a : A) : fuelled (E := E) (Ok a).
Proof. done. Qed.
Lemma fuelled_bind {E A B} (m : comp E A) (f : A → comp E B) :
  fuelled m → (∀ a, fuelled (f a)) → fuelled (m ≫= f).
Proof. unfold fuelled. destruct m; naive_solver. Qed.
Lemma fuelled_lift {E A} (r : result E A) : fuelled (lift r).
Proof. by destruct r. Qed.
Lemma fuelled_ok_or_fail {E A} (e : E) (o : option A) : fuelled (ok_or_fail e o).
Proof. by destruct o. Qed.
Lemma fuelled_expect {E A} (o : option A) : fuelled (E := E) (expect o).
Proof. by destruct o. Qed.
Lemma fuelled_parse {A} (o : option A) : fuelled (parse o).
Proof. by destruct o. Qed.
Lemma fuelled_mapR {E A B} (f : A → comp E B) l : (∀ x, fuelled (f x)) → fuelled (mapR f l).
Proof.
  intros Hf. induction l as [|x l IH]; [done|]. simpl.
  apply fuelled_bind; [done|]. intros y. by apply fuelled_bind.
Qed.
Create HintDb fuel.
#[export] Hint Resolve fuelled_Ok fuelled_lift fuelled_ok_or_fail fuelled_expect fuelled_parse : fuel.

Ltac fuel_step :=
  match goal with
  | |- ∀ _, _ => intros ?
  | |- fuelled (_ ≫= _) => apply fuelled_bind
  | |- fuelled (mapR _ _) => apply fuelled_mapR
  | |- fuelled (match ?x with _ => _ end) => destruct x
  | |- fuelled (Err _) => done
  | |- fuelled _ => solve [auto with fuel]
  end.

Section fuelled.
Context `{!Ruma}.
Implicit Types (rv : RoomVersionRules) (ev : Pdu).

Lemma fuelled_room_id_or_hash {E} ev : fuelled (room_id_or_hash (E := E) ev).
Proof. unfold room_id_or_hash. repeat fuel_step. Qed.
Lemma fuelled_room_creator rv create fields : fuelled (room_creator rv create fields).
Proof. unfold room_creator. repeat fuel_step. Qed.
Lemma fuelled_membership_of o : fuelled (membership_of o).
Proof. unfold membership_of. repeat fuel_step. Qed.
Lemma fuelled_parse_power_levels o : fuelled (parse_power_levels o).
Proof. unfold parse_power_levels. repeat fuel_step. Qed.
Lemma fuelled_join_rules_of o : fuelled (join_rules_of o).
Proof. unfold join_rules_of. repeat fuel_step. Qed.
#[local] Hint Resolve fuelled_room_id_or_hash fuelled_room_creator fuelled_membership_of
  fuelled_parse_power_levels fuelled_join_rules_of : fuel.

Lemma fuelled_auth_check rv ev tp fetch create : fuelled (auth_check rv ev tp fetch create).
Proof.
  unfold auth_check, auth_check_create, auth_check_member, auth_check_other,
    valid_membership_change, join_auth_is_valid, privileged_creators.
  repeat (cbv zeta; fuel_step).
Qed.

(** The third party invite found in the state is not looked at. *)
Lemma auth_check_third_party rv ev tp1 tp2 fetch create :
  auth_check rv ev tp1 fetch create = auth_check rv ev tp2 fetch create.
Proof. reflexivity. Qed.
End fuelled.

(** ** Independence, part by part *)

Section order.
Context `{!Ruma, !Scheduler, !SchedulerLaws _}.
Variables (rv : RoomVersionRules) (fetch_event : EventId → option Pdu).
Hypothesis coherent : ∀ n ev, fetch_event n = Some ev → event_id ev = n.

Section iterative_order.
Context (k1 k2 : HashIter (string * string)) (i1 i2 : HashIter string).
Context (Lk1 : HashIterLaws (string * string) (H0 := k1)) (Lk2 : HashIterLaws (string * string) (H0 := k2)).
Context (L1 : HashIterLaws string (H0 := i1)) (L2 : HashIterLaws string (H0 := i2)).

Lemma fetch_auth_events_lookup `{!HashIter string, !HashIterLaws string} ids id ev :
  fetch_auth_events fetch_event ids !! id = Some ev ↔ id ∈ ids ∧ fetch_event id = Some ev.
Proof.
  unfold fetch_auth_events.
  assert (∀ ev, ev ∈ complete (omap fetch_event (iter_set ids))
                ↔ event_id ev ∈ ids ∧ fetch_event (event_id ev) = Some ev) as Hin.
  { intros e. rewrite complete_perm, list_elem_of_omap. setoid_rewrite iter_set_perm.
    setoid_rewrite elem_of_elements. split.
    - intros (n & Hn & He). by rewrite (coherent _ _ He).
    - intros [? ?]. eauto. }
  revert Hin. generalize (complete (omap fetch_event (iter_set ids))). intros l Hin.
  assert (∀ m : gmap EventId Pdu,
    foldl (fun m ev => <[event_id ev := ev]> m) m l !! id = Some ev
    ↔ (ev ∈ l ∧ event_id ev = id) ∨ ((∀ e, e ∈ l → event_id e ≠ id) ∧ m !! id = Some ev)) as Hfold.
  { assert (∀ e e', e ∈ l → e' ∈ l → event_id e = event_id e' → e = e') as Hinj.
    { intros e e' [_ He]%Hin [_ He']%Hin Heq. congruence. }
    clear Hin. induction l as [|e l IH]; intros m; simpl.
    { rewrite elem_of_nil. setoid_rewrite elem_of_nil. naive_solver. }
    rewrite IH. 2: { intros a b Ha Hb. apply Hinj; by right. }
    setoid_rewrite elem_of_cons. rewrite lookup_insert_Some. split.
    - intros [[Hl He]|[Hno [[<- <-]|[Hne Hm]]]]; [left; auto|left; auto|].
      right. split; [|done]. intros x [->|Hx]; [done|by apply Hno].
    - intros [[[->|Hl] <-]|[Hno Hm]].
      + destruct (decide (Exists (fun x => event_id x = event_id e) l)) as [Hex|Hex].
        * apply Exists_exists in Hex as (x & Hx & Heq). left. split; [|done].
          assert (x = e) as <-; [|done]. apply Hinj; [by right|by left|done].
        * right. split; [|by left]. intros x Hx Heq. apply Hex, Exists_exists. eauto.
      + left. auto.
      + right. split; [auto|]. right. split; [|done]. apply Hno. by left. }
  rewrite Hfold, Hin, lookup_empty. split.
  - intros [[[? ?] <-]|[_ ?]]; done.
  - intros [Hid Hev]. left. by rewrite (coherent _ _ Hev).
Qed.

Lemma check_events_order auth_evs events st :
  check_events (HashIter0 := k1) rv fetch_event auth_evs events st
  = check_events (HashIter0 := k2) rv fetch_event auth_evs events st.
Proof.
  revert st. induction events as [|ev events IH]; intros st; [done|]. simpl.
  assert (check_event (HashIter0 := k1) rv fetch_event auth_evs st ev
          = check_event (HashIter0 := k2) rv fetch_event auth_evs st ev) as -> by reflexivity.
  destruct (check_event _ _ _ _ _); [apply IH|done].
Qed.

Lemma iterative_order events st :
  iterative_auth_check (HashIter0 := k1) (HashIter1 := i1) rv fetch_event events st
  = iterative_auth_check (HashIter0 := k2) (HashIter1 := i2) rv fetch_event events st.
Proof.
  unfold iterative_auth_check. destruct (mapR _ _) as [evs|]; [|done]. simpl. cbv zeta.
  destruct (decide _); [done|]. rewrite check_events_order. f_equal. apply map_eq. intros id.
  apply option_eq. intros ev.
  by rewrite (fetch_auth_events_lookup (HashIter0 := i1)), (fetch_auth_events_lookup (HashIter0 := i2)).
Qed.
End iterative_order.

(** ** The parts on a store that holds every event that is named *)

Variable known : gset EventId.

(** Every known event is in the store with a readable sender's power level, and names
    only known events. *)
Record known_store : Prop := {
  ks_fetch n : n ∈ known → is_Some (fetch_event n);
  ks_closed n m : n ∈ known → auths fetch_event n m → m ∈ known;
  ks_level n : n ∈ known → ∃ pl, get_power_level_for_sender rv fetch_event n = Ok pl;
}.
Hypothesis store_known : known_store.
Variable rank : EventId → nat.
Hypothesis rank_lt : ∀ n m, auths fetch_event n m → rank m < rank n.

Lemma rank_bound : ∃ b, ∀ n, n ∈ known → rank n < b.
Proof.
  assert (∀ l : list EventId, ∃ b, ∀ n, n ∈ l → rank n < b) as Hl.
  { induction l as [|x l [b Hb]]; [exists 0; by intros n ?%elem_of_nil|].
    exists (S (rank x) `max` b). intros n [->|Hn%Hb]%elem_of_cons; lia. }
  destruct (Hl (elements known)) as [b Hb]. exists b. intros n Hn. by apply Hb, elem_of_elements.
Qed.

(** The levels of a list of known events. *)
Lemma event_levels_known keys :
  (∀ n, n ∈ keys → n ∈ known) →
  ∃ m, event_levels rv fetch_event keys = Ok m
    ∧ ∀ n pl, m !! n = Some pl ↔ n ∈ keys ∧ get_power_level_for_sender rv fetch_event n = Ok pl.
Proof.
  induction keys as [|x keys IH]; intros Hk; simpl.
  { exists ∅. split; [done|]. intros n pl. rewrite lookup_empty, elem_of_nil. naive_solver. }
  destruct IH as (m & -> & Hm); [intros; apply Hk; by right|]. simpl.
  destruct (ks_level store_known x) as [pl Hpl]; [apply Hk; by left|]. rewrite Hpl.
  eexists. split; [done|]. intros n pl'. rewrite lookup_insert_Some, Hm, elem_of_cons. split.
  - intros [[<- <-]|[_ [? ?]]]; [split; [by left|done]|split; [by right|done]].
  - intros [[->|Hin] Hn]; [left; split; [done|congruence]|].
    destruct (decide (x = n)) as [<-|]; [left; split; [done|congruence]|right; done].
Qed.

Section sort_order.
Variables (diff : gset EventId) (diff_known : diff ⊆ known).

Lemma auth_graph_known roots graph :
  (∀ r, roots r → r ∈ diff) → is_auth_graph fetch_event diff roots graph →
  ∀ n, n ∈ dom graph → n ∈ known.
Proof.
  intros Hroots Hg n [es [(r & Hr & Hn) _]%Hg]%elem_of_dom. apply diff_known.
  eapply reachable_in_diff; [exact Hn|by apply Hroots].
Qed.

(** The sorted power events, for every iteration order of the hash containers. *)
Lemma power_sort_known (control : gset EventId) :
  control ⊆ diff →
  ∃ sorted, (∀ n, n ∈ sorted → n ∈ known)
    ∧ ∀ (i : HashIter string) events, HashIterLaws string (H0 := i) →
        (∀ n, n ∈ events ↔ n ∈ control) → ∃ fuel0, ∀ fuel, fuel0 ≤ fuel →
        reverse_topological_power_sort (HashIter1 := i) rv fetch_event fuel events diff = Ok sorted.
Proof.
  intros Hcontrol.
  assert (∀ events, (∀ n, n ∈ events ↔ n ∈ control) →
    ∃ fuel0 graph, is_auth_graph fetch_event diff (.∈ control) graph ∧ ∀ fuel, fuel0 ≤ fuel →
      build_graph fetch_event fuel diff ∅ events = Ok graph) as Hbuild.
  { intros events Hev. destruct (build_graph_total fetch_event diff (fun _ => False) ∅ events)
      as (fuel0 & graph & Hg & Hb).
    { intros n es. rewrite lookup_empty. naive_solver. }
    exists fuel0, graph. split; [|done]. intros n es. rewrite (Hg n es).
    split; intros [(r & Hr & Hn) ->]; (split; [|done]); exists r; rewrite Hev in *; tauto. }
  destruct (Hbuild (elements control)) as (_ & graph & Hg & _).
  { intros n. apply elem_of_elements. }
  assert (∀ n, n ∈ dom graph → n ∈ known) as Hknown.
  { eapply auth_graph_known; [|exact Hg]. intros r Hr. by apply Hcontrol. }
  pose (key := fun n => (match get_power_level_for_sender rv fetch_event n with Ok pl => pl | _ => 0%Z end,
                         match fetch_event n with Some ev => Event.origin_server_ts ev | None => 0%Z end)).
  exists (reference_sort key graph). split.
  { intros n Hn%reference_grounded. destruct Hn as [n es Hes _]. apply Hknown. by apply elem_of_dom_2 in Hes. }
  intros i events Li Hev. destruct (Hbuild events Hev) as (fuel0 & graph' & Hg' & Hb).
  rewrite (is_auth_graph_unique _ _ _ _ _ Hg' Hg) in Hb. clear Hg'.
  exists fuel0. intros fuel Hfuel. unfold reverse_topological_power_sort. rewrite Hb by done. simpl.
  destruct (event_levels_known (iter_map graph).*1) as (m & -> & Hm).
  { intros n. rewrite iter_map_perm. intros ([n' es] & -> & Hin%elem_of_map_to_list)%list_elem_of_fmap.
    apply Hknown. by apply elem_of_dom_2 in Hin. }
  simpl. apply topological_sort_reference. intros n Hn. pose proof (Hknown n Hn) as Hkn.
  destruct (ks_fetch store_known n Hkn) as [ev Hfetch].
  destruct (ks_level store_known n Hkn) as [pl Hpl].
  assert (m !! n = Some pl) as Hmn.
  { apply Hm. split; [|done]. rewrite iter_map_perm. apply elem_of_dom in Hn as [es Hes].
    apply list_elem_of_fmap. exists (n, es). split; [done|]. by apply elem_of_map_to_list. }
  unfold sort_key, key. rewrite Hmn. simpl. rewrite Hfetch. simpl. by rewrite Hpl.
Qed.
End sort_order.

Lemma collect_mainline_stable f1 f2 p :
  (∀ q, p = Some q → rank q < f1 ∧ rank q < f2) →
  collect_mainline fetch_event f1 p = collect_mainline fetch_event f2 p.
Proof.
  revert f2 p. induction f1 as [|f1 IH]; intros f2 [p|] Hf.
  - destruct (Hf p eq_refl). lia.
  - by destruct f2.
  - destruct (Hf p eq_refl). destruct f2 as [|f2]; [lia|]. simpl. unfold ok_or_fail.
    destruct (fetch_event p) as [ev|] eqn:Hev; simpl; [|done]. pose proof (coherent _ _ Hev) as Hid.
    rewrite (find_power_levels_id_eq fetch_event coherent).
    destruct (find_power_levels fetch_event (auth_events ev)) as [[q|]|e] eqn:Hq; simpl; [| |done].
    + rewrite (IH f2); [done|]. intros ? [= <-].
      destruct (level_parent_rank fetch_event rank rank_lt coherent ev q) as [_ Hr];
        [by rewrite Hid|done|]. rewrite Hid in Hr. lia.
    + by destruct f1, f2.
  - by destruct f2.
Qed.

(** The mainline sort of a permuted list. *)
Lemma mainline_order (i1 i2 : HashIter string) f1 f2 l1 l2 pl :
  HashIterLaws string (H0 := i1) → HashIterLaws string (H0 := i2) →
  l1 ≡ₚ l2 → (∀ n, n ∈ l1 ∨ pl = Some n → rank n < f1 ∧ rank n < f2) →
  mainline_sort (HashIter1 := i1) fetch_event f1 l1 pl
  = mainline_sort (HashIter1 := i2) fetch_event f2 l2 pl.
Proof.
  intros Li1 Li2 Hp Hf. unfold mainline_sort.
  destruct (decide (l1 = [])) as [->|H1].
  { apply Permutation_nil_l in Hp as <-. by rewrite decide_True. }
  rewrite (decide_False (P := l2 = [])).
  2: { intros ->. by apply Permutation_nil_r in Hp. }
  rewrite (collect_mainline_stable f1 f2) by (intros; apply Hf; by right).
  destruct (collect_mainline _ _ _) as [ml|]; [|done]. simpl. cbv zeta.
  destruct (order_events_total fetch_event rank rank_lt coherent (mainline_positions ml) f1 l1)
    as (m1 & -> & Hm1).
  { intros n Hn. apply Hf. by left. }
  destruct (order_events_total fetch_event rank rank_lt coherent (mainline_positions ml) f2 l2)
    as (m2 & -> & Hm2).
  { intros n Hn. apply Hf. left. by rewrite Hp. }
  simpl. assert (m1 = m2) as ->.
  { apply map_eq. intros n. apply option_eq. intros k. by rewrite Hm1, Hm2, Hp. }
  do 2 f_equal. apply sort_proper.
  rewrite (iter_map_perm (HashIterLaws := Li1)), (iter_map_perm (HashIterLaws := Li2)). done.
Qed.

Lemma fuelled_mainline (i : HashIter string) fuel l pl :
  HashIterLaws string (H0 := i) → (∀ n, n ∈ l ∨ pl = Some n → rank n < fuel) →
  fuelled (mainline_sort (HashIter1 := i) fetch_event fuel l pl).
Proof.
  intros Li Hf. destruct (decide (l = [])) as [->|Hne]; [done|].
  destruct (mainline_sort_spec fetch_event rank rank_lt coherent fuel l pl)
    as [(ml & sorted & _ & -> & _)| ->]; try done.
  - intros n Hn. apply Hf. by left.
  - intros n Hn. apply Hf. by right.
Qed.
End order.

(** ** [resolve] *)

Section resolve_order.
Context `{!Ruma, !Scheduler, !SchedulerLaws _}.
Variables (rv : RoomVersionRules) (fetch_event : EventId → option Pdu) (event_exists : EventId → bool).
Variables (state_sets : list (StateMap EventId)) (auth_chain_sets : list (gset EventId)).
Variable known : gset EventId.

(** The inputs name known events only. *)
Record known_inputs : Prop := {
  ki_sets s k id : s ∈ state_sets → s !! k = Some id → id ∈ known;
  ki_chains s : s ∈ auth_chain_sets → s ⊆ known;
}.
Hypothesis coherent : ∀ n ev, fetch_event n = Some ev → event_id ev = n.
Hypothesis store_known : known_store rv fetch_event known.
Hypothesis inputs_known : known_inputs.
Variable rank : EventId → nat.
Hypothesis rank_lt : ∀ n m, auths fetch_event n m → rank m < rank n.

(** What [separate] returns, without the order of its lists. *)
Record separated (u : StateMap EventId) (c : StateMap (list EventId)) : Prop := {
  sp_unconflicted k id : u !! k = Some id ↔
    state_sets ≠ [] ∧ ∀ s, s ∈ state_sets → s !! k = Some id;
  sp_conflicted k id : id ∈ default [] (c !! k)
    ↔ (∃ s, s ∈ state_sets ∧ s !! k = Some id) ∧ (∃ s, s ∈ state_sets ∧ s !! k ≠ Some id);
  sp_nonempty k ids : c !! k = Some ids → ids ≠ [];
}.

Lemma separate_separated `{!HashIter (string * string), !HashIterLaws (string * string)}
    `{!HashIter string, !HashIterLaws string} u c :
  separate state_sets = (u, c) → separated u c.
Proof. intros Hs. pose proof (separate_spec state_sets) as H'. rewrite Hs in H'. by destruct H' as (?&?&?). Qed.

Definition conflicted_ids (c : StateMap (list EventId)) : gset EventId :=
  list_to_set (mjoin (map_to_list c).*2).

Lemma elem_of_conflicted_ids c id :
  id ∈ conflicted_ids c ↔ ∃ k, id ∈ default [] (c !! k).
Proof.
  unfold conflicted_ids. rewrite elem_of_list_to_set, list_elem_of_join. split.
  - intros (l & Hid & ([k l'] & -> & Hk%elem_of_map_to_list)%list_elem_of_fmap).
    exists k. by rewrite Hk.
  - intros [k Hid]. destruct (c !! k) as [l|] eqn:Hk; [|by apply elem_of_nil in Hid].
    exists l. split; [done|]. apply list_elem_of_fmap. exists (k, l). split; [done|].
    by apply elem_of_map_to_list.
Qed.

Lemma separated_unique u1 c1 u2 c2 :
  separated u1 c1 → separated u2 c2 →
  u1 = u2 ∧ conflicted_ids c1 = conflicted_ids c2 ∧ (c1 = ∅ ↔ c2 = ∅).
Proof.
  intros [Hu1 Hc1 Hn1] [Hu2 Hc2 Hn2].
  assert (∀ k id, id ∈ default [] (c1 !! k) ↔ id ∈ default [] (c2 !! k)) as Hc.
  { intros k id. by rewrite Hc1, Hc2. }
  split_and!.
  - apply map_eq. intros k. apply option_eq. intros id. by rewrite Hu1, Hu2.
  - apply set_eq. intros id. rewrite !elem_of_conflicted_ids. by setoid_rewrite Hc.
  - assert (∀ c c' : StateMap (list EventId),
      (∀ k id, id ∈ default [] (c !! k) ↔ id ∈ default [] (c' !! k)) →
      (∀ k ids, c' !! k = Some ids → ids ≠ []) → c = ∅ → c' = ∅) as Hempty.
    { intros c c' Heq Hne ->. apply map_eq. intros k. rewrite lookup_empty.
      destruct (c' !! k) as [ids|] eqn:Hk; [|done]. destruct ids as [|id ids]; [by destruct (Hne k [])|].
      specialize (Heq k id). rewrite Hk, lookup_empty in Heq.
      exfalso. apply (not_elem_of_nil id). apply Heq. by left. }
    split; intros He; [by eapply Hempty|]. eapply Hempty; [|done|exact He]. intros. by rewrite Hc.
Qed.

Lemma conflicted_known u c : separated u c → conflicted_ids c ⊆ known.
Proof.
  intros [_ Hc _] id [k Hid]%elem_of_conflicted_ids. apply Hc in Hid as [(s & Hs & Hk) _].
  by eapply (ki_sets inputs_known).
Qed.

Lemma path_known C e : C ⊆ known → on_conflict_path fetch_event C e → e ∈ known.
Proof.
  intros HC (c1 & c2 & Hc1 & _ & Hr & _). revert e Hr. apply rtc_ind_r; [by apply HC|].
  intros y z _ Hyz Hy. by eapply (ks_closed _ _ _ store_known).
Qed.

Variable store : gset EventId.
Hypothesis store_finite : finite_store fetch_event store.

(** The subgraph and the state the first authorisation starts from. *)
Lemma first_phase_total u c : separated u c →
  ∃ csg init, csg ⊆ known ∧ (init = ∅ ∨ init = u) ∧
    ∀ (k : HashIter (string * string)) (i : HashIter string) c',
      HashIterLaws (string * string) (H0 := k) → HashIterLaws string (H0 := i) → separated u c' →
      ∃ fuel0, ∀ fuel, fuel0 ≤ fuel →
        match state_res rv with
        | StateResV2 true =>
            csg ← calculate_conflicted_subgraph (HashIter0 := k) (HashIter1 := i) fetch_event fuel c';
            Ok (csg, ∅)
        | _ => Ok (∅, u)
        end = Ok (E := fault error) (csg, init).
Proof.
  intros Hs. destruct (state_res rv) as [|[]].
  1, 3: exists ∅, u; split; [set_solver|]; split; [by right|]; intros; by exists 0.
  pose proof (conflicted_subgraph_spec (HashIter0 := hash_iter_fwd _) (HashIter1 := hash_iter_fwd _)
    fetch_event store c (ex_intro _ rank rank_lt) store_finite) as (_ & csg & _ & Hcsg).
  exists csg, ∅. split; [|split; [by left|]].
  { intros e He%Hcsg. eapply path_known; [|exact He]. by eapply conflicted_known. }
  intros k i c' Lk Li Hs'.
  destruct (conflicted_subgraph_spec (HashIter0 := k) (HashIter1 := i) fetch_event store c'
    (ex_intro _ rank rank_lt) store_finite) as (fuel0 & R & HR & Hpath).
  exists fuel0. intros fuel Hfuel. rewrite HR by done. simpl. do 2 f_equal.
  destruct (separated_unique _ _ _ _ Hs Hs') as (_ & Hids & _). unfold conflicted_ids in Hids.
  apply set_eq. intros e. by rewrite Hcsg, Hpath, Hids.
Qed.

Lemma full_set_elem `{!HashIter (string * string), !HashIterLaws (string * string)}
    `{!HashIter string, !HashIterLaws string} c csg x :
  x ∈ full_conflicted_set event_exists c auth_chain_sets csg ↔
    (event_exists x = true
     ∧ ((∃ s, s ∈ auth_chain_sets ∧ x ∈ s) ∧ (∃ s, s ∈ auth_chain_sets ∧ x ∉ s)
        ∨ x ∈ conflicted_ids c)) ∨ x ∈ csg.
Proof.
  unfold full_conflicted_set. rewrite elem_of_union, elem_of_list_to_set, list_elem_of_filter, elem_of_app.
  destruct (auth_chain_diff_spec auth_chain_sets) as [_ Hdiff]. rewrite Hdiff.
  unfold conflicted_ids. rewrite elem_of_list_to_set, !list_elem_of_join.
  by setoid_rewrite iter_map_perm.
Qed.

Lemma values_known u c events st k id :
  separated u c → (∀ n, n ∈ events → n ∈ known) → ∀ init, init = ∅ ∨ init = u →
  iterative_auth_check (HashIter0 := hash_iter_fwd _) (HashIter1 := hash_iter_fwd _) rv fetch_event
    events init = Ok st →
  st !! k = Some id → id ∈ known.
Proof.
  intros Hs Hev init Hinit [_ Hk]%(iterative_auth_check_spec rv fetch_event) Hid.
  destruct (Hk k id Hid) as [Hin|(n & ev & Hn & Hfetch & <- & _)].
  - destruct Hinit as [->| ->]; [by rewrite lookup_empty in Hin|].
    apply (sp_unconflicted _ _ Hs) in Hin as [Hne Hall].
    destruct state_sets as [|s sets] eqn:Hsets; [done|].
    eapply (ki_sets inputs_known s); [rewrite Hsets; by left|apply Hall; by left].
  - rewrite (coherent _ _ Hfetch). by apply Hev.
Qed.

Lemma fuelled_insert_auth_events m aids auth_state : fuelled (insert_auth_events m aids auth_state).
Proof.
  revert auth_state. induction aids as [|a aids IH]; intros auth_state; [done|]. simpl.
  destruct (m !! a); [|apply IH]. apply fuelled_bind; [auto with fuel|]. intros key. apply IH.
Qed.

Lemma fuelled_iterative `{!HashIter (string * string), !HashIter string} events st :
  fuelled (iterative_auth_check rv fetch_event events st).
Proof.
  unfold iterative_auth_check. apply fuelled_bind; [repeat fuel_step|]. intros evs. cbv zeta.
  destruct (decide _); [done|]. generalize (complete evs). intros l.
  generalize (fetch_auth_events fetch_event (list_to_set (mjoin (auth_events <$> l)))). intros m. revert st.
  induction l as [|ev l IH]; intros st; [done|]. simpl. apply fuelled_bind; [|done].
  unfold check_event, auth_state_for, fetch_create_event.
  repeat (cbv zeta; first
    [apply fuelled_auth_check|apply fuelled_insert_auth_events|apply fuelled_room_id_or_hash|fuel_step]).
Qed.

(** [resolve] after the first phase, for one iteration order. *)
Lemma resolve_result : ∃ r, fuelled r ∧
  ∀ (k : HashIter (string * string)) (i : HashIter string),
    HashIterLaws (string * string) (H0 := k) → HashIterLaws string (H0 := i) →
    ∃ fuel0, ∀ fuel, fuel0 ≤ fuel →
      resolve (HashIter0 := k) (HashIter1 := i) rv fetch_event event_exists fuel state_sets
        auth_chain_sets = r.
Proof.
  destruct (separate (HashIter0 := hash_iter_fwd _) (HashIter1 := hash_iter_fwd _) state_sets)
    as [u c] eqn:Hsep.
  pose proof (separate_separated (HashIter0 := hash_iter_fwd _) (HashIter1 := hash_iter_fwd _) _ _ Hsep) as Hs.
  destruct (decide (c = ∅)) as [Hc|Hc].
  { exists (Ok u). split; [done|]. intros k i Lk Li. exists 0. intros fuel _. unfold resolve.
    destruct (separate (HashIter0 := k) (HashIter1 := i) state_sets) as [u' c'] eqn:Hsep'.
    pose proof (separate_separated (HashIter0 := k) (HashIter1 := i) _ _ Hsep') as Hs'.
    destruct (separated_unique _ _ _ _ Hs Hs') as (<- & _ & Hemp).
    by rewrite decide_True by (by apply Hemp). }
  destruct (first_phase_total u c Hs) as (csg & init & Hcsg & Hinit & Hphase).
  pose (full := full_conflicted_set (HashIter0 := hash_iter_fwd _) (HashIter1 := hash_iter_fwd _)
                  event_exists c auth_chain_sets csg).
  assert (full ⊆ known) as Hfull.
  { intros x [[_ [[(s & Hin & Hx) _]|Hx]]|Hx]%full_set_elem; [|by eapply conflicted_known|by apply Hcsg].
    by eapply (ki_chains inputs_known). }
  pose (control := filter (fun id => is_power_event_id fetch_event id = true) full).
  destruct (power_sort_known rv fetch_event known store_known full Hfull control)
    as (sorted & Hsorted & Hsort).
  { intros x Hx. by apply elem_of_filter in Hx as [_ ?]. }
  destruct (rank_bound known rank) as [b Hb].
  pose (r1 := iterative_auth_check (HashIter0 := hash_iter_fwd _) (HashIter1 := hash_iter_fwd _) rv
                fetch_event sorted init).
  pose (rest := filter (fun id => id ∉ (list_to_set sorted : gset EventId)) (elements full)).
  pose (r := resolved_control ← r1;
             sorted_left_events ←
               mainline_sort (HashIter1 := hash_iter_fwd _) fetch_event b rest
                 (resolved_control !! (RoomPowerLevels, ""));
             resolved_state ←
               iterative_auth_check (HashIter0 := hash_iter_fwd _) (HashIter1 := hash_iter_fwd _) rv
                 fetch_event sorted_left_events resolved_control;
             Ok (u ∪ resolved_state)).
  assert (∀ st n, r1 = Ok st → n ∈ rest ∨ st !! (RoomPowerLevels, "") = Some n → n ∈ known) as Hknown.
  { intros st n Hr1 [Hn|Hn]; [|by eapply (values_known u c sorted)].
    apply list_elem_of_filter in Hn as [_ Hn%elem_of_elements]. by apply Hfull. }
  exists r. split.
  { unfold r. destruct r1 as [st|e] eqn:Hr1; simpl.
    - apply fuelled_bind; [|intros l; apply fuelled_bind; [apply fuelled_iterative|done]].
      eapply fuelled_mainline; [done|done|by apply hash_iter_fwd_laws|]. intros n Hn. by eapply Hb, Hknown.
    - intros [= ->]. by apply (fuelled_iterative (HashIter0 := hash_iter_fwd _) (HashIter1 := hash_iter_fwd _) sorted init). }
  intros k i Lk Li.
  destruct (separate (HashIter0 := k) (HashIter1 := i) state_sets) as [u' c'] eqn:Hsep'.
  pose proof (separate_separated (HashIter0 := k) (HashIter1 := i) _ _ Hsep') as Hs'.
  destruct (separated_unique _ _ _ _ Hs Hs') as (<- & Hids & Hemp).
  destruct (Hphase k i c' Lk Li Hs') as [f1 Hf1].
  assert (full_conflicted_set (HashIter0 := k) (HashIter1 := i) event_exists c' auth_chain_sets csg = full)
    as Hset.
  { apply set_eq. intros x. unfold full. by rewrite !full_set_elem, Hids. }
  destruct (Hsort i (filter (fun id => is_power_event_id fetch_event id = true) (iter_set full)) Li)
    as [f2 Hf2].
  { intros n. unfold control. by rewrite list_elem_of_filter, elem_of_filter, iter_set_perm, elem_of_elements. }
  exists (f1 `max` f2 `max` b). intros fuel Hfuel. unfold resolve. rewrite Hsep'.
  rewrite decide_False by (by rewrite <-Hemp). rewrite Hf1 by lia. simpl. cbv zeta. rewrite Hset.
  rewrite Hf2 by lia. simpl. unfold r.
  rewrite (iterative_order rv fetch_event coherent k (hash_iter_fwd _) i (hash_iter_fwd _) _ _).
  fold r1. destruct r1 as [st|e] eqn:Hr1; [|done]. simpl.
  rewrite (mainline_order fetch_event coherent rank rank_lt i (hash_iter_fwd _) fuel b _ rest).
  2-3: done || apply hash_iter_fwd_laws.
  2: { unfold rest. by rewrite iter_set_perm. }
  2: { intros n Hn. assert (n ∈ known) as Hkn; [|specialize (Hb n Hkn); lia]. eapply Hknown; [done|].
       destruct Hn as [Hn|]; [left|by right]. unfold rest.
       rewrite list_elem_of_filter in Hn |- *. by rewrite iter_set_perm in Hn. }
  destruct (mainline_sort _ _ _ _) as [l|]; [|done]. simpl.
  by rewrite (iterative_order rv fetch_event coherent k (hash_iter_fwd _) i (hash_iter_fwd _) _ _).
Qed.
End resolve_order.

(** C3: State resolution is deterministic up to the order in which fetched events
    complete: on a finite, coherent store without cycles that holds every event the
    inputs name, with readable power levels, [resolve] terminates with one result for
    every iteration order of its hash maps and sets. *)
Theorem resolve_order_independent `{!Ruma, !Scheduler, !SchedulerLaws _}
    (rv : RoomVersionRules) (fetch_event : EventId → option Pdu) (event_exists : EventId → bool)
    (state_sets : list (StateMap EventId)) (auth_chain_sets : list (gset EventId))
    (known store : gset EventId) (rank : EventId → nat) :
  (∀ n ev, fetch_event n = Some ev → event_id ev = n) →
  known_store rv fetch_event known → known_inputs state_sets auth_chain_sets known →
  (∀ n m, auths fetch_event n m → rank m < rank n) → finite_store fetch_event store →
  ∃ r, r ≠ Err OutOfFuel ∧
    ∀ (k : HashIter (string * string)) (i : HashIter string),
      HashIterLaws (string * string) (H0 := k) → HashIterLaws string (H0 := i) →
      ∃ fuel0, ∀ fuel, fuel0 ≤ fuel →
        resolve (HashIter0 := k) (HashIter1 := i) rv fetch_event event_exists fuel state_sets
          auth_chain_sets = r.
Proof.
  intros Hcoh Hknown Hin Hrank Hstore.
  exact (resolve_result rv fetch_event event_exists state_sets auth_chain_sets known Hcoh Hknown Hin
           rank Hrank store Hstore).
Qed.

(** ** A concrete room *)

Lemma known_store_list `{!Scheduler} rv l :
  Forall (fun ev => Forall (fun a => a ∈ event_id <$> l) (auth_events ev)
            ∧ is_ok (get_power_level_for_sender rv (store_of l) (event_id ev)) = true) l →
  known_store rv (store_of l) (store_ids l).
Proof.
  intros Hl. rewrite Forall_forall in Hl.
  assert (∀ n, n ∈ store_ids l → ∃ ev, ev ∈ l ∧ event_id ev = n) as Hids.
  { intros n. unfold store_ids. rewrite elem_of_list_to_set, list_elem_of_fmap. naive_solver. }
  split.
  - intros n (ev & Hin & Hid)%Hids. unfold store_of. apply fmap_is_Some.
    apply list_find_elem_of with ev; done.
  - intros n m _ Hm. unfold auths, auth_edges in Hm.
    destruct (store_of l n) as [ev|] eqn:Hev; [|by apply elem_of_nil in Hm].
    apply store_of_Some in Hev as [Hin _]. destruct (Hl ev Hin) as [Ha _].
    unfold store_ids. apply elem_of_list_to_set. by apply (proj1 (Forall_forall _ _) Ha).
  - intros n (ev & Hin & <-)%Hids. destruct (Hl ev Hin) as [_ Hok].
    destruct (get_power_level_for_sender _ _ _) as [pl|]; [eauto|done].
Qed.

Module ResolveWitness.
#[local] Instance keys_fwd : HashIter (string * string) := hash_iter_fwd _.
#[local] Instance ids_bwd : HashIter string := hash_iter_bwd _.
#[local] Instance sched : Scheduler := in_order.

(** Alice sets up the room; then one fork has alice's topic, the other bob's name and
    topic. *)
Definition state_event (id : EventId) (ty : string) (who : UserId) (member : EventId) (ts : Z) : Pdu :=
  MainlineWitness.at_time ts
    (mk_event id ty who (Some "") JOther ["$create"; member; "$levels"]).
Definition events : list Pdu :=
  [ev_create; ev_member "$alice" alice Join; ev_levels; ev_rules JRPublic; ev_member "$bob" bob Join;
   state_event "$topic1" "m.room.topic" alice "$alice" 10;
   state_event "$topic2" "m.room.topic" bob "$bob" 20;
   state_event "$name" "m.room.name" bob "$bob" 5].
Definition base : StateMap EventId :=
  {[ (RoomCreate, "") := "$create"; (RoomMember, alice) := "$alice";
     (RoomPowerLevels, "") := "$levels"; (RoomJoinRules, "") := "$rules";
     (RoomMember, bob) := "$bob" ]}.
Definition fork1 : StateMap EventId := <[("m.room.topic", "") := "$topic1"]> base.
Definition fork2 : StateMap EventId :=
  <[("m.room.topic", "") := "$topic2"]> (<[("m.room.name", "") := "$name"]> base).
Definition chains : list (gset EventId) :=
  [{["$create"; "$alice"; "$levels"; "$rules"; "$bob"]};
   {["$create"; "$alice"; "$levels"; "$rules"; "$bob"]}].
Definition resolved : StateMap EventId :=
  <[("m.room.topic", "") := "$topic2"]> (<[("m.room.name", "") := "$name"]> base).

Example forks_resolve :
  resolve room_v11 (store_of events) (λ _, true) 20 [fork1; fork2] chains = Ok resolved.
Proof. apply (bool_decide_unpack _). vm_compute. exact I. Qed.

(** Fetches that complete in another order change the state: the topic that is checked
    last wins, and the checks follow the order of completion, not the sorted order. *)
Example completion_order_matters :
  iterative_auth_check (H0 := in_order) room_v11 (store_of events) ["$topic1"; "$topic2"] base
  = Ok (<[("m.room.topic", "") := "$topic2"]> base)
  ∧ iterative_auth_check (H0 := last_first) room_v11 (store_of events) ["$topic1"; "$topic2"] base
  = Ok (<[("m.room.topic", "") := "$topic1"]> base).
Proof. split; apply (bool_decide_unpack _); vm_compute; exact I. Qed.

Lemma store_coherent l n ev : store_of l n = Some ev → event_id ev = n.
Proof. by intros [_ ?]%store_of_Some. Qed.

Lemma inputs_known : known_inputs [fork1; fork2] chains (store_ids events).
Proof.
  split.
  - intros s k id Hs Hk.
    assert (Forall (fun s : StateMap EventId =>
      Forall (fun kv => kv.2 ∈ event_id <$> events) (map_to_list s)) [fork1; fork2]) as Hall.
    { apply (bool_decide_unpack _). vm_compute. exact I. }
    apply elem_of_map_to_list in Hk.
    pose proof (proj1 (Forall_forall _ _) Hall s Hs) as Hsk.
    apply (proj1 (Forall_forall _ _) Hsk) in Hk. unfold store_ids. by apply elem_of_list_to_set.
  - apply Forall_forall, (bool_decide_unpack _). vm_compute. exact I.
Qed.

Lemma iterative_auth_check_sound_witness :
  ∃ st', iterative_auth_check room_v11 (store_of events) ["$topic1"; "$name"] base = Ok st'
    ∧ ((∀ k, is_Some (base !! k) → is_Some (st' !! k))
       ∧ ∀ k id, st' !! k = Some id → base !! k = Some id
         ∨ ∃ n ev, n ∈ ["$topic1"; "$name"] ∧ store_of events n = Some ev ∧ event_id ev = id
             ∧ accepted room_v11 ev k).
Proof.
  exists (<[("m.room.name", "") := "$name"]> (<[("m.room.topic", "") := "$topic1"]> base)).
  assert (iterative_auth_check room_v11 (store_of events) ["$topic1"; "$name"] base
    = Ok (<[("m.room.name", "") := "$name"]> (<[("m.room.topic", "") := "$topic1"]> base))) as Hok.
  { apply (bool_decide_unpack _). vm_compute. exact I. }
  split; [exact Hok|].
  exact (iterative_auth_check_sound room_v11 (store_of events) ["$topic1"; "$name"] base _ Hok).
Defined.

Lemma resolve_sound_witness :
  (∀ k id, (separate [fork1; fork2]).1 !! k = Some id → resolved !! k = Some id)
  ∧ ∀ k id, resolved !! k = Some id → (separate [fork1; fork2]).1 !! k = Some id ∨
      ∃ s n ev, conflicted_set room_v11 (store_of events) (λ _, true) 20 [fork1; fork2] chains s
        ∧ n ∈ s ∧ store_of events n = Some ev ∧ event_id ev = id ∧ accepted room_v11 ev k.
Proof.
  apply (resolve_sound room_v11 (store_of events) (λ _, true) 20 [fork1; fork2] chains resolved).
  apply (bool_decide_unpack _). vm_compute. exact I.
Defined.

Lemma resolve_order_independent_witness :
  ∃ r, r ≠ Err OutOfFuel ∧
    ∀ (k : HashIter (string * string)) (i : HashIter string),
      HashIterLaws (string * string) (H0 := k) → HashIterLaws string (H0 := i) →
      ∃ fuel0, ∀ fuel, fuel0 ≤ fuel →
        resolve (HashIter0 := k) (HashIter1 := i) room_v12 (store_of events) (λ _, true) fuel
          [fork1; fork2] chains = r.
Proof.
  apply (resolve_order_independent room_v12 (store_of events) (λ _, true) [fork1; fork2] chains
    (store_ids events) (store_ids events) (store_rank events)).
  - apply store_coherent.
  - apply known_store_list, (bool_decide_unpack _). vm_compute. exact I.
  - exact inputs_known.
  - apply MainlineWitness.store_rank_lt, (bool_decide_unpack _). vm_compute. exact I.
  - apply store_is_finite.
Defined.
End ResolveWitness.
