(* ===== verification/Bytes.v ===== *)
(** Machine words and their big-endian bytes: unsigned and signed 64-bit arithmetic
    with Rust's [checked_], [saturating_] and [as] operations, and
    src/src/core/utils/bytes.rs.  A byte is a [Z] from 0 to 255. *)

From stdpp Require Import prelude.
From Stdlib Require Import ZArith Lia.
From S2P Require Import Prelude.
Local Open Scope Z_scope.

(** * Ranges *)

Definition u64_max : Z := 2 ^ 64 - 1.
Definition i64_max : Z := 2 ^ 63 - 1.
Definition i64_min : Z := - 2 ^ 63.
Definition is_u64 (n : Z) : Prop := 0 ≤ n ≤ u64_max.
Definition is_i64 (n : Z) : Prop := i64_min ≤ n ≤ i64_max.
#[export] Instance is_u64_dec n : Decision (is_u64 n).
Proof. unfold is_u64. apply _. Defined.
#[export] Instance is_i64_dec n : Decision (is_i64 n).
Proof. unfold is_i64. apply _. Defined.

(** Unfold the bounds, then linear arithmetic. *)
Ltac word := unfold is_u64, is_i64, u64_max, i64_max, i64_min in *; lia.

(** [n as u64] and [n as i64]. *)
Definition as_u64 (n : Z) : Z := n mod 2 ^ 64.
Definition as_i64 (n : Z) : Z :=
  let m := n mod 2 ^ 64 in if decide (m < 2 ^ 63) then m else m - 2 ^ 64.

(** [checked_add], [checked_sub] on u64 and i64. *)
Definition checked_u64 (n : Z) : option Z := if decide (is_u64 n) then Some n else None.
Definition checked_i64 (n : Z) : option Z := if decide (is_i64 n) then Some n else None.
(** [saturating_add], [saturating_sub]. *)
Definition saturating_u64 (n : Z) : Z := Z.max 0 (Z.min u64_max n).
Definition saturating_i64 (n : Z) : Z := Z.max i64_min (Z.min i64_max n).

Lemma as_u64_id n : is_u64 n → as_u64 n = n.
Proof. intros. unfold as_u64. apply Z.mod_small. word. Qed.

Lemma as_u64_is_u64 n : is_u64 (as_u64 n).
Proof. unfold as_u64. pose proof (Z.mod_pos_bound n (2 ^ 64)). word. Qed.

Lemma as_i64_is_i64 n : is_i64 (as_i64 n).
Proof.
  unfold as_i64. pose proof (Z.mod_pos_bound n (2 ^ 64)). cbv zeta. case_decide; word.
Qed.

Lemma as_i64_small n : 0 ≤ n ≤ i64_max → as_i64 n = n.
Proof.
  intros. unfold as_i64. rewrite Z.mod_small by word. cbv zeta. rewrite decide_True; word.
Qed.

Lemma as_i64_large n : 2 ^ 63 ≤ n ≤ u64_max → as_i64 n = n - 2 ^ 64.
Proof.
  intros. unfold as_i64. rewrite Z.mod_small by word. cbv zeta. rewrite decide_False; word.
Qed.

Lemma as_u64_neg n : i64_min ≤ n < 0 → as_u64 n = n + 2 ^ 64.
Proof.
  intros. unfold as_u64. rewrite <-(Z.mod_add _ 1) by lia. apply Z.mod_small. word.
Qed.

Lemma as_i64_as_u64 n : is_i64 n → as_i64 (as_u64 n) = n.
Proof.
  intros Hn. destruct (decide (0 ≤ n)).
  - rewrite as_u64_id, as_i64_small by word. done.
  - rewrite as_u64_neg, as_i64_large by word. lia.
Qed.

Lemma as_u64_as_i64 n : is_u64 n → as_u64 (as_i64 n) = n.
Proof.
  intros Hn. destruct (decide (n < 2 ^ 63)).
  - rewrite as_i64_small, as_u64_id by word. done.
  - rewrite as_i64_large, as_u64_neg by word. lia.
Qed.

(** * Big-endian bytes *)

Definition is_byte (b : Z) : Prop := 0 ≤ b < 256.

(** [to_be_bytes] of a word of [w] bytes. *)
Fixpoint to_be (w : nat) (n : Z) : list Z :=
  match w with
  | O => []
  | S w => (n / 256 ^ Z.of_nat w) mod 256 :: to_be w n
  end.

(** [from_be_bytes]. *)
Definition from_be (l : list Z) : Z := foldl (fun acc b => acc * 256 + b) 0 l.

(** @src src/src/core/utils/bytes.rs:53-55 u64_from_u8x8 *)
Definition u64_from_u8x8 (bytes : list Z) : Z := from_be bytes.

(** The slice must have length 8.
    @src src/src/core/utils/bytes.rs:49-51 u64_from_bytes *)
Definition u64_from_bytes (bytes : list Z) : option Z :=
  if decide (length bytes = 8%nat) then Some (u64_from_u8x8 bytes) else None.

(** @src src/src/core/utils/bytes.rs:44-47 u64_from_bytes_or_zero *)
Definition u64_from_bytes_or_zero (bytes : list Z) : Z := default 0 (u64_from_bytes bytes).

(** @src src/src/core/utils/bytes.rs:29-35 increment *)
Definition increment (old : option (list Z)) : list Z :=
  to_be 8 (as_u64 (match old with Some b => u64_from_bytes_or_zero b | None => 0 end + 1)).

Abbreviation u64_to_be n := (to_be 8 n).

Lemma to_be_length w n : length (to_be w n) = w.
Proof. induction w; simpl; congruence. Qed.

Lemma to_be_bytes w n : Forall is_byte (to_be w n).
Proof.
  induction w as [|w IH]; simpl; constructor; [|done].
  unfold is_byte. pose proof (Z.mod_pos_bound (n / 256 ^ Z.of_nat w) 256). lia.
Qed.

Lemma from_be_acc l acc : foldl (fun acc b => acc * 256 + b) acc l
  = acc * 256 ^ Z.of_nat (length l) + from_be l.
Proof.
  unfold from_be. revert acc. induction l as [|b l IH]; intros acc; [simpl; lia|].
  cbn [foldl length]. rewrite IH, (IH (0 * 256 + b)), Nat2Z.inj_succ, Z.pow_succ_r by lia. lia.
Qed.

Lemma from_be_cons b l : from_be (b :: l) = b * 256 ^ Z.of_nat (length l) + from_be l.
Proof. unfold from_be at 1. cbn [foldl]. rewrite from_be_acc. lia. Qed.

Lemma from_be_bound l : Forall is_byte l → 0 ≤ from_be l < 256 ^ Z.of_nat (length l).
Proof.
  induction 1 as [|b l Hb Hl IH]; [done|].
  rewrite from_be_cons. cbn [length]. rewrite Nat2Z.inj_succ, Z.pow_succ_r by lia.
  unfold is_byte in Hb. nia.
Qed.

Lemma from_be_to_be w n : from_be (to_be w n) = n mod 256 ^ Z.of_nat w.
Proof.
  induction w as [|w IH]; [by rewrite Z.mod_1_r|].
  cbn [to_be]. rewrite from_be_cons, to_be_length, IH, Nat2Z.inj_succ, Z.pow_succ_r by lia.
  set (p := 256 ^ Z.of_nat w). assert (0 < p) by (apply Z.pow_pos_nonneg; lia).
  rewrite (Z.mul_comm 256 p), Z.rem_mul_r by lia. lia.
Qed.

Lemma to_be_mod w n : to_be w (n mod 256 ^ Z.of_nat w) = to_be w n.
Proof.
  assert (∀ v, (v ≤ w)%nat → to_be v (n mod 256 ^ Z.of_nat w) = to_be v n) as Hv; [|by apply Hv].
  induction v as [|v IH]; intros Hle; [done|]. cbn [to_be]. rewrite IH by lia. f_equal.
  replace (Z.of_nat w) with (Z.of_nat v + Z.of_nat (w - v)) by lia.
  rewrite Z.pow_add_r by lia. set (p := 256 ^ Z.of_nat v).
  assert (0 < p) by (apply Z.pow_pos_nonneg; lia).
  rewrite Z.rem_mul_r by (try apply Z.pow_nonzero; lia).
  rewrite Z.add_comm, Z.mul_comm, Z.div_add_l, (Z.div_small (n mod p)), Z.add_0_r
    by (try apply Z.mod_pos_bound; lia).
  replace (Z.of_nat (w - v)) with (Z.succ (Z.of_nat (w - v - 1))) by lia.
  rewrite Z.pow_succ_r, Z.rem_mul_r by (try apply Z.pow_nonzero; lia).
  rewrite (Z.mul_comm 256), Z.mod_add, Z.mod_mod by lia. done.
Qed.

Lemma to_be_from_be l : Forall is_byte l → to_be (length l) (from_be l) = l.
Proof.
  induction 1 as [|b l Hb Hl IH]; [done|]. cbn [length to_be]. rewrite from_be_cons.
  pose proof (from_be_bound l Hl). set (p := 256 ^ Z.of_nat (length l)) in *.
  assert (0 < p) by (apply Z.pow_pos_nonneg; lia). unfold is_byte in Hb.
  rewrite Z.div_add_l, Z.div_small, Z.add_0_r, Z.mod_small by lia. f_equal.
  rewrite <-to_be_mod. fold p. rewrite Z.add_comm, Z.mod_add, Z.mod_small by lia. done.
Qed.

Lemma take_8_to_be n l : take 8 (u64_to_be n ++ l) = u64_to_be n.
Proof. by apply take_app_length'. Qed.

Lemma drop_8_to_be n l : drop 8 (u64_to_be n ++ l) = l.
Proof. by apply drop_app_length'. Qed.

Lemma u64_round_trip n : is_u64 n → u64_from_u8x8 (u64_to_be n) = n.
Proof.
  intros. unfold u64_from_u8x8. rewrite from_be_to_be. apply Z.mod_small. simpl. word.
Qed.

Lemma u64_to_be_inj n m : is_u64 n → is_u64 m → u64_to_be n = u64_to_be m → n = m.
Proof. intros Hn Hm Heq. by rewrite <-(u64_round_trip n), <-(u64_round_trip m), Heq. Qed.

Lemma u64_from_be_is_u64 l : Forall is_byte l → length l = 8%nat → is_u64 (from_be l).
Proof. intros Hl Hlen. pose proof (from_be_bound l Hl) as Hb. rewrite Hlen in Hb. simpl in Hb. word. Qed.

(** Bytewise order of big-endian words is numeric order. *)
Lemma list_cmp_app {A} `{OrdLaws A} (l k l' k' : list A) :
  length l = length k → list_cmp (l ++ l') (k ++ k') = cmp_then (list_cmp l k) (list_cmp l' k').
Proof.
  revert k. induction l as [|x l IH]; intros [|y k] Hlen; try done. simpl in *.
  rewrite IH by lia. by destruct (ord_cmp x y).
Qed.

Lemma to_be_cmp w n m : 0 ≤ n < 256 ^ Z.of_nat w → 0 ≤ m < 256 ^ Z.of_nat w →
  list_cmp (to_be w n) (to_be w m) = (n ?= m).
Proof.
  revert n m. induction w as [|w IH]; intros n m Hn Hm; cbn [to_be list_cmp].
  { simpl in *. symmetry. apply Z.compare_eq_iff. lia. }
  rewrite Nat2Z.inj_succ, Z.pow_succ_r in Hn, Hm by lia.
  set (p := 256 ^ Z.of_nat w) in *. assert (0 < p) by (apply Z.pow_pos_nonneg; lia).
  assert (n / p < 256) by (apply Z.div_lt_upper_bound; lia).
  assert (m / p < 256) by (apply Z.div_lt_upper_bound; lia).
  assert (0 ≤ n / p) by (apply Z.div_pos; lia). assert (0 ≤ m / p) by (apply Z.div_pos; lia).
  rewrite !(Z.mod_small _ 256) by lia. unfold ord_cmp, Z_ord.
  pose proof (Z.div_mod n p). pose proof (Z.div_mod m p).
  pose proof (Z.mod_pos_bound n p). pose proof (Z.mod_pos_bound m p).
  destruct (Z.compare_spec (n / p) (m / p)) as [Heq|Hlt|Hgt]; simpl.
  - rewrite <-(to_be_mod w n), <-(to_be_mod w m). fold p. rewrite IH by lia.
    destruct (Z.compare_spec (n mod p) (m mod p)); symmetry;
      [apply Z.compare_eq_iff|apply Z.compare_lt_iff|apply Z.compare_gt_iff]; nia.
  - symmetry. apply Z.compare_lt_iff. nia.
  - symmetry. apply Z.compare_gt_iff. nia.
Qed.

Lemma u64_be_cmp n m : is_u64 n → is_u64 m → list_cmp (u64_to_be n) (u64_to_be m) = (n ?= m).
Proof. intros. apply to_be_cmp; simpl; word. Qed.
