(* ===== verification/PduCount.v ===== *)
(** Timeline positions: [Count], and the identifiers of events in the timeline built
    from them ([Id], [RawId]).
    Sources: src/src/core/matrix/pdu/count.rs, raw_id.rs and id.rs.

    A u64 or i64 is a [Z] with its range as a predicate; a byte array is a list of
    bytes.  The [debug_assert] of [debug_assert_valid] is not modelled: it is compiled
    out of release builds, and [valid] states what it asserts. *)

From stdpp Require Import prelude strings.
From Stdlib Require Import ZArith Lia.
From Stdlib.Strings Require Import Ascii.
From S2P Require Import Prelude Bytes.
Local Open Scope Z_scope.

(** * [Count] *)

(** [Direction] of the client API. *)
Inductive Direction : Set := Forward | Backward.

(** @src src/src/core/matrix/pdu/count.rs:13-17 Count *)
Inductive Count : Set :=
| Normal (i : Z)
| Backfilled (i : Z).
#[export] Instance Count_eq_dec : EqDecision Count.
Proof. solve_decision. Defined.

Inductive count_error : Set := Arithmetic | InvalidParam.
#[export] Instance count_error_eq_dec : EqDecision count_error.
Proof. solve_decision. Defined.

(** @src src/src/core/matrix/pdu/count.rs:24-31 Count::from_signed *)
Definition from_signed (signed : Z) : Count :=
  if decide (signed ≤ 0) then Backfilled signed else Normal (as_u64 signed).

(** @src src/src/core/matrix/pdu/count.rs:20-22 Count::from_unsigned *)
Definition from_unsigned (unsigned : Z) : Count := from_signed (as_i64 unsigned).

(** @src src/src/core/matrix/pdu/count.rs:33-41 Count::into_unsigned *)
Definition into_unsigned (self : Count) : Z :=
  match self with Normal i => i | Backfilled i => as_u64 i end.

(** @src src/src/core/matrix/pdu/count.rs:43-51 Count::into_signed *)
Definition into_signed (self : Count) : Z :=
  match self with Normal i => as_i64 i | Backfilled i => i end.

(** @src src/src/core/matrix/pdu/count.rs:53-61 Count::into_normal *)
Definition into_normal (self : Count) : Count :=
  match self with Normal i => Normal i | Backfilled _ => Normal 0 end.

(** @src src/src/core/matrix/pdu/count.rs:71-83 Count::checked_add *)
Definition checked_add (self : Count) (add : Z) : result count_error Count :=
  match self with
  | Normal i => i ← ok_or Arithmetic (checked_u64 (i + add)); Ok (Normal i)
  | Backfilled i => i ← ok_or Arithmetic (checked_i64 (i + as_i64 add)); Ok (from_signed i)
  end.

(** @src src/src/core/matrix/pdu/count.rs:85-97 Count::checked_sub *)
Definition checked_sub (self : Count) (sub : Z) : result count_error Count :=
  match self with
  | Normal i => i ← ok_or Arithmetic (checked_u64 (i - sub)); Ok (Normal i)
  | Backfilled i => i ← ok_or Arithmetic (checked_i64 (i - as_i64 sub)); Ok (Backfilled i)
  end.

(** @src src/src/core/matrix/pdu/count.rs:63-69 Count::checked_inc *)
Definition checked_inc (self : Count) (dir : Direction) : result count_error Count :=
  match dir with Forward => checked_add self 1 | Backward => checked_sub self 1 end.

(** @src src/src/core/matrix/pdu/count.rs:108-115 Count::saturating_add *)
Definition saturating_add (self : Count) (add : Z) : Count :=
  match self with
  | Normal i => Normal (saturating_u64 (i + add))
  | Backfilled i => from_signed (saturating_i64 (i + as_i64 add))
  end.

(** @src src/src/core/matrix/pdu/count.rs:117-124 Count::saturating_sub *)
Definition saturating_sub (self : Count) (sub : Z) : Count :=
  match self with
  | Normal i => Normal (saturating_u64 (i - sub))
  | Backfilled i => Backfilled (saturating_i64 (i - as_i64 sub))
  end.

(** @src src/src/core/matrix/pdu/count.rs:99-106 Count::saturating_inc *)
Definition saturating_inc (self : Count) (dir : Direction) : Count :=
  match dir with Forward => saturating_add self 1 | Backward => saturating_sub self 1 end.

(** @src src/src/core/matrix/pdu/count.rs:126-128 Count::min *)
Definition count_min : Count := Backfilled i64_min.
(** @src src/src/core/matrix/pdu/count.rs:130-132 Count::max *)
Definition count_max : Count := Normal i64_max.

(** @src src/src/core/matrix/pdu/count.rs:197-203 Count::cmp *)
#[export] Instance Count_ord : Ord Count := fun self other =>
  Z.compare (into_signed self) (into_signed other).

(** ** Tokens *)

Definition is_digit (a : ascii) : bool :=
  let n := N_of_ascii a in (48 <=? n)%N && (n <=? 57)%N.
Definition digit_value (a : ascii) : Z := Z.of_N (N_of_ascii a) - 48.

(** The digits of a number, as an accumulating fold; [None] at a non-digit. *)
Fixpoint parse_digits (acc : Z) (s : string) : option Z :=
  match s with
  | EmptyString => Some acc
  | String a s => if is_digit a then parse_digits (acc * 10 + digit_value a) s else None
  end.

(** [str::parse::<i64>]: an optional sign and at least one digit, in range. *)
Definition parse_i64 (s : string) : option Z :=
  let unsigned (s : string) := match s with EmptyString => None | _ => parse_digits 0 s end in
  n ← match s with
      | String "-" s => Z.opp <$> unsigned s
      | String "+" s => unsigned s
      | _ => unsigned s
      end;
  checked_i64 n.

(** [str::split_once] on a character. *)
Fixpoint split_once (c : ascii) (s : string) : option (string * string) :=
  match s with
  | EmptyString => None
  | String a s =>
      if Ascii.eqb a c then Some (EmptyString, s)
      else '(l, r) ← split_once c s; Some (String a l, r)
  end.

(** @src src/src/core/matrix/pdu/count.rs:175-195 synapse_room_stream_position *)
Definition synapse_room_stream_position (token : string) : string :=
  let room_token := match split_once "_" token with Some (room_token, _) => room_token | None => token end in
  match room_token with
  | String "s" stream => stream
  | String "t" historic =>
      match split_once "-" historic with Some (_, stream) => stream | None => token end
  | String "m" multi_writer =>
      match split_once "~" multi_writer with Some (stream, _) => stream | None => multi_writer end
  | _ => token
  end.

(** @src src/src/core/matrix/pdu/count.rs:165-172 Count::from_str *)
Definition from_str (token : string) : result count_error Count :=
  let token := synapse_room_stream_position token in
  count ← ok_or InvalidParam (parse_i64 token);
  Ok (from_signed count).

(** The decimal digits of a number; [fuel] bounds their count. *)
Fixpoint decimal (fuel : nat) (n : Z) (rest : string) : string :=
  match fuel with
  | O => rest
  | S fuel =>
      let rest := String (ascii_of_N (Z.to_N (n mod 10 + 48))) rest in
      if decide (n < 10) then rest else decimal fuel (n / 10) rest
  end.

(** Integers as [Display] writes them; 20 digits are enough for 64 bits. *)
Definition show_int (n : Z) : string :=
  if decide (n < 0) then String "-" (decimal 20 (- n) "") else decimal 20 n "".

(** @src src/src/core/matrix/pdu/count.rs:142-150 Count::fmt *)
Definition count_to_string (self : Count) : string :=
  match self with Normal i => show_int i | Backfilled i => show_int i end.

(** * [Id] and [RawId] *)

(** @src src/src/core/matrix/pdu/id.rs:4-13 Id *)
Record Id := {
  shortroomid : Z;
  shorteventid : Count;
}.

(** The bytes of both constructors; the lengths are 16 and 24.
    @src src/src/core/matrix/pdu/raw_id.rs:5-19 RawId *)
Inductive RawId : Set :=
| RawNormal (raw : list Z)
| RawBackfilled (raw : list Z).

(** @src src/src/core/matrix/pdu/raw_id.rs:28-39 RawId::shortroomid *)
Definition raw_shortroomid (self : RawId) : list Z :=
  match self with RawNormal raw | RawBackfilled raw => take 8 raw end.

(** @src src/src/core/matrix/pdu/raw_id.rs:41-52 RawId::shorteventid *)
Definition raw_shorteventid (self : RawId) : list Z :=
  match self with
  | RawNormal raw => take 8 (drop 8 raw)
  | RawBackfilled raw => take 8 (drop 16 raw)
  end.

(** @src src/src/core/matrix/pdu/raw_id.rs:54-62 RawId::as_bytes *)
Definition as_bytes (self : RawId) : list Z :=
  match self with RawNormal raw => raw | RawBackfilled raw => raw end.

(** [None] is the panic of [unimplemented!].
    @src src/src/core/matrix/pdu/raw_id.rs:69-86 RawId::from *)
Definition raw_from_bytes (id : list Z) : option RawId :=
  if decide (length id = 16%nat) then Some (RawNormal (take 16 id))
  else if decide (length id = 24%nat) then Some (RawBackfilled (take 24 id))
  else None.

(** @src src/src/core/matrix/pdu/raw_id.rs:88-113 RawId::from *)
Definition raw_from_id (id : Id) : RawId :=
  match shorteventid id with
  | Normal shorteventid => RawNormal (u64_to_be (shortroomid id) ++ u64_to_be shorteventid)
  | Backfilled shorteventid =>
      RawBackfilled (u64_to_be (shortroomid id) ++ u64_to_be 0 ++ u64_to_be (as_u64 shorteventid))
  end.

(** @src src/src/core/matrix/pdu/id.rs:15-23 Id::from *)
Definition id_from_raw (raw : RawId) : Id :=
  {| shortroomid := u64_from_u8x8 (raw_shortroomid raw);
     shorteventid := from_unsigned (u64_from_u8x8 (raw_shorteventid raw)) |}.

(** @src src/src/core/matrix/pdu/raw_id.rs:21-26 RawId::pdu_count *)
Definition pdu_count (self : RawId) : Count := shorteventid (id_from_raw self).

(** * Lemmas *)

(** The counts [from_signed] builds: positive ones [Normal], the others [Backfilled]. *)
Definition canonical (c : Count) : Prop :=
  match c with Normal i => 0 < i ≤ i64_max | Backfilled i => i64_min ≤ i ≤ 0 end.
#[export] Instance canonical_dec c : Decision (canonical c).
Proof. destruct c; simpl; apply _. Defined.

Lemma from_signed_neg n : n ≤ 0 → from_signed n = Backfilled n.
Proof. intros. unfold from_signed. by rewrite decide_True. Qed.

Lemma from_signed_pos n : 0 < n ≤ i64_max → from_signed n = Normal n.
Proof.
  intros. unfold from_signed. rewrite decide_False by lia. by rewrite as_u64_id by word.
Qed.

Lemma from_signed_canonical n : is_i64 n → canonical (from_signed n).
Proof.
  intros. destruct (decide (n ≤ 0)).
  - rewrite from_signed_neg by done. simpl. word.
  - rewrite from_signed_pos by word. simpl. word.
Qed.

Lemma into_signed_canonical c : canonical c → is_i64 (into_signed c).
Proof. destruct c; simpl; intros; [rewrite as_i64_small by word|]; word. Qed.

Lemma from_into_signed c : canonical c → from_signed (into_signed c) = c.
Proof.
  destruct c; simpl; intros.
  - rewrite as_i64_small by word. by apply from_signed_pos.
  - apply from_signed_neg. lia.
Qed.

Lemma into_from_signed n : is_i64 n → into_signed (from_signed n) = n.
Proof.
  intros. destruct (decide (n ≤ 0)).
  - by rewrite from_signed_neg.
  - rewrite from_signed_pos by word. simpl. apply as_i64_small. word.
Qed.

Lemma into_unsigned_spec c : canonical c → into_unsigned c = as_u64 (into_signed c).
Proof.
  destruct c; simpl; intros; [|done]. rewrite as_i64_small by word. by rewrite as_u64_id by word.
Qed.

Lemma from_into_unsigned c : canonical c → from_unsigned (into_unsigned c) = c.
Proof.
  intros Hc. unfold from_unsigned. rewrite into_unsigned_spec, as_i64_as_u64 by
    auto using into_signed_canonical. by apply from_into_signed.
Qed.

Lemma into_from_unsigned n : is_u64 n → into_unsigned (from_unsigned n) = n.
Proof.
  intros Hn. unfold from_unsigned. pose proof (as_i64_is_i64 n).
  rewrite into_unsigned_spec by by apply from_signed_canonical.
  rewrite into_from_signed by done. by apply as_u64_as_i64.
Qed.

(** The order of counts is that of the integers they stand for. *)
Lemma Count_ord_canonical c d : canonical c → canonical d →
  (ord_cmp c d = Eq ↔ c = d).
Proof.
  intros Hc Hd. unfold ord_cmp, Count_ord. rewrite Z.compare_eq_iff. split; [|by intros ->].
  intros Heq. by rewrite <-(from_into_signed c), <-(from_into_signed d), Heq.
Qed.

(** ** Arithmetic *)

Lemma checked_add_spec c add : canonical c → 0 ≤ add ≤ i64_max →
  into_signed c + add ≤ i64_max → checked_add c add = Ok (from_signed (into_signed c + add)).
Proof.
  destruct c as [i|i]; simpl; intros Hc Hadd Hsum.
  - rewrite as_i64_small in * by word. unfold checked_u64. rewrite decide_True by word. simpl.
    by rewrite from_signed_pos by word.
  - rewrite as_i64_small by word. unfold checked_i64. by rewrite decide_True by word.
Qed.

(** The least value the side of the timeline [c] is on can hold. *)
Definition side_floor (c : Count) : Z :=
  match c with Normal _ => 0 | Backfilled _ => i64_min end.

Lemma checked_sub_spec c sub : canonical c → 0 ≤ sub ≤ i64_max →
  match checked_sub c sub with
  | Ok d => side_floor c ≤ into_signed c - sub ∧ into_signed d = into_signed c - sub
  | Err e => e = Arithmetic ∧ into_signed c - sub < side_floor c
  end.
Proof.
  destruct c as [i|i]; simpl; intros Hc Hs.
  - rewrite as_i64_small by word. unfold checked_u64.
    goal_decide as H; simpl; [rewrite as_i64_small by word|]; split; word || done.
  - rewrite (as_i64_small sub) by word. unfold checked_i64.
    goal_decide as H; simpl; split; word || done.
Qed.

(** ** Raw identifiers *)

Definition valid_id (id : Id) : Prop := is_u64 (shortroomid id) ∧ canonical (shorteventid id).
#[export] Instance valid_id_dec id : Decision (valid_id id).
Proof. unfold valid_id. apply _. Defined.

Lemma raw_shortroomid_spec id : raw_shortroomid (raw_from_id id) = u64_to_be (shortroomid id).
Proof. unfold raw_from_id. destruct (shorteventid id); apply take_8_to_be. Qed.

Lemma raw_shorteventid_spec id : canonical (shorteventid id) →
  raw_shorteventid (raw_from_id id) = u64_to_be (into_unsigned (shorteventid id)).
Proof.
  unfold raw_from_id. destruct (shorteventid id) as [i|i]; unfold raw_shorteventid; intros Hc.
  - by rewrite drop_8_to_be.
  - change 16%nat with (8 + 8)%nat. by rewrite <-drop_drop, !drop_8_to_be.
Qed.

Lemma into_unsigned_is_u64 c : canonical c → is_u64 (into_unsigned c).
Proof. intros. rewrite into_unsigned_spec by done. apply as_u64_is_u64. Qed.

Lemma id_from_raw_from_id id : valid_id id → id_from_raw (raw_from_id id) = id.
Proof.
  intros [Hr Hc]. unfold id_from_raw. rewrite raw_shortroomid_spec, raw_shorteventid_spec by done.
  rewrite !u64_round_trip by auto using into_unsigned_is_u64.
  rewrite from_into_unsigned by done. by destruct id.
Qed.

Lemma raw_from_bytes_as_bytes id : raw_from_bytes (as_bytes (raw_from_id id)) = Some (raw_from_id id).
Proof. unfold raw_from_id. by destruct (shorteventid id). Qed.

(** How the timeline keys of two counts of one room compare. *)
Lemma raw_key_cmp c d :
  canonical c → canonical d → c ≠ Backfilled 0 → d ≠ Backfilled 0 → ∀ room, is_u64 room →
  list_cmp (as_bytes (raw_from_id {| shortroomid := room; shorteventid := c |}))
           (as_bytes (raw_from_id {| shortroomid := room; shorteventid := d |})) = ord_cmp c d.
Proof.
  intros Hc Hd Hc0 Hd0 room Hroom. unfold ord_cmp, Count_ord, raw_from_id. cbn [shortroomid shorteventid].
  destruct c as [i|i], d as [j|j]; cbn [as_bytes canonical into_signed] in *;
    rewrite list_cmp_app, u64_be_cmp, Z.compare_refl by done || word; cbn [cmp_then].
  - rewrite u64_be_cmp, !as_i64_small by word. done.
  - rewrite <-(app_nil_r (u64_to_be i)), list_cmp_app, u64_be_cmp, as_i64_small by done || word.
    assert (i ?= 0 = Gt) as -> by (apply Z.compare_gt_iff; word).
    symmetry. apply Z.compare_gt_iff. word.
  - rewrite <-(app_nil_r (u64_to_be j)), list_cmp_app, u64_be_cmp, as_i64_small by done || word.
    assert (0 ?= j = Lt) as -> by (apply Z.compare_lt_iff; word).
    symmetry. apply Z.compare_lt_iff. word.
  - assert (i ≠ 0) by congruence. assert (j ≠ 0) by congruence.
    rewrite list_cmp_app, u64_be_cmp, Z.compare_refl by done || word. cbn [cmp_then].
    rewrite u64_be_cmp by apply as_u64_is_u64. rewrite !as_u64_neg by word.
    destruct (Z.compare_spec i j); [subst; apply Z.compare_refl|..];
      [apply Z.compare_lt_iff|apply Z.compare_gt_iff]; lia.
Qed.

(** Keys of different rooms compare as the rooms' numbers. *)
Lemma raw_room_cmp a b : is_u64 (shortroomid a) → is_u64 (shortroomid b) → shortroomid a ≠ shortroomid b →
  list_cmp (as_bytes (raw_from_id a)) (as_bytes (raw_from_id b)) = (shortroomid a ?= shortroomid b).
Proof.
  intros Ha Hb Hne. assert (∀ i, ∃ l, as_bytes (raw_from_id i) = u64_to_be (shortroomid i) ++ l) as Hp.
  { intros i. unfold raw_from_id. destruct (shorteventid i); by eexists. }
  destruct (Hp a) as [la ->], (Hp b) as [lb ->].
  rewrite list_cmp_app, u64_be_cmp by done.
  destruct (Z.compare_spec (shortroomid a) (shortroomid b)); done.
Qed.

(** ** Tokens *)

Fixpoint string_forall (P : ascii → bool) (s : string) : bool :=
  match s with EmptyString => true | String a s => P a && string_forall P s end.
Definition lacks (c : ascii) : string → bool := string_forall (fun a => negb (Ascii.eqb a c)).

Lemma string_forall_impl (P Q : ascii → bool) s :
  (∀ a, P a → Q a) → string_forall P s → string_forall Q s.
Proof. intros HPQ. induction s as [|a s IH]; simpl; [done|]. rewrite !andb_True. naive_solver. Qed.

Lemma lacks_cons c a s : lacks c (String a s) = negb (Ascii.eqb a c) && lacks c s.
Proof. done. Qed.

Lemma lacks_app c s t : lacks c (s +:+ t) = lacks c s && lacks c t.
Proof. unfold lacks. induction s as [|a s IH]; simpl; [done|]. by rewrite IH, andb_assoc. Qed.

Lemma string_app_assoc s t u : (s +:+ t) +:+ u = s +:+ t +:+ u.
Proof. induction s as [|a s IH]; [done|]. exact (f_equal (String a) IH). Qed.

Lemma string_cons a s : String a "" +:+ s = String a s.
Proof. done. Qed.

Lemma split_once_lacks c s : lacks c s → split_once c s = None.
Proof.
  induction s as [|a s IH]; [done|]. rewrite lacks_cons, andb_True, negb_True. simpl. intros [Ha Hs].
  destruct (Ascii.eqb a c); [done|]. by rewrite IH.
Qed.

Lemma split_once_app c s r : lacks c s → split_once c (s +:+ String c r) = Some (s, r).
Proof.
  induction s as [|a s IH]; [simpl; by rewrite Ascii.eqb_refl|].
  rewrite lacks_cons, andb_True, negb_True. simpl. intros [Ha Hs]. destruct (Ascii.eqb a c); [done|]. by rewrite IH.
Qed.

Lemma digit_char n : 0 ≤ n < 10 →
  is_digit (ascii_of_N (Z.to_N (n + 48))) ∧ digit_value (ascii_of_N (Z.to_N (n + 48))) = n.
Proof.
  intros Hn. unfold is_digit, digit_value. rewrite N_ascii_embedding by lia. split; [|lia].
  apply Is_true_true, andb_true_intro. split; apply N.leb_le; lia.
Qed.

Lemma parse_decimal fuel n rest : (0 < fuel)%nat → 0 ≤ n < 10 ^ Z.of_nat fuel →
  parse_digits 0 (decimal fuel n rest) = parse_digits n rest.
Proof.
  revert n rest. induction fuel as [|fuel IH]; intros n rest Hf Hn; [lia|].
  rewrite Nat2Z.inj_succ, Z.pow_succ_r in Hn by lia. cbn [decimal]. cbv zeta.
  destruct (digit_char (n mod 10)) as [Hd Hv]; [apply Z.mod_pos_bound; lia|].
  case_decide as Hs.
  - cbn [parse_digits]. apply Is_true_true in Hd. rewrite Hd, Hv, Z.mod_small by lia. done.
  - destruct fuel as [|fuel']; [simpl in Hn; lia|].
    rewrite IH; [|lia|split; [apply Z.div_pos; lia|apply Z.div_lt_upper_bound; lia]].
    cbn [parse_digits]. apply Is_true_true in Hd. rewrite Hd, Hv. f_equal.
    pose proof (Z.div_mod n 10). lia.
Qed.

Lemma decimal_digits fuel n rest : 0 ≤ n → string_forall is_digit rest →
  string_forall is_digit (decimal fuel n rest).
Proof.
  revert n rest. induction fuel as [|fuel IH]; intros n rest Hn Hr; [done|].
  cbn [decimal]. cbv zeta. assert (string_forall is_digit
    (String (ascii_of_N (Z.to_N (n mod 10 + 48))) rest)) as Hr'.
  { simpl. apply andb_True. split; [apply digit_char, Z.mod_pos_bound; lia|done]. }
  case_decide; [done|]. apply IH; [apply Z.div_pos; lia|done].
Qed.

Lemma decimal_cons fuel n rest : ∃ a s, decimal (S fuel) n rest = String a s.
Proof.
  revert n rest. induction fuel as [|fuel IH]; intros n rest; cbn [decimal]; cbv zeta;
    case_decide; eauto.
Qed.

(** What [show_int] writes: an optional minus and a non-empty run of digits. *)
Lemma show_int_shape n : is_i64 n → ∃ a s, string_forall is_digit (String a s) ∧
  parse_digits 0 (String a s) = Some (Z.abs n) ∧
  show_int n = if decide (n < 0) then String "-" (String a s) else String a s.
Proof.
  intros Hn. unfold show_int.
  assert (show_int n = if decide (n < 0) then String "-" (decimal 20 (Z.abs n) "")
    else decimal 20 (Z.abs n) "") as Hs.
  { unfold show_int. case_decide; [by rewrite Z.abs_neq by lia|by rewrite Z.abs_eq by lia]. }
  unfold show_int in Hs. rewrite Hs. clear Hs.
  assert (parse_digits 0 (decimal 20 (Z.abs n) "") = Some (Z.abs n)) as Hp.
  { rewrite parse_decimal; [done|lia|]. split; [lia|]. simpl. word. }
  assert (string_forall is_digit (decimal 20 (Z.abs n) "")) as Hd by (apply decimal_digits; [lia|done]).
  destruct (decimal_cons 19 (Z.abs n) "") as (a & s & Heq). rewrite Heq in *. by exists a, s.
Qed.

Lemma parse_i64_digit a s : is_digit a → parse_i64 (String a s) =
  (n ← parse_digits 0 (String a s); checked_i64 n).
Proof. destruct a as [[] [] [] [] [] [] [] []]; done. Qed.

Lemma parse_show n : is_i64 n → parse_i64 (show_int n) = Some n.
Proof.
  intros Hn. destruct (show_int_shape n Hn) as (a & s & Hd & Hp & ->).
  assert (checked_i64 n = Some n) as Hc by (unfold checked_i64; by rewrite decide_True).
  case_decide.
  - unfold parse_i64. rewrite Hp. simpl. rewrite <-Hc. f_equal. lia.
  - simpl in Hd. apply andb_True in Hd as [Ha Hd]. rewrite parse_i64_digit by done.
    rewrite Hp. simpl. rewrite <-Hc. f_equal. lia.
Qed.

(** The characters of a number: none is a separator or a prefix letter of a token. *)
Definition numeral_char (a : ascii) : bool := is_digit a || Ascii.eqb a "-".

Lemma show_int_chars n : is_i64 n → string_forall numeral_char (show_int n).
Proof.
  intros Hn. destruct (show_int_shape n Hn) as (a & s & Hd & _ & ->).
  eapply (string_forall_impl _ numeral_char) in Hd;
    [|intros b Hb; unfold numeral_char; by apply orb_True; left].
  case_decide; [|done]. cbn [string_forall]. apply andb_True. split; [done|exact Hd].
Qed.

Lemma numeral_lacks c s : ¬ numeral_char c → string_forall numeral_char s → lacks c s.
Proof.
  intros Hc. apply string_forall_impl. intros a Ha. apply negb_True.
  destruct (Ascii.eqb_spec a c); [by subst|by intros []].
Qed.

Lemma stream_position_numeral n : is_i64 n → synapse_room_stream_position (show_int n) = show_int n.
Proof.
  intros Hn. unfold synapse_room_stream_position.
  rewrite split_once_lacks by (apply numeral_lacks; [by intros []|by apply show_int_chars]).
  pose proof (show_int_chars n Hn) as Hd. destruct (show_int n) as [|a s]; [done|].
  simpl in Hd. apply andb_True in Hd as [Ha _].
  destruct a as [[] [] [] [] [] [] [] []]; done.
Qed.

Lemma from_str_show c token : canonical c →
  synapse_room_stream_position token = count_to_string c → from_str token = Ok c.
Proof.
  intros Hc Htok. unfold from_str. cbv zeta. rewrite Htok.
  assert (count_to_string c = show_int (into_signed c)) as ->.
  { destruct c; simpl; [|done]. simpl in Hc. by rewrite as_i64_small by word. }
  rewrite parse_show by by apply into_signed_canonical. simpl. by rewrite from_into_signed.
Qed.

Lemma count_string_signed c : canonical c → count_to_string c = show_int (into_signed c).
Proof. destruct c; simpl; intros; [by rewrite as_i64_small by word|done]. Qed.


(** * Properties *)

(** The counts that [from_signed] builds and the 64-bit integers, signed or unsigned,
    are in bijection: [into_signed]/[from_signed] and [into_unsigned]/[from_unsigned] undo
    each other both ways, so no timeline position is lost between its three forms. *)
Theorem count_round_trip (c : Count) (n m : Z) (Hc : canonical c) (Hn : is_i64 n) (Hm : is_u64 m) :
  from_signed (into_signed c) = c ∧ from_unsigned (into_unsigned c) = c ∧
  into_signed (from_signed n) = n ∧ into_unsigned (from_unsigned m) = m ∧
  canonical (from_signed n) ∧ canonical (from_unsigned m).
Proof.
  split_and!; auto using from_into_signed, from_into_unsigned, into_from_signed,
    into_from_unsigned, from_signed_canonical. apply from_signed_canonical, as_i64_is_i64.
Qed.

(** Counts move along one integer axis.  Adding steps forward by exactly the amount,
    across zero from the backfilled to the normal side; subtracting steps back by exactly
    the amount, and is an arithmetic error exactly when the position would leave the
    side of the timeline the count is on (below 0 for a normal count, below the least i64 for
    a backfilled one). *)
Theorem checked_arithmetic_correct (c : Count) (n : Z) (Hc : canonical c) (Hn : 0 ≤ n ≤ i64_max) :
  (into_signed c + n ≤ i64_max →
     ∃ d, checked_add c n = Ok d ∧ canonical d ∧ into_signed d = into_signed c + n) ∧
  match checked_sub c n with
  | Ok d => side_floor c ≤ into_signed c - n ∧ into_signed d = into_signed c - n
  | Err e => e = Arithmetic ∧ into_signed c - n < side_floor c
  end.
Proof.
  split; [|by apply checked_sub_spec]. intros Hsum.
  pose proof (into_signed_canonical c Hc). eexists. split; [by apply checked_add_spec|].
  rewrite into_from_signed by word. split; [apply from_signed_canonical; word|done].
Qed.

(** The database key of an event decodes to the event's identifier, and a slice read
    from the database as a key is the key that was written. *)
Theorem raw_id_round_trip (id : Id) (Hid : valid_id id) :
  id_from_raw (raw_from_id id) = id ∧ pdu_count (raw_from_id id) = shorteventid id ∧
  raw_from_bytes (as_bytes (raw_from_id id)) = Some (raw_from_id id).
Proof.
  unfold pdu_count. rewrite id_from_raw_from_id by done. auto using raw_from_bytes_as_bytes.
Qed.

(** The bytewise order of the timeline keys, in which the database iterates, is the
    order of the timeline: within a room keys compare as their counts do, all backfilled
    positions before all normal ones, and the keys of one room are never between keys of another.
    The position [Backfilled 0] is excepted: its key sorts first among the backfilled
    ones. *)
Theorem raw_id_order (a b : Id) (Ha : valid_id a) (Hb : valid_id b)
    (Ha0 : shorteventid a ≠ Backfilled 0) (Hb0 : shorteventid b ≠ Backfilled 0) :
  list_cmp (as_bytes (raw_from_id a)) (as_bytes (raw_from_id b))
  = cmp_then (shortroomid a ?= shortroomid b) (ord_cmp (shorteventid a) (shorteventid b)).
Proof.
  destruct a as [r c], b as [r' d], Ha as [Hr Hc], Hb as [Hr' Hd]. simpl in *.
  destruct (decide (r = r')) as [<-|Hne].
  - rewrite Z.compare_refl. simpl. by apply raw_key_cmp.
  - rewrite raw_room_cmp by done. simpl. by destruct (Z.compare_spec r r').
Qed.

(** A pagination token is read back as the position it was written for, and so are
    the Synapse tokens that carry the same position: [s] live tokens, [t] historic tokens after the
    topological part, [m] multi-writer tokens up to the writer map, each with or
    without further [_]-separated streams. *)
Theorem token_round_trip (c : Count) (topological writers rest : string) (Hc : canonical c)
    (Ht : lacks "-" topological) (Ht' : lacks "_" topological) (Hw : lacks "_" writers) :
  let pos := count_to_string c in
  from_str pos = Ok c ∧
  from_str ("s" +:+ pos) = Ok c ∧
  from_str ("s" +:+ pos +:+ "_" +:+ rest) = Ok c ∧
  from_str ("t" +:+ topological +:+ "-" +:+ pos) = Ok c ∧
  from_str ("m" +:+ pos +:+ "~" +:+ writers +:+ "_" +:+ rest) = Ok c.
Proof.
  intros pos. assert (∀ c, ¬ numeral_char c → lacks c pos) as Hpos.
  { intros a Ha. unfold pos. rewrite count_string_signed by done. apply numeral_lacks; [done|].
    by apply show_int_chars, into_signed_canonical. }
  pose proof (Hpos "_"%char ltac:(by intros [])) as Hu.
  pose proof (Hpos "~"%char ltac:(by intros [])) as Hm.
  split_and!; apply from_str_show; try done; fold pos; unfold synapse_room_stream_position.
  - change (synapse_room_stream_position pos = pos). unfold pos. rewrite count_string_signed by done.
    by apply stream_position_numeral, into_signed_canonical.
  - by rewrite split_once_lacks by (rewrite lacks_app; by apply andb_True).
  - rewrite <-(string_app_assoc "s" pos), (string_cons "_").
    by rewrite split_once_app by (rewrite lacks_app; by apply andb_True).
  - rewrite split_once_lacks by (rewrite !lacks_app; repeat (apply andb_True; split); done).
    rewrite !string_cons. by rewrite split_once_app.
  - rewrite <-!string_app_assoc, (string_app_assoc _ "_"), (string_cons "_").
    rewrite split_once_app by (rewrite !lacks_app; repeat (apply andb_True; split); done).
    rewrite !string_app_assoc, !string_cons. by rewrite split_once_app.
Qed.

(** * Concrete counts *)
Module CountWitness.

Lemma count_round_trip_witness :
  from_signed (into_signed (Backfilled (-7))) = Backfilled (-7) ∧
  into_unsigned (from_unsigned (2 ^ 63 + 1)) = 2 ^ 63 + 1.
Proof.
  pose proof (count_round_trip (Backfilled (-7)) 0 (2 ^ 63 + 1) ltac:(simpl; word) ltac:(word)
    ltac:(word)) as (Hs & _ & _ & Hu & _). exact (conj Hs Hu).
Defined.

Lemma checked_arithmetic_correct_witness :
  (∃ d, checked_add (Backfilled (-2)) 5 = Ok d ∧ into_signed d = 3) ∧
  checked_sub (Backfilled (-2)) 5 = Ok (Backfilled (-7)).
Proof.
  pose proof (checked_arithmetic_correct (Backfilled (-2)) 5 ltac:(simpl; word) ltac:(word)) as [H _].
  split; [|reflexivity]. destruct (H ltac:(simpl; word)) as (d & Hd & _ & Hs). by exists d.
Defined.

Example normal_does_not_go_back_past_zero : checked_sub (Normal 2) 5 = Err Arithmetic.
Proof. reflexivity. Qed.

(** An addition above the signed range wraps on the backfilled side. *)
Example backfilled_add_wraps : checked_add (Backfilled (-1)) u64_max = Ok (Backfilled (-2)).
Proof. reflexivity. Qed.

(** The default count is equal in order to [Backfilled 0] and different from it. *)
Example zero_counts : ord_cmp (Normal 0) (Backfilled 0) = Eq ∧ Normal 0 ≠ Backfilled 0.
Proof. split; [reflexivity|discriminate]. Qed.

Definition sample_id : Id := {| shortroomid := 3; shorteventid := Backfilled (-7) |}.

Lemma raw_id_round_trip_witness :
  id_from_raw (raw_from_id sample_id) = sample_id ∧ length (as_bytes (raw_from_id sample_id)) = 24%nat.
Proof.
  split; [|reflexivity]. apply (raw_id_round_trip sample_id). unfold valid_id. simpl. split; word.
Defined.

Lemma raw_id_order_witness :
  list_cmp (as_bytes (raw_from_id sample_id))
    (as_bytes (raw_from_id {| shortroomid := 3; shorteventid := Normal 1 |})) = Lt.
Proof.
  rewrite (raw_id_order sample_id {| shortroomid := 3; shorteventid := Normal 1 |}).
  - reflexivity.
  - unfold valid_id. simpl. split; word.
  - unfold valid_id. simpl. split; word.
  - discriminate.
  - discriminate.
Defined.

(** The excepted position: -1 is before 0 on the timeline and its key after that of 0. *)
Example backfilled_zero_key :
  let key c := as_bytes (raw_from_id {| shortroomid := 3; shorteventid := c |}) in
  ord_cmp (Backfilled (-1)) (Backfilled 0) = Lt ∧
  list_cmp (key (Backfilled (-1))) (key (Backfilled 0)) = Gt.
Proof. split; reflexivity. Qed.

Lemma token_round_trip_witness :
  from_str "s42_7_1" = Ok (Normal 42) ∧ from_str "t9-42" = Ok (Normal 42) ∧
  from_str "m42~1.4_8" = Ok (Normal 42).
Proof.
  pose proof (token_round_trip (Normal 42) "9" "1.4" "7_1" ltac:(simpl; word) I I I) as H1.
  pose proof (token_round_trip (Normal 42) "9" "1.4" "8" ltac:(simpl; word) I I I) as H2.
  split_and!; [apply H1|apply H1|apply H2].
Defined.

(** A topological token with no stream part, and a token that is no number. *)
Example bad_tokens : from_str "t9" = Err InvalidParam ∧ from_str "" = Err InvalidParam ∧
  from_str "9223372036854775808" = Err InvalidParam.
Proof. repeat split. Qed.

End CountWitness.
