(* ===== verification/DbSer.v ===== *)
(** The database's key and value encoding: the serde [Serializer] and [Deserializer] of
    src/src/database/ser.rs and src/src/database/de.rs.

    Records of a tuple are separated by the byte 0xFF, which no UTF-8 string holds.
    Values are those of serde's data model ([value]); a Rust type is the sequence of requests
    its [Deserialize] makes of a deserializer ([ty]).  The fields [depth], [fin] and [seq]
    matter only to [debug_assert]s, except [seq] for [Ignore], and the release build is
    modelled.  A panic is the fault [Panicked]. *)

From stdpp Require Import prelude.
From Stdlib Require Import ZArith Lia.
From S2P Require Import Prelude Bytes.
Local Open Scope Z_scope.

(** * UTF-8, as [std::str::from_utf8] checks it *)

Definition in_range (lo hi b : Z) : bool := (lo <=? b) && (b <=? hi).
Definition is_cont : Z → bool := in_range 128 191.

(** How many continuation bytes a first byte asks for, and the range of the first of them. *)
Definition utf8_first (a : Z) : option (nat * (Z * Z)) :=
  if in_range 0 127 a then Some (0%nat, (128, 191))
  else if in_range 194 223 a then Some (1%nat, (128, 191))
  else if a =? 224 then Some (2%nat, (160, 191))
  else if a =? 237 then Some (2%nat, (128, 159))
  else if in_range 225 239 a then Some (2%nat, (128, 191))
  else if a =? 240 then Some (3%nat, (144, 191))
  else if in_range 241 243 a then Some (3%nat, (128, 191))
  else if a =? 244 then Some (3%nat, (128, 143))
  else None.

Fixpoint valid_utf8 (l : list Z) : bool :=
  match l with
  | [] => true
  | a :: l =>
      match utf8_first a, l with
      | Some (0%nat, _), l => valid_utf8 l
      | Some (1%nat, (lo, hi)), b :: l => in_range lo hi b && valid_utf8 l
      | Some (2%nat, (lo, hi)), b :: c :: l => in_range lo hi b && is_cont c && valid_utf8 l
      | Some (3%nat, (lo, hi)), b :: c :: d :: l =>
          in_range lo hi b && is_cont c && is_cont d && valid_utf8 l
      | _, _ => false
      end
  end.

(** [char::encode_utf8]. *)
Definition encode_utf8 (c : Z) : list Z :=
  if c <? 128 then [c]
  else if c <? 2048 then [192 + c / 64; 128 + c mod 64]
  else if c <? 65536 then [224 + c / 4096; 128 + c / 64 mod 64; 128 + c mod 64]
  else [240 + c / 262144; 128 + c / 4096 mod 64; 128 + c / 64 mod 64; 128 + c mod 64].

(** * Values of serde's data model *)

Inductive value :=
| VU64 (n : Z) | VU32 (n : Z) | VU8 (n : Z) | VI64 (n : Z) | VI32 (n : Z)
| VBool (b : bool)
| VChar (c : Z)
| VStr (s : list Z)
| VBytes (s : list Z)
| VNone | VSome (v : value)
| VTuple (vs : list value) (** a tuple or a tuple struct *)
| VSeq (vs : list value)
| VJson (text : list Z) (** newtype [Json]: what [serde_json] writes *)
| VCbor (bytes : list Z) (** newtype [Cbor]: what [minicbor] writes *)
| VInterfix | VSeparator | VIgnore | VIgnoreAll (** the directives, unit structs *)
| VOther. (** floats, maps, structs, enum variants, units and other integers *)

Inductive db_error : Set :=
| WriteZero (** "failed to write whole buffer" *)
| SerdeDe
| InvalidLength
| NotFound
| ArithmeticError
| DatabaseError (** [Error::Database] *)
| InviteBlocked
| InvalidParam | LimitExceeded | Exclusive | Unrecognized
| Unknown (** an error of no kind, [Err!("...")] *)
| Forbidden
| UserDeactivated | UserInUse | Unauthorized | InvalidUsername | MissingToken
| WrongRoomKeysVersion | ThreepidInUse | ThreepidNotFound.
#[export] Instance db_error_eq_dec : EqDecision db_error.
Proof. solve_decision. Defined.

(** * [ser.rs] *)

(** The buffer written to, with its capacity when it is an [ArrayVec]; and whether a
    record was written.
    @src src/src/database/ser.rs:47-52 Serializer *)
Record Serializer := { out : list Z; capacity : option nat; sep : bool }.

(** @src src/src/database/ser.rs:72-73 SEP *)
Definition SEP : Z := 255.

(** @src src/src/database/ser.rs:110-110 Serializer::write *)
Definition write (s : Serializer) (buf : list Z) : comp db_error Serializer :=
  let out' := out s ++ buf in
  match capacity s with
  | Some n => if decide (length out' ≤ n)%nat
      then Ok {| out := out'; capacity := capacity s; sep := sep s |} else Err (Fail WriteZero)
  | None => Ok {| out := out'; capacity := None; sep := sep s |}
  end.

(** @src src/src/database/ser.rs:105-108 Serializer::separator *)
Definition separator (s : Serializer) : comp db_error Serializer := write s [SEP].

(** @src src/src/database/ser.rs:98-103 Serializer::record_start *)
Definition record_start (s : Serializer) : comp db_error Serializer :=
  let s' := {| out := out s; capacity := capacity s; sep := true |} in
  if sep s then separator s' else Ok s'.

(** [SerializeTuple] and [SerializeTupleStruct], over the serialisation of an element.
    @src src/src/database/ser.rs:318-352 SerializeTuple::serialize_element *)
Definition serialize_tuple (ser : value → Serializer → comp db_error Serializer) :
    list value → Serializer → comp db_error Serializer :=
  fix go vs s :=
    match vs with
    | [] => Ok s
    | v :: vs => s ← record_start s; s ← ser v s; go vs s
    end.

(** @src src/src/database/ser.rs:307-316 SerializeSeq::serialize_element *)
Definition serialize_seq (ser : value → Serializer → comp db_error Serializer) :
    list value → Serializer → comp db_error Serializer :=
  fix go vs s :=
    match vs with
    | [] => Ok s
    | v :: vs => s ← ser v s; go vs s
    end.

(** @src src/src/database/ser.rs:185-305 Serializer::serialize_newtype_struct *)
Fixpoint serialize_value (v : value) (s : Serializer) : comp db_error Serializer :=
  match v with
  | VU64 n => write s (to_be 8 n)
  | VU32 n => write s (to_be 4 n)
  | VU8 n => write s [n]
  | VI64 n => write s (to_be 8 (as_u64 n))
  | VI32 n => write s (to_be 4 (n mod 2 ^ 32))
  | VBool b => write s [if b then 1 else 0]
  | VChar c => write s (encode_utf8 c)
  | VStr b | VBytes b => write s b
  | VNone => Ok s
  | VSome v => serialize_value v s
  | VTuple vs => serialize_tuple serialize_value vs s
  | VSeq vs => serialize_seq serialize_value vs s
  | VJson text => write s text
  | VCbor bytes => write s bytes
  | VInterfix => Ok s
  | VSeparator => separator s
  | VIgnore | VIgnoreAll | VOther => Err Panicked
  end.

(** @src src/src/database/ser.rs:25-45 serialize *)
Definition serialize (capacity : option nat) (val : value) : comp db_error (list Z) :=
  s ← serialize_value val {| out := []; capacity := capacity; sep := false |};
  Ok (out s).

(** @src src/src/database/ser.rs:8-23 serialize_to_vec *)
Definition serialize_to_vec (val : value) : comp db_error (list Z) := serialize None val.

(** * [de.rs] *)

(** What a type asks of the deserializer. *)
Inductive ty :=
| TU64 | TI64 | TBool | TStr | TString | TBytes
| TOption (t : ty)
| TTuple (ts : list ty)
| TSeq (t : ty)
| TJson (** a map or struct *)
| TCbor
| TAny
| TIgnore | TIgnoreAll
| TOther. (** chars, floats, enums, units and other integers *)

(** @src src/src/database/de.rs:34-40 Deserializer *)
Record Deserializer := { buf : list Z; pos : nat; rec : nat; seq : bool }.

(** @src src/src/database/de.rs:157-160 Deserializer::inc_pos *)
Definition inc_pos (d : Deserializer) (n : nat) : Deserializer :=
  {| buf := buf d; pos := pos d + n; rec := rec d; seq := seq d |}.

(** @src src/src/database/de.rs:71-76 Deserializer::sequence_start *)
Definition sequence_start (d : Deserializer) : Deserializer :=
  {| buf := buf d; pos := pos d; rec := rec d; seq := true |}.

(** [self.buf[self.pos..]], which panics when the position is out of range. *)
Definition rest (d : Deserializer) : comp db_error (list Z) :=
  if decide (pos d ≤ length (buf d))%nat then Ok (drop (pos d) (buf d)) else Err Panicked.

(** The first item of [split] at the separator. *)
Fixpoint first_record (l : list Z) : list Z :=
  match l with
  | [] => []
  | b :: l => if decide (b = SEP) then [] else b :: first_record l
  end.

(** @src src/src/database/de.rs:96-105 Deserializer::record_next *)
Definition record_next (d : Deserializer) : comp db_error (list Z * Deserializer) :=
  r ← rest d;
  let record := first_record r in
  Ok (record, inc_pos d (length record)).

(** @src src/src/database/de.rs:135-142 Deserializer::record_trail *)
Definition record_trail (d : Deserializer) : comp db_error (list Z * Deserializer) :=
  r ← rest d; Ok (r, inc_pos d (length r)).

Definition started (d : Deserializer) : bool := bool_decide (pos d ≠ 0%nat ∨ (0 < rec d)%nat).

(** @src src/src/database/de.rs:107-119 Deserializer::record_peek_byte *)
Definition record_peek_byte (d : Deserializer) : comp db_error (option Z) :=
  r ← rest d; Ok (r !! (if started d then 1%nat else 0%nat)).

(** @src src/src/database/de.rs:121-133 Deserializer::record_start *)
Definition de_record_start (d : Deserializer) : Deserializer :=
  {| buf := buf d; pos := pos d + (if started d then 1 else 0); rec := rec d + 1; seq := seq d |}.

(** @src src/src/database/de.rs:78-94 Deserializer::record_ignore *)
Definition record_ignore (d : Deserializer) : comp db_error (list Z * Deserializer) :=
  if seq d then record_next d else record_trail d.

(** The bytes of a word at the position.
    @src src/src/database/de.rs:349-360 Deserializer::deserialize_u64 *)
Definition deserialize_word (d : Deserializer) : comp db_error (Z * Deserializer) :=
  r ← rest d;
  let bytes := take 8 r in
  if decide (length bytes = 8%nat) then Ok (from_be bytes, inc_pos d 8)
  else Err (Fail SerdeDe).

(** [string::str_from_bytes].
    @src src/src/database/de.rs:377-389 Deserializer::deserialize_str *)
Definition deserialize_str (d : Deserializer) : comp db_error (value * Deserializer) :=
  '(input, d) ← record_next d;
  if valid_utf8 input then Ok (VStr input, d) else Err (Fail SerdeDe).

(** [serde_json] and [minicbor]: whether they accept bytes as the type asked for. *)
Class Parsers := { json_ok : list Z → bool; cbor_ok : list Z → bool }.

Section Parsers.
Context `{!Parsers}.

(** @src src/src/database/de.rs:209-233 Deserializer::deserialize_map *)
Definition deserialize_map (d : Deserializer) : comp db_error (value * Deserializer) :=
  '(input, d) ← record_next d;
  if json_ok input then Ok (VJson input, d) else Err (Fail SerdeDe).

(** A map or an array in JSON, or else a string.
    @src src/src/database/de.rs:420-433 Deserializer::deserialize_any *)
Definition deserialize_any (d : Deserializer) : comp db_error (value * Deserializer) :=
  b ← record_peek_byte d;
  if decide (b = Some 123 ∨ b = Some 91) then deserialize_map d else deserialize_str d.

(** @src src/src/database/de.rs:290-299 Deserializer::deserialize_bool *)
Definition deserialize_bool (d : Deserializer) : comp db_error (value * Deserializer) :=
  match buf d !! pos d with
  | Some byte => Ok (VBool (bool_decide (byte ≠ 0)), inc_pos d 1)
  | None => Err (Fail SerdeDe)
  end.

(** [SeqAccess]: the next element, or [None] at the end of the buffer.
    @src src/src/database/de.rs:436-451 SeqAccess::next_element_seed *)
Definition next_element_seed (de : Deserializer → comp db_error (value * Deserializer))
    (d : Deserializer) : comp db_error (option value * Deserializer) :=
  if decide (length (buf d) ≤ pos d)%nat then Ok (None, d)
  else '(v, d) ← de (de_record_start d); Ok (Some v, d).

(** A tuple's visitor asks for an element per component, and a missing one is an
    invalid length.
    @src src/src/database/de.rs:186-207 Deserializer::deserialize_tuple *)
Definition deserialize_tuple (de : ty → Deserializer → comp db_error (value * Deserializer)) :
    list ty → Deserializer → comp db_error (list value * Deserializer) :=
  fix go ts d :=
    match ts with
    | [] => Ok ([], d)
    | t :: ts =>
        '(v, d) ← next_element_seed (de t) d;
        v ← ok_or_fail InvalidLength v;
        '(vs, d) ← go ts d;
        Ok (v :: vs, d)
    end.

(** A vector's visitor asks for elements until there is none.
    @src src/src/database/de.rs:177-184 Deserializer::deserialize_seq *)
Fixpoint deserialize_seq (fuel : nat) (de : Deserializer → comp db_error (value * Deserializer))
    (d : Deserializer) : comp db_error (list value * Deserializer) :=
  match fuel with
  | O => Ok ([], d)
  | S fuel =>
      '(v, d) ← next_element_seed de d;
      match v with
      | None => Ok ([], d)
      | Some v => '(vs, d) ← deserialize_seq fuel de d; Ok (v :: vs, d)
      end
  end.

(** Every element after the first consumes a separator: the buffer's length bounds
    their number.
    @src src/src/database/de.rs:235-328 Deserializer::deserialize_option *)
Fixpoint deserialize_value (t : ty) (d : Deserializer) : comp db_error (value * Deserializer) :=
  match t with
  | TU64 => '(n, d) ← deserialize_word d; Ok (VU64 n, d)
  | TI64 => '(n, d) ← deserialize_word d; Ok (VI64 (as_i64 n), d)
  | TBool => deserialize_bool d
  | TStr | TString => deserialize_str d
  | TBytes => '(input, d) ← record_trail d; Ok (VBytes input, d)
  | TOption t =>
      match buf d !! pos d with
      | None => Ok (VNone, d)
      | Some b =>
          if decide (b = SEP) then Ok (VNone, d)
          else '(v, d) ← deserialize_value t d; Ok (VSome v, d)
      end
  | TTuple ts =>
      '(vs, d) ← deserialize_tuple deserialize_value ts (sequence_start d); Ok (VTuple vs, d)
  | TSeq t =>
      '(vs, d) ← deserialize_seq (length (buf d) + 2) (deserialize_value t) (sequence_start d);
      Ok (VSeq vs, d)
  | TJson => deserialize_map d
  | TCbor =>
      '(input, d) ← record_trail d;
      if cbor_ok input then Ok (VCbor input, d) else Err (Fail SerdeDe)
  | TAny => deserialize_any d
  | TIgnore => '(_, d) ← record_ignore d; Ok (VIgnore, d)
  | TIgnoreAll => '(_, d) ← record_trail d; Ok (VIgnoreAll, d)
  | TOther => Err Panicked
  end.

(** @src src/src/database/de.rs:21-32 from_slice *)
Definition from_slice (t : ty) (buf : list Z) : comp db_error value :=
  '(v, _) ← deserialize_value t {| buf := buf; pos := 0; rec := 0; seq := false |};
  Ok v.

(** What the debug assertion after deserialization checks.
    @src src/src/database/de.rs:55-69 Deserializer::finished *)
Definition finished (d : Deserializer) : bool :=
  let unparsed := drop (pos d) (buf d) in
  bool_decide (unparsed = [] ∨ unparsed = [SEP]).
End Parsers.

(** * Lemmas *)

(** ** UTF-8 strings hold no separator *)

Lemma in_range_spec lo hi b : in_range lo hi b → lo ≤ b ≤ hi.
Proof. unfold in_range. rewrite andb_True. rewrite !Is_true_true, !Z.leb_le. done. Qed.

Lemma utf8_first_bound a n lo hi : utf8_first a = Some (n, (lo, hi)) → a < SEP ∧ hi < SEP.
Proof.
  unfold utf8_first, in_range, SEP. intros H.
  repeat match type of H with
  | (if ?c then _ else _) = _ => destruct c eqn:?
  end; simplify_eq;
  repeat match goal with
  | H : _ && _ = true |- _ => apply andb_prop in H as [? ?]
  end; lia.
Qed.

Lemma valid_utf8_no_sep l : valid_utf8 l → SEP ∉ l.
Proof.
  remember (length l) as n eqn:Hn. assert (length l ≤ n)%nat as Hle by lia. clear Hn.
  revert l Hle. induction n as [|n IH]; intros [|a l]; simpl; intros Hle Hl;
    [set_solver|lia|set_solver|].
  destruct (utf8_first a) as [[k [lo hi]]|] eqn:Ha; [|done].
  apply utf8_first_bound in Ha as [Ha Hhi]. unfold is_cont in Hl.
  assert (a ≠ SEP) by lia.
  destruct k as [|[|[|[|]]]]; [|destruct l as [|b l]; try done..].
  - apply not_elem_of_cons. split; [done|]. apply IH; [lia|done].
  - rewrite andb_True in Hl. destruct Hl as [Hb Hl]. apply in_range_spec in Hb.
    rewrite !not_elem_of_cons. split_and!; [done|lia|]. apply IH; [simpl in *; lia|done].
  - destruct l as [|c l]; [done|]. rewrite !andb_True in Hl. destruct Hl as [[Hb Hc] Hl].
    apply in_range_spec in Hb, Hc. unfold SEP in *.
    rewrite !not_elem_of_cons. split_and!; try lia. apply IH; [simpl in *; lia|done].
  - destruct l as [|c [|d l]]; try done. rewrite !andb_True in Hl.
    destruct Hl as [[[Hb Hc] Hd] Hl]. apply in_range_spec in Hb, Hc, Hd. unfold SEP in *.
    rewrite !not_elem_of_cons. split_and!; try lia. apply IH; [simpl in *; lia|done].
Qed.

(** What may follow a record: nothing, or a separator. *)
Definition record_end (l : list Z) : Prop := l = [] ∨ ∃ r, l = SEP :: r.

Lemma first_record_app l r : SEP ∉ l → record_end r → first_record (l ++ r) = l.
Proof.
  intros Hl Hr. induction l as [|b l IH]; simpl.
  - destruct Hr as [->|[r' ->]]; done.
  - apply not_elem_of_cons in Hl as [Hb Hl]. rewrite decide_False by done. by rewrite IH.
Qed.

(** ** The bytes of a record *)

(** What a value that is one record writes. *)
Fixpoint record_bytes (v : value) : list Z :=
  match v with
  | VU64 n => to_be 8 n
  | VI64 n => to_be 8 (as_u64 n)
  | VBool b => [if b then 1 else 0]
  | VStr s | VBytes s | VJson s | VCbor s => s
  | VSome v => record_bytes v
  | _ => []
  end.

Definition append (s : Serializer) (b : list Z) : Serializer :=
  {| out := out s ++ b; capacity := capacity s; sep := sep s |}.

Lemma write_vec s b : capacity s = None → write s b = Ok (append s b).
Proof. unfold write, append. by intros ->. Qed.

Section Fields.
Context `{!Parsers}.

(** A value of a type that is one record of a tuple and delimits itself: a
    word has its length, other records end at the separator.  An optional record is told
    from an absent one by its first byte. *)
Inductive field : ty → value → Prop :=
| F_u64 n : is_u64 n → field TU64 (VU64 n)
| F_i64 n : is_i64 n → field TI64 (VI64 n)
| F_bool b : field TBool (VBool b)
| F_str s : valid_utf8 s → field TStr (VStr s)
| F_string s : valid_utf8 s → field TString (VStr s)
| F_json s : valid_utf8 s → json_ok s → field TJson (VJson s)
| F_none t : field (TOption t) VNone
| F_some t v b l : field t v → record_bytes v = b :: l → b ≠ SEP → field (TOption t) (VSome v).

(** The last record may also be raw bytes. *)
Inductive last_field : ty → value → Prop :=
| L_field t v : field t v → last_field t v
| L_bytes s : last_field TBytes (VBytes s)
| L_cbor s : cbor_ok s → last_field TCbor (VCbor s).

Inductive fields : list ty → list value → Prop :=
| Fs_last t v : last_field t v → fields [t] [v]
| Fs_cons t v ts vs : field t v → fields ts vs → fields (t :: ts) (v :: vs).

(** [v] appends its record and nothing else. *)
Definition plain (v : value) : Prop :=
  ∀ s, capacity s = None → serialize_value v s = Ok (append s (record_bytes v)).

Lemma append_nil s : append s [] = s.
Proof. unfold append. rewrite app_nil_r. by destruct s. Qed.

Lemma interfix_plain : plain VInterfix.
Proof. intros s _. by rewrite append_nil. Qed.

Lemma field_plain t v : last_field t v → plain v.
Proof.
  intros Hv s Hs. destruct Hv as [? ? Hf| |]; simpl; [|by apply write_vec..].
  induction Hf; simpl; try (by apply write_vec); [by rewrite append_nil|done].
Qed.

(** The records after the first, each behind a separator. *)
Definition trail (vs : list value) : list Z := concat ((fun v => SEP :: record_bytes v) <$> vs).

Definition tuple_bytes (vs : list value) : list Z :=
  match vs with [] => [] | v :: vs => record_bytes v ++ trail vs end.

Lemma trail_cons v vs : trail (v :: vs) = SEP :: record_bytes v ++ trail vs.
Proof. done. Qed.

Lemma trail_end vs : record_end (trail vs).
Proof. destruct vs; [by left|right]. simpl. eauto. Qed.

Lemma serialize_trail vs s : Forall plain vs → capacity s = None → sep s →
  serialize_tuple serialize_value vs s = Ok (append s (trail vs)).
Proof.
  intros Hvs. revert s. induction Hvs as [|v vs Hv Hvs IH]; intros s Hcap Hsep.
  { by rewrite append_nil. }
  cbn [serialize_tuple]. unfold record_start. apply Is_true_true in Hsep. rewrite Hsep.
  unfold separator. rewrite write_vec by done. simpl.
  rewrite Hv by done. simpl. rewrite IH by done. rewrite trail_cons.
  unfold append. simpl. do 2 f_equal; [|done]. by rewrite <-!app_assoc.
Qed.

Lemma serialize_records vs : Forall plain vs →
  serialize_to_vec (VTuple vs) = Ok (tuple_bytes vs).
Proof.
  intros Hvs. unfold serialize_to_vec, serialize. cbn [serialize_value].
  destruct Hvs as [|v vs Hv Hvs]; [done|]. cbn [serialize_tuple]. unfold record_start. simpl.
  rewrite Hv by done. simpl. by rewrite serialize_trail.
Qed.

Lemma fields_plain ts vs : fields ts vs → Forall plain vs.
Proof. induction 1; eauto using L_field, field_plain. Qed.

Lemma field_list_plain ts vs : Forall2 field ts vs → Forall plain vs.
Proof. induction 1; eauto using L_field, field_plain. Qed.

Lemma trail_app vs ws : trail (vs ++ ws) = trail vs ++ trail ws.
Proof. unfold trail. by rewrite fmap_app, concat_app. Qed.

Lemma tuple_bytes_app vs ws : vs ≠ [] → tuple_bytes (vs ++ ws) = tuple_bytes vs ++ trail ws.
Proof. destruct vs; [done|]. simpl. by rewrite trail_app, app_assoc. Qed.

(** ** Reading a record back *)

(** The deserializer stands before [l]. *)
Definition before (d : Deserializer) (l : list Z) : Prop :=
  (pos d ≤ length (buf d))%nat ∧ drop (pos d) (buf d) = l.

Lemma before_rest d l : before d l → rest d = Ok l.
Proof. intros [Hle <-]. unfold rest. by rewrite decide_True. Qed.

Lemma before_lookup d l : before d l → buf d !! pos d = head l.
Proof. intros [Hle <-]. rewrite <-(Nat.add_0_r (pos d)) at 1. rewrite <-lookup_drop. by destruct (drop _ _). Qed.

Lemma before_inc d l r : before d (l ++ r) → before (inc_pos d (length l)) r.
Proof.
  intros [Hle Hd]. unfold before, inc_pos; simpl. split.
  - apply (f_equal length) in Hd. rewrite length_drop, length_app in Hd. lia.
  - rewrite <-drop_drop, Hd. by rewrite drop_app_length.
Qed.

Lemma deserialize_word_app d n r : before d (to_be 8 n ++ r) →
  deserialize_word d = Ok (from_be (to_be 8 n), inc_pos d 8).
Proof.
  intros Hd. unfold deserialize_word. rewrite (before_rest _ _ Hd). cbn [mbind result_bind].
  cbv zeta. rewrite take_app_length' by done. by rewrite decide_True.
Qed.

Lemma record_next_app d l r : before d (l ++ r) → SEP ∉ l → record_end r →
  record_next d = Ok (l, inc_pos d (length l)).
Proof.
  intros Hd Hl Hr. unfold record_next. rewrite (before_rest _ _ Hd). simpl.
  by rewrite first_record_app.
Qed.

Lemma deserialize_str_app d s r : before d (s ++ r) → valid_utf8 s → record_end r →
  deserialize_str d = Ok (VStr s, inc_pos d (length s)).
Proof.
  intros Hd Hs Hr. unfold deserialize_str.
  rewrite (record_next_app d s r) by eauto using valid_utf8_no_sep. simpl.
  apply Is_true_true in Hs. by rewrite Hs.
Qed.

Lemma deserialize_field t v d r : field t v → before d (record_bytes v ++ r) → record_end r →
  deserialize_value t d = Ok (v, inc_pos d (length (record_bytes v))).
Proof.
  intros Hf. revert d. induction Hf; intros d Hd Hr; cbn [deserialize_value record_bytes] in *.
  - rewrite (deserialize_word_app _ _ _ Hd), from_be_to_be. simpl. do 3 f_equal.
    apply Z.mod_small. word.
  - rewrite (deserialize_word_app _ _ _ Hd), from_be_to_be. simpl. do 3 f_equal.
    rewrite Z.mod_small by (pose proof (as_u64_is_u64 n); word). by apply as_i64_as_u64.
  - unfold deserialize_bool. rewrite (before_lookup _ _ Hd). by destruct b.
  - by eapply deserialize_str_app.
  - by eapply deserialize_str_app.
  - unfold deserialize_map. rewrite (record_next_app d s r) by eauto using valid_utf8_no_sep.
    simpl.
    match goal with H : Is_true (json_ok _) |- _ => apply Is_true_true in H; by rewrite H end.
  - rewrite (before_lookup _ _ Hd). unfold inc_pos. simpl. rewrite Nat.add_0_r.
    destruct Hr as [->|[r' ->]]; destruct d; done.
  - pose proof (before_lookup _ _ Hd) as Hhd. match goal with H : record_bytes v = _ |- _ => rewrite H in Hhd end. simpl in Hhd. rewrite Hhd.
    rewrite decide_False by done. by rewrite IHHf.
Qed.

Lemma deserialize_last t v d : last_field t v → before d (record_bytes v) →
  deserialize_value t d = Ok (v, inc_pos d (length (record_bytes v))).
Proof.
  intros [? ? Hf| |s Hs] Hd; [|cbn [deserialize_value record_bytes] in *; unfold record_trail..].
  - eapply deserialize_field; [done|by rewrite app_nil_r|by left].
  - by rewrite (before_rest _ _ Hd).
  - rewrite (before_rest _ _ Hd). simpl. apply Is_true_true in Hs. by rewrite Hs.
Qed.

(** The end of the buffer was reached. *)
Definition at_end (d : Deserializer) : Prop := pos d = length (buf d).

Lemma at_end_before d l : before d l → at_end (inc_pos d (length l)).
Proof. intros [Hle <-]. unfold at_end, inc_pos. simpl. rewrite length_drop. lia. Qed.

Lemma next_started de d l : before d (SEP :: l) → (0 < rec d)%nat →
  next_element_seed de d = ('(v, d') ← de (de_record_start d); Ok (Some v, d')) ∧
  before (de_record_start d) l ∧ (0 < rec (de_record_start d))%nat.
Proof.
  intros Hd Hrec. unfold next_element_seed.
  assert (started d = true) as Hst by (unfold started; apply bool_decide_eq_true; lia).
  assert (before (inc_pos d 1) l) as Hb by by apply (before_inc d [SEP] l).
  destruct Hd as [Hle Hd]. rewrite decide_False.
  2:{ intros ?. rewrite drop_ge in Hd by done. done. }
  split; [done|]. unfold de_record_start. rewrite Hst. split; [done|simpl; lia].
Qed.

Lemma deserialize_trail ts vs d : fields ts vs → before d (trail vs) → (0 < rec d)%nat →
  ∃ d', deserialize_tuple (deserialize_value) ts d = Ok (vs, d') ∧ at_end d'.
Proof.
  intros Hf. revert d. induction Hf as [t v Hl|t v ts vs Hv Hf IH]; intros d Hd Hrec;
    cbn [deserialize_tuple]; unfold trail in Hd; simpl in Hd.
  - rewrite app_nil_r in Hd.
    destruct (next_started (deserialize_value t) d _ Hd Hrec) as (-> & Hb & _).
    rewrite (deserialize_last t v) by done. simpl. eexists. split; [done|by apply at_end_before].
  - destruct (next_started (deserialize_value t) d _ Hd Hrec) as (-> & Hb & Hr).
    rewrite (deserialize_field t v _ (trail vs)) by auto using trail_end. simpl.
    destruct (IH (inc_pos (de_record_start d) (length (record_bytes v)))) as (d' & -> & He).
    + by apply before_inc.
    + simpl in *. lia.
    + simpl. eauto.
Qed.

Lemma next_first de d : pos d = 0%nat → rec d = 0%nat → buf d ≠ [] →
  next_element_seed de d = ('(v, d') ← de (de_record_start d); Ok (Some v, d')) ∧
  before (de_record_start d) (buf d).
Proof.
  intros Hp Hr Hb. unfold next_element_seed. rewrite decide_False.
  2:{ rewrite Hp. destruct (buf d); simpl; [done|lia]. }
  split; [done|]. unfold before, de_record_start, started; simpl. rewrite Hp, Hr.
  split; [simpl; lia|done].
Qed.

Lemma deserialize_records ts vs : fields ts vs → tuple_bytes vs ≠ [] → ∃ d',
  deserialize_value (TTuple ts)
    {| buf := tuple_bytes vs; pos := 0; rec := 0; seq := false |} = Ok (VTuple vs, d') ∧ at_end d'.
Proof.
  intros Hf Hne. cbn [deserialize_value].
  destruct Hf as [t v Hl|t v ts vs Hv Hf]; cbn [deserialize_tuple];
    set (d := sequence_start _);
    destruct (next_first (deserialize_value t) d) as [-> Hb]; try done; simpl in Hb.
  - unfold trail in Hb. simpl in Hb. rewrite app_nil_r in Hb.
    rewrite (deserialize_last t v) by done. simpl. eexists. split; [done|by apply at_end_before].
  - rewrite (deserialize_field t v _ (trail vs)) by auto using trail_end. simpl.
    destruct (deserialize_trail ts vs (inc_pos (de_record_start d) (length (record_bytes v))))
      as (d' & -> & He); [done|by apply before_inc|simpl; lia|].
    simpl. eauto.
Qed.

(** ** Prefixes *)

(** Two records of a type followed by separators are told apart. *)
Lemma field_cut t v w r r' : field t v → field t w →
  record_bytes v ++ SEP :: r = record_bytes w ++ SEP :: r' → v = w ∧ r = r'.
Proof.
  intros Hv Hw Heq. set (d := {| buf := record_bytes v ++ SEP :: r; pos := 0; rec := 0; seq := false |}).
  assert (before d (record_bytes v ++ SEP :: r)) as Hb by (split; [simpl; lia|done]).
  pose proof (deserialize_field t v d (SEP :: r) Hv Hb ltac:(right; eauto)) as H1.
  rewrite Heq in Hb.
  pose proof (deserialize_field t w d (SEP :: r') Hw Hb ltac:(right; eauto)) as H2.
  rewrite H1 in H2. injection H2 as -> _. split; [done|].
  apply app_inv_head in Heq. congruence.
Qed.

Lemma trail_cut ts vs ws r r' : Forall2 field ts vs → Forall2 field ts ws →
  trail vs ++ SEP :: r = trail ws ++ SEP :: r' → vs = ws.
Proof.
  intros Hvs. revert ws. induction Hvs as [|t v ts vs Hv Hvs IH]; intros ws Hws.
  { by apply Forall2_nil_inv_l in Hws as ->. }
  apply Forall2_cons_inv_l in Hws as (w & ws' & Hw & Hws & ->).
  rewrite !trail_cons. simpl. intros [= Heq]. rewrite <-!app_assoc in Heq.
  assert (∀ us x, ∃ y, trail us ++ SEP :: x = SEP :: y) as Hs
    by (intros [|u us] x; rewrite ?trail_cons; simpl; eauto).
  destruct (Hs vs r) as [y Hy], (Hs ws' r') as [y' Hy'].
  rewrite Hy, Hy' in Heq. apply (field_cut t) in Heq as [-> ->]; [|done..].
  f_equal. apply (IH ws'); [done|]. by rewrite Hy, Hy'.
Qed.

Lemma prefix_tuple ts vs ws us : Forall2 field ts vs → Forall2 field ts ws → vs ≠ [] → us ≠ [] →
  tuple_bytes (vs ++ [VInterfix]) `prefix_of` tuple_bytes (ws ++ us) ↔ vs = ws.
Proof.
  intros Hvs Hws Hne Hus. assert (ws ≠ []) as Hne'.
  { intros ->. apply Forall2_nil_inv_r in Hws as ->. by apply Forall2_nil_inv_l in Hvs. }
  rewrite !tuple_bytes_app by done. destruct us as [|u us]; [done|]. rewrite trail_cons.
  split.
  - intros [r Hr]. apply (trail_cut ts vs ws r (record_bytes u ++ trail us)); [done..|].
    destruct vs as [|v vs], ws as [|w ws]; try done. rewrite !trail_cons. simpl in *.
    f_equal. rewrite <-!app_assoc in *. by symmetry.
  - intros <-. exists (record_bytes u ++ trail us). rewrite <-app_assoc. done.
Qed.
End Fields.

(** ** Reading arbitrary bytes *)

(** The types [deserialize_value] handles without an [unhandled!]. *)
Fixpoint supported (t : ty) : bool :=
  match t with
  | TOther => false
  | TOption t | TSeq t => supported t
  | TTuple ts => forallb supported ts
  | _ => true
  end.

Lemma ty_nested_ind (P : ty → Prop) :
  (∀ t, (match t with TOption _ | TTuple _ | TSeq _ => False | _ => True end) → P t) →
  (∀ t, P t → P (TOption t)) → (∀ t, P t → P (TSeq t)) → (∀ ts, Forall P ts → P (TTuple ts)) →
  ∀ t, P t.
Proof.
  intros Hbase Hopt Hseq Htup. fix IH 1. intros [].
  all: try (apply Hbase; exact I).
  - apply Hopt, IH.
  - apply Htup. induction ts; constructor; auto.
  - apply Hseq, IH.
Qed.

(** No panic, and the position moves forward inside the buffer. *)
Definition progress {A} (d : Deserializer) (r : comp db_error (A * Deserializer)) : Prop :=
  match r with
  | Ok (_, d') => buf d' = buf d ∧ (pos d ≤ pos d' ≤ length (buf d))%nat ∧ (rec d ≤ rec d')%nat
  | Err e => e ≠ Panicked
  end.

Lemma progress_bind {A B} d (m : comp db_error (A * Deserializer)) (f : A → Deserializer → comp db_error (B * Deserializer)) :
  progress d m → (∀ a d', (pos d' ≤ length (buf d'))%nat → progress d' (f a d')) →
  progress d ('(a, d') ← m; f a d').
Proof.
  unfold progress. destruct m as [[a d']|e]; simpl; [|done]. intros (Hb & Hp & Hr) Hf.
  specialize (Hf a d'). rewrite Hb in Hf. destruct (f a d') as [[b d'']|]; [|naive_solver lia].
  destruct Hf as (Hb' & Hp' & Hr'); [lia|]. rewrite Hb'. split_and!; done || lia.
Qed.

(** Close a [progress] goal whose result is known. *)
Ltac in_buffer := simpl in *; split_and!; done || lia.

Lemma progress_ret {A} d (a : A) : (pos d ≤ length (buf d))%nat → progress d (Ok (a, d)).
Proof. intros. in_buffer. Qed.

Lemma rest_ok d : (pos d ≤ length (buf d))%nat → rest d = Ok (drop (pos d) (buf d)).
Proof. intros. unfold rest. by rewrite decide_True. Qed.

Lemma first_record_length l : (length (first_record l) ≤ length l)%nat.
Proof. induction l as [|b l IH]; simpl; [done|]. case_decide; simpl; lia. Qed.

Lemma record_next_progress d : (pos d ≤ length (buf d))%nat → progress d (record_next d).
Proof.
  intros Hd. unfold record_next. rewrite rest_ok by done. simpl.
  pose proof (first_record_length (drop (pos d) (buf d))) as Hl. rewrite length_drop in Hl.
  split_and!; done || lia.
Qed.

Lemma record_trail_progress d : (pos d ≤ length (buf d))%nat → progress d (record_trail d).
Proof. intros Hd. unfold record_trail. rewrite rest_ok by done. simpl. rewrite length_drop. in_buffer. Qed.

Lemma deserialize_word_progress d : (pos d ≤ length (buf d))%nat → progress d (deserialize_word d).
Proof.
  intros Hd. unfold deserialize_word. rewrite rest_ok by done. cbn [mbind result_bind]. cbv zeta.
  case_decide as Hl; [|done]. rewrite length_take, length_drop in Hl. assert (8 ≤ length (buf d) - pos d)%nat by lia. clear Hl. in_buffer.
Qed.

Lemma deserialize_str_progress d : (pos d ≤ length (buf d))%nat → progress d (deserialize_str d).
Proof.
  intros Hd. apply progress_bind; [by apply record_next_progress|].
  intros s d' Hd'. destruct (valid_utf8 s); [by apply progress_ret|done].
Qed.

Lemma de_record_start_range d : (pos d < length (buf d))%nat →
  (pos d ≤ pos (de_record_start d) ≤ length (buf d))%nat.
Proof. intros. simpl. destruct (started d); lia. Qed.

Section Total.
Context `{!Parsers}.

Lemma deserialize_map_progress d : (pos d ≤ length (buf d))%nat → progress d (deserialize_map d).
Proof.
  intros Hd. apply progress_bind; [by apply record_next_progress|].
  intros s d' Hd'. destruct (json_ok s); [by apply progress_ret|done].
Qed.

Lemma next_element_progress de d :
  (∀ d, (pos d ≤ length (buf d))%nat → progress d (de d)) → (pos d ≤ length (buf d))%nat →
  progress d (next_element_seed de d).
Proof.
  intros Hde Hd. unfold next_element_seed. case_decide; [by apply progress_ret|].
  pose proof (de_record_start_range d ltac:(lia)) as Hr.
  assert (progress (de_record_start d) ('(v, d') ← de (de_record_start d); Ok (Some v, d'))) as Hp.
  { apply progress_bind; [apply Hde; simpl in *; lia|]. intros. by apply progress_ret. }
  unfold progress in *. destruct (_ ≫= _) as [[v d']|]; [|done]. destruct Hp as (? & ? & ?). in_buffer.
Qed.

Lemma deserialize_tuple_progress ts d :
  Forall (fun t => ∀ d, (pos d ≤ length (buf d))%nat →
    progress d (deserialize_value t d)) ts →
  (pos d ≤ length (buf d))%nat →
  progress d (deserialize_tuple (deserialize_value) ts d).
Proof.
  intros Hts. revert d. induction Hts as [|t ts Ht Hts IH]; intros d Hd; cbn [deserialize_tuple].
  { by apply progress_ret. }
  apply progress_bind; [by apply next_element_progress|]. intros [v|] d' Hd'; [|done].
  cbn [ok_or_fail ok_or mbind result_bind]. apply progress_bind; [by apply IH|].
  intros. by apply progress_ret.
Qed.

Lemma deserialize_seq_progress fuel de d :
  (∀ d, (pos d ≤ length (buf d))%nat → progress d (de d)) → (pos d ≤ length (buf d))%nat →
  progress d (deserialize_seq fuel de d).
Proof.
  intros Hde. revert d. induction fuel as [|fuel IH]; intros d Hd; cbn [deserialize_seq].
  { by apply progress_ret. }
  apply progress_bind; [by apply next_element_progress|].
  intros [v|] d' Hd'; [|by apply progress_ret].
  apply progress_bind; [by apply IH|]. intros. by apply progress_ret.
Qed.

Lemma deserialize_value_progress t d : supported t → (pos d ≤ length (buf d))%nat →
  progress d (deserialize_value t d).
Proof.
  revert d. induction t as [t Hbase|t IH|t IH|ts IH] using ty_nested_ind; intros d Ht Hd.
  - destruct t; try done; cbn [deserialize_value].
    + apply progress_bind; [by apply deserialize_word_progress|]. intros. by apply progress_ret.
    + apply progress_bind; [by apply deserialize_word_progress|]. intros. by apply progress_ret.
    + unfold deserialize_bool. destruct (buf d !! pos d) eqn:Hb; [|done].
      apply lookup_lt_Some in Hb. in_buffer.
    + by apply deserialize_str_progress.
    + by apply deserialize_str_progress.
    + apply progress_bind; [by apply record_trail_progress|]. intros. by apply progress_ret.
    + by apply deserialize_map_progress.
    + apply progress_bind; [by apply record_trail_progress|].
      intros s d' Hd'. destruct (cbor_ok s); [by apply progress_ret|done].
    + unfold deserialize_any, record_peek_byte. rewrite rest_ok by done. cbn [mbind result_bind].
      case_decide; [by apply deserialize_map_progress|by apply deserialize_str_progress].
    + apply progress_bind; [|intros; by apply progress_ret]. unfold record_ignore.
      destruct (seq d); [by apply record_next_progress|by apply record_trail_progress].
    + apply progress_bind; [by apply record_trail_progress|]. intros. by apply progress_ret.
  - cbn [deserialize_value]. destruct (buf d !! pos d); [|by apply progress_ret].
    case_decide; [by apply progress_ret|].
    apply progress_bind; [by apply IH|]. intros. by apply progress_ret.
  - cbn [deserialize_value]. apply (progress_bind (sequence_start d)).
    + apply deserialize_seq_progress; [|done]. intros. by apply IH.
    + intros. by apply progress_ret.
  - cbn [deserialize_value]. apply (progress_bind (sequence_start d)).
    + apply deserialize_tuple_progress; [|done]. simpl in Ht.
      induction IH as [|t ts Ht' _ IH']; constructor; simpl in Ht;
        apply andb_True in Ht as [? ?]; auto.
    + intros. by apply progress_ret.
Qed.

(** The fuel of a vector is enough: it is read until the end of the buffer. *)
Lemma deserialize_seq_end fuel de d vs d' :
  (∀ d, (pos d ≤ length (buf d))%nat → progress d (de d)) → (pos d ≤ length (buf d))%nat →
  (length (buf d) - pos d + (if started d then 0 else 1) < fuel)%nat →
  deserialize_seq fuel de d = Ok (vs, d') → at_end d'.
Proof.
  intros Hde. revert d vs. induction fuel as [|fuel IH]; intros d vs Hd Hfuel; [lia|].
  cbn [deserialize_seq]. unfold next_element_seed. case_decide as Hend.
  { simpl. intros [= _ <-]. unfold at_end. lia. }
  pose proof (Hde (de_record_start d)) as Hp.
  destruct (de (de_record_start d)) as [[v d1]|] eqn:Heq; simpl; [|done].
  destruct Hp as (Hb & Hp & Hr); [pose proof (de_record_start_range d); simpl in *; lia|].
  simpl in Hb, Hp, Hr.
  destruct (deserialize_seq fuel de d1) as [[vs1 d2]|] eqn:Hrec; simpl; [|done].
  intros [= _ <-]. apply (IH d1 vs1); [rewrite Hb; lia| |done].
  assert (started d1 = true) as -> by (apply bool_decide_eq_true; lia).
  rewrite Hb. destruct (started d); lia.
Qed.
End Total.

(** ** Stack buffers *)

Lemma value_nested_ind (P : value → Prop) :
  (∀ v, (match v with VSome _ | VTuple _ | VSeq _ => False | _ => True end) → P v) →
  (∀ v, P v → P (VSome v)) → (∀ vs, Forall P vs → P (VSeq vs)) → (∀ vs, Forall P vs → P (VTuple vs)) →
  ∀ v, P v.
Proof.
  intros Hbase Hsome Hseq Htup. fix IH 1. intros [].
  all: try (apply Hbase; exact I).
  - apply Hsome, IH.
  - apply Htup. induction vs; constructor; auto.
  - apply Hseq. induction vs; constructor; auto.
Qed.

Definition with_capacity (n : option nat) (s : Serializer) : Serializer :=
  {| out := out s; capacity := n; sep := sep s |}.

(** A serialisation that succeeds into a vector: into a buffer of [n] bytes it does the
    same while it fits, and fails when it does not. *)
Definition fits (n : nat) (f : Serializer → comp db_error Serializer) : Prop :=
  ∀ s s', capacity s = None → f s = Ok s' →
  capacity s' = None ∧ (length (out s) ≤ length (out s'))%nat ∧
  ((length (out s) ≤ n)%nat → f (with_capacity (Some n) s) =
    if decide (length (out s') ≤ n)%nat then Ok (with_capacity (Some n) s') else Err (Fail WriteZero)).

Lemma fits_ret n : fits n Ok.
Proof. intros s s' Hs [= <-]. split_and!; [done..|]. intros Hn. by rewrite decide_True. Qed.

Lemma fits_write n b : fits n (fun s => write s b).
Proof.
  intros s s' Hs. rewrite write_vec by done. intros [= <-].
  split_and!; [done|simpl; rewrite length_app; lia|]. done.
Qed.

Lemma fits_bind n f g : fits n f → fits n g → fits n (fun s => s ← f s; g s).
Proof.
  intros Hf Hg s s' Hs Heq. destruct (f s) as [s1|] eqn:Hf1; [|done]. simpl in Heq.
  destruct (Hf s s1) as (Hc1 & Hl1 & Hf'); [done..|].
  destruct (Hg s1 s') as (Hc & Hl & Hg'); [done..|].
  split_and!; [done|lia|]. intros Hn. rewrite Hf' by done.
  destruct (decide (length (out s1) ≤ n)%nat); [by apply Hg'|]. simpl. by rewrite decide_False by lia.
Qed.

Lemma fits_record_start n : fits n record_start.
Proof.
  intros s s' Hs. unfold record_start, separator. simpl.
  destruct (sep s) eqn:Hsep.
  - intros Heq. by apply (fits_write n [SEP]) in Heq.
  - intros [= <-]. split_and!; [done..|]. intros Hn. by rewrite decide_True.
Qed.

Lemma fits_value n v : fits n (serialize_value v).
Proof.
  induction v as [v Hbase|v IH|vs IH|vs IH] using value_nested_ind; [|done|..].
  - destruct v; try done; cbn [serialize_value]; try apply fits_write; apply fits_ret.
  - change (fits n (serialize_seq serialize_value vs)).
    induction IH as [|v vs Hv _ IHvs]; [apply fits_ret|]. by apply fits_bind.
  - change (fits n (serialize_tuple serialize_value vs)).
    induction IH as [|v vs Hv _ IHvs]; [apply fits_ret|].
    apply (fits_bind n record_start); [apply fits_record_start|]. by apply fits_bind.
Qed.

(** * Properties *)

Section Codec.
Context `{!Parsers}.


(** A scan by the prefix of a tuple key, written with the directive [Interfix], selects exactly
  the keys whose first records are those of the prefix: no record that merely starts with
  the same bytes is taken for it. *)
Theorem prefix_scan_exact (ts us : list ty) (vs ws xs : list value)
  (Hvs : Forall2 field ts vs) (Hws : Forall2 field ts ws)
  (Hxs : fields us xs) (Hne : vs ≠ []) : ∃ prefix key,
serialize_to_vec (VTuple (vs ++ [VInterfix])) = Ok prefix ∧
serialize_to_vec (VTuple (ws ++ xs)) = Ok key ∧ (prefix `prefix_of` key ↔ vs = ws).
Proof.
exists (tuple_bytes (vs ++ [VInterfix])), (tuple_bytes (ws ++ xs)). split_and!.
- apply serialize_records, Forall_app. eauto using field_list_plain, interfix_plain.
- apply (serialize_records), Forall_app. eauto using field_list_plain, fields_plain.
- apply (prefix_tuple ts); try done. by destruct Hxs.
Qed.

(** C38: Reading a value of a type the database supports never panics, whatever the bytes: it
  yields a value with the position inside the buffer, or an error.  A vector is read
  until the end of the buffer. *)
Theorem deserialize_total (t : ty) (d : Deserializer) (Ht : supported t)
  (Hd : (pos d ≤ length (buf d))%nat) :
progress d (deserialize_value t d) ∧
(∀ l, from_slice t l ≠ Err Panicked) ∧
(∀ vs d', deserialize_value (TSeq t) d = Ok (VSeq vs, d') → at_end d').
Proof.
split_and!.
- by apply deserialize_value_progress.
- intros l. unfold from_slice. set (d0 := Build_Deserializer _ _ _ _).
  pose proof (deserialize_value_progress t d0 Ht ltac:(simpl; lia)) as Hp.
  unfold progress in Hp. destruct (deserialize_value _ _) as [[]|]; [done|]. simpl. congruence.
- intros vs d'. cbn [deserialize_value].
  destruct (deserialize_seq _ _ _) as [[vs' d1]|] eqn:Heq; [|done]. simpl. intros [= _ <-].
  eapply deserialize_seq_end, Heq; [intros; by apply deserialize_value_progress|done|].
  simpl. case_match; lia.
Qed.
End Codec.

(** Serialising into a buffer of fixed capacity, as the stack buffers of [aput] and
    [aqry] are, writes the bytes serialising into a vector does when they fit, and is an error
    exactly when they do not. *)
Theorem stack_buffer_correct (n : nat) (v : value) (bytes : list Z)
    (Hv : serialize_to_vec v = Ok bytes) :
  serialize (Some n) v = if decide (length bytes ≤ n)%nat then Ok bytes else Err (Fail WriteZero).
Proof.
  unfold serialize_to_vec, serialize in *.
  destruct (serialize_value v _) as [s'|] eqn:Heq; [|done]. injection Hv as <-.
  apply (fits_value n) in Heq as (_ & _ & Hfit); [|done]. simpl in Hfit.
  unfold with_capacity in Hfit. simpl in Hfit.
  rewrite Hfit by lia. by case_decide.
Qed.

(** * Concrete keys *)
Module CodecWitness.

(** Parsers that accept everything stand for [serde_json] and [minicbor]. *)
Definition any_ok (_ : list Z) : bool := true.
#[local] Instance any_parsers : Parsers := {| json_ok := any_ok; cbor_ok := any_ok |}.

(** [(u64, "ab", Option<str>, bytes)], where the word holds separator bytes. *)
Definition sample : list value := [VU64 (2 ^ 64 - 256); VStr [97; 98]; VNone; VBytes [255; 0]].
Definition sample_ty : list ty := [TU64; TStr; TOption TStr; TBytes].

Lemma sample_fields : fields sample_ty sample.
Proof.
repeat first [apply Fs_last | apply Fs_cons];
  [constructor; word|by constructor|constructor|apply L_bytes].
Qed.


(** The tuple of one absent record writes nothing and is not read back. *)
Example empty_tuple_key : serialize_to_vec (VTuple [VNone]) = Ok [] ∧
from_slice (TTuple [TOption TStr]) [] = Err (Fail InvalidLength).
Proof. split; reflexivity. Qed.

(** A present word whose first byte is the separator is read as absent. *)
Example some_word_lost : ∃ bytes,
serialize_to_vec (VTuple [VU8 7; VSome (VU64 (2 ^ 64 - 1))]) = Ok bytes ∧
from_slice (TTuple [TBool; TOption TU64]) bytes = Ok (VTuple [VBool true; VNone]).
Proof. eexists. split; vm_compute; reflexivity. Qed.

(** Words of a vector are written without the separator that reading skips. *)
Example vector_of_words : ∃ bytes,
serialize_to_vec (VSeq [VU64 1; VU64 2]) = Ok bytes ∧
from_slice (TSeq TU64) bytes = Err (Fail SerdeDe).
Proof. eexists. split; vm_compute; reflexivity. Qed.

(** A JSON object after another record is taken for a string: the byte looked at is its second. *)
Example any_in_tuple :
from_slice (TTuple [TStr; TAny]) [97; 255; 123; 125]
= Ok (VTuple [VStr [97]; VStr [123; 125]]).
Proof. reflexivity. Qed.

Lemma prefix_scan_exact_witness : ∃ prefix key,
serialize_to_vec (VTuple [VStr [97; 98]; VInterfix]) = Ok prefix ∧
serialize_to_vec (VTuple [VStr [97]; VU64 1]) = Ok key ∧ ¬ prefix `prefix_of` key.
Proof.
destruct (prefix_scan_exact [TStr] [TU64] [VStr [97; 98]] [VStr [97]] [VU64 1]
  ltac:(repeat constructor) ltac:(repeat constructor)
  ltac:(apply Fs_last, L_field; constructor; word) ltac:(discriminate))
  as (prefix & key & Hp & Hk & Hiff).
exists prefix, key. split; [exact Hp|split; [exact Hk|]]. rewrite Hiff. discriminate.
Defined.

Lemma deserialize_total_witness :
from_slice (TTuple [TStr; TOption TU64]) [97; 255; 1] ≠ Err Panicked.
Proof.
apply (deserialize_total (TTuple [TStr; TOption TU64])
  {| buf := []; pos := 0; rec := 0; seq := false |} I ltac:(simpl; lia)).
Defined.

Lemma stack_buffer_correct_witness :
serialize (Some 8%nat) (VU64 5) = Ok [0; 0; 0; 0; 0; 0; 0; 5] ∧
serialize (Some 7%nat) (VU64 5) = Err (Fail WriteZero).
Proof.
split; rewrite (stack_buffer_correct _ (VU64 5) [0; 0; 0; 0; 0; 0; 0; 5] eq_refl); reflexivity.
Defined.

(** The strings of the database's tests: two user and room identifiers as a key. *)
Example ser_tuple_test :
serialize_to_vec (VTuple [VNone; VStr [64; 117]]) = Ok [255; 64; 117] ∧
from_slice (TTuple [TOption TStr; TStr]) [255; 64; 117]
= Ok (VTuple [VNone; VStr [64; 117]]) ∧
from_slice (TTuple [TStr; TOption TStr]) [33; 255]
= Ok (VTuple [VStr [33]; VNone]) ∧
from_slice (TTuple [TOption TStr; TOption TStr; TOption TStr]) [255; 255]
= Ok (VTuple [VNone; VNone; VNone]) ∧
from_slice (TTuple [TStr; TIgnore; TStr]) [64; 255; 65; 255; 33]
= Ok (VTuple [VStr [64]; VIgnore; VStr [33]]).
Proof. split_and!; reflexivity. Qed.

End CodecWitness.
