(* ===== verification/DbTypes.v ===== *)
(** What is read from the database has the type asked for, whatever bytes are stored: the values of
    src/src/database/de.rs and the types they are read as. *)

From stdpp Require Import prelude.
From Stdlib Require Import ZArith Lia.
From S2P Require Import Prelude Bytes DbSer.

#[local] Open Scope Z_scope.

(** A record that ends at a separator holds none. *)
Definition one_record (l : list Z) : bool := bool_decide (SEP ∉ l).

Section Types.
Context `{!Parsers}.

(** The values of a type: words and signed words in their range, texts of a JSON or CBOR value that
    their parser takes, UTF-8 strings, as many components as a tuple has. *)
Fixpoint has_type (t : ty) (v : value) {struct t} : bool :=
  match t, v with
  | TU64, VU64 n => bool_decide (is_u64 n)
  | TI64, VI64 n => bool_decide (is_i64 n)
  | TBool, VBool _ => true
  | TStr, VStr s | TString, VStr s => valid_utf8 s && one_record s
  | TBytes, VBytes s => bool_decide (Forall is_byte s)
  | TOption _, VNone => true
  | TOption t, VSome v => has_type t v
  | TTuple ts, VTuple vs =>
      (fix components (ts : list ty) (vs : list value) :=
         match ts, vs with
         | [], [] => true
         | t :: ts, v :: vs => has_type t v && components ts vs
         | _, _ => false
         end) ts vs
  | TSeq t, VSeq vs => forallb (has_type t) vs
  | TJson, VJson s => json_ok s && one_record s
  | TCbor, VCbor s => cbor_ok s
  | TAny, VJson s => json_ok s && one_record s
  | TAny, VStr s => valid_utf8 s && one_record s
  | TIgnore, VIgnore | TIgnoreAll, VIgnoreAll => true
  | _, _ => false
  end.

(** A step of the deserializer over the bytes [b] that yields what [Q] says. *)
Definition yields {A} (b : list Z) (Q : A → Prop) (r : comp db_error (A * Deserializer)) : Prop :=
  match r with Ok (a, d) => buf d = b ∧ Q a | Err _ => True end.

Lemma yields_bind {A B} b (Q : A → Prop) (R : B → Prop) (m : comp db_error (A * Deserializer))
    (f : A → Deserializer → comp db_error (B * Deserializer)) :
  yields b Q m → (∀ a d, buf d = b → Q a → yields b R (f a d)) → yields b R ('(a, d) ← m; f a d).
Proof. destruct m as [[a d]|]; cbn; [intros [? ?]; eauto|done]. Qed.

Lemma first_record_no_sep l : SEP ∉ first_record l.
Proof.
  induction l as [|c l IH]; simpl; [set_solver|]. case_decide; [set_solver|].
  by apply not_elem_of_cons.
Qed.

Section Reading.
Context (b : list Z) (Hb : Forall is_byte b).

Lemma record_next_yields d : buf d = b → yields b (λ l, one_record l) (record_next d).
Proof.
  intros Hd. unfold record_next, rest. case_decide; cbn; [|done]. split; [done|].
  apply bool_decide_pack, first_record_no_sep.
Qed.

Lemma record_trail_yields d : buf d = b → yields b (Forall is_byte) (record_trail d).
Proof.
  intros Hd. unfold record_trail, rest. case_decide; cbn; [|done]. split; [done|].
  rewrite Hd. by apply Forall_drop.
Qed.

Lemma word_yields d : buf d = b → yields b is_u64 (deserialize_word d).
Proof.
  intros Hd. unfold deserialize_word, rest. case_decide; cbn [mbind result_bind]; [|done].
  case_decide; [|done]. split; [done|]. apply u64_from_be_is_u64; [|done].
  apply Forall_take. rewrite Hd. by apply Forall_drop.
Qed.

Lemma str_yields t d : t = TStr ∨ t = TString ∨ t = TAny → buf d = b → yields b (has_type t) (deserialize_str d).
Proof.
  intros Ht Hd. apply (yields_bind b _ _ _ _ (record_next_yields d Hd)). intros l d' Hd' Hl.
  destruct (valid_utf8 l) eqn:Hu; [|done]. split; [done|].
  destruct Ht as [->|[->| ->]]; cbn; by rewrite Hu.
Qed.

Lemma map_yields t d : t = TJson ∨ t = TAny → buf d = b → yields b (has_type t) (deserialize_map d).
Proof.
  intros Ht Hd. apply (yields_bind b _ _ _ _ (record_next_yields d Hd)). intros l d' Hd' Hl.
  destruct (json_ok l) eqn:Hj; [|done]. split; [done|].
  destruct Ht as [->| ->]; cbn; by rewrite Hj.
Qed.

Lemma next_element_yields de (Q : value → Prop) d :
  (∀ d, buf d = b → yields b Q (de d)) → buf d = b →
  yields b (λ o, match o with Some v => Q v | None => True end) (next_element_seed de d).
Proof.
  intros Hde Hd. unfold next_element_seed. case_decide; [done|].
  eapply yields_bind; [by apply Hde|]. intros v d' Hd' Hv. done.
Qed.

Lemma tuple_yields ts d : Forall (λ t, ∀ d, buf d = b → yields b (has_type t) (deserialize_value t d)) ts →
  buf d = b → yields b (λ vs, has_type (TTuple ts) (VTuple vs)) (deserialize_tuple deserialize_value ts d).
Proof.
  intros Hts. revert d. induction Hts as [|t ts Ht _ IH]; intros d Hd; [done|].
  cbn [deserialize_tuple]. eapply yields_bind; [by apply next_element_yields|].
  intros [v|] d1 Hd1 Hv; [|done]. cbn [ok_or_fail mbind result_bind].
  eapply yields_bind; [by apply IH|]. intros vs d2 Hd2 Hvs. split; [done|].
  cbn. apply andb_True. by split.
Qed.

Lemma seq_yields t fuel d : (∀ d, buf d = b → yields b (has_type t) (deserialize_value t d)) →
  buf d = b → yields b (λ vs, has_type (TSeq t) (VSeq vs)) (deserialize_seq fuel (deserialize_value t) d).
Proof.
  intros Ht. revert d. induction fuel as [|fuel IH]; intros d Hd; [done|].
  cbn [deserialize_seq]. eapply yields_bind; [by apply next_element_yields|].
  intros [v|] d1 Hd1 Hv; [|done]. eapply yields_bind; [by apply IH|].
  intros vs d2 Hd2 Hvs. split; [done|]. cbn. apply andb_True. by split.
Qed.

Lemma value_yields t d : buf d = b → yields b (has_type t) (deserialize_value t d).
Proof.
  revert d. induction t as [t Hbase|t IH|t IH|ts IH] using ty_nested_ind; intros d Hd.
  - destruct t; try done; cbn [deserialize_value].
    + eapply yields_bind; [by apply word_yields|]. intros n d' ? Hn. split; [done|]. by apply bool_decide_pack.
    + eapply yields_bind; [by apply word_yields|]. intros n d' ? Hn. split; [done|].
      apply bool_decide_pack, as_i64_is_i64.
    + unfold deserialize_bool. by case_match.
    + apply str_yields; auto.
    + apply str_yields; auto.
    + eapply yields_bind; [by apply record_trail_yields|]. intros l d' ? Hl. split; [done|]. by apply bool_decide_pack.
    + apply map_yields; auto.
    + eapply yields_bind; [by apply record_trail_yields|]. intros l d' ? Hl.
      destruct (cbor_ok l) eqn:Hc; [|done]. split; [done|]. cbn. by rewrite Hc.
    + unfold deserialize_any, record_peek_byte, rest. case_decide; cbn [mbind result_bind]; [|done].
      case_decide; [apply map_yields; auto|apply str_yields; auto].
    + unfold record_ignore. destruct (seq d).
      * eapply yields_bind; [by apply record_next_yields|]. done.
      * eapply yields_bind; [by apply record_trail_yields|]. done.
    + eapply yields_bind; [by apply record_trail_yields|]. done.
  - cbn [deserialize_value]. case_match; [|done]. case_decide; [done|].
    eapply yields_bind; [by apply IH|]. done.
  - cbn [deserialize_value]. eapply yields_bind; [by apply seq_yields|]. done.
  - cbn [deserialize_value]. eapply yields_bind; [by apply tuple_yields|]. done.
Qed.
End Reading.

Lemma field_has_type t v : field t v → has_type t v.
Proof.
  induction 1; cbn; try by apply bool_decide_pack.
  - done.
  - apply andb_True. split; [done|]. by apply bool_decide_pack, valid_utf8_no_sep.
  - apply andb_True. split; [done|]. by apply bool_decide_pack, valid_utf8_no_sep.
  - apply andb_True. split; [done|]. by apply bool_decide_pack, valid_utf8_no_sep.
  - done.
  - done.
Qed.

(** C25: What is read from the database as some type is a value of that type, whatever bytes are
  stored: words are in the range of their width, strings are UTF-8, JSON and CBOR texts are
  texts that their parsers take, records hold no separator, tuples have their components, each
  of its type.  A stored value that was written otherwise is an error, never a value of another
  type.  Values that are written as a type and can be read back are of the type. *)
Theorem stored_values_are_typed (t : ty) (bytes : list Z) (Hbytes : Forall is_byte bytes) :
  (∀ v, from_slice t bytes = Ok v → has_type t v) ∧
  (∀ d v d', buf d = bytes → deserialize_value t d = Ok (v, d') → has_type t v ∧ buf d' = bytes) ∧
  (∀ v, field t v → has_type t v).
Proof.
  split_and!.
  - intros v. unfold from_slice.
    pose proof (value_yields bytes Hbytes t {| buf := bytes; pos := 0; rec := 0; seq := false |} eq_refl) as Hy.
    destruct (deserialize_value _ _) as [[w d]|]; cbn; [|done]. intros [= <-]. apply Hy.
  - intros d v d' Hd Hv. pose proof (value_yields bytes Hbytes t d Hd) as Hy. rewrite Hv in Hy. by destruct Hy.
  - intros v. apply field_has_type.
Qed.
End Types.

Module TypesWitness.
Definition any_ok (_ : list Z) : bool := true.
#[local] Instance any_parsers : Parsers := {| json_ok := any_ok; cbor_ok := any_ok |}.

(** [(Option<u64>, String, u64)] of a key of the database. *)
Definition key_ty : ty := TTuple [TOption TU64; TStr; TI64].
Definition key : list Z := [0; 0; 0; 0; 0; 0; 0; 7; 255; 64; 117; 255; 255; 255; 255; 255; 255; 255; 255; 254].
Definition key_value : value := VTuple [VSome (VU64 7); VStr [64; 117]; VI64 (-2)].

Lemma stored_values_are_typed_witness : from_slice key_ty key = Ok key_value ∧ has_type key_ty key_value.
Proof.
  assert (from_slice key_ty key = Ok key_value) as Hread by reflexivity.
  split; [exact Hread|].
  refine (proj1 (stored_values_are_typed key_ty key _) _ Hread).
  apply (bool_decide_unpack _). vm_compute. exact I.
Defined.

(** A word of seven bytes is refused, as is a string that is no UTF-8. *)
Example ill_typed_bytes_refused :
  from_slice TU64 [0; 0; 0; 0; 0; 0; 7] = Err (Fail SerdeDe) ∧ from_slice TStr [128] = Err (Fail SerdeDe) ∧
  has_type TStr (VU64 7) = false.
Proof. split_and!; reflexivity. Qed.
End TypesWitness.
