(* ===== verification/Database.v ===== *)
(** The maps of the database: src/src/database/map/*.rs over the encoding of DbSer.v.

    A RocksDB column is a finite map from byte strings to byte strings that iterates in
    bytewise order; caching, the thread pool, flushing and write options are not modelled.  Operations
    that [expect] the serialisation to succeed panic when it does not. *)

From stdpp Require Import prelude gmap sorting.
From Stdlib Require Import ZArith Lia.
From S2P Require Import Prelude Bytes DbSer.
Local Open Scope Z_scope.

Abbreviation bytes := (list Z).

(** The columns the modelled services open, among those of src/src/database/maps.rs. *)
Inductive column : Set :=
(* the counter and the numbers drawn from it *)
| global
| eventid_shorteventid | shorteventid_eventid
| statekey_shortstatekey | shortstatekey_statekey
| roomid_shortroomid | statehash_shortstatehash
(* room states *)
| shortstatehash_statediff
| shorteventid_shortstatehash | roomid_shortstatehash | roomid_pduleaves
(* the timeline *)
| eventid_outlierpdu | eventid_pduid | pduid_pdu | roomid_lasttimelinecount
| userroomid_highlightcount | userroomid_notificationcount
(* members *)
| roomid_invitedcount | roomid_inviteviaservers | roomid_joinedcount
| roomserverids | serverroomids
| roomuserid_invitecount | roomuserid_joined | roomuserid_leftcount | roomuserid_knockedcount
| roomuseroncejoinedids
| userroomid_invitestate | userroomid_joined | userroomid_leftstate | userroomid_knockedstate
| userroomid_invitesender
(* auth chains *)
| shorteventid_authchain
(* the sending queue *)
| servercurrentevent_data | servernameevent_data | servername_educount
(* event metadata, threads and search *)
| tofrom_relation | referencedevents | softfailedeventids | rejectedeventids
| threadid_userids | tokenids
(* what a user has read *)
| readreceiptid_readreceipt | roomuserid_privateread | roomuserid_lastprivatereadupdate
| roomuserid_lastnotificationread
(* account data and transactions *)
| roomuserdataid_accountdata | roomusertype_roomuserdataid
| userdevicetxnid_response | lazyloadedids | registrationtoken_info
(* room directory *)
| alias_userid | alias_roomid | aliasid_alias | publicroomids
(* accounts *)
| userid_password | userid_deactivated | userid_suspension | userid_lock | userid_logindisabled
| openidtoken_expiresatuserid | logintoken_expiresatuserid
| email_localpart | localpart_email | userid_origin | userid_displayname | userid_avatarurl | useridprofilekey_value
| remoteuserid_remoteuser | userfilterid_filter
(* OAuth and interactive authentication *)
| clientid_clientmetadata | userdeviceid_oauthsessioninfo | refreshtoken_refreshtokeninfo
| userdevicesessionid_uiaainfo | passwordresettoken_info | openidsubject_localpart
(* users, devices and keys *)
| userdeviceid_token | token_userdeviceid | userdeviceid_tokenexpires | userdeviceid_metadata
| userid_devicelistversion | todeviceid_events | onetimekeyid_onetimekeys
| fallbackkeyid_fallbackkey | userid_lastonetimekeyupdate | userid_dehydrateddevice
| keyid_key | keychangeid_userid
| userid_masterkeyid | userid_selfsigningkeyid | userid_usersigningkeyid
(* pushers, media and servers *)
| senderkey_pusher | pushkey_deviceid | senderkey_webpushstate | senderkey_webpushbackoff
| mediaid_file | mediaid_user | servername_destination | servername_override | servernamekeyid_response
| id_appserviceregistrations
(* rooms *)
| roomid_mindepth | bannedroomids | disabledroomids | roomsynctoken_shortstatehash
(* key backups *)
| backupid_algorithm | backupid_etag | backupkeyid_backup
(* presence *)
| presenceid_presence | userid_presenceid.

(** Columns by number, so that comparing two of them is comparing numbers. *)
Definition column_number (c : column) : positive :=
  match c with
  | global => 1 | eventid_shorteventid => 2 | shorteventid_eventid => 3 | statekey_shortstatekey => 4
  | shortstatekey_statekey => 5 | roomid_shortroomid => 6 | statehash_shortstatehash => 7
  | shortstatehash_statediff => 8 | shorteventid_shortstatehash => 9 | roomid_shortstatehash => 10
  | roomid_pduleaves => 11 | eventid_outlierpdu => 12 | eventid_pduid => 13 | pduid_pdu => 14
  | roomid_lasttimelinecount => 15 | userroomid_highlightcount => 16 | userroomid_notificationcount => 17
  | roomid_invitedcount => 18 | roomid_inviteviaservers => 19 | roomid_joinedcount => 20
  | roomserverids => 21 | serverroomids => 22 | roomuserid_invitecount => 23 | roomuserid_joined => 24
  | roomuserid_leftcount => 25 | roomuserid_knockedcount => 26 | roomuseroncejoinedids => 27
  | userroomid_invitestate => 28 | userroomid_joined => 29 | userroomid_leftstate => 30
  | userroomid_knockedstate => 31 | userroomid_invitesender => 32 | shorteventid_authchain => 33
  | servercurrentevent_data => 34 | servernameevent_data => 35 | servername_educount => 36
  | tofrom_relation => 37 | referencedevents => 38 | softfailedeventids => 39 | rejectedeventids => 40
  | threadid_userids => 41 | tokenids => 42 | readreceiptid_readreceipt => 43 | roomuserid_privateread => 44
  | roomuserid_lastprivatereadupdate => 45 | roomuserid_lastnotificationread => 46
  | roomuserdataid_accountdata => 47 | roomusertype_roomuserdataid => 48 | userdevicetxnid_response => 49
  | lazyloadedids => 50 | registrationtoken_info => 51 | alias_userid => 52 | alias_roomid => 53
  | aliasid_alias => 54 | publicroomids => 55 | userid_password => 56 | userid_deactivated => 57
  | userid_suspension => 58 | userid_lock => 59 | userid_logindisabled => 60
  | openidtoken_expiresatuserid => 61 | logintoken_expiresatuserid => 62 | email_localpart => 63
  | localpart_email => 64 | userid_origin => 65 | userid_displayname => 66 | userid_avatarurl => 67
  | useridprofilekey_value => 68 | remoteuserid_remoteuser => 69 | userfilterid_filter => 70
  | clientid_clientmetadata => 71 | userdeviceid_oauthsessioninfo => 72 | refreshtoken_refreshtokeninfo => 73
  | userdevicesessionid_uiaainfo => 74 | passwordresettoken_info => 75 | openidsubject_localpart => 76
  | userdeviceid_token => 77 | token_userdeviceid => 78 | userdeviceid_tokenexpires => 79
  | userdeviceid_metadata => 80 | userid_devicelistversion => 81 | todeviceid_events => 82
  | onetimekeyid_onetimekeys => 83 | fallbackkeyid_fallbackkey => 84 | userid_lastonetimekeyupdate => 85
  | userid_dehydrateddevice => 86 | keyid_key => 87 | keychangeid_userid => 88 | userid_masterkeyid => 89
  | userid_selfsigningkeyid => 90 | userid_usersigningkeyid => 91 | senderkey_pusher => 92
  | pushkey_deviceid => 93 | senderkey_webpushstate => 94 | senderkey_webpushbackoff => 95
  | mediaid_file => 96 | mediaid_user => 97 | servername_destination => 98 | servername_override => 99
  | servernamekeyid_response => 100 | id_appserviceregistrations => 101 | roomid_mindepth => 102
  | bannedroomids => 103 | disabledroomids => 104 | roomsynctoken_shortstatehash => 105
  | backupid_algorithm => 106 | backupid_etag => 107 | backupkeyid_backup => 108 | presenceid_presence => 109
  | userid_presenceid => 110
  end%positive.
Definition columns : list column := [
  global; eventid_shorteventid; shorteventid_eventid; statekey_shortstatekey; shortstatekey_statekey;
  roomid_shortroomid; statehash_shortstatehash; shortstatehash_statediff; shorteventid_shortstatehash;
  roomid_shortstatehash; roomid_pduleaves; eventid_outlierpdu; eventid_pduid; pduid_pdu;
  roomid_lasttimelinecount; userroomid_highlightcount; userroomid_notificationcount; roomid_invitedcount;
  roomid_inviteviaservers; roomid_joinedcount; roomserverids; serverroomids; roomuserid_invitecount;
  roomuserid_joined; roomuserid_leftcount; roomuserid_knockedcount; roomuseroncejoinedids;
  userroomid_invitestate; userroomid_joined; userroomid_leftstate; userroomid_knockedstate;
  userroomid_invitesender; shorteventid_authchain; servercurrentevent_data; servernameevent_data;
  servername_educount; tofrom_relation; referencedevents; softfailedeventids; rejectedeventids;
  threadid_userids; tokenids; readreceiptid_readreceipt; roomuserid_privateread;
  roomuserid_lastprivatereadupdate; roomuserid_lastnotificationread; roomuserdataid_accountdata;
  roomusertype_roomuserdataid; userdevicetxnid_response; lazyloadedids; registrationtoken_info; alias_userid;
  alias_roomid; aliasid_alias; publicroomids; userid_password; userid_deactivated; userid_suspension;
  userid_lock; userid_logindisabled; openidtoken_expiresatuserid; logintoken_expiresatuserid;
  email_localpart; localpart_email; userid_origin; userid_displayname; userid_avatarurl;
  useridprofilekey_value; remoteuserid_remoteuser; userfilterid_filter; clientid_clientmetadata;
  userdeviceid_oauthsessioninfo; refreshtoken_refreshtokeninfo; userdevicesessionid_uiaainfo;
  passwordresettoken_info; openidsubject_localpart; userdeviceid_token; token_userdeviceid;
  userdeviceid_tokenexpires; userdeviceid_metadata; userid_devicelistversion; todeviceid_events;
  onetimekeyid_onetimekeys; fallbackkeyid_fallbackkey; userid_lastonetimekeyupdate; userid_dehydrateddevice;
  keyid_key; keychangeid_userid; userid_masterkeyid; userid_selfsigningkeyid; userid_usersigningkeyid;
  senderkey_pusher; pushkey_deviceid; senderkey_webpushstate; senderkey_webpushbackoff; mediaid_file;
  mediaid_user; servername_destination; servername_override; servernamekeyid_response;
  id_appserviceregistrations; roomid_mindepth; bannedroomids; disabledroomids; roomsynctoken_shortstatehash;
  backupid_algorithm; backupid_etag; backupkeyid_backup; presenceid_presence; userid_presenceid].

Lemma column_number_inj c c' : column_number c = column_number c' → c = c'.
Proof.
  assert (∀ c, columns !! pred (Pos.to_nat (column_number c)) = Some c) as Hc by (intros []; reflexivity).
  intros Heq. pose proof (Hc c) as H. rewrite Heq, Hc in H. by injection H as ->.
Qed.

#[export] Instance column_eq_dec : EqDecision column := fun c c' =>
  match Pos.eq_dec (column_number c) (column_number c') with
  | left Heq => left (column_number_inj c c' Heq)
  | right Hne => right (fun Heq => Hne (f_equal column_number Heq))
  end.

Definition Db : Type := column → gmap bytes bytes.
Definition empty_db : Db := fun _ => ∅.

(** [expect] of a result. *)
Definition expect_ok {E A} (r : comp E A) : comp E A :=
  match r with Ok a => Ok a | Err OutOfFuel => Err OutOfFuel | Err _ => Err Panicked end.

(** ** Reading *)

(** A missing key is the error [NotFound].
    @src src/src/database/map/get.rs:57-93 Map::get_blocking *)
Definition get (db : Db) (c : column) (key : bytes) : comp db_error bytes :=
  ok_or_fail NotFound (db c !! key).

(** @src src/src/database/map/qry.rs:41-55 Map::bqry *)
Definition bqry (buf : option nat) (db : Db) (c : column) (key : value) : comp db_error bytes :=
  key ← expect_ok (serialize buf key); get db c key.

(** @src src/src/database/map/qry.rs:10-23 Map::qry *)
Definition qry : Db → column → value → comp db_error bytes := bqry None.

(** @src src/src/database/map/qry.rs:25-39 Map::aqry *)
Definition aqry (MAX : nat) : Db → column → value → comp db_error bytes := bqry (Some MAX).

(** @src src/src/database/handle.rs:34-65 Deserialized::map_de *)
Definition deserialized `{!Parsers} (t : ty) (r : comp db_error bytes) : comp db_error value :=
  v ← r; from_slice t v.

(** ** Writing *)

(** @src src/src/database/map/insert.rs:179-201 Map::insert *)
Definition insert (db : Db) (c : column) (key val : bytes) : Db :=
  fun c' => if decide (c' = c) then <[key := val]> (db c) else db c'.

(** @src src/src/database/map/remove.rs:37-52 Map::remove *)
Definition remove (db : Db) (c : column) (key : bytes) : Db :=
  fun c' => if decide (c' = c) then delete key (db c) else db c'.

(** @src src/src/database/map/remove.rs:28-35 Map::bdel *)
Definition bdel (buf : option nat) (db : Db) (c : column) (key : value) : comp db_error Db :=
  key ← expect_ok (serialize buf key); Ok (remove db c key).

(** @src src/src/database/map/remove.rs:10-16 Map::del *)
Definition del := bdel None.

(** @src src/src/database/map/insert.rs:150-163 Map::bput_raw *)
Definition bput_raw (buf : option nat) (db : Db) (c : column) (key : value) (val : bytes) :
    comp db_error Db :=
  key ← expect_ok (serialize buf key); Ok (insert db c key val).

(** @src src/src/database/map/insert.rs:135-148 Map::bput *)
Definition bput (kbuf vbuf : option nat) (db : Db) (c : column) (key val : value) : comp db_error Db :=
  val ← expect_ok (serialize vbuf val); bput_raw kbuf db c key val.

(** @src src/src/database/map/insert.rs:165-177 Map::raw_bput *)
Definition raw_bput (buf : option nat) (db : Db) (c : column) (key : bytes) (val : value) :
    comp db_error Db :=
  val ← expect_ok (serialize buf val); Ok (insert db c key val).

(** @src src/src/database/map/insert.rs:34-46 Map::put_raw *)
Definition put_raw := bput_raw None.
(** @src src/src/database/map/insert.rs:53-60 Map::raw_put *)
Definition raw_put := raw_bput None.
(** @src src/src/database/map/insert.rs:62-75 Map::put_aput *)
Definition put_aput (VMAX : nat) := bput None (Some VMAX).
(** @src src/src/database/map/insert.rs:77-90 Map::aput_put *)
Definition aput_put (KMAX : nat) := bput (Some KMAX) None.
(** @src src/src/database/map/insert.rs:92-105 Map::aput *)
Definition aput (KMAX VMAX : nat) := bput (Some KMAX) (Some VMAX).
(** @src src/src/database/map/insert.rs:107-119 Map::aput_raw *)
Definition aput_raw (KMAX : nat) := bput_raw (Some KMAX).
(** @src src/src/database/map/insert.rs:121-133 Map::raw_aput *)
Definition raw_aput (VMAX : nat) := raw_bput (Some VMAX).

(** ** Iterating *)

(** The keys in order. *)
Definition sorted_keys (m : gmap bytes bytes) : list bytes := sort (elements (dom m)).

(** Iteration from a key on, as a seek finds it. *)
Definition raw_keys_from (db : Db) (c : column) (from : bytes) : list bytes :=
  filter (ord_le from) (sorted_keys (db c)).

(** The entries in the order of their keys. *)
Definition entries (m : gmap bytes bytes) : list (bytes * bytes) :=
  omap (fun k => pair k <$> m !! k) (sorted_keys m).

(** [try_take_while]. *)
Fixpoint take_while {A} (P : A → Prop) `{!∀ x, Decision (P x)} (l : list A) : list A :=
  match l with
  | [] => []
  | x :: l => if decide (P x) then x :: take_while P l else []
  end.

(** @src src/src/database/map/keys_prefix.rs:47-56 Map::raw_keys_prefix *)
Definition raw_keys_prefix (db : Db) (c : column) (prefix : bytes) : list bytes :=
  take_while (fun k => prefix `prefix_of` k) (raw_keys_from db c prefix).

(** @src src/src/database/map/keys_prefix.rs:22-33 Map::keys_prefix_raw *)
Definition keys_prefix_raw (db : Db) (c : column) (prefix : value) : comp db_error (list bytes) :=
  key ← expect_ok (serialize_to_vec prefix); Ok (raw_keys_prefix db c key).

(** @src src/src/database/map/keys_prefix.rs:10-20 Map::keys_prefix *)
Definition keys_prefix `{!Parsers} (t : ty) (db : Db) (c : column) (prefix : value) :
    comp db_error (list (comp db_error value)) :=
  keys ← keys_prefix_raw db c prefix; Ok (map (from_slice t) keys).

(** @src src/src/database/map/stream_from.rs:68-103 Map::raw_stream_from *)
Definition raw_stream_from (d : Db) (c : column) (from : bytes) : list (bytes * bytes) :=
  filter (fun kv => ord_le from kv.1) (entries (d c)).

(** @src src/src/database/map/stream_prefix.rs:65-74 Map::raw_stream_prefix *)
Definition raw_stream_prefix (d : Db) (c : column) (prefix : bytes) : list (bytes * bytes) :=
  take_while (fun kv => prefix `prefix_of` kv.1) (raw_stream_from d c prefix).

(** @src src/src/database/map/rev_stream_from.rs:71-106 Map::rev_raw_stream_from *)
Definition rev_raw_stream_from (d : Db) (c : column) (from : bytes) : list (bytes * bytes) :=
  reverse (filter (fun kv => ord_le kv.1 from) (entries (d c))).

(** * Lemmas *)

Lemma insert_same db c k v : insert db c k v c = <[k := v]> (db c).
Proof. unfold insert. by rewrite decide_True. Qed.

Lemma insert_other db c c' k v : c' ≠ c → insert db c k v c' = db c'.
Proof. intros. unfold insert. by rewrite decide_False. Qed.

Lemma remove_same db c k : remove db c k c = delete k (db c).
Proof. unfold remove. by rewrite decide_True. Qed.

Lemma remove_other db c c' k : c' ≠ c → remove db c k c' = db c'.
Proof. intros. unfold remove. by rewrite decide_False. Qed.

(** Lookups in a database after inserts: [dbs] rewrites them away. *)
Ltac dbs := repeat first
  [ rewrite insert_same | rewrite insert_other by discriminate
  | rewrite remove_same | rewrite remove_other by discriminate ].

Lemma serialize_u64_8 n : serialize (Some 8%nat) (VU64 n) = Ok (u64_to_be n).
Proof. unfold serialize. cbn -[to_be]. unfold write. simpl length. by rewrite decide_True by lia. Qed.

Lemma raw_aput_u64 db c k n : raw_aput 8 db c k (VU64 n) = Ok (insert db c k (u64_to_be n)).
Proof. unfold raw_aput, raw_bput. by rewrite serialize_u64_8. Qed.

Lemma aput_raw_u64 db c n v : aput_raw 8 db c (VU64 n) v = Ok (insert db c (u64_to_be n) v).
Proof. unfold aput_raw, bput_raw. by rewrite serialize_u64_8. Qed.

Lemma aput_u64 db c n m : aput 8 8 db c (VU64 n) (VU64 m) = Ok (insert db c (u64_to_be n) (u64_to_be m)).
Proof. unfold aput, bput, bput_raw. by rewrite !serialize_u64_8. Qed.

Lemma aqry_u64 db c n : aqry 8 db c (VU64 n) = get db c (u64_to_be n).
Proof. unfold aqry, bqry. by rewrite serialize_u64_8. Qed.

Lemma from_slice_u64 `{!Parsers} n : is_u64 n → from_slice TU64 (u64_to_be n) = Ok (VU64 n).
Proof.
  intros. unfold from_slice. cbn [deserialize_value].
  rewrite (deserialize_word_app _ n []) by (split; [simpl; lia|by rewrite app_nil_r]).
  cbn [mbind result_bind]. do 2 f_equal. by apply u64_round_trip.
Qed.

Lemma from_slice_str `{!Parsers} s : valid_utf8 s → from_slice TStr s = Ok (VStr s).
Proof.
  intros. unfold from_slice. cbn [deserialize_value].
  rewrite (deserialize_str_app _ s []); [done| |done|by left].
  split; [simpl; lia|by rewrite app_nil_r].
Qed.

(** ** Prefix iteration *)

Lemma prefix_le (p r : bytes) : ord_le p (p ++ r).
Proof.
  unfold ord_le, ord_cmp, list_ord. induction p as [|b p IH]; simpl.
  - by destruct r.
  - by rewrite ord_refl.
Qed.

Lemma prefix_between (p x r : bytes) : ord_le p x → ord_le x (p ++ r) → p `prefix_of` x.
Proof.
  unfold ord_le, ord_cmp, list_ord. revert x. induction p as [|b p IH]; intros x; simpl.
  { intros. apply prefix_nil. }
  destruct x as [|a x]; simpl; [done|].
  rewrite (ord_antisym b a). destruct (ord_cmp b a) eqn:Hba; simpl; try done.
  apply ord_eq in Hba as ->. intros H1 H2. apply prefix_cons. by apply IH.
Qed.

Lemma take_while_filter {A} (P : A → Prop) `{!∀ x, Decision (P x)} (l : list A) :
  (∀ i j x y, l !! i = Some x → l !! j = Some y → (i < j)%nat → P y → P x) →
  take_while P l = filter P l.
Proof.
  induction l as [|x l IH]; intros Hl; [done|]. cbn [take_while]. rewrite filter_cons.
  case_decide as Hx.
  - f_equal. apply IH. intros i j a b Hi Hj Hij. apply (Hl (S i) (S j)); simpl; done || lia.
  - symmetry. apply elem_of_nil_inv. intros y [Hy [j Hj]%list_elem_of_lookup]%list_elem_of_filter.
    apply Hx, (Hl 0%nat (S j) x y); done || lia.
Qed.

Lemma sorted_keys_elem m k : k ∈ sorted_keys m ↔ is_Some (m !! k).
Proof. unfold sorted_keys. by rewrite elem_of_sort, elem_of_elements, elem_of_dom. Qed.

Lemma sorted_keys_NoDup m : NoDup (sorted_keys m).
Proof. unfold sorted_keys. rewrite sort_Permutation. apply NoDup_elements. Qed.

Lemma StronglySorted_filter {A} (R : A → A → Prop) (P : A → Prop) `{!∀ x, Decision (P x)} l :
  StronglySorted R l → StronglySorted R (filter P l).
Proof.
  induction 1 as [|x l Hl IH Hx]; [constructor|]. rewrite filter_cons. case_decide; [|done].
  constructor; [done|]. apply Forall_forall. intros y [_ Hy]%list_elem_of_filter.
  by eapply Forall_forall in Hx.
Qed.

Lemma StronglySorted_pos {A} (R : A → A → Prop) l i j x y : StronglySorted R l →
  l !! i = Some x → l !! j = Some y → (i < j)%nat → R x y.
Proof.
  intros Hl. revert i j. induction Hl as [|z l Hl IH Hz]; intros [|i] [|j] Hi Hj Hij;
    simplify_eq/=; try lia.
  - eapply Forall_forall; [exact Hz|by eapply list_elem_of_lookup_2].
  - apply (IH i j); [done..|lia].
Qed.

(** The scan stops at the first key without the prefix and misses none. *)
Lemma raw_keys_prefix_filter db c p :
  raw_keys_prefix db c p = filter (fun k => p `prefix_of` k) (sorted_keys (db c)).
Proof.
  unfold raw_keys_prefix. rewrite take_while_filter.
  - unfold raw_keys_from. rewrite list_filter_filter. apply filter_ext_in.
    intros k _. split; [by intros [??]|]. intros Hp. split; [done|].
    destruct Hp as [r ->]. apply prefix_le.
  - intros i j x y Hi Hj Hij [r ->].
    assert (StronglySorted ord_le (raw_keys_from db c p)) as Hs.
    { apply StronglySorted_filter, sort_StronglySorted. }
    assert (x ∈ raw_keys_from db c p) as Hx by by eapply list_elem_of_lookup_2.
    apply list_elem_of_filter in Hx as [Hpx _].
    apply (prefix_between p x r); [done|]. by eapply StronglySorted_pos.
Qed.

(** ** Entries in order *)

Lemma entries_elem m k v : (k, v) ∈ entries m ↔ m !! k = Some v.
Proof.
  unfold entries. rewrite list_elem_of_omap. split.
  - intros (k' & _ & Hk). destruct (m !! k') eqn:Hm; [|done]. by simplify_eq/=.
  - intros Hm. exists k. rewrite sorted_keys_elem, Hm. split; [by eexists|done].
Qed.

Definition key_lt (a b : bytes * bytes) : Prop := ord_lt a.1 b.1.

Lemma entries_keys m : (entries m).*1 = sorted_keys m.
Proof.
  unfold entries. assert (Forall (fun k => is_Some (m !! k)) (sorted_keys m)) as Hf
    by (apply Forall_forall; intros; by apply sorted_keys_elem).
  induction Hf as [|k l [v Hv] Hl IH]; [done|]. csimpl. rewrite Hv. csimpl. by rewrite IH.
Qed.

Lemma StronglySorted_map {A B} (f : A → B) (R : B → B → Prop) l :
  StronglySorted R (f <$> l) → StronglySorted (fun a b => R (f a) (f b)) l.
Proof.
  induction l as [|x l IH]; [constructor|]. simpl. intros [Hs Hf]%StronglySorted_inv.
  constructor; [auto|]. change (list_fmap A B f l) with (f <$> l) in Hf. by rewrite Forall_fmap in Hf.
Qed.

Lemma StronglySorted_strict {A} `{OrdLaws A} (l : list A) : NoDup l → StronglySorted ord_le l →
  StronglySorted ord_lt l.
Proof.
  intros Hnd Hs. induction Hs as [|x l Hs IH Hx]; [constructor|]. apply NoDup_cons in Hnd as [Hn Hnd].
  constructor; [auto|]. apply Forall_forall. intros y Hy. eapply Forall_forall in Hx; [|done].
  apply ord_le_alt in Hx as [?|<-]; done.
Qed.

Lemma entries_sorted m : StronglySorted key_lt (entries m).
Proof.
  apply (StronglySorted_map fst ord_lt). rewrite entries_keys.
  apply StronglySorted_strict; [apply sorted_keys_NoDup|apply sort_StronglySorted].
Qed.

Lemma StronglySorted_reverse {A} (R : A → A → Prop) l :
  StronglySorted R l → StronglySorted (fun a b => R b a) (reverse l).
Proof.
  induction 1 as [|x l Hs IH Hx]; [constructor|]. rewrite reverse_cons.
  apply StronglySorted_app_2; [|done|by repeat constructor].
  intros a b Ha ->%list_elem_of_singleton. rewrite elem_of_reverse in Ha.
  by eapply Forall_forall in Hx.
Qed.

(** Removing many keys. *)
Lemma remove_keys (d : Db) c (keys : list bytes) :
  let d' := foldl (fun d key => remove d c key) d keys in
  (∀ c', c' ≠ c → d' c' = d c') ∧ ∀ k, d' c !! k = if decide (k ∈ keys) then None else d c !! k.
Proof.
  revert d. induction keys as [|key keys IH]; intros d; cbn [foldl]; [done|].
  destruct (IH (remove d c key)) as [Ho Hk]. split.
  - intros c' Hc'. by rewrite Ho, remove_other.
  - intros k. rewrite Hk, remove_same. destruct (decide (k = key)) as [->|Hne].
    + rewrite (decide_True (P := key ∈ key :: keys)) by (by left). rewrite lookup_delete_eq.
      by destruct (decide (key ∈ keys)).
    + rewrite lookup_delete_ne by done. apply decide_ext. rewrite elem_of_cons. naive_solver.
Qed.

(** The entries with a prefix. *)
Lemma raw_stream_prefix_elem d c p k v :
  (k, v) ∈ raw_stream_prefix d c p ↔ d c !! k = Some v ∧ p `prefix_of` k.
Proof.
  unfold raw_stream_prefix. rewrite take_while_filter.
  - unfold raw_stream_from. rewrite list_elem_of_filter, list_elem_of_filter, entries_elem. simpl.
    split; [by intros (? & ? & ?)|]. intros [Hv Hp]. split; [done|]. split; [|done].
    destruct Hp as [r ->]. apply prefix_le.
  - intros i j x y Hi Hj Hij [r Hr].
    assert (StronglySorted key_lt (raw_stream_from d c p)) as Hs by apply StronglySorted_filter, entries_sorted.
    assert (x ∈ raw_stream_from d c p) as Hx by by eapply list_elem_of_lookup_2.
    apply list_elem_of_filter in Hx as [Hpx _].
    apply (prefix_between p x.1 r); [done|]. rewrite <-Hr. apply ord_le_alt. left.
    by eapply (StronglySorted_pos key_lt).
Qed.
