(* ===== verification/PairKeys.v ===== *)
(** Columns keyed by a pair of identifiers: the two strings with a separator between them, and the
    scans that list the second for a first.  The tables of members, servers, forward
    extremities and state keys of src/src/service/rooms are of this kind, over
    src/src/database/map/keys_prefix.rs. *)

From stdpp Require Import prelude gmap sorting.
From Stdlib Require Import ZArith Lia.
From S2P Require Import Prelude Bytes DbSer Database.
Local Open Scope Z_scope.

Definition pair_value (a b : bytes) : value := VTuple [VStr a; VStr b].

(** The bytes of a pair. *)
Definition pair_key (a b : bytes) : bytes := a ++ SEP :: b.

Section PairKeys.
Context `{!Parsers}.

(** The second component of a key read as [(Ignore, _)]. *)
Definition second (r : comp db_error value) : comp db_error bytes :=
  v ← r; match v with VTuple [_; VStr b] => Ok b | _ => Err (Fail SerdeDe) end.

(** [ignore_err].
    @src src/src/core/utils/stream/ignore.rs:24-28 TryIgnore::ignore_err *)
Definition ignore_err {E A} (l : list (comp E A)) : list A := omap ok l.

(** [keys_prefix(&(a, Interfix)).ignore_err().map(second)]. *)
Definition keys_second (d : Db) (c : column) (a : bytes) : comp db_error (list bytes) :=
  keys ← keys_prefix (TTuple [TIgnore; TStr]) d c (VTuple [VStr a; VInterfix]);
  Ok (ignore_err (map second keys)).

(** * Encoding *)

Lemma str_plain s : plain (VStr s).
Proof. intros ser Hs. simpl. by rewrite write_vec. Qed.

Lemma serialize_pair a b : serialize None (pair_value a b) = Ok (pair_key a b).
Proof.
  change (serialize_to_vec (VTuple [VStr a; VStr b]) = Ok (pair_key a b)).
  rewrite serialize_records by (repeat constructor; apply str_plain).
  unfold tuple_bytes, trail, pair_key. simpl. by rewrite app_nil_r.
Qed.

Lemma serialize_pair_prefix a : serialize_to_vec (VTuple [VStr a; VInterfix]) = Ok (a ++ [SEP]).
Proof.
  rewrite serialize_records.
  - unfold tuple_bytes, trail. simpl. done.
  - constructor; [apply str_plain|]. constructor; [apply interfix_plain|constructor].
Qed.

Lemma from_slice_pair a b : valid_utf8 a → valid_utf8 b →
  from_slice (TTuple [TStr; TStr]) (pair_key a b) = Ok (VTuple [VStr a; VStr b]).
Proof.
  intros Ha Hb. unfold from_slice.
  destruct (deserialize_records [TStr; TStr] [VStr a; VStr b]) as (d & Hd & _).
  - apply Fs_cons; [by constructor|]. apply Fs_last, L_field. by constructor.
  - simpl. destruct a; done.
  - assert (tuple_bytes [VStr a; VStr b] = pair_key a b) as Heq.
    { unfold tuple_bytes, trail, pair_key. simpl. by rewrite app_nil_r. }
    rewrite Heq in Hd. by rewrite Hd.
Qed.

Lemma from_slice_second a b : valid_utf8 a → valid_utf8 b →
  from_slice (TTuple [TIgnore; TStr]) (pair_key a b) = Ok (VTuple [VIgnore; VStr b]).
Proof.
  intros Ha Hb. unfold from_slice.
  change (deserialize_value (TTuple ?ts) ?de) with
    ('(vs, d) ← deserialize_tuple deserialize_value ts (sequence_start de); Ok (VTuple vs, d)).
  cbn [deserialize_tuple]. set (d := sequence_start _).
  destruct (next_first (deserialize_value TIgnore) d) as [-> Hd]; [done..|by destruct a|].
  change (buf d) with (a ++ SEP :: b) in Hd.
  assert (record_end (SEP :: b)) as He by (right; by eexists).
  change (deserialize_value TIgnore ?de) with ('(_, d0) ← record_ignore de; Ok (VIgnore, d0)).
  unfold record_ignore. change (seq (de_record_start d)) with true. cbv iota.
  rewrite (record_next_app _ a (SEP :: b)) by eauto using valid_utf8_no_sep. cbn [mbind result_bind].
  cbn [ok_or_fail ok_or mbind result_bind]. apply before_inc in Hd.
  destruct (next_started (deserialize_value TStr) (inc_pos (de_record_start d) (length a)) b)
    as (-> & Hd' & _); [done|simpl; lia|].
  cbn [deserialize_value]. rewrite (deserialize_str_app _ b []); [done| |done|by left].
  by rewrite app_nil_r.
Qed.

(** * Scans *)

Lemma prefix_pair a k : (a ++ [SEP]) `prefix_of` k ↔ ∃ b, k = pair_key a b.
Proof.
  unfold pair_key. split; intros [b ->]; exists b; by rewrite <-(assoc_L (++)).
Qed.

(** A string before a separator is told by its end. *)
Lemma pair_first_inj a b a' b' : SEP ∉ a → SEP ∉ a' → pair_key a b = pair_key a' b' → a = a' ∧ b = b'.
Proof.
  unfold pair_key. revert a'. induction a as [|x a IH]; intros [|y a'] Ha Ha' Heq; simplify_eq/=.
  - done.
  - set_solver.
  - set_solver.
  - destruct (IH a') as [-> ->]; [set_solver..|done|done].
Qed.

Lemma pair_first_utf8 a b a' b' : valid_utf8 a → valid_utf8 a' → pair_key a b = pair_key a' b' →
  a = a' ∧ b = b'.
Proof. intros. apply pair_first_inj; eauto using valid_utf8_no_sep. Qed.

Lemma pair_key_inj a b a' b' : valid_utf8 a → valid_utf8 b → valid_utf8 a' → valid_utf8 b' →
  pair_key a b = pair_key a' b' → a = a' ∧ b = b'.
Proof. intros ????. by apply pair_first_utf8. Qed.

Lemma keys_prefix_raw_pair d c a :
  keys_prefix_raw d c (VTuple [VStr a; VInterfix]) =
  Ok (filter (fun k => (a ++ [SEP]) `prefix_of` k) (sorted_keys (d c))).
Proof.
  unfold keys_prefix_raw. rewrite serialize_pair_prefix. cbn [expect_ok mbind result_bind].
  by rewrite raw_keys_prefix_filter.
Qed.

Lemma keys_second_map a (l : list bytes) : valid_utf8 a →
  Forall (fun k => ∃ b, k = pair_key a b ∧ valid_utf8 b) l → ∃ bs,
  ignore_err (map second (map (from_slice (TTuple [TIgnore; TStr])) l)) = bs ∧
  l = map (pair_key a) bs.
Proof.
  intros Ha. induction 1 as [|k l (b & -> & Hb) Hl (bs & Heq & ->)]; [by exists []|].
  exists (b :: bs). split; [|done]. simpl. rewrite from_slice_second by done.
  cbn [second mbind result_bind]. unfold ignore_err in *. cbn [omap list_omap ok]. by rewrite Heq.
Qed.

(** The scan lists the pairs' second strings, in the order of the keys. *)
Lemma keys_second_spec d c a : valid_utf8 a → (∀ b, is_Some (d c !! pair_key a b) → valid_utf8 b) → ∃ l,
  keys_second d c a = Ok l ∧ NoDup l ∧ ∀ b, b ∈ l ↔ is_Some (d c !! pair_key a b).
Proof.
  intros Ha Hb. unfold keys_second, keys_prefix. rewrite keys_prefix_raw_pair. cbn [mbind result_bind].
  set (l := filter _ _).
  assert (∀ k, k ∈ l ↔ (∃ b, k = pair_key a b) ∧ is_Some (d c !! k)) as Hl.
  { intros k. subst l. by rewrite list_elem_of_filter, prefix_pair, sorted_keys_elem. }
  destruct (keys_second_map a l Ha) as (bs & -> & Heq).
  { apply Forall_forall. intros k [[b ->] Hk]%Hl. eauto. }
  exists bs. split; [done|]. split.
  - assert (NoDup l) as Hnd by apply NoDup_filter, sorted_keys_NoDup.
    rewrite Heq in Hnd. by apply NoDup_fmap_1 in Hnd.
  - intros b. assert (b ∈ bs ↔ pair_key a b ∈ l) as ->.
    { rewrite Heq. split; [intros; by apply (list_elem_of_fmap_2 (pair_key a))|].
      intros (b' & Hb' & ?)%list_elem_of_fmap_1. unfold pair_key in Hb'. by simplify_list_eq. }
    rewrite Hl. split; [by intros [_ ?]|]. eauto.
Qed.
(** Scans of the same pairs are the same. *)
Lemma keys_second_ext (d d' : Db) c (a : bytes) :
  (∀ b, d' c !! pair_key a b = d c !! pair_key a b) → keys_second d' c a = keys_second d c a.
Proof.
  intros Hb. unfold keys_second, keys_prefix. rewrite !keys_prefix_raw_pair. cbn [mbind result_bind].
  enough (filter (fun k => (a ++ [SEP]) `prefix_of` k) (sorted_keys (d' c)) =
          filter (fun k => (a ++ [SEP]) `prefix_of` k) (sorted_keys (d c))) as -> by done.
  apply (StronglySorted_unique ord_le); [apply StronglySorted_filter, sort_StronglySorted..|].
  apply NoDup_Permutation; [apply NoDup_filter, sorted_keys_NoDup..|]. intros k.
  rewrite !list_elem_of_filter, !sorted_keys_elem, prefix_pair.
  split; intros [[b ->] Hk]; (split; [by eexists|]); by rewrite Hb in * || by rewrite <-Hb in *.
Qed.
End PairKeys.
