(* ===== verification/Scans.v ===== *)
(** Scans of the database that read what they find: src/src/database/map/stream_from.rs,
    stream_prefix.rs, rev_keys_from.rs, rev_stream_from.rs, keys_from.rs and keyval.rs.

    The second part serves the tables whose keys are an owner (a tuple of records), a number
    drawn from the global counter, and possibly more records: what happened to the owner, in
    order.  A scan of such a table from a number, while the owner stays the same, is shown to
    list the owner's entries from that number on and nothing else. *)

From stdpp Require Import prelude gmap sorting.
From Stdlib Require Import ZArith Lia.
From S2P Require Import Prelude Bytes DbSer Database PairKeys.
Local Open Scope Z_scope.

Section Scans.
Context `{!Parsers}.

(** @src src/src/database/keyval.rs:75-81 deserialize *)
Definition deserialize_kv (kt vt : ty) (kv : bytes * bytes) : comp db_error (value * value) :=
  key ← from_slice kt kv.1; val ← from_slice vt kv.2; Ok (key, val).

(** @src src/src/database/map/stream_from.rs:36-45 Map::stream_from_raw *)
Definition stream_from_raw (d : Db) (c : column) (from : value) : comp db_error (list (bytes * bytes)) :=
  key ← expect_ok (serialize_to_vec from); Ok (raw_stream_from d c key).

(** @src src/src/database/map/stream_from.rs:19-29 Map::stream_from *)
Definition stream_from (kt vt : ty) (d : Db) (c : column) (from : value) :
    comp db_error (list (comp db_error (value * value))) :=
  l ← stream_from_raw d c from; Ok (map (deserialize_kv kt vt) l).

(** @src src/src/database/map/stream_prefix.rs:32-42 Map::stream_prefix_raw *)
Definition stream_prefix_raw (d : Db) (c : column) (prefix : value) : comp db_error (list (bytes * bytes)) :=
  key ← expect_ok (serialize_to_vec prefix); Ok (raw_stream_prefix d c key).

(** @src src/src/database/map/stream_prefix.rs:14-25 Map::stream_prefix *)
Definition stream_prefix (kt vt : ty) (d : Db) (c : column) (prefix : value) :
    comp db_error (list (comp db_error (value * value))) :=
  l ← stream_prefix_raw d c prefix; Ok (map (deserialize_kv kt vt) l).

(** @src src/src/database/map/rev_keys_from.rs:52-82 Map::rev_raw_keys_from *)
Definition rev_raw_keys_from (d : Db) (c : column) (from : bytes) : list bytes :=
  reverse (filter (fun k => ord_le k from) (sorted_keys (d c))).

(** @src src/src/database/map/rev_keys_from.rs:28-37 Map::rev_keys_from_raw *)
Definition rev_keys_from_raw (d : Db) (c : column) (from : value) : comp db_error (list bytes) :=
  key ← expect_ok (serialize_to_vec from); Ok (rev_raw_keys_from d c key).

(** @src src/src/database/map/rev_keys_from.rs:15-25 Map::rev_keys_from *)
Definition rev_keys_from (kt : ty) (d : Db) (c : column) (from : value) :
    comp db_error (list (comp db_error value)) :=
  l ← rev_keys_from_raw d c from; Ok (map (from_slice kt) l).

(** @src src/src/database/map/insert.rs:24-32 Map::put *)
Definition put : Db → column → value → value → comp db_error Db := bput None None.

(** * Lists *)

Lemma take_while_sorted {A} (R : A → A → Prop) (P : A → Prop) `{!∀ x, Decision (P x)} (l : list A) :
  StronglySorted R l → (∀ x y, x ∈ l → y ∈ l → R x y → P y → P x) → take_while P l = filter P l.
Proof.
  intros Hs HR. apply take_while_filter. intros i j x y Hi Hj Hij.
  apply HR; [by eapply list_elem_of_lookup_2..|]. by eapply (StronglySorted_pos R).
Qed.

Lemma StronglySorted_omap {A B} (f : A → option B) (R : A → A → Prop) (S : B → B → Prop) (l : list A) :
  StronglySorted R l →
  (∀ x y a b, x ∈ l → y ∈ l → R x y → f x = Some a → f y = Some b → S a b) →
  StronglySorted S (omap f l).
Proof.
  induction 1 as [|x l Hs IH Hx]; intros HS; [constructor|]. cbn [omap list_omap].
  assert (StronglySorted S (omap f l)) as Hl.
  { apply IH. intros y z a b Hy Hz. apply HS; by right. }
  destruct (f x) as [a|] eqn:Hf; [|done]. constructor; [done|].
  apply Forall_forall. intros b (y & Hy & Hb)%list_elem_of_omap.
  rewrite Forall_forall in Hx. apply (HS x y); [by left|by right|by apply Hx|done..].
Qed.

Lemma StronglySorted_fmap_2 {A B} (f : A → B) (R : B → B → Prop) (l : list A) :
  StronglySorted (fun a b => R (f a) (f b)) l → StronglySorted R (f <$> l).
Proof.
  induction 1 as [|x l Hs IH Hx]; [constructor|]. csimpl. constructor; [done|]. by apply Forall_fmap.
Qed.

(** What a scan of mapped entries yields while a condition holds, when the condition is met by an
    initial part. *)
Lemma take_while_omap {A B} (f : A → option B) (R : A → A → Prop) (P : B → Prop)
    `{!∀ x, Decision (P x)} (l : list A) :
  StronglySorted R l →
  (∀ x y a b, x ∈ l → y ∈ l → R x y → f x = Some a → f y = Some b → P b → P a) →
  take_while P (omap f l) = filter P (omap f l).
Proof.
  intros Hs HP. apply (take_while_sorted (fun a b => P b → P a)); [|naive_solver].
  apply (StronglySorted_omap f R); [done|]. naive_solver.
Qed.

Lemma ignore_err_map {A B} (f : A → comp db_error B) (l : list A) :
  ignore_err (map f l) = omap (fun x => ok (f x)) l.
Proof. unfold ignore_err. induction l as [|x l IH]; [done|]. csimpl. by rewrite IH. Qed.

Lemma omap_ignore_err {A B C} (f : A → comp db_error B) (h : B → option C) (l : list A) :
  omap h (ignore_err (map f l)) = omap (fun x => b ← ok (f x); h b) l.
Proof.
  rewrite ignore_err_map. induction l as [|x l IH]; [done|]. csimpl. destruct (f x); csimpl; [|done].
  by rewrite IH.
Qed.

(** * Reading keys *)

(** Reading a record as a type: the value itself, or nothing of it. *)
Inductive reads : ty → value → value → Prop :=
| R_field t v : field t v → reads t v v
| R_ignore v : SEP ∉ record_bytes v → reads TIgnore v VIgnore.

Inductive reads_all : list ty → list value → list value → Prop :=
| Rs_nil : reads_all [] [] []
| Rs_cons t v w ts vs ws : reads t v w → reads_all ts vs ws → reads_all (t :: ts) (v :: vs) (w :: ws).

Lemma reads_fields ts vs : Forall2 field ts vs → reads_all ts vs vs.
Proof. induction 1; constructor; [by constructor|done]. Qed.

Lemma deserialize_reads t v w d r : reads t v w → before d (record_bytes v ++ r) → record_end r →
  seq d = true → deserialize_value t d = Ok (w, inc_pos d (length (record_bytes v))).
Proof.
  intros [? ? Hf|? Hs] Hd Hr Hseq; [by eapply deserialize_field|].
  cbn [deserialize_value]. unfold record_ignore. rewrite Hseq.
  by rewrite (record_next_app d (record_bytes v0) r).
Qed.

Lemma deserialize_reads_trail ts vs ws d : reads_all ts vs ws → before d (trail vs) →
  (0 < rec d)%nat → seq d = true → ∃ d', deserialize_tuple deserialize_value ts d = Ok (ws, d').
Proof.
  intros Hr. revert d. induction Hr as [|t v w ts vs ws Hv Hvs IH]; intros d Hd Hrec Hseq;
    cbn [deserialize_tuple]; [by eexists|].
  rewrite trail_cons in Hd. destruct (next_started (deserialize_value t) d _ Hd Hrec) as (-> & Hb & Hr').
  rewrite (deserialize_reads t v w _ (trail vs)) by auto using trail_end. cbn [mbind result_bind ok_or_fail ok_or].
  destruct (IH (inc_pos (de_record_start d) (length (record_bytes v)))) as (d' & ->).
  - by apply before_inc.
  - simpl in *. lia.
  - done.
  - cbn [mbind result_bind]. eauto.
Qed.

Lemma from_slice_reads ts vs ws : reads_all ts vs ws → ts ≠ [] → tuple_bytes vs ≠ [] →
  from_slice (TTuple ts) (tuple_bytes vs) = Ok (VTuple ws).
Proof.
  intros Hr Hts Hne. unfold from_slice. cbn [deserialize_value].
  destruct Hr as [|t v w ts vs ws Hv Hvs]; [done|]. cbn [deserialize_tuple]. set (d := sequence_start _).
  destruct (next_first (deserialize_value t) d) as [-> Hb]; try done. cbn [tuple_bytes] in Hb.
  change (buf d) with (record_bytes v ++ trail vs) in Hb.
  rewrite (deserialize_reads t v w _ (trail vs)) by auto using trail_end. cbn [mbind result_bind ok_or_fail ok_or].
  destruct (deserialize_reads_trail ts vs ws (inc_pos (de_record_start d) (length (record_bytes v))))
    as (d' & ->); [done|by apply before_inc|simpl; lia|done|]. done.
Qed.

(** A tuple is told by its bytes. *)
Lemma tuple_bytes_inj ts vs ws : Forall2 field ts vs → Forall2 field ts ws → tuple_bytes vs ≠ [] →
  tuple_bytes vs = tuple_bytes ws → vs = ws.
Proof.
  intros Hvs Hws Hne Heq. assert (ts ≠ []) as Hts by (intros ->; apply Forall2_nil_inv_l in Hvs; by subst).
  pose proof (from_slice_reads ts vs vs (reads_fields _ _ Hvs) Hts Hne) as Hv.
  rewrite Heq in Hne. pose proof (from_slice_reads ts ws ws (reads_fields _ _ Hws) Hts Hne) as Hw.
  rewrite Heq, Hw in Hv. congruence.
Qed.

Lemma tuple_bytes_nonempty v w vs : tuple_bytes (v :: w :: vs) ≠ [].
Proof. simpl. rewrite trail_cons. by destruct (record_bytes v). Qed.

(** What [serialize] writes for a tuple of plain records. *)
Lemma serialize_tuple_bytes vs : Forall plain vs → serialize None (VTuple vs) = Ok (tuple_bytes vs).
Proof. apply serialize_records. Qed.

(** [put] and [qry] at such a tuple. *)
Lemma put_tuple d c vs val b : Forall plain vs → serialize None val = Ok b →
  put d c (VTuple vs) val = Ok (insert d c (tuple_bytes vs) b).
Proof.
  intros Hvs Hval. unfold put, bput, bput_raw. rewrite Hval. cbn [expect_ok mbind result_bind].
  by rewrite serialize_tuple_bytes.
Qed.

Lemma put_raw_tuple d c vs b : Forall plain vs →
  put_raw d c (VTuple vs) b = Ok (insert d c (tuple_bytes vs) b).
Proof. intros Hvs. unfold put_raw, bput_raw. by rewrite serialize_tuple_bytes. Qed.

Lemma qry_tuple d c vs : Forall plain vs → qry d c (VTuple vs) = get d c (tuple_bytes vs).
Proof. intros Hvs. unfold qry, bqry. by rewrite serialize_tuple_bytes. Qed.

Lemma del_tuple d c vs : Forall plain vs → del d c (VTuple vs) = Ok (remove d c (tuple_bytes vs)).
Proof. intros Hvs. unfold del, bdel. by rewrite serialize_tuple_bytes. Qed.
End Scans.

(** The bytes of a string are below the separator. *)
Lemma valid_utf8_bytes l : valid_utf8 l → Forall (fun b => b < SEP) l.
Proof.
  remember (length l) as n eqn:Hn. assert (length l ≤ n)%nat as Hle by lia. clear Hn.
  revert l Hle. induction n as [|n IH]; intros [|a l]; simpl; intros Hle Hl; [by constructor|by inversion Hle|by constructor|].
  destruct (utf8_first a) as [[k [lo hi]]|] eqn:Ha; [|done].
  apply utf8_first_bound in Ha as [Ha Hhi]. unfold is_cont in Hl. constructor; [done|].
  destruct k as [|[|[|[|]]]]; [apply IH; [lia|done]|destruct l as [|b l]; try done..].
  - rewrite andb_True in Hl. destruct Hl as [Hb Hl]. apply in_range_spec in Hb.
    constructor; [unfold SEP in *; lia|]. apply IH; [simpl in *; lia|done].
  - destruct l as [|c l]; [done|]. rewrite !andb_True in Hl. destruct Hl as [[Hb Hc] Hl].
    apply in_range_spec in Hb, Hc. repeat (constructor; [unfold SEP in *; lia|]). apply IH; [simpl in *; lia|done].
  - destruct l as [|c [|d l]]; try done. rewrite !andb_True in Hl.
    destruct Hl as [[[Hb Hc] Hd] Hl]. apply in_range_spec in Hb, Hc, Hd.
    repeat (constructor; [unfold SEP in *; lia|]). apply IH; [simpl in *; lia|done].
Qed.

(** A string is a prefix of another followed by a separator, or a suffix of one after a separator,
    exactly when it is of the other string. *)
Lemma prefix_of_sep (a b r : bytes) : SEP ∉ a → a `prefix_of` b ++ SEP :: r ↔ a `prefix_of` b.
Proof.
  intros Ha. split; [|intros; by apply prefix_app_r].
  revert b. induction a as [|x a IH]; intros b; [intros; apply prefix_nil|].
  apply not_elem_of_cons in Ha as [Hx Ha]. destruct b as [|y b]; simpl.
  - intros Hp. apply prefix_cons_inv_1 in Hp. congruence.
  - intros Hp. pose proof (prefix_cons_inv_1 _ _ _ _ Hp) as ->. apply prefix_cons_inv_2 in Hp.
    apply prefix_cons. by apply IH.
Qed.

Lemma suffix_of_sep (a b r : bytes) : SEP ∉ a → a `suffix_of` r ++ SEP :: b ↔ a `suffix_of` b.
Proof.
  intros Ha. rewrite !suffix_prefix_reverse, reverse_app, reverse_cons, <-(assoc_L (++)).
  apply prefix_of_sep. by rewrite elem_of_reverse.
Qed.

Lemma u64_plain n : plain (VU64 n).
Proof. intros s Hs. simpl. by rewrite write_vec. Qed.

(** The reading of a tuple, record by record; what a record must be is left to show. *)
Ltac read_records := repeat first [apply Rs_nil | apply Rs_cons; [first [apply R_ignore | apply R_field]|]].

Create HintDb plain.
#[export] Hint Resolve str_plain u64_plain interfix_plain : plain.

(** An optional string: nothing is written for [None]. *)
Definition opt_str (o : option bytes) : value := match o with Some s => VSome (VStr s) | None => VNone end.

Lemma opt_str_field `{!Parsers} r : match r with Some room => valid_utf8 room ∧ room ≠ [] | None => True end →
  field (TOption TStr) (opt_str r).
Proof.
  destruct r as [room|]; [|constructor]. intros [Hu Hne]. destruct room as [|b room]; [done|].
  eapply F_some; [by constructor|done|]. apply valid_utf8_no_sep in Hu. set_solver.
Qed.

Lemma opt_str_plain r : plain (opt_str r).
Proof. intros s Hs. destruct r; simpl; [by rewrite write_vec|by rewrite append_nil]. Qed.
#[export] Hint Resolve opt_str_plain : plain.

(** * Keys of an owner and a number *)

Definition counted (pre : list value) (n : Z) (post : list value) : list value := pre ++ VU64 n :: post.

(** The key scanned from. *)
Definition from_key (pre : list value) (n : Z) : bytes := tuple_bytes (counted pre n []).

Lemma counted_bytes pre n post : pre ≠ [] →
  tuple_bytes (counted pre n post) = (tuple_bytes pre ++ [SEP]) ++ u64_to_be n ++ trail post.
Proof.
  intros Hpre. unfold counted. rewrite tuple_bytes_app, trail_cons by done. cbn [record_bytes].
  by rewrite <-(assoc_L (++)).
Qed.

Lemma list_cmp_prefix (p l k : bytes) : list_cmp (p ++ l) (p ++ k) = list_cmp l k.
Proof. rewrite list_cmp_app by done. change (list_cmp p p) with (ord_cmp p p). by rewrite ord_refl. Qed.

Lemma counted_cmp pre n m post post' : pre ≠ [] → is_u64 n → is_u64 m →
  ord_cmp (tuple_bytes (counted pre n post)) (tuple_bytes (counted pre m post')) =
  cmp_then (n ?= m) (list_cmp (trail post) (trail post')).
Proof.
  intros Hpre Hn Hm. unfold ord_cmp, list_ord. rewrite !counted_bytes, list_cmp_prefix by done.
  rewrite list_cmp_app by done. by rewrite to_be_cmp by (simpl; word).
Qed.

Lemma from_key_le pre n m post : pre ≠ [] → is_u64 n → is_u64 m →
  ord_le (from_key pre m) (tuple_bytes (counted pre n post)) ↔ m ≤ n.
Proof.
  intros Hpre Hn Hm. unfold ord_le, from_key. rewrite counted_cmp by done.
  destruct (Z.compare_spec m n); simpl; [|split; [lia|done]|split; [done|lia]].
  split; [lia|]. intros _. by destruct (trail post).
Qed.

Lemma from_key_ge pre n m post : pre ≠ [] → is_u64 n → is_u64 m →
  ord_le (tuple_bytes (counted pre n post)) (from_key pre m) ↔ n < m ∨ n = m ∧ post = [].
Proof.
  intros Hpre Hn Hm. unfold ord_le, from_key. rewrite counted_cmp by done.
  destruct (Z.compare_spec n m) as [->| |]; simpl; [|split; [lia|done]|split; [done|lia]].
  destruct post as [|q post]; simpl; [split; [by right|done]|]. split; [done|]. intros [?|[_ ?]]; [lia|done].
Qed.

Lemma interfix_bytes pre : pre ≠ [] → tuple_bytes (pre ++ [VInterfix]) = tuple_bytes pre ++ [SEP].
Proof. intros Hpre. by rewrite tuple_bytes_app. Qed.

Section Counted.
Context `{!Parsers} (pts qts : list ty) (Hpts : pts ≠ []).

(** A key of the table: its owner, number and further records. *)
Record row (pre : list value) (n : Z) (post : list value) (k : bytes) : Prop := {
  row_key : k = tuple_bytes (counted pre n post);
  row_pre : Forall2 field pts pre;
  row_num : is_u64 n;
  row_post : Forall2 field qts post;
}.

Definition Counted (m : gmap bytes bytes) : Prop :=
  ∀ k v, m !! k = Some v → ∃ pre n post, row pre n post k.

Lemma pre_nonempty pre : Forall2 field pts pre → pre ≠ [].
Proof. intros Hf ->. by apply Forall2_nil_inv_r in Hf. Qed.

Lemma counted_fields pre n post : Forall2 field pts pre → is_u64 n → Forall2 field qts post →
  Forall2 field (pts ++ TU64 :: qts) (counted pre n post).
Proof. intros. apply Forall2_app; [done|]. constructor; [by constructor|done]. Qed.

Lemma row_inj pre n post pre' n' post' k : row pre n post k → row pre' n' post' k →
  pre = pre' ∧ n = n' ∧ post = post'.
Proof.
  intros [-> Hp Hn Hq] [Hk Hp' Hn' Hq'].
  pose proof (counted_fields _ _ _ Hp Hn Hq) as Hf. pose proof (counted_fields _ _ _ Hp' Hn' Hq') as Hf'.
  assert (∀ vs, Forall2 field (pts ++ TU64 :: qts) vs → tuple_bytes vs ≠ [] →
    from_slice (TTuple (pts ++ TU64 :: qts)) (tuple_bytes vs) = Ok (VTuple vs)) as Hr.
  { intros vs Hvs Hne. apply from_slice_reads; [by apply reads_fields|by destruct pts|done]. }
  assert (∀ pre n post, Forall2 field pts pre → tuple_bytes (counted pre n post) ≠ []) as Hne.
  { intros p m q Hpm. rewrite counted_bytes by by apply pre_nonempty.
    by destruct (tuple_bytes p). }
  pose proof (Hr _ Hf (Hne _ _ _ Hp)) as H1. rewrite Hk, (Hr _ Hf' (Hne _ _ _ Hp')) in H1.
  injection H1 as Heq. unfold counted in Heq. apply app_inj_1 in Heq as [-> Heq]; [by simplify_eq|].
  apply Forall2_length in Hp, Hp'. congruence.
Qed.

(** The keys of an owner are those with its prefix. *)
Lemma row_prefix pre pre' n post k : Forall2 field pts pre → row pre' n post k →
  (tuple_bytes pre ++ [SEP]) `prefix_of` k ↔ pre' = pre.
Proof.
  intros Hp [-> Hp' Hn Hq]. rewrite <-interfix_bytes by by apply pre_nonempty.
  unfold counted. rewrite (prefix_tuple pts) by (done || by apply pre_nonempty). by split.
Qed.

Lemma from_key_prefix pre n : Forall2 field pts pre → (tuple_bytes pre ++ [SEP]) `prefix_of` from_key pre n.
Proof. intros. unfold from_key. rewrite counted_bytes by by apply pre_nonempty. by eexists. Qed.

(** Between the key scanned from and a key of the owner there are only keys of the owner. *)
Lemma owner_between pre m (k k' : bytes) : Forall2 field pts pre →
  ord_le (from_key pre m) k → ord_le k k' → (tuple_bytes pre ++ [SEP]) `prefix_of` k' →
  (tuple_bytes pre ++ [SEP]) `prefix_of` k.
Proof.
  intros Hp Hf Hk [r ->]. destruct (from_key_prefix pre m Hp) as [r' Hr']. rewrite Hr' in Hf.
  eapply prefix_between; [|exact Hk]. etrans; [apply prefix_le|exact Hf].
Qed.

Lemma owner_between_rev pre m (k k' : bytes) : Forall2 field pts pre →
  ord_le k (from_key pre m) → ord_le k' k → (tuple_bytes pre ++ [SEP]) `prefix_of` k' →
  (tuple_bytes pre ++ [SEP]) `prefix_of` k.
Proof.
  intros Hp Hf Hk [r ->]. destruct (from_key_prefix pre m Hp) as [r' Hr']. rewrite Hr' in Hf.
  eapply prefix_between; [|exact Hf]. etrans; [apply prefix_le|exact Hk].
Qed.

Lemma row_le pre n post k n' post' k' : row pre n post k → row pre n' post' k' → ord_le k k' → n ≤ n'.
Proof.
  intros [-> Hp Hn _] [-> _ Hn' _]. unfold ord_le. rewrite counted_cmp by (done || by apply pre_nonempty).
  destruct (Z.compare_spec n n'); simpl; [lia|lia|done].
Qed.

Section Stream.
Context {B : Type} (g : bytes * bytes → option B) (Q : B → Prop) `{!∀ b, Decision (Q b)}.
Context (pre : list value) (Hpre : Forall2 field pts pre) (lo : Z) (Hlo : is_u64 lo) (bound : Z → Prop).
Context (m : gmap bytes bytes) (Hm : Counted m).
Context (Hbound : ∀ n n', bound n' → n ≤ n' → bound n).
Context (HQ : ∀ k v b, m !! k = Some v → g (k, v) = Some b → Q b ↔ ∃ n post, row pre n post k ∧ bound n).

(** A scan of the owner's entries from a number on. *)
Definition counted_stream (d : Db) (c : column) : list B :=
  take_while Q (omap g (raw_stream_from d c (from_key pre lo))).

Lemma counted_stream_filter d c : d c = m →
  counted_stream d c = filter Q (omap g (raw_stream_from d c (from_key pre lo))).
Proof.
  intros Hd. unfold counted_stream. apply (take_while_omap g key_lt).
  { apply StronglySorted_filter, entries_sorted. }
  unfold raw_stream_from. rewrite Hd.
  intros [k v] [k' v'] a b [Hk Hin]%list_elem_of_filter [Hk' Hin']%list_elem_of_filter Hlt Ha Hb HQb.
  rewrite entries_elem in Hin, Hin'. cbn [fst] in Hk, Hk'. unfold key_lt in Hlt. cbn [fst] in Hlt.
  apply (HQ k' v' b Hin' Hb) in HQb as (n' & post' & Hrow' & Hn'). apply (HQ k v a Hin Ha).
  destruct (Hm k v Hin) as (pre1 & n & post & Hrow).
  assert (ord_le k k') as Hle by (apply ord_le_alt; by left).
  assert (pre1 = pre) as ->.
  { apply (row_prefix pre pre1 n post k Hpre Hrow). eapply owner_between; [done..|].
    by eapply row_prefix. }
  exists n, post. split; [done|]. eapply Hbound; [done|]. by eapply row_le.
Qed.

Lemma counted_stream_elem d c b : d c = m →
  b ∈ counted_stream d c ↔ ∃ n post v, let k := tuple_bytes (counted pre n post) in
    m !! k = Some v ∧ row pre n post k ∧ g (k, v) = Some b ∧ lo ≤ n ∧ bound n.
Proof.
  intros Hd. rewrite counted_stream_filter by done. rewrite list_elem_of_filter, list_elem_of_omap.
  unfold raw_stream_from. rewrite Hd. split.
  - intros (HQb & kv & Hin & Hg). apply list_elem_of_filter in Hin as [Hk Hin]. destruct kv as [k v].
    rewrite entries_elem in Hin. cbn [fst] in Hk.
    destruct (proj1 (HQ k v b Hin Hg) HQb) as (n & post & Hrow & Hn).
    exists n, post, v. cbv zeta. rewrite <-(row_key _ _ _ _ Hrow). split_and!; try done.
    rewrite (row_key _ _ _ _ Hrow) in Hk. apply from_key_le in Hk; [done|by apply pre_nonempty| |done].
    by eapply row_num.
  - cbv zeta. intros (n & post & v & Hin & Hrow & Hg & Hle & Hn). split.
    + eapply HQ; [done..|]. eauto.
    + eexists. split; [|done]. rewrite list_elem_of_filter, entries_elem. split; [|done].
      cbn [fst]. apply from_key_le; [by apply pre_nonempty|by eapply row_num|done|done].
Qed.

(** The entries come in the order of their keys. *)
Lemma counted_stream_sorted d c (S : B → B → Prop) : d c = m →
  (∀ k v b n post k' v' b' n' post', m !! k = Some v → m !! k' = Some v' →
     row pre n post k → row pre n' post' k' → k ≠ k' → n ≤ n' →
     g (k, v) = Some b → g (k', v') = Some b' → S b b') →
  StronglySorted S (counted_stream d c).
Proof.
  intros Hd HS. rewrite counted_stream_filter by done.
  set (l := raw_stream_from d c (from_key pre lo)).
  assert (StronglySorted key_lt l) as Hs by apply StronglySorted_filter, entries_sorted.
  assert (StronglySorted (fun a b => Q a → Q b → S a b) (omap g l)) as Hs'.
  { apply (StronglySorted_omap g key_lt); [done|]. subst l. unfold raw_stream_from. rewrite Hd.
    intros [k v] [k' v'] a b [Hk Hin]%list_elem_of_filter [Hk' Hin']%list_elem_of_filter Hlt Ha Hb HQa HQb.
    rewrite entries_elem in Hin, Hin'. unfold key_lt in Hlt. cbn [fst] in Hlt.
    destruct (proj1 (HQ k v a Hin Ha) HQa) as (n & post & Hrow & _).
    destruct (proj1 (HQ k' v' b Hin' Hb) HQb) as (n' & post' & Hrow' & _).
    apply (HS k v a n post k' v' b n' post'); try done.
    - intros ->. by apply ord_lt_irrefl in Hlt.
    - apply (row_le _ _ _ _ _ _ _ Hrow Hrow'), ord_le_alt. by left. }
  clear -Hs'. induction Hs' as [|a l' Hs IH Ha]; [constructor|]. rewrite filter_cons.
  case_decide as HQa; [|done]. constructor; [done|]. apply Forall_forall.
  intros b [HQb Hb]%list_elem_of_filter. rewrite Forall_forall in Ha. by apply Ha.
Qed.
End Stream.
End Counted.
