(* ===== verification/Short.v ===== *)
(** Short identifiers: the global counter of src/src/service/globals/data.rs and the
    tables of src/src/service/rooms/short/mod.rs that give every event, state key,
    room and state a number drawn from it.

    Operations pass the state ([World]) explicitly.  Each is one uninterrupted step: the counter's
    lock makes [next_count] atomic, and two concurrent calls for one identifier are not
    modelled.  Identifiers are the UTF-8 bytes of Rust's strings. *)

From stdpp Require Import prelude gmap sorting.
From Stdlib Require Import ZArith Lia.
From S2P Require Import Prelude Bytes DbSer Database PairKeys.
Local Open Scope Z_scope.

(** The database and the counter kept in memory.
    @src src/src/service/globals/data.rs:6-10 Data *)
Record World := { db : Db; counter : Z }.

Definition with_db (w : World) (d : Db) : World := {| db := d; counter := counter w |}.

(** * The counter *)

(** @src src/src/service/globals/data.rs:12-12 COUNTER *)
Definition COUNTER : bytes := [99].

(** @src src/src/service/globals/data.rs:52-57 Data::stored_count *)
Definition stored_count (d : Db) : comp db_error Z :=
  match get d global COUNTER with
  | Err _ => Ok 0
  | Ok b => ok_or_fail SerdeDe (u64_from_bytes b)
  end.

(** The counter when the server starts.
    @src src/src/service/globals/data.rs:15-22 Data::new *)
Definition start (d : Db) : World :=
  {| db := d; counter := match stored_count d with Ok n => n | Err _ => 0 end |}.

(** @src src/src/service/globals/data.rs:24-38 Data::next_count *)
Definition next_count (w : World) : comp db_error (Z * World) :=
  let counter := default (counter w) (checked_u64 (counter w + 1)) in
  Ok (counter, {| db := insert (db w) global COUNTER (u64_to_be counter); counter := counter |}).

(** @src src/src/service/globals/data.rs:40-50 Data::current_count *)
Definition current_count (w : World) : Z := counter w.

(** * The tables *)

Section Short.
Context `{!Parsers}.

Definition as_u64_value (v : value) : comp db_error Z :=
  match v with VU64 n => Ok n | _ => Err (Fail SerdeDe) end.
Definition as_str_value (v : value) : comp db_error bytes :=
  match v with VStr s => Ok s | _ => Err (Fail SerdeDe) end.

(** [deserialized::<u64>]. *)
Definition deserialized_u64 (r : comp db_error bytes) : comp db_error Z :=
  v ← deserialized TU64 r; as_u64_value v.
(** [deserialized] at a string type; parsing the string as an identifier is ruma's. *)
Definition deserialized_str (r : comp db_error bytes) : comp db_error bytes :=
  v ← deserialized TStr r; as_str_value v.
(** [deserialized::<(StateEventType, StateKey)>]. *)
Definition deserialized_pair (r : comp db_error bytes) : comp db_error (bytes * bytes) :=
  v ← deserialized (TTuple [TStr; TStr]) r;
  match v with VTuple [VStr a; VStr b] => Ok (a, b) | _ => Err (Fail SerdeDe) end.

(** @src src/src/service/rooms/short/mod.rs:107-114 Service::get_shorteventid *)
Definition get_shorteventid (w : World) (event_id : bytes) : comp db_error Z :=
  deserialized_u64 (get (db w) eventid_shorteventid event_id).

(** @src src/src/service/rooms/short/mod.rs:89-105 Service::create_shorteventid *)
Definition create_shorteventid (w : World) (event_id : bytes) : comp db_error (Z * World) :=
  '(short, w) ← next_count w;
  d ← raw_aput 8 (db w) eventid_shorteventid event_id (VU64 short);
  d ← aput_raw 8 d shorteventid_eventid (VU64 short) event_id;
  Ok (short, with_db w d).

(** @src src/src/service/rooms/short/mod.rs:61-68 Service::get_or_create_shorteventid *)
Definition get_or_create_shorteventid (w : World) (event_id : bytes) : comp db_error (Z * World) :=
  match get_shorteventid w event_id with
  | Ok shorteventid => Ok (shorteventid, w)
  | Err _ => create_shorteventid w event_id
  end.

(** The identifiers looked up, then a number for each that had none; [results] pairs
    every identifier with what the lookup found.
    @src src/src/service/rooms/short/mod.rs:83-86 Service::multi_get_or_create_shorteventid *)
Fixpoint create_missing (w : World) (results : list (comp db_error bytes * bytes)) :
    comp db_error (list Z * World) :=
  match results with
  | [] => Ok ([], w)
  | (result, event_id) :: results =>
      '(short, w) ← match result with
                    | Ok short => match u64_from_bytes short with
                                  | Some n => Ok (n, w) | None => Err Panicked end
                    | Err _ => create_shorteventid w event_id
                    end;
      '(shorts, w) ← create_missing w results;
      Ok (short :: shorts, w)
  end.

(** The stream looks identifiers up in chunks, before the numbers of the chunk's are
    created; [chunks] is how the stream was cut.
    @src src/src/service/rooms/short/mod.rs:70-87 Service::multi_get_or_create_shorteventid *)
Fixpoint multi_get_or_create_shorteventid (w : World) (chunks : list (list bytes)) :
    comp db_error (list Z * World) :=
  match chunks with
  | [] => Ok ([], w)
  | chunk :: chunks =>
      '(shorts, w) ← create_missing w
        (map (fun id => (get (db w) eventid_shorteventid id, id)) chunk);
      '(shorts', w) ← multi_get_or_create_shorteventid w chunks;
      Ok (shorts ++ shorts', w)
  end.


(** @src src/src/service/rooms/short/mod.rs:143-155 Service::get_shortstatekey *)
Definition get_shortstatekey (w : World) (event_type state_key : bytes) : comp db_error Z :=
  deserialized_u64 (qry (db w) statekey_shortstatekey (pair_value event_type state_key)).

(** @src src/src/service/rooms/short/mod.rs:116-141 Service::get_or_create_shortstatekey *)
Definition get_or_create_shortstatekey (w : World) (event_type state_key : bytes) :
    comp db_error (Z * World) :=
  match get_shortstatekey w event_type state_key with
  | Ok shortstatekey => Ok (shortstatekey, w)
  | Err _ =>
      let key := pair_value event_type state_key in
      '(shortstatekey, w) ← next_count w;
      d ← put_aput 8 (db w) statekey_shortstatekey key (VU64 shortstatekey);
      d ← aput_put 8 d shortstatekey_statekey (VU64 shortstatekey) key;
      Ok (shortstatekey, with_db w d)
  end.

(** @src src/src/service/rooms/short/mod.rs:157-173 Service::get_eventid_from_short *)
Definition get_eventid_from_short (w : World) (shorteventid : Z) : comp db_error bytes :=
  deserialized_str (aqry 8 (db w) shorteventid_eventid (VU64 shorteventid)).

(** @src src/src/service/rooms/short/mod.rs:190-208 Service::get_statekey_from_short *)
Definition get_statekey_from_short (w : World) (shortstatekey : Z) : comp db_error (bytes * bytes) :=
  deserialized_pair (aqry 8 (db w) shortstatekey_statekey (VU64 shortstatekey)).

(** The boolean says whether the state already had a number.
    @src src/src/service/rooms/short/mod.rs:223-249 Service::get_or_create_shortstatehash *)
Definition get_or_create_shortstatehash (w : World) (state_hash : bytes) :
    comp db_error ((Z * bool) * World) :=
  match deserialized_u64 (get (db w) statehash_shortstatehash state_hash) with
  | Ok shortstatehash => Ok ((shortstatehash, true), w)
  | Err _ =>
      '(shortstatehash, w) ← next_count w;
      d ← raw_aput 8 (db w) statehash_shortstatehash state_hash (VU64 shortstatehash);
      Ok ((shortstatehash, false), with_db w d)
  end.

(** @src src/src/service/rooms/short/mod.rs:251-254 Service::get_shortroomid *)
Definition get_shortroomid (w : World) (room_id : bytes) : comp db_error Z :=
  deserialized_u64 (get (db w) roomid_shortroomid room_id).

(** @src src/src/service/rooms/short/mod.rs:256-275 Service::get_or_create_shortroomid *)
Definition get_or_create_shortroomid (w : World) (room_id : bytes) : comp db_error (Z * World) :=
  match get_shortroomid w room_id with
  | Ok short => Ok (short, w)
  | Err _ =>
      '(short, w) ← next_count w;
      d ← raw_aput 8 (db w) roomid_shortroomid room_id (VU64 short);
      Ok (short, with_db w d)
  end.

(** @src src/src/service/rooms/short/mod.rs:277-295 Service::multi_get_state_from_short *)
Definition multi_get_state_from_short (w : World) (short_state : list (Z * Z)) :
    list (comp db_error ((bytes * bytes) * bytes)) :=
  map (fun '(shortstatekey, shorteventid) =>
         state_key ← get_statekey_from_short w shortstatekey;
         event_id ← get_eventid_from_short w shorteventid;
         Ok (state_key, event_id)) short_state.

End Short.

(** * Lemmas *)

(** The columns that hold numbers, and those that give the identifier back. *)
Definition is_id (c : column) : bool :=
  match c with
  | eventid_shorteventid | statekey_shortstatekey | roomid_shortroomid
  | statehash_shortstatehash => true
  | _ => false
  end.
Definition inverse (c : column) : option column :=
  match c with
  | eventid_shorteventid => Some shorteventid_eventid
  | statekey_shortstatekey => Some shortstatekey_statekey
  | _ => None
  end.

(** The tables of numbers: every number was drawn from the counter, no number was given twice, in
    any table, the inverse tables invert, and the counter on disk is the one in memory. *)
Record Inv (w : World) : Prop := {
  inv_counter : is_u64 (counter w);
  inv_stored : stored_count (db w) = Ok (counter w);
  inv_issued c k v : is_id c → db w c !! k = Some v → ∃ n, 0 < n ≤ counter w ∧ v = u64_to_be n;
  inv_unique c c' k k' v : is_id c → is_id c' → db w c !! k = Some v → db w c' !! k' = Some v →
    c = c' ∧ k = k';
  inv_inverse c b k v : inverse c = Some b → (db w c !! k = Some v ↔ db w b !! v = Some k);
}.

(** ** The abstract operation *)

(** The number of a key, or the next one. *)
Definition issue (w : World) (c : column) (k : bytes) : World :=
  let n := counter w + 1 in
  let d := insert (insert (db w) global COUNTER (u64_to_be n)) c k (u64_to_be n) in
  {| db := match inverse c with Some b => insert d b (u64_to_be n) k | None => d end; counter := n |}.

Definition allocate (w : World) (c : column) (k : bytes) : Z * World :=
  match db w c !! k with
  | Some v => (from_be v, w)
  | None => (counter w + 1, issue w c k)
  end.

Lemma next_count_spec w : Inv w → counter w < u64_max →
  next_count w = Ok (counter w + 1,
    {| db := insert (db w) global COUNTER (u64_to_be (counter w + 1)); counter := counter w + 1 |}).
Proof.
  intros Hw Hc. unfold next_count, checked_u64. rewrite decide_True; [done|].
  pose proof (inv_counter w Hw). word.
Qed.

Lemma is_id_not_global c : is_id c → c ≠ global.
Proof. by destruct c. Qed.

Lemma inverse_id c b : inverse c = Some b → is_id c ∧ ¬ is_id b ∧ b ≠ global ∧ b ≠ c.
Proof. destruct c; simpl; intros; simplify_eq; split_and!; try done; by intros []. Qed.

(** The tables of numbers after [issue]. *)
Lemma issue_id w c k c' : is_id c → is_id c' →
  db (issue w c k) c' = if decide (c' = c) then <[k := u64_to_be (counter w + 1)]> (db w c) else db w c'.
Proof.
  intros Hc Hc'. unfold issue; simpl. destruct (inverse c) as [b|] eqn:Hb.
  - apply inverse_id in Hb as (_ & Hb & Hg & Hn). unfold insert.
    rewrite (decide_False (P := c' = b)) by (intros ->; done).
    case_decide; [|by rewrite decide_False by by apply is_id_not_global].
    subst. by rewrite decide_False by by apply is_id_not_global.
  - unfold insert. case_decide; [|by rewrite decide_False by by apply is_id_not_global].
    subst. by rewrite decide_False by by apply is_id_not_global.
Qed.

Lemma issue_inverse w c k c' b : is_id c → inverse c' = Some b →
  db (issue w c k) b = if decide (c' = c) then <[u64_to_be (counter w + 1) := k]> (db w b) else db w b.
Proof.
  intros Hc Hb. pose proof (inverse_id _ _ Hb) as (Hc' & Hbi & Hg & Hn).
  assert (b ≠ c) by (intros ->; done). unfold issue; simpl.
  case_decide as Hcc; [subst c'; rewrite Hb, insert_same; by rewrite !insert_other by done|].
  destruct (inverse c) as [b'|] eqn:Hb'.
  - assert (b ≠ b') by (destruct c, c'; simpl in *; simplify_eq; done).
    by rewrite !insert_other by done.
  - by rewrite !insert_other by done.
Qed.

Lemma issue_stored w c k : Inv w → is_id c → counter w < u64_max →
  stored_count (db (issue w c k)) = Ok (counter w + 1).
Proof.
  intros Hw Hc Hlt. pose proof (inv_counter w Hw).
  assert (db (issue w c k) global = <[COUNTER := u64_to_be (counter w + 1)]> (db w global)) as Hg.
  { unfold issue; simpl. pose proof (is_id_not_global c Hc).
    destruct (inverse c) as [b|] eqn:Hb; [apply inverse_id in Hb as (_ & _ & ? & _)|];
      rewrite !insert_other by done; apply insert_same. }
  unfold stored_count, get. rewrite Hg, lookup_insert_eq. cbn [ok_or_fail ok_or].
  unfold u64_from_bytes. rewrite decide_True by done. cbn [ok_or_fail ok_or].
  f_equal. apply u64_round_trip. word.
Qed.

Lemma fresh_number w c k : Inv w → counter w < u64_max → is_id c →
  db w c !! k ≠ Some (u64_to_be (counter w + 1)).
Proof.
  intros Hw Hlt Hc Hk. pose proof (inv_counter w Hw).
  destruct (inv_issued w Hw _ _ _ Hc Hk) as (n & Hn & Heq).
  apply u64_to_be_inj in Heq; word.
Qed.

(** A number in the tables after [issue] is the new one or was there. *)
Lemma issue_lookup w c k c' k' v : Inv w → counter w < u64_max → is_id c → is_id c' →
  db (issue w c k) c' !! k' = Some v →
  (c' = c ∧ k' = k ∧ v = u64_to_be (counter w + 1)) ∨
  (db w c' !! k' = Some v ∧ v ≠ u64_to_be (counter w + 1)).
Proof.
  intros Hw Hlt Hc Hc'. rewrite issue_id by done.
  assert (db w c' !! k' = Some v → v ≠ u64_to_be (counter w + 1)) as Hfresh.
  { intros Hl ->. by eapply fresh_number. }
  case_decide as Hcc; [subst c'|naive_solver].
  intros [[-> <-]|[Hne Hl]]%lookup_insert_Some; [by left|right; auto].
Qed.

Lemma Inv_issue w c k : Inv w → counter w < u64_max → is_id c → db w c !! k = None →
  Inv (issue w c k).
Proof.
  intros Hw Hlt Hc Hk. pose proof (inv_counter w Hw) as Hcount.
  assert (∀ c k v, is_id c → db w c !! k = Some v →
    ∃ n, 0 < n ≤ counter w + 1 ∧ v = u64_to_be n) as Hold.
  { intros c' k' v Hc' Hl. destruct (inv_issued w Hw _ _ _ Hc' Hl) as (n & ? & ->).
    exists n. split; [lia|done]. }
  split.
  - simpl. word.
  - by apply issue_stored.
  - intros c' k' v Hc' Hl. apply issue_lookup in Hl as [(-> & -> & ->)|[Hl _]]; try done.
    + exists (counter w + 1). split; [simpl; word|done].
    + by apply (Hold c' k').
  - intros c1 c2 k1 k2 v Hc1 Hc2 H1 H2.
    apply issue_lookup in H1 as [(-> & -> & ->)|[H1 Hv1]]; try done;
      apply issue_lookup in H2 as [(-> & -> & Hv)|[H2 Hv2]]; try done.
    by eapply (inv_unique w Hw).
  - intros c' b k' v Hb. pose proof (inverse_id _ _ Hb) as (Hc' & _).
    rewrite issue_id, (issue_inverse w c k c' b) by done. case_decide as Hcc; [subst c'|by apply (inv_inverse w Hw)].
    pose proof (inv_inverse w Hw c b) as Hinv. rewrite !lookup_insert_Some. split.
    + intros [[-> <-]|[Hne Hl]]; [by left|]. right. split; [|by apply Hinv].
      intros <-. by eapply fresh_number.
    + intros [[<- ->]|[Hne Hl]]; [by left|]. apply Hinv in Hl; [|done]. right.
      split; [intros ->; congruence|done].
Qed.

Lemma Inv_allocate w c k : Inv w → counter w < u64_max → is_id c → Inv (allocate w c k).2.
Proof.
  intros Hw Hlt Hc. unfold allocate. destruct (db w c !! k) eqn:Hk; [done|]. by apply Inv_issue.
Qed.

(** Columns that hold neither numbers nor the counter. *)
Definition plain_column (c : column) : bool :=
  match c with
  | global | eventid_shorteventid | shorteventid_eventid | statekey_shortstatekey
  | shortstatekey_statekey | roomid_shortroomid | statehash_shortstatehash => false
  | _ => true
  end.

(** Writing a plain column keeps the tables of numbers. *)
Lemma Inv_plain w d : Inv w → (∀ c, ¬ plain_column c → d c = db w c) → Inv (with_db w d).
Proof.
  intros Hw Hd. assert (∀ c, is_id c → d c = db w c) as Hid
    by (intros []; simpl; intros Hc; first [done|apply Hd; by intros []]).
  split; simpl.
  - by apply inv_counter.
  - rewrite <-(inv_stored w Hw). unfold stored_count, get. rewrite Hd; [done|by intros []].
  - intros c k v Hc. rewrite Hid by done. by apply (inv_issued w Hw).
  - intros c c' k k' v Hc Hc'. rewrite !Hid by done. by apply (inv_unique w Hw).
  - intros c b k v Hb. pose proof (inv_inverse w Hw c b k v Hb).
    rewrite (Hd c), (Hd b); [done|..]; destruct c; simpl in Hb; simplify_eq; by intros [].
Qed.

Lemma issue_plain w c k c' : is_id c → plain_column c' → db (issue w c k) c' = db w c'.
Proof.
  intros Hc Hc'. assert (c' ≠ global) by by destruct c'. assert (c' ≠ c) by by destruct c, c'.
  unfold issue; simpl. destruct (inverse c) as [b|] eqn:Hb; [|by rewrite !insert_other].
  assert (c' ≠ b) by (destruct c; simpl in Hb; simplify_eq; by destruct c').
  by rewrite !insert_other.
Qed.

Lemma allocate_plain w c k c' : is_id c → plain_column c' → db (allocate w c k).2 c' = db w c'.
Proof.
  intros Hc Hc'. unfold allocate. destruct (db w c !! k); [done|]. by apply issue_plain.
Qed.

(** The number [allocate] returns is the one stored from then on. *)
Lemma allocate_stored w c k : Inv w → counter w < u64_max → is_id c →
  let '(n, w') := allocate w c k in
  db w' c !! k = Some (u64_to_be n) ∧ 0 < n ≤ counter w' ∧ counter w ≤ counter w' ≤ counter w + 1.
Proof.
  intros Hw Hlt Hc. unfold allocate. destruct (db w c !! k) as [v|] eqn:Hk.
  - destruct (inv_issued w Hw _ _ _ Hc Hk) as (n & Hn & ->). pose proof (inv_counter w Hw).
    assert (from_be (u64_to_be n) = n) as -> by (apply u64_round_trip; word). split_and!; done || lia.
  - pose proof (inv_counter w Hw). rewrite issue_id by done. rewrite decide_True by done.
    rewrite lookup_insert_eq. simpl. split_and!; done || word.
Qed.

Lemma allocate_other w c k c' k' : is_id c → is_id c' → (c', k') ≠ (c, k) →
  db (allocate w c k).2 c' !! k' = db w c' !! k'.
Proof.
  intros Hc Hc' Hne. unfold allocate. destruct (db w c !! k); [done|]. cbn [snd].
  rewrite issue_id by done. case_decide; [|done]. subst.
  by rewrite lookup_insert_ne by congruence.
Qed.

(** ** The operations are [allocate] *)

Section Operations.
Context `{!Parsers}.

Lemma get_number w c k : Inv w → is_id c →
  deserialized_u64 (get (db w) c k) =
  match db w c !! k with Some v => Ok (from_be v) | None => Err (Fail NotFound) end.
Proof.
  intros Hw Hc. unfold deserialized_u64, deserialized, get.
  destruct (db w c !! k) as [v|] eqn:Hk; [|done].
  destruct (inv_issued w Hw _ _ _ Hc Hk) as (n & Hn & ->). pose proof (inv_counter w Hw).
  cbn [ok_or_fail ok_or mbind result_bind]. rewrite from_slice_u64 by word.
  cbn [mbind result_bind as_u64_value]. f_equal. symmetry. apply u64_round_trip. word.
Qed.

(** Reading a number fails or gives what [allocate] gives. *)
Lemma get_allocate w c k : Inv w → is_id c →
  deserialized_u64 (get (db w) c k) =
  match db w c !! k with Some _ => Ok (allocate w c k).1 | None => Err (Fail NotFound) end.
Proof.
  intros Hw Hc. rewrite get_number by done. unfold allocate. by destruct (db w c !! k).
Qed.

Lemma create_shorteventid_spec w e : Inv w → counter w < u64_max →
  create_shorteventid w e = Ok (counter w + 1, issue w eventid_shorteventid e).
Proof.
  intros Hw Hlt. unfold create_shorteventid. rewrite next_count_spec by done.
  cbn [mbind result_bind]. rewrite raw_aput_u64. cbn [mbind result_bind].
  rewrite aput_raw_u64. done.
Qed.

Lemma get_or_create_shorteventid_spec w e : Inv w → counter w < u64_max →
  get_or_create_shorteventid w e = Ok (allocate w eventid_shorteventid e).
Proof.
  intros Hw Hlt. unfold get_or_create_shorteventid, get_shorteventid. rewrite get_number by done.
  unfold allocate. destruct (db w _ !! e); [done|]. by apply create_shorteventid_spec.
Qed.

Lemma get_shortstatekey_spec w a b :
  get_shortstatekey w a b = deserialized_u64 (get (db w) statekey_shortstatekey (pair_key a b)).
Proof. unfold get_shortstatekey, qry, bqry. by rewrite serialize_pair. Qed.

Lemma get_or_create_shortstatekey_spec w a b : Inv w → counter w < u64_max →
  get_or_create_shortstatekey w a b = Ok (allocate w statekey_shortstatekey (pair_key a b)).
Proof.
  intros Hw Hlt. unfold get_or_create_shortstatekey. rewrite get_shortstatekey_spec, get_number by done.
  unfold allocate. destruct (db w _ !! _); [done|]. rewrite next_count_spec by done.
  cbn [mbind result_bind]. unfold put_aput, aput_put, bput, bput_raw. rewrite !serialize_u64_8.
  cbn [expect_ok mbind result_bind]. rewrite serialize_pair. done.
Qed.

Lemma get_or_create_shortroomid_spec w r : Inv w → counter w < u64_max →
  get_or_create_shortroomid w r = Ok (allocate w roomid_shortroomid r).
Proof.
  intros Hw Hlt. unfold get_or_create_shortroomid, get_shortroomid. rewrite get_number by done.
  unfold allocate. destruct (db w _ !! r); [done|]. rewrite next_count_spec by done.
  cbn [mbind result_bind]. rewrite raw_aput_u64. done.
Qed.

Lemma get_or_create_shortstatehash_spec w h : Inv w → counter w < u64_max →
  get_or_create_shortstatehash w h =
  let '(n, w') := allocate w statehash_shortstatehash h in
  Ok ((n, bool_decide (is_Some (db w statehash_shortstatehash !! h))), w').
Proof.
  intros Hw Hlt. unfold get_or_create_shortstatehash. rewrite get_number by done.
  unfold allocate. destruct (db w _ !! h); [done|]. rewrite next_count_spec by done.
  cbn [mbind result_bind]. rewrite raw_aput_u64. done.
Qed.

(** The inverse tables give the identifier back. *)
Lemma inverse_stored w c b k v : Inv w → inverse c = Some b → db w c !! k = Some v →
  ∃ n, v = u64_to_be n ∧ is_u64 n ∧ aqry 8 (db w) b (VU64 n) = Ok k.
Proof.
  intros Hw Hb Hk. pose proof (inverse_id _ _ Hb) as (Hc & _).
  destruct (inv_issued w Hw _ _ _ Hc Hk) as (n & Hn & ->). pose proof (inv_counter w Hw).
  exists n. split_and!; [done|word|]. rewrite aqry_u64. unfold get.
  by apply (inv_inverse w Hw c b) in Hk as ->.
Qed.

Lemma get_eventid_stored w e v : Inv w → valid_utf8 e → db w eventid_shorteventid !! e = Some v →
  get_eventid_from_short w (from_be v) = Ok e.
Proof.
  intros Hw He Hk. destruct (inverse_stored w eventid_shorteventid _ _ _ Hw eq_refl Hk)
    as (n & -> & Hn & Hq).
  assert (from_be (u64_to_be n) = n) as -> by by apply u64_round_trip.
  unfold get_eventid_from_short, deserialized_str, deserialized. rewrite Hq.
  cbn [mbind result_bind]. by rewrite from_slice_str.
Qed.

Lemma event_number w id e : Inv w → valid_utf8 id → is_u64 e →
  db w eventid_shorteventid !! id = Some (u64_to_be e) → get_eventid_from_short w e = Ok id.
Proof.
  intros Hw Hid He Hl. rewrite <-(get_eventid_stored w id (u64_to_be e)) by done.
  f_equal. symmetry. by apply u64_round_trip.
Qed.

Lemma get_statekey_stored w a b v : Inv w → valid_utf8 a → valid_utf8 b →
  db w statekey_shortstatekey !! pair_key a b = Some v →
  get_statekey_from_short w (from_be v) = Ok (a, b).
Proof.
  intros Hw Ha Hb Hk. destruct (inverse_stored w statekey_shortstatekey _ _ _ Hw eq_refl Hk)
    as (n & -> & Hn & Hq).
  assert (from_be (u64_to_be n) = n) as -> by by apply u64_round_trip.
  unfold get_statekey_from_short, deserialized_pair, deserialized. rewrite Hq.
  cbn [mbind result_bind]. by rewrite from_slice_pair.
Qed.

(** ** Many identifiers at once *)

(** One after the other. *)
Fixpoint get_or_create_each (w : World) (ids : list bytes) : comp db_error (list Z * World) :=
  match ids with
  | [] => Ok ([], w)
  | id :: ids =>
      '(short, w) ← get_or_create_shorteventid w id;
      '(shorts, w) ← get_or_create_each w ids;
      Ok (short :: shorts, w)
  end.

Lemma get_or_create_each_app w ids ids' :
  get_or_create_each w (ids ++ ids') =
  ('(shorts, w) ← get_or_create_each w ids; '(shorts', w) ← get_or_create_each w ids';
   Ok (shorts ++ shorts', w)).
Proof.
  revert w. induction ids as [|id ids IH]; intros w; simpl.
  - by destruct (get_or_create_each w ids') as [[]|].
  - destruct (get_or_create_shorteventid w id) as [[n w1]|]; [|done]. simpl. rewrite IH.
    destruct (get_or_create_each w1 ids) as [[ns w2]|]; [|done]. simpl.
    by destruct (get_or_create_each w2 ids') as [[]|].
Qed.

(** A lookup made before other identifiers of the chunk got numbers is still right. *)
Lemma create_missing_spec w0 w ids : Inv w → counter w + Z.of_nat (length ids) ≤ u64_max →
  NoDup ids → (∀ id, id ∈ ids → db w eventid_shorteventid !! id = db w0 eventid_shorteventid !! id) →
  create_missing w (map (fun id => (get (db w0) eventid_shorteventid id, id)) ids)
    = get_or_create_each w ids.
Proof.
  revert w. induction ids as [|id ids IH]; intros w Hw Hlen Hnd Hids; [done|].
  apply NoDup_cons in Hnd as [Hnot Hnd]. cbn [length] in Hlen.
  cbn [map create_missing get_or_create_each].
  rewrite get_or_create_shorteventid_spec by done || lia.
  assert (match get (db w0) eventid_shorteventid id with
    | Ok short => match u64_from_bytes short with Some n => Ok (n, w) | None => Err Panicked end
    | Err _ => create_shorteventid w id
    end = Ok (allocate w eventid_shorteventid id)) as ->.
  { unfold get, allocate. rewrite <-Hids by set_solver.
    destruct (db w eventid_shorteventid !! id) as [v|] eqn:Hv; cbn [ok_or_fail ok_or].
    - destruct (inv_issued w Hw eventid_shorteventid id v I Hv) as (n & Hn & ->).
      unfold u64_from_bytes. by rewrite decide_True.
    - apply create_shorteventid_spec; done || lia. }
  cbn [mbind result_bind]. pose proof (allocate_stored w eventid_shorteventid id Hw ltac:(lia) I) as Hst.
  pose proof (Inv_allocate w eventid_shorteventid id Hw ltac:(lia) I) as Hinv.
  pose proof (fun k => allocate_other w eventid_shorteventid id eventid_shorteventid k I I) as Hoth.
  destruct (allocate w eventid_shorteventid id) as [n w1]. cbn [fst snd] in *.
  rewrite IH; [done|done|lia|done|].
  intros k Hk. rewrite Hoth by (intros [= ->]; done). apply Hids. set_solver.
Qed.

Lemma get_or_create_each_counter w ids : Inv w → counter w + Z.of_nat (length ids) ≤ u64_max →
  ∃ ns w', get_or_create_each w ids = Ok (ns, w') ∧ Inv w' ∧
  counter w' ≤ counter w + Z.of_nat (length ids).
Proof.
  revert w. induction ids as [|id ids IH]; intros w Hw Hlen; simpl in Hlen.
  { exists [], w. split_and!; done || simpl; lia. }
  cbn [get_or_create_each]. rewrite get_or_create_shorteventid_spec by done || lia.
  pose proof (allocate_stored w eventid_shorteventid id Hw ltac:(lia) I) as Hst.
  pose proof (Inv_allocate w eventid_shorteventid id Hw ltac:(lia) I) as Hinv.
  destruct (allocate w eventid_shorteventid id) as [n w1]. cbn [fst snd] in *.
  cbn [mbind result_bind].
  destruct (IH w1) as (ns & w2 & -> & Hw2 & Hc); [done|lia|]. cbn [mbind result_bind].
  exists (n :: ns), w2. split_and!; done || (simpl; lia).
Qed.

Lemma multi_spec w chunks : Inv w → counter w + Z.of_nat (length (concat chunks)) ≤ u64_max →
  NoDup (concat chunks) → multi_get_or_create_shorteventid w chunks = get_or_create_each w (concat chunks).
Proof.
  revert w. induction chunks as [|chunk chunks IH]; intros w Hw Hlen Hnd; [done|].
  cbn [concat multi_get_or_create_shorteventid] in *. rewrite length_app in Hlen.
  apply NoDup_app in Hnd as (Hnd & _ & Hnd').
  rewrite create_missing_spec, get_or_create_each_app by done || lia.
  destruct (get_or_create_each_counter w chunk) as (ns & w1 & -> & Hw1 & Hc); [done|lia|].
  simpl. rewrite IH by done || lia. done.
Qed.
End Operations.

(** * Properties *)

Section Properties.
Context `{!Parsers}.

(** C9: The four operations that hand out numbers implement one abstract operation: the number
    of the identifier in its table, or the counter's next value, entered in the table and its
    inverse.  It keeps the tables well formed: no number is ever given to two identifiers, even
    of different kinds, and the counter on disk is the one in memory, so that a restarted server
    goes on without repeating a number. *)
Theorem short_ids_refine (w : World) (Hw : Inv w) (Hlt : counter w < u64_max) :
  (∀ e, get_or_create_shorteventid w e = Ok (allocate w eventid_shorteventid e)) ∧
  (∀ a b, get_or_create_shortstatekey w a b
    = Ok (allocate w statekey_shortstatekey (pair_key a b))) ∧
  (∀ r, get_or_create_shortroomid w r = Ok (allocate w roomid_shortroomid r)) ∧
  (∀ h, ∃ existed, get_or_create_shortstatehash w h =
    let '(n, w') := allocate w statehash_shortstatehash h in Ok ((n, existed), w')) ∧
  (∀ c k, is_id c → Inv (allocate w c k).2) ∧ start (db w) = w.
Proof.
  split_and!.
  - intros. by apply get_or_create_shorteventid_spec.
  - intros. by apply get_or_create_shortstatekey_spec.
  - intros. by apply get_or_create_shortroomid_spec.
  - intros. eexists. by apply get_or_create_shortstatehash_spec.
  - intros. by apply Inv_allocate.
  - unfold start. rewrite (inv_stored w Hw). by destruct w.
Qed.

(** The number of an event identifier is stable and leads back to it: once handed out, asking
    again gives the same number and changes nothing, the number gives the identifier, and
    the numbers of other events are as before and different. *)
Theorem shorteventid_round_trip (w : World) (e : bytes) (Hw : Inv w) (Hlt : counter w < u64_max)
    (He : valid_utf8 e) : ∃ n w',
  get_or_create_shorteventid w e = Ok (n, w') ∧ Inv w' ∧
  get_or_create_shorteventid w' e = Ok (n, w') ∧
  get_shorteventid w' e = Ok n ∧ get_eventid_from_short w' n = Ok e ∧
  (∀ e', e' ≠ e → get_shorteventid w' e' = get_shorteventid w e' ∧ get_shorteventid w' e' ≠ Ok n).
Proof.
  rewrite get_or_create_shorteventid_spec by done.
  pose proof (allocate_stored w eventid_shorteventid e Hw Hlt I) as Hst.
  pose proof (Inv_allocate w eventid_shorteventid e Hw Hlt I) as Hinv.
  pose proof (fun k => allocate_other w eventid_shorteventid e eventid_shorteventid k I I) as Hoth.
  destruct (allocate w eventid_shorteventid e) as [n w'] eqn:Ha. cbn [fst snd] in *.
  destruct Hst as (Hst & Hn & _). pose proof (inv_counter w' Hinv).
  assert (from_be (u64_to_be n) = n) as Hfrom by (apply u64_round_trip; word).
  assert (get_shorteventid w' e = Ok n) as Hget.
  { unfold get_shorteventid. rewrite get_number, Hst by done. by rewrite Hfrom. }
  exists n, w'. split_and!; [done|done| |done| |].
  - unfold get_or_create_shorteventid. by rewrite Hget.
  - rewrite <-Hfrom. by apply get_eventid_stored.
  - intros e' He'. unfold get_shorteventid. rewrite !get_number, Hoth by (done || congruence).
    split; [done|]. destruct (db w eventid_shorteventid !! e') as [v|] eqn:Hv; [|done].
    rewrite <-Hoth in Hv by congruence.
    destruct (inv_issued w' Hinv eventid_shorteventid e' v I Hv) as (m & Hm & ->).
    assert (from_be (u64_to_be m) = m) as -> by (apply u64_round_trip; word).
    intros [= ->]. by destruct (inv_unique w' Hinv eventid_shorteventid eventid_shorteventid _ _ _ I I Hst Hv) as [_ ?].
Qed.

(** The same for pairs of an event type and a state key, whose table key joins the two
    strings: the number leads back to the pair, and no two pairs share a number. *)
Theorem shortstatekey_round_trip (w : World) (a b : bytes) (Hw : Inv w) (Hlt : counter w < u64_max)
    (Ha : valid_utf8 a) (Hb : valid_utf8 b) : ∃ n w',
  get_or_create_shortstatekey w a b = Ok (n, w') ∧ Inv w' ∧
  get_shortstatekey w' a b = Ok n ∧ get_statekey_from_short w' n = Ok (a, b) ∧
  (∀ a' b', valid_utf8 a' → valid_utf8 b' → (a', b') ≠ (a, b) →
     get_shortstatekey w' a' b' = get_shortstatekey w a' b' ∧ get_shortstatekey w' a' b' ≠ Ok n).
Proof.
  rewrite get_or_create_shortstatekey_spec by done. set (k := pair_key a b).
  pose proof (allocate_stored w statekey_shortstatekey k Hw Hlt I) as Hst.
  pose proof (Inv_allocate w statekey_shortstatekey k Hw Hlt I) as Hinv.
  pose proof (fun k' => allocate_other w statekey_shortstatekey k statekey_shortstatekey k' I I) as Hoth.
  destruct (allocate w statekey_shortstatekey k) as [n w'] eqn:Hal. cbn [fst snd] in *.
  destruct Hst as (Hst & Hn & _). pose proof (inv_counter w' Hinv).
  assert (from_be (u64_to_be n) = n) as Hfrom by (apply u64_round_trip; word).
  exists n, w'. split_and!; [done|done| | |].
  - rewrite get_shortstatekey_spec, get_number by done. fold k. rewrite Hst. by rewrite Hfrom.
  - rewrite <-Hfrom. by apply get_statekey_stored.
  - intros a' b' Ha' Hb' Hne. rewrite !get_shortstatekey_spec, !get_number by done.
    assert (pair_key a' b' ≠ k) as Hk by (intros [-> ->]%pair_key_inj; done).
    rewrite Hoth by congruence. split; [done|].
    destruct (db w statekey_shortstatekey !! pair_key a' b') as [v|] eqn:Hv; [|done].
    rewrite <-Hoth in Hv by congruence.
    destruct (inv_issued w' Hinv statekey_shortstatekey _ v I Hv) as (m & Hm & ->).
    assert (from_be (u64_to_be m) = m) as -> by (apply u64_round_trip; word).
    intros [= ->]. by destruct (inv_unique w' Hinv statekey_shortstatekey statekey_shortstatekey _ _ _ I I Hst Hv) as [_ ?].
Qed.

(** Numbering many events through the stream that looks them up ahead, in chunks of any
    sizes, gives the numbers and the state that numbering them one after the other does, as long as no
    identifier occurs twice. *)
Theorem multi_get_or_create_correct (w : World) (chunks : list (list bytes)) (Hw : Inv w)
    (Hlen : counter w + Z.of_nat (length (concat chunks)) ≤ u64_max) (Hnd : NoDup (concat chunks)) :
  multi_get_or_create_shorteventid w chunks = get_or_create_each w (concat chunks).
Proof. by apply multi_spec. Qed.
End Properties.

(** * Concrete tables *)
Module ShortWitness.
#[local] Instance any_parsers : Parsers := {| json_ok _ := true; cbor_ok _ := true |}.

Definition new_world : World := start empty_db.

Lemma new_world_Inv : Inv new_world.
Proof. split; done. Qed.

Lemma short_ids_refine_witness :
  get_or_create_shorteventid new_world [36; 97] = Ok (1, issue new_world eventid_shorteventid [36; 97]) ∧
  start (db new_world) = new_world.
Proof.
  destruct (short_ids_refine new_world new_world_Inv eq_refl) as (H & _ & _ & _ & _ & Hs).
  split; [exact (H [36; 97])|exact Hs].
Defined.

Lemma shorteventid_round_trip_witness : ∃ n w',
  get_or_create_shorteventid new_world [36; 97] = Ok (n, w') ∧ get_eventid_from_short w' n = Ok [36; 97].
Proof.
  destruct (shorteventid_round_trip new_world [36; 97] new_world_Inv eq_refl I)
    as (n & w' & H & _ & _ & _ & Hb & _).
  exists n, w'. split; [exact H|exact Hb].
Defined.

Lemma shortstatekey_round_trip_witness : ∃ n w',
  get_or_create_shortstatekey new_world [109] [64] = Ok (n, w') ∧
  get_statekey_from_short w' n = Ok ([109], [64]).
Proof.
  destruct (shortstatekey_round_trip new_world [109] [64] new_world_Inv eq_refl I I)
    as (n & w' & H & _ & _ & Hb & _).
  exists n, w'. split; [exact H|exact Hb].
Defined.

Lemma multi_get_or_create_correct_witness :
  multi_get_or_create_shorteventid new_world [[[1]; [2]]; [[3]]]
  = get_or_create_each new_world [[1]; [2]; [3]].
Proof.
  apply (multi_get_or_create_correct new_world [[[1]; [2]]; [[3]]] new_world_Inv).
  - done.
  - apply (bool_decide_unpack _). vm_compute. exact I.
Defined.

(** An identifier twice in a chunk gets two numbers. *)
Example multi_duplicate : ∃ w,
  multi_get_or_create_shorteventid new_world [[[1]; [1]]] = Ok ([1; 2], w) ∧
  get_eventid_from_short w 1 = Ok [1] ∧ get_eventid_from_short w 2 = Ok [1].
Proof. eexists. split; [reflexivity|]. split; vm_compute; reflexivity. Qed.

(** The counter stays at its last value when it is exhausted, and repeats it. *)
Example counter_saturates :
  (next_count {| db := empty_db; counter := u64_max |}) =
  Ok (u64_max, {| db := insert empty_db global COUNTER (u64_to_be u64_max); counter := u64_max |}).
Proof. reflexivity. Qed.

End ShortWitness.
