(* ===== verification/Tables.v ===== *)
(** Columns as images of maps: what a service keeps of each object, under a key computed from the
    object and its data.  The lemmas follow the operations on the column. *)

From stdpp Require Import prelude gmap sorting.
From Stdlib Require Import ZArith Lia.
From S2P Require Import Prelude Bytes DbSer Database PairKeys Scans.

Local Open Scope Z_scope.

Section Tables.
Context `{Countable K} {E : Type} (kf vf : K → E → bytes).
Implicit Types (A : gmap K E) (m : gmap bytes bytes) (x y : K) (e : E).

(** [m] holds exactly what [A] says, each object under a key of its own. *)
Record Represents A m : Prop := {
  rep_lookup k v : m !! k = Some v ↔ ∃ x e, A !! x = Some e ∧ k = kf x e ∧ v = vf x e;
  rep_inj x y e e' : A !! x = Some e → A !! y = Some e' → kf x e = kf y e' → x = y;
}.

Lemma represents_empty : Represents ∅ ∅.
Proof. split; [|done]. intros k v. rewrite lookup_empty. split; [done|]. intros (x & e & Hx & _). by rewrite lookup_empty in Hx. Qed.

Lemma rep_Some A m x e : Represents A m → A !! x = Some e → m !! kf x e = Some (vf x e).
Proof. intros Hr Hx. apply (rep_lookup A m Hr). eauto. Qed.

(** The column without the object's entry. *)
Definition forget_key A x m : gmap bytes bytes :=
  match A !! x with Some e => delete (kf x e) m | None => m end.

Lemma rep_delete A m x : Represents A m → Represents (delete x A) (forget_key A x m).
Proof.
  intros [Hl Hi]. split.
  - intros k v. unfold forget_key. setoid_rewrite lookup_delete_Some. destruct (A !! x) as [e|] eqn:Hx.
    + rewrite lookup_delete_Some, Hl. split.
      * intros [Hne (y & e' & Hy & -> & ->)]. exists y, e'. split_and!; try done. intros <-. congruence.
      * intros (y & e' & [Hne Hy] & -> & ->). split; [|eauto]. intros Heq. by apply Hne, (Hi x y e e').
    + rewrite Hl. split; [|naive_solver]. intros (y & e' & Hy & -> & ->). exists y, e'.
      split_and!; try done. congruence.
  - intros y z e e' [_ Hy]%lookup_delete_Some [_ Hz]%lookup_delete_Some. eauto.
Qed.

Lemma rep_insert A m x e : Represents A m →
  (∀ y e', y ≠ x → A !! y = Some e' → kf y e' ≠ kf x e) →
  Represents (<[x := e]> A) (<[kf x e := vf x e]> (forget_key A x m)).
Proof.
  intros Hr Hfresh. pose proof (rep_delete A m x Hr) as [Hl Hi]. split.
  - intros k v. rewrite lookup_insert_Some, Hl. setoid_rewrite lookup_delete_Some.
    setoid_rewrite lookup_insert_Some. split.
    + intros [[<- <-]|[Hne (y & e' & [Hyx Hy] & -> & ->)]]; [by eauto 10|]. eauto 10.
    + intros (y & e' & [[<- <-]|[Hyx Hy]] & -> & ->); [by left|right]. split; [|by eauto 10].
      intros Heq. by apply (Hfresh y e').
  - intros y z e1 e2 Hy Hz Hk. apply lookup_insert_Some in Hy as [[<- <-]|[Hxy Hy]];
      apply lookup_insert_Some in Hz as [[<- <-]|[Hxz Hz]]; try done.
    + exfalso. by apply (Hfresh z e2).
    + exfalso. by apply (Hfresh y e1).
    + by apply (rep_inj A m Hr y z e1 e2).
Qed.

(** Replacing what a key that does not change holds. *)
Lemma rep_update A m x e : Represents A m →
  (∀ y e', A !! y = Some e' → kf y e' = kf x e → y = x) →
  (∀ e', A !! x = Some e' → kf x e' = kf x e) →
  Represents (<[x := e]> A) (<[kf x e := vf x e]> m).
Proof.
  intros Hr Hfresh Hsame. pose proof (rep_insert A m x e Hr) as Hins.
  assert (<[kf x e := vf x e]> (forget_key A x m) = <[kf x e := vf x e]> m) as Heq.
  { unfold forget_key. destruct (A !! x) as [e'|] eqn:Hx; [|done]. by rewrite (Hsame e'), insert_delete_eq. }
  rewrite Heq in Hins. apply Hins. intros y e' Hne Hy Hk. by apply Hne, (Hfresh y e').
Qed.

Lemma rep_None A m x e : Represents A m → A !! x = None →
  (∀ y e', A !! y = Some e' → kf y e' = kf x e → y = x) → m !! kf x e = None.
Proof.
  intros Hr Hx Hi. destruct (m !! kf x e) as [v|] eqn:Hm; [|done].
  apply (rep_lookup A m Hr) in Hm as (y & e' & Hy & Hk & _). rewrite (Hi y e') in Hy; congruence.
Qed.
(** Removing the keys of the objects that do not satisfy a property. *)
Lemma rep_filter A m m' (P : K * E → Prop) `{!∀ xe, Decision (P xe)} (l : list bytes) : Represents A m →
  (∀ k, m' !! k = if decide (k ∈ l) then None else m !! k) →
  (∀ x e, A !! x = Some e → kf x e ∈ l ↔ ¬ P (x, e)) → Represents (filter P A) m'.
Proof.
  intros [Hl Hi] Hm' HP. split.
  - intros k v. rewrite Hm'. setoid_rewrite map_lookup_filter_Some. split.
    + case_decide as Hk; [done|]. intros (x & e & Hx & -> & ->)%Hl. exists x, e. split_and!; try done.
      destruct (decide (P (x, e))) as [|Hn]; [done|]. by apply (HP x e Hx) in Hn.
    + intros (x & e & [Hx HPx] & -> & ->). rewrite decide_False; [apply Hl; eauto|].
      intros Hk. by apply (HP x e Hx) in Hk.
  - intros x y e e' [Hx _]%map_lookup_filter_Some [Hy _]%map_lookup_filter_Some. eauto.
Qed.
End Tables.

(** * Columns kept as logs: each entry under its owner and a number drawn from the counter.  A scan from
    a number on finds exactly the owner's entries there, in the order of their numbers.  Instances are
    the inboxes of devices and the changes of keys. *)

Local Open Scope Z_scope.

(** [to.is_none_or(|to| count <= to)]. *)
Definition up_to (to : option Z) (count : Z) : bool :=
  match to with Some to => count <=? to | None => true end.

Lemma up_to_mono to n n' : up_to to n' → n ≤ n' → up_to to n.
Proof. destruct to; simpl; [|done]. rewrite !Is_true_true, !Z.leb_le. lia. Qed.

Definition saturating_succ (n : Z) : Z := Z.min (n + 1) u64_max.

Section Log.
Context `{!Parsers} (pts qts : list ty) (Hpts : pts ≠ []).
Context `{Countable K} {E : Type} (owner : K → list value) (num : K → E → Z) (post : K → E → list value).
Context (vf : K → E → bytes) {B : Type} (item : K → E → B).

Definition log_key (x : K) (e : E) : bytes := tuple_bytes (counted (owner x) (num x e) (post x e)).

(** An entry whose key can be read back, as the item the stream yields. *)
Definition entry_ok (g : bytes * bytes → option B) (x : K) (e : E) : Prop :=
  row pts qts (owner x) (num x e) (post x e) (log_key x e) ∧ g (log_key x e, vf x e) = Some (item x e).

Context (A : gmap K E) (d : Db) (c : column) (Hrep : Represents log_key vf A (d c)).
Context (p : list value) (Hp : Forall2 field pts p).

Section Scan.
Context (g : bytes * bytes → option B) (Q : B → Prop) `{!∀ b, Decision (Q b)} (bound : Z → Prop).
Context (Hok : ∀ x e, A !! x = Some e → entry_ok g x e) (lo : Z) (Hlo : is_u64 lo).
Context (Hbound : ∀ n n', bound n' → n ≤ n' → bound n).
Context (HQ : ∀ x e, A !! x = Some e → Q (item x e) ↔ owner x = p ∧ bound (num x e)).

Lemma log_entry k v b : d c !! k = Some v → g (k, v) = Some b → ∃ x e,
  A !! x = Some e ∧ k = log_key x e ∧ b = item x e ∧ row pts qts (owner x) (num x e) (post x e) k.
Proof.
  intros Hk Hb. apply (rep_lookup _ _ _ _ Hrep) in Hk as (x & e & HA & -> & ->).
  destruct (Hok _ _ HA) as [Hrow Hg]. rewrite Hg in Hb. injection Hb as <-. eauto 10.
Qed.

Lemma log_counted : Counted pts qts (d c).
Proof.
  intros k v Hk. apply (rep_lookup _ _ _ _ Hrep) in Hk as (x & e & HA & -> & ->).
  destruct (Hok _ _ HA) as [Hrow _]. eauto.
Qed.

Lemma log_owned k v b : d c !! k = Some v → g (k, v) = Some b →
  Q b ↔ ∃ n q, row pts qts p n q k ∧ bound n.
Proof.
  intros Hk Hb. destruct (log_entry k v b Hk Hb) as (x & e & HA & -> & -> & Hrow). rewrite HQ by done. split.
  - intros [<- Hn]. eauto.
  - intros (n & q & Hrow' & Hn). by destruct (row_inj pts qts Hpts _ _ _ _ _ _ _ Hrow Hrow') as (Ho & <- & _).
Qed.

Definition log_scan : list B := take_while Q (omap g (raw_stream_from d c (from_key p lo))).

Lemma log_scan_elem b : b ∈ log_scan ↔
  ∃ x e, b = item x e ∧ A !! x = Some e ∧ owner x = p ∧ lo ≤ num x e ∧ bound (num x e).
Proof.
  change log_scan with (counted_stream g Q p lo d c).
  rewrite (counted_stream_elem pts qts Hpts g Q p Hp lo Hlo bound (d c) log_counted Hbound log_owned) by done.
  cbv zeta. split.
  - intros (n & q & v & Hk & Hrow & Hb & Hle & Hn).
    destruct (log_entry _ v b Hk Hb) as (x & e & HA & _ & -> & Hrow').
    destruct (row_inj pts qts Hpts _ _ _ _ _ _ _ Hrow' Hrow) as (Ho & <- & _). eauto 10.
  - intros (x & e & -> & HA & <- & Hle & Hn). destruct (Hok _ _ HA) as [Hrow Hg].
    exists (num x e), (post x e), (vf x e). split_and!; [|done..]. by apply (rep_Some _ _ _ _ x e Hrep).
Qed.

Lemma log_scan_sorted (S : B → B → Prop) :
  (∀ x e y e', A !! x = Some e → A !! y = Some e' → owner x = p → owner y = p → x ≠ y → num x e ≤ num y e' →
     S (item x e) (item y e')) →
  StronglySorted S log_scan.
Proof.
  intros HS. change log_scan with (counted_stream g Q p lo d c).
  eapply (counted_stream_sorted pts qts Hpts g Q p Hp lo bound (d c) log_counted Hbound log_owned); [done|].
  intros k v b n q k' v' b' n' q' Hk Hk' Hrow Hrow' Hne Hle Hb Hb'.
  destruct (log_entry k v b Hk Hb) as (x & e & HA & -> & -> & Hr).
  destruct (log_entry k' v' b' Hk' Hb') as (y & e' & HA' & -> & -> & Hr').
  destruct (row_inj pts qts Hpts _ _ _ _ _ _ _ Hr Hrow) as (Ho & <- & _).
  destruct (row_inj pts qts Hpts _ _ _ _ _ _ _ Hr' Hrow') as (Ho' & <- & _).
  apply HS; [done..| |done]. intros <-. assert (e = e') as -> by congruence. done.
Qed.
End Scan.
End Log.
