(* ===== verification/AccountData.v ===== *)
(** Account data: src/src/service/account_data/mod.rs.

    A user's settings, global or of a room, one per type.  A table holds the data under owner,
    number and type, so that clients are sent what changed since a number; another maps owner and
    type to the key of the first.  [data] is a parsed JSON value, of [serde_json]. *)

From stdpp Require Import prelude gmap sorting.
From Stdlib Require Import ZArith Lia.
From S2P Require Import Prelude Bytes DbSer Database PairKeys Scans Tables Short.
Local Open Scope Z_scope.

(** [serde_json::Value]: a field of an object, and the text it is written as. *)
Class JsonValue (V : Type) := {
  json_field : V → bytes → option V;
  json_text : V → bytes;
}.

Definition TYPE : bytes := [116; 121; 112; 101].
Definition CONTENT : bytes := [99; 111; 110; 116; 101; 110; 116].

Section AccountData.
Context `{!Parsers} {V : Type} `{!JsonValue V}.

Definition data_id (room_id : option bytes) (user_id : bytes) (count : Z) (kind : bytes) : value :=
  VTuple [opt_str room_id; VStr user_id; VU64 count; VStr kind].

Definition type_key (room_id : option bytes) (user_id kind : bytes) : value :=
  VTuple [opt_str room_id; VStr user_id; VStr kind].

(** The user whose sync loops are woken is returned beside the new state.
    @src src/src/service/account_data/mod.rs:63-92 Service::update *)
Definition update (w : World) (room_id : option bytes) (user_id event_type : bytes) (data : V) :
    comp db_error (World * list bytes) :=
  if decide (json_field data TYPE = None ∨ json_field data CONTENT = None) then Err (Fail InvalidParam)
  else
    '(count, w) ← expect_ok (next_count w);
    let roomuserdataid := data_id room_id user_id count event_type in
    d ← put (db w) roomuserdataid_accountdata roomuserdataid (VJson (json_text data));
    let key := type_key room_id user_id event_type in
    let prev := qry d roomusertype_roomuserdataid key in
    d ← put d roomusertype_roomuserdataid key roomuserdataid;
    let d := match prev with Ok prev => remove d roomuserdataid_accountdata prev | Err _ => d end in
    Ok (with_db w d, [user_id]).

(** @src src/src/service/account_data/mod.rs:123-135 Service::get_raw *)
Definition get_raw (d : Db) (room_id : option bytes) (user_id kind : bytes) : comp db_error bytes :=
  roomuserdataid ← qry d roomusertype_roomuserdataid (type_key room_id user_id kind);
  get d roomuserdataid_accountdata roomuserdataid.

(** [json_ok] says whether [serde_json] reads the text at the type asked for.
    @src src/src/service/account_data/mod.rs:95-106 Service::get_global *)
Definition get_global (d : Db) (user_id kind : bytes) : comp db_error value :=
  deserialized TJson (get_raw d None user_id kind).

(** @src src/src/service/account_data/mod.rs:109-121 Service::get_room *)
Definition get_room (d : Db) (room_id user_id kind : bytes) : comp db_error value :=
  deserialized TJson (get_raw d (Some room_id) user_id kind).

(** [Key] and the raw value. *)
Definition data_key_ty : ty := TTuple [TOption TStr; TStr; TU64; TIgnore].

(** An item of the stream: the owner, the number and the text. *)
Definition data_item (kv : value * value) : option ((option bytes * bytes) * Z * bytes) :=
  match kv with
  | (VTuple [r; VStr user; VU64 count; VIgnore], VBytes text) =>
      match r with
      | VNone => Some (None, user, count, text)
      | VSome (VStr room) => Some (Some room, user, count, text)
      | _ => None
      end
  | _ => None
  end.

(** @src src/src/service/account_data/mod.rs:138-171 Service::changes_since *)
Definition changes_since (d : Db) (room_id : option bytes) (user_id : bytes) (since to : option Z) :
    comp db_error (list bytes) :=
  let first_possible :=
    VTuple [opt_str room_id; VStr user_id; VU64 (match since with Some n => saturating_succ n | None => 0 end)] in
  l ← stream_from data_key_ty TBytes d roomuserdataid_accountdata first_possible;
  let l := take_while (fun item => item.1.1 = (room_id, user_id) ∧ up_to to item.1.2)
             (omap data_item (ignore_err l)) in
  Ok (filter json_ok l.*2).
End AccountData.

(** * The tables as a map from owner and type to number and text *)

Abbreviation setting := (option bytes * bytes * bytes)%type.
Abbreviation account := (gmap setting (Z * bytes)).

Section Spec.
Context `{!Parsers} {V : Type} `{!JsonValue V}.

Definition owner_records (r : option bytes) (u : bytes) : list value := [opt_str r; VStr u].
Definition id_bytes (r : option bytes) (u : bytes) (c : Z) (t : bytes) : bytes :=
  tuple_bytes (counted (owner_records r u) c [VStr t]).
Definition type_bytes (r : option bytes) (u t : bytes) : bytes := tuple_bytes [opt_str r; VStr u; VStr t].

(** Identifiers are UTF-8 and a room's is not empty. *)
Definition names_ok (r : option bytes) (u t : bytes) : Prop :=
  match r with Some room => valid_utf8 room ∧ room ≠ [] | None => True end ∧ valid_utf8 u ∧ valid_utf8 t.

Definition type_of (x : setting) (_ : Z * bytes) : bytes := type_bytes x.1.1 x.1.2 x.2.
Definition id_of (x : setting) (e : Z * bytes) : bytes := id_bytes x.1.1 x.1.2 e.1 x.2.
Definition text_of (x : setting) (e : Z * bytes) : bytes := e.2.
Definition setting_ok (x : setting) : Prop := names_ok x.1.1 x.1.2 x.2.

(** The tables hold the last data of every setting, with its number. *)
Record DataInv (A : account) (w : World) : Prop := {
  di_types : Represents type_of id_of A (db w roomusertype_roomuserdataid);
  di_data : Represents id_of text_of A (db w roomuserdataid_accountdata);
  di_ok x e : A !! x = Some e → setting_ok x ∧ 0 < e.1 ≤ counter w;
  di_numbers x y e e' : A !! x = Some e → A !! y = Some e' → e.1 = e'.1 → x = y;
  di_counter : is_u64 (counter w);
}.

Lemma owner_fields r u t : names_ok r u t → Forall2 field [TOption TStr; TStr] (owner_records r u).
Proof. intros (Hr & Hu & _). repeat constructor; [by apply opt_str_field|done]. Qed.

Lemma type_bytes_inj r u t r' u' t' : names_ok r u t → names_ok r' u' t' →
  type_bytes r u t = type_bytes r' u' t' → (r, u, t) = (r', u', t').
Proof.
  intros Hn Hn' Heq. unfold type_bytes in Heq.
  apply (tuple_bytes_inj [TOption TStr; TStr; TStr]) in Heq; [|..|by apply tuple_bytes_nonempty].
  - destruct r, r'; by simplify_eq/=.
  - destruct Hn as (? & ? & ?). repeat constructor; [by apply opt_str_field|done..].
  - destruct Hn' as (? & ? & ?). repeat constructor; [by apply opt_str_field|done..].
Qed.

Lemma id_row r u c t : names_ok r u t → is_u64 c →
  row [TOption TStr; TStr] [TStr] (owner_records r u) c [VStr t] (id_bytes r u c t).
Proof.
  intros Hn Hc. split; [done|by eapply owner_fields|done|]. destruct Hn as (_ & _ & ?). by repeat constructor.
Qed.

Lemma id_bytes_inj r u c t r' u' c' t' : names_ok r u t → names_ok r' u' t' → is_u64 c → is_u64 c' →
  id_bytes r u c t = id_bytes r' u' c' t' → (r, u, t) = (r', u', t') ∧ c = c'.
Proof.
  intros Hn Hn' Hc Hc' Heq. pose proof (id_row r u c t Hn Hc) as H1.
  pose proof (id_row r' u' c' t' Hn' Hc') as H2. rewrite <-Heq in H2.
  destruct (row_inj [TOption TStr; TStr] [TStr] ltac:(done) _ _ _ _ _ _ _ H1 H2) as (Ho & -> & Ht).
  unfold owner_records in Ho. destruct r, r'; by simplify_eq/=.
Qed.

Lemma type_of_inj x y e e' : setting_ok x → setting_ok y → type_of x e = type_of y e' → x = y.
Proof. destruct x as [[r u] t], y as [[r' u'] t']. apply type_bytes_inj. Qed.

Lemma id_of_inj x y e e' : setting_ok x → setting_ok y → is_u64 e.1 → is_u64 e'.1 →
  id_of x e = id_of y e' → x = y ∧ e.1 = e'.1.
Proof. destruct x as [[r u] t], y as [[r' u'] t']. apply id_bytes_inj. Qed.

(** What [update] does, once its key is written out. *)
Definition update_db (w : World) (r : option bytes) (u t : bytes) (text : bytes) : Db :=
  let c := counter w + 1 in
  let d := insert (db w) global COUNTER (u64_to_be c) in
  let d := insert d roomuserdataid_accountdata (id_bytes r u c t) text in
  let prev := d roomusertype_roomuserdataid !! type_bytes r u t in
  let d := insert d roomusertype_roomuserdataid (type_bytes r u t) (id_bytes r u c t) in
  match prev with Some prev => remove d roomuserdataid_accountdata prev | None => d end.

Lemma update_eq w r u t data : is_u64 (counter w) → counter w < u64_max →
  json_field data TYPE ≠ None → json_field data CONTENT ≠ None →
  update w r u t data =
  Ok ({| db := update_db w r u t (json_text data); counter := counter w + 1 |}, [u]).
Proof.
  intros Hc Hlt Ht Hco. unfold update. rewrite decide_False by tauto.
  unfold next_count, checked_u64. rewrite decide_True by word. cbn [default expect_ok mbind result_bind].
  assert (Forall plain [opt_str r; VStr u; VU64 (counter w + 1); VStr t]) as Hid by (repeat constructor; auto with plain).
  assert (Forall plain [opt_str r; VStr u; VStr t]) as Hty by (repeat constructor; auto with plain).
  unfold data_id, type_key.
  rewrite (put_tuple _ _ _ _ (json_text data)) by done. cbn [mbind result_bind db].
  rewrite qry_tuple, (put_tuple _ _ _ _ (id_bytes r u (counter w + 1) t)) by (done || by apply serialize_tuple_bytes).
  cbn [mbind result_bind]. unfold with_db, update_db. cbn [counter db]. unfold get. dbs.
  change (tuple_bytes [opt_str r; VStr u; VStr t]) with (type_bytes r u t).
  by destruct (db w roomusertype_roomuserdataid !! type_bytes r u t).
Qed.

Lemma update_inv A w r u t text : DataInv A w → counter w < u64_max → names_ok r u t →
  DataInv (<[(r, u, t) := (counter w + 1, text)]> A)
    {| db := update_db w r u t text; counter := counter w + 1 |}.
Proof.
  intros [Hty Hda Hok Hnu Hc] Hlt Hn. set (x := (r, u, t) : setting). set (e := (counter w + 1, text)).
  assert (setting_ok x) as Hx by done. assert (is_u64 e.1) as Hce by (subst e; simpl; word).
  assert (∀ y e', A !! y = Some e' → setting_ok y ∧ is_u64 e'.1 ∧ e'.1 ≠ e.1) as Hold.
  { intros y e' [? ?]%Hok. subst e. simpl. split_and!; [done|word|lia]. }
  assert (∀ y e', A !! y = Some e' → type_of y e' = type_of x e → y = x) as Htyx.
  { intros y e' [Hy _]%Hold Hk. by eapply type_of_inj. }
  assert (db w roomusertype_roomuserdataid !! type_of x e = id_of x <$> A !! x) as Hprev.
  { destruct (A !! x) as [e0|] eqn:HA; simpl; [by apply (rep_Some _ _ _ _ x e0 Hty)|].
    by apply (rep_None _ _ _ _ x e Hty HA). }
  assert (∀ y e', y ≠ x → A !! y = Some e' → id_of y e' ≠ id_of x e) as Hfresh.
  { intros y e' Hne (Hy & Hu & _)%Hold Hk. by apply id_of_inj in Hk as [? _]. }
  split; cbn [db counter].
  - assert (update_db w r u t text roomusertype_roomuserdataid =
      <[type_of x e := id_of x e]> (db w roomusertype_roomuserdataid)) as ->.
    { unfold update_db. destruct (_ !! _); by dbs. }
    by apply rep_update.
  - assert (update_db w r u t text roomuserdataid_accountdata =
      <[id_of x e := text]> (forget_key id_of A x (db w roomuserdataid_accountdata))) as ->; [|by apply rep_insert].
    unfold update_db, forget_key. dbs. change (type_bytes r u t) with (type_of x e). rewrite Hprev.
    destruct (A !! x) as [e0|] eqn:HA; cbn [fmap option_fmap option_map]; dbs; [|done].
    rewrite delete_insert_ne; [done|]. intros Hk. destruct (Hold _ _ HA) as (_ & Hu & Hne).
    change (id_bytes r u (counter w + 1) t) with (id_of x e) in Hk.
    apply id_of_inj in Hk as [_ ?]; done.
  - intros y e' [[<- <-]|[_ [Hy ?]%Hok]]%lookup_insert_Some; [split; [done|simpl; word]|]. split; [done|lia].
  - intros y z e1 e2 Hy Hz Heq. apply lookup_insert_Some in Hy as [[<- <-]|[Hxy Hy]];
      apply lookup_insert_Some in Hz as [[<- <-]|[Hxz Hz]]; try done.
    + by destruct (Hold _ _ Hz) as (_ & _ & []).
    + by destruct (Hold _ _ Hy) as (_ & _ & []).
    + by apply (Hnu y z e1 e2).
  - word.
Qed.

(** ** Reading *)

Lemma get_raw_spec A w r u t : DataInv A w → names_ok r u t →
  get_raw (db w) r u t = ok_or_fail NotFound (snd <$> A !! (r, u, t)).
Proof.
  intros [Hty Hda Hok Hnu Hc] Hn. unfold get_raw, type_key, get.
  rewrite qry_tuple by (repeat constructor; auto with plain). unfold get.
  change (tuple_bytes _) with (type_of (r, u, t) (0, [])).
  destruct (A !! (r, u, t)) as [e|] eqn:HA.
  - change (type_of (r, u, t) (0, [])) with (type_of (r, u, t) e).
    rewrite (rep_Some _ _ _ _ _ _ Hty HA). cbn [ok_or_fail ok_or mbind result_bind].
    by rewrite (rep_Some _ _ _ _ _ _ Hda HA).
  - rewrite (rep_None _ _ _ _ _ _ Hty HA); [done|]. intros y e' [Hy _]%Hok Hk. by eapply type_of_inj.
Qed.

(** What the stream reads of an entry. *)
Definition item_of (kv : bytes * bytes) : option ((option bytes * bytes) * Z * bytes) :=
  x ← ok (deserialize_kv data_key_ty TBytes kv); data_item x.

Lemma from_slice_bytes v : from_slice TBytes v = Ok (VBytes v).
Proof. done. Qed.

Lemma item_of_entry r u c t v : names_ok r u t → is_u64 c →
  item_of (id_bytes r u c t, v) = Some (r, u, c, v).
Proof.
  intros (Hr & Hu & Ht) Hc. unfold item_of, deserialize_kv, data_key_ty. cbn [fst snd]. unfold id_bytes.
  rewrite (from_slice_reads _ _ [opt_str r; VStr u; VU64 c; VIgnore]); [|..|done|by apply tuple_bytes_nonempty].
  - by destruct r.
  - read_records; [by apply opt_str_field|by constructor..|by apply valid_utf8_no_sep].
Qed.

Lemma data_counted A w : DataInv A w →
  Counted [TOption TStr; TStr] [TStr] (db w roomuserdataid_accountdata).
Proof.
  intros [_ Hda Hok _ Hc] k v Hk. apply (rep_lookup _ _ _ _ Hda) in Hk as ([[r u] t] & e & HA & -> & _).
  apply Hok in HA as [Hn ?]. eexists _, _, _. apply id_row; [done|word].
Qed.

(** The items of a stream, with their numbers. *)
Definition changes (A : account) (r : option bytes) (u : bytes) (since to : option Z) (l : list (Z * bytes)) : Prop :=
  StronglySorted (fun a b => a.1 < b.1) l ∧
  ∀ c text, (c, text) ∈ l ↔ ∃ t, A !! (r, u, t) = Some (c, text) ∧
    match since with Some n => n < c | None => True end ∧ up_to to c.

Lemma changes_since_spec A w r u since to : DataInv A w → names_ok r u [] →
  match since with Some n => 0 ≤ n < u64_max | None => True end → ∃ l,
  changes_since (db w) r u since to = Ok (filter json_ok l.*2) ∧ changes A r u since to l.
Proof.
  intros Hinv Hn Hs. pose proof Hinv as [Hty Hda Hok Hnu Hc].
  set (lo := match since with Some n => saturating_succ n | None => 0 end).
  assert (is_u64 lo) as Hlo by (subst lo; destruct since; unfold saturating_succ; word).
  assert (∀ c, 0 < c → (lo ≤ c ↔ match since with Some n => n < c | None => True end)) as Hlo'.
  { intros c Hc0. subst lo. destruct since as [n|]; [unfold saturating_succ|]; split; intros; lia || done. }
  unfold changes_since, stream_from, stream_from_raw.
  change (serialize_to_vec ?v) with (serialize None v). rewrite serialize_tuple_bytes by (repeat constructor; auto with plain).
  cbn [expect_ok mbind result_bind]. fold lo. rewrite omap_ignore_err.
  change (tuple_bytes _) with (from_key (owner_records r u) lo).
  set (Q := fun item : (option bytes * bytes) * Z * bytes => item.1.1 = (r, u) ∧ up_to to item.1.2).
  set (l := take_while _ _).
  assert (l = counted_stream item_of Q (owner_records r u) lo (db w) roomuserdataid_accountdata) as Hl by done.
  clearbody l.
  assert (∀ k v b, db w roomuserdataid_accountdata !! k = Some v → item_of (k, v) = Some b →
    ∃ t c, b = (b.1.1, c, v) ∧ names_ok b.1.1.1 b.1.1.2 t ∧ is_u64 c ∧ k = id_bytes b.1.1.1 b.1.1.2 c t ∧
      A !! (b.1.1, t) = Some (c, v)) as Hentry.
  { intros k v b Hk Hb. apply (rep_lookup _ _ _ _ Hda) in Hk as ([[r' u'] t] & [c text] & HA & -> & ->).
    pose proof (Hok _ _ HA) as [Hn' Hc']. simpl in Hc'. assert (is_u64 c) by word.
    unfold id_of, text_of in Hb. simpl in Hb. rewrite item_of_entry in Hb by done. injection Hb as <-.
    exists t, c. split_and!; done. }
  assert (∀ k v b, db w roomuserdataid_accountdata !! k = Some v → item_of (k, v) = Some b →
    Q b ↔ ∃ n post, row [TOption TStr; TStr] [TStr] (owner_records r u) n post k ∧ up_to to n) as HQ.
  { intros k v b Hk Hb. destruct (Hentry k v b Hk Hb) as (t & c & -> & Hn' & Hu & -> & HA). cbn [fst snd] in *.
    pose proof (id_row _ _ _ _ Hn' Hu) as Hrow. destruct b as [[[r' u'] c'] v']. simpl in *. subst Q. simpl. split.
    - intros [[= -> ->] Hto]. eauto.
    - intros (n & post & Hrow' & Hto).
      destruct (row_inj [TOption TStr; TStr] [TStr] ltac:(done) _ _ _ _ _ _ _ Hrow Hrow') as (Ho & -> & _).
      unfold owner_records in Ho. destruct r, r'; by simplify_eq/=. }
  pose proof (owner_fields r u [] Hn) as Hof. pose proof (data_counted A w Hinv) as Hco.
  exists (map (fun b => (b.1.2, b.2)) l). split; [|split].
  - f_equal. f_equal. clear. induction l as [|b l IH]; [done|]. csimpl. by rewrite IH.
  - rewrite Hl. change (map ?f ?l) with (f <$> l). apply StronglySorted_fmap_2.
    eapply (counted_stream_sorted [TOption TStr; TStr] [TStr] ltac:(done) item_of Q _ Hof lo (up_to to)
      _ Hco (up_to_mono to) HQ); [done|].
    intros k v b n post k' v' b' n' post' Hk Hk' Hrow Hrow' Hne Hle Hb Hb'.
    destruct (Hentry k v b Hk Hb) as (t & c & Heq & Hn1 & Hu1 & -> & HA).
    destruct (Hentry k' v' b' Hk' Hb') as (t' & c' & Heq' & Hn2 & Hu2 & -> & HA').
    pose proof (row_inj [TOption TStr; TStr] [TStr] ltac:(done) _ _ _ _ _ _ _ (id_row _ _ _ _ Hn1 Hu1) Hrow) as (_ & -> & _).
    pose proof (row_inj [TOption TStr; TStr] [TStr] ltac:(done) _ _ _ _ _ _ _ (id_row _ _ _ _ Hn2 Hu2) Hrow') as (_ & -> & _).
    rewrite Heq, Heq'. simpl. destruct (decide (n = n')) as [->|]; [|lia].
    pose proof (Hnu _ _ _ _ HA HA' eq_refl). congruence.
  - intros c text. change (map ?f l) with (f <$> l). rewrite list_elem_of_fmap, Hl.
    pose proof (fun b : option bytes * bytes * Z * bytes => counted_stream_elem [TOption TStr; TStr] [TStr] ltac:(done) item_of Q _ Hof lo Hlo
      (up_to to) _ Hco (up_to_mono to) HQ (db w) roomuserdataid_accountdata b eq_refl) as Helem.
    split.
    + intros (b & [= -> ->] & Hin). apply Helem in Hin as (n & post & v & Hk & Hrow & Hb & Hle & Hto).
      destruct (Hentry _ v b Hk Hb) as (t & c & Heq & Hn1 & Hu1 & Hid & HA).
      destruct (row_inj [TOption TStr; TStr] [TStr] ltac:(done) _ _ _ _ _ _ _
        (id_row _ _ _ _ Hn1 Hu1) ltac:(rewrite <-Hid; exact Hrow)) as (Ho & <- & _).
      rewrite Heq. cbn [fst snd]. exists t. destruct b as [[[r' u'] c'] v']. simpl in *.
      unfold owner_records in Ho. pose proof (Hok _ _ HA) as [_ Hpos]. simpl in Hpos.
      rewrite <-Hlo' by lia. destruct r, r'; simplify_eq/=; done.
    + intros (t & HA & Hsi & Hto). pose proof (Hok _ _ HA) as [Hn1 Hpos]. simpl in Hpos.
      assert (is_u64 c) as Hu1 by word. exists (r, u, c, text). split; [done|].
      apply Helem. exists c, [VStr t], text. cbv zeta. change (tuple_bytes _) with (id_bytes r u c t). split_and!.
      * by apply (rep_Some _ _ _ _ (r, u, t) (c, text) Hda).
      * by apply id_row.
      * by apply item_of_entry.
      * by apply Hlo'; [lia|].
      * done.
Qed.

(** ** Account data *)

(** The account data of a user is a map: a value without type and content is refused, any other
    replaces what its owner and type had, numbered by the counter, and wakes the user; reading
    finds the last value; and the changes after one number up to another are exactly the owner's
    values that were set then and not replaced since, in the order they were set. *)
Theorem account_data_correct (A : account) (w : World) (r : option bytes) (u t : bytes) (data : V)
    (since to : option Z) (Hinv : DataInv A w) (Hn : names_ok r u t) (Hlt : counter w < u64_max)
    (Hs : match since with Some n => 0 ≤ n < u64_max | None => True end) :
  (json_field data TYPE = None ∨ json_field data CONTENT = None →
     update w r u t data = Err (Fail InvalidParam)) ∧
  (json_field data TYPE ≠ None → json_field data CONTENT ≠ None → ∃ w',
     update w r u t data = Ok (w', [u]) ∧ counter w' = counter w + 1 ∧
     DataInv (<[(r, u, t) := (counter w', json_text data)]> A) w' ∧
     ∀ c, c ∉ [global; roomusertype_roomuserdataid; roomuserdataid_accountdata] → db w' c = db w c) ∧
  get_raw (db w) r u t = ok_or_fail NotFound (snd <$> A !! (r, u, t)) ∧
  ∃ l, changes_since (db w) r u since to = Ok (filter json_ok l.*2) ∧ changes A r u since to l.
Proof.
  split; [|split; [|split]].
  - intros Hf. unfold update. by rewrite decide_True.
  - intros Ht Hc. eexists. rewrite update_eq by (done || apply Hinv). split; [done|]. split; [done|].
    split; [by apply update_inv|]. intros c Hc'. rewrite !not_elem_of_cons in Hc'. cbn [db]. unfold update_db.
    destruct (_ !! _); rewrite ?remove_other, !insert_other by naive_solver; done.
  - by apply get_raw_spec.
  - apply changes_since_spec; [done| |done]. destruct Hn as (? & ? & ?). by repeat split.
Qed.
End Spec.

Module AccountWitness.
#[local] Instance any_parsers : Parsers := {| json_ok _ := true; cbor_ok _ := true |}.
(** Objects that have every field and are written as themselves. *)
#[local] Instance any_value : JsonValue bytes := {| json_field v _ := Some v; json_text v := v |}.

Definition w0 : World := {| db := empty_db; counter := 4 |}.

Lemma inv0 : DataInv ∅ w0.
Proof.
  split; [apply represents_empty..| | |cbn; word]; intros x; intros; exfalso;
    by eapply (lookup_empty_Some (A := Z * bytes) x).
Qed.

Lemma account_data_correct_witness : ∃ w',
  update w0 None [64; 97] [116] [123; 125] = Ok (w', [[64; 97]]) ∧
  DataInv (<[(None, [64; 97], [116]) := (5, [123; 125])]> ∅) w'.
Proof.
  destruct (account_data_correct ∅ w0 None [64; 97] [116] [123; 125] (Some 3) None inv0
    ltac:(by repeat split) ltac:(by vm_compute) ltac:(cbn; word)) as (_ & Hu & _).
  destruct Hu as (w' & Heq & Hc & Hi & _); [done..|]. exists w'. split; [exact Heq|].
  rewrite Hc in Hi. exact Hi.
Defined.

(** A second value of the type replaces the first. *)
Definition twice : comp db_error (World * list bytes) :=
  '(w, _) ← update w0 None [64; 97] [116] [123; 125]; update w None [64; 97] [116] [91; 93].
Example replaced :
  ('(w, _) ← twice; changes_since (db w) None [64; 97] (Some 4) None) = Ok [[91; 93]] ∧
  ('(w, _) ← twice; changes_since (db w) None [64; 97] (Some 6) None) = Ok [].
Proof. split; vm_compute; reflexivity. Qed.
End AccountWitness.
