(* ===== verification/Json.v ===== *)
(** Types stored as JSON: [serde_json] with the implementations derived for a type, as an interface.
    What is relied on is that a value written is read back. *)

From stdpp Require Import prelude countable.
From Stdlib Require Import ZArith Lia.
From S2P Require Import Prelude Bytes DbSer Database Scans.
Local Open Scope Z_scope.

(** [serde_json::to_vec] and [serde_json::from_slice] at a type. *)
Class Json (A : Type) := {
  to_json : A → bytes;
  from_json : bytes → option A;
}.
Class JsonLaws (A : Type) `{!Parsers, !Json A} : Prop := {
  from_to_json a : from_json (to_json a) = Some a;
  to_json_ok a : valid_utf8 (to_json a) ∧ json_ok (to_json a);
}.

Section Json.
Context `{!Parsers} {A : Type} `{!Json A}.

(** The newtype [Json], as it is written. *)
Definition as_json (a : A) : value := VJson (to_json a).

(** [deserialized] at the type. *)
Definition deserialized_json (r : comp db_error bytes) : comp db_error A :=
  v ← deserialized TJson r;
  match v with VJson text => ok_or_fail SerdeDe (from_json text) | _ => Err (Fail SerdeDe) end.

(** Reading gives a value or an error. *)
Lemma from_slice_json_cases l :
  (∃ text, from_slice TJson l = Ok (VJson text)) ∨ ∃ e, from_slice TJson l = Err (Fail e).
Proof.
  unfold from_slice. cbn [deserialize_value]. unfold deserialize_map, record_next, rest. simpl.
  case_match; simpl; [|eauto]. destruct (json_ok _); simpl; eauto.
Qed.

Lemma deserialized_json_cases (o : option bytes) :
  (∃ a, deserialized_json (ok_or_fail NotFound o) = Ok a) ∨ ∃ e, deserialized_json (ok_or_fail NotFound o) = Err (Fail e).
Proof.
  unfold deserialized_json, deserialized. destruct o as [b|]; simpl; [|by right; eauto].
  destruct (from_slice_json_cases b) as [[text ->]|[e ->]]; simpl; [|by right; eauto].
  destruct (from_json text); simpl; eauto.
Qed.

Lemma serialize_json a : serialize None (as_json a) = Ok (to_json a).
Proof. unfold as_json, serialize. cbn [serialize_value]. by rewrite write_vec. Qed.
End Json.

Section laws.
Context `{!Parsers} {A : Type} `{!Json A, !JsonLaws A}.

Lemma from_slice_json_text text : valid_utf8 text → json_ok text → from_slice TJson text = Ok (VJson text).
Proof.
  intros Hu Hj. unfold from_slice. cbn [deserialize_value]. unfold deserialize_map.
  rewrite (record_next_app _ text []); [|split; [simpl; lia|by rewrite app_nil_r]|by apply valid_utf8_no_sep|by left].
  cbn [mbind result_bind]. apply Is_true_true in Hj. by rewrite Hj.
Qed.

Lemma deserialized_written (a : A) : deserialized_json (Ok (to_json a)) = Ok a.
Proof.
  destruct (to_json_ok a) as [Hu Hj]. unfold deserialized_json, deserialized. cbn [mbind result_bind].
  rewrite from_slice_json_text by done. cbn [mbind result_bind]. by rewrite from_to_json.
Qed.

Lemma deserialized_found (o : option A) : deserialized_json (ok_or_fail NotFound (to_json <$> o)) = ok_or_fail NotFound o.
Proof. destruct o as [a|]; [apply deserialized_written|done]. Qed.
End laws.

(** ** An instance for types whose values are countable

    The number of a value in binary; it shows that the laws can hold. *)
Section CountableJson.
Context {A : Type} `{Countable A}.

Fixpoint bits (p : positive) : bytes :=
  match p with xH => [] | xO p => 48 :: bits p | xI p => 49 :: bits p end.
Fixpoint from_bits (l : bytes) : option positive :=
  match l with
  | [] => Some xH
  | b :: l => p ← from_bits l; if decide (b = 48) then Some (xO p) else if decide (b = 49) then Some (xI p) else None
  end.

Lemma from_bits_bits p : from_bits (bits p) = Some p.
Proof. induction p as [p IH|p IH|]; simpl; [by rewrite IH..|done]. Qed.

Lemma bits_utf8 p : valid_utf8 (bits p).
Proof. by induction p. Qed.

Definition countable_json : Json A := {| to_json a := bits (encode a); from_json l := from_bits l ≫= decode |}.

Lemma countable_json_laws `{!Parsers} : (∀ l, json_ok l) → @JsonLaws A _ countable_json.
Proof.
  intros Hok. split; simpl.
  - intros a. rewrite from_bits_bits. simpl. apply decode_encode.
  - intros a. split; [apply bits_utf8|apply Hok].
Qed.
End CountableJson.
