(* ===== verification/Host.v ===== *)
(** The state on which the services of users act: the database with its counter and the users whose
    sync loops were woken, and the operations on columns as effects.  An operation that writes cannot
    fail but for a key that is not serialisable, at which the Rust code panics. *)

From stdpp Require Import prelude gmap.
From Stdlib Require Import ZArith Lia.
From S2P Require Import Prelude Effects Bytes DbSer Database PairKeys Scans Short Json.
Local Open Scope Z_scope.

Record Host := { world : World; woken : list bytes }.
Definition hdb (s : Host) : Db := db (world s).

Abbreviation M := (eff Host db_error).

Definition with_hdb (f : Db → Db) (s : Host) : Host :=
  {| world := with_db (world s) (f (hdb s)); woken := woken s |}.

Section Host.
Context `{!Parsers}.

(** A computation on the database that may panic. *)
Definition on_db (f : Db → comp db_error Db) : M unit := fun s =>
  match f (hdb s) with
  | Ok d => (Ok tt, with_hdb (fun _ => d) s)
  | Err e => (Err e, s)
  end.
Definition reads {A} (f : Db → comp db_error A) : M A := fun s => (f (hdb s), s).

Definition put (c : column) (key val : value) : M unit := on_db (fun d => Scans.put d c key val).
Definition put_raw (c : column) (key : value) (val : bytes) : M unit := on_db (fun d => Database.put_raw d c key val).
Definition raw_put (c : column) (key : bytes) (val : value) : M unit := on_db (fun d => Database.raw_put d c key val).
Definition insert (c : column) (key val : bytes) : M unit := modify (with_hdb (fun d => Database.insert d c key val)).
Definition remove (c : column) (key : bytes) : M unit := modify (with_hdb (fun d => Database.remove d c key)).
Definition del (c : column) (key : value) : M unit := on_db (fun d => Database.del d c key).

(** The keys that start with a serialised prefix, removed. *)
Definition remove_prefix (c : column) (prefix : value) : M unit :=
  keys ← reads (fun d => keys_prefix_raw d c prefix);
  for_each (remove c) keys.

(** [next_count]; it does not fail. *)
Definition next : M Z := fun s =>
  match next_count (world s) with
  | Ok (n, w) => (Ok n, {| world := w; woken := woken s |})
  | Err e => (Err e, s)
  end.

(** @src src/src/service/sync/mod.rs:138-142 Service::wake *)
Definition wake (user : bytes) : M unit := modify (fun s => {| world := world s; woken := woken s ++ [user] |}).

(** @src src/src/service/users/mod.rs:238-242 increment *)
Definition increment (c : column) (key : bytes) : M unit :=
  d ← gets hdb; insert c key (Bytes.increment (d c !! key)).

(** [self.db.column.exists(key)]. *)
Definition exists_ (d : Db) (c : column) (key : bytes) : bool := bool_decide (is_Some (d c !! key)).
End Host.

(** Computes a column of a host that was written to; proves that records can be serialised. *)
Ltac host := cbn [hdb with_hdb world with_db db counter woken]; dbs.
Ltac plain_records := repeat first [apply Forall_nil_2 | apply Forall_cons_2]; eauto with plain.

Lemma device_bytes (a b : bytes) : tuple_bytes [VStr a; VStr b] = pair_key a b.
Proof. unfold tuple_bytes, trail, pair_key. simpl. by rewrite app_nil_r. Qed.

(** ** What an effect does to columns *)

(** All columns but these are as before. *)
Definition touches (cs : list column) (s s' : Host) : Prop := ∀ c, c ∉ cs → hdb s' c = hdb s c.
#[export] Instance touches_preorder cs : PreOrder (touches cs).
Proof. split; [by intros s c|]. intros s t u Hst Htu c Hc. by rewrite Htu, Hst. Qed.

Lemma touches_weaken {E A} cs cs' (m : eff Host E A) : cs ⊆ cs' → preserves (touches cs) m → preserves (touches cs') m.
Proof. intros Hs Hm s c Hc. apply Hm. set_solver. Qed.

Lemma touches_then cs cs' s s1 s2 : touches cs' s s1 → touches cs s1 s2 → cs ⊆ cs' → touches cs' s s2.
Proof. intros H1' H2' Hs c Hc. rewrite H2' by set_solver. by apply H1'. Qed.

Section frame.
Context `{!Parsers}.
Implicit Types (c : column) (cs : list column).

Lemma on_db_touches cs f : (∀ d d', f d = Ok d' → ∀ c, c ∉ cs → d' c = d c) → preserves (touches cs) (on_db f).
Proof. intros Hf s c Hc. unfold on_db. destruct (f (hdb s)) as [d|e] eqn:Hd; simpl; [by apply (Hf _ _ Hd)|done]. Qed.

Lemma put_touches c key val cs : c ∈ cs → preserves (touches cs) (put c key val).
Proof.
  intros Hc. apply on_db_touches. intros d d' Hd c' Hc'. unfold Scans.put, bput, bput_raw, expect_ok in Hd.
  destruct (serialize None val) as [v|[]]; [|done..]. cbn [mbind result_bind] in Hd.
  destruct (serialize None key) as [k|[]]; [|done..]. injection Hd as <-. apply insert_other. set_solver.
Qed.
Lemma put_raw_touches c key val cs : c ∈ cs → preserves (touches cs) (put_raw c key val).
Proof.
  intros Hc. apply on_db_touches. intros d d' Hd c' Hc'. unfold Database.put_raw, bput_raw, expect_ok in Hd.
  destruct (serialize None key) as [k|[]]; [|done..]. injection Hd as <-. apply insert_other. set_solver.
Qed.
Lemma raw_put_touches c key val cs : c ∈ cs → preserves (touches cs) (raw_put c key val).
Proof.
  intros Hc. apply on_db_touches. intros d d' Hd c' Hc'. unfold Database.raw_put, raw_bput, expect_ok in Hd.
  destruct (serialize None val) as [k|[]]; [|done..]. injection Hd as <-. apply insert_other. set_solver.
Qed.
Lemma del_touches c key cs : c ∈ cs → preserves (touches cs) (del c key).
Proof.
  intros Hc. apply on_db_touches. intros d d' Hd c' Hc'. unfold Database.del, bdel, expect_ok in Hd.
  destruct (serialize None key) as [k|[]]; [|done..]. injection Hd as <-. apply remove_other. set_solver.
Qed.
Lemma insert_touches c key val cs : c ∈ cs → preserves (touches cs) (insert c key val : M unit).
Proof. intros Hc s c' Hc'. simpl. apply insert_other. set_solver. Qed.
Lemma remove_touches c key cs : c ∈ cs → preserves (touches cs) (remove c key : M unit).
Proof. intros Hc s c' Hc'. simpl. apply remove_other. set_solver. Qed.
Lemma remove_prefix_touches c prefix cs : c ∈ cs → preserves (touches cs) (remove_prefix c prefix).
Proof.
  intros Hc. apply preserves_bind; [apply _|apply preserves_same, _|]. intros keys.
  apply preserves_for_each; [apply _|]. intros k. by apply remove_touches.
Qed.
Lemma next_touches cs : global ∈ cs → preserves (touches cs) next.
Proof. intros Hg s c Hc. simpl. apply insert_other. set_solver. Qed.
Lemma wake_touches u cs : preserves (touches cs) (wake u).
Proof. by intros s c Hc. Qed.
Lemma increment_touches c key cs : c ∈ cs → preserves (touches cs) (increment c key).
Proof. intros Hc. apply preserves_bind; [apply _|apply preserves_same, _|]. intros d. by apply insert_touches. Qed.
End frame.

(** ** Effects that succeed *)

Definition total {A} (m : M A) : Prop := ∀ s, ∃ a s', m s = (Ok a, s').

Create HintDb total.

Section total.
Context `{!Parsers}.

Lemma total_ret {A} (a : A) : total (mret a).
Proof. intros s. by eexists _, _. Qed.
Lemma total_gets {A} (f : Host → A) : total (gets f).
Proof. intros s. by eexists _, _. Qed.
Lemma total_modify f : total (modify f).
Proof. intros s. by eexists _, _. Qed.
Lemma total_bind {A B} (m : M A) (f : A → M B) : total m → (∀ a, total (f a)) → total (m ≫= f).
Proof.
  intros Hm Hf s. destruct (Hm s) as (a & s1 & Hrun). rewrite (bind_run _ _ _ _ _ Hrun). apply Hf.
Qed.
Lemma total_for_each {A} (f : A → M unit) l : (∀ a, total (f a)) → total (for_each f l).
Proof. intros Hf. induction l as [|a l IH]; simpl; [apply total_ret|]. by apply total_bind. Qed.

Lemma total_next : total next.
Proof. intros s. by eexists _, _. Qed.
Lemma total_insert c key val : total (insert c key val).
Proof. apply total_modify. Qed.
Lemma total_remove c key : total (remove c key).
Proof. apply total_modify. Qed.
Lemma total_wake user : total (wake user).
Proof. apply total_modify. Qed.
Lemma total_increment c key : total (increment c key).
Proof. apply total_bind; [apply total_gets|]. intros. apply total_insert. Qed.

(** The result of an operation whose key is a tuple of strings and numbers. *)
Lemma run_put c vs val b s : Forall plain vs → serialize None val = Ok b →
  put c (VTuple vs) val s = (Ok tt, with_hdb (fun d => Database.insert d c (tuple_bytes vs) b) s).
Proof. intros Hvs Hb. unfold put, on_db. by rewrite (put_tuple _ _ _ _ b). Qed.
Lemma run_put_raw c vs b s : Forall plain vs →
  put_raw c (VTuple vs) b s = (Ok tt, with_hdb (fun d => Database.insert d c (tuple_bytes vs) b) s).
Proof. intros Hvs. unfold put_raw, on_db. by rewrite put_raw_tuple. Qed.
Lemma run_raw_put c key val b s : serialize None val = Ok b →
  raw_put c key val s = (Ok tt, with_hdb (fun d => Database.insert d c key b) s).
Proof. intros Hb. unfold raw_put, on_db, Database.raw_put, raw_bput. by rewrite Hb. Qed.
Lemma run_del c vs s : Forall plain vs →
  del c (VTuple vs) s = (Ok tt, with_hdb (fun d => Database.remove d c (tuple_bytes vs)) s).
Proof. intros Hvs. unfold del, on_db. by rewrite del_tuple. Qed.

Lemma total_put c vs val b : Forall plain vs → serialize None val = Ok b → total (put c (VTuple vs) val).
Proof. intros Hvs Hb s. rewrite (run_put _ _ _ b) by done. by eexists _, _. Qed.
Lemma total_put_raw c vs b : Forall plain vs → total (put_raw c (VTuple vs) b).
Proof. intros Hvs s. rewrite run_put_raw by done. by eexists _, _. Qed.
Lemma total_del c vs : Forall plain vs → total (del c (VTuple vs)).
Proof. intros Hvs s. rewrite run_del by done. by eexists _, _. Qed.

Lemma total_remove_prefix c prefix b : serialize None prefix = Ok b → total (remove_prefix c prefix).
Proof.
  intros Hb s. unfold remove_prefix, reads, keys_prefix_raw. change (serialize_to_vec prefix) with (serialize None prefix).
  rewrite Hb. apply (total_for_each (fun k => remove c k)). intros. apply total_remove.
Qed.

Lemma bind_reads {A B} (f : Db → comp db_error A) a (g : A → M B) s : f (hdb s) = Ok a → (reads f ≫= g) s = g a s.
Proof. intros Hf. unfold reads, mbind, eff_bind. by rewrite Hf. Qed.

Lemma for_each_remove c keys s :
  for_each (remove c) keys s = (Ok tt, with_hdb (fun d => foldl (fun d key => Database.remove d c key) d keys) s).
Proof.
  revert s. induction keys as [|key keys IH]; intros s; simpl.
  { unfold mret, eff_ret, with_hdb, with_db, hdb. by destruct s as [[]]. }
  rewrite (bind_run (remove c key) _ s tt _ eq_refl), IH. done.
Qed.

(** What [remove_prefix] leaves. *)
Lemma run_remove_prefix c prefix b s : serialize None prefix = Ok b → ∃ s',
  remove_prefix c prefix s = (Ok tt, s') ∧ touches [c] s s' ∧ woken s' = woken s ∧
  counter (world s') = counter (world s) ∧
  ∀ k, hdb s' c !! k = if decide (b `prefix_of` k) then None else hdb s c !! k.
Proof.
  intros Hb. unfold remove_prefix, reads, keys_prefix_raw. change (serialize_to_vec prefix) with (serialize None prefix).
  rewrite Hb. unfold mbind at 1, eff_bind. cbn [expect_ok mbind result_bind]. rewrite for_each_remove.
  eexists. split; [done|]. destruct (remove_keys (hdb s) c (raw_keys_prefix (hdb s) c b)) as [Ho Hk].
  split_and!; [|done..|].
  - intros c' Hc'. simpl. apply Ho. set_solver.
  - intros k. cbn [with_hdb hdb world with_db db]. rewrite Hk, raw_keys_prefix_filter.
    destruct (decide (b `prefix_of` k)) as [Hp|Hp].
    + destruct (decide _) as [|Hin]; [done|]. destruct (hdb s c !! k) eqn:Hl; [|done]. exfalso. apply Hin.
      apply list_elem_of_filter. split; [done|]. apply sorted_keys_elem. by rewrite Hl.
    + rewrite decide_False; [done|]. by intros [? _]%list_elem_of_filter.
Qed.

(** A step followed by the rest. *)
Lemma run_then {A B} (m : M A) (f : A → M B) cs s (Q : comp db_error B * Host → Prop) :
  total m → preserves (touches cs) m →
  (∀ a s1, m s = (Ok a, s1) → touches cs s s1 → Q (f a s1)) → Q ((m ≫= f) s).
Proof.
  intros Hm Hc Hf. destruct (Hm s) as (a & s1 & Hrun). rewrite (bind_run _ _ _ _ _ Hrun).
  apply Hf; [done|]. specialize (Hc s). by rewrite Hrun in Hc.
Qed.
End total.
