(* ===== verification/UserKeys.v ===== *)
(** The keys of users and devices: src/src/service/users/keys.rs and the helpers of
    src/src/service/users/mod.rs.

    One-time keys are handed out once, a fallback key when there is none; changes of keys are logged
    for the user and for every encrypted room the user is in.  A key ([Raw]) is its JSON text, read back as it is; reading
    key identifiers and cross-signing keys, and JSON strings, are ruma's and [serde_json]'s. *)

From stdpp Require Import prelude gmap sorting.
From Stdlib Require Import ZArith Lia.
From S2P Require Import Prelude Effects Bytes DbSer Database PairKeys Scans Tables Short Json Host.
Local Open Scope Z_scope.

(** What the services of rooms answer: rooms/state_cache and rooms/state_accessor. *)
Class Rooms := {
  rooms_joined : Db → bytes → list bytes;
  is_encrypted_room : Db → bytes → bool;
  active_local_users_in_room : Db → bytes → list bytes;
}.

(** ruma: the algorithm of a key identifier, the identifiers of the keys of a cross-signing key. *)
Class KeyLibrary := {
  json_string : bytes → bytes; (** [serde_json::to_string] of a string *)
  parse_json_string : bytes → option bytes;
  key_id_ok : bytes → bool; (** whether a string is a key identifier *)
  algorithm : bytes → bytes;
  raw_ok : bytes → bool; (** whether a text is one JSON value *)
  cross_signing_keys : bytes → option (list bytes);
}.

Definition QUOTE : Z := 34.
Definition COLON : Z := 58.

Section UserKeys.
Context `{!Parsers, !Rooms, !KeyLibrary}.

Definition device_key (user_id device_id : bytes) : value := VTuple [VStr user_id; VStr device_id].

(** [userdeviceid_metadata.qry(&key).await.is_err()]. *)
Definition has_metadata (d : Db) (user_id device_id : bytes) : comp db_error bool :=
  match qry d userdeviceid_metadata (device_key user_id device_id) with
  | Ok _ => Ok true
  | Err (Fail _) => Ok false
  | Err e => Err e
  end.

(** ** Changes *)

(** @src src/src/service/sync/mod.rs:150-160 Service::wake_all_joined *)
Definition wake_all_joined (room : bytes) : M unit :=
  d ← gets hdb;
  modify (fun s => {| world := world s; woken := woken s ++ active_local_users_in_room d room |}).

(** @src src/src/service/users/keys.rs:444-468 Service::mark_device_key_update *)
Definition mark_device_key_update (user_id : bytes) : M unit :=
  count ← next;
  d ← gets hdb;
  _ ← for_each (fun room_id =>
        _ ← put_raw keychangeid_userid (VTuple [VStr room_id; VU64 count]) user_id;
        wake_all_joined room_id)
      (filter (fun room_id => is_encrypted_room d room_id = true) (rooms_joined d user_id));
  put_raw keychangeid_userid (VTuple [VStr user_id; VU64 count]) user_id.

(** An item of the stream: whose changes, number and user. *)
Definition change_item (kv : value * value) : option (bytes * Z * bytes) :=
  match kv with
  | (VTuple [VStr owner; VU64 count], VStr user) => Some (owner, count, user)
  | _ => None
  end.

(** @src src/src/service/users/keys.rs:421-440 Service::keys_changed_user_or_room *)
Definition keys_changed_user_or_room (d : Db) (user_or_room_id : bytes) (from to : option Z) :
    comp db_error (list (bytes * Z)) :=
  let from := default 0 from in
  let to := default u64_max to in
  let start := VTuple [VStr user_or_room_id; VU64 (saturating_succ from)] in
  l ← stream_from (TTuple [TStr; TU64]) TStr d keychangeid_userid start;
  let l := take_while (fun item => item.1.1 = user_or_room_id ∧ item.1.2 ≤ to) (omap change_item (ignore_err l)) in
  Ok (map (fun item => (item.2, item.1.2)) l).

(** @src src/src/service/users/keys.rs:399-407 Service::keys_changed *)
Definition keys_changed (d : Db) (user_id : bytes) (from to : option Z) : comp db_error (list bytes) :=
  l ← keys_changed_user_or_room d user_id from to; Ok l.*1.

(** @src src/src/service/users/keys.rs:412-419 Service::room_keys_changed *)
Definition room_keys_changed (d : Db) (room_id : bytes) (from to : option Z) : comp db_error (list (bytes * Z)) :=
  keys_changed_user_or_room d room_id from to.

(** ** One-time keys *)

Definition one_time_prefix (user_id device_id : bytes) : bytes := user_id ++ [SEP] ++ device_id ++ [SEP].

(** @src src/src/service/users/keys.rs:21-62 Service::add_one_time_key *)
Definition add_one_time_key (user_id device_id one_time_key_key one_time_key_value : bytes) : M unit :=
  known ← reads (fun d => has_metadata d user_id device_id);
  if (known : bool) then
    let key := one_time_prefix user_id device_id ++ json_string one_time_key_key in
    _ ← raw_put onetimekeyid_onetimekeys key (VJson one_time_key_value);
    count ← next;
    _ ← raw_put userid_lastonetimekeyupdate user_id (VU64 count);
    wake user_id
  else fail DatabaseError.

Definition fallback_key (user_id device_id algorithm : bytes) : value :=
  VTuple [VStr user_id; VStr device_id; VStr algorithm].

(** @src src/src/service/users/keys.rs:66-95 Service::add_fallback_key *)
Definition add_fallback_key (user_id device_id fallback_key_id fallback_key_value : bytes) (used : bool) : M unit :=
  known ← reads (fun d => has_metadata d user_id device_id);
  if (known : bool) then
    put fallbackkeyid_fallbackkey (fallback_key user_id device_id (algorithm fallback_key_id))
      (VTuple [VBool used; VStr fallback_key_id; VJson fallback_key_value])
  else fail DatabaseError.

(** @src src/src/service/users/keys.rs:99-106 Service::last_one_time_keys_update *)
Definition last_one_time_keys_update (d : Db) (user_id : bytes) : Z :=
  default 0 (ok (deserialized_u64 (get d userid_lastonetimekeyupdate user_id))).

(** What follows the last separator. *)
Definition last_record (l : bytes) : bytes := reverse (first_record (reverse l)).

(** [serde_json::from_slice::<OwnedOneTimeKeyId>]. *)
Definition parse_key_id (json : bytes) : option bytes :=
  id ← parse_json_string json; if key_id_ok id then Some id else None.

(** The first key of an algorithm, taken out.
    @src src/src/service/users/keys.rs:120-156 Service::take_one_time_key *)
Definition first_one_time_key (user_id device_id key_algorithm : bytes) : M (option (bytes * bytes)) :=
  let prefix := one_time_prefix user_id device_id ++ [QUOTE] ++ key_algorithm ++ [COLON] in
  d ← gets hdb;
  match raw_stream_prefix d onetimekeyid_onetimekeys prefix with
  | [] => mret None
  | (key, val) :: _ =>
      _ ← remove onetimekeyid_onetimekeys key;
      id ← pure (expect (parse_key_id (last_record key)));
      if raw_ok val then mret (Some (id, val)) else panic
  end.

(** [deserialized::<(bool, OwnedOneTimeKeyId, Raw<OneTimeKey>)>]. *)
Definition read_fallback (d : Db) (user_id device_id algorithm : bytes) : comp db_error (bool * bytes * bytes) :=
  v ← deserialized (TTuple [TBool; TStr; TStr])
        (qry d fallbackkeyid_fallbackkey (fallback_key user_id device_id algorithm));
  match v with
  | VTuple [VBool used; VStr id; VStr key] => if key_id_ok id then Ok (used, id, key) else Err (Fail SerdeDe)
  | _ => Err (Fail SerdeDe)
  end.

(** @src src/src/service/users/keys.rs:112-195 Service::take_one_time_key *)
Definition take_one_time_key (user_id device_id key_algorithm : bytes) : M (bytes * bytes) :=
  count ← next;
  _ ← insert userid_lastonetimekeyupdate user_id (u64_to_be count);
  one_time_key ← first_one_time_key user_id device_id key_algorithm;
  match one_time_key with
  | Some result => _ ← wake user_id; mret result
  | None =>
      d ← gets hdb;
      match read_fallback d user_id device_id key_algorithm with
      | Ok (used, id, key) =>
          _ ← (if used then mret tt else add_fallback_key user_id device_id id key true);
          _ ← wake user_id;
          mret (id, key)
      | Err (Fail _) => fail NotFound
      | Err e => pure (Err e)
      end
  end.

(** The string of a key without its quotation marks ([Unquoted]); the prefix has no separator after
    the device.
    @src src/src/service/users/keys.rs:199-227 Service::count_one_time_keys *)
Definition count_one_time_keys (unquoted : bytes → option bytes) (d : Db) (user_id device_id : bytes) :
    comp db_error (gmap bytes Z) :=
  l ← stream_prefix (TTuple [TIgnore; TIgnore; TStr]) TIgnore d onetimekeyid_onetimekeys (device_key user_id device_id);
  foldl (fun counts kv =>
      counts ← counts;
      match kv with
      | (VTuple [_; _; VStr quoted], _) =>
          match unquoted quoted with
          | None => Ok counts
          | Some id =>
              if key_id_ok id
              then Ok (<[algorithm id := Z.min u64_max (default 0 (counts !! algorithm id) + 1)]> counts)
              else Err Panicked
          end
      | _ => Ok counts
      end) (Ok ∅) (ignore_err l).

(** @src src/src/service/users/keys.rs:230-256 Service::list_unused_fallback_key_types *)
Definition list_unused_fallback_key_types (d : Db) (user_id device_id : bytes) : comp db_error (list bytes) :=
  l ← stream_prefix (TTuple [TStr; TStr; TStr]) (TTuple [TBool; TStr; TIgnore]) d fallbackkeyid_fallbackkey
        (VBytes (one_time_prefix user_id device_id));
  Ok (omap (fun kv => match kv with
                      | (VTuple [_; _; VStr algorithm], VTuple (VBool false :: _)) => Some algorithm
                      | _ => None
                      end) (ignore_err l)).

(** ** Identity and cross-signing keys *)

(** @src src/src/service/users/keys.rs:260-270 Service::add_device_keys *)
Definition add_device_keys (user_id device_id device_keys : bytes) : M unit :=
  _ ← put keyid_key (device_key user_id device_id) (VJson device_keys);
  mark_device_key_update user_id.

(** The only key identifier of a cross-signing key. *)
Definition only_key (json : bytes) : comp db_error bytes :=
  match cross_signing_keys json with
  | Some [id] => Ok id
  | _ => Err (Fail InvalidParam)
  end.

(** @src src/src/service/users/mod.rs:163-186 parse_master_key *)
Definition parse_master_key (user_id master_key : bytes) : comp db_error bytes :=
  id ← only_key master_key; Ok (user_id ++ [SEP] ++ id).

(** @src src/src/service/users/mod.rs:188-204 parse_user_signing_key *)
Definition parse_user_signing_key (user_signing_key : bytes) : comp db_error bytes := only_key user_signing_key.

(** A key and which of the user's it is. *)
Definition store_signing_key (ids : column) (user_id key json : bytes) : M unit :=
  _ ← insert keyid_key key json; insert ids user_id key.

(** @src src/src/service/users/keys.rs:274-348 Service::add_cross_signing_keys *)
Definition add_cross_signing_keys (user_id : bytes) (master_key self_signing_key user_signing_key : option bytes)
    (notify : bool) : M unit :=
  _ ← match master_key with
      | Some json =>
          key ← pure (parse_master_key user_id json);
          store_signing_key userid_masterkeyid user_id key json
      | None => mret tt
      end;
  _ ← match self_signing_key with
      | Some json =>
          id ← pure (only_key json);
          store_signing_key userid_selfsigningkeyid user_id (user_id ++ [SEP] ++ id) json
      | None => mret tt
      end;
  _ ← match user_signing_key with
      | Some json =>
          id ← pure (parse_user_signing_key json);
          _ ← put_raw keyid_key (VTuple [VStr user_id; VStr id]) json;
          raw_put userid_usersigningkeyid user_id (VTuple [VStr user_id; VStr id])
      | None => mret tt
      end;
  if notify then mark_device_key_update user_id else mret tt.

(** @src src/src/service/users/keys.rs:471-478 Service::get_device_keys *)
Definition get_device_keys (d : Db) (user_id device_id : bytes) : comp db_error bytes :=
  deserialized_str (qry d keyid_key (device_key user_id device_id)).

(** ** Signatures

    A key as [serde_json::Value]: its signatures by user, where it has them. *)
Class SignedValue (V : Type) := {
  signatures : V → option (gmap bytes V);
  with_signatures : V → gmap bytes V → V;
  user_id_ok : bytes → bool;
}.

Section Signatures.
Context {V : Type} `{!SignedValue V}.

(** @src src/src/service/users/mod.rs:207-235 clean_signatures *)
Definition clean_signatures (cross_signing_key : V) (sender_user : option bytes) (user_id : bytes)
    (allowed_signatures : bytes → bool) : comp db_error V :=
  match signatures cross_signing_key with
  | None => Ok cross_signing_key
  | Some sigs =>
      if decide (map_Forall (fun user _ => user_id_ok user = true) sigs)
      then Ok (with_signatures cross_signing_key
                 (filter (fun kv => sender_user = Some user_id ∨ kv.1 = user_id ∨ allowed_signatures kv.1 = true) sigs))
      else Err (Fail DatabaseError)
  end.

Context `{!Json V}.

(** @src src/src/service/users/keys.rs:481-496 Service::get_key *)
Definition get_key (d : Db) (key_id : bytes) (sender_user : option bytes) (user_id : bytes)
    (allowed_signatures : bytes → bool) : comp db_error bytes :=
  key ← deserialized_json (get d keyid_key key_id);
  cleaned ← clean_signatures key sender_user user_id allowed_signatures;
  Ok (to_json cleaned).

(** @src src/src/service/users/keys.rs:499-512 Service::get_master_key *)
Definition get_master_key (d : Db) (sender_user : option bytes) (user_id : bytes) (allowed_signatures : bytes → bool) :
    comp db_error bytes :=
  key_id ← get d userid_masterkeyid user_id; get_key d key_id sender_user user_id allowed_signatures.

(** @src src/src/service/users/keys.rs:515-528 Service::get_self_signing_key *)
Definition get_self_signing_key (d : Db) (sender_user : option bytes) (user_id : bytes)
    (allowed_signatures : bytes → bool) : comp db_error bytes :=
  key_id ← get d userid_selfsigningkeyid user_id; get_key d key_id sender_user user_id allowed_signatures.

(** @src src/src/service/users/keys.rs:531-538 Service::get_user_signing_key *)
Definition get_user_signing_key (d : Db) (user_id : bytes) : comp db_error bytes :=
  deserialized_str (key_id ← get d userid_usersigningkeyid user_id; get d keyid_key key_id).
End Signatures.
End UserKeys.
