(* ===== verification/Devices.v ===== *)
(** Devices and who may act as them: src/src/service/users/device.rs,
    src/src/service/users/dehydrated_device.rs, the look-up of an access token and the status of an
    account in src/src/service/users/account.rs, and the sessions of OAuth clients in
    src/src/service/oauth/mod.rs as far as removing a device removes them.

    A device has metadata, and may have one access token, with or without an end, one session of an
    OAuth client with its refresh token, and an inbox of to-device events.  Clock readings (in
    nanoseconds, or milliseconds where the code reads those) and random strings are parameters. *)

From stdpp Require Import prelude gmap sorting.
From Stdlib Require Import ZArith Lia.
From S2P Require Import Prelude Effects Bytes DbSer Database PairKeys Scans Tables Short Json Host UserKeys.
Local Open Scope Z_scope.

(** ruma's [Device], as it is stored. *)
Record Device := {
  device_id : bytes;
  display_name : option bytes;
  last_seen_ip : option bytes;
  last_seen_ts : option Z;
}.

(** @src src/src/service/users/device.rs:22-25 DeviceToken *)
Record DeviceToken := { token : bytes; max_age : option Z }.

(** @src src/src/service/users/dehydrated_device.rs:13-19 DehydratedDevice *)
Record DehydratedDevice := { dehydrated_device_id : bytes; device_data : bytes }.

(** @src src/src/service/oauth/grant.rs:86-89 Scope *)
Inductive Scope := ScopeDevice (device_id : bytes) | ScopeClientApi.

(** [scopes] is a set ordered by [Scope]'s order.
    @src src/src/service/oauth/mod.rs:56-60 SessionInfo *)
Record SessionInfo := { client_id : bytes; scopes : list Scope; current_refresh_token : bytes }.

(** @src src/src/service/oauth/mod.rs:63-67 RefreshTokenInfo *)
Record RefreshTokenInfo := { rt_client_id : bytes; rt_user_id : bytes; rt_device_id : bytes }.

(** @src src/src/service/users/account.rs:39-43 AccountStatus *)
Inductive AccountStatus : Set := AccountNotFound | Active | Deactivated.

(** @src src/src/service/users/account.rs:32-35 AccessTokenStatus *)
Inductive AccessTokenStatus : Set := Valid | Expired.

(** What the rest of the server answers: whose account is local (globals), whether an application
    service has a token (appservice). *)
Class Server := {
  user_is_local : bytes → bool;
  appservice_token : bytes → bool;
}.

(** Nanoseconds of a second, and the bounds of [Duration] and [SystemTime]. *)
Definition SECOND : Z := 1000000000.

Section Devices.
Context `{!Parsers, !Rooms, !KeyLibrary, !Server, !Json Device, !Json DehydratedDevice, !Json SessionInfo,
  !Json RefreshTokenInfo}.

(** ** Accounts *)

(** @src src/src/service/users/account.rs:47-47 AccountStatus::is_found *)
Definition is_found (s : AccountStatus) : bool := match s with AccountNotFound => false | _ => true end.
(** @src src/src/service/users/account.rs:50-50 AccountStatus::is_active *)
Definition is_active (s : AccountStatus) : bool := match s with Active => true | _ => false end.
(** @src src/src/service/users/account.rs:52-58 AccountStatus::ensure_active *)
Definition ensure_active (s : AccountStatus) : comp db_error unit :=
  match s with
  | Active => Ok tt
  | Deactivated => Err (Fail UserDeactivated)
  | AccountNotFound => Err (Fail NotFound)
  end.

(** @src src/src/service/users/account.rs:515-527 Service::status *)
Definition status (d : Db) (user_id : bytes) : AccountStatus :=
  if negb (user_is_local user_id) then AccountNotFound
  else if exists_ d userid_password user_id then
    if exists_ d userid_deactivated user_id then Deactivated else Active
  else AccountNotFound.

(** ** Tokens *)

(** @src src/src/service/users/device.rs:156-159 Service::get_token *)
Definition get_token (d : Db) (user_id device_id : bytes) : comp db_error bytes :=
  deserialized_str (qry d userdeviceid_token (device_key user_id device_id)).

(** The second at which a token ends; [now] is nanoseconds since the epoch.  The removal of the end of
    the old token is by the token, not by the device.
    @src src/src/service/users/device.rs:162-214 Service::set_token *)
Definition set_token (now : Z) (user_id device_id : bytes) (t : DeviceToken) : M unit :=
  let key := device_key user_id device_id in
  known ← reads (fun d => has_metadata d user_id device_id);
  if negb known then fail DatabaseError
  else if appservice_token (token t) then fail InvalidParam
  else
    old ← gets (fun s => qry (hdb s) userdeviceid_token key);
    _ ← match old with
        | Ok old_token =>
            _ ← remove token_userdeviceid old_token;
            remove userdeviceid_tokenexpires old_token
        | Err _ => mret tt
        end;
    _ ← put_raw userdeviceid_token key (token t);
    _ ← raw_put token_userdeviceid (token t) key;
    match max_age t with
    | Some max_age =>
        if decide (now < 0) then panic
        else put userdeviceid_tokenexpires key (VU64 (Z.min ((now + max_age) / SECOND) u64_max))
    | None => del userdeviceid_tokenexpires key
    end.

(** The owner of an access token; it panics for an empty one.
    @src src/src/service/users/account.rs:546-580 Service::find_from_token *)
Definition find_from_token (now : Z) (d : Db) (token : bytes) :
    comp db_error (option (bytes * bytes * AccessTokenStatus)) :=
  if decide (token = []) then Err Panicked
  else
    match deserialized_pair (get d token_userdeviceid token) with
    | Err (Fail _) => Ok None
    | Err e => Err e
    | Ok (user_id, device_id) =>
        match deserialized_u64 (qry d userdeviceid_tokenexpires (device_key user_id device_id)) with
        | Ok expires =>
            if decide (i64_max < expires) then Err Panicked
            else if decide (expires * SECOND < now) then Ok (Some (user_id, device_id, Expired))
            else Ok (Some (user_id, device_id, Valid))
        | Err (Fail _) => Ok (Some (user_id, device_id, Valid))
        | Err e => Err e
        end
    end.

(** ** Sessions *)

(** @src src/src/service/oauth/mod.rs:225-236 Service::get_session_info_for_device *)
Definition get_session_info_for_device (d : Db) (user_id device_id : bytes) : option SessionInfo :=
  ok (deserialized_json (qry d userdeviceid_oauthsessioninfo (device_key user_id device_id))).

(** @src src/src/service/oauth/mod.rs:688-700 Service::remove_session *)
Definition remove_session (user_id device_id : bytes) : M unit :=
  info ← gets (fun s => get_session_info_for_device (hdb s) user_id device_id);
  match info with
  | Some session_info =>
      _ ← remove refreshtoken_refreshtokeninfo (current_refresh_token session_info);
      del userdeviceid_oauthsessioninfo (device_key user_id device_id)
  | None => mret tt
  end.

(** ** Devices *)

(** @src src/src/service/users/dehydrated_device.rs:114-120 Service::get_dehydrated_device *)
Definition get_dehydrated_device (d : Db) (user_id : bytes) : comp db_error DehydratedDevice :=
  deserialized_json (get d userid_dehydrateddevice user_id).

(** @src src/src/service/users/dehydrated_device.rs:107-111 Service::get_dehydrated_device_id *)
Definition get_dehydrated_device_id (d : Db) (user_id : bytes) : comp db_error bytes :=
  device ← get_dehydrated_device d user_id; Ok (dehydrated_device_id device).

(** @src src/src/service/users/dehydrated_device.rs:86-104 Service::remove_dehydrated_device *)
Definition remove_dehydrated_device (user_id : bytes) (maybe_device_id : option bytes) : M bytes :=
  found ← gets (fun s => get_dehydrated_device_id (hdb s) user_id);
  match found with
  | Err (Fail _) => fail NotFound
  | Err e => pure (Err e)
  | Ok device_id =>
      if match maybe_device_id with Some id => bool_decide (id ≠ device_id) | None => false end then fail NotFound
      else _ ← remove userid_dehydrateddevice user_id; mret device_id
  end.

(** [generated] is the random identifier used when none is given, [now] the clock in nanoseconds.
    @src src/src/service/users/device.rs:49-78 Service::create_device *)
Definition create_device (generated : bytes) (now : Z) (user_id : bytes) (device_id : option bytes)
    (token : option DeviceToken) (initial_device_display_name client_ip : option bytes) : M bytes :=
  s ← gets id;
  _ ← pure (ensure_active (status (hdb s) user_id));
  let device_id := default generated device_id in
  let device := {| device_id := device_id; display_name := initial_device_display_name;
                   last_seen_ip := client_ip; last_seen_ts := Some (now / 1000000) |} in
  _ ← increment userid_devicelistversion user_id;
  _ ← put userdeviceid_metadata (device_key user_id device_id) (as_json device);
  _ ← match token with Some token => set_token now user_id device_id token | None => mret tt end;
  mret device_id.

(** @src src/src/service/users/device.rs:81-140 Service::remove_device *)
Definition remove_device (user_id device_id : bytes) : M unit :=
  let userdeviceid := device_key user_id device_id in
  _ ← attempt (remove_dehydrated_device user_id (Some device_id));
  old ← gets (fun s => qry (hdb s) userdeviceid_token userdeviceid);
  _ ← match old with
      | Ok old_token =>
          _ ← del userdeviceid_token userdeviceid;
          _ ← remove token_userdeviceid old_token;
          del userdeviceid_tokenexpires userdeviceid
      | Err _ => mret tt
      end;
  let prefix := VTuple [VStr user_id; VStr device_id; VInterfix] in
  _ ← remove_prefix todeviceid_events prefix;
  _ ← remove_prefix onetimekeyid_onetimekeys (VBytes (one_time_prefix user_id device_id));
  _ ← remove_prefix fallbackkeyid_fallbackkey prefix;
  count ← next;
  _ ← insert userid_lastonetimekeyupdate user_id (u64_to_be count);
  _ ← remove_session user_id device_id;
  _ ← increment userid_devicelistversion user_id;
  _ ← del userdeviceid_metadata userdeviceid;
  mark_device_key_update user_id.

(** @src src/src/service/users/device.rs:143-153 Service::all_device_ids *)
Definition all_device_ids (d : Db) (user_id : bytes) : comp db_error (list bytes) :=
  keys_second d userdeviceid_metadata user_id.

(** @src src/src/service/users/device.rs:306-316 Service::update_device_metadata_no_increment *)
Definition update_device_metadata_no_increment (user_id device_id : bytes) (device : Device) : M unit :=
  put userdeviceid_metadata (device_key user_id device_id) (as_json device).

(** @src src/src/service/users/device.rs:292-300 Service::update_device_metadata *)
Definition update_device_metadata (user_id device_id : bytes) (device : Device) : M unit :=
  _ ← increment userid_devicelistversion user_id;
  update_device_metadata_no_increment user_id device_id device.

(** @src src/src/service/users/device.rs:347-357 Service::get_device_metadata *)
Definition get_device_metadata (d : Db) (user_id device_id : bytes) : comp db_error Device :=
  deserialized_json (qry d userdeviceid_metadata (device_key user_id device_id)).

(** Saturating subtraction of [UInt]. *)
Definition recent (now : Z) (prev : option Z) : bool :=
  match prev with Some prev => bool_decide (Z.max 0 (now - prev) < 10000) | None => false end.

(** [now] is in milliseconds.
    @src src/src/service/users/device.rs:321-344 Service::update_device_last_seen *)
Definition update_device_last_seen (now : Z) (user_id : bytes) (device_id : option bytes) (ip : bytes) : M unit :=
  match device_id with
  | None => mret tt
  | Some id =>
      found ← gets (fun s => get_device_metadata (hdb s) user_id id);
      match found with
      | Ok device =>
          if recent now (last_seen_ts device) then mret tt
          else update_device_metadata_no_increment user_id id
                 {| device_id := Devices.device_id device; display_name := display_name device;
                    last_seen_ip := Some ip; last_seen_ts := Some now |}
      | Err _ => mret tt
      end
  end.

(** @src src/src/service/users/device.rs:360-366 Service::get_devicelist_version *)
Definition get_devicelist_version (d : Db) (user_id : bytes) : comp db_error Z :=
  deserialized_u64 (get d userid_devicelistversion user_id).

(** @src src/src/service/users/device.rs:369-379 Service::all_devices_metadata *)
Definition all_devices_metadata (d : Db) (user_id : bytes) : comp db_error (list Device) :=
  l ← stream_prefix TIgnore TJson d userdeviceid_metadata (VTuple [VStr user_id; VInterfix]);
  Ok (omap (fun kv => match kv.2 with VJson text => from_json text | _ => None end) (ignore_err l)).

(** ** To-device events *)

(** [to_device] is the text of the event.
    @src src/src/service/users/device.rs:217-238 Service::add_to_device_event *)
Definition add_to_device_event (target_user_id target_device_id to_device : bytes) : M unit :=
  count ← next;
  _ ← put todeviceid_events (VTuple [VStr target_user_id; VStr target_device_id; VU64 count]) (VJson to_device);
  wake target_user_id.

(** An item of the stream: user, device, number and event. *)
Definition to_device_item (kv : value * value) : option (bytes * bytes * Z * bytes) :=
  match kv with
  | (VTuple [VStr user; VStr device; VU64 count], VStr event) => Some (user, device, count, event)
  | _ => None
  end.
Definition to_device_key_ty : ty := TTuple [TStr; TStr; TU64].

(** @src src/src/service/users/device.rs:241-262 Service::get_to_device_events *)
Definition get_to_device_events (d : Db) (user_id device_id : bytes) (since to : option Z) :
    comp db_error (list (Z * bytes)) :=
  let from := VTuple [VStr user_id; VStr device_id;
                      VU64 (match since with Some since => saturating_succ since | None => 0 end)] in
  l ← stream_from to_device_key_ty TStr d todeviceid_events from;
  let l := take_while (fun item => item.1.1 = (user_id, device_id) ∧ up_to to item.1.2)
             (omap to_device_item (ignore_err l)) in
  Ok (map (fun item => (item.1.2, item.2)) l).

Definition owned_by (user_id device_id : bytes) (key : value) : bool :=
  match key with
  | VTuple [VStr user; VStr device; VU64 _] => bool_decide (user = user_id ∧ device = device_id)
  | _ => false
  end.

(** @src src/src/service/users/device.rs:266-289 Service::remove_to_device_events *)
Definition remove_to_device_events (user_id device_id : bytes) (until : option Z) : M unit :=
  let from := VTuple [VStr user_id; VStr device_id; VU64 (default u64_max until)] in
  l ← reads (fun d => rev_keys_from to_device_key_ty d todeviceid_events from);
  let keys := take_while (fun key => owned_by user_id device_id key) (ignore_err l) in
  for_each (del todeviceid_events) keys.

(** ** Dehydrated devices *)

(** @src src/src/service/users/dehydrated_device.rs:23-75 Service::set_dehydrated_device *)
Definition set_dehydrated_device (generated : bytes) (now : Z) (user_id : bytes) (request : DehydratedDevice)
    (initial_device_display_name : option bytes) (device_keys : bytes) (one_time_keys : list (bytes * bytes)) :
    M unit :=
  s ← gets id;
  _ ← pure (ensure_active (status (hdb s) user_id));
  let existing_id := get_dehydrated_device_id (hdb s) user_id in
  let id := dehydrated_device_id request in
  if negb (is_ok existing_id) && is_ok (get_device_metadata (hdb s) user_id id) then fail Unknown
  else
    _ ← match existing_id with
        | Ok existing_id => remove_device user_id existing_id
        | Err _ => mret tt
        end;
    _ ← create_device generated now user_id (Some id) None initial_device_display_name None;
    _ ← raw_put userid_dehydrateddevice user_id (as_json request);
    _ ← add_device_keys user_id id device_keys;
    for_each (fun '(key, value) => add_one_time_key user_id id key value) one_time_keys.
End Devices.
