(* ===== verification/Accounts.v ===== *)
(** Accounts: src/src/service/users/account.rs, apart from what concerns devices (Devices.v).

    An account is an entry of [userid_password], empty for an account without a password (a shadow
    account); it may be deactivated, suspended or locked.  Accounts act by passwords, login tokens
    (used once) and OpenID tokens.  The hash of passwords, what a user identifier is and the reading
    of clocks are parameters. *)

From stdpp Require Import prelude gmap.
From Stdlib Require Import ZArith Lia.
From S2P Require Import Prelude Effects Bytes DbSer Database PairKeys Scans Short Json Host UserKeys Devices.
Local Open Scope Z_scope.

(** @src src/src/service/users/mod.rs:29-36 UserSuspension *)
Record UserSuspension := {
  suspended : bool;
  suspended_at : Z; (** milliseconds *)
  suspended_by : bytes;
}.

(** argon2's verification of a password against a hash; [UserId::parse]; [str::to_lowercase]. *)
Class AccountLibrary := {
  verify_password : bytes → bytes → bool;
  user_id_ok : bytes → bool;
  to_lowercase : bytes → bytes;
}.

Section Accounts.
Context `{!Parsers, !Rooms, !KeyLibrary, !Server, !AccountLibrary, !Json Device, !Json DehydratedDevice,
  !Json SessionInfo, !Json RefreshTokenInfo, !Json UserSuspension}.

(** ** Accounts *)

(** @src src/src/service/users/account.rs:123-133 Service::create_shadow_account *)
Definition create_shadow_account (user_id : bytes) : M unit :=
  if negb (user_is_local user_id) then panic
  else
    d ← gets hdb;
    if is_found (status d user_id) then fail UserInUse
    else insert userid_password user_id [].

(** A password is given as its hash.
    @src src/src/service/users/account.rs:588-594 Service::set_password *)
Definition set_password (user_id password : bytes) : M unit :=
  d ← gets hdb;
  _ ← pure (ensure_active (status d user_id));
  insert userid_password user_id password.

(** @src src/src/service/users/account.rs:599-612 Service::convert_to_local_account *)
Definition convert_to_local_account (user_id password : bytes) : M unit :=
  d ← gets hdb;
  if negb (is_found (status d user_id)) then fail NotFound
  else
    _ ← remove userid_deactivated user_id;
    insert userid_password user_id password.

(** @src src/src/service/users/account.rs:616-625 Service::convert_to_shadow_account *)
Definition convert_to_shadow_account (user_id : bytes) : M unit :=
  d ← gets hdb;
  if negb (is_found (status d user_id)) then fail NotFound
  else
    _ ← remove userid_deactivated user_id;
    insert userid_password user_id [].

(** The accounts of the server, as they are counted and listed.
    @src src/src/service/users/account.rs:542-542 Service::count *)
Definition count (d : Db) : nat := size (d userid_password).

(** @src src/src/service/users/account.rs:530-537 Service::is_shadow *)
Definition is_shadow (d : Db) (user_id : bytes) : bool :=
  match deserialized_str (get d userid_password user_id) with
  | Ok hash => bool_decide (hash = [])
  | Err _ => false
  end.

(** The second look-up, under the name in lower case, needs an account that has an entry under [user_id]
    which cannot be read, as the first check found one.
    @src src/src/service/users/account.rs:628-660 Service::check_password *)
Definition check_password (d : Db) (user_id password : bytes) : comp db_error bytes :=
  _ ← ensure_active (status d user_id);
  '(hash, user_id) ← match deserialized_str (get d userid_password user_id) with
    | Ok hash => Ok (hash, user_id)
    | Err _ =>
        let lowercase_user_id := to_lowercase user_id in
        if negb (user_id_ok lowercase_user_id) then Err Panicked
        else
          match deserialized_str (get d userid_password lowercase_user_id) with
          | Ok hash => Ok (hash, lowercase_user_id)
          | Err _ => Err Panicked
          end
    end;
  if decide (hash = []) then Err (Fail Forbidden)
  else if verify_password password hash then Ok user_id
  else Err (Fail Forbidden).

(** @src src/src/service/users/account.rs:402-415 Service::deactivate_account *)
Definition deactivate_account (user_id : bytes) : M unit :=
  d ← gets hdb;
  _ ← pure (ensure_active (status d user_id));
  device_ids ← reads (fun d => all_device_ids d user_id);
  _ ← for_each (remove_device user_id) device_ids;
  insert userid_deactivated user_id [].

(** ** Suspension *)

(** @src src/src/service/users/account.rs:418-427 Service::suspend_account *)
Definition suspend_account (now : Z) (user_id suspending_user : bytes) : M unit :=
  raw_put userid_suspension user_id
    (as_json {| suspended := true; suspended_at := now; suspended_by := suspending_user |}).

(** @src src/src/service/users/account.rs:430-432 Service::unsuspend_account *)
Definition unsuspend_account (user_id : bytes) : M unit := remove userid_suspension user_id.

(** @src src/src/service/users/account.rs:435-452 Service::lock_account *)
Definition lock_account (now : Z) (user_id locking_user : bytes) : M unit :=
  d ← gets hdb;
  let suspension := default {| suspended := true; suspended_at := now; suspended_by := locking_user |}
    (ok (deserialized_json (get d userid_lock user_id))) in
  raw_put userid_lock user_id (as_json suspension).

(** @src src/src/service/users/account.rs:455-455 Service::unlock_account *)
Definition unlock_account (user_id : bytes) : M unit := remove userid_lock user_id.

Definition read_suspension (d : Db) (c : column) (user_id : bytes) : comp db_error bool :=
  match deserialized_json (get d c user_id) with
  | Ok s => Ok (suspended s)
  | Err (Fail NotFound) => Ok false
  | Err e => Err e
  end.

(** @src src/src/service/users/account.rs:458-474 Service::is_suspended *)
Definition is_suspended (d : Db) (user_id : bytes) : comp db_error bool := read_suspension d userid_suspension user_id.
(** @src src/src/service/users/account.rs:478-494 Service::is_locked *)
Definition is_locked (d : Db) (user_id : bytes) : comp db_error bool := read_suspension d userid_lock user_id.

(** @src src/src/service/users/account.rs:498-500 Service::disable_login *)
Definition disable_login (user_id : bytes) : M unit := insert userid_logindisabled user_id [].
(** @src src/src/service/users/account.rs:503-503 Service::enable_login *)
Definition enable_login (user_id : bytes) : M unit := remove userid_logindisabled user_id.
(** @src src/src/service/users/account.rs:506-512 Service::is_login_disabled *)
Definition is_login_disabled (d : Db) (user_id : bytes) : bool := exists_ d userid_logindisabled user_id.

(** ** Tokens

    Times are milliseconds; the sums saturate. *)

Definition saturating_u64 (n : Z) : Z := Z.min n u64_max.

(** @src src/src/service/users/account.rs:664-678 Service::create_openid_token *)
Definition create_openid_token (openid_token_ttl now : Z) (user_id token : bytes) : M Z :=
  let expires_at := saturating_u64 (now + saturating_u64 (openid_token_ttl * 1000)) in
  _ ← insert openidtoken_expiresatuserid token (u64_to_be expires_at ++ user_id);
  mret openid_token_ttl.

(** [split_at] panics where the value has fewer than eight bytes.
    @src src/src/service/users/account.rs:681-704 Service::find_from_openid_token *)
Definition find_from_openid_token (now : Z) (token : bytes) : M bytes :=
  d ← gets hdb;
  match get d openidtoken_expiresatuserid token with
  | Err _ => fail Unauthorized
  | Ok value =>
      if decide (length value < 8)%nat then panic
      else
        let expires_at := from_be (take 8 value) in
        let user_bytes := drop 8 value in
        if decide (expires_at < now) then
          _ ← remove openidtoken_expiresatuserid token;
          fail Unauthorized
        else if valid_utf8 user_bytes && user_id_ok user_bytes then mret user_bytes
        else fail DatabaseError
  end.

(** @src src/src/service/users/account.rs:708-718 Service::create_login_token *)
Definition create_login_token (login_token_ttl now : Z) (user_id token : bytes) : M Z :=
  let expires_at := saturating_u64 (now + login_token_ttl) in
  _ ← raw_put logintoken_expiresatuserid token (VTuple [VU64 expires_at; VStr user_id]);
  mret login_token_ttl.

(** [deserialized::<(u64, OwnedUserId)>]. *)
Definition read_login_token (value : bytes) : comp db_error (Z * bytes) :=
  v ← deserialized (TTuple [TU64; TStr]) (Ok value);
  match v with
  | VTuple [VU64 expires_at; VStr user_id] =>
      if user_id_ok user_id then Ok (expires_at, user_id) else Err (Fail SerdeDe)
  | _ => Err (Fail SerdeDe)
  end.

(** @src src/src/service/users/account.rs:722-739 Service::find_from_login_token *)
Definition find_from_login_token (now : Z) (token : bytes) : M bytes :=
  d ← gets hdb;
  match get d logintoken_expiresatuserid token with
  | Err _ => fail Forbidden
  | Ok value =>
      '(expires_at, user_id) ← pure (read_login_token value);
      _ ← remove logintoken_expiresatuserid token;
      if decide (expires_at < now) then fail Forbidden else mret user_id
  end.
End Accounts.
