(* ===== verification/RegistrationTokens.v ===== *)
(** Registration tokens: src/src/service/registration_tokens (mod.rs, data.rs).

    A token allows an account to be created.  Tokens come from the configuration, a file, the first
    run of the server (then no other is valid), or the database, where they may be limited in uses
    or time.  Clock readings and random strings are parameters. *)

From stdpp Require Import prelude countable gmap.
From Stdlib Require Import ZArith Lia.
From S2P Require Import Prelude Effects Bytes DbSer Database PairKeys Scans Tables Short Json Host.
Local Open Scope Z_scope.

(** Times are nanoseconds.
    @src src/src/service/registration_tokens/data.rs:63-66 TokenExpires *)
Inductive TokenExpires := AfterUses (max_uses : Z) | AfterTime (expiry_time : Z).

(** @src src/src/service/registration_tokens/data.rs:18-25 DatabaseTokenInfo *)
Record DatabaseTokenInfo := { creator : bytes; uses : Z; expires : option TokenExpires }.

(** @src src/src/service/registration_tokens/mod.rs:49-60 ValidTokenSource *)
Inductive ValidTokenSource := FromConfig | FromDatabase (info : DatabaseTokenInfo) | FirstAccount | TokenFile.

(** @src src/src/service/registration_tokens/mod.rs:32-35 ValidToken *)
Record ValidToken := { vt_token : bytes; source : ValidTokenSource }.

(** What is read from the configuration and on the first run. *)
Record TokenConfig := {
  config_file_token : option bytes;
  registration_tokens_from_file : list bytes;
  first_account_token : option bytes;
}.

Section Tokens.
Context `{!Parsers, !Json DatabaseTokenInfo}.

(** @src src/src/service/registration_tokens/data.rs:28-30 DatabaseTokenInfo::new *)
Definition new_token_info (creator : bytes) (expires : option TokenExpires) : DatabaseTokenInfo :=
  {| creator := creator; uses := 0; expires := expires |}.

(** @src src/src/service/registration_tokens/data.rs:36-46 DatabaseTokenInfo::is_valid *)
Definition is_valid (now : Z) (i : DatabaseTokenInfo) : bool :=
  match expires i with
  | Some (AfterUses max_uses) => bool_decide (uses i < max_uses)
  | Some (AfterTime expiry_time) => bool_decide (now ≤ expiry_time)
  | None => true
  end.

(** @src src/src/service/registration_tokens/data.rs:97-99 Data::save_token *)
Definition save_token (token : bytes) (info : DatabaseTokenInfo) : M unit :=
  raw_put registrationtoken_info token (as_json info).

(** @src src/src/service/registration_tokens/data.rs:102-102 Data::revoke_token *)
Definition data_revoke_token (token : bytes) : M unit := remove registrationtoken_info token.

(** @src src/src/service/registration_tokens/data.rs:105-111 Data::lookup_token_info *)
Definition lookup_token_info (d : Db) (token : bytes) : option DatabaseTokenInfo :=
  ok (deserialized_json (get d registrationtoken_info token)).

(** @src src/src/service/registration_tokens/mod.rs:112-122 Service::issue_token *)
Definition issue_token (generated creator : bytes) (expires : option TokenExpires) : M (bytes * DatabaseTokenInfo) :=
  let info := new_token_info creator expires in
  _ ← save_token generated info;
  mret (generated, info).

Context (c : TokenConfig).

(** @src src/src/service/registration_tokens/mod.rs:126-141 Service::iterate_static_tokens *)
Definition iterate_static_tokens : list ValidToken :=
  map (fun t => {| vt_token := t; source := FromConfig |}) (option_list (config_file_token c)) ++
  map (fun t => {| vt_token := t; source := TokenFile |}) (registration_tokens_from_file c).

(** @src src/src/service/registration_tokens/mod.rs:144-174 Service::validate_token *)
Definition validate_token (now : Z) (d : Db) (token : bytes) : option ValidToken :=
  match first_account_token c with
  | Some first =>
      if decide (first = token) then Some {| vt_token := first; source := FirstAccount |} else None
  | None =>
      match List.find (fun t => bool_decide (vt_token t = token)) iterate_static_tokens with
      | Some static_token => Some static_token
      | None =>
          match lookup_token_info d token with
          | Some info =>
              if is_valid now info then Some {| vt_token := token; source := FromDatabase info |} else None
          | None => None
          end
      end
  end.

(** [saturating_add] is at 64 bits.
    @src src/src/service/registration_tokens/mod.rs:177-188 Service::mark_token_as_used *)
Definition mark_token_as_used (t : ValidToken) : M unit :=
  match source t with
  | FromDatabase info =>
      save_token (vt_token t)
        {| creator := creator info; uses := saturating_succ (uses info); expires := expires info |}
  | _ => mret tt
  end.

(** @src src/src/service/registration_tokens/mod.rs:194-216 Service::revoke_token *)
Definition revoke_token (t : ValidToken) : M unit :=
  match source t with
  | FromDatabase _ => data_revoke_token (vt_token t)
  | FromConfig | FirstAccount | TokenFile => fail Unknown
  end.

(** An entry of the column that can be read. *)
Definition token_entry (kv : bytes * bytes) : option (bytes * DatabaseTokenInfo) :=
  if valid_utf8 kv.1 then (fun info => (kv.1, info)) <$> ok (deserialized_json (Ok kv.2)) else None.

(** The entries as the stream comes to them, until a valid one is found if [one].
    @src src/src/service/registration_tokens/data.rs:114-128 Data::iterate_and_clean_tokens *)
Fixpoint iterate_and_clean_tokens (one : bool) (now : Z) (l : list (bytes * DatabaseTokenInfo)) : M (list ValidToken) :=
  match l with
  | [] => mret []
  | (token, info) :: l =>
      if is_valid now info then
        let t := {| vt_token := token; source := FromDatabase info |} in
        if one then mret [t] else ts ← iterate_and_clean_tokens one now l; mret (t :: ts)
      else
        _ ← remove registrationtoken_info token;
        iterate_and_clean_tokens one now l
  end.

(** All valid tokens, or the first.
    @src src/src/service/registration_tokens/mod.rs:219-234 Service::iterate_tokens *)
Definition iterate_tokens (one : bool) (now : Z) : M (list ValidToken) :=
  match first_account_token c with
  | Some first => mret [{| vt_token := first; source := FirstAccount |}]
  | None =>
      if one && bool_decide (iterate_static_tokens ≠ []) then mret (take 1 iterate_static_tokens)
      else
        d ← gets hdb;
        db_tokens ← iterate_and_clean_tokens one now
          (omap token_entry (raw_stream_from d registrationtoken_info []));
        mret (iterate_static_tokens ++ db_tokens)
  end.
End Tokens.
