(* ===== verification/Threepid.v ===== *)
(** Email addresses of accounts: src/src/service/threepid (session.rs, mod.rs).

    An address is validated in a session: a client with a secret asks for a message to the address, and
    the token in it makes the session valid, which is then consumed.  An account has one address at
    most, an address one account.  Clock readings (nanoseconds), random strings, the mailer and the
    rate limiter are parameters. *)

From stdpp Require Import prelude countable gmap.
From Stdlib Require Import ZArith Lia.
From S2P Require Import Prelude Effects Bytes DbSer Database PairKeys Scans Tables Short Host.
Local Open Scope Z_scope.

(** @src src/src/service/threepid/session.rs:39-42 ValidationToken *)
Record ValidationToken := { v_token : bytes; issued_at : Z }.

(** @src src/src/service/threepid/session.rs:31-36 ValidationState *)
Inductive ValidationState := Pending (t : ValidationToken) | Validated.

(** @src src/src/service/threepid/session.rs:18-27 ValidationSession *)
Record ValidationSession := {
  session_id : bytes;
  client_secret : bytes;
  email : bytes;
  validation_state : ValidationState;
}.

(** With the attempts of sending, by secret and address.
    @src src/src/service/threepid/session.rs:11-14 ValidationSessions *)
Record ValidationSessions := {
  sessions : gmap bytes ValidationSession;
  client_secrets : gmap bytes bytes;
  send_attempts : gmap (bytes * bytes) Z;
}.

Abbreviation V := (eff ValidationSessions db_error).

(** One hour.
    @src src/src/service/threepid/session.rs:46-46 ValidationToken::MAX_TOKEN_AGE *)
Definition MAX_TOKEN_AGE : Z := 3600 * 1000000000.

(** A time that is not after the clock's reading and less than an age before it. *)
Definition younger (now at_ age : Z) : bool := bool_decide (at_ ≤ now ∧ now - at_ < age).

Lemma younger_spec now at_ age : younger now at_ age → at_ ≤ now < at_ + age.
Proof. unfold younger. intros Hy%bool_decide_unpack. lia. Qed.

(** @src src/src/service/threepid/session.rs:56-61 ValidationToken::is_valid *)
Definition token_is_valid (now : Z) (t : ValidationToken) : bool := younger now (issued_at t) MAX_TOKEN_AGE.

Definition set_session (s : ValidationSession) (v : ValidationSessions) : ValidationSessions :=
  {| sessions := <[session_id s := s]> (sessions v); client_secrets := client_secrets v; send_attempts := send_attempts v |}.

Definition with_state (s : ValidationSession) (st : ValidationState) : ValidationSession :=
  {| session_id := session_id s; client_secret := client_secret s; email := email s; validation_state := st |}.

(** [generated]: the random session identifier and token.
    @src src/src/service/threepid/session.rs:76-94 ValidationSessions::create_session *)
Definition create_session (generated : bytes * bytes) (now : Z) (email client_secret : bytes) : V ValidationSession :=
  let session := {| session_id := generated.1; client_secret := client_secret; email := email;
                    validation_state := Pending {| v_token := generated.2; issued_at := now |} |} in
  _ ← modify (fun v => {| sessions := <[generated.1 := session]> (sessions v);
                          client_secrets := <[client_secret := generated.1]> (client_secrets v);
                          send_attempts := send_attempts v |});
  mret session.

(** @src src/src/service/threepid/session.rs:96-101 ValidationSessions::get_session *)
Definition get_session (v : ValidationSessions) (session_id : bytes) : option ValidationSession :=
  sessions v !! session_id.

(** @src src/src/service/threepid/session.rs:103-114 ValidationSessions::get_session_by_client_secret *)
Definition get_session_by_client_secret (client_secret : bytes) : V (option ValidationSession) :=
  v ← gets id;
  match client_secrets v !! client_secret with
  | None => mret None
  | Some sid => match sessions v !! sid with Some s => mret (Some s) | None => panic end
  end.

(** @src src/src/service/threepid/session.rs:116-127 ValidationSessions::remove_session *)
Definition remove_session (session_id : bytes) : V ValidationSession :=
  v ← gets id;
  match sessions v !! session_id with
  | None => panic
  | Some s =>
      _ ← modify (fun v => {| sessions := delete session_id (sessions v); client_secrets := client_secrets v;
                              send_attempts := send_attempts v |});
      match client_secrets v !! client_secret s with
      | None => panic
      | Some _ =>
          _ ← modify (fun v => {| sessions := sessions v; client_secrets := delete (client_secret s) (client_secrets v);
                                  send_attempts := send_attempts v |});
          mret s
      end
  end.

(** The environment of a request for a message: the mailer, if there is one, with what becomes of the
    message; and whether the rate limiter lets a message to an address pass. *)
Record MailEnv := { mailer : option bool; rate_ok : bytes → bool }.

(** The session for the secret gets a message, or is returned as it is.
    @src src/src/service/threepid/mod.rs:116-205 Service::send_validation_email *)
Definition send_validation_email (env : MailEnv) (generated : bytes * bytes) (now : Z)
    (recipient client_secret : bytes) (send_attempt : Z) : V bytes :=
  match mailer env with
  | None => fail Unknown
  | Some delivered =>
      known ← get_session_by_client_secret client_secret;
      let send (s : ValidationSession) : V bytes := if delivered then mret (session_id s) else fail Unknown in
      match known with
      | Some s =>
          if decide (email s ≠ recipient) then fail InvalidParam
          else
            match validation_state s with
            | Validated => mret (session_id s)
            | Pending _ =>
                if negb (rate_ok env (email s)) then fail LimitExceeded
                else
                  v ← gets id;
                  let key := (Threepid.client_secret s, email s) in
                  let last := default 0 (send_attempts v !! key) in
                  if decide (send_attempt ≤ last) then
                    _ ← modify (fun v => {| sessions := sessions v; client_secrets := client_secrets v;
                                            send_attempts := <[key := last]> (send_attempts v) |});
                    mret (session_id s)
                  else
                    _ ← modify (fun v => {| sessions := sessions v; client_secrets := client_secrets v;
                                            send_attempts := <[key := send_attempt]> (send_attempts v) |});
                    let s := with_state s (Pending {| v_token := generated.2; issued_at := now |}) in
                    _ ← modify (set_session s);
                    send s
            end
      | None => s ← create_session generated now recipient client_secret; send s
      end
  end.

(** Why a session cannot be used, as text. *)
Inductive ValidationError : Set := NoSession | BadToken | NotValidated.

(** @src src/src/service/threepid/mod.rs:208-239 Service::try_validate_session *)
Definition try_validate_session (now : Z) (session_id supplied_token : bytes) : V (result ValidationError unit) :=
  v ← gets id;
  match get_session v session_id with
  | None => mret (Err NoSession)
  | Some s =>
      match validation_state s with
      | Validated => mret (Ok tt)
      | Pending t =>
          if decide (v_token t ≠ supplied_token) then mret (Err BadToken)
          else if negb (token_is_valid now t) then mret (Err BadToken)
          else _ ← modify (set_session (with_state s Validated)); mret (Ok tt)
      end
  end.

(** @src src/src/service/threepid/mod.rs:242-268 Service::get_valid_session *)
Definition get_valid_session (v : ValidationSessions) (session_id client_secret : bytes) : result ValidationError bytes :=
  match get_session v session_id with
  | None => Err NoSession
  | Some s =>
      if bool_decide (Threepid.client_secret s = client_secret) &&
         match validation_state s with Validated => true | Pending _ => false end
      then Ok (email s)
      else Err NotValidated
  end.

(** A session that was found valid is removed; the lock is held from there to here.
    @src src/src/service/threepid/mod.rs:349-353 ValidSession::consume *)
Definition consume (session_id email : bytes) : V bytes := _ ← remove_session session_id; mret email.

(** ** Accounts' addresses *)
Section Addresses.
(** [Address::try_from]: which strings are addresses. *)
Context `{!Parsers} (address_ok : bytes → bool).

(** @src src/src/service/threepid/mod.rs:317-326 Service::get_email_for_localpart *)
Definition get_email_for_localpart (d : Db) (localpart : bytes) : option bytes :=
  match deserialized_str (get d localpart_email localpart) with
  | Ok address => if address_ok address then Some address else None
  | Err _ => None
  end.

(** @src src/src/service/threepid/mod.rs:329-336 Service::get_localpart_for_email *)
Definition get_localpart_for_email (d : Db) (email : bytes) : option bytes :=
  ok (deserialized_str (get d email_localpart email)).

(** @src src/src/service/threepid/mod.rs:305-314 Service::disassociate_localpart_email *)
Definition disassociate_localpart_email (localpart : bytes) : M (option bytes) :=
  d ← gets hdb;
  match get_email_for_localpart d localpart with
  | None => mret None
  | Some email =>
      _ ← remove localpart_email localpart;
      _ ← remove email_localpart email;
      mret (Some email)
  end.

(** @src src/src/service/threepid/mod.rs:271-299 Service::associate_localpart_email *)
Definition associate_localpart_email (localpart email : bytes) : M unit :=
  d ← gets hdb;
  match get_localpart_for_email d email with
  | Some existing_localpart =>
      if decide (existing_localpart ≠ localpart) then fail ThreepidInUse else mret tt
  | None =>
      _ ← disassociate_localpart_email localpart;
      _ ← insert localpart_email localpart email;
      insert email_localpart email localpart
  end.
End Addresses.
