(* ===== verification/Uiaa.v ===== *)
(** User-interactive authentication: src/src/service/uiaa/mod.rs, the tickets of
    src/src/service/oauth/mod.rs, and the routes of src/src/api/client that rest on it
    (account/register.rs: the flows of a registration; device.rs: deleting a device).

    A route that needs the user to authenticate names flows, each a list of stages.  The client
    completes stages one request at a time in a session that the service keeps, and the session ends
    when all stages of a flow are completed.  [create_session] and [continue_session] hold a lock on
    the sessions: each is one step.  Clock readings, random strings, the verification of a captcha by
    its provider and the settings of the server are in the environment of a step. *)

From stdpp Require Import prelude countable gmap.
From Stdlib Require Import ZArith Lia.
From S2P Require Import Prelude Effects Bytes DbSer Database Short Json Host UserKeys Devices Accounts RegistrationTokens Threepid.
Local Open Scope Z_scope.

(** ruma's [AuthType]: the stages.  Their names differ, so that comparing names compares stages. *)
Inductive AuthType : Set :=
  Password | ReCaptcha | EmailIdentity | Dummy | RegistrationToken | Terms | OAuth | OtherType (name : bytes).
#[export] Instance AuthType_eq_dec : EqDecision AuthType.
Proof. solve_decision. Defined.

(** ruma's [UserIdentifier] and [AuthData]: what a client supplies to complete a stage. *)
Inductive UserIdentifier := MatrixUser (user : bytes) | EmailUser (address : bytes) | OtherIdentifier.
Inductive AuthAttempt :=
| TryDummy | TryTerms | TryOAuth
| TryEmailIdentity (sid client_secret : bytes)
| TryPassword (identifier : UserIdentifier) (password : bytes)
| TryReCaptcha (response : bytes)
| TryRegistrationToken (token : bytes)
| FallbackAcknowledgement
| TryOther (name : bytes).
Record AuthData := { session : option bytes; attempt_ : AuthAttempt }.

Definition auth_type (a : AuthAttempt) : option AuthType :=
  match a with
  | TryDummy => Some Dummy | TryTerms => Some Terms | TryOAuth => Some OAuth
  | TryEmailIdentity _ _ => Some EmailIdentity | TryPassword _ _ => Some Password
  | TryReCaptcha _ => Some ReCaptcha | TryRegistrationToken _ => Some RegistrationToken
  | FallbackAcknowledgement => None
  | TryOther name => Some (OtherType name)
  end.

(** @src src/src/service/oauth/mod.rs:132-134 OAuthTicket *)
Inductive OAuthTicket : Set := CrossSigningReset.
#[export] Instance OAuthTicket_eq_dec : EqDecision OAuthTicket.
Proof. solve_decision. Defined.
#[export] Instance OAuthTicket_countable : Countable OAuthTicket.
Proof. refine (inj_countable' (fun _ => tt) (fun _ => CrossSigningReset) _). by intros []. Defined.

(** Ten minutes.
    @src src/src/service/oauth/mod.rs:137-137 OAuthTicket::MAX_AGE *)
Definition TICKET_MAX_AGE : Z := 600 * SECOND.

(** Who a session authenticates, as far as it is known.
    @src src/src/service/uiaa/mod.rs:156-172 Identity *)
Record Identity := { localpart : option bytes; email : option bytes }.

(** @src src/src/service/uiaa/mod.rs:102-110 UiaaSessionMetadata *)
Inductive UiaaSessionMetadata := Legacy (identity : Identity) | OAuthSession (localpart : bytes) (ticket : OAuthTicket).

(** The errors of a stage, by their kind. *)
Inductive StageError : Set := SForbidden | SThreepidAuthFailed | SInvalidParam | SUnrecognized | SCaptchaInvalid.

(** ruma's [UiaaInfo], which is sent to the client; the parameters are JSON. *)
Record UiaaInfo := {
  flows : list (list AuthType);
  completed : list AuthType;
  params : option bytes;
  info_session : option bytes;
  auth_error : option StageError;
}.

(** @src src/src/service/uiaa/mod.rs:96-99 UiaaSession *)
Record UiaaSession := { session_metadata : UiaaSessionMetadata; info : UiaaInfo }.

(** @src src/src/service/uiaa/mod.rs:123-127 UiaaInitiator *)
Record UiaaInitiator := { user_id : bytes; initiator_device : option bytes; oauth_ticket : option OAuthTicket }.

(** [UserId::parse_with_server_name] at this server, [UserId::localpart], [Address::try_from],
    [str::trim], and the JSON of a ticket's parameters. *)
Class UiaaLibrary := {
  parse_with_server_name : bytes → option bytes;
  localpart_of : bytes → bytes;
  address_ok : bytes → bool;
  trim : bytes → bytes;
  ticket_params : OAuthTicket → bytes;
}.

(** The environment of a step: the time, whether a captcha is configured and what its provider answers,
    the settings. *)
Record Env := {
  now : Z;
  recaptcha : option (bytes → bool);
  uiaa_available : bool;
  token_config : TokenConfig;
}.

(** What authentication acts on: the database, the validation of addresses, tickets with the time they
    were issued at, and the sessions. *)
Record Uiaa := {
  u_host : Host;
  u_validation : ValidationSessions;
  tickets : gmap bytes (gmap OAuthTicket Z);
  uiaa_sessions : gmap bytes UiaaSession;
}.

Abbreviation U := (eff Uiaa db_error).

Definition on_host {A} (m : M A) : U A := fun s =>
  let '(r, h) := m (u_host s) in
  (r, {| u_host := h; u_validation := u_validation s; tickets := tickets s; uiaa_sessions := uiaa_sessions s |}).
Definition on_validation {A} (m : V A) : U A := fun s =>
  let '(r, v) := m (u_validation s) in
  (r, {| u_host := u_host s; u_validation := v; tickets := tickets s; uiaa_sessions := uiaa_sessions s |}).
Definition set_tickets (t : gmap bytes (gmap OAuthTicket Z)) (s : Uiaa) : Uiaa :=
  {| u_host := u_host s; u_validation := u_validation s; tickets := t; uiaa_sessions := uiaa_sessions s |}.
Definition set_sessions (m : gmap bytes UiaaSession) (s : Uiaa) : Uiaa :=
  {| u_host := u_host s; u_validation := u_validation s; tickets := tickets s; uiaa_sessions := m |}.

(** @src src/src/service/oauth/mod.rs:703-710 Service::issue_ticket *)
Definition issue_ticket (now : Z) (localpart : bytes) (ticket : OAuthTicket) : U unit :=
  modify (fun s => set_tickets (<[localpart := <[ticket := now]> (default ∅ (tickets s !! localpart))]> (tickets s)) s).

(** A ticket is removed whether it has expired or not.
    @src src/src/service/oauth/mod.rs:713-725 Service::try_consume_ticket *)
Definition try_consume_ticket (now : Z) (localpart : bytes) (ticket : OAuthTicket) : U bool :=
  s ← gets id;
  match tickets s !! localpart with
  | None => mret false
  | Some ts =>
      _ ← modify (set_tickets (<[localpart := delete ticket ts]> (tickets s)));
      mret (match ts !! ticket with Some issued => younger now issued TICKET_MAX_AGE | None => false end)
  end.

(** @src src/src/service/uiaa/mod.rs:113-119 UiaaSessionMetadata::into_identity *)
Definition into_identity (m : UiaaSessionMetadata) : Identity :=
  match m with
  | Legacy identity => identity
  | OAuthSession localpart _ => {| localpart := Some localpart; email := None |}
  end.

(** @src src/src/service/uiaa/mod.rs:174-187 identity_update_fn *)
Definition try_set (field : option bytes) (v : bytes) : option (option bytes) :=
  match field with
  | None => Some (Some v)
  | Some w => if decide (w = v) then Some (Some w) else None
  end.
(** @src src/src/service/uiaa/mod.rs:190-190 Identity::try_set_localpart *)
Definition try_set_localpart (i : Identity) (v : bytes) : result StageError Identity :=
  match try_set (localpart i) v with Some l => Ok {| localpart := l; email := email i |} | None => Err SInvalidParam end.
(** @src src/src/service/uiaa/mod.rs:192-192 Identity::try_set_email *)
Definition try_set_email (i : Identity) (v : bytes) : result StageError Identity :=
  match try_set (email i) v with Some e => Ok {| localpart := localpart i; email := e |} | None => Err SInvalidParam end.

Section Uiaa.
Context `{!Parsers, !Rooms, !KeyLibrary, !Server, !AccountLibrary, !UiaaLibrary, !Json Device,
  !Json DehydratedDevice, !Json SessionInfo, !Json RefreshTokenInfo, !Json DatabaseTokenInfo}.

(** @src src/src/service/uiaa/mod.rs:197-202 Identity::from_user_id *)
Definition from_user_id (user_id : bytes) : Identity := {| localpart := Some (localpart_of user_id); email := None |}.

(** ** Stages *)

(** Whether the initiator's device acts for an OAuth client. *)
Definition is_oauth (d : Db) (i : UiaaInitiator) : bool :=
  match initiator_device i with
  | Some device_id => bool_decide (is_Some (get_session_info_for_device d (user_id i) device_id))
  | None => false
  end.

(** What is known of who begins a session, with the flows and parameters the client is told; [None]
    where a client authorised with OAuth may not use the route. *)
Definition begin_metadata (d : Db) (fs : list (list AuthType)) (ps : bytes) (initiator : option UiaaInitiator) :
    option (UiaaSessionMetadata * list (list AuthType) * bytes) :=
  match initiator with
  | None => Some (Legacy {| localpart := None; email := None |}, fs, ps)
  | Some i =>
      if is_oauth d i then
        match oauth_ticket i with
        | Some ticket => Some (OAuthSession (localpart_of (user_id i)) ticket, [[OAuth]], ticket_params ticket)
        | None => None
        end
      else Some (Legacy (from_user_id (user_id i)), fs, ps)
  end.

(** [generated]: the random identifier.
    @src src/src/service/uiaa/mod.rs:273-359 Service::create_session *)
Definition create_session (e : Env) (generated : bytes) (fs : list (list AuthType)) (ps : bytes)
    (initiator : option UiaaInitiator) : U UiaaInfo :=
  s ← gets id;
  match begin_metadata (hdb (u_host s)) fs ps initiator with
  | None => fail Forbidden
  | Some (metadata, fs, ps) =>
      if match metadata with Legacy _ => negb (uiaa_available e) | OAuthSession _ _ => false end then fail Unrecognized
      else
        let i := {| flows := fs; completed := []; params := Some ps; info_session := Some generated; auth_error := None |} in
        _ ← modify (set_sessions (<[generated := {| session_metadata := metadata; info := i |}]> (uiaa_sessions s)));
        mret i
  end.

(** The outcome of a stage: an error, or who the session authenticates now. *)
Definition stage_ok (t : AuthType) (i : Identity) : U (result StageError (AuthType * UiaaSessionMetadata)) :=
  mret (Ok (t, Legacy i)).
Definition stage_err (k : StageError) : U (result StageError (AuthType * UiaaSessionMetadata)) := mret (Err k).
Definition or_stage_err (r : result StageError Identity)
    (f : Identity → U (result StageError (AuthType * UiaaSessionMetadata))) :=
  match r with Ok i => f i | Err k => stage_err k end.

(** The branch of a validated address: the validation is consumed before the identity is compared.
    @src src/src/service/uiaa/mod.rs:490-517 Service::check_stage *)
Definition check_email_identity (i : Identity) (sid client_secret : bytes) :
    U (result StageError (AuthType * UiaaSessionMetadata)) :=
  v ← gets u_validation;
  match get_valid_session v sid client_secret with
  | Err _ => stage_err SThreepidAuthFailed
  | Ok address =>
      address ← on_validation (consume sid address);
      d ← gets (fun s => hdb (u_host s));
      or_stage_err (match get_localpart_for_email d address with
                    | Some l => try_set_localpart i l
                    | None => Ok i
                    end) (fun i =>
      or_stage_err (try_set_email i address) (stage_ok EmailIdentity))
  end.

(** The name that a password is checked for, with the identity that an address adds to. *)
Definition password_user (d : Db) (i : Identity) (identifier : UserIdentifier) : result StageError (Identity * bytes) :=
  match identifier with
  | MatrixUser user => Ok (i, user)
  | EmailUser address =>
      if negb (address_ok address) then Err SInvalidParam
      else
        match get_localpart_for_email d address with
        | Some l => i ← try_set_email i address; Ok (i, l)
        | None => Err SForbidden
        end
  | OtherIdentifier => Err SUnrecognized
  end.

(** @src src/src/service/uiaa/mod.rs:519-578 Service::check_stage *)
Definition check_password_stage (i : Identity) (identifier : UserIdentifier) (password : bytes) :
    U (result StageError (AuthType * UiaaSessionMetadata)) :=
  d ← gets (fun s => hdb (u_host s));
  match password_user d i identifier with
  | Err k => stage_err k
  | Ok (i, user_id_or_localpart) =>
      match parse_with_server_name user_id_or_localpart with
      | None => stage_err SInvalidParam
      | Some user_id =>
          match check_password d user_id password with
          | Ok _ => or_stage_err (try_set_localpart i (localpart_of user_id)) (stage_ok Password)
          | Err (Fail _) => stage_err SForbidden
          | Err e => pure (Err e)
          end
      end
  end.

(** @src src/src/service/uiaa/mod.rs:456-632 Service::check_stage *)
Definition check_stage (e : Env) (auth : AuthAttempt) (metadata : UiaaSessionMetadata) :
    U (result StageError (AuthType * UiaaSessionMetadata)) :=
  match metadata with
  | OAuthSession localpart ticket =>
      match auth with
      | TryOAuth =>
          consumed ← try_consume_ticket (now e) localpart ticket;
          if consumed : bool then mret (Ok (OAuth, metadata)) else stage_err SForbidden
      | _ => panic
      end
  | Legacy i =>
      match auth with
      | TryDummy => stage_ok Dummy i
      | TryEmailIdentity sid client_secret => check_email_identity i sid client_secret
      | TryPassword identifier password => check_password_stage i identifier password
      | TryReCaptcha response =>
          match recaptcha e with
          | None => stage_err SForbidden
          | Some verify => if verify response then stage_ok ReCaptcha i else stage_err SCaptchaInvalid
          end
      | TryRegistrationToken token =>
          d ← gets (fun s => hdb (u_host s));
          match validate_token (token_config e) (now e) d (trim token) with
          | Some valid_token => _ ← on_host (mark_token_as_used valid_token); stage_ok RegistrationToken i
          | None => stage_err SForbidden
          end
      | TryTerms => stage_ok Terms i
      | TryOAuth | FallbackAcknowledgement | TryOther _ => panic
      end
  end.

(** ** Sessions *)

Definition with_error (i : UiaaInfo) (e : option StageError) : UiaaInfo :=
  {| flows := flows i; completed := completed i; params := params i; info_session := info_session i; auth_error := e |}.
Definition with_completed (i : UiaaInfo) (t : AuthType) : UiaaInfo :=
  {| flows := flows i; completed := completed i ++ [t]; params := params i; info_session := info_session i; auth_error := None |}.

(** All stages of a flow are completed. *)
Definition is_completed (fs : list (list AuthType)) (done : list AuthType) : bool :=
  existsb (fun stages => forallb (fun t => bool_decide (t ∈ done)) stages) fs.

(** A session after a stage was supplied. *)
Definition supply_stage (e : Env) (auth : AuthAttempt) (t : AuthType) (s : UiaaSession) : U UiaaSession :=
  if decide (t ∈ completed (info s)) then mret s
  else
    r ← check_stage e auth (session_metadata s);
    mret match r with
         | Ok (t, metadata) => {| session_metadata := metadata; info := with_completed (info s) t |}
         | Err k => {| session_metadata := session_metadata s; info := with_error (info s) (Some k) |}
         end.

(** @src src/src/service/uiaa/mod.rs:362-450 Service::continue_session *)
Definition continue_session (e : Env) (auth : AuthAttempt) (sid : bytes) : U (result UiaaInfo Identity) :=
  s ← gets id;
  match uiaa_sessions s !! sid with
  | None => fail InvalidParam
  | Some session =>
      match auth_type auth with
      | None => mret (Err (info session))
      | Some t =>
          if negb (existsb (fun stages => bool_decide (t ∈ stages)) (flows (info session))) then fail InvalidParam
          else
            session ← supply_stage e auth t session;
            if is_completed (flows (info session)) (completed (info session)) then
              _ ← modify (fun s => set_sessions (delete sid (uiaa_sessions s)) s);
              mret (Ok (into_identity (session_metadata session)))
            else
              _ ← modify (fun s => set_sessions (<[sid := session]> (uiaa_sessions s)) s);
              mret (Err (info session))
      end
  end.

(** [Error::Uiaa(info)] is the error with what the client is told.
    @src src/src/service/uiaa/mod.rs:210-246 Service::authenticate *)
Definition authenticate (e : Env) (generated : bytes) (auth : option AuthData) (fs : list (list AuthType))
    (ps : bytes) (initiator : option UiaaInitiator) : U (result UiaaInfo Identity) :=
  match auth with
  | None => i ← create_session e generated fs ps initiator; mret (Err i)
  | Some auth =>
      sid ← match session auth with
            | Some sid => mret sid
            | None => i ← create_session e generated fs ps initiator; pure (expect (info_session i))
            end;
      continue_session e (attempt_ auth) sid
  end.

(** @src src/src/service/uiaa/mod.rs:250-264 Service::authenticate_password *)
Definition authenticate_password (e : Env) (generated : bytes) (auth : option AuthData) (user_id : bytes)
    (device_id : option bytes) (ticket : option OAuthTicket) : U (result UiaaInfo Identity) :=
  authenticate e generated auth [[Password]] []
    (Some {| user_id := user_id; initiator_device := device_id; oauth_ticket := ticket |}).

(** ** Routes *)

(** Settings of the registration: whether it is open, the first run, a captcha's two keys, the mailer's
    demands, and whether there are terms. *)
Record RegistrationConfig := {
  allow_registration : bool;
  is_first_run : bool;
  private_site_key : bool;
  site_key : bool;
  require_email_for_registration : option bool; (** with a mailer *)
  require_email_for_token_registration : option bool;
  has_terms : bool;
  challengeless : bool;
}.

(** @src src/src/service/uiaa/mod.rs:50-66 FlowStatus *)
Record FlowStatus := { trusted : bool; untrusted : option bool (** requires an email *) }.

(** @src src/src/service/uiaa/mod.rs:634-680 Service::registration_flow_status *)
Definition registration_flow_status (e : Env) (c : RegistrationConfig) : U FlowStatus :=
  let allowed := allow_registration c || is_first_run c in
  trusted ← (if negb allowed then mret false
             else l ← on_host (iterate_tokens (token_config e) true (now e)); mret (bool_decide (l ≠ [])));
  let require_email := default false (require_email_for_registration c) in
  let untrusted :=
    if negb allowed || is_first_run c then None
    else if private_site_key c || require_email then Some require_email
    else if challengeless c then Some false
    else None in
  mret {| trusted := trusted; untrusted := untrusted |}.

(** The flows of a registration.
    @src src/src/api/client/account/register.rs:151-253 create_registration_uiaa_session *)
Definition create_registration_uiaa_session (e : Env) (c : RegistrationConfig) : U (list (list AuthType)) :=
  if is_first_run c then mret [[RegistrationToken]]
  else
    l ← on_host (iterate_tokens (token_config e) true (now e));
    let token_flow := [RegistrationToken] ++
      (if default false (require_email_for_token_registration c) then [EmailIdentity] else []) in
    let untrusted_flow :=
      (if private_site_key c && site_key c then [ReCaptcha] else []) ++
      (if default false (require_email_for_registration c) then [EmailIdentity] else []) in
    let fs := (if decide (l ≠ []) then [token_flow] else []) ++
              (if decide (untrusted_flow ≠ []) then [untrusted_flow] else []) in
    let fs := if has_terms c then map (fun f => Terms :: f) fs else fs in
    if decide (fs = []) then
      if challengeless c then mret [[Dummy]] else fail Forbidden
    else mret fs.

(** The device of a request's access token is [sender_device].
    @src src/src/api/client/device.rs:112-135 delete_device_route *)
Definition delete_device_route (e : Env) (generated : bytes) (auth : option AuthData) (sender_user sender_device : bytes)
    (device_id : bytes) : U (result UiaaInfo unit) :=
  r ← authenticate_password e generated auth sender_user (Some sender_device) None;
  match r with
  | Err i => mret (Err i)
  | Ok _ => _ ← on_host (remove_device sender_user device_id); mret (Ok tt)
  end.
End Uiaa.
