(* ===== verification/OAuth.v ===== *)
(** OAuth clients: src/src/service/oauth (mod.rs, grant.rs, client_metadata.rs).

    A client registers its metadata, then is granted access by a user, over a code that the user's
    browser brings it or over a code that the user confirms, and trades the code for tokens: an access
    token for a new device, and a refresh token that is traded for new tokens.  Grants that are
    pending are in memory, in caches of bounded size; sessions are in the database (Devices.v).
    URLs, regular expressions, hashes, clock readings and random strings are parameters. *)

From stdpp Require Import prelude gmap.
From Stdlib Require Import ZArith Lia.
From S2P Require Import Prelude Effects Bytes DbSer Database PairKeys Scans Short Json Host UserKeys Devices Threepid.
Local Open Scope Z_scope.

(** ** Data *)

(** @src src/src/service/oauth/client_metadata.rs:125-129 ApplicationType *)
Inductive ApplicationType : Set := Web | Native.
(** @src src/src/service/oauth/client_metadata.rs:133-138 GrantType *)
Inductive GrantType : Set := GAuthorizationCode | GDeviceCode | GRefreshToken.
(** @src src/src/service/oauth/client_metadata.rs:143-145 ResponseType *)
Inductive ResponseType : Set := Code.
(** @src src/src/service/oauth/grant.rs:72-74 CodeChallengeMethod *)
Inductive CodeChallengeMethod : Set := S256.
(** @src src/src/service/oauth/grant.rs:63-68 ResponseMode *)
Inductive ResponseMode : Set := Query | Fragment.
(** @src src/src/service/oauth/grant.rs:199-209 ErrorCode *)
Inductive ErrorCode : Set :=
  InvalidRequest | AccessDenied | InvalidScope | InvalidGrant | InvalidClient | InvalidClientMetadata
| UnauthorizedClient | AuthorizationPending | ExpiredToken.
#[export] Instance ApplicationType_eq_dec : EqDecision ApplicationType.
Proof. solve_decision. Defined.
#[export] Instance GrantType_eq_dec : EqDecision GrantType.
Proof. solve_decision. Defined.
#[export] Instance ResponseType_eq_dec : EqDecision ResponseType.
Proof. solve_decision. Defined.

(** Why a request for a code is refused, as text. *)
Inductive RequestError : Set :=
  BadClientId | BadResponseType | BadChallengeType | BadRedirectUri | BadScope | RepeatedScope | BadDeviceCode | CodeVerified.

(** The parts of a URL; [without_port] is [set_port(None)]. *)
Class UrlLibrary (Url : Type) := {
  scheme : Url → bytes;
  domain : Url → option bytes;
  host_str : Url → option bytes;
  port : Url → option Z;
  username : Url → bytes;
  password : Url → option bytes;
  has_authority : Url → bool;
  without_port : Url → Url;
}.

(** A scope's two regular expressions, which are searched for anywhere in it; the second captures
    the device.  Hashes: of a verifier, as text, and of the metadata of a client, which names it. *)
Class OAuthLibrary (Metadata : Type) := {
  api_scope : bytes → bool;
  device_scope : bytes → option bytes;
  challenge_of : bytes → bytes;
  client_hash : Metadata → bytes;
}.

(** The caches of the [lru_cache] crate that hold grants: inserting may drop others. *)
Class Pending (V C : Type) := {
  pending_entries : C → list (bytes * V);
  pending_insert : bytes → V → C → C;
  pending_remove : bytes → C → C;
  pending_get : bytes → C → option V;
  pending_set : bytes → V → C → C; (** through [get_mut] *)
}.
Class PendingLaws (V C : Type) `{!Pending V C} : Prop := {
  pending_get_insert k v c k' v' : pending_get k' (pending_insert k v c) = Some v' →
    (k' = k ∧ v' = v) ∨ (k' ≠ k ∧ pending_get k' c = Some v');
  pending_get_remove k c k' : pending_get k' (pending_remove k c) = if decide (k' = k) then None else pending_get k' c;
  pending_get_set k v c k' : pending_get k' (pending_set k v c) =
    if decide (k' = k) then (fun _ => v) <$> pending_get k c else pending_get k' c;
}.

Definition MINUTE : Z := 60 * SECOND.
(** @src src/src/service/oauth/mod.rs:173-173 Service::ACCESS_TOKEN_MAX_AGE *)
Definition ACCESS_TOKEN_MAX_AGE : Z := 60 * MINUTE.
(** "https", "http", "localhost" and the other names of this host, "openid", a full stop, a space. *)
Definition HTTPS : bytes := [104; 116; 116; 112; 115].
Definition HTTP : bytes := [104; 116; 116; 112].
(** @src src/src/service/oauth/client_metadata.rs:41-41 ClientMetadata::ACCEPTABLE_LOCALHOSTS *)
Definition ACCEPTABLE_LOCALHOSTS : list bytes :=
  [[108; 111; 99; 97; 108; 104; 111; 115; 116]; [49; 50; 55; 46; 48; 46; 48; 46; 49]; [91; 58; 58; 49; 93]].
Definition OPENID : bytes := [111; 112; 101; 110; 105; 100].
Definition DOT : Z := 46.
Definition SPACE : Z := 32.

(** [str::split] at a byte. *)
Fixpoint split_at (c : Z) (l : bytes) : list bytes :=
  match l with
  | [] => [[]]
  | b :: l =>
      match split_at c l with
      | w :: ws => if decide (b = c) then [] :: w :: ws else (b :: w) :: ws
      | [] => [[b]]
      end
  end.
Fixpoint join_with (c : Z) (ws : list bytes) : bytes :=
  match ws with [] => [] | [w] => w | w :: ws => w ++ c :: join_with c ws end.

(** The derived order of scopes, devices first; the set is a sorted list.
    @src src/src/service/oauth/grant.rs:86-89 Scope *)
Definition scope_cmp (a b : Scope) : comparison :=
  match a, b with
  | ScopeDevice x, ScopeDevice y => list_cmp x y
  | ScopeDevice _, ScopeClientApi => Lt
  | ScopeClientApi, ScopeDevice _ => Gt
  | ScopeClientApi, ScopeClientApi => Eq
  end.
(** [BTreeSet::insert], with whether the scope was new. *)
Fixpoint scope_insert (x : Scope) (l : list Scope) : list Scope * bool :=
  match l with
  | [] => ([x], true)
  | y :: l' =>
      match scope_cmp x y with
      | Lt => (x :: l, true)
      | Eq => (l, false)
      | Gt => let '(r, new) := scope_insert x l' in (y :: r, new)
      end
  end.

(** @src src/src/service/oauth/client_metadata.rs:192-198 is_subdomain *)
Definition is_subdomain (subdomain domain : bytes) : bool :=
  bool_decide (subdomain = domain) || bool_decide (DOT :: domain `suffix_of` subdomain).

Section OAuth.
Context {Url : Type} `{!EqDecision Url, !UrlLibrary Url}.

(** @src src/src/service/oauth/client_metadata.rs:9-38 ClientMetadata *)
Record ClientMetadata := {
  application_type : ApplicationType;
  client_name : option bytes;
  client_uri : Url;
  grant_types : list GrantType;
  logo_uri : option Url;
  policy_uri : option Url;
  redirect_uris : list Url;
  response_types : list ResponseType;
  tos_uri : option Url;
}.

Definition no_credentials (u : Url) : bool := bool_decide (username u = []) && bool_decide (password u = None).

(** A redirect URI's scheme is secure, or that of a native application on this host or of its own. *)
Definition redirect_uri_ok (t : ApplicationType) (client_domain : bytes) (u : Url) : bool :=
  if decide (scheme u = HTTPS) then no_credentials u
  else if decide (t = Native) then
    if decide (scheme u = HTTP) then
      match host_str u with
      | Some host => bool_decide (host ∈ ACCEPTABLE_LOCALHOSTS) && bool_decide (port u = None)
      | None => false
      end
    else
      bool_decide (join_with DOT (reverse (split_at DOT client_domain)) `prefix_of` scheme u) && negb (has_authority u)
  else false.

(** @src src/src/service/oauth/client_metadata.rs:43-120 ClientMetadata::validate *)
Definition validate (m : ClientMetadata) : bool :=
  match domain (client_uri m) with
  | None => false
  | Some client_domain =>
      bool_decide (scheme (client_uri m) = HTTPS) && no_credentials (client_uri m) &&
      forallb (fun u => bool_decide (scheme u = HTTPS) && no_credentials u &&
                match domain u with Some d => is_subdomain d client_domain | None => false end)
        (option_list (logo_uri m) ++ option_list (policy_uri m) ++ option_list (tos_uri m)) &&
      forallb (redirect_uri_ok (application_type m) client_domain) (redirect_uris m)
  end.

(** ** Grants *)

(** @src src/src/service/oauth/grant.rs:19-31 AuthorizationCodeQuery *)
Record AuthorizationCodeQuery := {
  response_type : ResponseType;
  q_client_id : bytes;
  redirect_uri : Url;
  scope : bytes;
  state : bytes;
  response_mode : ResponseMode;
  q_code_challenge : bytes;
  code_challenge_method : CodeChallengeMethod;
}.

(** @src src/src/service/oauth/mod.rs:69-77 PendingAuthCodeGrant *)
Record PendingAuthCodeGrant := {
  authorizing_user : bytes;
  requested_scopes : list Scope;
  a_client_name : option bytes;
  expected_client_id : bytes;
  expected_redirect_uri : Url;
  code_challenge : bytes;
  requested_at : Z;
}.

(** @src src/src/service/oauth/mod.rs:101-108 DeviceCodeGrantState *)
Inductive DeviceCodeGrantState := Unverified (user_code : bytes) | Verified (authorizing_user : bytes).

(** @src src/src/service/oauth/mod.rs:93-99 PendingDeviceCodeGrant *)
Record PendingDeviceCodeGrant := {
  d_state : DeviceCodeGrantState;
  d_requested_scopes : list Scope;
  d_client_name : option bytes;
  d_client_id : bytes;
  d_requested_at : Z;
}.

(** @src src/src/service/oauth/mod.rs:83-90 PendingAuthCodeGrant::is_valid_for *)
Definition auth_grant_valid_for (now : Z) (client_id : bytes) (g : PendingAuthCodeGrant) : bool :=
  bool_decide (expected_client_id g = client_id) && younger now (requested_at g) MINUTE.

(** @src src/src/service/oauth/mod.rs:114-121 PendingDeviceCodeGrant::is_valid_for *)
Definition device_grant_valid_for (now : Z) (client_id : bytes) (g : PendingDeviceCodeGrant) : bool :=
  bool_decide (d_client_id g = client_id) && younger now (d_requested_at g) MINUTE.

(** @src src/src/service/oauth/grant.rs:220-233 TokenRequestType *)
Inductive TokenRequestType :=
| TAuthorizationCode (code : bytes) (redirect_uri : Url) (code_verifier : bytes)
| TDeviceCode (device_code : bytes)
| TRefreshToken (refresh_token : bytes).

(** @src src/src/service/oauth/grant.rs:237-243 TokenRequestType::grant_type *)
Definition grant_type (r : TokenRequestType) : GrantType :=
  match r with
  | TAuthorizationCode _ _ _ => GAuthorizationCode
  | TDeviceCode _ => GDeviceCode
  | TRefreshToken _ => GRefreshToken
  end.

(** @src src/src/service/oauth/grant.rs:247-253 TokenResponse *)
Record TokenResponse := { access_token : bytes; expires_in : Z; refresh_token : bytes; granted : list Scope }.

Context {CA CD : Type} `{!Pending PendingAuthCodeGrant CA, !Pending PendingDeviceCodeGrant CD}.

(** @src src/src/service/oauth/mod.rs:36-42 Service *)
Record OAuth := { o_host : Host; pending_auth_code_grants : CA; pending_device_code_grants : CD }.
Abbreviation O E := (eff OAuth E).

Definition set_auth_grants (f : CA → CA) (s : OAuth) : OAuth :=
  {| o_host := o_host s; pending_auth_code_grants := f (pending_auth_code_grants s);
     pending_device_code_grants := pending_device_code_grants s |}.
Definition set_device_grants (f : CD → CD) (s : OAuth) : OAuth :=
  {| o_host := o_host s; pending_auth_code_grants := pending_auth_code_grants s;
     pending_device_code_grants := f (pending_device_code_grants s) |}.
(** A step on the database that the code expects to succeed. *)
Definition expect_host {E A} (m : M A) : O E A := fun s =>
  let '(r, h) := m (o_host s) in
  (match r with Ok a => Ok a | Err _ => Err Panicked end,
   {| o_host := h; pending_auth_code_grants := pending_auth_code_grants s;
      pending_device_code_grants := pending_device_code_grants s |}).

Context `{!Parsers, !Rooms, !KeyLibrary, !Server, !OAuthLibrary ClientMetadata, !Json Device, !Json DehydratedDevice,
  !Json SessionInfo, !Json RefreshTokenInfo, !Json ClientMetadata}.

(** @src src/src/service/oauth/grant.rs:116-147 RawScopes::to_scopes *)
Fixpoint to_scopes (tokens : list bytes) (scopes : list Scope) : result RequestError (list Scope) :=
  match tokens with
  | [] => Ok scopes
  | token :: tokens =>
      if api_scope token then
        let '(scopes, new) := scope_insert ScopeClientApi scopes in
        if new : bool then to_scopes tokens scopes else Err RepeatedScope
      else
        match device_scope token with
        | Some id =>
            let '(scopes, new) := scope_insert (ScopeDevice id) scopes in
            if new : bool then to_scopes tokens scopes else Err RepeatedScope
        | None => if decide (token = OPENID) then to_scopes tokens scopes else Err BadScope
        end
  end.

(** @src src/src/service/oauth/mod.rs:192-214 Service::register_client *)
Definition register_client (m : ClientMetadata) : O ErrorCode bytes :=
  if negb (validate m) then fail InvalidClientMetadata
  else
    let client_id := client_hash m in
    s ← gets id;
    _ ← (if exists_ (hdb (o_host s)) clientid_clientmetadata client_id then mret tt
         else expect_host (raw_put clientid_clientmetadata client_id (as_json m)));
    mret client_id.

(** @src src/src/service/oauth/mod.rs:216-223 Service::get_client_metadata *)
Definition get_client_metadata (d : Db) (client_id : bytes) : option ClientMetadata :=
  ok (deserialized_json (get d clientid_clientmetadata client_id)).

(** The redirect URI must be one of the client's; of a native application on this host the port is free. *)
Definition redirect_allowed (m : ClientMetadata) (u : Url) : bool :=
  let stripped_uri :=
    if bool_decide (application_type m = Native) &&
       match host_str u with Some host => bool_decide (host ∈ ACCEPTABLE_LOCALHOSTS) | None => false end
    then without_port u else u in
  bool_decide (stripped_uri ∈ redirect_uris m).

(** Where the user is sent: the redirect URI, a separator, the state and the code.
    @src src/src/service/oauth/mod.rs:238-322 Service::request_authorization_code *)
Definition request_authorization_code (generated : bytes) (now : Z) (authorizing_user : bytes) (q : AuthorizationCodeQuery) :
    O RequestError (Url * ResponseMode * bytes * bytes) :=
  s ← gets id;
  match get_client_metadata (hdb (o_host s)) (q_client_id q) with
  | None => fail BadClientId
  | Some m =>
      if negb (bool_decide (response_type q ∈ response_types m)) then fail BadResponseType
      else if negb (redirect_allowed m (redirect_uri q)) then fail BadRedirectUri
      else
        match to_scopes (split_at SPACE (scope q)) [] with
        | Err e => fail e
        | Ok requested_scopes =>
            let g := {| authorizing_user := authorizing_user; requested_scopes := requested_scopes;
                        a_client_name := client_name m; expected_client_id := q_client_id q;
                        expected_redirect_uri := redirect_uri q; code_challenge := q_code_challenge q;
                        requested_at := now |} in
            _ ← modify (set_auth_grants (pending_insert generated g));
            mret (redirect_uri q, response_mode q, state q, generated)
        end
  end.

(** The device code and the code that the user enters.
    @src src/src/service/oauth/mod.rs:324-383 Service::request_device_code *)
Definition request_device_code (generated generated_user_code : bytes) (now : Z) (client_id scope : bytes) :
    O ErrorCode (bytes * bytes) :=
  s ← gets id;
  match get_client_metadata (hdb (o_host s)) client_id with
  | None => fail InvalidClient
  | Some m =>
      if negb (bool_decide (GDeviceCode ∈ grant_types m)) then fail UnauthorizedClient
      else
        match to_scopes (split_at SPACE scope) [] with
        | Err _ => fail InvalidGrant
        | Ok requested_scopes =>
            let g := {| d_state := Unverified generated_user_code; d_requested_scopes := requested_scopes;
                        d_client_name := client_name m; d_client_id := client_id; d_requested_at := now |} in
            _ ← modify (set_device_grants (pending_insert generated g));
            mret (generated, generated_user_code)
        end
  end.

(** @src src/src/service/oauth/mod.rs:385-407 Service::grant_info_for_user_code *)
Definition grant_info_for_user_code (supplied_user_code : bytes) (s : OAuth) :
    comp db_error (option (bytes * ClientMetadata * list Scope)) :=
  match List.find (fun '(_, g) => match d_state g with
                                  | Unverified user_code => bool_decide (user_code = supplied_user_code)
                                  | Verified _ => false
                                  end) (pending_entries (pending_device_code_grants s)) with
  | None => Ok None
  | Some (device_code, g) =>
      match get_client_metadata (hdb (o_host s)) (d_client_id g) with
      | Some m => Ok (Some (device_code, m, d_requested_scopes g))
      | None => Err Panicked
      end
  end.

(** @src src/src/service/oauth/mod.rs:409-435 Service::validate_device_code *)
Definition validate_device_code (authorizing_user device_code : bytes) : O RequestError unit :=
  s ← gets id;
  match pending_get device_code (pending_device_code_grants s) with
  | None => fail BadDeviceCode
  | Some g =>
      match d_state g with
      | Unverified _ =>
          modify (set_device_grants (pending_set device_code
            {| d_state := Verified authorizing_user; d_requested_scopes := d_requested_scopes g;
               d_client_name := d_client_name g; d_client_id := d_client_id g; d_requested_at := d_requested_at g |}))
      | Verified previous => if decide (previous = authorizing_user) then mret tt else fail CodeVerified
      end
  end.

(** ** Sessions *)

(** [generated]: the random access and refresh tokens. *)
Definition new_access_token (generated : bytes * bytes) : DeviceToken :=
  {| token := generated.1; max_age := Some ACCESS_TOKEN_MAX_AGE |}.
Definition response (generated : bytes * bytes) (scopes : list Scope) : TokenResponse :=
  {| access_token := generated.1; expires_in := ACCESS_TOKEN_MAX_AGE / SECOND; refresh_token := generated.2; granted := scopes |}.

Fixpoint device_of (scopes : list Scope) : option bytes :=
  match scopes with
  | [] => None
  | ScopeDevice id :: _ => Some id
  | ScopeClientApi :: scopes => device_of scopes
  end.

(** @src src/src/service/oauth/mod.rs:540-621 Service::create_session *)
Definition create_session (generated : bytes * bytes) (now : Z) (authorizing_user : bytes) (requested_scopes : list Scope)
    (client_name : option bytes) (client_id : bytes) : O ErrorCode TokenResponse :=
  match device_of requested_scopes with
  | None => fail InvalidGrant
  | Some device_id =>
      s ← gets id;
      if is_ok (get_device_metadata (hdb (o_host s)) authorizing_user device_id) then fail InvalidScope
      else
        device_id ← expect_host (create_device [] now authorizing_user (Some device_id)
                                   (Some (new_access_token generated)) client_name None);
        _ ← expect_host (put userdeviceid_oauthsessioninfo (device_key authorizing_user device_id)
              (as_json {| Devices.client_id := client_id; scopes := requested_scopes; current_refresh_token := generated.2 |}));
        _ ← expect_host (raw_put refreshtoken_refreshtokeninfo generated.2
              (as_json {| rt_client_id := client_id; rt_user_id := authorizing_user; rt_device_id := device_id |}));
        mret (response generated requested_scopes)
  end.

(** @src src/src/service/oauth/mod.rs:623-686 Service::refresh_session *)
Definition refresh_session (generated : bytes * bytes) (now : Z) (client_id refresh_token : bytes) : O ErrorCode TokenResponse :=
  s ← gets id;
  match ok (deserialized_json (get (hdb (o_host s)) refreshtoken_refreshtokeninfo refresh_token)) with
  | None => fail InvalidGrant
  | Some info =>
      if decide (client_id ≠ rt_client_id info) then panic
      else
        match get_session_info_for_device (hdb (o_host s)) (rt_user_id info) (rt_device_id info) with
        | None => panic
        | Some session_info =>
            if decide (client_id ≠ Devices.client_id session_info) then panic
            else
              _ ← expect_host (set_token now (rt_user_id info) (rt_device_id info) (new_access_token generated));
              _ ← expect_host (put userdeviceid_oauthsessioninfo (device_key (rt_user_id info) (rt_device_id info))
                    (as_json {| Devices.client_id := Devices.client_id session_info; scopes := scopes session_info;
                                current_refresh_token := generated.2 |}));
              _ ← expect_host (remove refreshtoken_refreshtokeninfo refresh_token);
              _ ← expect_host (raw_put refreshtoken_refreshtokeninfo generated.2 (as_json info));
              mret (response generated (scopes session_info))
        end
  end.

(** The code of a grant in the address of a client.
    @src src/src/service/oauth/mod.rs:449-476 Service::issue_token *)
Definition trade_code (generated : bytes * bytes) (now : Z) (client_id code : bytes) (redirect_uri : Url)
    (code_verifier : bytes) : O ErrorCode TokenResponse :=
  s ← gets id;
  let found := pending_get code (pending_auth_code_grants s) in
  _ ← modify (set_auth_grants (pending_remove code));
  match found with
  | None => fail InvalidGrant
  | Some g =>
      if negb (auth_grant_valid_for now client_id g) then fail InvalidGrant
      else if decide (redirect_uri ≠ expected_redirect_uri g) then fail InvalidGrant
      else if decide (challenge_of code_verifier ≠ code_challenge g) then fail InvalidGrant
      else create_session generated now (authorizing_user g) (requested_scopes g) (a_client_name g) client_id
  end.

(** @src src/src/service/oauth/mod.rs:477-508 Service::issue_token *)
Definition trade_device_code (generated : bytes * bytes) (now : Z) (client_id device_code : bytes) : O ErrorCode TokenResponse :=
  s ← gets id;
  let found := pending_get device_code (pending_device_code_grants s) in
  _ ← modify (set_device_grants (pending_remove device_code));
  match found with
  | None => fail ExpiredToken
  | Some g =>
      if negb (device_grant_valid_for now client_id g) then fail ExpiredToken
      else
        match d_state g with
        | Unverified _ =>
            _ ← modify (set_device_grants (pending_insert device_code g));
            fail AuthorizationPending
        | Verified authorizing_user =>
            create_session generated now authorizing_user (d_requested_scopes g) (d_client_name g) client_id
        end
  end.

(** @src src/src/service/oauth/mod.rs:437-512 Service::issue_token *)
Definition issue_token (generated : bytes * bytes) (now : Z) (client_id : bytes) (request : TokenRequestType) :
    O ErrorCode TokenResponse :=
  s ← gets id;
  match get_client_metadata (hdb (o_host s)) client_id with
  | None => fail InvalidClient
  | Some m =>
      if negb (bool_decide (grant_type request ∈ grant_types m)) then fail UnauthorizedClient
      else
        match request with
        | TAuthorizationCode code redirect_uri code_verifier =>
            trade_code generated now client_id code redirect_uri code_verifier
        | TDeviceCode device_code => trade_device_code generated now client_id device_code
        | TRefreshToken refresh_token => refresh_session generated now client_id refresh_token
        end
  end.

(** @src src/src/service/oauth/mod.rs:514-538 Service::revoke_token *)
Definition revoke_token (now : Z) (token : bytes) : O ErrorCode unit :=
  s ← gets id;
  let d := hdb (o_host s) in
  match ok (deserialized_json (get d refreshtoken_refreshtokeninfo token)) with
  | Some info => expect_host (remove_device (rt_user_id info) (rt_device_id info))
  | None =>
      match find_from_token now d token with
      | Ok (Some (user_id, device_id, _)) => expect_host (remove_device user_id device_id)
      | Ok None => fail InvalidGrant
      | Err _ => panic
      end
  end.
End OAuth.
