(* ===== verification/UsersExample.v ===== *)
(** A server at which the hypotheses of the theorems on users hold: all accounts are local, no
    application service has a token, and the types stored as JSON are written by their number. *)

From stdpp Require Import prelude countable gmap.
From Stdlib Require Import ZArith Lia.
From S2P Require Import Prelude Effects Bytes DbSer Database PairKeys Scans Tables Short Json Host UserKeys Devices.
Local Open Scope Z_scope.

#[export] Instance Device_eq_dec : EqDecision Device.
Proof. solve_decision. Defined.
#[export] Instance Device_countable : Countable Device.
Proof.
  refine (inj_countable' (fun d => (device_id d, display_name d, last_seen_ip d, last_seen_ts d))
    (fun '(a, b, c, e) => Build_Device a b c e) _). by intros [].
Defined.
#[export] Instance DehydratedDevice_eq_dec : EqDecision DehydratedDevice.
Proof. solve_decision. Defined.
#[export] Instance DehydratedDevice_countable : Countable DehydratedDevice.
Proof.
  refine (inj_countable' (fun d => (dehydrated_device_id d, device_data d)) (fun '(a, b) => Build_DehydratedDevice a b) _).
  by intros [].
Defined.
#[export] Instance Scope_eq_dec : EqDecision Scope.
Proof. solve_decision. Defined.
#[export] Instance Scope_countable : Countable Scope.
Proof.
  refine (inj_countable' (fun s => match s with ScopeDevice d => Some d | ScopeClientApi => None end)
    (fun o => match o with Some d => ScopeDevice d | None => ScopeClientApi end) _). by intros [].
Defined.
#[export] Instance SessionInfo_eq_dec : EqDecision SessionInfo.
Proof. solve_decision. Defined.
#[export] Instance SessionInfo_countable : Countable SessionInfo.
Proof.
  refine (inj_countable' (fun i => (client_id i, scopes i, current_refresh_token i))
    (fun '(a, b, c) => Build_SessionInfo a b c) _). by intros [].
Defined.
#[export] Instance RefreshTokenInfo_eq_dec : EqDecision RefreshTokenInfo.
Proof. solve_decision. Defined.
#[export] Instance RefreshTokenInfo_countable : Countable RefreshTokenInfo.
Proof.
  refine (inj_countable' (fun i => (rt_client_id i, rt_user_id i, rt_device_id i))
    (fun '(a, b, c) => Build_RefreshTokenInfo a b c) _). by intros [].
Defined.

(** To be made instances where an example needs them. *)
Definition example_parsers : Parsers := {| json_ok _ := true; cbor_ok _ := true |}.
Definition example_rooms : Rooms :=
  {| rooms_joined _ _ := [[33; 114]]; is_encrypted_room _ _ := true; active_local_users_in_room _ _ := [[64; 98]] |}.
(** Key identifiers are an algorithm, a colon and a name. *)
Definition example_keys : KeyLibrary := {|
  json_string s := [QUOTE] ++ s ++ [QUOTE];
  parse_json_string s := match s with _ :: r => Some (take (pred (length r)) r) | [] => None end;
  key_id_ok s := bool_decide (COLON ∈ s);
  algorithm s := take_while (fun b => b ≠ COLON) s;
  raw_ok _ := true;
  cross_signing_keys _ := Some [[107]];
|}.
Definition example_server : Server := {| user_is_local _ := true; appservice_token _ := false |}.

Lemma example_laws {A} `{Countable A} : @JsonLaws A example_parsers countable_json.
Proof. by apply countable_json_laws. Qed.

(** A server with the account [@a] and nothing else. *)
Definition alice : bytes := [64; 97].
Definition host0 : Host := {|
  world := {| db := Database.insert empty_db userid_password alice [104]; counter := 7 |}; woken := [] |}.
