(* ===== verification/DevicesSpec.v ===== *)
(** Who may act as which device: access tokens, their ends and the sessions of OAuth clients refine
    maps of devices, and a device that was removed is locked out. *)

From stdpp Require Import prelude gmap sorting.
From Stdlib Require Import ZArith Lia.
From S2P Require Import Prelude Effects Bytes DbSer Database PairKeys Scans Tables Short Json Host UserKeys Devices UsersExample.
Local Open Scope Z_scope.

(** A user and a device. *)
Abbreviation who := (bytes * bytes)%type.

(** The columns below; and those that keys and inboxes use. *)
Definition auth_columns : list column :=
  [userdeviceid_metadata; userdeviceid_token; token_userdeviceid; userdeviceid_tokenexpires;
   userdeviceid_oauthsessioninfo; refreshtoken_refreshtokeninfo].

Section Auth.
Context `{!Parsers, !Rooms, !KeyLibrary, !Server, !Json Device, !Json DehydratedDevice, !Json SessionInfo,
  !Json RefreshTokenInfo, !JsonLaws Device, !JsonLaws DehydratedDevice, !JsonLaws SessionInfo,
  !JsonLaws RefreshTokenInfo}.

(** The devices with their metadata, tokens, ends of tokens, in seconds, and sessions. *)
Record Auth := {
  devices : gmap who Device;
  tokens : gmap who bytes;
  ends : gmap who Z;
  sessions : gmap who SessionInfo;
}.

Definition key_of {E} (x : who) (_ : E) : bytes := pair_key x.1 x.2.
Definition refresh_info (x : who) (i : SessionInfo) : bytes :=
  to_json {| rt_client_id := client_id i; rt_user_id := x.1; rt_device_id := x.2 |}.

Definition who_ok (x : who) : Prop := valid_utf8 x.1 ∧ valid_utf8 x.2.
Definition token_ok (t : bytes) : Prop := valid_utf8 t ∧ t ≠ [].

(** The tables say what the maps say; tokens and refresh tokens name one device each. *)
Record AuthInv (A : Auth) (d : Db) : Prop := {
  ai_devices : Represents key_of (fun _ => to_json) (devices A) (d userdeviceid_metadata);
  ai_tokens : Represents key_of (fun _ t => t) (tokens A) (d userdeviceid_token);
  ai_owners : Represents (fun _ t => t) (fun x _ => key_of x x) (tokens A) (d token_userdeviceid);
  ai_ends : Represents key_of (fun _ n => u64_to_be n) (ends A) (d userdeviceid_tokenexpires);
  ai_sessions : Represents key_of (fun _ => to_json) (sessions A) (d userdeviceid_oauthsessioninfo);
  ai_refresh : Represents (fun _ => current_refresh_token) refresh_info (sessions A) (d refreshtoken_refreshtokeninfo);
  ai_names x : is_Some (devices A !! x) → who_ok x;
  ai_token x t : tokens A !! x = Some t → is_Some (devices A !! x) ∧ token_ok t;
  ai_end x n : ends A !! x = Some n → is_Some (tokens A !! x) ∧ is_u64 n;
  ai_session x i : sessions A !! x = Some i → is_Some (devices A !! x);
}.

(** Only these columns matter. *)
Lemma auth_touches cs A s s' : touches cs s s' → (∀ c, c ∈ auth_columns → c ∉ cs) →
  AuthInv A (hdb s) → AuthInv A (hdb s').
Proof.
  intros Ht Hcs [Hd1 Hd2 Hd3 Hd4 Hd5 Hd6 Hd7 Hd8 Hd9 Hd10].
  assert (∀ c, c ∈ auth_columns → hdb s' c = hdb s c) as Heq.
  { intros c Hc. apply Ht. intros Hin. by apply (Hcs c). }
  split; try done; (rewrite Heq; [done|unfold auth_columns; set_solver]).
Qed.

Lemma key_of_inj {E} (x y : who) (e e' : E) : who_ok x → who_ok y → key_of x e = key_of y e' → x = y.
Proof.
  destruct x as [u dv], y as [u' dv']. intros [Hu Hd] [Hu' Hd'] Hk.
  by destruct (pair_key_inj u dv u' dv' Hu Hd Hu' Hd' Hk) as [-> ->].
Qed.

(** ** Looking tokens up *)

Lemma key_Some {E} (vf : who → E → bytes) B m x e : Represents key_of vf B m → B !! x = Some e →
  m !! pair_key x.1 x.2 = Some (vf x e).
Proof. intros Hr Hx. exact (rep_Some key_of vf B m x e Hr Hx). Qed.
Lemma key_None {E} (vf : who → E → bytes) B m x : Represents key_of vf B m → B !! x = None → who_ok x →
  (∀ y, is_Some (B !! y) → who_ok y) → m !! pair_key x.1 x.2 = None.
Proof.
  intros Hr Hx Hok Hall. destruct (m !! _) as [v|] eqn:Hm; [|done].
  apply (rep_lookup _ _ _ _ Hr) in Hm as (y & e & Hy & Hk & _).
  apply (key_of_inj x y e e) in Hk as ->; [congruence|done|]. by apply Hall.
Qed.

Lemma qry_device d c x : qry d c (device_key x.1 x.2) = get d c (pair_key x.1 x.2).
Proof. unfold device_key. by rewrite qry_tuple, device_bytes by plain_records. Qed.

Lemma deserialized_pair_key x : who_ok x → deserialized_pair (Ok (key_of x x)) = Ok x.
Proof.
  destruct x as [u dv]. intros [? ?]. unfold deserialized_pair, deserialized, key_of. cbn [mbind result_bind fst snd].
  by rewrite from_slice_pair.
Qed.

Definition expired (now : Z) (A : Auth) (x : who) : AccessTokenStatus :=
  match ends A !! x with
  | Some n => if decide (n * SECOND < now) then Expired else Valid
  | None => Valid
  end.

Lemma deserialized_end A d x : AuthInv A d → who_ok x →
  deserialized_u64 (qry d userdeviceid_tokenexpires (device_key x.1 x.2)) = ok_or_fail NotFound (ends A !! x).
Proof.
  intros Hinv Hx. rewrite qry_device. unfold get.
  destruct (ends A !! x) as [n|] eqn:He.
  - rewrite (key_Some _ _ _ x n (ai_ends _ _ Hinv) He). apply (ai_end _ _ Hinv) in He as [_ Hn].
    unfold deserialized_u64, deserialized. cbn [ok_or_fail ok_or mbind result_bind].
    by rewrite from_slice_u64.
  - rewrite (key_None _ _ _ x (ai_ends _ _ Hinv) He Hx); [done|].
    intros y [n [[t Ht] _]%(ai_end _ _ Hinv)]. apply (ai_token _ _ Hinv) in Ht as [Hd _].
    by apply (ai_names _ _ Hinv).
Qed.

Lemma find_from_token_spec A d now t : AuthInv A d → t ≠ [] →
  (∀ x n, ends A !! x = Some n → n ≤ i64_max) →
  (∀ x, tokens A !! x = Some t → find_from_token now d t = Ok (Some (x.1, x.2, expired now A x))) ∧
  ((∀ x, tokens A !! x ≠ Some t) → find_from_token now d t = Ok None).
Proof.
  intros Hinv Hne Hmax. unfold find_from_token. rewrite decide_False by done. unfold get. split.
  - intros x Hx. rewrite (rep_Some _ _ _ _ x t (ai_owners _ _ Hinv) Hx). cbn [ok_or_fail ok_or].
    pose proof (ai_token _ _ Hinv _ _ Hx) as [Hd _]. apply (ai_names _ _ Hinv) in Hd.
    rewrite deserialized_pair_key by done. destruct x as [u dv]. cbn [fst snd] in *.
    pose proof (deserialized_end A d (u, dv) Hinv Hd) as Hr. cbn [fst snd] in Hr. rewrite Hr.
    unfold expired. destruct (ends A !! (u, dv)) as [n|] eqn:He; cbn [ok_or_fail ok_or]; [|done].
    apply Hmax in He. rewrite decide_False by lia. by case_decide.
  - intros Hx. destruct (d token_userdeviceid !! t) eqn:Ht; [|done].
    apply (rep_lookup _ _ _ _ (ai_owners _ _ Hinv)) in Ht as (x & e & HA & -> & _). by destruct (Hx x).
Qed.

(** ** Setting a token *)

Lemma has_metadata_spec A d x : AuthInv A d → who_ok x →
  has_metadata d x.1 x.2 = Ok (bool_decide (is_Some (devices A !! x))).
Proof.
  intros Hinv Hx. unfold has_metadata. rewrite qry_device. unfold get.
  destruct (devices A !! x) as [dev|] eqn:Hd.
  - rewrite (key_Some _ _ _ x dev (ai_devices _ _ Hinv) Hd). by rewrite bool_decide_eq_true_2.
  - rewrite (key_None _ _ _ x (ai_devices _ _ Hinv) Hd Hx (ai_names _ _ Hinv)).
    by rewrite bool_decide_eq_false_2 by apply is_Some_None.
Qed.

Lemma qry_token_spec A d x : AuthInv A d → who_ok x →
  qry d userdeviceid_token (device_key x.1 x.2) = ok_or_fail NotFound (tokens A !! x).
Proof.
  intros Hinv Hx. rewrite qry_device. unfold get. destruct (tokens A !! x) as [t|] eqn:Ht.
  - by rewrite (key_Some _ _ _ x t (ai_tokens _ _ Hinv) Ht).
  - rewrite (key_None _ _ _ x (ai_tokens _ _ Hinv) Ht Hx); [done|].
    intros y [t [Hn _]%(ai_token _ _ Hinv)]. by apply (ai_names _ _ Hinv).
Qed.

(** A token is never the key of a device, which holds a separator. *)
Lemma token_no_key t {E} (x : who) (e : E) : token_ok t → key_of x e ≠ t.
Proof.
  intros [Ht _] Heq. apply valid_utf8_no_sep in Ht. apply Ht. rewrite <-Heq. unfold key_of, pair_key.
  apply elem_of_app. right. by left.
Qed.

Definition with_token (A : Auth) (x : who) (t : bytes) (end_ : option Z) : Auth := {|
  devices := devices A; tokens := <[x := t]> (tokens A);
  ends := match end_ with Some n => <[x := n]> (ends A) | None => delete x (ends A) end;
  sessions := sessions A |}.

(** When a token set now ends. *)
Definition token_end (now : Z) (t : DeviceToken) : option Z :=
  (fun age => Z.min ((now + age) / SECOND) u64_max) <$> max_age t.

Definition free_token (A : Auth) (x : who) (t : bytes) : Prop := ∀ y, tokens A !! y = Some t → y = x.

Lemma no_end_under_token A d t : AuthInv A d → token_ok t → d userdeviceid_tokenexpires !! t = None.
Proof.
  intros Hinv Ht. destruct (d userdeviceid_tokenexpires !! t) eqn:He; [|done].
  apply (rep_lookup _ _ _ _ (ai_ends _ _ Hinv)) in He as (y & n & Hy & Hk & _). by destruct (token_no_key t y n).
Qed.

(** The columns after [set_token]. *)
Record token_set (A : Auth) (x : who) (t : bytes) (end_ : option Z) (s s' : Host) : Prop := {
  ts_touches : touches [userdeviceid_token; token_userdeviceid; userdeviceid_tokenexpires] s s';
  ts_token : hdb s' userdeviceid_token = <[key_of x x := t]> (hdb s userdeviceid_token);
  ts_owner : hdb s' token_userdeviceid =
    <[t := key_of x x]> (forget_key (fun _ t => t) (tokens A) x (hdb s token_userdeviceid));
  ts_end : hdb s' userdeviceid_tokenexpires =
    match end_ with
    | Some n => <[key_of x x := u64_to_be n]> (hdb s userdeviceid_tokenexpires)
    | None => delete (key_of x x) (hdb s userdeviceid_tokenexpires)
    end;
  ts_counter : counter (world s') = counter (world s);
  ts_woken : woken s' = woken s;
}.

(** The old token's entries go. *)
Lemma old_token_run A s x : AuthInv A (hdb s) → ∃ s1,
  (match ok_or_fail NotFound (tokens A !! x) : comp db_error bytes with
   | Ok old_token => _ ← remove token_userdeviceid old_token; remove userdeviceid_tokenexpires old_token
   | Err _ => mret tt end : M unit) s = (Ok tt, s1) ∧
  touches [token_userdeviceid] s s1 ∧ counter (world s1) = counter (world s) ∧ woken s1 = woken s ∧
  hdb s1 token_userdeviceid = forget_key (fun _ t => t) (tokens A) x (hdb s token_userdeviceid).
Proof.
  intros Hinv. unfold forget_key. destruct (tokens A !! x) as [t|] eqn:Ht; cbn [ok_or_fail ok_or].
  - eexists. split; [done|]. split_and!; [|done..|by host].
    intros c Hc. destruct (decide (c = userdeviceid_tokenexpires)) as [->|Hne].
    + host. rewrite delete_id; [done|]. apply (no_end_under_token A); [done|]. by apply (ai_token _ _ Hinv x).
    + cbn. rewrite !remove_other by set_solver. done.
  - exists s. by split_and!.
Qed.

Lemma set_token_run A s now x (t : DeviceToken) : AuthInv A (hdb s) → is_Some (devices A !! x) →
  appservice_token (token t) = false → 0 ≤ now → ∃ s',
  set_token now x.1 x.2 t s = (Ok tt, s') ∧ token_set A x (token t) (token_end now t) s s'.
Proof.
  intros Hinv Hx Happ Hnow. pose proof (ai_names _ _ Hinv _ Hx) as Hok. unfold set_token.
  rewrite (bind_reads _ _ _ _ (has_metadata_spec A _ _ Hinv Hok)).
  rewrite bool_decide_eq_true_2 by done. cbn [negb]. rewrite Happ. cbv iota.
  rewrite bind_gets, (qry_token_spec A) by done.
  destruct (old_token_run A s x Hinv) as (s1 & Hrun1 & Ht1 & Hc1 & Hw1 & Hs1).
  rewrite (bind_run _ _ _ _ _ Hrun1). unfold device_key.
  erewrite bind_run by (apply run_put_raw; plain_records).
  erewrite bind_run by (apply run_raw_put, serialize_tuple_bytes; plain_records).
  assert (hdb s1 userdeviceid_token = hdb s userdeviceid_token) as Htok by (apply Ht1; set_solver).
  assert (hdb s1 userdeviceid_tokenexpires = hdb s userdeviceid_tokenexpires) as Hend by (apply Ht1; set_solver).
  rewrite !device_bytes. unfold token_end. destruct (max_age t) as [age|]; cbn [fmap option_fmap option_map].
  - rewrite decide_False by lia.
    rewrite (run_put _ _ _ (u64_to_be (Z.min ((now + age) / SECOND) u64_max))) by (plain_records || done).
    rewrite device_bytes. eexists. split; [done|]. split; [|host; rewrite ?Htok, ?Hend, ?Hs1; done..].
    intros c Hc. cbn. rewrite !insert_other by set_solver. apply Ht1. set_solver.
  - rewrite run_del, device_bytes by plain_records. eexists. split; [done|]. split; [|host; rewrite ?Htok, ?Hend, ?Hs1; done..].
    intros c Hc. cbn. rewrite remove_other, !insert_other by set_solver. apply Ht1. set_solver.
Qed.

Lemma rep_update_key {E} (vf : who → E → bytes) B m x e : Represents key_of vf B m → who_ok x →
  (∀ y, is_Some (B !! y) → who_ok y) → Represents key_of vf (<[x := e]> B) (<[pair_key x.1 x.2 := vf x e]> m).
Proof.
  intros Hr Hx Hall. apply (rep_update key_of vf B m x e Hr); [|done].
  intros y e' Hy Hk. apply (key_of_inj y x e' e); [by apply Hall|done|done].
Qed.

Lemma rep_delete_key {E} (vf : who → E → bytes) B m x : Represents key_of vf B m → who_ok x →
  (∀ y, is_Some (B !! y) → who_ok y) → Represents key_of vf (delete x B) (delete (pair_key x.1 x.2) m).
Proof.
  intros Hr Hx Hall. pose proof (rep_delete key_of vf B m x Hr) as Hd. unfold forget_key in Hd.
  destruct (B !! x) as [e|] eqn:HB; [done|]. by rewrite (delete_id m) by exact (key_None vf B m x Hr HB Hx Hall).
Qed.

Lemma tokens_ok A d : AuthInv A d → ∀ y, is_Some (tokens A !! y) → who_ok y.
Proof. intros Hinv y [t [Hd _]%(ai_token _ _ Hinv)]. by apply (ai_names _ _ Hinv). Qed.
Lemma ends_ok A d : AuthInv A d → ∀ y, is_Some (ends A !! y) → who_ok y.
Proof. intros Hinv y [n [Ht _]%(ai_end _ _ Hinv)]. by apply (tokens_ok A d). Qed.
Lemma sessions_ok A d : AuthInv A d → ∀ y, is_Some (sessions A !! y) → who_ok y.
Proof. intros Hinv y [i Hd%(ai_session _ _ Hinv)]. by apply (ai_names _ _ Hinv). Qed.

Lemma with_token_inv A s s' x t e : AuthInv A (hdb s) → is_Some (devices A !! x) → token_ok t → free_token A x t →
  (∀ n, e = Some n → is_u64 n) → token_set A x t e s s' → AuthInv (with_token A x t e) (hdb s').
Proof.
  intros Hinv Hx Ht Hfree He [Htouch Htok Hown Hend _ _]. pose proof (ai_names _ _ Hinv _ Hx) as Hok.
  split; cbn [with_token devices tokens ends sessions].
  - rewrite Htouch by set_solver. apply Hinv.
  - rewrite Htok. apply (rep_update_key (fun _ t => t)); [apply Hinv|done|by eapply tokens_ok].
  - rewrite Hown. apply (rep_insert (fun _ t => t) (fun x _ => key_of x x)); [apply Hinv|].
    intros y t' Hne Hy ->. by apply Hne, Hfree.
  - rewrite Hend. destruct e as [n|].
    + apply (rep_update_key (fun _ n => u64_to_be n)); [apply Hinv|done|by eapply ends_ok].
    + apply rep_delete_key; [apply Hinv|done|by eapply ends_ok].
  - rewrite Htouch by set_solver. apply Hinv.
  - rewrite Htouch by set_solver. apply Hinv.
  - apply Hinv.
  - intros y t' [[<- <-]|[_ Hy]]%lookup_insert_Some; [done|]. by apply (ai_token _ _ Hinv).
  - intros y n Hy. rewrite lookup_insert_is_Some. destruct e as [n'|].
    + apply lookup_insert_Some in Hy as [[<- <-]|[Hne Hy]]; [by split; [left|apply He]|].
      apply (ai_end _ _ Hinv) in Hy as [? ?]. auto.
    + apply lookup_delete_Some in Hy as [Hne Hy]. apply (ai_end _ _ Hinv) in Hy as [? ?]. auto.
  - apply (ai_session _ _ Hinv).
Qed.

Lemma token_end_u64 now t n : 0 ≤ now → (∀ age, max_age t = Some age → 0 ≤ age) → token_end now t = Some n → is_u64 n.
Proof.
  intros Hnow Hage. unfold token_end. destruct (max_age t) as [age|]; [|done]. intros [= <-].
  pose proof (Hage age eq_refl). assert (0 ≤ (now + age) / SECOND) by (apply Z.div_pos; [lia|done]). word.
Qed.

(** ** Removing a device *)

Definition drop_token (A : Auth) (x : who) : Auth := {|
  devices := devices A; tokens := delete x (tokens A); ends := delete x (ends A); sessions := sessions A |}.
Definition drop_session (A : Auth) (x : who) : Auth := {|
  devices := devices A; tokens := tokens A; ends := ends A; sessions := delete x (sessions A) |}.
Definition drop_device (A : Auth) (x : who) : Auth := {|
  devices := delete x (devices A); tokens := delete x (tokens A); ends := delete x (ends A);
  sessions := delete x (sessions A) |}.

Lemma drop_token_run A s x : AuthInv A (hdb s) → who_ok x → ∃ s1,
  (match ok_or_fail NotFound (tokens A !! x) : comp db_error bytes with
   | Ok old_token =>
       _ ← del userdeviceid_token (device_key x.1 x.2);
       _ ← remove token_userdeviceid old_token;
       del userdeviceid_tokenexpires (device_key x.1 x.2)
   | Err _ => mret tt end : M unit) s = (Ok tt, s1) ∧
  touches [userdeviceid_token; token_userdeviceid; userdeviceid_tokenexpires] s s1 ∧
  AuthInv (drop_token A x) (hdb s1).
Proof.
  intros Hinv Hx. destruct (tokens A !! x) as [t|] eqn:Ht; cbn [ok_or_fail ok_or].
  - unfold device_key. erewrite bind_run by (apply run_del; plain_records).
    erewrite bind_run by done. rewrite run_del by plain_records. rewrite device_bytes.
    eexists. split; [done|]. split.
    { intros c Hc. cbn. by rewrite !remove_other by set_solver. }
    pose proof Hinv as [Hd1 Hd2 Hd3 Hd4 Hd5 Hd6 Hd7 Hd8 Hd9 Hd10].
    split; cbn [drop_token devices tokens ends sessions]; host; try done.
    + apply rep_delete_key; [done..|by eapply tokens_ok].
    + pose proof (rep_delete _ _ _ _ x Hd3) as Hd. unfold forget_key in Hd. by rewrite Ht in Hd.
    + apply rep_delete_key; [done..|by eapply ends_ok].
    + intros y t' [_ Hy]%lookup_delete_Some. by apply Hd8.
    + intros y n [Hne [[t' Ht'] Hn]%Hd9]%lookup_delete_Some. split; [|done]. by rewrite lookup_delete_ne, Ht'.
  - exists s. split; [done|]. split; [done|].
    assert (drop_token A x = A) as ->; [|done]. unfold drop_token. destruct A as [dv tk en se]. cbn in *.
    f_equal; [by apply delete_id|]. apply delete_id. destruct (en !! x) eqn:He; [|done].
    apply (ai_end _ _ Hinv) in He as [[t Ht'] _]. cbn in *. congruence.
Qed.

Lemma session_info_spec A d x : AuthInv A d → who_ok x → get_session_info_for_device d x.1 x.2 = sessions A !! x.
Proof.
  intros Hinv Hx. unfold get_session_info_for_device. rewrite qry_device. unfold get.
  destruct (sessions A !! x) as [i|] eqn:Hi.
  - rewrite (key_Some _ _ _ x i (ai_sessions _ _ Hinv) Hi). cbn [ok_or_fail ok_or]. by rewrite deserialized_written.
  - by rewrite (key_None _ _ _ x (ai_sessions _ _ Hinv) Hi Hx (sessions_ok A d Hinv)).
Qed.

Lemma remove_session_run A s x : AuthInv A (hdb s) → who_ok x → ∃ s1,
  remove_session x.1 x.2 s = (Ok tt, s1) ∧
  touches [userdeviceid_oauthsessioninfo; refreshtoken_refreshtokeninfo] s s1 ∧
  AuthInv (drop_session A x) (hdb s1).
Proof.
  intros Hinv Hx. unfold remove_session. rewrite bind_gets, (session_info_spec A) by done.
  destruct (sessions A !! x) as [i|] eqn:Hi.
  - erewrite bind_run by done. unfold device_key. rewrite run_del, device_bytes by plain_records.
    eexists. split; [done|]. split.
    { intros c Hc. cbn. by rewrite !remove_other by set_solver. }
    pose proof Hinv as [Hd1 Hd2 Hd3 Hd4 Hd5 Hd6 Hd7 Hd8 Hd9 Hd10].
    split; cbn [drop_session devices tokens ends sessions]; host; try done.
    + apply rep_delete_key; [done..|by eapply sessions_ok].
    + pose proof (rep_delete _ _ _ _ x Hd6) as Hd. unfold forget_key in Hd. by rewrite Hi in Hd.
    + intros y j [_ Hy]%lookup_delete_Some. by apply (Hd10 y j).
  - exists s. split; [done|]. split; [done|].
    assert (drop_session A x = A) as ->; [|done]. unfold drop_session. destruct A as [dv tk en se]. cbn in *.
    f_equal. by apply delete_id.
Qed.
End Auth.

(** ** Steps that leave tokens and sessions alone *)

Section Frames.
Context `{!Parsers, !Rooms, !KeyLibrary, !Server, !Json Device, !Json DehydratedDevice, !Json SessionInfo,
  !Json RefreshTokenInfo}.

Lemma mark_device_key_update_total user : total (mark_device_key_update user).
Proof.
  apply total_bind; [apply total_next|]. intros count. apply total_bind; [apply total_gets|]. intros d.
  apply total_bind; [|intros; apply total_put_raw; plain_records]. apply total_for_each. intros room.
  apply total_bind; [apply total_put_raw; plain_records|]. intros _.
  apply total_bind; [apply total_gets|]. intros. apply total_modify.
Qed.

Lemma mark_device_key_update_touches user : preserves (touches [global; keychangeid_userid]) (mark_device_key_update user).
Proof.
  unfold mark_device_key_update, wake_all_joined. preserve.
  - by apply next_touches; set_solver.
  - by apply put_raw_touches; set_solver.
  - by intros c Hc.
  - by apply put_raw_touches; set_solver.
Qed.

Lemma remove_dehydrated_total user id : total (attempt (remove_dehydrated_device user id)).
Proof.
  intros s. unfold attempt, remove_dehydrated_device. rewrite bind_gets.
  unfold get_dehydrated_device_id, get_dehydrated_device, get.
  destruct (deserialized_json_cases (A := DehydratedDevice) (hdb s userid_dehydrateddevice !! user)) as [[dev ->]|[e ->]];
    cbn [mbind result_bind]; [|by eexists _, _].
  destruct (match id with Some _ => _ | None => _ end); by eexists _, _.
Qed.
Lemma remove_dehydrated_touches user id :
  preserves (touches [userid_dehydrateddevice]) (attempt (remove_dehydrated_device user id)).
Proof. unfold remove_dehydrated_device. preserve. by apply remove_touches; set_solver. Qed.
End Frames.

Section Removal.
Context `{!Parsers, !Rooms, !KeyLibrary, !Server, !Json Device, !Json DehydratedDevice, !Json SessionInfo,
  !Json RefreshTokenInfo, !JsonLaws Device, !JsonLaws DehydratedDevice, !JsonLaws SessionInfo,
  !JsonLaws RefreshTokenInfo}.

(** Dropping the metadata of a device without token and session. *)
Lemma drop_metadata A s x : AuthInv A (hdb s) → who_ok x → tokens A !! x = None → sessions A !! x = None →
  AuthInv {| devices := delete x (devices A); tokens := tokens A; ends := ends A; sessions := sessions A |}
    (Database.remove (hdb s) userdeviceid_metadata (pair_key x.1 x.2)).
Proof.
  intros [Hd1 Hd2 Hd3 Hd4 Hd5 Hd6 Hd7 Hd8 Hd9 Hd10] Hx Ht Hs.
  split; cbn [devices tokens ends sessions]; dbs; try done.
  - by apply rep_delete_key.
  - intros y [e [_ Hy]%lookup_delete_Some]. by apply Hd7.
  - intros y t Hy. rewrite lookup_delete_ne; [by apply Hd8|]. intros <-. congruence.
  - intros y i Hy. rewrite lookup_delete_ne; [by eapply Hd10|]. intros <-. congruence.
Qed.

(** What removing a device may change: its own columns, and the log of changed keys. *)
Definition removal_columns : list column :=
  [userid_dehydrateddevice; userdeviceid_token; token_userdeviceid; userdeviceid_tokenexpires; todeviceid_events;
   onetimekeyid_onetimekeys; fallbackkeyid_fallbackkey; global; userid_lastonetimekeyupdate;
   userdeviceid_oauthsessioninfo; refreshtoken_refreshtokeninfo; userid_devicelistversion; userdeviceid_metadata;
   keychangeid_userid].

(** A step on other columns. *)
Lemma run_frame {R B} (m : M R) (f : R → M B) cs s0 s A (Q : comp db_error B * Host → Prop) :
  total m → preserves (touches cs) m → cs ⊆ removal_columns → (∀ c, c ∈ auth_columns → c ∉ cs) →
  touches removal_columns s0 s → AuthInv A (hdb s) →
  (∀ a s1, touches removal_columns s0 s1 → AuthInv A (hdb s1) → Q (f a s1)) → Q ((m ≫= f) s).
Proof.
  intros Hm Hc Hs Hd Ht Hinv Hf. apply (run_then m f cs); [done..|]. intros a s1 _ Ht1.
  apply Hf; [by eapply touches_then|by eapply auth_touches].
Qed.

Tactic Notation "framed" constr(cs) constr(s0) constr(A) "by" tactic3(tot) "and" tactic3(tou)
    "into" ident(s1) ident(Ht) ident(Hi) :=
  apply (run_frame _ _ cs s0 _ A); [tot|tou|unfold removal_columns; set_solver|unfold auth_columns; set_solver|done|done|];
  let a := fresh "a" in intros a s1 Ht Hi.

Lemma remove_device_run A s x : AuthInv A (hdb s) → who_ok x → ∃ s',
  remove_device x.1 x.2 s = (Ok tt, s') ∧ AuthInv (drop_device A x) (hdb s') ∧ touches removal_columns s s'.
Proof.
  intros Hinv Hx. unfold remove_device.
  assert (touches removal_columns s s) as Ht by done.
  assert (serialize None (VTuple [VStr x.1; VStr x.2; VInterfix]) = Ok (tuple_bytes [VStr x.1; VStr x.2; VInterfix])) as Hser.
  { apply serialize_tuple_bytes. plain_records. }
  assert (serialize None (VBytes (one_time_prefix x.1 x.2)) = Ok (one_time_prefix x.1 x.2)) as Hbytes.
  { unfold serialize. cbn [serialize_value]. by rewrite write_vec. }
  framed [userid_dehydrateddevice] s A by (apply remove_dehydrated_total) and (apply remove_dehydrated_touches) into s0 Ht0 Hi0.
  rewrite bind_gets, (qry_token_spec A) by done.
  destruct (drop_token_run A s0 x Hi0 Hx) as (s1 & Hrun1 & Ht1 & Hi1). rewrite (bind_run _ _ _ _ _ Hrun1).
  apply (touches_then _ _ _ _ _ Ht0) in Ht1; [|unfold removal_columns; set_solver]. set (A1 := drop_token A x) in *.
  framed [todeviceid_events] s A1 by (by eapply total_remove_prefix) and (apply remove_prefix_touches; set_solver) into s2 Ht2 Hi2.
  framed [onetimekeyid_onetimekeys] s A1 by (by eapply total_remove_prefix) and (apply remove_prefix_touches; set_solver) into s3 Ht3 Hi3.
  framed [fallbackkeyid_fallbackkey] s A1 by (by eapply total_remove_prefix) and (apply remove_prefix_touches; set_solver) into s4 Ht4 Hi4.
  framed [global] s A1 by (apply total_next) and (apply next_touches; set_solver) into s5 Ht5 Hi5.
  framed [userid_lastonetimekeyupdate] s A1 by (apply total_insert) and (apply insert_touches; set_solver) into s6 Ht6 Hi6.
  destruct (remove_session_run A1 s6 x Hi6 Hx) as (s7 & Hrun7 & Ht7 & Hi7). rewrite (bind_run _ _ _ _ _ Hrun7).
  eapply touches_then in Ht7; [|done|unfold removal_columns; set_solver]. set (A2 := drop_session A1 x) in *.
  framed [userid_devicelistversion] s A2 by (apply total_increment) and (apply increment_touches; set_solver) into s8 Ht8 Hi8.
  unfold device_key at 1. erewrite bind_run by (apply run_del; plain_records). rewrite device_bytes.
  apply (drop_metadata A2 _ x) in Hi8 as Hi9; [|done|cbn; by rewrite lookup_delete_eq..].
  destruct (mark_device_key_update_total x.1 (with_hdb (fun d => Database.remove d userdeviceid_metadata (pair_key x.1 x.2)) s8))
    as (u & s' & Hrun'). destruct u.
  pose proof (mark_device_key_update_touches x.1 (with_hdb (fun d => Database.remove d userdeviceid_metadata (pair_key x.1 x.2)) s8)) as Ht'.
  rewrite Hrun' in Ht'. cbn [snd] in Ht'. exists s'. split; [done|]. split.
  - eapply auth_touches; [exact Ht'|unfold auth_columns; set_solver|exact Hi9].
  - intros c Hc. rewrite Ht' by (revert Hc; unfold removal_columns; set_solver). cbn.
    rewrite remove_other by (revert Hc; unfold removal_columns; set_solver). by apply Ht8.
Qed.

(** ** Creating a device *)

Definition with_device (A : Auth) (x : who) (dev : Device) : Auth := {|
  devices := <[x := dev]> (devices A); tokens := tokens A; ends := ends A; sessions := sessions A |}.

Lemma with_device_inv A s x dev : AuthInv A (hdb s) → who_ok x →
  AuthInv (with_device A x dev) (Database.insert (hdb s) userdeviceid_metadata (pair_key x.1 x.2) (to_json dev)).
Proof.
  intros Hinv Hx. pose proof Hinv as [Hd1 Hd2 Hd3 Hd4 Hd5 Hd6 Hd7 Hd8 Hd9 Hd10].
  split; cbn [with_device devices tokens ends sessions]; dbs; try done.
  - by apply (rep_update_key (fun _ => to_json)).
  - intros y [<-|[_ Hy]]%lookup_insert_is_Some; [done|]. by apply Hd7.
  - intros y t [Hy Ht]%Hd8. split; [|done]. apply lookup_insert_is_Some. destruct (decide (x = y)); auto.
  - intros y i Hy%Hd10. apply lookup_insert_is_Some. destruct (decide (x = y)); auto.
Qed.

(** The device as it is first stored. *)
Definition new_device (now : Z) (id : bytes) (name ip : option bytes) : Device :=
  {| device_id := id; display_name := name; last_seen_ip := ip; last_seen_ts := Some (now / 1000000) |}.

Definition creation_columns : list column :=
  [userid_devicelistversion; userdeviceid_metadata; userdeviceid_token; token_userdeviceid; userdeviceid_tokenexpires].

Lemma create_device_run A s generated now user did (t : DeviceToken) name ip : let id := default generated did in
  AuthInv A (hdb s) → status (hdb s) user = Active → who_ok (user, id) → 0 ≤ now →
  token_ok (token t) → appservice_token (token t) = false → free_token A (user, id) (token t) →
  (∀ age, max_age t = Some age → 0 ≤ age) → ∃ s',
  create_device generated now user did (Some t) name ip s = (Ok id, s') ∧ touches creation_columns s s' ∧
  AuthInv (with_token (with_device A (user, id) (new_device now id name ip)) (user, id) (token t) (token_end now t)) (hdb s').
Proof.
  intros id Hinv Hst Hx Hnow Ht Happ Hfree Hage. unfold create_device. rewrite bind_gets_id, Hst.
  erewrite bind_run by done. fold id. set (dev := Build_Device id name ip _).
  erewrite bind_run by (unfold increment; rewrite bind_gets; done). set (s1 := with_hdb _ s).
  assert (touches [userid_devicelistversion] s s1) as Ht1 by (intros c Hc; subst s1; cbn; apply insert_other; set_solver).
  apply (auth_touches _ A s s1 Ht1) in Hinv as Hinv1; [|unfold auth_columns; set_solver].
  unfold device_key at 1. erewrite bind_run by (apply (run_put _ _ _ (to_json dev)); [plain_records|apply serialize_json]).
  rewrite device_bytes. set (s2 := with_hdb _ s1).
  apply (with_device_inv A s1 (user, id) dev) in Hinv1 as Hinv2; [|done].
  change (Database.insert _ _ _ _) with (hdb s2) in Hinv2.
  destruct (set_token_run _ s2 now (user, id) t Hinv2) as (s3 & Hrun3 & Hset); [|done|done|].
  { cbn [with_device devices]. by rewrite lookup_insert_eq. }
  cbn [fst snd] in Hrun3. rewrite (bind_run _ _ _ _ _ Hrun3). exists s3. split; [done|]. split.
  - intros c Hc. destruct Hset as [Htouch _ _ _ _ _]. rewrite Htouch by (revert Hc; unfold creation_columns; set_solver).
    subst s2. cbn. rewrite insert_other by (revert Hc; unfold creation_columns; set_solver).
    apply Ht1. revert Hc. unfold creation_columns. set_solver.
  - eapply with_token_inv; [exact Hinv2|cbn; by rewrite lookup_insert_eq|done|done| |exact Hset].
    intros n. by apply token_end_u64.
Qed.

Lemma set_token_refused A s now x (t : DeviceToken) : AuthInv A (hdb s) → who_ok x →
  (devices A !! x = None → set_token now x.1 x.2 t s = (Err (Fail DatabaseError), s)) ∧
  (is_Some (devices A !! x) → appservice_token (token t) = true → set_token now x.1 x.2 t s = (Err (Fail InvalidParam), s)).
Proof.
  intros Hinv Hx. unfold set_token. rewrite (bind_reads _ _ _ _ (has_metadata_spec A _ _ Hinv Hx)). split.
  - intros ->. by rewrite bool_decide_eq_false_2 by apply is_Some_None.
  - intros Hd ->. by rewrite bool_decide_eq_true_2.
Qed.

(** * Who may act as a device *)

(** C22: Access tokens refine a map from devices to tokens.  For an active user a device is created with
    its token; a token is set for a device that exists, in the place of the one before, unless an
    application service has it; removing a device removes its token and session and no other's; and a
    token leads to exactly the device it was set for last, as expired from the second it ends. *)
Theorem access_tokens_correct (A : Auth) (s : Host) (now : Z) (x : who) (t : DeviceToken)
    (Hinv : AuthInv A (hdb s)) (Hx : who_ok x) (Hnow : 0 ≤ now) (Ht : token_ok (token t))
    (Hfree : free_token A x (token t)) (Hage : ∀ age, max_age t = Some age → 0 ≤ age) :
  (status (hdb s) x.1 = Active → appservice_token (token t) = false → ∀ generated name ip, ∃ s',
     create_device generated now x.1 (Some x.2) (Some t) name ip s = (Ok x.2, s') ∧
     AuthInv (with_token (with_device A x (new_device now x.2 name ip)) x (token t) (token_end now t)) (hdb s')) ∧
  (is_Some (devices A !! x) → appservice_token (token t) = false → ∃ s',
     set_token now x.1 x.2 t s = (Ok tt, s') ∧ AuthInv (with_token A x (token t) (token_end now t)) (hdb s')) ∧
  (devices A !! x = None → set_token now x.1 x.2 t s = (Err (Fail DatabaseError), s)) ∧
  (is_Some (devices A !! x) → appservice_token (token t) = true →
     set_token now x.1 x.2 t s = (Err (Fail InvalidParam), s)) ∧
  (∃ s', remove_device x.1 x.2 s = (Ok tt, s') ∧ AuthInv (drop_device A x) (hdb s')) ∧
  ((∀ y n, ends A !! y = Some n → n ≤ i64_max) →
   (∀ y, tokens A !! y = Some (token t) →
      find_from_token now (hdb s) (token t) = Ok (Some (y.1, y.2, expired now A y))) ∧
   ((∀ y, tokens A !! y ≠ Some (token t)) → find_from_token now (hdb s) (token t) = Ok None)).
Proof.
  split_and!.
  - intros Hst Happ generated name ip. destruct x as [u dv]. cbn [fst snd] in *.
    destruct (create_device_run A s generated now u (Some dv) t name ip Hinv Hst Hx Hnow Ht Happ Hfree Hage)
      as (s' & Hrun & _ & Hinv'). eauto.
  - intros Hd Happ. destruct (set_token_run A s now x t Hinv Hd Happ Hnow) as (s' & Hrun & Hset).
    exists s'. split; [done|]. eapply with_token_inv; [done..| |exact Hset]. intros n. by apply token_end_u64.
  - by apply (set_token_refused A).
  - by apply (set_token_refused A).
  - destruct (remove_device_run A s x Hinv Hx) as (s' & Hrun & Hinv' & _). eauto.
  - intros Hends. apply find_from_token_spec; [done|by destruct Ht|done].
Qed.

(** C23: A device that is removed is locked out: neither its access token nor its refresh token is known
    any more, it has no session and no metadata; and the tokens and sessions of all other devices are
    as before. *)
Theorem removed_devices_locked_out (A : Auth) (s : Host) (x : who) (Hinv : AuthInv A (hdb s)) (Hx : who_ok x) : ∃ s',
  remove_device x.1 x.2 s = (Ok tt, s') ∧
  (∀ t now, tokens A !! x = Some t → find_from_token now (hdb s') t = Ok None) ∧
  (∀ i, sessions A !! x = Some i → hdb s' refreshtoken_refreshtokeninfo !! current_refresh_token i = None) ∧
  get_session_info_for_device (hdb s') x.1 x.2 = None ∧
  has_metadata (hdb s') x.1 x.2 = Ok false ∧
  ∀ y now t, y ≠ x → tokens A !! y = Some t → (∀ z n, ends A !! z = Some n → n ≤ i64_max) →
    find_from_token now (hdb s') t = find_from_token now (hdb s) t ∧
    get_session_info_for_device (hdb s') y.1 y.2 = sessions A !! y.
Proof.
  destruct (remove_device_run A s x Hinv Hx) as (s' & Hrun & Hinv' & _). exists s'. split; [done|]. split_and!.
  - intros t now Ht. unfold find_from_token. pose proof (ai_token _ _ Hinv _ _ Ht) as (_ & _ & Hne).
    rewrite decide_False by done. unfold get. destruct (hdb s' token_userdeviceid !! t) eqn:Hl; [|done]. exfalso.
    apply (rep_lookup _ _ _ _ (ai_owners _ _ Hinv')) in Hl as (y & t' & Hy & -> & _).
    cbn [drop_device tokens sessions] in Hy. apply lookup_delete_Some in Hy as [Hyx Hy]. by apply Hyx, (rep_inj _ _ _ _ (ai_owners _ _ Hinv) x y t' t').
  - intros i Hi. destruct (hdb s' _ !! _) eqn:Hl; [|done]. exfalso.
    apply (rep_lookup _ _ _ _ (ai_refresh _ _ Hinv')) in Hl as (y & i' & Hy & Hk & _).
    cbn [drop_device tokens sessions] in Hy. apply lookup_delete_Some in Hy as [Hyx Hy]. by apply Hyx, (rep_inj _ _ _ _ (ai_refresh _ _ Hinv) x y i i').
  - rewrite (session_info_spec _ _ _ Hinv' Hx). cbn. by rewrite lookup_delete_eq.
  - rewrite (has_metadata_spec _ _ _ Hinv' Hx). cbn. by rewrite lookup_delete_eq, bool_decide_eq_false_2 by apply is_Some_None.
  - intros y now t Hyx Hy Hends. pose proof (ai_token _ _ Hinv _ _ Hy) as (Hd & _ & Hne).
    rewrite (session_info_spec _ _ _ Hinv') by by apply (ai_names _ _ Hinv). cbn [drop_device sessions].
    rewrite lookup_delete_ne by done. split; [|done].
    destruct (find_from_token_spec A (hdb s) now t Hinv Hne Hends) as [Hold _]. rewrite (Hold y Hy).
    destruct (find_from_token_spec _ (hdb s') now t Hinv' Hne) as [Hf _].
    { intros z n Hz. cbn in Hz. apply lookup_delete_Some in Hz as [_ Hz]. by eapply Hends. }
    rewrite (Hf y) by by (cbn; rewrite lookup_delete_ne). unfold expired. cbn [drop_device ends]. by rewrite lookup_delete_ne.
Qed.
End Removal.

Module DevicesWitness.
#[local] Existing Instances example_parsers example_rooms example_keys example_server.
#[local] Instance js {A} `{Countable A} : Json A := countable_json.
#[local] Instance laws {A} `{Countable A} : JsonLaws A := example_laws.

Definition no_one : Auth := {| devices := ∅; tokens := ∅; ends := ∅; sessions := ∅ |}.
Definition phone : who := (alice, [80]).
Definition secret : DeviceToken := {| token := [115]; max_age := Some (3600 * SECOND) |}.

Lemma auth_inv0 : AuthInv no_one (hdb host0).
Proof.
  split; cbn; try apply represents_empty; intros x.
  - intros [e He]. by rewrite lookup_empty in He.
  - intros t. by rewrite lookup_empty.
  - intros n. by rewrite lookup_empty.
  - intros i. by rewrite lookup_empty.
Qed.

Lemma access_tokens_correct_witness : ∃ s',
  create_device [88] 0 alice (Some [80]) (Some secret) None None host0 = (Ok [80], s') ∧
  AuthInv (with_token (with_device no_one phone (new_device 0 [80] None None)) phone [115] (Some 3600)) (hdb s').
Proof.
  destruct (access_tokens_correct no_one host0 0 phone secret auth_inv0) as (Hc & _).
  - by split.
  - done.
  - by split.
  - intros y. cbn. by rewrite lookup_empty.
  - by intros age [= <-].
  - exact (Hc eq_refl eq_refl [88] None None).
Defined.

(** A server with that device. *)
Lemma with_phone : ∃ s A, AuthInv A (hdb s) ∧ tokens A !! phone = Some [115] ∧
  find_from_token 5 (hdb s) [115] = Ok (Some (alice, [80], Valid)).
Proof.
  destruct (create_device_run no_one host0 [88] 0 alice (Some [80]) secret None None auth_inv0) as (s & Hrun & _ & Hi);
    try done.
  - by intros age [= <-].
  - exists s. eexists. split; [exact Hi|]. split; [by apply lookup_insert_eq|].
    assert (s = (create_device [88] 0 alice (Some [80]) (Some secret) None None host0).2) as -> by by rewrite Hrun.
    vm_compute. reflexivity.
Qed.

Lemma removed_devices_locked_out_witness : ∃ s s',
  find_from_token 5 (hdb s) [115] = Ok (Some (alice, [80], Valid)) ∧
  remove_device alice [80] s = (Ok tt, s') ∧ find_from_token 5 (hdb s') [115] = Ok None.
Proof.
  destruct with_phone as (s & A & Hi & Ht & Hf). exists s.
  destruct (removed_devices_locked_out A s phone Hi ltac:(by split)) as (s' & Hrun & Hout & _).
  exists s'. split; [exact Hf|]. split; [exact Hrun|]. exact (Hout [115] 5 Ht).
Defined.
End DevicesWitness.
