(* ===== verification/UserKeysSpec.v ===== *)
(** The keys of users and devices: one-time keys are handed out at most once, and the log of changed
    keys tells every room what changed. *)

From stdpp Require Import prelude gmap sorting.
From Stdlib Require Import ZArith Lia.
From S2P Require Import Prelude Effects Bytes DbSer Database PairKeys Scans Tables Short Json Host UserKeys Devices DevicesSpec UsersExample.
Local Open Scope Z_scope.

(** What ruma and [serde_json] document: strings without characters to escape are put in quotation
    marks, and a key identifier is an algorithm, a colon and a name. *)
Class KeyLibraryLaws `{!KeyLibrary} := {
  plain_text : bytes → Prop;
  json_string_plain s : plain_text s → json_string s = QUOTE :: s ++ [QUOTE];
  parse_string s : parse_json_string (json_string s) = Some s;
  key_id_parts id : key_id_ok id → ∃ name, id = algorithm id ++ COLON :: name ∧ COLON ∉ algorithm id;
}.

Lemma split_inj {A} (c : A) (a b a' b' : list A) : c ∉ a → c ∉ a' → a ++ c :: b = a' ++ c :: b' → a = a' ∧ b = b'.
Proof.
  revert a'. induction a as [|x a IH]; intros [|y a'] Ha Ha' Heq; simplify_eq/=; [done|set_solver..|].
  destruct (IH a') as [-> ->]; [set_solver..|done|done].
Qed.

Section OneTimeKeys.
Context `{!Parsers, !Rooms, !KeyLibrary, !KeyLibraryLaws}.

(** Keys by user, device and identifier. *)
Abbreviation key_name := (bytes * bytes * bytes)%type.
Abbreviation keys := (gmap key_name bytes).

Definition one_time_key_of (x : key_name) (_ : bytes) : bytes := one_time_prefix x.1.1 x.1.2 ++ json_string x.2.

Record key_ok (x : key_name) (v : bytes) : Prop := {
  ok_user : valid_utf8 x.1.1;
  ok_device : valid_utf8 x.1.2;
  ok_id : valid_utf8 x.2 ∧ plain_text x.2 ∧ key_id_ok x.2;
  ok_value : raw_ok v;
}.

Record KeysInv (K : keys) (d : Db) : Prop := {
  ki_rows : Represents one_time_key_of (fun _ v => v) K (d onetimekeyid_onetimekeys);
  ki_ok x v : K !! x = Some v → key_ok x v;
}.

Lemma one_time_prefix_inj (u d u' d' r r' : bytes) : valid_utf8 u → valid_utf8 d → valid_utf8 u' → valid_utf8 d' →
  one_time_prefix u d ++ r = one_time_prefix u' d' ++ r' → u = u' ∧ d = d' ∧ r = r'.
Proof.
  intros Hu Hd Hu' Hd' Heq. unfold one_time_prefix in Heq. rewrite <-!(assoc_L (++)) in Heq. simpl in Heq.
  apply split_inj in Heq as [-> Heq]; [|by apply valid_utf8_no_sep..].
  by apply split_inj in Heq as [-> ->]; [|by apply valid_utf8_no_sep..].
Qed.

Lemma key_of_inj' x y v w : key_ok x v → key_ok y w → one_time_key_of x v = one_time_key_of y w → x = y.
Proof.
  destruct x as [[u d] i], y as [[u' d'] i']. intros [Hu Hd Hi _] [Hu' Hd' Hi' _] Heq. unfold one_time_key_of in Heq.
  cbn [fst snd] in *. apply one_time_prefix_inj in Heq as (-> & -> & Heq); [|done..].
  pose proof (parse_string i) as Hp. rewrite Heq, parse_string in Hp. by injection Hp as ->.
Qed.

(** The prefix of an algorithm finds the keys of the algorithm. *)
Lemma algorithm_prefix (u d a : bytes) x v : valid_utf8 u → valid_utf8 d → COLON ∉ a → key_ok x v →
  (one_time_prefix u d ++ [QUOTE] ++ a ++ [COLON]) `prefix_of` one_time_key_of x v ↔
  x.1 = (u, d) ∧ algorithm x.2 = a.
Proof.
  destruct x as [[u' d'] i]. intros Hu Hd Ha [Hu' Hd' (_ & Hplain & Hid) _]. unfold one_time_key_of. cbn [fst snd] in *.
  rewrite json_string_plain by done. destruct (key_id_parts i Hid) as (name & Hi & Hal).
  assert (i ++ [QUOTE] = algorithm i ++ COLON :: (name ++ [QUOTE])) as Hi'.
  { rewrite Hi at 1. by rewrite <-(assoc_L (++)). }
  split.
  - intros [r Hr]. rewrite <-(assoc_L (++)) in Hr. apply one_time_prefix_inj in Hr as (-> & -> & Hr); [|done..].
    split; [done|]. simpl in Hr. injection Hr as Hr. rewrite Hi', <-(assoc_L (++)) in Hr. simpl in Hr.
    by apply split_inj in Hr as [? _].
  - intros [[= -> ->] <-]. exists (name ++ [QUOTE]). rewrite <-(assoc_L (++)). f_equal. simpl. f_equal.
    by rewrite Hi', <-(assoc_L (++)).
Qed.

Lemma last_record_app (a b : bytes) : SEP ∉ b → last_record (a ++ SEP :: b) = b.
Proof.
  intros Hb. unfold last_record. rewrite reverse_app, reverse_cons, <-(assoc_L (++)). simpl.
  rewrite first_record_app; [apply reverse_involutive|by rewrite elem_of_reverse|right; by eexists].
Qed.

Definition of_algorithm (u d a : bytes) (x : key_name) : Prop := x.1 = (u, d) ∧ algorithm x.2 = a.
#[local] Instance of_algorithm_dec u d a x : Decision (of_algorithm u d a x).
Proof. unfold of_algorithm. apply _. Defined.

Lemma key_end x v : key_ok x v → last_record (one_time_key_of x v) = json_string x.2.
Proof.
  intros [_ _ (Hu & Hp & _) _]. unfold one_time_key_of, one_time_prefix. rewrite <-!(assoc_L (++)). simpl.
  change (x.1.1 ++ SEP :: x.1.2 ++ SEP :: json_string x.2) with (x.1.1 ++ (SEP :: x.1.2) ++ SEP :: json_string x.2).
  rewrite (assoc_L (++)). apply last_record_app. rewrite json_string_plain by done.
  apply valid_utf8_no_sep in Hu. rewrite elem_of_cons, elem_of_app, list_elem_of_singleton. intros [?|[?|?]]; done.
Qed.

(** The first key of the algorithm is taken out, if there is one. *)
Lemma first_key_run K s u d a : KeysInv K (hdb s) → valid_utf8 u → valid_utf8 d → COLON ∉ a →
  (∃ x v, K !! x = Some v ∧ of_algorithm u d a x ∧
     first_one_time_key u d a s =
       (Ok (Some (x.2, v)), with_hdb (fun db => Database.remove db onetimekeyid_onetimekeys (one_time_key_of x v)) s)) ∨
  ((∀ x v, K !! x = Some v → ¬ of_algorithm u d a x) ∧ first_one_time_key u d a s = (Ok None, s)).
Proof.
  intros [Hrows Hok] Hu Hd Ha. unfold first_one_time_key. rewrite bind_gets.
  set (p := one_time_prefix u d ++ [QUOTE] ++ a ++ [COLON]).
  destruct (raw_stream_prefix (hdb s) onetimekeyid_onetimekeys p) as [|[k v] l] eqn:Hl.
  - right. split; [|done]. intros x v Hx Hal.
    assert ((one_time_key_of x v, v) ∈ raw_stream_prefix (hdb s) onetimekeyid_onetimekeys p) as Hin; [|by rewrite Hl in Hin; set_solver].
    apply raw_stream_prefix_elem. split; [by apply (rep_Some _ _ _ _ x v Hrows)|].
    apply (algorithm_prefix u d a x v); auto.
  - left. assert ((k, v) ∈ raw_stream_prefix (hdb s) onetimekeyid_onetimekeys p) as Hin by (rewrite Hl; by left).
    apply raw_stream_prefix_elem in Hin as [Hk Hp]. apply (rep_lookup _ _ _ _ Hrows) in Hk as (x & w & Hx & -> & ->).
    pose proof (Hok _ _ Hx) as Hxok. apply (algorithm_prefix u d a x w) in Hp; [|done..].
    exists x, w. split; [done|]. split; [done|]. erewrite bind_run by done.
    erewrite bind_run; [|unfold pure; rewrite (key_end x w Hxok); unfold parse_key_id; rewrite parse_string; simpl;
      destruct (ok_id _ _ Hxok) as (_ & _ & Hid); apply Is_true_true in Hid; rewrite Hid; done].
    pose proof (ok_value _ _ Hxok) as Hv. apply Is_true_true in Hv. by rewrite Hv.
Qed.

Lemma taken_inv K d x v : KeysInv K d → K !! x = Some v →
  KeysInv (delete x K) (Database.remove d onetimekeyid_onetimekeys (one_time_key_of x v)).
Proof.
  intros [Hrows Hok] Hx. split; dbs.
  - pose proof (rep_delete _ _ _ _ x Hrows) as Hr. unfold forget_key in Hr. by rewrite Hx in Hr.
  - intros y w [_ Hy]%lookup_delete_Some. by apply Hok.
Qed.

(** ** Fallback keys *)

Definition fallback_bytes (used : bool) (id key : bytes) : bytes := tuple_bytes [VBool used; VStr id; VStr key].
Definition fallback_row (u d a : bytes) : bytes := tuple_bytes [VStr u; VStr d; VStr a].

(** A fallback key in its place. *)
Record has_fallback (d : Db) (u dv a : bytes) (used : bool) (id key : bytes) : Prop := {
  hf_row : d fallbackkeyid_fallbackkey !! fallback_row u dv a = Some (fallback_bytes used id key);
  hf_id : key_id_ok id ∧ valid_utf8 id ∧ algorithm id = a;
  hf_key : valid_utf8 key;
}.

Lemma read_fallback_spec d u dv a used id key : has_fallback d u dv a used id key →
  read_fallback d u dv a = Ok (used, id, key).
Proof.
  intros [Hrow (Hid & Hu & _) Hk]. unfold read_fallback, fallback_key. rewrite qry_tuple by plain_records.
  unfold get, fallback_row in *. rewrite Hrow. unfold deserialized. cbn [ok_or_fail ok_or mbind result_bind].
  unfold fallback_bytes. rewrite (from_slice_reads _ _ [VBool used; VStr id; VStr key]);
    [|read_records; by constructor|done|by apply tuple_bytes_nonempty].
  cbn [mbind result_bind]. apply Is_true_true in Hid. by rewrite Hid.
Qed.

Lemma no_fallback d u dv a : d fallbackkeyid_fallbackkey !! fallback_row u dv a = None →
  read_fallback d u dv a = Err (Fail NotFound).
Proof.
  intros Hrow. unfold read_fallback, fallback_key. rewrite qry_tuple by plain_records.
  unfold get, fallback_row in *. by rewrite Hrow.
Qed.

Lemma add_fallback_run s u dv id key used : has_metadata (hdb s) u dv = Ok true →
  add_fallback_key u dv id key used s =
    (Ok tt, with_hdb (fun d => Database.insert d fallbackkeyid_fallbackkey (fallback_row u dv (algorithm id))
                                 (fallback_bytes used id key)) s).
Proof.
  intros Hm. unfold add_fallback_key. rewrite (bind_reads _ _ _ _ Hm). unfold fallback_key.
  rewrite (run_put _ _ _ (fallback_bytes used id key)); [done|plain_records|].
  rewrite serialize_tuple_bytes; [done|]. repeat constructor; eauto with plain.
Qed.

(** ** Taking *)

(** What [take_one_time_key] does first. *)
Definition counted_take (u : bytes) (s : Host) : Host :=
  let s := {| world := {| db := Database.insert (hdb s) global COUNTER (u64_to_be (default (counter (world s)) (checked_u64 (counter (world s) + 1))));
                          counter := default (counter (world s)) (checked_u64 (counter (world s) + 1)) |}; woken := woken s |} in
  with_hdb (fun d => Database.insert d userid_lastonetimekeyupdate u (u64_to_be (counter (world s)))) s.

Lemma take_starts u d a s : take_one_time_key u d a s =
  (one_time_key ← first_one_time_key u d a;
   match one_time_key with
   | Some result => _ ← wake u; mret result
   | None =>
       db ← gets hdb;
       match read_fallback db u d a with
       | Ok (used, id, key) =>
           _ ← (if used then mret tt else add_fallback_key u d id key true); _ ← wake u; mret (id, key)
       | Err (Fail _) => fail NotFound
       | Err e => pure (Err e)
       end
   end : M (bytes * bytes)) (counted_take u s).
Proof. done. Qed.

Lemma counted_take_other u s c : c ≠ global → c ≠ userid_lastonetimekeyupdate → hdb (counted_take u s) c = hdb s c.
Proof. intros Hg Hl. unfold counted_take. cbn. by rewrite !insert_other. Qed.

Lemma KeysInv_ext K d d' : d' onetimekeyid_onetimekeys = d onetimekeyid_onetimekeys → KeysInv K d → KeysInv K d'.
Proof. intros Heq [Hr Hok]. split; [by rewrite Heq|done]. Qed.

(** Whether a device has metadata does not depend on other columns. *)
Lemma has_metadata_ext (d d' : Db) u dv : d' userdeviceid_metadata = d userdeviceid_metadata →
  has_metadata d' u dv = has_metadata d u dv.
Proof. intros Heq. unfold has_metadata, device_key. rewrite !qry_tuple by plain_records. unfold get. by rewrite Heq. Qed.

Definition fallback_or_none (u d a : bytes) (db : Db) : M (bytes * bytes) :=
  match read_fallback db u d a with
  | Ok (used, id, key) =>
      _ ← (if used : bool then mret tt else add_fallback_key u d id key true); _ ← wake u; mret (id, key)
  | Err (Fail _) => fail NotFound
  | Err e => pure (Err e)
  end.

(** The fallback key, marked as used. *)
Lemma fallback_taken K s s1 u d a : KeysInv K (hdb s1) →
  touches [global; userid_lastonetimekeyupdate; fallbackkeyid_fallbackkey] s s1 →
  (∀ used id key, has_fallback (hdb s) u d a used id key → has_fallback (hdb s1) u d a used id key) →
  (∀ used id key, has_fallback (hdb s) u d a used id key → read_fallback (hdb s1) u d a = Ok (used, id, key)) →
  (hdb s fallbackkeyid_fallbackkey !! fallback_row u d a = None → read_fallback (hdb s1) u d a = Err (Fail NotFound)) →
  has_metadata (hdb s1) u d = has_metadata (hdb s) u d →
  let run := fallback_or_none u d a (hdb s1) s1 in
  KeysInv K (hdb run.2) ∧ touches [global; userid_lastonetimekeyupdate; fallbackkeyid_fallbackkey] s run.2 ∧
  (∀ used id key, has_fallback (hdb s) u d a used id key → has_metadata (hdb s) u d = Ok true →
     run.1 = Ok (id, key) ∧ has_fallback (hdb run.2) u d a true id key) ∧
  (hdb s fallbackkeyid_fallbackkey !! fallback_row u d a = None →
     run.1 = Err (Fail NotFound) ∧ hdb run.2 fallbackkeyid_fallbackkey = hdb s1 fallbackkeyid_fallbackkey).
Proof.
  intros Hinv Ht Hsame Hread Hno Hmeta. cbv zeta.
  assert (preserves (touches [fallbackkeyid_fallbackkey]) (fallback_or_none u d a (hdb s1))) as Hpres.
  { unfold fallback_or_none, add_fallback_key, reads. preserve; try apply put_touches; try apply wake_touches; set_solver. }
  specialize (Hpres s1). split_and!.
  - eapply KeysInv_ext; [|exact Hinv]. apply Hpres. set_solver.
  - eapply touches_then; [exact Ht|exact Hpres|set_solver].
  - intros used id key Hf Hm. unfold fallback_or_none. rewrite (Hread _ _ _ Hf).
    apply Hsame in Hf as [Hrow Hid Hk]. destruct used.
    + erewrite bind_run by done. by split.
    + erewrite bind_run by (apply add_fallback_run; by rewrite Hmeta). split; [done|].
      split; [|done..]. cbn. dbs. destruct Hid as (_ & _ & <-). apply lookup_insert_eq.
  - intros Hf. unfold fallback_or_none. by rewrite (Hno Hf).
Qed.

(** One take, by what there is. *)
Lemma take_spec K s u d a : KeysInv K (hdb s) → valid_utf8 u → valid_utf8 d → COLON ∉ a →
  (∃ x v s', K !! x = Some v ∧ of_algorithm u d a x ∧ take_one_time_key u d a s = (Ok (x.2, v), s') ∧
     KeysInv (delete x K) (hdb s') ∧
     touches [global; userid_lastonetimekeyupdate; onetimekeyid_onetimekeys] s s' ∧ woken s' = woken s ++ [u]) ∨
  ((∀ x v, K !! x = Some v → ¬ of_algorithm u d a x) ∧ ∃ s', (take_one_time_key u d a s).2 = s' ∧
     KeysInv K (hdb s') ∧ touches [global; userid_lastonetimekeyupdate; fallbackkeyid_fallbackkey] s s' ∧
     (∀ used id key, has_fallback (hdb s) u d a used id key → has_metadata (hdb s) u d = Ok true →
        (take_one_time_key u d a s).1 = Ok (id, key) ∧ has_fallback (hdb s') u d a true id key) ∧
     (hdb s fallbackkeyid_fallbackkey !! fallback_row u d a = None →
        (take_one_time_key u d a s).1 = Err (Fail NotFound) ∧ hdb s' fallbackkeyid_fallbackkey = hdb s fallbackkeyid_fallbackkey)).
Proof.
  intros Hinv Hu Hd Ha. rewrite take_starts. set (s1 := counted_take u s).
  assert (KeysInv K (hdb s1)) as Hinv1 by (eapply KeysInv_ext; [|exact Hinv]; by apply counted_take_other).
  destruct (first_key_run K s1 u d a Hinv1 Hu Hd Ha) as [(x & v & Hx & Hal & Hrun)|[Hnone Hrun]].
  - left. rewrite (bind_run _ _ _ _ _ Hrun). eexists x, v, _. split; [done|]. split; [done|]. split; [done|].
    split; [|split; [|done]].
    + cbn. by apply taken_inv.
    + intros c Hc. cbn. rewrite remove_other by set_solver. apply counted_take_other; set_solver.
  - right. split; [done|]. rewrite (bind_run _ _ _ _ _ Hrun), bind_gets. eexists. split; [reflexivity|].
    assert (hdb s1 fallbackkeyid_fallbackkey = hdb s fallbackkeyid_fallbackkey) as Hfb by by apply counted_take_other.
    assert (touches [global; userid_lastonetimekeyupdate; fallbackkeyid_fallbackkey] s s1) as Ht1.
    { intros c Hc. apply counted_take_other; set_solver. }
    assert (∀ used id key, has_fallback (hdb s) u d a used id key → has_fallback (hdb s1) u d a used id key) as Hsame.
    { intros used id key [Hrow ? ?]. split; [by rewrite Hfb|done..]. }
    assert (∀ used id key, has_fallback (hdb s) u d a used id key → read_fallback (hdb s1) u d a = Ok (used, id, key)) as Hread.
    { intros used id key Hf. by apply read_fallback_spec, Hsame. }
    assert (hdb s fallbackkeyid_fallbackkey !! fallback_row u d a = None → read_fallback (hdb s1) u d a = Err (Fail NotFound)) as Hno.
    { intros Hf. apply no_fallback. by rewrite Hfb. }
    destruct (fallback_taken K s s1 u d a Hinv1 Ht1 Hsame Hread Hno) as (Hk & Ht & Hgive & Hnot).
    { apply has_metadata_ext. by apply counted_take_other. }
    split; [exact Hk|]. split; [exact Ht|]. split; [exact Hgive|].
    intros Hf. destruct (Hnot Hf) as [Hr Hc]. split; [exact Hr|]. by rewrite <-Hfb.
Qed.

(** Requests for keys of one algorithm, one after the other. *)
Fixpoint takes (n : nat) (u d a : bytes) (s : Host) : list (comp db_error (bytes * bytes)) * Host :=
  match n with
  | O => ([], s)
  | S n => let '(r, s) := take_one_time_key u d a s in let '(rs, s) := takes n u d a s in (r :: rs, s)
  end.

(** What a request gets when no one-time key is left. *)
Definition fallback_answer (db : Db) (u d a : bytes) (r : comp db_error (bytes * bytes)) : Prop :=
  (∃ used id key, has_fallback db u d a used id key ∧ has_metadata db u d = Ok true ∧ r = Ok (id, key)) ∨
  (db fallbackkeyid_fallbackkey !! fallback_row u d a = None ∧ r = Err (Fail NotFound)).

Lemma fallback_answer_ext (db db' : Db) u d a r : db' fallbackkeyid_fallbackkey = db fallbackkeyid_fallbackkey →
  db' userdeviceid_metadata = db userdeviceid_metadata → fallback_answer db u d a r → fallback_answer db' u d a r.
Proof.
  intros Hf Hm [(used & id & key & [Hrow ? ?] & Hd & ->)|[Hrow ->]]; [left|right; by rewrite Hf].
  exists used, id, key. split; [split; [by rewrite Hf|done..]|]. by rewrite (has_metadata_ext db).
Qed.

Lemma takes_spec n K s u d a r : KeysInv K (hdb s) → valid_utf8 u → valid_utf8 d → COLON ∉ a →
  fallback_answer (hdb s) u d a r → ∃ xs,
  NoDup xs ∧ (∀ x, x ∈ xs → of_algorithm u d a x ∧ is_Some (K !! x)) ∧
  (takes n u d a s).1 = map (fun x => Ok (x.2, default [] (K !! x))) xs ++ replicate (n - length xs) r ∧
  (length xs ≤ n)%nat ∧
  ((length xs < n)%nat → ∀ x, is_Some (K !! x) → of_algorithm u d a x → x ∈ xs) ∧
  KeysInv (filter (fun kv => kv.1 ∉ xs) K) (hdb (takes n u d a s).2).
Proof.
  intros Hinv Hu Hd Ha Hr. revert K s Hinv Hr. induction n as [|n IH]; intros K s Hinv Hr.
  { exists []. split_and!; [constructor|set_solver|done|simpl; lia|simpl; lia|].
    cbn. rewrite map_filter_id; [done|]. intros. simpl. set_solver. }
  cbn [takes]. destruct (take_spec K s u d a Hinv Hu Hd Ha) as
    [(x & v & s1 & Hx & Hal & Hrun & Hinv1 & Ht & _)|(Hnone & s1 & Hs1 & Hinv1 & Ht & Hfb & Hno)].
  - rewrite Hrun. destruct (IH (delete x K) s1 Hinv1) as (xs & Hnd & Hin & Hres & Hlen & Hall & Hinv').
    { eapply fallback_answer_ext; [| |exact Hr]; apply Ht; set_solver. }
    assert (x ∉ xs) as Hxs.
    { intros [_ [w Hw]]%Hin. by rewrite lookup_delete_eq in Hw. }
    destruct (takes n u d a s1) as [rs s2]. cbn [fst snd] in *. exists (x :: xs). split_and!.
    + by constructor.
    + intros y [->|Hy]%elem_of_cons; [by rewrite Hx|]. apply Hin in Hy as [? Hy]. split; [done|].
      by apply lookup_delete_is_Some in Hy as [_ ?].
    + rewrite Hres. cbn [map app]. rewrite Hx. simpl. do 2 f_equal. apply map_ext_in. intros y Hy.
      rewrite lookup_delete_ne; [done|]. intros <-. by apply Hxs, list_elem_of_In.
    + simpl. lia.
    + simpl. intros Hlt y Hy Hyal. destruct (decide (y = x)) as [->|Hne]; [by left|right].
      apply Hall; [lia| |done]. by rewrite lookup_delete_ne.
    + assert (filter (fun kv => kv.1 ∉ x :: xs) K = filter (fun kv => kv.1 ∉ xs) (delete x K)) as ->; [|done].
      apply map_eq. intros y. apply option_eq. intros w.
      rewrite !map_lookup_filter_Some, lookup_delete_Some. simpl. rewrite not_elem_of_cons. naive_solver.
  - assert ((take_one_time_key u d a s).1 = r ∧ fallback_answer (hdb s1) u d a r) as [Hr1 Hr'].
    { destruct Hr as [(used & id & key & Hf & Hm & ->)|[Hf ->]].
      - destruct (Hfb _ _ _ Hf Hm) as [-> Hf1]. split; [done|]. left. exists true, id, key. split; [done|]. split; [|done].
        rewrite (has_metadata_ext (hdb s)); [done|]. apply Ht. set_solver.
      - destruct (Hno Hf) as [-> Hf1]. split; [done|]. right. by rewrite Hf1. }
    destruct (take_one_time_key u d a s) as [r1 s1'] eqn:Hrun. cbn [fst snd] in *. subst r1 s1'.
    destruct (IH K s1 Hinv1 Hr') as (xs & Hnd & Hin & Hres & Hlen & Hall & Hinv').
    destruct xs as [|x xs].
    2:{ destruct (Hin x ltac:(by left)) as [Hal [v Hv]]. by destruct (Hnone x v). }
    destruct (takes n u d a s1) as [rs s2]. cbn [fst snd] in *. exists []. split_and!; [done|done| |simpl; lia| |done].
    + rewrite Hres. simpl. by rewrite Nat.sub_0_r.
    + intros _ x [v Hv] Hal. by destruct (Hnone x v).
Qed.

Lemma add_key_run K s x v : KeysInv K (hdb s) → key_ok x v → has_metadata (hdb s) x.1.1 x.1.2 = Ok true → ∃ s',
  add_one_time_key x.1.1 x.1.2 x.2 v s = (Ok tt, s') ∧ KeysInv (<[x := v]> K) (hdb s') ∧ woken s' = woken s ++ [x.1.1].
Proof.
  intros [Hrows Hok] Hx Hm. unfold add_one_time_key. rewrite (bind_reads _ _ _ _ Hm).
  erewrite bind_run by (apply (run_raw_put _ _ _ v); unfold serialize; cbn [serialize_value]; by rewrite write_vec).
  erewrite bind_run by done. erewrite bind_run by by apply run_raw_put. eexists. split; [done|]. split; [|done].
  split; host.
  - apply (rep_update one_time_key_of (fun _ v => v) K _ x v Hrows); [|done].
    intros y w Hy Hk. by apply (key_of_inj' y x w v); [apply Hok|..].
  - intros y w [[<- <-]|[_ Hy]]%lookup_insert_Some; [done|]. by apply Hok.
Qed.

(** C24: A one-time key is handed out at most once.  A key added for a device that exists is kept under its
    identifier.  Of any number of requests for keys of one algorithm, each of the first gets a key
    of the device and the algorithm, no two the same one, as long as there are such keys, and no key
    is left out; the later ones all get the fallback key, which is marked as used, or an error where
    there is none; and the keys handed out are gone, the others as they were. *)
Theorem one_time_keys_correct (K : keys) (s : Host) (u d a : bytes) (n : nat) (r : comp db_error (bytes * bytes))
    (Hinv : KeysInv K (hdb s)) (Hu : valid_utf8 u) (Hd : valid_utf8 d) (Ha : COLON ∉ a)
    (Hr : fallback_answer (hdb s) u d a r) :
  (∀ id v, key_ok (u, d, id) v → has_metadata (hdb s) u d = Ok true → ∃ s',
     add_one_time_key u d id v s = (Ok tt, s') ∧ KeysInv (<[(u, d, id) := v]> K) (hdb s')) ∧
  ∃ xs, NoDup xs ∧ (∀ x, x ∈ xs → of_algorithm u d a x ∧ is_Some (K !! x)) ∧
    (takes n u d a s).1 = map (fun x => Ok (x.2, default [] (K !! x))) xs ++ replicate (n - length xs) r ∧
    ((length xs < n)%nat → ∀ x, is_Some (K !! x) → of_algorithm u d a x → x ∈ xs) ∧
    KeysInv (filter (fun kv => kv.1 ∉ xs) K) (hdb (takes n u d a s).2).
Proof.
  split.
  - intros id v Hx Hm. destruct (add_key_run K s (u, d, id) v Hinv Hx Hm) as (s' & Hrun & Hi & _). eauto.
  - destruct (takes_spec n K s u d a r Hinv Hu Hd Ha Hr) as (xs & ? & ? & ? & _ & ? & ?). eauto 10.
Qed.
End OneTimeKeys.

Module KeysWitness.
#[local] Existing Instances example_parsers example_rooms example_keys example_server.

#[local] Instance key_laws : KeyLibraryLaws (H := example_keys).
Proof.
  refine {| plain_text _ := True |}; simpl.
  - done.
  - intros s. rewrite length_app. simpl. replace (pred (length s + 1)) with (length s) by lia. by rewrite take_app_length.
  - intros id Hid. apply Is_true_true, bool_decide_eq_true_1 in Hid. induction id as [|b id IH]; [by set_solver|].
    simpl. destruct (decide (b = COLON)) as [->|Hne].
    + exists id. rewrite decide_False by tauto. split; [done|set_solver].
    + rewrite decide_True by done. destruct IH as (name & Hn & Hc); [set_solver|]. exists name.
      split; [simpl; by rewrite <-Hn|]. set_solver.
Defined.

(** Two keys of the algorithm [c] of Alice's device, and no fallback key. *)
Definition K0 : gmap (bytes * bytes * bytes) bytes := {[ (alice, [80], [99; 58; 49]) := [1]; (alice, [80], [99; 58; 50]) := [2] ]}.
Definition host1 : Host := with_hdb (fun d =>
  Database.insert (Database.insert d onetimekeyid_onetimekeys (one_time_key_of (alice, [80], [99; 58; 49]) [1]) [1])
    onetimekeyid_onetimekeys (one_time_key_of (alice, [80], [99; 58; 50]) [2]) [2]) host0.

Lemma inv1 : KeysInv K0 (hdb host1).
Proof.
  assert (∀ x v, K0 !! x = Some v → x = (alice, [80], [99; 58; 49]) ∧ v = [1] ∨ x = (alice, [80], [99; 58; 50]) ∧ v = [2]) as Hk.
  { intros x v Hx. unfold K0 in Hx. apply lookup_insert_Some in Hx as [[<- <-]|[_ Hx]]; [by left|].
    apply lookup_singleton_Some in Hx as [<- <-]. by right. }
  split.
  - split.
    + intros k v. unfold host1, host0, empty_db. host. rewrite !lookup_insert_Some. split.
      * intros [[<- <-]|[_ [[<- <-]|[_ Hl]]]]; [eexists _, _; split; [|done]; done..|].
        by rewrite lookup_empty in Hl.
      * intros (x & e & [[-> ->]|[-> ->]]%Hk & -> & ->); [right|by left]. split; [by vm_compute|by left].
    + intros x y e e' [[-> ->]|[-> ->]]%Hk [[-> ->]|[-> ->]]%Hk; vm_compute; congruence.
  - intros x v [[-> ->]|[-> ->]]%Hk; split; cbn; done || by split_and!.
Qed.

Lemma one_time_keys_correct_witness : ∃ xs, NoDup xs ∧
  (takes 3 alice [80] [99] host1).1 = map (fun x => Ok (x.2, default [] (K0 !! x))) xs ++
    replicate (3 - length xs) (Err (Fail NotFound)).
Proof.
  destruct (one_time_keys_correct K0 host1 alice [80] [99] 3 (Err (Fail NotFound)) inv1) as (_ & xs & Hnd & _ & Hr & _).
  - done.
  - done.
  - intros Hc%list_elem_of_singleton. discriminate Hc.
  - right. by split.
  - exists xs. split; [exact Hnd|exact Hr].
Defined.

Example taken : (takes 3 alice [80] [99] host1).1 = [Ok ([99; 58; 49], [1]); Ok ([99; 58; 50], [2]); Err (Fail NotFound)].
Proof. vm_compute. reflexivity. Qed.

(** The keys of a device whose identifier extends another's are counted as the other's: the prefix has
    no separator at its end. *)
Example other_devices_keys_counted :
  let d := Database.insert empty_db onetimekeyid_onetimekeys (one_time_key_of (alice, [80; 81], [99; 58; 49]) [1]) [1] in
  count_one_time_keys (fun q => parse_json_string q) d alice [80] = Ok {[ [99] := 1 ]}.
Proof. vm_compute. reflexivity. Qed.
End KeysWitness.
