(* ===== verification/UiaaSpec.v ===== *)
(** What user-interactive authentication guarantees: a session ends in success only when every stage of
    one of its flows was checked since it began, and once; whom it authenticates is whom its stages
    were checked for.  And what it does not: which request a session began with. *)

From stdpp Require Import prelude countable gmap.
From Stdlib Require Import ZArith Lia.
From S2P Require Import Prelude Effects Bytes DbSer Database Short Json Host UserKeys Devices Accounts RegistrationTokens Threepid Uiaa UsersExample.
Local Open Scope Z_scope.

Section Spec.
Context `{!Parsers, !Rooms, !KeyLibrary, !Server, !AccountLibrary, !UiaaLibrary, !Json Device,
  !Json DehydratedDevice, !Json SessionInfo, !Json RefreshTokenInfo, !Json DatabaseTokenInfo}.

(** What happens to the service: a session is begun or continued, and other services change the
    database, validate addresses and issue tickets between. *)
Inductive request :=
| Begin (e : Env) (generated : bytes) (fs : list (list AuthType)) (ps : bytes) (initiator : option UiaaInitiator)
| Continue (e : Env) (auth : AuthAttempt) (sid : bytes)
| Elsewhere (h : Host) (v : ValidationSessions) (ts : gmap bytes (gmap OAuthTicket Z)).

(** What can be observed: a session begins, with its flows and who is known to begin it; an attempt at a
    stage passes, in some environment and state; a session ends with the identity it authenticates. *)
Inductive event :=
| Begun (sid : bytes) (fs : list (list AuthType)) (who : Identity)
| Passed (sid : bytes) (t : AuthType) (e : Env) (s : Uiaa) (auth : AuthAttempt)
| Ended (sid : bytes) (identity : Identity).

(** An attempt that is made and passes. *)
Definition passed (e : Env) (auth : AuthAttempt) (sid : bytes) (s : Uiaa) : list event :=
  match uiaa_sessions s !! sid, auth_type auth with
  | Some session, Some t =>
      if existsb (fun stages => bool_decide (t ∈ stages)) (flows (info session)) &&
         bool_decide (t ∉ completed (info session)) then
        match (check_stage e auth (session_metadata session) s).1 with
        | Ok (Ok _) => [Passed sid t e s auth]
        | _ => []
        end
      else []
  | _, _ => []
  end.

(** A request, with the events in it, the latest first. *)
Definition serve (r : request) (s : Uiaa) : list event * Uiaa :=
  match r with
  | Begin e generated fs ps initiator =>
      match create_session e generated fs ps initiator s with
      | (Ok i, s') =>
          (match uiaa_sessions s' !! generated with
           | Some session => [Begun generated (flows i) (into_identity (session_metadata session))]
           | None => []
           end, s')
      | (Err _, s') => ([], s')
      end
  | Continue e auth sid =>
      let '(r, s') := continue_session e auth sid s in
      (match r with Ok (Ok i) => [Ended sid i] | _ => [] end ++ passed e auth sid s, s')
  | Elsewhere h v ts =>
      ([], {| u_host := h; u_validation := v; tickets := ts; uiaa_sessions := uiaa_sessions s |})
  end.

Fixpoint serve_all (rs : list request) (tr : list event) (s : Uiaa) : list event * Uiaa :=
  match rs with
  | [] => (tr, s)
  | r :: rs => let '(evs, s) := serve r s in serve_all rs (evs ++ tr) s
  end.

(** A session as the events of the past, latest first, tell: its flows, who began it, and what passed
    since; none if it did not begin, or ended since. *)
Record Past := { p_flows : list (list AuthType); p_who : Identity; p_passed : list (AuthType * Env * Uiaa * AuthAttempt) }.
Definition add_passed (x : AuthType * Env * Uiaa * AuthAttempt) (p : Past) : Past :=
  {| p_flows := p_flows p; p_who := p_who p; p_passed := p_passed p ++ [x] |}.
Fixpoint past (sid : bytes) (tr : list event) : option Past :=
  match tr with
  | [] => None
  | Begun sid' fs who :: tr => if decide (sid' = sid) then Some {| p_flows := fs; p_who := who; p_passed := [] |} else past sid tr
  | Passed sid' t e s auth :: tr => if decide (sid' = sid) then add_passed (t, e, s, auth) <$> past sid tr else past sid tr
  | Ended sid' _ :: tr => if decide (sid' = sid) then None else past sid tr
  end.

(** What makes an attempt pass for an identity: the password is that of the account named, a code from
    the address was entered, the token is valid, a ticket was issued in the last ten minutes. *)
Definition genuine (e : Env) (s : Uiaa) (auth : AuthAttempt) (identity : Identity) : Prop :=
  let d := hdb (u_host s) in
  match auth with
  | TryPassword _ password => ∃ user_id u, check_password d user_id password = Ok u ∧
      localpart identity = Some (localpart_of user_id)
  | TryEmailIdentity sid client_secret => ∃ address, get_valid_session (u_validation s) sid client_secret = Ok address ∧
      email identity = Some address ∧
      ∀ l, get_localpart_for_email d address = Some l → localpart identity = Some l
  | TryRegistrationToken token => is_Some (validate_token (token_config e) (now e) d (trim token))
  | TryReCaptcha response => ∃ verify, recaptcha e = Some verify ∧ verify response
  | TryOAuth => ∃ l ts ticket issued, localpart identity = Some l ∧ tickets s !! l = Some ts ∧
      ts !! ticket = Some issued ∧ issued ≤ now e < issued + TICKET_MAX_AGE
  | TryDummy | TryTerms => True
  | FallbackAcknowledgement | TryOther _ => False
  end.

(** An identity that knows at least what another does. *)
Definition extends (i j : Identity) : Prop :=
  (∀ l, localpart i = Some l → localpart j = Some l) ∧ (∀ a, email i = Some a → email j = Some a).
#[export] Instance extends_preorder : PreOrder extends.
Proof. split; [by split|]. intros i j k [] []. split; eauto. Qed.

Lemma genuine_extends e s auth i j : extends i j → genuine e s auth i → genuine e s auth j.
Proof. intros [Hl Ha]. destruct auth; simpl; naive_solver. Qed.

(** ** Stages *)

Definition same_sessions (s s' : Uiaa) : Prop := uiaa_sessions s' = uiaa_sessions s.
#[local] Instance same_sessions_preorder : PreOrder same_sessions.
Proof. split; [by intros s|]. unfold same_sessions. intros s t u Hst Htu. congruence. Qed.

Lemma on_host_same {A} (m : M A) : preserves same_sessions (on_host m).
Proof. intros s. unfold on_host. by destruct (m _). Qed.
Lemma on_validation_same {A} (m : V A) : preserves same_sessions (on_validation m).
Proof. intros s. unfold on_validation. by destruct (m _). Qed.
Lemma try_consume_same now l t : preserves same_sessions (try_consume_ticket now l t).
Proof. unfold try_consume_ticket. preserve; done. Qed.
#[local] Hint Resolve on_host_same on_validation_same try_consume_same : preserves.

Lemma or_stage_err_same r f : (∀ i, preserves same_sessions (f i)) → preserves same_sessions (or_stage_err r f).
Proof. intros Hf. destruct r; [apply Hf|apply preserves_same, _]. Qed.

Lemma check_stage_same e auth m : preserves same_sessions (check_stage e auth m).
Proof.
  unfold check_stage, check_email_identity, check_password_stage, stage_ok, stage_err.
  preserve; repeat (apply or_stage_err_same; intros); try done; preserve; done.
Qed.

Lemma try_set_localpart_Ok i v j : try_set_localpart i v = Ok j → extends i j ∧ localpart j = Some v ∧ email j = email i.
Proof.
  unfold try_set_localpart, try_set. destruct i as [[l|] a]; simpl; [case_decide; [|done]|]; intros [= <-];
    unfold extends; simpl; naive_solver.
Qed.
Lemma try_set_email_Ok i v j : try_set_email i v = Ok j → extends i j ∧ email j = Some v ∧ localpart j = localpart i.
Proof.
  unfold try_set_email, try_set. destruct i as [l [a|]]; simpl; [case_decide; [|done]|]; intros [= <-];
    unfold extends; simpl; naive_solver.
Qed.

Lemma or_stage_err_Ok r f s x s' : or_stage_err r f s = (Ok (Ok x), s') → ∃ i, r = Ok i ∧ f i s = (Ok (Ok x), s').
Proof. destruct r; [eauto|done]. Qed.
Lemma stage_ok_Ok t i s x s' : stage_ok t i s = (Ok (Ok x), s') → x = (t, Legacy i).
Proof. by intros [= <- _]. Qed.

Lemma email_identity_genuine e i sid secret s t m s' :
  check_email_identity i sid secret s = (Ok (Ok (t, m)), s') →
  t = EmailIdentity ∧ extends i (into_identity m) ∧ genuine e s (TryEmailIdentity sid secret) (into_identity m).
Proof.
  unfold check_email_identity. rewrite bind_gets.
  destruct (get_valid_session (u_validation s) sid secret) as [address|] eqn:Hv; [|done].
  intros (a & s1 & Hc & Hrun)%bind_inv. rewrite bind_gets in Hrun.
  assert (a = address ∧ u_host s1 = u_host s) as [-> Hh].
  { unfold on_validation in Hc. destruct (consume sid address (u_validation s)) as [r v] eqn:Hb.
    injection Hc as -> <-. apply bind_inv in Hb as (? & ? & _ & Hb). by injection Hb as <- _. }
  rewrite Hh in Hrun. apply or_stage_err_Ok in Hrun as (j & Hj & Hrun).
  apply or_stage_err_Ok in Hrun as (k & Hk & Hrun). apply stage_ok_Ok in Hrun as [= -> ->]. simpl.
  apply try_set_email_Ok in Hk as (Hjk & Hk & Hkl).
  destruct (get_localpart_for_email (hdb (u_host s)) address) as [l|] eqn:Hl.
  - apply try_set_localpart_Ok in Hj as (Hij & Hj & _). split_and!; [done|by transitivity j|].
    exists address. split_and!; [done..|]. intros l' Hl'. rewrite Hl in Hl'. injection Hl' as <-. congruence.
  - injection Hj as <-. split_and!; [done|done|]. exists address. split_and!; [done..|]. intros ? Hl'. congruence.
Qed.

Lemma password_genuine e i identifier password s t m s' :
  check_password_stage i identifier password s = (Ok (Ok (t, m)), s') →
  t = Password ∧ extends i (into_identity m) ∧ genuine e s (TryPassword identifier password) (into_identity m).
Proof.
  unfold check_password_stage. rewrite bind_gets.
  destruct (password_user _ i identifier) as [[j user]|] eqn:Hp; [|done].
  destruct (parse_with_server_name user) as [user_id|]; [|done].
  destruct (check_password _ user_id password) as [u|[]] eqn:Hc; [|done..].
  intros (k & Hk & Hrun)%or_stage_err_Ok. apply stage_ok_Ok in Hrun as [= -> ->]. simpl.
  apply try_set_localpart_Ok in Hk as (Hjk & Hk & _). split_and!; [done| |eauto].
  assert (extends i j) as Hij; [|by transitivity j].
  destruct identifier; simpl in Hp; [by simplify_eq| |done].
  case_match; [done|]. case_match; [|done]. destruct (try_set_email i address) as [j'|] eqn:He; [|done].
  injection Hp as <- _. by apply try_set_email_Ok in He as (? & _ & _).
Qed.

(** A stage that passes is the one supplied, is genuine, and forgets nothing of the identity. *)
Lemma check_stage_genuine e auth m0 s t m s' :
  check_stage e auth m0 s = (Ok (Ok (t, m)), s') →
  auth_type auth = Some t ∧ extends (into_identity m0) (into_identity m) ∧ genuine e s auth (into_identity m).
Proof.
  destruct m0 as [i|l ticket]; unfold check_stage.
  - destruct auth as [| | |sid secret|identifier pw|response|token| |]; try done.
    + by intros [= -> ->]%stage_ok_Ok.
    + by intros [= -> ->]%stage_ok_Ok.
    + intros Hrun. by apply (email_identity_genuine e) in Hrun as (-> & ? & ?).
    + intros Hrun. by apply (password_genuine e) in Hrun as (-> & ? & ?).
    + destruct (recaptcha e) as [verify|] eqn:Hr; [|done]. destruct (verify response) eqn:Hv; [|done].
      intros [= -> ->]%stage_ok_Ok. split_and!; [done..|]. exists verify. by rewrite Hv.
    + rewrite bind_gets. destruct (validate_token _ _ _ _) eqn:Hv; [|done].
      intros (? & ? & _ & Hrun)%bind_inv. apply stage_ok_Ok in Hrun as [= -> ->]. split_and!; [done..|]. simpl.
      by rewrite Hv.
  - destruct auth; try done. unfold try_consume_ticket. intros (b & s1 & Hb & Hrun)%bind_inv.
    rewrite bind_gets_id in Hb. destruct (tickets s !! l) as [ts|] eqn:Ht; [|by injection Hb as <- _].
    rewrite bind_modify in Hb. injection Hb as <- _. destruct (ts !! ticket) as [issued|] eqn:Hi; [|done].
    destruct (younger _ _ _) eqn:Hy; [|done]. injection Hrun as <- <- _. split_and!; [done..|].
    apply Is_true_true, younger_spec in Hy. by exists l, ts, ticket, issued.
Qed.
(** ** Sessions *)

(** A session is what the past tells. *)
Definition attempt_passed (i : Identity) (x : AuthType * Env * Uiaa * AuthAttempt) : Prop :=
  let '(t, e, s, auth) := x in auth_type auth = Some t ∧ genuine e s auth i.
Definition told (session : UiaaSession) (p : Past) : Prop :=
  flows (info session) = p_flows p ∧ completed (info session) = (λ x, x.1.1.1) <$> p_passed p ∧
  extends (p_who p) (into_identity (session_metadata session)) ∧
  Forall (attempt_passed (into_identity (session_metadata session))) (p_passed p).
Definition tells (s : Uiaa) (tr : list event) : Prop := ∀ sid,
  option_Forall2 told (uiaa_sessions s !! sid) (past sid tr).

(** An end in success is earned: a flow was gone through since the session began. *)
Definition earned (sid : bytes) (i : Identity) (tr : list event) : Prop := ∃ p f, past sid tr = Some p ∧
  f ∈ p_flows p ∧ extends (p_who p) i ∧
  ∀ t, t ∈ f → ∃ e s auth, (t, e, s, auth) ∈ p_passed p ∧ auth_type auth = Some t ∧ genuine e s auth i.
Fixpoint all_earned (tr : list event) : Prop :=
  match tr with
  | [] => True
  | Ended sid i :: tr => earned sid i tr ∧ all_earned tr
  | _ :: tr => all_earned tr
  end.

Lemma all_earned_app tr1 sid i tr2 : all_earned (tr1 ++ Ended sid i :: tr2) → earned sid i tr2.
Proof. induction tr1 as [|[] tr1 IH]; simpl; tauto. Qed.

Lemma told_extends session p m : extends (into_identity (session_metadata session)) (into_identity m) →
  told session p → told {| session_metadata := m; info := info session |} p.
Proof.
  intros He (Hf & Hc & Hw & Hp). split_and!; [done|done|by etransitivity|].
  eapply Forall_impl; [done|]. intros [[[t e] s] auth] [Ht Hg]. split; [done|]. by eapply genuine_extends.
Qed.

(** What a stage does to a session. *)
Lemma supply_stage_told e auth t sid session p s session' s' :
  uiaa_sessions s !! sid = Some session → auth_type auth = Some t →
  existsb (fun stages => bool_decide (t ∈ stages)) (flows (info session)) →
  told session p → supply_stage e auth t session s = (Ok session', s') →
  uiaa_sessions s' = uiaa_sessions s ∧
  (passed e auth sid s = [] ∧ told session' p ∨
   passed e auth sid s = [Passed sid t e s auth] ∧ told session' (add_passed (t, e, s, auth) p)).
Proof.
  intros Hs Ht Hin Htold Hrun. unfold passed. rewrite Hs, Ht. apply Is_true_true in Hin. rewrite Hin. simpl.
  unfold supply_stage in Hrun. case_decide as Hc.
  { injection Hrun as <- <-. rewrite bool_decide_eq_false_2 by tauto. by split; [|left]. }
  rewrite bool_decide_eq_true_2 by done. apply bind_inv in Hrun as (r & s1 & Hrun & Hret).
  injection Hret as <- <-. pose proof (check_stage_same e auth (session_metadata session) s) as Hsame.
  rewrite Hrun in *. simpl in *. split; [done|]. destruct r as [[t' m]|k]; [right|left; by split].
  apply check_stage_genuine in Hrun as (Ht' & He & Hg). rewrite Ht in Ht'. injection Ht' as <-.
  split; [done|]. apply (told_extends session p m He) in Htold as (Hf & Hcm & Hw & Hp).
  split_and!; simpl in *; [done| |done|].
  - by rewrite Hcm, fmap_app.
  - apply Forall_app. split; [done|]. by constructor.
Qed.

Lemma is_completed_spec fs done_ : is_completed fs done_ → ∃ f, f ∈ fs ∧ ∀ t, t ∈ f → t ∈ done_.
Proof.
  unfold is_completed. intros (f & Hf & Hall)%Is_true_true%existsb_exists.
  exists f. split; [by apply list_elem_of_In|]. intros t Hin%list_elem_of_In.
  rewrite forallb_forall in Hall. by apply Hall, bool_decide_eq_true in Hin.
Qed.

Lemma told_earned session p sid tr : past sid tr = Some p → told session p →
  is_completed (flows (info session)) (completed (info session)) →
  earned sid (into_identity (session_metadata session)) tr.
Proof.
  intros Hp (Hf & Hc & Hw & Hall) (f & Hin & Ht)%is_completed_spec. exists p, f. rewrite <-Hf.
  split_and!; [done..|]. intros t Htf. apply Ht in Htf. rewrite Hc in Htf.
  apply list_elem_of_fmap in Htf as ([[[t' e] s] auth] & -> & Hx). exists e, s, auth. split; [done|].
  rewrite Forall_forall in Hall. by apply (Hall _ Hx).
Qed.

Lemma tells_insert s tr sid session p : tells s tr → past sid tr = Some p → told session p →
  tells (set_sessions (<[sid := session]> (uiaa_sessions s)) s) tr.
Proof.
  intros Ht Hp Hs sid'. simpl. destruct (decide (sid' = sid)) as [->|Hne].
  - rewrite lookup_insert_eq, Hp. by constructor.
  - rewrite lookup_insert_ne by done. apply Ht.
Qed.

Lemma past_other sid sid' evs tr : Forall (λ ev, match ev with
    | Begun x _ _ | Passed x _ _ _ _ | Ended x _ => x = sid' end) evs → sid ≠ sid' → past sid (evs ++ tr) = past sid tr.
Proof.
  intros Hevs Hne. induction Hevs as [|ev evs Hev _ IH]; [done|].
  destruct ev; simpl; subst; rewrite decide_False by done; done.
Qed.

Lemma begin_tells e generated fs ps initiator s i s' tr :
  create_session e generated fs ps initiator s = (Ok i, s') → tells s tr → ∃ who,
  serve (Begin e generated fs ps initiator) s = ([Begun generated (flows i) who], s') ∧
  tells s' (Begun generated (flows i) who :: tr) ∧
  localpart who = (λ i, localpart_of (user_id i)) <$> initiator.
Proof.
  intros Hrun Ht. unfold serve. rewrite Hrun. unfold create_session in Hrun. rewrite bind_gets_id in Hrun.
  destruct (begin_metadata _ fs ps initiator) as [[[m fs'] ps']|] eqn:Hm; [|done].
  assert (localpart (into_identity m) = (λ i, localpart_of (user_id i)) <$> initiator) as Hwho.
  { unfold begin_metadata in Hm. destruct initiator as [j|]; [|by simplify_eq].
    destruct (is_oauth _ j); [destruct (oauth_ticket j); [|done]|]; by simplify_eq. }
  destruct (match m with Legacy _ => _ | _ => _ end); [done|]. rewrite bind_modify in Hrun. injection Hrun as <- <-.
  simpl. rewrite lookup_insert_eq. eexists. split_and!; [done| |done].
  intros sid. simpl. destruct (decide (generated = sid)) as [->|Hne].
  - rewrite lookup_insert_eq. constructor. by split_and!.
  - rewrite lookup_insert_ne by done. apply Ht.
Qed.

Lemma continue_tells e auth sid s tr : tells s tr → all_earned tr →
  let '(evs, s') := serve (Continue e auth sid) s in tells s' (evs ++ tr) ∧ all_earned (evs ++ tr).
Proof.
  intros Ht Hall. pose proof (Ht sid) as Hsid. unfold serve, continue_session. rewrite bind_gets_id.
  destruct (uiaa_sessions s !! sid) as [session|] eqn:Hs; [|by unfold passed; rewrite Hs].
  inversion Hsid as [? p Htold Hx Hp|]; subst. symmetry in Hp.
  destruct (auth_type auth) as [t|] eqn:Hat; [|by unfold passed; rewrite Hs, Hat].
  destruct (existsb _ (flows (info session))) eqn:Hin; cbn [negb];
    [|unfold passed; rewrite Hs, Hat, Hin; done].
  destruct (supply_stage e auth t session s) as [[session'|k] s1] eqn:Hrun.
  - rewrite (bind_run _ _ _ _ _ Hrun). apply (supply_stage_told e auth t sid session p) in Hrun as (Hsame & Hcase);
      [|done|done|by rewrite Hin|done].
    assert (∃ p', past sid (passed e auth sid s ++ tr) = Some p' ∧ told session' p' ∧
      all_earned (passed e auth sid s ++ tr)) as (p' & Hp' & Htold' & Hall').
    { destruct Hcase as [[-> ?]|[-> ?]]; [by exists p|]. simpl. rewrite decide_True, Hp by done. eauto. }
    assert (∀ sid', sid' ≠ sid → past sid' (passed e auth sid s ++ tr) = past sid' tr) as Hother.
    { intros sid' Hne. apply (past_other _ sid); [|done]. destruct Hcase as [[-> _]|[-> _]]; by repeat constructor. }
    destruct (is_completed _ _) eqn:Hcomp; rewrite bind_modify; cbn; split.
    + intros sid'. simpl. destruct (decide (sid = sid')) as [<-|Hne].
      * rewrite lookup_delete_eq. constructor.
      * rewrite lookup_delete_ne, Hother, Hsame by done. apply Ht.
    + split; [|done]. apply (told_earned session' p'); [done|done|by rewrite Hcomp].
    + intros sid'. simpl. destruct (decide (sid = sid')) as [<-|Hne].
      * rewrite lookup_insert_eq, Hp'. by constructor.
      * rewrite lookup_insert_ne, Hother, Hsame by done. apply Ht.
    + done.
  - unfold mbind, eff_bind. rewrite Hrun. cbn [app].
    assert (uiaa_sessions s1 = uiaa_sessions s ∧ passed e auth sid s = []) as [Hsame ->]; [|cbn [app]; split; [|done];
      intros sid'; rewrite Hsame; apply Ht].
    unfold passed, supply_stage in *. rewrite Hs, Hat, Hin. simpl. case_decide as Hc; [done|].
    rewrite bool_decide_eq_true_2 by done. pose proof (check_stage_same e auth (session_metadata session) s) as Hsame.
    unfold mbind, eff_bind in Hrun. destruct (check_stage _ _ _ _) as [[x|k'] s2]; [done|].
    injection Hrun as _ <-. done.
Qed.

Lemma serve_tells r s tr : tells s tr → all_earned tr →
  let '(evs, s') := serve r s in tells s' (evs ++ tr) ∧ all_earned (evs ++ tr).
Proof.
  destruct r as [e generated fs ps initiator|e auth sid|h v ts]; intros Ht Hall; [|by apply continue_tells|done].
  destruct (create_session e generated fs ps initiator s) as [[i|k] s'] eqn:Hrun.
  - apply (begin_tells _ _ _ _ _ _ _ _ tr) in Hrun as (who & -> & Ht' & _); [|done]. done.
  - simpl. rewrite Hrun. split; [|done]. unfold create_session in Hrun. rewrite bind_gets_id in Hrun.
    destruct (begin_metadata _ _ _ _) as [[[m fs'] ps']|]; [|by injection Hrun as _ <-].
    destruct (match m with Legacy _ => _ | _ => _ end); [by injection Hrun as _ <-|done].
Qed.

Lemma serve_all_tells rs tr s : tells s tr → all_earned tr →
  let '(tr', s') := serve_all rs tr s in tells s' tr' ∧ all_earned tr'.
Proof.
  revert tr s. induction rs as [|r rs IH]; intros tr s Ht Hall; simpl; [done|].
  pose proof (serve_tells r s tr Ht Hall) as Hr. destruct (serve r s) as [evs s1]. destruct Hr. by apply IH.
Qed.
(** C26: Authentication is sound.  From no sessions on, whatever requests come in, whatever happens to
  accounts, addresses and tickets in between: when a session ends in success, it was begun and did not
  end since (so it ends once), and there is one of the flows it was begun with of which every stage
  was passed since it began, by an attempt that was genuine when it was made, for the identity that is
  authenticated (the password is that of its account, the address validated is its own, the
  ticket was issued to it in the last ten minutes).  The identity is that of the user who began it, if
  that is known, and a session has the flows of the request that began it, or asks for a ticket. *)
Theorem authentication_sound (s0 : Uiaa) (rs : list request) (tr1 tr2 : list event) (sid : bytes) (i : Identity)
  (Hs0 : uiaa_sessions s0 = ∅) (Htr : (serve_all rs [] s0).1 = tr1 ++ Ended sid i :: tr2) :
  (∃ p f, past sid tr2 = Some p ∧ f ∈ p_flows p ∧ extends (p_who p) i ∧
    ∀ t, t ∈ f → ∃ e s auth, (t, e, s, auth) ∈ p_passed p ∧ auth_type auth = Some t ∧ genuine e s auth i) ∧
  (∀ e generated fs ps initiator s info s', create_session e generated fs ps initiator s = (Ok info, s') → ∃ who,
    (serve (Begin e generated fs ps initiator) s).1 = [Begun generated (flows info) who] ∧
    localpart who = (λ i, localpart_of (user_id i)) <$> initiator ∧
    (flows info = fs ∨ flows info = [[OAuth]])).
Proof.
  split.
  - assert (tells s0 []) as Ht. { intros x. rewrite Hs0. constructor. }
    pose proof (serve_all_tells rs [] s0 Ht I) as Hall. destruct (serve_all rs [] s0) as [tr s]. simpl in Htr.
    subst tr. destruct Hall as [_ (p & f & Hp)%all_earned_app]. eauto.
  - intros e generated fs ps initiator s info s' Hrun.
    assert (flows info = fs ∨ flows info = [[OAuth]]) as Hf.
    { unfold create_session in Hrun. rewrite bind_gets_id in Hrun.
      destruct (begin_metadata _ _ _ _) as [[[m fs'] ps']|] eqn:Hm; [|done].
      destruct (match m with Legacy _ => _ | _ => _ end); [done|]. injection Hrun as <- _. simpl.
      unfold begin_metadata in Hm. repeat case_match; simplify_eq; auto. }
    simpl. rewrite Hrun. unfold create_session in Hrun. rewrite bind_gets_id in Hrun.
    destruct (begin_metadata _ _ _ _) as [[[m fs'] ps']|] eqn:Hm; [|done].
    destruct (match m with Legacy _ => _ | _ => _ end); [done|]. injection Hrun as <- <-. simpl.
    rewrite lookup_insert_eq. eexists. split_and!; [done| |done]. simpl. unfold begin_metadata in Hm.
    repeat case_match; by simplify_eq.
Qed.
End Spec.

(** * Two users *)
Module UiaaWitness.
#[local] Existing Instances example_parsers example_rooms example_keys example_server.
#[local] Instance js {A} `{Countable A} : Json A := countable_json.
#[local] Instance accounts : AccountLibrary :=
  {| verify_password p h := bool_decide (p = h); user_id_ok _ := true; to_lowercase s := s |}.
#[local] Instance library : UiaaLibrary :=
  {| parse_with_server_name l := Some (64 :: l); localpart_of u := drop 1 u; address_ok _ := true; trim s := s;
     ticket_params _ := [] |}.
#[local] Instance tokens_json : Json DatabaseTokenInfo := {| to_json _ := []; from_json _ := None |}.

Definition mallory : bytes := [64; 109].
Definition alices_device : bytes := [65].
Definition mallorys_device : bytes := [77].
(** Both have an account with a password and a device. *)
Definition host1 : Host :=
  ((_ ← insert userid_password mallory [105];
    _ ← create_device [] 0 alice (Some alices_device) None None None;
    create_device [] 0 mallory (Some mallorys_device) None None None) host0).2.
Definition start : Uiaa :=
  {| u_host := host1; u_validation := {| sessions := ∅; client_secrets := ∅; send_attempts := ∅ |};
     tickets := ∅; uiaa_sessions := ∅ |}.
Definition env : Env :=
  {| now := 0; recaptcha := None; uiaa_available := true;
     token_config := {| config_file_token := None; registration_tokens_from_file := []; first_account_token := None |} |}.
Definition from_alice : UiaaInitiator := {| user_id := alice; initiator_device := Some alices_device; oauth_ticket := None |}.
Definition requests : list request :=
  [Begin env [1] [[Password]] [] (Some from_alice); Continue env (TryPassword (MatrixUser [97]) [0]) [1];
   Continue env (TryPassword (MatrixUser [97]) [104]) [1]; Continue env (TryPassword (MatrixUser [97]) [104]) [1]].

(** A wrong password, the right one, and it again: one success. *)
Lemma authentication_sound_witness : ∃ tr2 p f,
  (serve_all requests [] start).1 = Ended [1] {| localpart := Some [97]; email := None |} :: tr2 ∧
  past [1] tr2 = Some p ∧ f ∈ p_flows p ∧ extends (p_who p) {| localpart := Some [97]; email := None |}.
Proof.
  assert (head (serve_all requests [] start).1 = Some (Ended [1] {| localpart := Some [97]; email := None |})) as Hh.
  { vm_compute. reflexivity. }
  destruct (serve_all requests [] start).1 as [|ev tr2] eqn:Htr; [done|]. injection Hh as ->. exists tr2.
  destruct (authentication_sound start requests [] tr2 [1] _ eq_refl Htr) as [(p & f & Hp & Hf & He & _) _].
  by exists p, f.
Defined.

(** A session is not tied to the request it began with, and routes do not look at whom it
  authenticates: someone who has another user's access token deletes the user's device with a
  password of their own. *)
Example others_password_deletes_device :
  let mine := delete_device_route env [1] None mallory mallorys_device mallorys_device in
  let other := delete_device_route env [2] (Some {| session := Some [1]; attempt_ := TryPassword (MatrixUser [109]) [105] |})
                 alice alices_device alices_device in
  (match (mine start).1 with Ok (Err i) => info_session i | _ => None end) = Some [1] ∧
  let '(r, s) := other (mine start).2 in
  r = Ok (Ok tt) ∧ has_metadata (hdb host1) alice alices_device = Ok true ∧
  has_metadata (hdb (u_host s)) alice alices_device = Ok false.
Proof. vm_compute. by split_and!. Qed.

(** An address that belongs to another account is consumed although the stage fails. *)
Example failed_stage_consumes_address :
  let validated := {| session_id := [5]; client_secret := [6]; Threepid.email := [64; 120]; validation_state := Validated |} in
  let h := (insert email_localpart [64; 120] [109] host1).2 in
  let s := {| u_host := h; u_validation := {| sessions := {[ [5] := validated ]}; client_secrets := {[ [6] := [5] ]};
      send_attempts := ∅ |}; tickets := ∅; uiaa_sessions := ∅ |} in
  let '(r, s') := check_stage env (TryEmailIdentity [5] [6]) (Legacy {| localpart := Some [97]; email := None |}) s in
  r = Ok (Err SInvalidParam) ∧ sessions (u_validation s') = ∅.
Proof. vm_compute. by split. Qed.
End UiaaWitness.
