(* ===== verification/OAuthSpec.v ===== *)
(** What OAuth clients are granted: a code is traded once, by the client and for the verifier it was
    issued for, within a minute, and what is granted is what the user authorised; refreshing replaces
    both tokens. *)

From stdpp Require Import prelude countable gmap.
From Stdlib Require Import ZArith Lia.
From S2P Require Import Prelude Effects Bytes DbSer Database PairKeys Scans Tables Short Json Host UserKeys Devices Threepid OAuth UsersExample DevicesSpec.
Local Open Scope Z_scope.

Section Spec.
Context {Url : Type} `{!EqDecision Url, !UrlLibrary Url} {CA CD : Type}
  `{!Pending (PendingAuthCodeGrant (Url:=Url)) CA, !Pending PendingDeviceCodeGrant CD,
    !PendingLaws (PendingAuthCodeGrant (Url:=Url)) CA, !PendingLaws PendingDeviceCodeGrant CD}
  `{!Parsers, !Rooms, !KeyLibrary, !Server, !OAuthLibrary (ClientMetadata (Url:=Url)), !Json Device,
    !Json DehydratedDevice, !Json SessionInfo, !Json RefreshTokenInfo, !Json (ClientMetadata (Url:=Url)),
    !JsonLaws Device, !JsonLaws DehydratedDevice, !JsonLaws SessionInfo, !JsonLaws RefreshTokenInfo}.
Abbreviation State := (OAuth (CA:=CA) (CD:=CD)).
Implicit Types (s : State) (A : Auth) (x : who) (i : SessionInfo) (g : bytes * bytes).

Definition set_host (h : Host) s : State :=
  {| o_host := h; pending_auth_code_grants := pending_auth_code_grants s; pending_device_code_grants := pending_device_code_grants s |}.
Definition odb s : Db := hdb (o_host s).

Lemma expect_run {E B} (m : M B) s (a : B) h : m (o_host s) = (Ok a, h) →
  (expect_host m : eff State E B) s = (Ok a, set_host h s).
Proof. unfold expect_host. by intros ->. Qed.

(** ** Sessions in the database *)

Definition with_session A x i : Auth :=
  {| devices := devices A; tokens := tokens A; ends := ends A; sessions := <[x := i]> (sessions A) |}.

(** No other session has the refresh token. *)
Definition free_refresh A x (r : bytes) : Prop := ∀ y j, sessions A !! y = Some j → current_refresh_token j = r → y = x.

(** The session and its refresh token written, the old refresh token removed. *)
Definition session_written A x i (d : Db) : Db :=
  let d := Database.insert d userdeviceid_oauthsessioninfo (pair_key x.1 x.2) (to_json i) in
  let d := match sessions A !! x with
           | Some old => Database.remove d refreshtoken_refreshtokeninfo (current_refresh_token old)
           | None => d
           end in
  Database.insert d refreshtoken_refreshtokeninfo (current_refresh_token i) (refresh_info x i).

Lemma with_session_inv A x i d : AuthInv A d → is_Some (devices A !! x) → free_refresh A x (current_refresh_token i) →
  AuthInv (with_session A x i) (session_written A x i d).
Proof.
  intros Hinv Hd Hfree. pose proof (ai_names _ _ Hinv _ Hd) as Hx.
  pose proof Hinv as [Hd1 Hd2 Hd3 Hd4 Hd5 Hd6 Hd7 Hd8 Hd9 Hd10].
  assert (∀ c, c ≠ userdeviceid_oauthsessioninfo → c ≠ refreshtoken_refreshtokeninfo → session_written A x i d c = d c) as Hother.
  { intros c Hc1 Hc2. unfold session_written. rewrite insert_other by done.
    destruct (sessions A !! x); [rewrite remove_other by done|]; by rewrite insert_other. }
  split; cbn [with_session devices tokens ends sessions]; rewrite ?Hother by done; try done.
  - assert (session_written A x i d userdeviceid_oauthsessioninfo =
      <[pair_key x.1 x.2 := to_json i]> (d userdeviceid_oauthsessioninfo)) as ->.
    { unfold session_written. destruct (sessions A !! x); by dbs. }
    apply (rep_update_key (fun _ => to_json)); [done..|by apply (sessions_ok A d)].
  - assert (session_written A x i d refreshtoken_refreshtokeninfo =
      <[current_refresh_token i := refresh_info x i]>
        (forget_key (fun _ => current_refresh_token) (sessions A) x (d refreshtoken_refreshtokeninfo))) as ->.
    { unfold session_written, forget_key. destruct (sessions A !! x); by dbs. }
    apply (rep_insert (fun _ => current_refresh_token) refresh_info); [done|].
    intros y j Hne Hy Hk. by apply Hne, (Hfree y j).
  - intros y j [[<- _]|[_ Hy]]%lookup_insert_Some; [done|by apply (Hd10 y j)].
Qed.

(** What is granted: the tokens generated, to a device. *)
Definition tokens_ok g A x : Prop :=
  token_ok g.1 ∧ appservice_token g.1 = false ∧ free_token A x g.1 ∧ free_refresh A x g.2.

Definition granted_auth A x (now : Z) g i : Auth :=
  with_session (with_token A x g.1 (token_end now (new_access_token g))) x i.

Lemma max_age_nonneg g age : max_age (new_access_token g) = Some age → 0 ≤ age.
Proof. by intros [= <-]. Qed.

Lemma metadata_found A d x : AuthInv A d → who_ok x → get_device_metadata d x.1 x.2 = ok_or_fail NotFound (devices A !! x).
Proof.
  intros Hinv Hx. unfold get_device_metadata. rewrite qry_device. unfold get. destruct (devices A !! x) as [dev|] eqn:Hd.
  - rewrite (key_Some _ _ _ x dev (ai_devices _ _ Hinv) Hd). cbn [ok_or_fail ok_or]. by rewrite deserialized_written.
  - by rewrite (key_None _ _ _ x (ai_devices _ _ Hinv) Hd Hx (ai_names _ _ Hinv)).
Qed.

(** Writing the session of a device, with its refresh token. *)
Lemma create_session_run A s g now user scopes name cid dv : AuthInv A (odb s) → device_of scopes = Some dv →
  who_ok (user, dv) → devices A !! (user, dv) = None → status (odb s) user = Active → 0 ≤ now → tokens_ok g A (user, dv) →
  ∃ s', create_session g now user scopes name cid s = (Ok (response g scopes), s') ∧
  pending_auth_code_grants s' = pending_auth_code_grants s ∧ pending_device_code_grants s' = pending_device_code_grants s ∧
  AuthInv (granted_auth (with_device A (user, dv) (new_device now dv name None)) (user, dv) now g
    {| client_id := cid; Devices.scopes := scopes; current_refresh_token := g.2 |}) (odb s').
Proof.
  intros Hinv Hdv Hx Hnone Hst Hnow (Ht & Happ & Hft & Hfr). unfold create_session. rewrite Hdv, bind_gets_id.
  pose proof (metadata_found A (odb s) (user, dv) Hinv Hx) as Hm. cbn [fst snd] in Hm. unfold odb in Hm. rewrite Hm, Hnone.
  cbn [ok_or_fail ok_or is_ok].
  destruct (create_device_run A (o_host s) [] now user (Some dv) (new_access_token g) name None Hinv Hst Hx Hnow Ht Happ Hft
    (max_age_nonneg g)) as (h & Hrun & _ & Hinv1). cbn [default from_option] in *.
  rewrite (bind_run _ _ _ _ _ (expect_run _ s _ _ Hrun)). unfold device_key. set (i := Build_SessionInfo _ _ _).
  erewrite bind_run by (apply expect_run; cbn [o_host set_host]; apply run_put; [plain_records|apply serialize_json]).
  rewrite device_bytes.
  erewrite bind_run by (apply expect_run; cbn [o_host set_host]; apply run_raw_put, serialize_json).
  eexists. split; [done|]. split_and!; [done..|]. unfold granted_auth.
  eapply (with_session_inv _ (user, dv) i) in Hinv1; [|cbn; rewrite lookup_insert_eq; eauto|].
  - assert (sessions A !! (user, dv) = None) as Hs.
    { destruct (sessions A !! (user, dv)) eqn:Hs; [|done]. apply (ai_session _ _ Hinv) in Hs as [? ?]. congruence. }
    unfold session_written in Hinv1. cbn [with_token with_device sessions] in Hinv1. rewrite Hs in Hinv1. exact Hinv1.
  - intros y j Hy Hr. cbn in Hy. by apply (Hfr y j).
Qed.

(** Replacing the tokens of a session. *)
Lemma refresh_session_run A s g now x i : AuthInv A (odb s) → sessions A !! x = Some i → 0 ≤ now → tokens_ok g A x →
  let i' := {| client_id := client_id i; Devices.scopes := scopes i; current_refresh_token := g.2 |} in ∃ s',
  refresh_session g now (client_id i) (current_refresh_token i) s = (Ok (response g (scopes i)), s') ∧
  AuthInv (granted_auth A x now g i') (odb s').
Proof.
  intros Hinv Hi Hnow (Ht & Happ & Hft & Hfr) i'. pose proof (ai_session _ _ Hinv _ _ Hi) as Hd.
  pose proof (ai_names _ _ Hinv _ Hd) as Hx. unfold refresh_session. rewrite bind_gets_id. unfold odb in Hinv.
  unfold get at 1. rewrite (rep_Some _ _ _ _ x i (ai_refresh _ _ Hinv) Hi). cbn [ok_or_fail ok_or].
  unfold refresh_info. rewrite deserialized_written. cbn [ok rt_client_id rt_user_id rt_device_id].
  rewrite decide_False by tauto. rewrite (session_info_spec A) by done. rewrite Hi. rewrite decide_False by tauto.
  destruct (set_token_run A (o_host s) now x (new_access_token g) Hinv Hd Happ Hnow) as (h & Hrun & Hset).
  rewrite (bind_run _ _ _ _ _ (expect_run _ s _ _ Hrun)). unfold device_key.
  erewrite bind_run by (apply expect_run; cbn [o_host set_host]; apply run_put; [plain_records|apply serialize_json]).
  rewrite device_bytes. fold i'.
  erewrite bind_run by (by apply expect_run).
  erewrite bind_run by (apply expect_run; cbn [o_host set_host]; apply run_raw_put, serialize_json).
  eexists. split; [done|].
  eapply with_token_inv in Hset as Hinv1; [|done|done|done|done|intros n; apply token_end_u64; [done|apply max_age_nonneg]].
  eapply (with_session_inv _ x i') in Hinv1; [|done|].
  - unfold session_written in Hinv1. cbn [with_token sessions] in Hinv1. rewrite Hi in Hinv1. exact Hinv1.
  - intros y j Hy Hr. cbn in Hy. by apply (Hfr y j).
Qed.

Lemma unknown_refresh_token A s r : AuthInv A (odb s) → (∀ y j, sessions A !! y = Some j → current_refresh_token j ≠ r) →
  ∀ g now cid, refresh_session g now cid r s = (Err (Fail InvalidGrant), s).
Proof.
  intros Hinv Hr g now cid. unfold refresh_session. rewrite bind_gets_id. unfold get at 1.
  destruct (hdb (o_host s) refreshtoken_refreshtokeninfo !! r) eqn:Hl; [|done]. exfalso.
  apply (rep_lookup _ _ _ _ (ai_refresh _ _ Hinv)) in Hl as (y & j & Hy & Hk & _). by apply (Hr y j).
Qed.
(** A token granted leads to the device, for an hour. *)
Definition clock_ok A (now : Z) : Prop := 0 ≤ now ≤ i64_max ∧ ∀ y n, ends A !! y = Some n → n ≤ i64_max.

Lemma granted_end now g : 0 ≤ now ≤ i64_max → ∃ n, token_end now (new_access_token g) = Some n ∧
  n ≤ i64_max ∧ now ≤ n * SECOND.
Proof.
  intros Hnow. unfold token_end. cbn [max_age new_access_token fmap option_fmap option_map].
  assert ((now + ACCESS_TOKEN_MAX_AGE) / SECOND = now / SECOND + 3600) as ->.
  { change ACCESS_TOKEN_MAX_AGE with (3600 * SECOND). by apply Z.div_add. }
  pose proof (Z.div_mod now SECOND). pose proof (Z.mod_pos_bound now SECOND). unfold SECOND in *.
  assert (0 ≤ now / 1000000000 ≤ now) by (split; [apply Z.div_pos|apply Z.div_le_upper_bound]; lia).
  eexists. split; [done|]. rewrite Z.min_l by word. word.
Qed.

Lemma granted_token_leads A now g x i d : clock_ok A now → AuthInv (granted_auth A x now g i) d →
  find_from_token now d g.1 = Ok (Some (x.1, x.2, Valid)).
Proof.
  intros [Hnow Hends] Hinv. destruct (granted_end now g Hnow) as (n & He & Hn & Hlive). unfold granted_auth in Hinv. rewrite He in Hinv.
  assert (tokens (with_session (with_token A x g.1 (Some n)) x i) !! x = Some g.1) as Hx by (cbn; apply lookup_insert_eq).
  destruct (find_from_token_spec _ d now g.1 Hinv) as [Hf _].
  - by apply (ai_token _ _ Hinv) in Hx as (_ & _ & ?).
  - intros y m Hy. cbn in Hy. apply lookup_insert_Some in Hy as [[<- <-]|[_ Hy]]; [done|by eapply Hends].
  - rewrite (Hf x Hx). unfold expired. cbn. rewrite lookup_insert_eq. by rewrite decide_False by lia.
Qed.

Lemma create_session_inv g now user scopes name cid s resp s' :
  create_session g now user scopes name cid s = (Ok resp, s') → ∃ dv, device_of scopes = Some dv ∧
  is_ok (get_device_metadata (odb s) user dv) = false ∧ status (odb s) user = Active.
Proof.
  unfold create_session. destruct (device_of scopes) as [dv|]; [|done]. rewrite bind_gets_id. unfold odb.
  destruct (is_ok _) eqn:Hm; [done|]. intros (id & s1 & Hc & _)%bind_inv. exists dv. split_and!; [done..|].
  unfold expect_host, create_device in Hc. rewrite bind_gets_id in Hc.
  destruct (status _ user); [done| |done]. done.
Qed.

(** * Codes and refresh tokens *)

(** The client is known and may ask for this kind of grant. *)
Definition may_request s (cid : bytes) (t : GrantType) : Prop := ∃ m : ClientMetadata (Url:=Url),
  get_client_metadata (odb s) cid = Some m ∧ t ∈ grant_types m.

Lemma issue_token_allowed s g now cid request : may_request s cid (grant_type request) →
  issue_token (Url:=Url) g now cid request s = match request with
    | TAuthorizationCode code uri verifier => trade_code g now cid code uri verifier s
    | TDeviceCode code => trade_device_code g now cid code s
    | TRefreshToken r => refresh_session g now cid r s
    end.
Proof.
  intros (m & Hm & Ht). unfold issue_token. rewrite bind_gets_id. unfold odb in Hm. rewrite Hm.
  rewrite bool_decide_eq_true_2 by done. by destruct request.
Qed.

Lemma issue_token_Ok s g now cid request resp s' : issue_token (Url:=Url) g now cid request s = (Ok resp, s') →
  may_request s cid (grant_type request).
Proof.
  unfold issue_token. rewrite bind_gets_id. destruct (get_client_metadata _ cid) as [m|] eqn:Hm; [|done].
  destruct (bool_decide _) eqn:Ht; [|done]. apply bool_decide_eq_true in Ht. intros _. by exists m.
Qed.

(** What follows from a session that is created for what a user authorised. *)
Definition granted_to A s s' (now : Z) g (cid user : bytes) (scopes : list Scope) (name : option bytes) (resp : TokenResponse) : Prop :=
  ∃ dv, device_of scopes = Some dv ∧ resp = response g scopes ∧
  (who_ok (user, dv) → clock_ok A now → tokens_ok g A (user, dv) →
    devices A !! (user, dv) = None ∧
    AuthInv (granted_auth (with_device A (user, dv) (new_device now dv name None)) (user, dv) now g
      {| client_id := cid; Devices.scopes := scopes; current_refresh_token := g.2 |}) (odb s') ∧
    find_from_token now (odb s') g.1 = Ok (Some (user, dv, Valid))).

Lemma create_session_grants A s g now user scopes name cid resp s' : AuthInv A (odb s) →
  create_session g now user scopes name cid s = (Ok resp, s') →
  granted_to A s s' now g cid user scopes name resp.
Proof.
  intros Hinv Hrun. pose proof Hrun as Hc. apply create_session_inv in Hc as (dv & Hdv & Hm & Hst).
  assert (resp = response g scopes) as ->.
  { unfold create_session in Hrun. rewrite Hdv, bind_gets_id in Hrun. unfold odb in Hm. rewrite Hm in Hrun.
    do 3 (apply bind_inv in Hrun as (? & ? & _ & Hrun)). by injection Hrun as <- _. }
  exists dv. split_and!; [done..|]. intros Hx Hclock Hg.
  assert (devices A !! (user, dv) = None) as Hnone.
  { pose proof (metadata_found A (odb s) (user, dv) Hinv Hx) as Hd. cbn [fst snd] in Hd. rewrite Hd in Hm.
    by destruct (devices A !! (user, dv)). }
  destruct (create_session_run A s g now user scopes name cid dv Hinv Hdv Hx Hnone Hst ltac:(destruct Hclock; lia) Hg)
    as (s1 & Hrun1 & _ & _ & Hinv'). rewrite Hrun in Hrun1. injection Hrun1 as <-.
  split_and!; [done..|]. by apply (granted_token_leads (with_device A (user, dv) (new_device now dv name None)) now g (user, dv)) in Hinv'.
Qed.

Lemma expect_host_grants {E B} (m : M B) s : pending_auth_code_grants (expect_host m s : comp E B * State).2 = pending_auth_code_grants s ∧
  pending_device_code_grants (expect_host m s : comp E B * State).2 = pending_device_code_grants s.
Proof. unfold expect_host. by destruct (m _). Qed.

(** Creating a session leaves pending grants alone. *)
Definition same_grants s s' : Prop :=
  pending_auth_code_grants s' = pending_auth_code_grants s ∧ pending_device_code_grants s' = pending_device_code_grants s.
#[local] Instance same_grants_preorder : PreOrder same_grants.
Proof. split; [by intros s|]. intros s t u [] []. split; congruence. Qed.
Lemma create_session_same g now user scopes name cid : preserves same_grants (create_session g now user scopes name cid : eff State ErrorCode TokenResponse).
Proof.
  unfold create_session. preserve; intros s; apply expect_host_grants.
Qed.

Lemma trade_code_gone g now cid code uri verifier s :
  pending_get code (pending_auth_code_grants (trade_code (Url:=Url) g now cid code uri verifier s).2) = None.
Proof.
  unfold trade_code. rewrite bind_gets_id, bind_modify.
  assert (pending_get code (pending_remove code (pending_auth_code_grants s)) = None) as Hgone.
  { rewrite pending_get_remove. by rewrite decide_True. }
  destruct (pending_get code (pending_auth_code_grants s)) as [gr|]; [|done].
  destruct (negb _); [done|]. repeat (case_decide; [done|]).
  destruct (create_session_same g now (authorizing_user gr) (requested_scopes gr) (a_client_name gr) cid
    (set_auth_grants (pending_remove code) s)) as [Hs _]. by rewrite Hs.
Qed.

Lemma trade_code_none g now cid code uri verifier s : pending_get code (pending_auth_code_grants s) = None →
  (trade_code (Url:=Url) g now cid code uri verifier s).1 = Err (Fail InvalidGrant).
Proof. intros Hn. unfold trade_code. by rewrite bind_gets_id, bind_modify, Hn. Qed.
(** No refresh token is this one. *)
Definition d_get_none (d : Db) (t : bytes) : Prop := d refreshtoken_refreshtokeninfo !! t = None.

(** C27: Codes are traded once, for what was authorised.  An authorization code yields tokens only to the
  client it was issued to, within a minute, for the redirect URI and the verifier that it was
  requested for; they are for the user who authorised it and the device in the scopes, which did
  not exist, and the access token acts as that device.  A trade takes the code away whether
  it succeeds or not, so no later one succeeds.  A device code yields tokens only once a user has
  confirmed it, to that user's account, and then no more. *)
Theorem codes_traded_once (A : Auth) (s : State) (g : bytes * bytes) (now : Z) (cid code : bytes) (uri : Url)
    (verifier : bytes) (Hinv : AuthInv A (odb s)) :
  (∀ resp s', issue_token g now cid (TAuthorizationCode code uri verifier) s = (Ok resp, s') → ∃ gr,
    pending_get code (pending_auth_code_grants s) = Some gr ∧
    expected_client_id gr = cid ∧ requested_at gr ≤ now < requested_at gr + MINUTE ∧
    expected_redirect_uri gr = uri ∧ code_challenge gr = challenge_of verifier ∧
    granted_to A s s' now g cid (authorizing_user gr) (requested_scopes gr) (a_client_name gr) resp) ∧
  (may_request s cid GAuthorizationCode →
    let s' := (issue_token g now cid (TAuthorizationCode code uri verifier) s).2 in
    pending_get code (pending_auth_code_grants s') = None ∧
    ∀ g' now' cid' uri' verifier' resp,
      (issue_token g' now' cid' (TAuthorizationCode code uri' verifier') s').1 ≠ Ok resp) ∧
  (∀ resp s', issue_token (Url:=Url) g now cid (TDeviceCode code) s = (Ok resp, s') → ∃ gr user,
    pending_get code (pending_device_code_grants s) = Some gr ∧ d_state gr = Verified user ∧
    d_client_id gr = cid ∧ d_requested_at gr ≤ now < d_requested_at gr + MINUTE ∧
    granted_to A s s' now g cid user (d_requested_scopes gr) (d_client_name gr) resp ∧
    pending_get code (pending_device_code_grants s') = None).
Proof.
  split_and!.
  - intros resp s' Hrun. rewrite issue_token_allowed in Hrun by (eapply issue_token_Ok; exact Hrun).
    unfold trade_code in Hrun. rewrite bind_gets_id, bind_modify in Hrun.
    destruct (pending_get code _) as [gr|]; [|done]. exists gr. split; [done|].
    destruct (auth_grant_valid_for now cid gr) eqn:Hv; [|done]. cbn [negb] in Hrun.
    repeat (case_decide; [done|]). apply andb_true_iff in Hv as [Hc%bool_decide_eq_true Hy].
    apply Is_true_true, younger_spec in Hy. apply (create_session_grants A) in Hrun; [|done]. split_and!; first [done|lia|symmetry; by apply dec_stable|by apply dec_stable].
  - intros Hm. cbv zeta. rewrite issue_token_allowed by done. pose proof (trade_code_gone g now cid code uri verifier s) as Hgone.
    split; [done|]. intros g' now' cid' uri' verifier' resp Hok. destruct (issue_token _ _ _ _ _) as [r s2] eqn:Hrun.
    cbn [fst] in Hok. subst r. pose proof Hrun as Hr. rewrite issue_token_allowed in Hr by (eapply issue_token_Ok; exact Hrun).
    pose proof (trade_code_none g' now' cid' code uri' verifier' _ Hgone) as Hn. by rewrite Hr in Hn.
  - intros resp s' Hrun. rewrite issue_token_allowed in Hrun by (eapply issue_token_Ok; exact Hrun).
    unfold trade_device_code in Hrun. rewrite bind_gets_id, bind_modify in Hrun.
    destruct (pending_get code _) as [gr|]; [|done].
    destruct (device_grant_valid_for now cid gr) eqn:Hv; [|done]. cbn [negb] in Hrun.
    destruct (d_state gr) as [uc|user] eqn:Hst; [done|]. exists gr, user.
    apply andb_true_iff in Hv as [Hc%bool_decide_eq_true Hy]. apply Is_true_true, younger_spec in Hy.
    split_and!; [done..|lia|lia|by apply (create_session_grants A) in Hrun|].
    pose proof (create_session_same g now user (d_requested_scopes gr) (d_client_name gr) cid
      (set_device_grants (pending_remove code) s)) as [_ Hs]. rewrite Hrun in Hs. cbn [snd] in Hs. rewrite Hs.
    cbn. rewrite pending_get_remove. by rewrite decide_True.
Qed.

(** Refreshing rotates both tokens.  For the client of a session its refresh token yields a new access
  token, which acts as the device, and a new refresh token; the ones before are refused from then on,
  the access token even if it had not expired; all other devices and sessions are as before.  Either
  token of a session revokes it, with its device. *)
Theorem refresh_rotates (A : Auth) (s : State) (g : bytes * bytes) (now : Z) (x : who) (i : SessionInfo)
    (Hinv : AuthInv A (odb s)) (Hi : sessions A !! x = Some i) (Hclock : clock_ok A now) (Hg : tokens_ok g A x)
    (Hnew : g.2 ≠ current_refresh_token i) (Hm : may_request s (client_id i) GRefreshToken) :
  (∃ s', issue_token (Url:=Url) g now (client_id i) (TRefreshToken (current_refresh_token i)) s = (Ok (response g (scopes i)), s') ∧
    AuthInv (granted_auth A x now g {| client_id := client_id i; Devices.scopes := scopes i; current_refresh_token := g.2 |}) (odb s') ∧
    find_from_token now (odb s') g.1 = Ok (Some (x.1, x.2, Valid)) ∧
    (∀ t, tokens A !! x = Some t → t ≠ g.1 → find_from_token now (odb s') t = Ok None) ∧
    ∀ g' now' cid, refresh_session g' now' cid (current_refresh_token i) s' = (Err (Fail InvalidGrant), s')) ∧
  (∃ s', revoke_token now (current_refresh_token i) s = (Ok tt, s') ∧ AuthInv (drop_device A x) (odb s')) ∧
  (∀ t, tokens A !! x = Some t → d_get_none (odb s) t → ∃ s', revoke_token now t s = (Ok tt, s') ∧ AuthInv (drop_device A x) (odb s')).
Proof.
  pose proof (ai_session _ _ Hinv _ _ Hi) as Hd. pose proof (ai_names _ _ Hinv _ Hd) as Hx. split_and!.
  - destruct (refresh_session_run A s g now x i Hinv Hi ltac:(destruct Hclock; lia) Hg) as (s' & Hrun & Hinv').
    exists s'. rewrite issue_token_allowed by done. split_and!; [done|done|by eapply granted_token_leads| |].
    + intros t Ht Hne. pose proof (ai_token _ _ Hinv _ _ Ht) as (_ & _ & Hnil).
      unfold find_from_token. rewrite decide_False by done. unfold get.
      destruct (odb s' token_userdeviceid !! t) eqn:Hl; [|done]. exfalso.
      apply (rep_lookup _ _ _ _ (ai_owners _ _ Hinv')) in Hl as (y & t' & Hy & -> & _).
      cbn in Hy. apply lookup_insert_Some in Hy as [[<- <-]|[Hxy Hy]]; [done|].
      by apply Hxy, (rep_inj _ _ _ _ (ai_owners _ _ Hinv) x y t' t').
    + apply (unknown_refresh_token _ _ _ Hinv'). intros y j Hy Hj. cbn in Hy.
      apply lookup_insert_Some in Hy as [[<- <-]|[Hxy Hy]]; [done|].
      by apply Hxy, (rep_inj _ _ _ _ (ai_refresh _ _ Hinv) x y i j).
  - destruct (remove_device_run A (o_host s) x Hinv Hx) as (h & Hrun & Hinv' & _). exists (set_host h s). split; [|done].
    unfold revoke_token. rewrite bind_gets_id. unfold get at 1. unfold odb in Hinv.
    rewrite (rep_Some _ _ _ _ x i (ai_refresh _ _ Hinv) Hi). cbn [ok_or_fail ok_or].
    unfold refresh_info. rewrite deserialized_written. cbn [ok rt_client_id rt_user_id rt_device_id].
    by apply expect_run.
  - intros t Ht Hnone. destruct (remove_device_run A (o_host s) x Hinv Hx) as (h & Hrun & Hinv' & _).
    exists (set_host h s). split; [|done]. unfold revoke_token. rewrite bind_gets_id. unfold get at 1.
    unfold d_get_none, odb in Hnone. rewrite Hnone. cbn.
    destruct (find_from_token_spec A (odb s) now t Hinv) as [Hf _].
    { by apply (ai_token _ _ Hinv) in Ht as (_ & _ & ?). }
    { apply Hclock. }
    unfold odb in Hf. rewrite (Hf x Ht). by apply expect_run.
Qed.
End Spec.

(** * A client and its user *)
Module OAuthWitness.
#[local] Existing Instances example_parsers example_rooms example_keys example_server.
#[local] Instance js {A} `{Countable A} : Json A := countable_json.
#[local] Instance laws {A} `{Countable A} : JsonLaws A := example_laws.

(** URLs are strings without parts; grants are kept in maps that drop nothing. *)
#[local] Instance urls : UrlLibrary bytes := {|
  scheme _ := HTTPS; domain _ := Some []; host_str _ := None; port _ := None; username _ := []; OAuth.password _ := None;
  has_authority _ := false; without_port u := u |}.
#[local] Instance map_pending {V} : Pending V (gmap bytes V) := {|
  pending_entries m := map_to_list m;
  pending_insert k v m := <[k := v]> m;
  pending_remove k m := delete k m;
  pending_get k m := m !! k;
  pending_set k v m := match m !! k with Some _ => <[k := v]> m | None => m end |}.
#[local] Instance map_pending_laws {V} : PendingLaws V (gmap bytes V).
Proof.
  split; simpl.
  - intros k v c k' v' [[-> ->]|[? ?]]%lookup_insert_Some; auto.
  - intros k c k'. case_decide as Hk; [subst; apply lookup_delete_eq|by rewrite lookup_delete_ne by done].
  - intros k v c k'. destruct (c !! k) eqn:Hc; case_decide as Hk; subst; simpl;
      rewrite ?lookup_insert_eq, ?lookup_insert_ne, ?Hc by done; done.
Qed.
Definition client : ClientMetadata (Url:=bytes) := {|
  application_type := Web; client_name := None; client_uri := [];
  grant_types := [GAuthorizationCode; GDeviceCode; GRefreshToken];
  logo_uri := None; policy_uri := None; redirect_uris := [[117]]; response_types := [Code]; tos_uri := None |}.
#[local] Instance client_json : Json (ClientMetadata (Url:=bytes)) := {| to_json _ := []; from_json _ := Some client |}.
(** The scope "c" is the interface of clients, "d" and a name a device. *)
#[local] Instance oauth_library : OAuthLibrary (ClientMetadata (Url:=bytes)) := {|
  api_scope t := bool_decide (t = [99]);
  device_scope t := match t with 100 :: id => Some id | _ => None end;
  challenge_of v := 0 :: v;
  client_hash _ := [67] |}.

Definition start : OAuth (CA:=gmap bytes (PendingAuthCodeGrant (Url:=bytes))) (CD:=gmap bytes PendingDeviceCodeGrant) :=
  {| o_host := host0; pending_auth_code_grants := ∅; pending_device_code_grants := ∅ |}.
Definition query : AuthorizationCodeQuery (Url:=bytes) := {|
  response_type := Code; q_client_id := [67]; redirect_uri := [117]; scope := [99; 32; 100; 80]; state := [];
  response_mode := Query; q_code_challenge := [0; 5]; code_challenge_method := S256 |}.
(** The client registers, and the user authorises it for a device. *)
Definition authorised := ((_ ← register_client client; mret tt : eff _ ErrorCode unit) start).2.
Definition with_code := (request_authorization_code [1] 0 alice query authorised).2.
Definition tokens1 : bytes * bytes := ([115], [114]).
Definition tokens2 : bytes * bytes := ([116], [113]).
Definition no_one : Auth := {| devices := ∅; tokens := ∅; ends := ∅; sessions := ∅ |}.
Definition phone : who := (alice, [80]).
Definition scopes1 : list Scope := [ScopeDevice [80]; ScopeClientApi].
Definition trade := issue_token (Url:=bytes) tokens1 5 [67] (TAuthorizationCode [1] [117] [5]).

Lemma with_code_inv : AuthInv no_one (odb with_code).
Proof.
  split; cbn; try apply represents_empty; intros x.
  - intros [e He]. by rewrite lookup_empty in He.
  - intros t. by rewrite lookup_empty.
  - intros n. by rewrite lookup_empty.
  - intros i. by rewrite lookup_empty.
Qed.

Lemma no_one_tokens : tokens_ok tokens1 no_one phone.
Proof. split_and!; [done|done|intros y|intros y j]; cbn; by rewrite lookup_empty. Qed.
Lemma no_one_clock : clock_ok no_one 5.
Proof. split; [word|]. intros y n. cbn. by rewrite lookup_empty. Qed.

Lemma codes_traded_once_witness : ∃ s',
  trade with_code = (Ok (response tokens1 scopes1), s') ∧
  find_from_token 5 (odb s') [115] = Ok (Some (alice, [80], Valid)) ∧
  ∀ g now resp, (issue_token (Url:=bytes) g now [67] (TAuthorizationCode [1] [117] [5]) s').1 ≠ Ok resp.
Proof.
  destruct (codes_traded_once no_one with_code tokens1 5 [67] [1] [117] [5] with_code_inv) as (Htrade & Honce & _).
  assert ((trade with_code).1 = Ok (response tokens1 scopes1)) as Hr by (vm_compute; reflexivity).
  unfold trade in Hr |- *. destruct (issue_token _ _ _ _ with_code) as [r s'] eqn:Hrun. cbn [fst] in Hr. subst r.
  exists s'. split; [reflexivity|].
  destruct Honce as [_ Honce]; [exists client; split; [vm_compute; reflexivity|left]|]. cbn [snd] in Honce.
  destruct (Htrade _ _ eq_refl) as (gr & Hgr & _ & _ & _ & _ & dv & Hdv & _ & Hgrant).
  vm_compute in Hgr. injection Hgr as <-. injection Hdv as <-.
  destruct (Hgrant ltac:(by split) no_one_clock no_one_tokens) as (_ & _ & Hfind). split; [exact Hfind|].
  intros g now resp. apply Honce.
Defined.

(** The server after the trade. *)
Lemma with_session1 : ∃ (s : OAuth (CA:=gmap bytes (PendingAuthCodeGrant (Url:=bytes))) (CD:=gmap bytes PendingDeviceCodeGrant)) A i, AuthInv A (odb s) ∧ sessions A !! phone = Some i ∧ tokens A !! phone = Some [115] ∧
  clock_ok A 9 ∧ tokens_ok tokens2 A phone ∧ current_refresh_token i = [114] ∧ client_id i = [67] ∧ scopes i = scopes1 ∧
  may_request s [67] GRefreshToken.
Proof.
  destruct (codes_traded_once no_one with_code tokens1 5 [67] [1] [117] [5] with_code_inv) as (Htrade & _ & _).
  assert ((trade with_code).1 = Ok (response tokens1 scopes1)) as Hr by (vm_compute; reflexivity).
  unfold trade in Hr. destruct (issue_token _ _ _ _ with_code) as [r s'] eqn:Hrun. cbn [fst] in Hr. subst r.
  destruct (Htrade _ _ eq_refl) as (gr & Hgr & _ & _ & _ & _ & dv & Hdv & _ & Hgrant).
  vm_compute in Hgr. injection Hgr as <-. injection Hdv as <-.
  destruct (Hgrant ltac:(by split) no_one_clock no_one_tokens) as (_ & Hinv & _).
  exists s'. eexists _, _. split; [exact Hinv|]. split; [apply lookup_insert_eq|]. split; [apply lookup_insert_eq|].
  split; [split; [word|]|].
  { intros y n Hy. cbn in Hy. apply lookup_insert_Some in Hy as [[_ <-]|[_ Hy]]; [vm_compute; discriminate|].
    by rewrite lookup_empty in Hy. }
  split; [split_and!; [done|done| |]|].
  { intros y Hy. cbn in Hy. apply lookup_insert_Some in Hy as [[<- _]|[_ Hy]]; [done|]. by rewrite lookup_empty in Hy. }
  { intros y j Hy. cbn in Hy. apply lookup_insert_Some in Hy as [[<- _]|[_ Hy]]; [done|]. by rewrite lookup_empty in Hy. }
  split; [done|]. split; [done|]. split; [done|].
  assert (s' = (trade with_code).2) as -> by (unfold trade; by rewrite Hrun).
  exists client. split; [vm_compute; reflexivity|right; right; left].
Qed.

Lemma refresh_rotates_witness : ∃ (s s' : OAuth (CA:=gmap bytes (PendingAuthCodeGrant (Url:=bytes))) (CD:=gmap bytes PendingDeviceCodeGrant)),
  issue_token (Url:=bytes) tokens2 9 [67] (TRefreshToken [114]) s = (Ok (response tokens2 scopes1), s') ∧
  find_from_token 9 (odb s') [116] = Ok (Some (alice, [80], Valid)) ∧
  find_from_token 9 (odb s') [115] = Ok None.
Proof.
  destruct with_session1 as (s & A & i & Hinv & Hi & Ht & Hclock & Hg & Hr & Hc & Hsc & Hm). exists s.
  rewrite <-Hc in Hm.
  destruct (refresh_rotates A s tokens2 9 phone i Hinv Hi Hclock Hg ltac:(by rewrite Hr) Hm) as ((s' & Hrun & _ & Hnew & Hold & _) & _).
  rewrite Hr, Hc, Hsc in Hrun. exists s'. split; [exact Hrun|]. split; [exact Hnew|]. by apply (Hold [115]).
Defined.

(** Another client that presents the refresh token of a session makes the request panic. *)
Example others_refresh_token_panics :
  let s := (trade with_code).2 in
  let with_other := set_host (raw_put clientid_clientmetadata [68] (as_json client) (o_host s)).2 s in
  (issue_token (Url:=bytes) tokens2 9 [68] (TRefreshToken [114]) with_other).1 = Err Panicked.
Proof. vm_compute. reflexivity. Qed.

(** Scopes are compared by their kind where they are hashed, and by their device in the set. *)
Example two_devices_in_one_scope :
  to_scopes (split_at SPACE [100; 80; 32; 100; 81]) [] = Ok [ScopeDevice [80]; ScopeDevice [81]].
Proof. vm_compute. reflexivity. Qed.
End OAuthWitness.
