(* ===== verification/KeyBackups.v ===== *)
(** Backups of room keys: src/src/service/key_backups/mod.rs and the requests of
    src/src/api/client/backup.rs.

    A user has versions of a backup, each with its metadata and a tag that changes with it, and under a
    version the keys of sessions, by room.  Metadata and keys are JSON texts ([Raw]); who sends a
    request was found out before. *)

From stdpp Require Import prelude gmap sorting.
From Stdlib Require Import ZArith Lia.
From Stdlib.Strings Require Import Ascii.
From S2P Require Import Prelude Effects Bytes PduCount DbSer Database PairKeys Scans Tables Short Json Host.

Local Open Scope Z_scope.

(** [serde_json]: fields of a key's text.  [None] is an error, [Some None] a field that is not there. *)
Class KeyBackupData := {
  is_verified : bytes → option (option bool);
  first_message_index : bytes → option (option Z);
  forwarded_count : bytes → option (option Z);
}.

(** [u64::to_string]. *)
Definition to_string (n : Z) : bytes :=
  (fun a => Z.of_N (N_of_ascii a)) <$> String.list_ascii_of_string (decimal 20 n String.EmptyString).

Section KeyBackups.
Context `{!Parsers, !KeyBackupData}.

Definition version_key (user_id version : bytes) : value := VTuple [VStr user_id; VStr version].
Definition session_key (user_id version room_id session_id : bytes) : value :=
  VTuple [VStr user_id; VStr version; VStr room_id; VStr session_id].
Definition version_prefix (user_id version : bytes) : value := VTuple [VStr user_id; VStr version; VInterfix].
Definition room_prefix (user_id version room_id : bytes) : value :=
  VTuple [VStr user_id; VStr version; VStr room_id; VInterfix].

(** Whether a query fails; a panic stays one. *)
Definition has_backup (d : Db) (user_id version : bytes) : comp db_error bool :=
  match qry d backupid_algorithm (version_key user_id version) with
  | Ok _ => Ok true
  | Err (Fail _) => Ok false
  | Err e => Err e
  end.

(** ** Versions *)

(** @src src/src/service/key_backups/mod.rs:50-64 Service::create_backup *)
Definition create_backup (user_id backup_metadata : bytes) : M bytes :=
  n ← next;
  let version := to_string n in
  count ← next;
  let key := version_key user_id version in
  _ ← put backupid_algorithm key (VJson backup_metadata);
  _ ← put backupid_etag key (VU64 count);
  mret version.

(** @src src/src/service/key_backups/mod.rs:66-80 Service::delete_backup *)
Definition delete_backup (user_id version : bytes) : M unit :=
  let key := version_key user_id version in
  _ ← del backupid_algorithm key;
  _ ← del backupid_etag key;
  remove_prefix backupkeyid_backup (version_prefix user_id version).

(** @src src/src/service/key_backups/mod.rs:82-100 Service::update_backup *)
Definition update_backup (user_id version backup_metadata : bytes) : M bytes :=
  let key := version_key user_id version in
  known ← reads (fun d => has_backup d user_id version);
  if negb known then fail NotFound
  else
    count ← next;
    _ ← put backupid_etag key (VU64 count);
    _ ← put_raw backupid_algorithm key backup_metadata;
    mret version.

Definition version_of (v : value) : option (bytes * bytes) :=
  match v with VTuple [VStr user; VStr version] => Some (user, version) | _ => None end.

(** The last key of the user's.
    @src src/src/service/key_backups/mod.rs:102-115 Service::get_latest_backup_version *)
Definition get_latest_backup_version (d : Db) (user_id : bytes) : comp db_error bytes :=
  l ← rev_keys_from (TTuple [TStr; TStr]) d backupid_algorithm (VTuple [VStr user_id; VU64 u64_max]);
  ok_or_fail NotFound (snd <$> head (take_while (fun key => key.1 = user_id) (omap version_of (ignore_err l)))).

(** @src src/src/database/map/rev_stream_from.rs:20-31 Map::rev_stream_from *)
Definition rev_stream_from (kt vt : ty) (d : Db) (c : column) (from : value) :
    comp db_error (list (comp db_error (value * value))) :=
  key ← expect_ok (serialize_to_vec from); Ok (map (deserialize_kv kt vt) (rev_raw_stream_from d c key)).

Definition version_item (kv : value * value) : option (bytes * bytes * bytes) :=
  match version_of kv.1, kv.2 with Some key, VJson text => Some (key, text) | _, _ => None end.

(** @src src/src/service/key_backups/mod.rs:117-134 Service::get_latest_backup *)
Definition get_latest_backup (d : Db) (user_id : bytes) : comp db_error (bytes * bytes) :=
  l ← rev_stream_from (TTuple [TStr; TStr]) TJson d backupid_algorithm (VTuple [VStr user_id; VU64 u64_max]);
  ok_or_fail NotFound ((fun item => (item.1.2, item.2)) <$>
    head (take_while (fun item => item.1.1 = user_id) (omap version_item (ignore_err l)))).

(** A text that is JSON. *)
Definition raw_text (r : comp db_error value) : comp db_error bytes :=
  v ← r; match v with VJson text => Ok text | _ => Err (Fail SerdeDe) end.

(** @src src/src/service/key_backups/mod.rs:136-143 Service::get_backup *)
Definition get_backup (d : Db) (user_id version : bytes) : comp db_error bytes :=
  raw_text (deserialized TJson (qry d backupid_algorithm (version_key user_id version))).

(** It panics for a version without a tag.
    @src src/src/service/key_backups/mod.rs:178-188 Service::get_etag *)
Definition get_etag (d : Db) (user_id version : bytes) : comp db_error bytes :=
  match deserialized TU64 (qry d backupid_etag (version_key user_id version)) with
  | Ok (VU64 n) => Ok (to_string n)
  | _ => Err Panicked
  end.

(** ** Keys *)

(** @src src/src/service/key_backups/mod.rs:145-167 Service::add_key *)
Definition add_key (user_id version room_id session_id key_data : bytes) : M unit :=
  known ← reads (fun d => has_backup d user_id version);
  if negb known then fail NotFound
  else
    count ← next;
    _ ← put backupid_etag (version_key user_id version) (VU64 count);
    put_raw backupkeyid_backup (session_key user_id version room_id session_id) key_data.

(** @src src/src/service/key_backups/mod.rs:169-176 Service::count_keys *)
Definition count_keys (d : Db) (user_id version : bytes) : comp db_error nat :=
  l ← keys_prefix_raw d backupkeyid_backup (version_key user_id version); Ok (length l).

Definition key_item (kv : value * value) : option (bytes * bytes * bytes) :=
  match kv with
  | (VTuple [VIgnore; VIgnore; VStr room_id; VStr session_id], VJson text) => Some (room_id, session_id, text)
  | _ => None
  end.

Definition insert_key (rooms : gmap bytes (gmap bytes bytes)) (item : bytes * bytes * bytes) :
    gmap bytes (gmap bytes bytes) :=
  <[item.1.1 := <[item.1.2 := item.2]> (default ∅ (rooms !! item.1.1))]> rooms.

(** @src src/src/service/key_backups/mod.rs:190-216 Service::get_all *)
Definition get_all (d : Db) (user_id version : bytes) : comp db_error (gmap bytes (gmap bytes bytes)) :=
  l ← stream_prefix (TTuple [TIgnore; TIgnore; TStr; TStr]) TJson d backupkeyid_backup (version_prefix user_id version);
  Ok (foldl insert_key ∅ (omap key_item (ignore_err l))).

Definition room_item (kv : value * value) : option (bytes * bytes) :=
  match kv with
  | (VTuple [VIgnore; VIgnore; VIgnore; VStr session_id], VJson text) => Some (session_id, text)
  | _ => None
  end.

(** @src src/src/service/key_backups/mod.rs:218-236 Service::get_room *)
Definition get_room (d : Db) (user_id version room_id : bytes) : comp db_error (gmap bytes bytes) :=
  l ← stream_prefix (TTuple [TIgnore; TIgnore; TIgnore; TStr]) TJson d backupkeyid_backup
        (room_prefix user_id version room_id);
  Ok (foldl (fun m item => <[item.1 := item.2]> m) ∅ (omap room_item (ignore_err l))).

(** @src src/src/service/key_backups/mod.rs:238-248 Service::get_session *)
Definition get_session (d : Db) (user_id version room_id session_id : bytes) : comp db_error bytes :=
  raw_text (deserialized TJson (qry d backupkeyid_backup (session_key user_id version room_id session_id))).

(** @src src/src/service/key_backups/mod.rs:250-258 Service::delete_all_keys *)
Definition delete_all_keys (user_id version : bytes) : M unit :=
  remove_prefix backupkeyid_backup (version_prefix user_id version).

(** @src src/src/service/key_backups/mod.rs:260-270 Service::delete_room_keys *)
Definition delete_room_keys (user_id version room_id : bytes) : M unit :=
  remove_prefix backupkeyid_backup (room_prefix user_id version room_id).

(** The keys that start as the session's does.
    @src src/src/service/key_backups/mod.rs:272-288 Service::delete_room_key *)
Definition delete_room_key (user_id version room_id session_id : bytes) : M unit :=
  remove_prefix backupkeyid_backup (session_key user_id version room_id session_id).

(** ** Requests *)

(** @src src/src/api/client/backup.rs:397-412 get_count_etag *)
Definition get_count_etag (d : Db) (sender_user version : bytes) : comp db_error (nat * bytes) :=
  count ← count_keys d sender_user version; etag ← get_etag d sender_user version; Ok (count, etag).

(** A request for a version that is not the latest is refused.
    @src src/src/api/client/backup.rs:123-132 add_backup_keys_route *)
Definition check_latest (sender_user version : bytes) : M unit :=
  d ← gets hdb;
  match get_latest_backup_version d sender_user with
  | Ok latest => if decide (latest ≠ version) then fail InvalidParam else mret tt
  | Err (Fail _) => mret tt
  | Err e => pure (Err e)
  end.

(** @src src/src/api/client/backup.rs:117-146 add_backup_keys_route *)
Definition add_backup_keys_route (sender_user version : bytes) (rooms : list (bytes * list (bytes * bytes))) :
    M (nat * bytes) :=
  _ ← check_latest sender_user version;
  _ ← for_each (fun room =>
        for_each (fun session => add_key sender_user version room.1 session.1 session.2) room.2) rooms;
  reads (fun d => get_count_etag d sender_user version).

(** @src src/src/api/client/backup.rs:156-183 add_backup_keys_for_room_route *)
Definition add_backup_keys_for_room_route (sender_user version room_id : bytes) (sessions : list (bytes * bytes)) :
    M (nat * bytes) :=
  _ ← check_latest sender_user version;
  _ ← for_each (fun session => add_key sender_user version room_id session.1 session.2) sessions;
  reads (fun d => get_count_etag d sender_user version).

(** [js_int::UInt::MAX]. *)
Definition uint_max : Z := 2 ^ 53 - 1.

(** Whether a key that is there may be replaced: a field that the new one has to have is missing, or one cannot be read, otherwise.
    @src src/src/api/client/backup.rs:218-266 add_backup_keys_for_session_route *)
Definition ok_to_replace (old_key new_key : bytes) : comp db_error bool :=
  old_is_verified ← ok_or_fail InvalidParam (is_verified old_key);
  let old_is_verified := default false old_is_verified in
  new_is_verified ← ok_or_fail InvalidParam (mjoin (is_verified new_key));
  if decide (old_is_verified ≠ new_is_verified) then Ok (negb old_is_verified)
  else
    old_index ← ok_or_fail InvalidParam (first_message_index old_key);
    new_index ← ok_or_fail InvalidParam (mjoin (first_message_index new_key));
    match Z.compare new_index (default uint_max old_index) with
    | Lt => Ok true
    | Gt => Ok false
    | Eq =>
        old_count ← ok_or_fail InvalidParam (forwarded_count old_key);
        new_count ← ok_or_fail InvalidParam (mjoin (forwarded_count new_key));
        Ok (bool_decide (new_count < default uint_max old_count))
    end.

(** @src src/src/api/client/backup.rs:193-285 add_backup_keys_for_session_route *)
Definition add_backup_keys_for_session_route (sender_user version room_id session_id session_data : bytes) :
    M (nat * bytes) :=
  _ ← check_latest sender_user version;
  d ← gets hdb;
  replace ← pure match get_session d sender_user version room_id session_id with
                 | Ok old_key => ok_to_replace old_key session_data
                 | Err (Fail _) => Ok true
                 | Err e => Err e
                 end;
  _ ← (if replace : bool then add_key sender_user version room_id session_id session_data else mret tt);
  reads (fun d => get_count_etag d sender_user version).

(** @src src/src/api/client/backup.rs:343-357 delete_backup_keys_route *)
Definition delete_backup_keys_route (sender_user version : bytes) : M (nat * bytes) :=
  _ ← delete_all_keys sender_user version;
  reads (fun d => get_count_etag d sender_user version).

(** @src src/src/api/client/backup.rs:362-376 delete_backup_keys_for_room_route *)
Definition delete_backup_keys_for_room_route (sender_user version room_id : bytes) : M (nat * bytes) :=
  _ ← delete_room_keys sender_user version room_id;
  reads (fun d => get_count_etag d sender_user version).

(** @src src/src/api/client/backup.rs:381-395 delete_backup_keys_for_session_route *)
Definition delete_backup_keys_for_session_route (sender_user version room_id session_id : bytes) : M (nat * bytes) :=
  _ ← delete_room_key sender_user version room_id session_id;
  reads (fun d => get_count_etag d sender_user version).

(** @src src/src/api/client/backup.rs:52-67 get_latest_backup_info_route *)
Definition get_latest_backup_info_route (d : Db) (sender_user : bytes) : comp db_error (bytes * bytes * (nat * bytes)) :=
  '(version, algorithm) ← match get_latest_backup d sender_user with
                          | Err (Fail _) => Err (Fail NotFound)
                          | r => r
                          end;
  count_etag ← get_count_etag d sender_user version;
  Ok (version, algorithm, count_etag).

(** @src src/src/api/client/backup.rs:72-89 get_backup_info_route *)
Definition get_backup_info_route (d : Db) (sender_user version : bytes) : comp db_error (bytes * (nat * bytes)) :=
  algorithm ← match get_backup d sender_user version with Err (Fail _) => Err (Fail NotFound) | r => r end;
  count_etag ← get_count_etag d sender_user version;
  Ok (algorithm, count_etag).
End KeyBackups.

(** * Backups of room keys are two maps: the versions of a user's backup, with metadata and tag, and the
    keys of sessions under a version.  A key is kept only under a version that exists, and only a better
    key takes the place of one. *)

Local Open Scope Z_scope.

(** ** Version names *)

Lemma digits_below s : string_forall is_digit s →
  Forall (fun b => 0 ≤ b < 128) ((fun a => Z.of_N (N_of_ascii a)) <$> String.list_ascii_of_string s).
Proof.
  induction s as [|a s IH]; [constructor|]. simpl. rewrite andb_True. intros [Ha Hs].
  constructor; [|by apply IH]. unfold is_digit in Ha. apply Is_true_true, andb_true_iff in Ha as [_ Ha%N.leb_le].
  assert (N_of_ascii "9" = 57)%N as Hn by done. lia.
Qed.

Lemma ascii_utf8 l : Forall (fun b => 0 ≤ b < 128) l → valid_utf8 l.
Proof.
  induction 1 as [|b l Hb Hl IH]; [done|]. simpl.
  assert (utf8_first b = Some (0%nat, (128, 191))) as ->; [|done].
  unfold utf8_first, in_range. by destruct (Z.leb_spec 0 b), (Z.leb_spec b 127); simpl; try lia.
Qed.

Lemma to_string_utf8 n : 0 ≤ n → valid_utf8 (to_string n).
Proof. intros Hn. by apply ascii_utf8, digits_below, decimal_digits. Qed.

Lemma to_string_inj n m : is_u64 n → is_u64 m → to_string n = to_string m → n = m.
Proof.
  intros Hn Hm Heq. assert (decimal 20 n String.EmptyString = decimal 20 m String.EmptyString) as Hd.
  { unfold to_string in Heq. revert Heq. generalize (decimal 20 n String.EmptyString) (decimal 20 m String.EmptyString).
    intros s. induction s as [|a s IH]; intros [|b t] Heq; simplify_eq/=; [done|].
    f_equal; [|by apply IH].
    rewrite <-(ascii_N_embedding a), <-(ascii_N_embedding b). f_equal. lia. }
  assert (∀ k, is_u64 k → parse_digits 0 (decimal 20 k String.EmptyString) = Some k) as Hp.
  { intros k Hk. rewrite parse_decimal; [done|lia|]. simpl. word. }
  apply Hp in Hn, Hm. congruence.
Qed.

(** ** Backups as maps *)

Abbreviation version_name := (bytes * bytes)%type.
Abbreviation session_name := (bytes * bytes * bytes * bytes)%type.

Record Backups := {
  versions : gmap version_name (bytes * Z); (** metadata and tag *)
  keys : gmap session_name bytes;
}.

Section Spec.
Context `{!Parsers, !KeyBackupData}.

Definition version_bytes (x : version_name) (_ : bytes * Z) : bytes := pair_key x.1 x.2.
Definition session_bytes (x : session_name) (_ : bytes) : bytes :=
  tuple_bytes [VStr x.1.1.1; VStr x.1.1.2; VStr x.1.2; VStr x.2].

Definition version_ok (x : version_name) : Prop := valid_utf8 x.1 ∧ valid_utf8 x.2.
Definition session_ok (x : session_name) : Prop :=
  valid_utf8 x.1.1.1 ∧ valid_utf8 x.1.1.2 ∧ valid_utf8 x.1.2 ∧ valid_utf8 x.2.
Definition text_ok (t : bytes) : Prop := valid_utf8 t ∧ json_ok t.

Record BackupsInv (A : Backups) (s : Host) : Prop := {
  bi_metadata : Represents version_bytes (fun _ e => e.1) (versions A) (hdb s backupid_algorithm);
  bi_etags : Represents version_bytes (fun _ e => u64_to_be e.2) (versions A) (hdb s backupid_etag);
  bi_keys : Represents session_bytes (fun _ t => t) (keys A) (hdb s backupkeyid_backup);
  bi_version x e : versions A !! x = Some e → version_ok x ∧ text_ok e.1 ∧ 0 < e.2 ≤ counter (world s) ∧
    ∃ n, x.2 = to_string n ∧ 0 < n ≤ counter (world s);
  bi_key x t : keys A !! x = Some t → session_ok x ∧ text_ok t ∧ is_Some (versions A !! x.1.1);
  bi_counter : is_u64 (counter (world s));
}.

Lemma version_bytes_inj x y e e' : version_ok x → version_ok y → version_bytes x e = version_bytes y e' → x = y.
Proof.
  destruct x, y. intros [? ?] [? ?] Heq. unfold version_bytes in Heq. simpl in *.
  apply pair_key_inj in Heq as [-> ->]; done.
Qed.

Lemma session_bytes_pair x t :
  session_bytes x t = pair_key x.1.1.1 (pair_key x.1.1.2 (pair_key x.1.2 x.2)).
Proof. unfold session_bytes, tuple_bytes, trail, pair_key. simpl. by rewrite app_nil_r. Qed.

Lemma session_bytes_inj x y t t' : session_ok x → session_ok y → session_bytes x t = session_bytes y t' → x = y.
Proof.
  destruct x as [[[u v] r] k], y as [[[u' v'] r'] k']. intros (?&?&?&?) (?&?&?&?) Heq.
  rewrite !session_bytes_pair in Heq. simpl in *.
  apply pair_first_utf8 in Heq as [-> Heq]; [|done..]. apply pair_first_utf8 in Heq as [-> Heq]; [|done..].
  apply pair_first_utf8 in Heq as [-> ->]; done.
Qed.

Lemma pair_key_app (a b w : bytes) : pair_key a b ++ w = pair_key a (b ++ w).
Proof. unfold pair_key. by rewrite <-(assoc_L (++)). Qed.

(** A pair starts as one with the same first. *)
Lemma prefix_pair_key a a' b b' : valid_utf8 a → valid_utf8 a' →
  pair_key a b `prefix_of` pair_key a' b' ↔ a = a' ∧ b `prefix_of` b'.
Proof.
  intros Ha Ha'. split.
  - intros [w Hw]. rewrite pair_key_app in Hw. apply pair_first_utf8 in Hw as [-> ->]; [|done..].
    split; [done|by apply prefix_app_r].
  - intros [-> [w ->]]. rewrite <-pair_key_app. by apply prefix_app_r.
Qed.

(** The prefixes of a version and of a room. *)
Lemma version_prefix_spec u v x t : valid_utf8 u → valid_utf8 v → session_ok x →
  tuple_bytes [VStr u; VStr v; VInterfix] `prefix_of` session_bytes x t ↔ x.1.1 = (u, v).
Proof.
  intros Hu Hv Hx. change [VStr u; VStr v; VInterfix] with ([VStr u; VStr v] ++ [VInterfix]).
  rewrite interfix_bytes, device_bytes by done. destruct x as [[[u' v'] r] k]. destruct Hx as (?&?&?&?).
  rewrite session_bytes_pair, pair_key_app. change (v ++ [SEP]) with (pair_key v []). simpl in *.
  rewrite !prefix_pair_key by done. split; [|intros [= -> ->]; split_and!; try done; apply prefix_nil]. naive_solver.
Qed.

Lemma room_prefix_spec u v r x t : valid_utf8 u → valid_utf8 v → valid_utf8 r → session_ok x →
  tuple_bytes [VStr u; VStr v; VStr r; VInterfix] `prefix_of` session_bytes x t ↔ x.1 = (u, v, r).
Proof.
  intros Hu Hv Hr Hx. change [VStr u; VStr v; VStr r; VInterfix] with ([VStr u; VStr v; VStr r] ++ [VInterfix]).
  rewrite interfix_bytes by done. destruct x as [[[u' v'] r'] k]. destruct Hx as (?&?&?&?).
  assert (tuple_bytes [VStr u; VStr v; VStr r] = pair_key u (pair_key v r)) as ->.
  { unfold tuple_bytes, trail, pair_key. simpl. by rewrite app_nil_r. }
  rewrite session_bytes_pair, !pair_key_app. change (r ++ [SEP]) with (pair_key r []). simpl in *.
  rewrite !prefix_pair_key by done. split; [|intros [= -> -> ->]; split_and!; try done; apply prefix_nil]. naive_solver.
Qed.

(** ** Reading *)

Lemma version_lookup A s (vf : version_name → bytes * Z → bytes) (c : column) u v :
  BackupsInv A s → valid_utf8 u → valid_utf8 v → Represents version_bytes vf (versions A) (hdb s c) →
  hdb s c !! pair_key u v = vf (u, v) <$> versions A !! (u, v).
Proof.
  intros Hinv Hu Hv Hr. destruct (versions A !! (u, v)) as [e|] eqn:HA; simpl.
  - apply (rep_Some _ _ _ _ (u, v) e Hr HA).
  - apply (rep_None version_bytes vf _ _ (u, v) ([], 0) Hr HA). intros y e' Hy Hk.
    apply (bi_version A s Hinv) in Hy as (Hok & _). by eapply version_bytes_inj.
Qed.

Lemma session_lookup A s x : BackupsInv A s → session_ok x →
  hdb s backupkeyid_backup !! session_bytes x [] = keys A !! x.
Proof.
  intros Hinv Hx. destruct (keys A !! x) as [t|] eqn:HA.
  - apply (rep_Some _ _ _ _ x t (bi_keys A s Hinv) HA).
  - apply (rep_None session_bytes (fun _ t => t) _ _ x [] (bi_keys A s Hinv) HA). intros y t Hy Hk.
    apply (bi_key A s Hinv) in Hy as (Hok & _). by eapply session_bytes_inj.
Qed.

Lemma has_backup_spec A s u v : BackupsInv A s → valid_utf8 u → valid_utf8 v →
  has_backup (hdb s) u v = Ok (bool_decide (is_Some (versions A !! (u, v)))).
Proof.
  intros Hinv Hu Hv. unfold has_backup, version_key. rewrite qry_tuple by plain_records. rewrite device_bytes. unfold get.
  rewrite (version_lookup A s (fun _ e => e.1)) by (done || apply Hinv).
  by destruct (versions A !! (u, v)).
Qed.

Lemma get_session_spec A s u v r k : BackupsInv A s → session_ok (u, v, r, k) →
  get_session (hdb s) u v r k = ok_or_fail NotFound (keys A !! (u, v, r, k)).
Proof.
  intros Hinv Hx. unfold get_session, session_key. rewrite qry_tuple by plain_records. unfold get.
  change (tuple_bytes _) with (session_bytes (u, v, r, k) []). rewrite (session_lookup A) by done.
  destruct (keys A !! (u, v, r, k)) as [t|] eqn:HA; [|done]. simpl.
  apply (bi_key A s Hinv) in HA as (_ & [Ht Hj] & _). by rewrite from_slice_json_text.
Qed.

Lemma get_backup_spec A s u v : BackupsInv A s → valid_utf8 u → valid_utf8 v →
  get_backup (hdb s) u v = ok_or_fail NotFound (fst <$> versions A !! (u, v)).
Proof.
  intros Hinv Hu Hv. unfold get_backup, version_key. rewrite qry_tuple by plain_records. rewrite device_bytes. unfold get.
  rewrite (version_lookup A s (fun _ e => e.1)) by (done || apply Hinv).
  destruct (versions A !! (u, v)) as [e|] eqn:HA; [|done]. simpl.
  apply (bi_version A s Hinv) in HA as (_ & [Ht Hj] & _). by rewrite from_slice_json_text.
Qed.

(** A version's tag; a version that does not exist makes the request panic. *)
Lemma get_etag_spec A s u v : BackupsInv A s → valid_utf8 u → valid_utf8 v →
  get_etag (hdb s) u v = match versions A !! (u, v) with Some e => Ok (to_string e.2) | None => Err Panicked end.
Proof.
  intros Hinv Hu Hv. unfold get_etag, version_key. rewrite qry_tuple by plain_records. rewrite device_bytes. unfold get.
  rewrite (version_lookup A s (fun _ e => u64_to_be e.2)) by (done || apply Hinv).
  destruct (versions A !! (u, v)) as [e|] eqn:HA; [|done].
  apply (bi_version A s Hinv) in HA as (_ & _ & He & _). pose proof (bi_counter A s Hinv).
  cbn [fmap option_fmap option_map ok_or_fail ok_or]. unfold deserialized. cbn [mbind result_bind].
  by rewrite from_slice_u64 by word.
Qed.

(** ** Writing *)

Definition with_versions (m : gmap version_name (bytes * Z)) (A : Backups) : Backups := {| versions := m; keys := keys A |}.
Definition with_keys (m : gmap session_name bytes) (A : Backups) : Backups := {| versions := versions A; keys := m |}.

(** Columns that stay; a counter that grows. *)
Lemma inv_grows A s s' : BackupsInv A s → counter (world s) ≤ counter (world s') → is_u64 (counter (world s')) →
  hdb s' backupid_algorithm = hdb s backupid_algorithm → hdb s' backupid_etag = hdb s backupid_etag →
  hdb s' backupkeyid_backup = hdb s backupkeyid_backup → BackupsInv A s'.
Proof.
  intros [Hm He Hk Hv Hs Hc] Hle Hc' Ha Hb Hd. split; [by rewrite ?Ha|by rewrite ?Hb|by rewrite ?Hd| |done|done].
  intros x e Hx. destruct (Hv x e Hx) as (? & ? & ? & n & -> & ?). split_and!; [done|done|lia|lia|]. exists n. split; [done|lia].
Qed.

(** A version gets metadata and a tag. *)
Lemma version_written A s s' u v meta etag : BackupsInv A s → version_ok (u, v) → text_ok meta →
  0 < etag ≤ counter (world s) → (∃ n, v = to_string n ∧ 0 < n ≤ counter (world s)) →
  counter (world s') = counter (world s) →
  hdb s' backupid_algorithm = <[pair_key u v := meta]> (hdb s backupid_algorithm) →
  hdb s' backupid_etag = <[pair_key u v := u64_to_be etag]> (hdb s backupid_etag) →
  hdb s' backupkeyid_backup = hdb s backupkeyid_backup →
  BackupsInv (with_versions (<[(u, v) := (meta, etag)]> (versions A)) A) s'.
Proof.
  intros [Hm He Hk Hv Hs Hc] Hok Hmeta Hetag Hn Hcount Ha Hb Hd. split; cbn [with_versions versions keys].
  - rewrite Ha. apply (rep_update version_bytes (fun _ e => e.1) _ _ (u, v) (meta, etag) Hm); [|done].
    intros y e' [Hy _]%Hv. by apply version_bytes_inj.
  - rewrite Hb. apply (rep_update version_bytes (fun _ e => u64_to_be e.2) _ _ (u, v) (meta, etag) He); [|done].
    intros y e' [Hy _]%Hv. by apply version_bytes_inj.
  - by rewrite Hd.
  - rewrite Hcount. intros x e [[<- <-]|[_ Hx]]%lookup_insert_Some; [done|by apply Hv].
  - intros x t (? & ? & ?)%Hs. split_and!; [done..|]. simpl. destruct (decide (x.1.1 = (u, v))) as [->|Hne].
    + by rewrite lookup_insert_eq.
    + by rewrite lookup_insert_ne.
  - by rewrite Hcount.
Qed.

Lemma next_inv A s : BackupsInv A s → counter (world s) < u64_max → ∃ s1,
  next s = (Ok (counter (world s) + 1), s1) ∧ BackupsInv A s1 ∧ counter (world s1) = counter (world s) + 1.
Proof.
  intros Hinv Hlt. pose proof (bi_counter A s Hinv). unfold next, next_count, checked_u64.
  rewrite decide_True by word. cbn [default]. eexists. split; [done|]. split; [|done].
  apply (inv_grows A s); cbn; [done|lia|word|by dbs..].
Qed.

Lemma create_backup_run A s u meta : BackupsInv A s → valid_utf8 u → text_ok meta → counter (world s) + 1 < u64_max →
  let v := to_string (counter (world s) + 1) in ∃ s',
  create_backup u meta s = (Ok v, s') ∧ versions A !! (u, v) = None ∧ counter (world s') = counter (world s) + 2 ∧
  BackupsInv (with_versions (<[(u, v) := (meta, counter (world s) + 2)]> (versions A)) A) s'.
Proof.
  intros Hinv Hu Hmeta Hlt v. pose proof (bi_counter A s Hinv) as Hc.
  destruct (next_inv A s Hinv) as (s1 & Hn1 & Hinv1 & Hc1); [lia|].
  destruct (next_inv A s1 Hinv1) as (s2 & Hn2 & Hinv2 & Hc2); [lia|].
  unfold create_backup, version_key. rewrite (bind_run _ _ _ _ _ Hn1), (bind_run _ _ _ _ _ Hn2). fold v.
  assert (serialize None (VJson meta) = Ok meta) as Hj by (unfold serialize; cbn [serialize_value]; by rewrite write_vec).
  assert (∀ n, serialize None (VU64 n) = Ok (u64_to_be n)) as Hu64.
  { intros n. unfold serialize. cbn [serialize_value]. by rewrite write_vec. }
  erewrite bind_run; [|apply run_put; [plain_records|exact Hj]].
  erewrite bind_run; [|apply run_put; [plain_records|apply Hu64]]. rewrite !device_bytes.
  eexists. split; [done|]. split; [|split; [cbn; lia|]].
  - destruct (versions A !! (u, v)) as [e|] eqn:HA; [|done].
    apply (bi_version A s Hinv) in HA as (_ & _ & _ & n & Heq & Hn). simpl in Heq.
    apply to_string_inj in Heq; [|word..]. lia.
  - replace (counter (world s) + 2) with (counter (world s1) + 1) by lia.
    apply (version_written A s2); cbn [with_hdb world with_db counter]; try done.
    + split; [done|]. apply to_string_utf8. word.
    + word.
    + exists (counter (world s) + 1). split; [done|]. word.
Qed.

(** The tag of a version after a change to it. *)
Definition touched (A : Backups) (x : version_name) (n : Z) : Backups :=
  with_versions (alter (fun e => (e.1, n)) x (versions A)) A.

Lemma etag_written A s u v e : BackupsInv A s → versions A !! (u, v) = Some e → counter (world s) < u64_max → ∃ s',
  (count ← next; put backupid_etag (version_key u v) (VU64 count)) s = (Ok tt, s') ∧
  counter (world s') = counter (world s) + 1 ∧ BackupsInv (touched A (u, v) (counter (world s) + 1)) s'.
Proof.
  intros Hinv HA Hlt. pose proof (bi_counter A s Hinv) as Hc.
  destruct (next_inv A s Hinv Hlt) as (s1 & Hn1 & Hinv1 & Hc1).
  rewrite (bind_run _ _ _ _ _ Hn1). unfold version_key. erewrite run_put; [|plain_records|].
  2: { unfold serialize. cbn [serialize_value]. by rewrite write_vec. }
  rewrite device_bytes. eexists. split; [done|]. split; [exact Hc1|].
  pose proof (bi_version A s1 Hinv1 _ _ HA) as (Hok & Ht & He & n & Hn & Hn').
  assert (touched A (u, v) (counter (world s) + 1) = with_versions (<[(u, v) := (e.1, counter (world s) + 1)]> (versions A)) A) as ->.
  { unfold touched. f_equal. apply map_eq. intros x. destruct (decide (x = (u, v))) as [->|Hne].
    - by rewrite lookup_alter_eq, lookup_insert_eq, HA.
    - by rewrite lookup_alter_ne, lookup_insert_ne. }
  apply (version_written A s1); try done; [word|by exists n|].
  cbn [hdb with_hdb world with_db db]. dbs. symmetry. apply insert_id.
  rewrite (version_lookup A s1 (fun _ e => e.1)) by (done || apply Hinv1 || apply Hok). by rewrite HA.
Qed.

Lemma keys_written (A : Backups) (s s' : Host) (m : gmap session_name bytes) : BackupsInv A s →
  (∀ x t, m !! x = Some t → session_ok x ∧ text_ok t ∧ is_Some (versions A !! x.1.1)) →
  Represents session_bytes (fun _ t => t) m (hdb s' backupkeyid_backup) →
  (∀ c, c ≠ backupkeyid_backup → hdb s' c = hdb s c) → counter (world s') = counter (world s) →
  BackupsInv (with_keys m A) s'.
Proof.
  intros [Hm He Hk Hv Hs Hc] Hok Hr Ho Hcount. split; cbn [with_keys versions keys]; try done.
  - by rewrite Ho.
  - by rewrite Ho.
  - by rewrite Hcount.
  - by rewrite Hcount.
Qed.

Lemma add_backup_key_run A s u v r k t : BackupsInv A s → session_ok (u, v, r, k) → text_ok t → counter (world s) < u64_max →
  match versions A !! (u, v) with
  | None => add_key u v r k t s = (Err (Fail NotFound), s)
  | Some _ => ∃ s', add_key u v r k t s = (Ok tt, s') ∧ counter (world s') = counter (world s) + 1 ∧
      BackupsInv (with_keys (<[(u, v, r, k) := t]> (keys A)) (touched A (u, v) (counter (world s) + 1))) s'
  end.
Proof.
  intros Hinv Hx Ht Hlt. destruct Hx as (Hu & Hv & Hr & Hk). simpl in *.
  assert (∀ b, reads (fun d => has_backup d u v) s = (Ok b, s) ↔ b = bool_decide (is_Some (versions A !! (u, v)))) as Hb.
  { intros b. unfold reads. rewrite (has_backup_spec A) by done. naive_solver. }
  unfold add_key. rewrite (bind_run _ _ _ _ _ (proj2 (Hb _) eq_refl)).
  destruct (versions A !! (u, v)) as [e|] eqn:HA; [|done]. cbn [negb bool_decide decide_rel].
  destruct (etag_written A s u v e Hinv HA Hlt) as (s1 & Hrun & Hc1 & Hinv1).
  destruct (bind_inv _ _ _ _ _ Hrun) as (n & s0 & Hn & Hput).
  rewrite bool_decide_true by done. cbn [negb].
  rewrite (bind_run _ _ _ _ _ Hn), (bind_run _ _ _ _ _ Hput). unfold session_key.
  rewrite run_put_raw by plain_records. eexists. split; [done|]. split; [exact Hc1|].
  apply (keys_written _ s1).
  - done.
  - intros x t' [[<- <-]|[_ Hx]]%lookup_insert_Some.
    + split_and!; try done. simpl. rewrite lookup_alter_eq, HA. done.
    + by apply (bi_key _ s1 Hinv1).
  - cbn [hdb with_hdb world with_db db]. dbs. change (tuple_bytes _) with (session_bytes (u, v, r, k) t).
    apply (rep_update session_bytes (fun _ t => t)); [apply (bi_keys _ s1 Hinv1)| |done].
    intros y t' Hy. apply (bi_key _ s1 Hinv1) in Hy as (Hy & _). by apply session_bytes_inj.
  - intros c Hne. cbn [hdb with_hdb world with_db db]. by rewrite insert_other.
  - done.
Qed.

(** ** Deleting *)

(** Removing by a prefix that says which sessions go. *)
Lemma remove_sessions_run A s vs (P : session_name → Prop) `{!∀ x, Decision (P x)} :
  BackupsInv A s → Forall plain vs →
  (∀ x t, session_ok x → tuple_bytes vs `prefix_of` session_bytes x t ↔ P x) → ∃ s',
  remove_prefix backupkeyid_backup (VTuple vs) s = (Ok tt, s') ∧ counter (world s') = counter (world s) ∧
  (∀ c, c ≠ backupkeyid_backup → hdb s' c = hdb s c) ∧
  BackupsInv (with_keys (filter (fun xt => ¬ P xt.1) (keys A)) A) s'.
Proof.
  intros Hinv Hvs HP.
  destruct (run_remove_prefix backupkeyid_backup (VTuple vs) (tuple_bytes vs) s) as (s' & Hrun & Ho & _ & Hc & Hk).
  { by apply serialize_tuple_bytes. }
  exists s'. split; [done|]. split; [done|].
  assert (∀ c, c ≠ backupkeyid_backup → hdb s' c = hdb s c) as Ho' by (intros c Hne; apply Ho; set_solver).
  split; [done|]. apply (keys_written A s); [done| | |done|done].
  - intros x t [Hx _]%map_lookup_filter_Some. by apply (bi_key A s Hinv).
  - apply (rep_filter session_bytes (fun _ t => t) (keys A) _ _ _
      (filter (fun k => tuple_bytes vs `prefix_of` k) (sorted_keys (hdb s backupkeyid_backup))) (bi_keys A s Hinv)).
    + intros k. rewrite Hk. destruct (decide (tuple_bytes vs `prefix_of` k)) as [Hp|Hp].
      * destruct (decide _) as [|Hin]; [done|]. destruct (hdb s backupkeyid_backup !! k) eqn:Hl; [|done].
        exfalso. apply Hin, list_elem_of_filter. split; [done|]. apply sorted_keys_elem. by rewrite Hl.
      * rewrite decide_False; [done|]. by intros [? _]%list_elem_of_filter.
    + intros x t Hx. rewrite list_elem_of_filter, sorted_keys_elem.
      rewrite HP by (by apply (bi_key A s Hinv) in Hx as [? _]). simpl.
      rewrite (rep_Some _ _ _ _ x t (bi_keys A s Hinv) Hx). split; [intros [? _]; tauto|].
      intros Hn. split; [by apply dec_stable|done].
Qed.

Lemma delete_backup_run A s u v : BackupsInv A s → valid_utf8 u → valid_utf8 v → ∃ s',
  delete_backup u v s = (Ok tt, s') ∧
  BackupsInv {| versions := delete (u, v) (versions A); keys := filter (fun xt => xt.1.1.1 ≠ (u, v)) (keys A) |} s'.
Proof.
  intros Hinv Hu Hv. unfold delete_backup, version_key.
  erewrite bind_run; [|by apply run_del; plain_records]. erewrite bind_run; [|by apply run_del; plain_records].
  rewrite !device_bytes. set (s1 := with_hdb _ (with_hdb _ s)).
  destruct (run_remove_prefix backupkeyid_backup (version_prefix u v) (tuple_bytes [VStr u; VStr v; VInterfix]) s)
    as (s2 & Hrun & Ho & _ & Hc & Hk).
  { apply serialize_tuple_bytes. plain_records. }
  destruct (remove_sessions_run A s [VStr u; VStr v; VInterfix] (fun x => x.1.1 = (u, v)) Hinv) as (s2' & Hrun' & _ & _ & Hinv').
  { plain_records. }
  { intros x t Hx. by apply version_prefix_spec. }
  destruct (run_remove_prefix backupkeyid_backup (version_prefix u v) (tuple_bytes [VStr u; VStr v; VInterfix]) s1)
    as (s' & Hrun1 & Ho1 & _ & Hc1 & Hk1).
  { apply serialize_tuple_bytes. plain_records. }
  exists s'. split; [done|]. unfold version_prefix in Hrun. rewrite Hrun in Hrun'. injection Hrun' as <-.
  assert (hdb s' backupkeyid_backup = hdb s2 backupkeyid_backup) as Hkeys.
  { apply map_eq. intros k. rewrite Hk, Hk1. case_decide; [done|]. subst s1. cbn [hdb with_hdb world with_db db]. by dbs. }
  assert (hdb s' backupid_algorithm = delete (pair_key u v) (hdb s backupid_algorithm)) as Halg.
  { rewrite Ho1 by set_solver. subst s1. cbn [hdb with_hdb world with_db db]. by dbs. }
  assert (hdb s' backupid_etag = delete (pair_key u v) (hdb s backupid_etag)) as Hetag.
  { rewrite Ho1 by set_solver. subst s1. cbn [hdb with_hdb world with_db db]. by dbs. }
  pose proof Hinv as [Hm He Hks Hvs Hss Hcc]. pose proof (bi_keys _ _ Hinv') as Hk'.
  assert (∀ (vf : version_name → bytes * Z → bytes) m, Represents version_bytes vf (versions A) m →
    Represents version_bytes vf (delete (u, v) (versions A)) (delete (pair_key u v) m)) as Hdel.
  { intros vf m Hr. pose proof (rep_delete _ _ _ _ (u, v) Hr) as Hd. unfold forget_key in Hd.
    destruct (versions A !! (u, v)) as [e|] eqn:HA; [done|]. rewrite (delete_id m (pair_key u v)); [exact Hd|].
    apply (rep_None version_bytes vf _ _ (u, v) ([], 0) Hr HA). intros y e' [Hy _]%Hvs. by apply version_bytes_inj. }
  split; cbn [versions keys].
  - rewrite Halg. by apply Hdel.
  - rewrite Hetag. by apply Hdel.
  - rewrite Hkeys. exact Hk'.
  - intros x e [_ Hx]%lookup_delete_Some. rewrite Hc1. by apply Hvs.
  - intros x t [Hx Hne]%map_lookup_filter_Some. destruct (Hss x t Hx) as (? & ? & ?). split_and!; [done..|].
    rewrite lookup_delete_ne; [done|]. intros Heq. by apply Hne.
  - by rewrite Hc1.
Qed.

(** ** The keys of a version and of a room *)

(** Collecting items whose last of a key stays, when a key has one item. *)
Lemma foldl_insert_key (l : list (bytes * bytes * bytes)) R r k t :
  (∀ r k t t', (r, k, t) ∈ l → (r, k, t') ∈ l → t = t') →
  default ∅ (foldl insert_key R l !! r) !! k = Some t ↔
    (r, k, t) ∈ l ∨ (∀ t', (r, k, t') ∉ l) ∧ default ∅ (R !! r) !! k = Some t.
Proof.
  revert R. induction l as [|[[r' k'] t'] l IH]; intros R Hfun; cbn [foldl].
  { split; [intros Hl; right; split; [intros ?; apply not_elem_of_nil|done]|]. by intros [?%not_elem_of_nil|[_ ?]]. }
  rewrite IH by (intros ????; rewrite ?elem_of_cons; intros; eapply Hfun; rewrite elem_of_cons; eauto).
  assert (default ∅ (insert_key R (r', k', t') !! r) !! k =
    if decide (r = r' ∧ k = k') then Some t' else default ∅ (R !! r) !! k) as ->.
  { unfold insert_key. simpl. destruct (decide (r = r')) as [->|Hr].
    - rewrite lookup_insert_eq. simpl. destruct (decide (k = k')) as [->|Hk].
      + rewrite decide_True by done. apply lookup_insert_eq.
      + rewrite decide_False by tauto. by rewrite lookup_insert_ne.
    - rewrite decide_False by tauto. by rewrite lookup_insert_ne. }
  setoid_rewrite elem_of_cons. destruct (decide (r = r' ∧ k = k')) as [[-> ->]|Hne].
  - split.
    + intros [?|[_ [= ->]]]; auto.
    + intros [[[= ->]|?]|[Hno _]]; [|by left|exfalso; by apply (Hno t'); left].
      destruct (decide ((r', k', t') ∈ l)) as [|Hnin]; [by left|right]. split; [|done].
      intros t'' Hin. apply Hnin. rewrite <-(Hfun r' k' t'' t'); [done|by right|by left].
  - split.
    + intros [?|[Hno ?]]; [auto|]. right. split; [|done]. intros t'' [[= -> -> ->]|?]; [tauto|by apply (Hno t'')].
    + intros [[[= -> -> ->]|?]|[Hno ?]]; [tauto|auto|]. right. split; [|done]. intros t'' ?. apply (Hno t''). by right.
Qed.

Lemma foldl_insert_item (l : list (bytes * bytes)) (m : gmap bytes bytes) k t :
  (∀ k t t', (k, t) ∈ l → (k, t') ∈ l → t = t') →
  foldl (fun m item => <[item.1 := item.2]> m) m l !! k = Some t ↔
    (k, t) ∈ l ∨ (∀ t', (k, t') ∉ l) ∧ m !! k = Some t.
Proof.
  revert m. induction l as [|[k' t'] l IH]; intros m Hfun; cbn [foldl].
  { split; [intros Hl; right; split; [intros ?; apply not_elem_of_nil|done]|]. by intros [?%not_elem_of_nil|[_ ?]]. }
  rewrite IH by (intros ???; rewrite ?elem_of_cons; intros; eapply Hfun; rewrite elem_of_cons; eauto).
  rewrite lookup_insert_Some. setoid_rewrite elem_of_cons. simpl. split.
  - intros [?|[Hno [[-> ->]|[Hne ?]]]]; [auto|auto|]. right. split; [|done]. intros t'' [[= -> ->]|?]; [done|by apply (Hno t'')].
  - intros [[[= -> ->]|?]|[Hno ?]]; [|by left|].
    + destruct (decide ((k', t') ∈ l)) as [|Hnin]; [by left|right]. split; [|auto].
      intros t'' Hin. apply Hnin. rewrite <-(Hfun k' t'' t'); [done|by right|by left].
    + right. split; [intros t'' ?; apply (Hno t''); by right|]. right. split; [|done].
      intros <-. apply (Hno t'). by left.
Qed.

(** The entries of a scan. *)
Lemma sessions_elem A s vs (P : session_name → Prop) k t : BackupsInv A s →
  (∀ x t, session_ok x → tuple_bytes vs `prefix_of` session_bytes x t ↔ P x) →
  (k, t) ∈ raw_stream_prefix (hdb s) backupkeyid_backup (tuple_bytes vs) ↔
    ∃ x, keys A !! x = Some t ∧ P x ∧ k = session_bytes x t.
Proof.
  intros Hinv HP. rewrite raw_stream_prefix_elem, (rep_lookup _ _ _ _ (bi_keys A s Hinv)). split.
  - intros [(x & t' & Hx & -> & ->) Hp]. exists x. split; [done|]. split; [|done].
    apply (HP x t'); [|done]. by apply (bi_key A s Hinv) in Hx as [? _].
  - intros (x & Hx & Hp & ->). split; [eauto|]. apply HP; [|done]. by apply (bi_key A s Hinv) in Hx as [? _].
Qed.

Lemma get_room_spec A s u v r : BackupsInv A s → valid_utf8 u → valid_utf8 v → valid_utf8 r → ∃ m,
  get_room (hdb s) u v r = Ok m ∧ ∀ k, m !! k = keys A !! (u, v, r, k).
Proof.
  intros Hinv Hu Hv Hr. unfold get_room, stream_prefix, stream_prefix_raw, room_prefix.
  change (serialize_to_vec ?v) with (serialize None v). rewrite serialize_tuple_bytes by plain_records.
  cbn [expect_ok mbind result_bind]. rewrite omap_ignore_err. eexists. split; [done|].
  set (l := omap _ _).
  assert (∀ k t, (k, t) ∈ l ↔ keys A !! (u, v, r, k) = Some t) as Hl.
  { intros k t. unfold l. rewrite list_elem_of_omap.
    assert (∀ x t, keys A !! x = Some t → x.1 = (u, v, r) →
      (b ← ok (deserialize_kv (TTuple [TIgnore; TIgnore; TIgnore; TStr]) TJson (session_bytes x t, t)); room_item b)
        = Some (x.2, t)) as Hread.
    { intros [[[u' v'] r'] k'] t' Hx [= -> -> ->]. apply (bi_key A s Hinv) in Hx as ((?&?&?&?) & [Ht Hj] & _).
      unfold deserialize_kv, session_bytes. cbn [fst snd] in *.
      rewrite (from_slice_reads _ _ [VIgnore; VIgnore; VIgnore; VStr k']);
        [|read_records; (by constructor || by apply valid_utf8_no_sep)|done|by apply tuple_bytes_nonempty].
      cbn [mbind result_bind]. by rewrite from_slice_json_text. }
    split.
    - intros ([k' t'] & Hin & Heq). apply (sessions_elem A s _ (fun x => x.1 = (u, v, r))) in Hin as (x & Hx & Hp & ->); [|done|].
      + rewrite Hread in Heq by done. injection Heq as <- <-. destruct x as [x k']. simpl in *. by subst.
      + intros x t'' Hx. by apply room_prefix_spec.
    - intros Hx. exists (session_bytes (u, v, r, k) t, t). split; [|by apply Hread].
      apply (sessions_elem A s _ (fun x => x.1 = (u, v, r))); [done| |by exists (u, v, r, k)].
      intros x t'' Hx'. by apply room_prefix_spec. }
  intros k. apply option_eq. intros t. rewrite foldl_insert_item.
  - rewrite Hl, lookup_empty. naive_solver.
  - intros k' t1 t2 H1%Hl H2%Hl. congruence.
Qed.

Lemma get_all_spec A s u v : BackupsInv A s → valid_utf8 u → valid_utf8 v → ∃ R,
  get_all (hdb s) u v = Ok R ∧ ∀ r k, default ∅ (R !! r) !! k = keys A !! (u, v, r, k).
Proof.
  intros Hinv Hu Hv. unfold get_all, stream_prefix, stream_prefix_raw, version_prefix.
  change (serialize_to_vec ?v) with (serialize None v). rewrite serialize_tuple_bytes by plain_records.
  cbn [expect_ok mbind result_bind]. rewrite omap_ignore_err. eexists. split; [done|].
  set (l := omap _ _).
  assert (∀ r k t, (r, k, t) ∈ l ↔ keys A !! (u, v, r, k) = Some t) as Hl.
  { intros r k t. unfold l. rewrite list_elem_of_omap.
    assert (∀ x t, keys A !! x = Some t → x.1.1 = (u, v) →
      (b ← ok (deserialize_kv (TTuple [TIgnore; TIgnore; TStr; TStr]) TJson (session_bytes x t, t)); key_item b)
        = Some (x.1.2, x.2, t)) as Hread.
    { intros [[[u' v'] r'] k'] t' Hx [= -> ->]. apply (bi_key A s Hinv) in Hx as ((?&?&?&?) & [Ht Hj] & _).
      unfold deserialize_kv, session_bytes. cbn [fst snd] in *.
      rewrite (from_slice_reads _ _ [VIgnore; VIgnore; VStr r'; VStr k']);
        [|read_records; (by constructor || by apply valid_utf8_no_sep)|done|by apply tuple_bytes_nonempty].
      cbn [mbind result_bind]. by rewrite from_slice_json_text. }
    split.
    - intros ([k' t'] & Hin & Heq). apply (sessions_elem A s _ (fun x => x.1.1 = (u, v))) in Hin as (x & Hx & Hp & ->); [|done|].
      + rewrite Hread in Heq by done. injection Heq as <- <- <-. destruct x as [[x r'] k']. simpl in *. by subst.
      + intros x t'' Hx. by apply version_prefix_spec.
    - intros Hx. exists (session_bytes (u, v, r, k) t, t). split; [|by apply Hread].
      apply (sessions_elem A s _ (fun x => x.1.1 = (u, v))); [done| |by exists (u, v, r, k)].
      intros x t'' Hx'. by apply version_prefix_spec. }
  intros r k. apply option_eq. intros t. rewrite foldl_insert_key.
  - rewrite Hl, lookup_empty. simpl. rewrite lookup_empty. naive_solver.
  - intros r' k' t1 t2 H1%Hl H2%Hl. congruence.
Qed.

(** ** Better keys *)

Record Quality := { verified : bool; index : Z; forwarded : Z }.

(** A verified key, then one from an earlier message, then one that was forwarded less often. *)
Definition better (a b : Quality) : Prop :=
  (verified a = true ∧ verified b = false) ∨
  verified a = verified b ∧ (index a < index b ∨ index a = index b ∧ forwarded a < forwarded b).
#[export] Instance better_dec a b : Decision (better a b).
Proof. unfold better. apply _. Defined.

(** The fields of a key that is there, the missing ones at their worst; of a new key all have to be there. *)
Definition old_quality (t : bytes) (q : Quality) : Prop :=
  (∃ b, is_verified t = Some b ∧ verified q = default false b) ∧
  (∃ n, first_message_index t = Some n ∧ index q = default uint_max n) ∧
  (∃ n, forwarded_count t = Some n ∧ forwarded q = default uint_max n).
Definition new_quality (t : bytes) (q : Quality) : Prop :=
  is_verified t = Some (Some (verified q)) ∧ first_message_index t = Some (Some (index q)) ∧
  forwarded_count t = Some (Some (forwarded q)).

Lemma ok_to_replace_spec old new q q' : old_quality old q → new_quality new q' →
  ok_to_replace old new = Ok (bool_decide (better q' q)).
Proof.
  destruct q as [b i f], q' as [b' i' f'].
  intros ((ob & Hb & Eb) & (oi & Hi & Ei) & (ofw & Hf & Ef)) (Hb' & Hi' & Hf'). simpl in *. subst b i f.
  unfold ok_to_replace. rewrite Hb, Hb'. simpl in *. unfold better; simpl. case_decide as Hv.
  - f_equal. symmetry. destruct (default false _), b'; try done.
  - rewrite Hi, Hi'. simpl. destruct (Z.compare_spec i' (default uint_max oi)) as [->|Hlt|Hgt].
    + rewrite Hf, Hf'. simpl. f_equal. apply bool_decide_ext. rewrite Hv. split; [auto|].
      intros [[-> ?]|[_ [?|[_ ?]]]]; [done|lia|done].
    + f_equal. symmetry. apply bool_decide_eq_true. auto.
    + f_equal. symmetry. apply bool_decide_eq_false. intros [[-> ?]|[_ [?|[? ?]]]]; [congruence|lia|lia].
Qed.

End Spec.

Module BackupWitness.
#[local] Instance any_parsers : Parsers := {| json_ok _ := true; cbor_ok _ := true |}.
(** A key of one byte: its index. *)
#[local] Instance any_keys : KeyBackupData := {|
  is_verified _ := Some (Some true);
  first_message_index t := Some (head t);
  forwarded_count _ := Some (Some 0);
|}.

Definition host0 : Host := {| world := {| db := empty_db; counter := 7 |}; woken := [] |}.
Definition alice : bytes := [64; 97].
Definition none : Backups := {| versions := ∅; keys := ∅ |}.

Lemma backups_inv0 : BackupsInv none host0.
Proof.
  split; [apply represents_empty..| | |cbn; word]; cbn; intros x e Hx; by rewrite lookup_empty in Hx.
Qed.


(** Runs from the empty database. *)
Definition run {R} (m : M R) : comp db_error R := (m host0).1.
Definition add (v : bytes) (k : bytes) : M unit := add_key alice v [33; 114] k [5].

(** Versions are compared as strings: after version 8 comes version 10, and 8 stays the latest. *)
Example old_version_stays_latest :
  run (a ← create_backup alice [123; 125]; b ← create_backup alice [123; 125];
       latest ← reads (fun d => get_latest_backup_version d alice); mret (a, b, latest)) = Ok ([56], [49; 48], [56]).
Proof. vm_compute. reflexivity. Qed.

(** The new version takes no keys. *)
Example new_version_refused :
  run (_ ← create_backup alice [123; 125]; b ← create_backup alice [123; 125];
       add_backup_keys_for_session_route alice b [33; 114] [115] [5]) = Err (Fail InvalidParam).
Proof. vm_compute. reflexivity. Qed.

(** Deleting the key of a session deletes those of the sessions whose identifiers extend its own, and
    counting the keys of a version counts those of the versions whose names extend its own. *)
Example other_session_deleted :
  run (v ← create_backup alice [123; 125]; _ ← add v [115]; _ ← add v [115; 50]; _ ← delete_room_key alice v [33; 114] [115];
       reads (fun d => get_session d alice v [33; 114] [115; 50])) = Err (Fail NotFound).
Proof. vm_compute. reflexivity. Qed.
Example other_version_counted :
  (let s0 := {| world := {| db := empty_db; counter := 0 |}; woken := [] |} in
   ((v ← create_backup alice [123; 125]; _ ← create_backup alice [123; 125]; _ ← create_backup alice [123; 125];
     _ ← create_backup alice [123; 125]; _ ← create_backup alice [123; 125]; w ← create_backup alice [123; 125];
     _ ← add w [115]; n ← reads (fun d => count_keys d alice v); mret (v, w, n)) s0).1) = Ok ([49], [49; 49], 1%nat).
Proof. vm_compute. reflexivity. Qed.

(** Deleting the keys of a version that is not there makes the request panic. *)
Example unknown_version_panics : run (delete_backup_keys_route alice [57]) = Err Panicked.
Proof. vm_compute. reflexivity. Qed.
End BackupWitness.
