(* ===== verification/Cache.v ===== *)
(** The LRU caches of the [lru_cache] crate, which the state compressor and the auth chains keep: an
    interface with what is relied on (a lookup changes no entry, an entry found is one
    inserted), and a bounded list that satisfies it, for the witnesses. *)

From stdpp Require Import prelude.

(** A lookup marks the entry as used, an insertion may drop others. *)
Class Lru (K V C : Type) := {
  lru_get_mut : C → K → option V * C;
  lru_insert : C → K → V → C;
  lru_clear : C → C;
}.
Definition lru_peek {K V C} `{Lru K V C} (c : C) (k : K) : option V := (lru_get_mut c k).1.

Class LruLaws (K V C : Type) `{Lru K V C} : Prop := {
  lru_peek_get c k k' : lru_peek (lru_get_mut c k).2 k' = lru_peek c k';
  lru_peek_insert c k v k' v' : lru_peek (lru_insert c k v) k' = Some v' →
    (k' = k ∧ v' = v) ∨ lru_peek c k' = Some v';
  lru_peek_clear c k : lru_peek (lru_clear c) k = None;
}.

(** * A cache of two entries, most recent first *)

Section ListCache.
Context {K V : Type} `{!EqDecision K}.
Implicit Types c : list (K * V).

Fixpoint cache_find c (k : K) : option V :=
  match c with
  | [] => None
  | (k', v) :: c => if decide (k = k') then Some v else cache_find c k
  end.

Definition cache_without c (k : K) : list (K * V) := filter (fun e => e.1 ≠ k) c.

#[local] Instance list_lru : Lru K V (list (K * V)) := {|
  lru_get_mut c k := match cache_find c k with
                     | Some v => (Some v, (k, v) :: cache_without c k)
                     | None => (None, c)
                     end;
  lru_insert c k v := take 2 ((k, v) :: cache_without c k);
  lru_clear _ := [];
|}.

Lemma peek_find c k : lru_peek c k = cache_find c k.
Proof. unfold lru_peek. simpl. by destruct (cache_find c k). Qed.

Lemma find_without c k k' : k' ≠ k → cache_find (cache_without c k) k' = cache_find c k'.
Proof.
  intros Hne. unfold cache_without. induction c as [|[j v] c IH]; [done|]. rewrite filter_cons. simpl.
  case_decide; simpl; repeat case_decide; congruence.
Qed.

Lemma find_take n c k v : cache_find (take n c) k = Some v → cache_find c k = Some v.
Proof.
  revert n. induction c as [|[j w] c IH]; intros [|n]; simpl; try done.
  case_decide; [done|]. apply IH.
Qed.

Lemma list_lru_laws : LruLaws K V (list (K * V)).
Proof.
  split.
  - intros c k k'. rewrite !peek_find. simpl. destruct (cache_find c k) eqn:Hk; [|done]. simpl.
    case_decide; [by subst|by apply find_without].
  - intros c k v k' v'. rewrite !peek_find. intros Hf.
    apply (find_take 2 ((k, v) :: cache_without c k)) in Hf. simpl in Hf.
    case_decide as Hk; [left; by simplify_eq|right; by rewrite find_without in Hf].
  - intros c k. by rewrite peek_find.
Qed.
End ListCache.
