(* ===== verification/StateCompressor.v ===== *)
(** Compressed room states and their storage as layered differences:
    src/src/service/rooms/state_compressor/mod.rs, with the delimited hash of
    src/src/core/utils/hash/sha256.rs.

    A compressed state event is 16 bytes, the state key's number and the event's; a compressed
    state ([BTreeSet]) is a finite set of them that iterates in bytewise order.  Sharing
    by [Arc] is not modelled: the values are immutable. *)

From stdpp Require Import prelude gmap sorting.
From Stdlib Require Import ZArith Lia.
From S2P Require Import Prelude Cache Bytes DbSer Database PairKeys Short.
Local Open Scope Z_scope.

(** @src src/src/service/rooms/state_compressor/mod.rs:66-67 CompressedState *)
Definition CompressedState : Type := gset bytes.

(** [BTreeSet::iter]. *)
Definition iter (s : CompressedState) : list bytes := sort (elements s).

(** @src src/src/service/rooms/state_compressor/mod.rs:40-45 StateDiff *)
Record StateDiff := {
  parent : option Z;
  added : CompressedState;
  removed : CompressedState;
}.

#[export] Instance StateDiff_eq_dec : EqDecision StateDiff.
Proof. solve_decision. Defined.

(** @src src/src/service/rooms/state_compressor/mod.rs:47-53 ShortStateInfo *)
Record ShortStateInfo := {
  si_shortstatehash : Z;
  si_full_state : CompressedState;
  si_added : CompressedState;
  si_removed : CompressedState;
}.

(** @src src/src/service/rooms/state_compressor/mod.rs:55-60 HashSetCompressStateEvent *)
Record HashSetCompressStateEvent := {
  hs_shortstatehash : Z;
  hs_added : CompressedState;
  hs_removed : CompressedState;
}.

(** ** One event *)

(** @src src/src/service/rooms/state_compressor/mod.rs:501-515 compress_state_event *)
Definition compress_state_event (shortstatekey shorteventid : Z) : bytes :=
  u64_to_be shortstatekey ++ u64_to_be shorteventid.

(** @src src/src/service/rooms/state_compressor/mod.rs:517-529 parse_compressed_state_event *)
Definition parse_compressed_state_event (compressed_event : bytes) : Z * Z :=
  (u64_from_u8x8 (take 8 compressed_event), u64_from_u8x8 (drop 8 compressed_event)).

(** [None] is the panic on overflow.
    @src src/src/service/rooms/state_compressor/mod.rs:531-537 compressed_state_size *)
Definition compressed_state_size (compressed_state : CompressedState) : option Z :=
  checked_u64 (Z.of_nat (size compressed_state) * 16).

(** ** Differences on disk *)

(** @src src/src/service/rooms/state_compressor/mod.rs:473-498 Service::save_statediff *)
Definition save_statediff (d : Db) (shortstatehash : Z) (diff : StateDiff) : Db :=
  let value := u64_to_be (default 0 (parent diff)) ++ concat (iter (added diff)) ++
    (if decide (removed diff = ∅) then [] else u64_to_be 0 ++ concat (iter (removed diff))) in
  insert d shortstatehash_statediff (u64_to_be shortstatehash) value.

(** The loop over the values: [l] is what is left from the position, and every turn
    takes at least a word of it.
    @src src/src/service/rooms/state_compressor/mod.rs:447-464 Service::get_statediff *)
Fixpoint read_events (fuel : nat) (add_mode : bool) (l : bytes) (added removed : CompressedState) :
    CompressedState * CompressedState :=
  match fuel with
  | O => (added, removed)
  | S fuel =>
      let v := take 16 l in
      if decide (length v = 16%nat) then
        if add_mode && bool_decide (u64_to_be 0 `prefix_of` v)
        then read_events fuel false (drop 8 l) added removed
        else if add_mode
        then read_events fuel add_mode (drop 16 l) ({[v]} ∪ added) removed
        else read_events fuel add_mode (drop 16 l) added ({[v]} ∪ removed)
      else (added, removed)
  end.

(** @src src/src/service/rooms/state_compressor/mod.rs:425-471 Service::get_statediff *)
Definition get_statediff (d : Db) (shortstatehash : Z) : comp db_error StateDiff :=
  value ← aqry 8 d shortstatehash_statediff (VU64 shortstatehash);
  if decide (length value < 8)%nat then Err Panicked
  else
    let p := u64_from_u8x8 (take 8 value) in
    let '(added, removed) := read_events (length value) true (drop 8 value) ∅ ∅ in
    Ok {| parent := if decide (p = 0) then None else Some p; added := added; removed := removed |}.

(** ** The cache *)

(** The service: the database and counter, and the cache.
    @src src/src/service/rooms/state_compressor/mod.rs:25-38 Service *)
Record Service (C : Type) := { world : World; stateinfo_cache : C }.
Arguments world {C} _.
Arguments stateinfo_cache {C} _.

Definition with_world {C} (s : Service C) (w : World) : Service C :=
  {| world := w; stateinfo_cache := stateinfo_cache s |}.
Definition with_cache {C} (s : Service C) (c : C) : Service C :=
  {| world := world s; stateinfo_cache := c |}.

Section Loading.
Context {C : Type} `{!Lru Z (list ShortStateInfo) C}.

(** @src src/src/service/rooms/state_compressor/mod.rs:113-113 Service::clear_cache *)
Definition clear_cache (s : Service C) : Service C := with_cache s (lru_clear (stateinfo_cache s)).

(** @src src/src/service/rooms/state_compressor/mod.rs:137-147 Service::cache_shortstatehash_info *)
Definition cache_shortstatehash_info (s : Service C) (shortstatehash : Z) (stack : list ShortStateInfo) :
    Service C :=
  with_cache s (lru_insert (stateinfo_cache s) shortstatehash stack).

(** What a difference adds to the stack below it.
    @src src/src/service/rooms/state_compressor/mod.rs:166-183 Service::new_shortstatehash_info *)
Definition push_layer (stack : list ShortStateInfo) (shortstatehash : Z) (diff : StateDiff) :
    comp db_error (list ShortStateInfo) :=
  top ← expect (last stack);
  let full_state := (si_full_state top ∪ added diff) ∖ removed diff in
  Ok (stack ++ [{| si_shortstatehash := shortstatehash; si_full_state := full_state;
                   si_added := added diff; si_removed := removed diff |}]).

(** [load] is [load_shortstatehash_info], for the parent.
    @src src/src/service/rooms/state_compressor/mod.rs:149-184 Service::new_shortstatehash_info *)
Definition new_shortstatehash_info
    (load : Service C → Z → comp db_error (list ShortStateInfo) * Service C)
    (s : Service C) (shortstatehash : Z) : comp db_error (list ShortStateInfo) * Service C :=
  match get_statediff (db (world s)) shortstatehash with
  | Err e => (Err e, s)
  | Ok diff =>
      match parent diff with
      | None =>
          (Ok [{| si_shortstatehash := shortstatehash; si_full_state := added diff;
                  si_added := added diff; si_removed := removed diff |}], s)
      | Some parent =>
          let '(stack, s) := load s parent in
          (stack ← stack; push_layer stack shortstatehash diff, s)
      end
  end.

(** [fuel] bounds the layers; an error leaves the cache as the parents' loading made it.
    @src src/src/service/rooms/state_compressor/mod.rs:119-135 Service::load_shortstatehash_info *)
Fixpoint load_shortstatehash_info (fuel : nat) (s : Service C) (shortstatehash : Z) :
    comp db_error (list ShortStateInfo) * Service C :=
  match fuel with
  | O => (Err OutOfFuel, s)
  | S fuel =>
      let '(cached, cache) := lru_get_mut (stateinfo_cache s) shortstatehash in
      let s := with_cache s cache in
      match cached with
      | Some r => (Ok r, s)
      | None =>
          match new_shortstatehash_info (load_shortstatehash_info fuel) s shortstatehash with
          | (Ok stack, s) => (Ok stack, cache_shortstatehash_info s shortstatehash stack)
          | (Err e, s) => (Err e, s)
          end
      end
  end.
End Loading.

(** ** Saving *)

Definition checked_usize (n : Z) : comp db_error Z := ok_or_fail ArithmeticError (checked_u64 n).

(** [remove] of a set, with whether the value was there. *)
Definition set_remove (s : CompressedState) (v : bytes) : bool * CompressedState :=
  (bool_decide (v ∈ s), s ∖ {[v]}).

(** The difference of the layer above folded into its parent's; the code occurs twice.
    @src src/src/service/rooms/state_compressor/mod.rs:313-333 Service::save_state_from_diff *)
Definition fold_diff (parent_added parent_removed statediffnew statediffremoved : CompressedState) :
    CompressedState * CompressedState :=
  let '(parent_new, parent_removed) :=
    foldl (fun '(parent_new, parent_removed) removed =>
             let '(was, parent_new) := set_remove parent_new removed in
             (parent_new, if was : bool then parent_removed else {[removed]} ∪ parent_removed))
      (parent_added, parent_removed) (iter statediffremoved) in
  foldl (fun '(parent_new, parent_removed) new =>
           let '(was, parent_removed) := set_remove parent_removed new in
           (if was : bool then parent_new else {[new]} ∪ parent_new, parent_removed))
    (parent_new, parent_removed) (iter statediffnew).

Definition set_len (s : CompressedState) : Z := Z.of_nat (size s).

(** The stack has its top first here, where [Vec::pop] takes from.
    @src src/src/service/rooms/state_compressor/mod.rs:251-352 Service::save_state_from_diff *)
Fixpoint save_on_stack (d : Db) (shortstatehash : Z) (statediffnew statediffremoved : CompressedState)
    (diff_to_sibling : Z) (parents : list ShortStateInfo) : comp db_error Db :=
  diffsum ← checked_usize (set_len statediffnew + set_len statediffremoved);
  match parents with
  | [] =>
      Ok (save_statediff d shortstatehash
            {| parent := None; added := statediffnew; removed := statediffremoved |})
  | p :: parents' =>
      let '(parent_new, parent_removed) :=
        fold_diff (si_added p) (si_removed p) statediffnew statediffremoved in
      if decide (3 < length parents)%nat then
        save_on_stack d shortstatehash parent_new parent_removed diffsum parents'
      else
        parent_diff ← checked_usize (set_len (si_added p) + set_len (si_removed p));
        square ← checked_usize (diffsum * diffsum);
        twice ← checked_usize (2 * diff_to_sibling);
        bound ← checked_usize (twice * parent_diff);
        if decide (bound ≤ square) then
          save_on_stack d shortstatehash parent_new parent_removed diffsum parents'
        else
          Ok (save_statediff d shortstatehash
                {| parent := Some (si_shortstatehash p);
                   added := statediffnew; removed := statediffremoved |})
  end.

(** @src src/src/service/rooms/state_compressor/mod.rs:225-250 Service::save_state_from_diff *)
Definition save_state_from_diff (d : Db) (shortstatehash : Z)
    (statediffnew statediffremoved : CompressedState) (diff_to_sibling : Z)
    (parent_states : list ShortStateInfo) : comp db_error Db :=
  save_on_stack d shortstatehash statediffnew statediffremoved diff_to_sibling (reverse parent_states).

(** SHA-256 of the [sha2] crate. *)
Class Digest := sha256 : bytes → bytes.

(** @src src/src/core/utils/hash/sha256.rs:5-23 delimited *)
Definition delimited `{Digest} (inputs : list bytes) : bytes :=
  match inputs with
  | [] => sha256 []
  | input :: inputs => sha256 (input ++ concat (map (fun input => 255 :: input) inputs))
  end.

Section Saving.
Context `{!Parsers} `{!Digest} {C : Type} `{!Lru Z (list ShortStateInfo) C}.

(** @src src/src/service/rooms/state/mod.rs:392-398 Service::get_room_shortstatehash *)
Definition get_room_shortstatehash (w : World) (room_id : bytes) : comp db_error Z :=
  deserialized_u64 (get (db w) roomid_shortstatehash room_id).

Definition calculate_hash (s : CompressedState) : bytes := delimited (iter s).

(** The differences between a state and the one it is based on, if any.
    @src src/src/service/rooms/state_compressor/mod.rs:390-406 Service::save_state *)
Definition diff_from (states_parents : list ShortStateInfo) (new_state : CompressedState) :
    CompressedState * CompressedState :=
  match last states_parents with
  | Some parent_stateinfo =>
      (new_state ∖ si_full_state parent_stateinfo, si_full_state parent_stateinfo ∖ new_state)
  | None => (new_state, ∅)
  end.

(** An error leaves what was written before it.
    @src src/src/service/rooms/state_compressor/mod.rs:354-423 Service::save_state *)
Definition save_state (fuel : nat) (s : Service C) (room_id : bytes)
    (new_state_ids_compressed : CompressedState) :
    comp db_error HashSetCompressStateEvent * Service C :=
  let previous_shortstatehash := ok (get_room_shortstatehash (world s) room_id) in
  let state_hash := calculate_hash new_state_ids_compressed in
  match get_or_create_shortstatehash (world s) state_hash with
  | Err e => (Err e, s)
  | Ok ((new_shortstatehash, already_existed), w) =>
      let s := with_world s w in
      if decide (Some new_shortstatehash = previous_shortstatehash) then
        (Ok {| hs_shortstatehash := new_shortstatehash; hs_added := ∅; hs_removed := ∅ |}, s)
      else
        let '(states_parents, s) :=
          match previous_shortstatehash with
          | Some p =>
              match load_shortstatehash_info fuel s p with
              | (Ok stack, s) => (stack, s)
              | (Err _, s) => ([], s)
              end
          | None => ([], s)
          end in
        let '(statediffnew, statediffremoved) := diff_from states_parents new_state_ids_compressed in
        match (if already_existed : bool then Ok (db (world s))
               else save_state_from_diff (db (world s)) new_shortstatehash statediffnew
                      statediffremoved 2 states_parents) with
        | Err e => (Err e, s)
        | Ok d =>
            (Ok {| hs_shortstatehash := new_shortstatehash; hs_added := statediffnew;
                   hs_removed := statediffremoved |}, with_world s (with_db (world s) d))
        end
  end.
End Saving.

(** * Lemmas *)

(** ** Sets in order *)

Lemma elem_of_iter s v : v ∈ iter s ↔ v ∈ s.
Proof. unfold iter. by rewrite elem_of_sort, elem_of_elements. Qed.

Lemma NoDup_iter s : NoDup (iter s).
Proof. unfold iter. rewrite sort_Permutation. apply NoDup_elements. Qed.

Lemma list_to_set_iter s : list_to_set (iter s) = s.
Proof. apply set_eq. intros v. by rewrite elem_of_list_to_set, elem_of_iter. Qed.

Lemma iter_nil s : iter s = [] ↔ s = ∅.
Proof.
  split; [|by intros ->]. intros Hs. rewrite <-(list_to_set_iter s), Hs. done.
Qed.

(** ** Differences on disk *)

(** An entry of a difference has 16 bytes; one that is added has a state key number
    other than 0, which would read as the end of the added ones. *)
Definition is_entry (v : bytes) : Prop := length v = 16%nat.
Definition is_event (v : bytes) : Prop := is_entry v ∧ ¬ u64_to_be 0 `prefix_of` v.

Lemma read_removed fuel l a r : (length l < fuel)%nat → Forall is_entry l →
  read_events fuel false (concat l) a r = (a, list_to_set l ∪ r).
Proof.
  revert l r. induction fuel as [|fuel IH]; intros l r Hf Hl; [lia|].
  destruct Hl as [|v l Hv Hl]; cbn [read_events concat].
  - simpl. f_equal. set_solver.
  - unfold is_entry in Hv. rewrite take_app_length', (drop_app_length' v _ 16) by done.
    rewrite decide_True by done. cbn [andb]. cbn [length] in Hf. rewrite IH by (done || lia).
    f_equal. set_solver.
Qed.

Lemma read_added fuel l t a r : Forall is_event l →
  read_events (length l + fuel) true (concat l ++ t) a r = read_events fuel true t (list_to_set l ∪ a) r.
Proof.
  intros Hl. revert a. induction Hl as [|v l [Hv Hz] Hl IH]; intros a.
  { simpl. f_equal. set_solver. }
  cbn [length Nat.add read_events concat]. unfold is_entry in Hv. rewrite <-app_assoc.
  rewrite take_app_length', (drop_app_length' v _ 16) by done. rewrite decide_True by done.
  rewrite (bool_decide_eq_false_2 _ Hz). cbn [andb]. rewrite IH. f_equal. set_solver.
Qed.

Lemma read_end fuel t a r : (S (length t) < fuel)%nat → Forall is_entry t →
  read_events fuel true (if decide (t = []) then [] else u64_to_be 0 ++ concat t) a r
  = (a, list_to_set t ∪ r).
Proof.
  intros Hf Ht. destruct fuel as [|fuel]; [lia|]. destruct Ht as [|v t Hv Ht].
  { simpl. f_equal. set_solver. }
  rewrite decide_False by done. cbn [read_events]. unfold is_entry in Hv.
  assert (length (take 16 (u64_to_be 0 ++ concat (v :: t))) = 16%nat) as Hlen.
  { rewrite length_take, length_app, to_be_length. cbn [concat]. rewrite length_app. lia. }
  rewrite decide_True by done. rewrite bool_decide_eq_true_2.
  2:{ change 16%nat with (8 + 8)%nat. rewrite take_app_add' by done. by eexists. }
  cbn [andb]. rewrite drop_app_length' by done. apply read_removed; [|by constructor].
  cbn [length] in *. lia.
Qed.

Lemma concat_entries_length l : Forall is_entry l → length (concat l) = (16 * length l)%nat.
Proof.
  induction 1 as [|v l Hv Hl IH]; [done|]. cbn [concat length]. rewrite length_app, IH, Hv. lia.
Qed.

Lemma get_save_statediff d h diff :
  set_Forall is_event (added diff) → set_Forall is_entry (removed diff) →
  is_u64 (default 0 (parent diff)) → parent diff ≠ Some 0 →
  get_statediff (save_statediff d h diff) h = Ok diff.
Proof.
  intros Ha Hr Hp Hp0. unfold get_statediff, save_statediff. rewrite aqry_u64. unfold get.
  rewrite insert_same, lookup_insert_eq. cbn [ok_or_fail ok_or mbind result_bind].
  rewrite take_8_to_be, drop_8_to_be. rewrite u64_round_trip by done.
  rewrite decide_False by (rewrite length_app, to_be_length; lia).
  assert (Forall is_event (iter (added diff))) as Ha'
    by (apply Forall_forall; intros v Hv; by apply Ha, elem_of_iter).
  assert (Forall is_entry (iter (removed diff))) as Hr'
    by (apply Forall_forall; intros v Hv; by apply Hr, elem_of_iter).
  assert ((if decide (removed diff = ∅) then [] else u64_to_be 0 ++ concat (iter (removed diff)))
    = (if decide (iter (removed diff) = []) then [] else u64_to_be 0 ++ concat (iter (removed diff)))) as ->.
  { destruct (decide (removed diff = ∅)) as [He|He].
    - by rewrite decide_True by by apply iter_nil.
    - by rewrite decide_False by (rewrite iter_nil; done). }
  set (tail := if decide _ then [] else _).
  assert (∃ fuel, (length (u64_to_be (default 0%Z (parent diff)) ++ concat (iter (added diff)) ++ tail)
    = length (iter (added diff)) + fuel ∧ S (length (iter (removed diff))) < fuel)%nat) as (fuel & -> & Hf).
  { exists (8 + 15 * length (iter (added diff)) + length tail)%nat.
    rewrite !length_app, to_be_length, concat_entries_length
      by (eapply Forall_impl; [exact Ha'|by intros ? []]).
    split; [lia|]. unfold tail. case_decide as He; [rewrite He; simpl; lia|].
    rewrite length_app, to_be_length, concat_entries_length by done. lia. }
  rewrite read_added by done. unfold tail. rewrite read_end by done.
  rewrite !list_to_set_iter, !union_empty_r_L.
  destruct diff as [[p|] a r]; [|done]. cbn [parent added removed default from_option id] in *.
  rewrite decide_False by congruence. done.
Qed.
