(* ===== verification/StateCompressorSpec.v ===== *)
(** What the state compressor promises: the state stored under a number is the one it was given,
    however the differences are layered and whatever the cache holds. *)

From stdpp Require Import prelude gmap sorting.
From Stdlib Require Import ZArith Lia.
From S2P Require Import Prelude Cache Bytes DbSer Database PairKeys Short StateCompressor.
Local Open Scope Z_scope.

(** * Stacks of layers *)

(** The state the top of a stack stands for; stacks have their top first here. *)
Definition top_state (ps : list ShortStateInfo) : CompressedState :=
  match ps with [] => ∅ | p :: _ => si_full_state p end.

Definition layer (h : Z) (ps : list ShortStateInfo) (diff : StateDiff) : ShortStateInfo :=
  {| si_shortstatehash := h;
     si_full_state := match ps with
                      | [] => added diff
                      | p :: _ => (si_full_state p ∪ added diff) ∖ removed diff
                      end;
     si_added := added diff; si_removed := removed diff |}.

(** [Layers d h ps]: the database stores the differences of the stack [ps] for [h]. *)
Inductive Layers (d : Db) : Z → list ShortStateInfo → Prop :=
| Layers_base h diff : get_statediff d h = Ok diff → parent diff = None → Layers d h [layer h [] diff]
| Layers_step h diff p ps : get_statediff d h = Ok diff → parent diff = Some p → Layers d p ps →
    Layers d h (layer h ps diff :: ps).

Lemma Layers_nonempty d h ps : Layers d h ps → ps ≠ [].
Proof. by destruct 1. Qed.

Lemma Layers_functional d h ps qs : Layers d h ps → Layers d h qs → ps = qs.
Proof.
  intros Hp. revert qs. induction Hp as [h diff Hd Hn|h diff p ps Hd Hs Hp IH]; intros qs Hq;
    destruct Hq as [h diff' Hd' Hn'|h diff' p' ps' Hd' Hs' Hp']; rewrite Hd in Hd';
    injection Hd' as ->; simplify_eq; [done|]. by rewrite (IH ps' Hp').
Qed.

(** A stack's top has the stack's number, and what is below it is the stack of its parent. *)
Lemma Layers_inv d h p ps : Layers d h (p :: ps) →
  h = si_shortstatehash p ∧
  (ps = [] ∨ ∃ q qs, ps = q :: qs ∧ Layers d (si_shortstatehash q) ps).
Proof.
  intros Hl. inversion Hl as [|? ? p' ? Hd Hs Hl']; subst; simpl; [by auto|].
  split; [done|]. right. destruct ps as [|q qs]; [by apply Layers_nonempty in Hl'|].
  exists q, qs. split; [done|]. inversion Hl'; by subst.
Qed.

(** * Loading *)

Section Loading.
Context {C : Type} `{!Lru Z (list ShortStateInfo) C} `{!LruLaws Z (list ShortStateInfo) C}.

(** Cached stacks are those of the database. *)
Definition Coherent (s : Service C) : Prop :=
  ∀ h stack, lru_peek (stateinfo_cache s) h = Some stack → Layers (db (world s)) h (reverse stack).

Lemma Coherent_get s h : Coherent s →
  Coherent (with_cache s (lru_get_mut (stateinfo_cache s) h).2).
Proof. intros Hs k stack. simpl. rewrite lru_peek_get. apply Hs. Qed.

Lemma Coherent_insert s h stack : Coherent s → Layers (db (world s)) h (reverse stack) →
  Coherent (cache_shortstatehash_info s h stack).
Proof. intros Hs Hl k v. simpl. intros [[-> ->]|Hk]%lru_peek_insert; [done|by apply Hs]. Qed.

Lemma Coherent_clear s : Coherent (clear_cache s).
Proof. intros k v. simpl. by rewrite lru_peek_clear. Qed.

Lemma last_reverse_cons {A} (ps : list A) (p : A) : last (reverse (p :: ps)) = Some p.
Proof. by rewrite reverse_cons, last_snoc. Qed.

Lemma push_layer_spec stack h diff : stack ≠ [] →
  push_layer stack h diff = Ok (reverse (layer h (reverse stack) diff :: reverse stack)).
Proof.
  intros Hne. destruct (reverse stack) as [|p ps] eqn:Hr.
  { by apply (f_equal reverse) in Hr; rewrite reverse_involutive in Hr. }
  assert (stack = reverse (p :: ps)) as -> by by rewrite <-Hr, reverse_involutive.
  unfold push_layer. rewrite last_reverse_cons. simpl. by rewrite (reverse_cons (p :: ps)).
Qed.

(** A loaded stack is stored, and loading keeps the cache coherent. *)
Lemma load_sound fuel s h r s' : Coherent s → load_shortstatehash_info fuel s h = (r, s') →
  Coherent s' ∧ world s' = world s ∧ (∀ stack, r = Ok stack → Layers (db (world s)) h (reverse stack)).
Proof.
  revert s h r s'. induction fuel as [|fuel IH]; intros s h r s' Hs; cbn [load_shortstatehash_info].
  { intros [= <- <-]. done. }
  pose proof (Coherent_get s h Hs) as Hs1. pose proof (Hs h) as Hcached. unfold lru_peek in Hcached.
  destruct (lru_get_mut (stateinfo_cache s) h) as [[stack|] cache]; simpl in *.
  { intros [= <- <-]. split_and!; [done..|]. intros ? [= <-]. by apply Hcached. }
  unfold new_shortstatehash_info. simpl.
  destruct (get_statediff (db (world s)) h) as [diff|e] eqn:Hd; [|by intros [= <- <-]].
  destruct (parent diff) as [p|] eqn:Hp.
  - destruct (load_shortstatehash_info fuel (with_cache s cache) p) as [[stack|e] s1] eqn:Hl;
      apply IH in Hl as (Hs2 & Hw & Hl); try done; simpl in *; [|by intros [= <- <-]].
    specialize (Hl stack eq_refl).
    assert (stack ≠ []) as Hne.
    { intros ->. by apply Layers_nonempty in Hl. }
    rewrite push_layer_spec by done. simpl. intros [= <- <-].
    assert (Layers (db (world s)) h (layer h (reverse stack) diff :: reverse stack)) as Hnew
      by by eapply Layers_step.
    split_and!; [|done|].
    + apply Coherent_insert; [done|]. by rewrite Hw, reverse_involutive.
    + intros ? [= <-]. by rewrite reverse_involutive.
  - intros [= <- <-]. assert (Layers (db (world s)) h [layer h [] diff]) by by apply Layers_base.
    split_and!; [by apply Coherent_insert|done|]. by intros ? [= <-].
Qed.

(** A stored stack is loaded, with fuel for its layers. *)
Lemma load_complete fuel s h ps : Coherent s → Layers (db (world s)) h ps → (length ps ≤ fuel)%nat →
  (load_shortstatehash_info fuel s h).1 = Ok (reverse ps).
Proof.
  revert s h ps. induction fuel as [|fuel IH]; intros s h ps Hs Hps Hf.
  { apply Layers_nonempty in Hps. destruct ps; [done|simpl in Hf; lia]. }
  cbn [load_shortstatehash_info].
  pose proof (Coherent_get s h Hs) as Hs1. pose proof (Hs h) as Hcached. unfold lru_peek in Hcached.
  destruct (lru_get_mut (stateinfo_cache s) h) as [[stack|] cache]; simpl in *.
  { f_equal. rewrite (Layers_functional _ _ _ _ Hps (Hcached stack eq_refl)).
    by rewrite reverse_involutive. }
  unfold new_shortstatehash_info. simpl.
  destruct Hps as [h diff Hd Hp|h diff p ps Hd Hp Hps]; rewrite Hd, Hp; [done|].
  specialize (IH (with_cache s cache) p ps Hs1 Hps ltac:(simpl in Hf; lia)).
  destruct (load_shortstatehash_info fuel (with_cache s cache) p) as [r s1]. simpl in *. subst r. simpl.
  rewrite push_layer_spec, reverse_involutive; [done|].
  intros Hr. apply (f_equal reverse) in Hr. rewrite reverse_involutive in Hr. subst.
  by apply Layers_nonempty in Hps.
Qed.
End Loading.

(** * Canonical differences *)

(** Every layer adds what is not below it, removes what is, and holds entries only. *)
Fixpoint canonical (ps : list ShortStateInfo) : Prop :=
  match ps with
  | [] => True
  | p :: ps =>
      si_full_state p = (top_state ps ∪ si_added p) ∖ si_removed p ∧
      si_added p ## top_state ps ∧ si_removed p ⊆ top_state ps ∧
      set_Forall is_event (si_added p) ∧ 0 < si_shortstatehash p ≤ u64_max ∧ canonical ps
  end.

Lemma canonical_events ps : canonical ps → set_Forall is_event (top_state ps).
Proof.
  induction ps as [|p ps IH]; simpl; [done|]. intros (-> & _ & _ & Ha & _ & Hps).
  intros v Hv. apply elem_of_difference in Hv as [[Hv|Hv]%elem_of_union _]; [by apply IH|by apply Ha].
Qed.

(** ** Folding a difference into its parent *)

Lemma foldl_removed (l : list bytes) (a r : CompressedState) : NoDup l →
  foldl (fun '(parent_new, parent_removed) removed =>
           let '(was, parent_new) := set_remove parent_new removed in
           (parent_new, if was : bool then parent_removed else {[removed]} ∪ parent_removed)) (a, r) l
  = (a ∖ list_to_set l, r ∪ (list_to_set l ∖ a)).
Proof.
  revert a r. induction l as [|v l IH]; intros a r Hnd; simpl.
  { f_equal; set_solver. }
  apply NoDup_cons in Hnd as [Hv Hnd]. rewrite IH by done.
  assert (v ∉@{CompressedState} list_to_set l) by by rewrite elem_of_list_to_set.
  case_bool_decide; f_equal; apply set_eq; intros x; destruct (decide (x = v)); set_solver.
Qed.

Lemma foldl_new (l : list bytes) (a r : CompressedState) : NoDup l →
  foldl (fun '(parent_new, parent_removed) new =>
           let '(was, parent_removed) := set_remove parent_removed new in
           (if was : bool then parent_new else {[new]} ∪ parent_new, parent_removed)) (a, r) l
  = (a ∪ (list_to_set l ∖ r), r ∖ list_to_set l).
Proof.
  revert a r. induction l as [|v l IH]; intros a r Hnd; simpl.
  { f_equal; set_solver. }
  apply NoDup_cons in Hnd as [Hv Hnd]. rewrite IH by done.
  assert (v ∉@{CompressedState} list_to_set l) by by rewrite elem_of_list_to_set.
  case_bool_decide; f_equal; apply set_eq; intros x; destruct (decide (x = v)); set_solver.
Qed.

Lemma fold_diff_spec a r new rem :
  fold_diff a r new rem =
  ((a ∖ rem) ∪ (new ∖ (r ∪ (rem ∖ a))), (r ∪ (rem ∖ a)) ∖ new).
Proof.
  unfold fold_diff. rewrite foldl_removed by apply NoDup_iter.
  rewrite foldl_new by apply NoDup_iter. by rewrite !list_to_set_iter.
Qed.

(** The folded difference is canonical below the parent, and leads to the same state. *)
Lemma fold_diff_correct below a r new rem a' r' :
  a ## below → r ⊆ below → new ## (below ∪ a) ∖ r → rem ⊆ (below ∪ a) ∖ r →
  fold_diff a r new rem = (a', r') →
  a' ## below ∧ r' ⊆ below ∧
  (below ∪ a') ∖ r' = ((below ∪ a) ∖ r ∪ new) ∖ rem.
Proof.
  rewrite fold_diff_spec. intros Ha Hr Hnew Hrem [= <- <-]. split_and!; [set_solver| |].
  - intros x. set_solver.
  - apply set_eq. intros x. split.
    + intros [Hx Hnr]%elem_of_difference.
      destruct (decide (x ∈ new)), (decide (x ∈ rem)), (decide (x ∈ r)), (decide (x ∈ a)),
        (decide (x ∈ below)); set_solver.
    + intros [Hx Hnr]%elem_of_difference.
      destruct (decide (x ∈ new)), (decide (x ∈ rem)), (decide (x ∈ r)), (decide (x ∈ a)),
        (decide (x ∈ below)); set_solver.
Qed.

(** * Saving *)

(** Stacks of the database below new ones. *)
Definition stack_of (d : Db) (ps : list ShortStateInfo) : Prop :=
  match ps with [] => True | p :: _ => Layers d (si_shortstatehash p) ps end.

Lemma stack_of_tail d p ps : stack_of d (p :: ps) → stack_of d ps.
Proof. intros Hl. apply Layers_inv in Hl as [_ [->|(q & qs & -> & Hl)]]; done. Qed.

(** Nothing is stored for [h]. *)
Definition fresh_diff (d : Db) (h : Z) : Prop := d shortstatehash_statediff !! u64_to_be h = None.

Lemma get_statediff_other d h h' diff : get_statediff d h' = Ok diff → fresh_diff d h →
  ∀ new, get_statediff (save_statediff d h new) h' = Ok diff.
Proof.
  unfold get_statediff, save_statediff, fresh_diff. rewrite !aqry_u64. unfold get. intros Hd Hf new.
  rewrite aqry_u64. unfold get. rewrite insert_same.
  rewrite lookup_insert_ne; [done|]. intros Heq. rewrite <-Heq, Hf in Hd. done.
Qed.

Lemma Layers_save d h h' ps new : fresh_diff d h → Layers d h' ps → Layers (save_statediff d h new) h' ps.
Proof.
  intros Hf Hl. induction Hl as [h' diff Hd Hp|h' diff p ps Hd Hp Hl IH].
  - apply Layers_base; [by apply get_statediff_other|done].
  - eapply Layers_step; [by apply get_statediff_other|done|done].
Qed.

Lemma set_Forall_fold a r new rem a' r' : set_Forall is_event a → set_Forall is_event new →
  fold_diff a r new rem = (a', r') → set_Forall is_event a'.
Proof. rewrite fold_diff_spec. intros Ha Hnew [= <- _] v Hv. set_solver. Qed.

(** Where a successful save leaves the new number. *)
Definition Saved (d : Db) (h : Z) (st : CompressedState) (d' : Db) : Prop :=
  (∃ diff, d' = save_statediff d h diff) ∧
  ∃ ps, Layers d' h ps ∧ canonical ps ∧ top_state ps = st ∧ (length ps ≤ 4)%nat.

(** A difference that is canonical above a stored stack becomes its new top. *)
Lemma save_layer d h ps diff :
  fresh_diff d h → 0 < h ≤ u64_max → stack_of d ps → canonical ps → (length ps ≤ 3)%nat →
  set_Forall is_event (added diff) → added diff ## top_state ps → removed diff ⊆ top_state ps →
  parent diff = si_shortstatehash <$> head ps →
  Saved d h ((top_state ps ∪ added diff) ∖ removed diff) (save_statediff d h diff).
Proof.
  intros Hf Hh Hst Hps Hlen Ha Hdis Hrem Hp. split; [by eexists|].
  assert (get_statediff (save_statediff d h diff) h = Ok diff) as Hget.
  { apply get_save_statediff; [done| |..].
    - intros v Hv. apply Hrem in Hv. by apply (canonical_events ps Hps) in Hv as [? _].
    - rewrite Hp. destruct ps as [|p ps]; simpl; [done|]. simpl in Hps. word.
    - rewrite Hp. destruct ps as [|p ps]; simpl; [done|]. simpl in Hps. intros [= ?]. lia. }
  assert (canonical (layer h ps diff :: ps)) as Hcan.
  { simpl. split_and!; try done; try lia. destruct ps; [|done].
    simpl in *. apply set_eq. intros x. set_solver. }
  exists (layer h ps diff :: ps). split_and!; [|done|by destruct Hcan|simpl; lia].
  destruct ps as [|p ps]; [by apply Layers_base|].
  eapply Layers_step; [done|exact Hp|]. by apply Layers_save.
Qed.

Lemma save_on_stack_correct d h ps : ∀ new rem sibling d',
  fresh_diff d h → 0 < h ≤ u64_max → stack_of d ps → canonical ps →
  set_Forall is_event new → new ## top_state ps → rem ⊆ top_state ps →
  save_on_stack d h new rem sibling ps = Ok d' →
  Saved d h ((top_state ps ∪ new) ∖ rem) d'.
Proof.
  induction ps as [|p ps IH]; intros new rem sibling d' Hf Hh Hst Hps Hnew Hdis Hrem;
    cbn [save_on_stack].
  - intros Heq. inv_ok.
    apply (save_layer d h [] {| parent := None; added := new; removed := rem |}); try done.
    simpl; lia.
  - intros Heq. inv_ok.
    destruct (fold_diff (si_added p) (si_removed p) new rem) as [a' r'] eqn:Hfold.
    pose proof Hps as (Hfull & Hap & Hrp & Hep & Hhp & Hps').
    pose proof (fold_diff_correct (top_state ps) _ _ new rem a' r' Hap Hrp) as Hcor.
    rewrite <-Hfull in Hcor. simpl in Hdis, Hrem. specialize (Hcor Hdis Hrem Hfold) as (Hab & Hrb & Hcor).
    assert (∀ sibling, save_on_stack d h a' r' sibling ps = Ok d' →
      Saved d h ((top_state (p :: ps) ∪ new) ∖ rem) d') as Hrec.
    { intros sib Hsave. simpl. rewrite <-Hcor. apply (IH a' r' sib); try done.
      - by eapply stack_of_tail.
      - by apply (set_Forall_fold (si_added p) (si_removed p) new rem a' r'). }
    case_decide as Hlen; [by eapply Hrec|]. inv_ok. case_decide; [by eapply Hrec|]. inv_ok.
    apply (save_layer d h (p :: ps)
      {| parent := Some (si_shortstatehash p); added := new; removed := rem |}); try done.
    simpl in *. lia.
Qed.

(** ** Success *)

Definition diff_size (p : ShortStateInfo) : Z := set_len (si_added p) + set_len (si_removed p).
Definition stack_size (ps : list ShortStateInfo) : Z := foldr (fun p n => diff_size p + n) 0 ps.

Lemma set_len_nonneg s : 0 ≤ set_len s.
Proof. unfold set_len. lia. Qed.

Lemma stack_size_nonneg ps : 0 ≤ stack_size ps.
Proof.
  induction ps as [|p ps IH]; simpl; [done|]. unfold diff_size.
  pose proof (set_len_nonneg (si_added p)). pose proof (set_len_nonneg (si_removed p)). lia.
Qed.

Lemma set_len_union (x y z : CompressedState) : x ⊆ y ∪ z → set_len x ≤ set_len y + set_len z.
Proof.
  intros Hx%subseteq_size. rewrite size_union_alt in Hx.
  assert (size (z ∖ y) ≤ size z)%nat by (apply subseteq_size; set_solver). unfold set_len. lia.
Qed.

Lemma fold_diff_size a r new rem a' r' : fold_diff a r new rem = (a', r') →
  set_len a' + set_len r' ≤ set_len a + set_len r + set_len new + set_len rem.
Proof.
  rewrite fold_diff_spec. intros [= <- <-].
  pose proof (set_len_union (a ∖ rem ∪ new ∖ (r ∪ rem ∖ a)) a new ltac:(set_solver)).
  pose proof (set_len_union ((r ∪ rem ∖ a) ∖ new) r rem ltac:(set_solver)). lia.
Qed.

Lemma checked_usize_ok n : is_u64 n → checked_usize n = Ok n.
Proof. intros. unfold checked_usize, checked_u64. by rewrite decide_True. Qed.

(** The next checked operation of a computation does not overflow. *)
Ltac checked :=
  match goal with
  | |- ∃ _, checked_usize ?n ≫= _ = _ =>
      rewrite (checked_usize_ok n) by (unfold is_u64, u64_max; nia); cbn [mbind result_bind]
  end.

Lemma stack_size_cons p ps : stack_size (p :: ps) = diff_size p + stack_size ps.
Proof. done. Qed.

(** No overflow while the stack and the difference have fewer than 2^31 entries. *)
Lemma save_on_stack_total d h ps : ∀ new rem sibling,
  0 ≤ sibling ≤ 2 ^ 31 → set_len new + set_len rem + stack_size ps < 2 ^ 31 →
  ∃ d', save_on_stack d h new rem sibling ps = Ok d'.
Proof.
  induction ps as [|p ps IH]; intros new rem sibling Hsib Hsize; cbn [save_on_stack];
    pose proof (set_len_nonneg new); pose proof (set_len_nonneg rem).
  { change (stack_size []) with 0 in Hsize. checked. eauto. }
  pose proof (stack_size_nonneg ps). rewrite stack_size_cons in Hsize. unfold diff_size in Hsize.
  pose proof (set_len_nonneg (si_added p)). pose proof (set_len_nonneg (si_removed p)).
  checked. destruct (fold_diff (si_added p) (si_removed p) new rem) as [a r] eqn:Hfold.
  apply fold_diff_size in Hfold.
  assert (∀ sib, 0 ≤ sib ≤ 2 ^ 31 → ∃ d', save_on_stack d h a r sib ps = Ok d') as Hrec.
  { intros sib Hs. apply IH; lia. }
  case_decide; [apply Hrec; lia|]. checked. checked. checked.
  checked. case_decide; [apply Hrec; lia|eauto].
Qed.

(** * The service *)

Lemma get_statediff_ext d d' h : d shortstatehash_statediff = d' shortstatehash_statediff →
  get_statediff d h = get_statediff d' h.
Proof. intros Heq. unfold get_statediff. rewrite !aqry_u64. unfold get. by rewrite Heq. Qed.

Lemma Layers_ext d d' h ps : d shortstatehash_statediff = d' shortstatehash_statediff →
  Layers d h ps → Layers d' h ps.
Proof.
  intros Heq. induction 1 as [h diff Hd Hp|h diff p ps Hd Hp Hl IH].
  - apply Layers_base; [by rewrite <-(get_statediff_ext _ _ _ Heq)|done].
  - eapply Layers_step; [by rewrite <-(get_statediff_ext _ _ _ Heq)|done|done].
Qed.

(** The room's state is [st]. *)
Definition state_at (d : Db) (h : Z) (st : CompressedState) : Prop :=
  ∃ ps, Layers d h ps ∧ top_state ps = st.

Lemma state_at_functional d h st st' : state_at d h st → state_at d h st' → st = st'.
Proof.
  intros (ps & Hl & <-) (ps' & Hl' & <-). by rewrite (Layers_functional _ _ _ _ Hl Hl').
Qed.

Section Service.
Context `{!Parsers} `{!Digest} {C : Type} `{!Lru Z (list ShortStateInfo) C} `{!LruLaws Z (list ShortStateInfo) C}.

(** The tables of numbers are well formed, the cache agrees with the database, and every difference
    is stored under a number already drawn, in a canonical stack of at most four layers; rooms
    point to stored states. *)
Record Stored (s : Service C) : Prop := {
  st_short : Inv (world s);
  st_coherent : Coherent s;
  st_keys k v : db (world s) shortstatehash_statediff !! k = Some v →
    ∃ n ps, 0 < n ≤ counter (world s) ∧ k = u64_to_be n ∧
      Layers (db (world s)) n ps ∧ canonical ps ∧ (length ps ≤ 4)%nat;
  st_rooms room v : db (world s) roomid_shortstatehash !! room = Some v →
    ∃ n, 0 < n ≤ counter (world s) ∧ v = u64_to_be n ∧
      is_Some (db (world s) shortstatehash_statediff !! u64_to_be n);
}.

(** The states in the table of hashes are stored and have their hash. *)
Definition Hashed (s : Service C) : Prop := ∀ hash n, is_u64 n →
  db (world s) statehash_shortstatehash !! hash = Some (u64_to_be n) →
  ∃ st, state_at (db (world s)) n st ∧ calculate_hash st = hash.

(** The stack of a stored number. *)
Lemma stored_layers s n : Stored s → is_u64 n →
  is_Some (db (world s) shortstatehash_statediff !! u64_to_be n) →
  ∃ ps, Layers (db (world s)) n ps ∧ canonical ps ∧ (length ps ≤ 4)%nat ∧ stack_of (db (world s)) ps.
Proof.
  intros Hs Hn [v Hv]. destruct (st_keys s Hs _ _ Hv) as (m & ps & Hm & Heq & Hl & Hc & Hlen).
  pose proof (inv_counter _ (st_short s Hs)).
  apply u64_to_be_inj in Heq as <-; [|word..]. exists ps. split_and!; try done.
  destruct ps as [|p ps]; [done|]. simpl. by destruct (Layers_inv _ _ _ _ Hl) as [<- _].
Qed.

Lemma Layers_stored d h ps : Layers d h ps → is_Some (d shortstatehash_statediff !! u64_to_be h).
Proof.
  intros Hl. assert (∃ diff, get_statediff d h = Ok diff) as [diff Hd] by (destruct Hl; eauto).
  unfold get_statediff in Hd. rewrite aqry_u64 in Hd. unfold get in Hd.
  destruct (d shortstatehash_statediff !! u64_to_be h); [by eexists|done].
Qed.

(** A number above the counter has no difference. *)
Lemma fresh_above s h : Stored s → counter (world s) < h ≤ u64_max → fresh_diff (db (world s)) h.
Proof.
  intros Hs Hh. unfold fresh_diff.
  destruct (db (world s) shortstatehash_statediff !! u64_to_be h) eqn:Hv; [|done].
  destruct (st_keys s Hs _ _ Hv) as (n & ? & Hn & Heq & _).
  pose proof (inv_counter _ (st_short s Hs)). apply u64_to_be_inj in Heq; word.
Qed.

(** The state a room points to; the empty one when it points to none. *)
Definition room_state (s : Service C) (room : bytes) (st : CompressedState) : Prop :=
  match ok (get_room_shortstatehash (world s) room) with
  | Some p => state_at (db (world s)) p st
  | None => st = ∅
  end.

(** Worlds that differ in other columns, with more numbers drawn, store the same states. *)
Record extends (w w' : World) : Prop := {
  ext_inv : Inv w';
  ext_counter : counter w ≤ counter w';
  ext_diff : db w' shortstatehash_statediff = db w shortstatehash_statediff;
  ext_rooms : db w' roomid_shortstatehash = db w roomid_shortstatehash;
}.

Lemma extends_trans w w' w'' : extends w w' → extends w' w'' → extends w w''.
Proof. intros [] []. split; [done|lia|congruence..]. Qed.

Lemma Stored_extends s w : Stored s → extends (world s) w → Stored (with_world s w).
Proof.
  intros Hs [Hinv Hcount Heq Hrooms].
  split; simpl.
  - done.
  - intros h stack Hpk. apply (Layers_ext (db (world s))); [done|]. by apply (st_coherent s Hs).
  - intros k v. rewrite Heq. intros Hv.
    destruct (st_keys s Hs _ _ Hv) as (m & ps & Hm & -> & Hl & Hcn & Hlen).
    exists m, ps. split_and!; try done; try lia. by eapply Layers_ext.
  - intros room v. rewrite Hrooms, Heq. intros Hv.
    destruct (st_rooms s Hs _ _ Hv) as (m & Hm & -> & Hd). exists m. split_and!; done || lia.
Qed.

Lemma state_at_extends w w' h st : extends w w' → state_at (db w) h st → state_at (db w') h st.
Proof. intros [_ _ Heq _] (ps & Hl & <-). exists ps. split; [by eapply Layers_ext|done]. Qed.

Lemma room_state_functional s room st st' : room_state s room st → room_state s room st' → st = st'.
Proof. unfold room_state. destruct (ok _); [apply state_at_functional|by intros -> ->]. Qed.

Lemma room_state_extends s w room st : extends (world s) w → room_state s room st →
  room_state (with_world s w) room st.
Proof.
  intros He. unfold room_state, get_room_shortstatehash, get. simpl. rewrite (ext_rooms _ _ He).
  destruct (ok _); [by apply state_at_extends|done].
Qed.

(** Drawing numbers leaves the states alone. *)
Lemma extends_allocate w c k : Inv w → counter w < u64_max → is_id c → extends w (allocate w c k).2.
Proof.
  intros Hw Hlt Hc.
  pose proof (allocate_stored w c k Hw Hlt Hc) as Hst. pose proof (Inv_allocate w c k Hw Hlt Hc) as Hinv.
  pose proof (fun c' => allocate_plain w c k c' Hc) as Hpl.
  destruct (allocate w c k) as [n w']. cbn [fst snd] in *. destruct Hst as (_ & _ & Hcount).
  split; [done|lia|by rewrite Hpl..].
Qed.

Lemma extends_next w : Inv w → counter w < u64_max → ∃ w',
  next_count w = Ok (counter w + 1, w') ∧ extends w w' ∧ counter w' = counter w + 1 ∧
  (∀ c, c ≠ global → db w' c = db w c).
Proof.
  intros Hw Hlt. rewrite next_count_spec by done. eexists. split_and!; [done| |done|].
  2:{ intros c Hc. by apply insert_other. }
  pose proof (inv_counter w Hw) as Hcnt. pose proof (is_id_not_global) as Hg.
  split; simpl; [|lia|by apply insert_other..]. split; simpl.
  - word.
  - unfold stored_count, get. rewrite insert_same, lookup_insert_eq. cbn [ok_or_fail ok_or].
    unfold u64_from_bytes. rewrite decide_True by done. cbn. f_equal. apply u64_round_trip. word.
  - intros c k v Hc. rewrite insert_other by auto. intros Hl.
    destruct (inv_issued w Hw c k v Hc Hl) as (n & Hn & ->). exists n. split; [lia|done].
  - intros c c' k k' v Hc Hc'. rewrite !insert_other by auto. by apply (inv_unique w Hw).
  - intros c b k v Hb. pose proof (inverse_id _ _ Hb) as (Hc & _ & Hbg & _).
    rewrite !insert_other by auto. by apply (inv_inverse w Hw).
Qed.

(** Writing a column that holds neither numbers nor states. *)
Lemma extends_plain w c k v : Inv w → plain_column c → c ≠ shortstatehash_statediff →
  c ≠ roomid_shortstatehash → extends w (with_db w (insert (db w) c k v)).
Proof.
  intros Hw Hc Hd Hr. split; simpl; [|lia|by rewrite insert_other..].
  apply Inv_plain; [done|]. intros c' Hc'. apply insert_other. by intros ->.
Qed.

(** Storing a state under a drawn number. *)
Lemma Stored_save s h st d' : Stored s → fresh_diff (db (world s)) h → 0 < h ≤ counter (world s) →
  Saved (db (world s)) h st d' → Stored (with_world s (with_db (world s) d')) ∧ state_at d' h st ∧
  (∀ h' st', state_at (db (world s)) h' st' → state_at d' h' st').
Proof.
  intros Hs Hf Hh [[diff ->] (ps & Hl & Hcn & Hst & Hlen)].
  assert (∀ h' ps', Layers (db (world s)) h' ps' →
    Layers (save_statediff (db (world s)) h diff) h' ps') as Hold by (intros; by apply Layers_save).
  assert (∀ c, c ≠ shortstatehash_statediff →
    save_statediff (db (world s)) h diff c = db (world s) c) as Hother
    by (intros; by apply insert_other).
  split_and!; [split; simpl| |].
  - apply Inv_plain; [by apply st_short|]. intros c Hc. apply Hother. by intros ->.
  - intros h' stack Hpk. by apply Hold, (st_coherent s Hs).
  - intros k v. unfold save_statediff at 1. rewrite insert_same.
    intros [[<- _]|[_ Hv]]%lookup_insert_Some; [by exists h, ps|].
    destruct (st_keys s Hs _ _ Hv) as (m & ps' & Hm & -> & Hl' & Hcn' & Hlen').
    exists m, ps'. split_and!; try done; try lia. by apply Hold.
  - intros room v. rewrite Hother by done. intros Hv.
    destruct (st_rooms s Hs _ _ Hv) as (m & Hm & -> & Hd). exists m. split_and!; try done; try lia.
    unfold save_statediff. rewrite insert_same. apply lookup_insert_is_Some'. by right.
  - by exists ps.
  - intros h' st' (ps' & Hl' & <-). exists ps'. split; [by apply Hold|done].
Qed.

Lemma Stored_cache s s' : Stored s → Coherent s' → world s' = world s → Stored s'.
Proof. intros [] Hc Hw. split; rewrite ?Hw; done. Qed.

(** ** Reading a state back *)

Lemma stored_state s h st : Stored s → is_u64 h → state_at (db (world s)) h st →
  ∃ ps, Layers (db (world s)) h ps ∧ canonical ps ∧ (length ps ≤ 4)%nat ∧
    stack_of (db (world s)) ps ∧ top_state ps = st.
Proof.
  intros Hs Hh (ps & Hl & <-). destruct (stored_layers s h Hs Hh (Layers_stored _ _ _ Hl))
    as (qs & Hq & Hc & Hlen & Hst).
  rewrite (Layers_functional _ _ _ _ Hl Hq). by exists qs.
Qed.

Lemma last_top_state ps p : last (reverse ps) = Some p → si_full_state p = top_state ps.
Proof. destruct ps as [|q ps]; [done|]. rewrite last_reverse_cons. by intros [= ->]. Qed.

Lemma load_state s h st fuel : Stored s → is_u64 h → (4 ≤ fuel)%nat → state_at (db (world s)) h st →
  ∃ stack top, (load_shortstatehash_info fuel s h).1 = Ok stack ∧ last stack = Some top ∧
    si_full_state top = st.
Proof.
  intros Hs Hh Hf Hst. destruct (stored_state s h st Hs Hh Hst) as (ps & Hl & _ & Hlen & _ & <-).
  exists (reverse ps). destruct ps as [|p ps]; [by apply Layers_nonempty in Hl|].
  exists p. rewrite last_reverse_cons. split_and!; [|done..].
  apply load_complete; [by apply st_coherent|done|lia].
Qed.

(** ** Saving a state *)

Lemma diff_from_spec ps new :
  diff_from (reverse ps) new = (new ∖ top_state ps, top_state ps ∖ new).
Proof.
  unfold diff_from. destruct ps as [|p ps]; [|by rewrite last_reverse_cons].
  simpl. f_equal; set_solver.
Qed.

Lemma top_state_size ps : canonical ps → set_len (top_state ps) ≤ stack_size ps.
Proof.
  induction ps as [|p ps IH]; [done|]. simpl. intros (-> & _ & _ & _ & _ & Hps).
  specialize (IH Hps). unfold diff_size. pose proof (set_len_nonneg (si_removed p)).
  pose proof (set_len_union ((top_state ps ∪ si_added p) ∖ si_removed p) (top_state ps) (si_added p)
    ltac:(set_solver)). lia.
Qed.

(** Basing a state on a stored one saves it. *)
Lemma save_based d h ps new sibling : fresh_diff d h → 0 < h ≤ u64_max → stack_of d ps →
  canonical ps → set_Forall is_event new → 0 ≤ sibling ≤ 2 ^ 31 →
  set_len new + 2 * stack_size ps < 2 ^ 31 →
  ∃ d', save_state_from_diff d h (new ∖ top_state ps) (top_state ps ∖ new) sibling (reverse ps) = Ok d' ∧
    Saved d h new d'.
Proof.
  intros Hf Hh Hst Hc Hnew Hsib Hsize. unfold save_state_from_diff. rewrite reverse_involutive.
  pose proof (top_state_size ps Hc) as Htop.
  pose proof (set_len_union (new ∖ top_state ps) new ∅ ltac:(set_solver)) as Hn1.
  pose proof (set_len_union (top_state ps ∖ new) (top_state ps) ∅ ltac:(set_solver)) as Hn2.
  change (set_len ∅) with 0 in Hn1, Hn2.
  destruct (save_on_stack_total d h ps (new ∖ top_state ps) (top_state ps ∖ new) sibling)
    as [d' Hd']; [done|lia|].
  exists d'. split; [done|].
  assert ((top_state ps ∪ new ∖ top_state ps) ∖ (top_state ps ∖ new) = new) as Heq.
  { apply set_eq. intros x. destruct (decide (x ∈ top_state ps)), (decide (x ∈ new)); set_solver. }
  rewrite <-Heq. eapply save_on_stack_correct; try done.
  - intros v Hv. apply Hnew. set_solver.
  - set_solver.
  - set_solver.
Qed.

Lemma room_number s room : Stored s →
  match ok (get_room_shortstatehash (world s) room) with
  | Some p => 0 < p ≤ counter (world s) ∧ is_Some (db (world s) shortstatehash_statediff !! u64_to_be p)
  | None => True
  end.
Proof.
  intros Hs. unfold get_room_shortstatehash, deserialized_u64, deserialized, get.
  destruct (db (world s) roomid_shortstatehash !! room) as [v|] eqn:Hv; [|done].
  destruct (st_rooms s Hs _ _ Hv) as (n & Hn & -> & Hd).
  pose proof (inv_counter _ (st_short s Hs)). cbn [ok_or_fail ok_or mbind result_bind].
  rewrite from_slice_u64 by word. done.
Qed.

(** The stack a room's state is based on, loaded. *)
Lemma load_previous s room st fuel : Stored s → (4 ≤ fuel)%nat → room_state s room st → ∃ ps s',
  (match ok (get_room_shortstatehash (world s) room) with
   | Some p => match load_shortstatehash_info fuel s p with
               | (Ok stack, s) => (stack, s) | (Err _, s) => ([], s) end
   | None => ([], s)
   end) = (reverse ps, s') ∧
  Stored s' ∧ world s' = world s ∧ canonical ps ∧ stack_of (db (world s)) ps ∧ top_state ps = st.
Proof.
  intros Hs Hf. pose proof (room_number s room Hs) as Hp. unfold room_state.
  destruct (ok _) as [p|]; [|intros ->; by exists [], s].
  destruct Hp as [Hp _]. pose proof (inv_counter _ (st_short s Hs)) as Hcnt. intros Hst.
  destruct (stored_state s p st Hs ltac:(word) Hst) as (ps & Hl & Hc & Hlen & Hstk & Htop).
  pose proof (load_complete fuel s p ps (st_coherent s Hs) Hl ltac:(lia)) as Hload.
  destruct (load_shortstatehash_info fuel s p) as [r s'] eqn:Heq. simpl in Hload. subst r.
  apply load_sound in Heq as (Hco & Hw & _); [|by apply st_coherent].
  exists ps, s'. split_and!; try done. by eapply Stored_cache.
Qed.

(** What [save_state] leaves behind: the new state stored under the number returned, the states
    stored before still there, and the differences between the room's state and the new one. *)
Definition saves (s : Service C) (room : bytes) (new : CompressedState)
    (out : comp db_error HashSetCompressStateEvent * Service C) : Prop :=
  ∃ r s', out = (Ok r, s') ∧ Stored s' ∧ Hashed s' ∧ state_at (db (world s')) (hs_shortstatehash r) new ∧
    0 < hs_shortstatehash r ≤ counter (world s') ∧
    (∀ h st, state_at (db (world s)) h st → state_at (db (world s')) h st) ∧
    (∀ old, room_state s room old → hs_added r = new ∖ old ∧ hs_removed r = old ∖ new).

(** The state has a number already. *)
Lemma save_state_existing fuel s room new n : Stored s → Hashed s → counter (world s) < u64_max →
  (4 ≤ fuel)%nat → 0 < n ≤ counter (world s) →
  db (world s) statehash_shortstatehash !! calculate_hash new = Some (u64_to_be n) →
  state_at (db (world s)) n new → (∃ old, room_state s room old) →
  saves s room new (save_state fuel s room new).
Proof.
  intros Hs Hh Hlt Hf Hn Hk Hnew [old Hold]. pose proof (inv_counter _ (st_short s Hs)).
  unfold save_state. rewrite get_or_create_shortstatehash_spec by (done || by apply st_short).
  unfold allocate. rewrite Hk, bool_decide_eq_true_2 by done.
  assert (from_be (u64_to_be n) = n) as -> by (apply u64_round_trip; word).
  assert (with_world s (world s) = s) as -> by by destruct s. cbv beta iota zeta.
  destruct (decide (Some n = ok (get_room_shortstatehash (world s) room))) as [Heq|Hne].
  - eexists _, s. split_and!; try (done || (simpl; lia)). simpl. intros old' Hold'. unfold room_state in Hold'.
    rewrite <-Heq in Hold'. rewrite (state_at_functional _ _ _ _ Hold' Hnew). set_solver.
  - destruct (load_previous s room old fuel Hs Hf Hold) as (ps & s' & -> & Hs' & Hw & Hc & Hst & Htop).
    rewrite diff_from_spec, Htop.
    assert (with_world s' (with_db (world s') (db (world s'))) = s') as -> by by destruct s' as [[] ?].
    eexists _, s'. split_and!; rewrite ?Hw; try (done || (simpl; lia)).
    + intros k m Hm. rewrite Hw. by apply Hh.
    + simpl. intros old' Hold'. by rewrite (room_state_functional s room old' old).
Qed.

(** States stay in their table when more are stored. *)
Lemma Hashed_mono s s' : Hashed s →
  (∀ h st, state_at (db (world s)) h st → state_at (db (world s')) h st) →
  db (world s') statehash_shortstatehash = db (world s) statehash_shortstatehash → Hashed s'.
Proof.
  intros Hh Hmono Heq hash n Hn. rewrite Heq. intros Hl.
  destruct (Hh hash n Hn Hl) as (st & Hst & Hhash). exists st. split; [by apply Hmono|done].
Qed.

(** A new state gets a layer under a number just drawn. *)
Lemma save_above s s' n new ps sibling : Stored s → extends (world s) (world s') →
  counter (world s) < n ≤ counter (world s') → set_Forall is_event new → Stored s' →
  canonical ps → stack_of (db (world s')) ps → 0 ≤ sibling ≤ 2 ^ 31 →
  set_len new + 2 * stack_size ps < 2 ^ 31 → ∃ d',
  save_state_from_diff (db (world s')) n (new ∖ top_state ps) (top_state ps ∖ new) sibling (reverse ps)
    = Ok d' ∧
  Stored (with_world s' (with_db (world s') d')) ∧ state_at d' n new ∧
  (∀ h st, state_at (db (world s')) h st → state_at d' h st) ∧
  (∀ c, c ≠ shortstatehash_statediff → d' c = db (world s') c).
Proof.
  intros Hs Hext Hn Hnew Hs' Hc Hst Hsib Hsize.
  pose proof (inv_counter _ (st_short s Hs)). pose proof (inv_counter _ (st_short s' Hs')).
  assert (fresh_diff (db (world s')) n) as Hfresh.
  { unfold fresh_diff. rewrite (ext_diff _ _ Hext). apply (fresh_above s); [done|]. word. }
  destruct (save_based (db (world s')) n ps new sibling) as (d' & Hd' & Hsaved); try (done || word).
  destruct (Stored_save s' n new d' Hs' Hfresh ltac:(word) Hsaved) as (Hs2 & Hat & Hmono2).
  exists d'. split_and!; try done.
  intros c Hne. destruct Hsaved as [[diff ->] _]. by apply insert_other.
Qed.

(** A new state gets the number drawn for its hash and a layer. *)
Lemma save_new_number s new n ps s' sibling : Stored s → Hashed s →
  n = counter (world s) + 1 → n ≤ u64_max →
  db (world s) statehash_shortstatehash !! calculate_hash new = None →
  set_Forall is_event new → Stored s' →
  world s' = issue (world s) statehash_shortstatehash (calculate_hash new) →
  canonical ps → stack_of (db (world s')) ps → 0 ≤ sibling ≤ 2 ^ 31 →
  set_len new + 2 * stack_size ps < 2 ^ 31 → ∃ d',
  save_state_from_diff (db (world s')) n (new ∖ top_state ps) (top_state ps ∖ new) sibling (reverse ps)
    = Ok d' ∧
  Stored (with_world s' (with_db (world s') d')) ∧ Hashed (with_world s' (with_db (world s') d')) ∧
  state_at d' n new ∧ (∀ h st, state_at (db (world s')) h st → state_at d' h st) ∧
  (∀ c, c ≠ shortstatehash_statediff → d' c = db (world s') c).
Proof.
  intros Hs Hh Hn Hmax Hk Hnew Hs' Hw Hc Hst Hsib Hsize.
  pose proof (inv_counter _ (st_short s Hs)) as Hcnt.
  pose proof (extends_allocate (world s) statehash_shortstatehash (calculate_hash new)
    (st_short s Hs) ltac:(lia) I) as Hext.
  unfold allocate in Hext. rewrite Hk in Hext. cbn [snd] in Hext. rewrite <-Hw in Hext.
  assert (counter (world s') = n) as Hle by by rewrite Hw, Hn.
  destruct (save_above s s' n new ps sibling) as (d' & Hd' & Hs2 & Hat & Hmono2 & Hcol);
    try (done || word).
  exists d'. split_and!; try done.
  intros k m Hm Hl. simpl in Hl |- *. rewrite Hcol, Hw, issue_id in Hl by done.
  rewrite decide_True in Hl by done. apply lookup_insert_Some in Hl as [[<- Heq]|[_ Hl]].
  - rewrite <-Hn in Heq. apply u64_to_be_inj in Heq as <-; [by exists new|word|done].
  - destruct (Hh k m Hm Hl) as (st & Hst' & Hhash). exists st. split; [|done].
    apply Hmono2. by eapply state_at_extends.
Qed.

(** The state is new. *)
Lemma save_state_fresh fuel s room new old : Stored s → Hashed s → counter (world s) < u64_max →
  (4 ≤ fuel)%nat → db (world s) statehash_shortstatehash !! calculate_hash new = None →
  set_Forall is_event new → room_state s room old →
  (∀ h ps, Layers (db (world s)) h ps → set_len new + 2 * stack_size ps < 2 ^ 31) →
  set_len new < 2 ^ 31 → saves s room new (save_state fuel s room new).
Proof.
  intros Hs Hh Hlt Hf Hk Hnew Hold Hsize Hsize0. pose proof (inv_counter _ (st_short s Hs)) as Hcnt.
  pose proof (extends_allocate (world s) statehash_shortstatehash (calculate_hash new)
    (st_short s Hs) Hlt I) as Hext.
  unfold save_state. rewrite get_or_create_shortstatehash_spec by (done || by apply st_short).
  unfold allocate in *. rewrite Hk in *. rewrite (bool_decide_eq_false_2 _ is_Some_None).
  set (w1 := issue (world s) statehash_shortstatehash (calculate_hash new)) in *.
  set (n := counter (world s) + 1). set (s1 := with_world s w1). cbn [snd] in Hext.
  pose proof (Stored_extends s w1 Hs Hext) as Hs1.
  pose proof (room_state_extends s w1 room old Hext Hold) as Hold1.
  pose proof (room_number s room Hs) as Hprev. rewrite decide_False.
  2:{ intros Heq. rewrite <-Heq in Hprev. subst n. lia. }
  assert (get_room_shortstatehash (world s) room = get_room_shortstatehash (world s1) room) as ->.
  { unfold get_room_shortstatehash, get. change (world s1) with w1. by rewrite (ext_rooms _ _ Hext). }
  destruct (load_previous s1 room old fuel Hs1 Hf Hold1) as (ps & s' & -> & Hs' & Hw & Hc & Hst & Htop).
  rewrite diff_from_spec.
  destruct (save_new_number s new n ps s' 2) as (d' & -> & Hs2 & Hh2 & Hat & Hmono & _);
    try (done || word).
  { by rewrite Hw. }
  { destruct ps as [|p ps]; [simpl; lia|]. eapply (Hsize (si_shortstatehash p)).
    eapply Layers_ext, Hst. by rewrite <-(ext_diff _ _ Hext). }
  assert (counter (world s') = n) as Hle by by rewrite Hw.
  rewrite Htop. eexists _, _. split; [reflexivity|]. cbn [hs_shortstatehash hs_added hs_removed].
  split_and!; try (done || (simpl; lia)).
  - subst n. word.
  - intros h st Hat'. simpl. apply Hmono. rewrite Hw. by eapply state_at_extends.
  - intros old' Hold'. by rewrite (room_state_functional s room old' old).
Qed.

Lemma room_state_exists s room : Stored s → ∃ old, room_state s room old.
Proof.
  intros Hs. pose proof (room_number s room Hs) as Hp. unfold room_state.
  destruct (ok _) as [p|]; [|by exists ∅]. destruct Hp as [Hp Hd].
  pose proof (inv_counter _ (st_short s Hs)).
  destruct (stored_layers s p Hs ltac:(word) Hd) as (ps & Hl & _). by exists (top_state ps), ps.
Qed.

(** The states stored are small enough for sums of their sizes, and products of two sums, to be
    words. *)
Definition Small (s : Service C) (new : CompressedState) : Prop :=
  set_len new < 2 ^ 31 ∧
  ∀ h ps, Layers (db (world s)) h ps → set_len new + 2 * stack_size ps < 2 ^ 31.

(** No state stored has the new one's hash without being it. *)
Definition NoCollision (s : Service C) (new : CompressedState) : Prop :=
  ∀ h st, state_at (db (world s)) h st → calculate_hash st = calculate_hash new → st = new.

Lemma save_state_spec fuel s room new : Stored s → Hashed s → counter (world s) < u64_max →
  (4 ≤ fuel)%nat → set_Forall is_event new → Small s new → NoCollision s new →
  saves s room new (save_state fuel s room new).
Proof.
  intros Hs Hh Hlt Hf Hnew [Hsm Hsm'] Hcol. destruct (room_state_exists s room Hs) as [old Hold].
  destruct (db (world s) statehash_shortstatehash !! calculate_hash new) as [v|] eqn:Hv.
  - destruct (inv_issued _ (st_short s Hs) statehash_shortstatehash _ _ I Hv) as (n & Hn & ->).
    pose proof (inv_counter _ (st_short s Hs)).
    destruct (Hh _ n ltac:(word) Hv) as (st & Hst & Hhash).
    apply (save_state_existing fuel s room new n); try done; [|by exists old].
    by rewrite <-(Hcol n st Hst Hhash).
  - by apply (save_state_fresh fuel s room new old).
Qed.
End Service.

(** * Properties *)

Section Properties.
Context `{!Parsers} `{!Digest} {C : Type} `{!Lru Z (list ShortStateInfo) C} `{!LruLaws Z (list ShortStateInfo) C}.

(** A difference written to disk is read back as it was, its parent and both its sets,
    when the numbers of its added state keys are not 0; nothing else stored is disturbed. *)
Theorem statediff_round_trip (d : Db) (h : Z) (diff : StateDiff)
    (Ha : set_Forall is_event (added diff)) (Hr : set_Forall is_entry (removed diff))
    (Hp : is_u64 (default 0 (parent diff))) (Hp0 : parent diff ≠ Some 0) (Hf : fresh_diff d h) :
  get_statediff (save_statediff d h diff) h = Ok diff ∧
  (∀ h' diff', get_statediff d h' = Ok diff' → get_statediff (save_statediff d h diff) h' = Ok diff').
Proof. split; [by apply get_save_statediff|]. intros. by apply get_statediff_other. Qed.

(** A compressed state event is parsed back into the two numbers it was built from, and is an
    event as the differences need it exactly when its state key number is not 0. *)
Theorem compress_round_trip (k e : Z) (Hk : is_u64 k) (He : is_u64 e) :
  parse_compressed_state_event (compress_state_event k e) = (k, e) ∧
  (is_event (compress_state_event k e) ↔ k ≠ 0).
Proof.
  unfold parse_compressed_state_event, compress_state_event.
  rewrite take_8_to_be, drop_8_to_be, !u64_round_trip by done. split; [done|].
  unfold is_event, is_entry. rewrite length_app, !to_be_length. split.
  - intros [_ Hz] ->. apply Hz. by eexists.
  - intros Hne. split; [done|]. intros [r Hr].
    apply (f_equal (take 8)) in Hr. rewrite !take_8_to_be in Hr.
    apply u64_to_be_inj in Hr; [done|done|word].
Qed.

(** Folding a difference into its parent's, as layers that grew too big are folded, gives a
    difference to the grandparent that leads to the same state, adds nothing the grandparent
    has and removes only what it has. *)
Theorem fold_diff_sound (below a r new rem a' r' : CompressedState) (Ha : a ## below)
    (Hr : r ⊆ below) (Hnew : new ## (below ∪ a) ∖ r) (Hrem : rem ⊆ (below ∪ a) ∖ r)
    (Hfold : fold_diff a r new rem = (a', r')) :
  a' ## below ∧ r' ⊆ below ∧ (below ∪ a') ∖ r' = ((below ∪ a) ∖ r ∪ new) ∖ rem.
Proof. by apply fold_diff_correct. Qed.

(** Saving a state as a difference to a stored one always succeeds (no overflow in sizes up to
    2^31), whichever layers it folds on the way: afterwards the new number stands for exactly the
    state, in a canonical stack of at most four layers, and every other number for the state it stood
    for. *)
Theorem save_state_from_diff_correct (d : Db) (h : Z) (ps : list ShortStateInfo)
    (new : CompressedState) (sibling : Z) (Hf : fresh_diff d h) (Hh : 0 < h ≤ u64_max)
    (Hst : stack_of d ps) (Hc : canonical ps) (Hnew : set_Forall is_event new)
    (Hsib : 0 ≤ sibling ≤ 2 ^ 31) (Hsize : set_len new + 2 * stack_size ps < 2 ^ 31) : ∃ d' qs,
  save_state_from_diff d h (new ∖ top_state ps) (top_state ps ∖ new) sibling (reverse ps) = Ok d' ∧
  Layers d' h qs ∧ canonical qs ∧ top_state qs = new ∧ (length qs ≤ 4)%nat ∧
  (∀ h' ps', Layers d h' ps' → Layers d' h' ps').
Proof.
  destruct (save_based d h ps new sibling Hf Hh Hst Hc Hnew Hsib Hsize)
    as (d' & Hsave & [[diff ->] (qs & Hl & Hcq & Htop & Hlen)]).
  exists (save_statediff d h diff), qs. split_and!; try done. intros. by apply Layers_save.
Qed.

(** C10: Loading a stored state finishes and yields exactly that state, whatever part of the layers
    the cache holds or has dropped, and leaves the cache in agreement with the database. *)
Theorem load_correct (fuel : nat) (s : Service C) (h : Z) (st : CompressedState) (Hs : Stored s)
    (Hh : is_u64 h) (Hf : (4 ≤ fuel)%nat) (Hst : state_at (db (world s)) h st) : ∃ stack top s',
  load_shortstatehash_info fuel s h = (Ok stack, s') ∧ last stack = Some top ∧
  si_full_state top = st ∧ Stored s' ∧ world s' = world s.
Proof.
  destruct (load_state s h st fuel Hs Hh Hf Hst) as (stack & top & Hload & Hlast & Hfull).
  destruct (load_shortstatehash_info fuel s h) as [r s'] eqn:Heq. simpl in Hload. subst r.
  apply load_sound in Heq as (Hco & Hw & _); [|by apply st_coherent].
  exists stack, top, s'. split_and!; try done. by eapply Stored_cache.
Qed.

(** C6: Saving a room's state returns a number that stands for it, old or new: read back, it
    is the state that was given; every state stored before is still there, and the differences
    returned are those between the room's state and the new one. *)
Theorem save_state_correct (fuel : nat) (s : Service C) (room : bytes) (new : CompressedState)
    (Hs : Stored s) (Hh : Hashed s) (Hlt : counter (world s) < u64_max) (Hf : (4 ≤ fuel)%nat)
    (Hnew : set_Forall is_event new) (Hsmall : Small s new) (Hcol : NoCollision s new) : ∃ r s',
  save_state fuel s room new = (Ok r, s') ∧ Stored s' ∧ Hashed s' ∧
  (∃ stack top, (load_shortstatehash_info fuel s' (hs_shortstatehash r)).1 = Ok stack ∧
     last stack = Some top ∧ si_full_state top = new) ∧
  (∀ h st, state_at (db (world s)) h st → state_at (db (world s')) h st) ∧
  (∀ old, room_state s room old → hs_added r = new ∖ old ∧ hs_removed r = old ∖ new).
Proof.
  destruct (save_state_spec fuel s room new Hs Hh Hlt Hf Hnew Hsmall Hcol)
    as (r & s' & Heq & Hs' & Hh' & Hat & Hn & Hmono & Hdiff).
  exists r, s'. split_and!; try done. pose proof (inv_counter _ (st_short s' Hs')).
  apply load_state; try done. word.
Qed.
End Properties.

(** * A concrete service *)
Module CompressorWitness.
#[local] Instance any_parsers : Parsers := {| json_ok _ := true; cbor_ok _ := true |}.
(** The identity in place of SHA-256. *)
#[local] Instance no_digest : Digest := fun l => l.

(** A cache of two entries. *)
Abbreviation cache := (list (Z * list ShortStateInfo)).
#[local] Instance cache_lru : Lru Z (list ShortStateInfo) cache := list_lru.
#[local] Instance cache_laws : LruLaws Z (list ShortStateInfo) cache := list_lru_laws.

Definition new_service : Service cache := {| world := start empty_db; stateinfo_cache := [] |}.

Lemma new_service_Stored : Stored new_service.
Proof. split; [by split| | |]; done. Qed.

Definition sample : CompressedState := {[compress_state_event 1 2]}.

Lemma sample_events : set_Forall is_event sample.
Proof. intros v ->%elem_of_singleton. by apply (bool_decide_unpack _). Qed.

Lemma nothing_stored h ps : ¬ Layers empty_db h ps.
Proof. intros Hl. apply Layers_stored in Hl as [v Hv]. done. Qed.

Lemma sample_small : Small new_service sample.
Proof. split; [vm_compute; reflexivity|]. intros h ps Hl. by apply nothing_stored in Hl. Qed.

Lemma sample_no_collision : NoCollision new_service sample.
Proof. intros h st (ps & Hl & _). exfalso. by apply (nothing_stored h ps). Qed.

Lemma statediff_round_trip_witness :
  get_statediff (save_statediff empty_db 5 {| parent := Some 3; added := sample; removed := sample |}) 5
  = Ok {| parent := Some 3; added := sample; removed := sample |}.
Proof.
  refine (proj1 (statediff_round_trip empty_db 5
    {| parent := Some 3; added := sample; removed := sample |} sample_events _ _ _ eq_refl)).
  - intros v Hv. by apply sample_events.
  - simpl. word.
  - discriminate.
Defined.

(** A parent numbered 0 is read as none, and an added event whose state key number is 0 as the
    end of the added events. *)
Example zero_parent :
  get_statediff (save_statediff empty_db 5 {| parent := Some 0; added := sample; removed := ∅ |}) 5
  = Ok {| parent := None; added := sample; removed := ∅ |}.
Proof. apply (bool_decide_unpack _). vm_compute. exact I. Qed.

Lemma compress_round_trip_witness :
  parse_compressed_state_event (compress_state_event 7 (2 ^ 64 - 1)) = (7, 2 ^ 64 - 1).
Proof. apply (compress_round_trip 7 (2 ^ 64 - 1)); word. Defined.

Lemma fold_diff_sound_witness : ∃ a' r' : CompressedState,
  fold_diff {[ [1] ]} ∅ {[ [2] ]} {[ [1] ]} = (a', r') ∧ (∅ ∪ a') ∖ r' = {[ [2] ]}.
Proof.
  destruct (fold_diff {[ [1] ]} ∅ {[ [2] ]} {[ [1] ]}) as [a' r'] eqn:Hf.
  destruct (fold_diff_sound ∅ {[ [1] ]} ∅ {[ [2] ]} {[ [1] ]} a' r' ltac:(set_solver) ltac:(set_solver)
    ltac:(set_solver) ltac:(set_solver) Hf) as (_ & _ & Heq).
  exists a', r'. split; [reflexivity|]. rewrite Heq. apply (bool_decide_unpack _). vm_compute. exact I.
Defined.

Lemma save_state_from_diff_correct_witness : ∃ d' qs,
  save_state_from_diff empty_db 1 (sample ∖ ∅) (∅ ∖ sample) 2 [] = Ok d' ∧
  Layers d' 1 qs ∧ top_state qs = sample.
Proof.
  destruct (save_state_from_diff_correct empty_db 1 [] sample 2 eq_refl ltac:(word) I I sample_events
    ltac:(word) eq_refl) as (d' & qs & Hs & Hl & _ & Ht & _).
  exists d', qs. exact (conj Hs (conj Hl Ht)).
Defined.

Lemma first_save : ∃ r s', save_state 4 new_service [33] sample = (Ok r, s') ∧ Stored s' ∧
  state_at (db (world s')) (hs_shortstatehash r) sample ∧
  0 < hs_shortstatehash r ≤ counter (world s').
Proof.
  destruct (save_state_spec 4 new_service [33] sample) as (r & s' & H1 & H2 & _ & H3 & H4 & _).
  - exact new_service_Stored.
  - by intros k n _.
  - done.
  - lia.
  - exact sample_events.
  - exact sample_small.
  - exact sample_no_collision.
  - exists r, s'. exact (conj H1 (conj H2 (conj H3 H4))).
Qed.

Lemma load_correct_witness : ∃ s h stack top,
  load_shortstatehash_info 4 (C := cache) s h = (Ok stack, (load_shortstatehash_info 4 s h).2) ∧
  last stack = Some top ∧ si_full_state top = sample.
Proof.
  destruct first_save as (r & s & _ & Hs & Hat & Hr).
  pose proof (inv_counter _ (st_short s Hs)) as Hc.
  destruct (load_correct 4 s (hs_shortstatehash r) sample Hs ltac:(word) ltac:(lia) Hat)
    as (stack & top & s' & Hl & Hlast & Hfull & _).
  exists s, (hs_shortstatehash r), stack, top. rewrite Hl. split; [reflexivity|]. by split.
Defined.

Lemma save_state_correct_witness : ∃ r s',
  save_state 4 new_service [33] sample = (Ok r, s') ∧
  (∃ stack top, (load_shortstatehash_info 4 s' (hs_shortstatehash r)).1 = Ok stack ∧
     last stack = Some top ∧ si_full_state top = sample).
Proof.
  destruct (save_state_correct 4 new_service [33] sample new_service_Stored)
    as (r & s' & H1 & _ & _ & H2 & _).
  - by intros k n _.
  - done.
  - lia.
  - exact sample_events.
  - exact sample_small.
  - exact sample_no_collision.
  - exact (ex_intro _ r (ex_intro _ s' (conj H1 H2))).
Defined.

(** Saves of growing states into one room: how deep the stack of each is.  The room is pointed at
    each state in turn, as [set_room_state] does. *)
Definition point (s : Service cache) (room : bytes) (h : Z) : Service cache :=
  with_world s (with_db (world s) (insert (db (world s)) roomid_shortstatehash room (u64_to_be h))).

Fixpoint save_all (s : Service cache) (acc : CompressedState) (events : list bytes) : list (option nat) :=
  match events with
  | [] => []
  | e :: events =>
      let acc := {[e]} ∪ acc in
      match save_state 4 s [33] acc with
      | (Ok r, s) =>
          let depth := match (load_shortstatehash_info 4 s (hs_shortstatehash r)).1 with
                       | Ok stack => if decide (si_full_state <$> last stack = Some acc)
                                     then Some (length stack) else None
                       | Err _ => None
                       end in
          depth :: save_all (point s [33] (hs_shortstatehash r)) acc events
      | (Err _, _) => [None]
      end
  end.

(** Every state is read back, from one to four layers. *)
Example layers_of_saves :
  save_all new_service ∅ (map (fun n => compress_state_event n (n + 100)) [1; 2; 3; 4; 5; 6; 7; 8; 9; 10; 11; 12])
  = Some <$> [1; 2; 3; 4; 1; 2; 3; 4; 2; 3; 4; 3]%nat.
Proof. vm_compute. reflexivity. Qed.

End CompressorWitness.
