(* ===== verification/RoomState.v ===== *)
(** The state of rooms: which stored state a room and an event point to, and a room's forward
    extremities.  Source: src/src/service/rooms/state/mod.rs.

    The membership tables [force_state] updates, stripped state and the reading of events are
    other services and are not modelled. *)

From stdpp Require Import prelude gmap sorting.
From Stdlib Require Import ZArith Lia.
From S2P Require Import Prelude Cache Bytes DbSer Database PairKeys Short StateCompressor StateCompressorSpec.

Local Open Scope Z_scope.

(** What of an event [append_to_state] reads: the strings' bytes. *)
Record NewPdu := { np_event_id : bytes; np_kind : bytes; np_state_key : option bytes }.

Section RoomState.
Context `{!Parsers} `{!Digest} {C : Type} `{!Lru Z (list ShortStateInfo) C}.

Definition with_service_db (s : Service C) (d : Db) : Service C :=
  with_world s (with_db (world s) d).

(** @src src/src/service/rooms/state/mod.rs:365-379 Service::set_room_state *)
Definition set_room_state (s : Service C) (room_id : bytes) (shortstatehash : Z) :
    comp db_error (Service C) :=
  d ← raw_aput 8 (db (world s)) roomid_shortstatehash room_id (VU64 shortstatehash);
  Ok (with_service_db s d).

(** The stack of the room's state; a room that points to none has an empty one.
    @src src/src/service/rooms/state/mod.rs:246-253 Service::append_to_state *)
Definition load_parents (fuel : nat) (s : Service C) (previous : comp db_error Z) :
    comp db_error (list ShortStateInfo) * Service C :=
  match previous with
  | Ok p => load_shortstatehash_info fuel s p
  | Err _ => (Ok [], s)
  end.

(** The event a new one replaces: the first with its state key.
    @src src/src/service/rooms/state/mod.rs:267-274 Service::append_to_state *)
Definition find_replaced (states_parents : list ShortStateInfo) (shortstatekey : Z) : option bytes :=
  info ← last states_parents;
  find (fun e => bool_decide (u64_to_be shortstatekey `prefix_of` e)) (iter (si_full_state info)).

(** @src src/src/service/rooms/state/mod.rs:244-304 Service::append_to_state *)
Definition append_state_event (fuel : nat) (s : Service C) (previous : comp db_error Z)
    (event_id kind state_key : bytes) : comp db_error Z * Service C :=
  match load_parents fuel s previous with
  | (Err e, s) => (Err e, s)
  | (Ok states_parents, s) =>
      match get_or_create_shortstatekey (world s) kind state_key with
      | Err e => (Err e, s)
      | Ok (shortstatekey, w) =>
          match get_or_create_shorteventid w event_id with
          | Err e => (Err e, with_world s w)
          | Ok (shorteventid, w) =>
              let s := with_world s w in
              let new := compress_state_event shortstatekey shorteventid in
              let replaces := find_replaced states_parents shortstatekey in
              if decide (Some new = replaces) then (expect_ok previous, s)
              else
                match next_count (world s) with
                | Err e => (Err e, s)
                | Ok (shortstatehash, w) =>
                    let s := with_world s w in
                    let statediffnew : CompressedState := {[new]} in
                    let statediffremoved : CompressedState :=
                      match replaces with Some r => {[r]} | None => ∅ end in
                    match save_state_from_diff (db (world s)) shortstatehash statediffnew
                            statediffremoved 2 states_parents with
                    | Err e => (Err e, s)
                    | Ok d => (Ok shortstatehash, with_service_db s d)
                    end
                end
          end
      end
  end.

(** The state before the event is the room's.
    @src src/src/service/rooms/state/mod.rs:238-242 Service::append_to_state *)
Definition record_previous (d : Db) (shorteventid : Z) (previous : comp db_error Z) : comp db_error Db :=
  match previous with
  | Ok p => aput 8 8 d shorteventid_shortstatehash (VU64 shorteventid) (VU64 p)
  | Err _ => Ok d
  end.

(** @src src/src/service/rooms/state/mod.rs:222-304 Service::append_to_state *)
Definition append_to_state (fuel : nat) (s : Service C) (new_pdu : NewPdu) (room_id : bytes) :
    comp db_error Z * Service C :=
  match get_or_create_shorteventid (world s) (np_event_id new_pdu) with
  | Err e => (Err e, s)
  | Ok (shorteventid, w) =>
      let s := with_world s w in
      let previous_shortstatehash := get_room_shortstatehash (world s) room_id in
      match record_previous (db (world s)) shorteventid previous_shortstatehash with
      | Err e => (Err e, s)
      | Ok d =>
          let s := with_service_db s d in
          match np_state_key new_pdu with
          | Some state_key =>
              append_state_event fuel s previous_shortstatehash (np_event_id new_pdu)
                (np_kind new_pdu) state_key
          | None => (expect_ok previous_shortstatehash, s)
          end
      end
  end.

(** The state before an event, from another server.
    @src src/src/service/rooms/state/mod.rs:149-220 Service::set_event_state *)
Definition set_event_state (fuel : nat) (s : Service C) (event_id room_id : bytes)
    (state_ids_compressed : CompressedState) : comp db_error Z * Service C :=
  match get_or_create_shorteventid (world s) event_id with
  | Err e => (Err e, s)
  | Ok (shorteventid, w) =>
      let previous_shortstatehash := get_room_shortstatehash w room_id in
      match get_or_create_shortstatehash w (calculate_hash state_ids_compressed) with
      | Err e => (Err e, with_world s w)
      | Ok ((shortstatehash, already_existed), w) =>
          let s := with_world s w in
          let '(saved, s) :=
            if already_existed : bool then (Ok (db (world s)), s)
            else
              match load_parents fuel s previous_shortstatehash with
              | (Err e, s) => (Err e, s)
              | (Ok states_parents, s) =>
                  let '(statediffnew, statediffremoved) :=
                    diff_from states_parents state_ids_compressed in
                  (save_state_from_diff (db (world s)) shortstatehash statediffnew
                     statediffremoved 1000000 states_parents, s)
              end in
          match (d ← saved; aput 8 8 d shorteventid_shortstatehash (VU64 shorteventid)
                              (VU64 shortstatehash)) with
          | Err e => (Err e, s)
          | Ok d => (Ok shortstatehash, with_service_db s d)
          end
      end
  end.

(** ** Forward extremities *)

(** @src src/src/service/rooms/state/mod.rs:410-421 Service::get_forward_extremities *)
Definition get_forward_extremities (d : Db) (room_id : bytes) : comp db_error (list bytes) :=
  keys_second d roomid_pduleaves room_id.

(** @src src/src/service/rooms/state/mod.rs:423-443 Service::set_forward_extremities *)
Definition set_forward_extremities (d : Db) (room_id : bytes) (event_ids : list bytes) :
    comp db_error Db :=
  keys ← keys_prefix_raw d roomid_pduleaves (VTuple [VStr room_id; VInterfix]);
  let d := foldl (fun d key => remove d roomid_pduleaves key) d keys in
  foldl (fun d event_id =>
           d ← d; put_raw d roomid_pduleaves (pair_value room_id event_id) event_id)
    (Ok d) event_ids.
End RoomState.

(** * What rooms' states promise: a state is a map from state key numbers to event numbers, appending
    a state event sets its key and leaves the others, and a room's forward extremities are
    those last set. *)

Local Open Scope Z_scope.

(** * A state as a map *)

(** The state as its users see it: the event number of every state key number. *)
Definition represents (m : gmap Z Z) (st : CompressedState) : Prop :=
  (∀ k e, m !! k = Some e → 0 < k ≤ u64_max ∧ is_u64 e) ∧
  ∀ x, x ∈ st ↔ ∃ k e, m !! k = Some e ∧ x = compress_state_event k e.

Lemma parse_compress k e : is_u64 k → is_u64 e →
  parse_compressed_state_event (compress_state_event k e) = (k, e).
Proof.
  intros. unfold parse_compressed_state_event, compress_state_event.
  by rewrite take_8_to_be, drop_8_to_be, !u64_round_trip.
Qed.

Lemma compress_inj k e k' e' : is_u64 k → is_u64 e → is_u64 k' → is_u64 e' →
  compress_state_event k e = compress_state_event k' e' → k = k' ∧ e = e'.
Proof.
  intros ???? Heq. apply (f_equal parse_compressed_state_event) in Heq.
  rewrite !parse_compress in Heq by done. by simplify_eq.
Qed.

(** The entries of a key are those that start with its bytes. *)
Lemma key_prefix k k' e : is_u64 k → is_u64 k' →
  (u64_to_be k `prefix_of` compress_state_event k' e ↔ k' = k).
Proof.
  intros Hk Hk'. split.
  - intros [r Hr]. unfold compress_state_event in Hr. apply (f_equal (take 8)) in Hr.
    rewrite !take_8_to_be in Hr. by apply u64_to_be_inj in Hr.
  - intros ->. by eexists.
Qed.

Lemma compress_is_event k e : 0 < k ≤ u64_max → is_event (compress_state_event k e).
Proof.
  intros Hk. split.
  - unfold is_entry, compress_state_event. by rewrite length_app, !to_be_length.
  - rewrite key_prefix by word. lia.
Qed.

Lemma represents_events m st : represents m st → set_Forall is_event st.
Proof.
  intros [Hm Hst] x (k & e & Hl & ->)%Hst. apply compress_is_event. by apply (Hm k e).
Qed.

Lemma stack_represents_empty : represents ∅ ∅.
Proof. split; [set_solver|]. intros x. split; [set_solver|]. by intros (k & e & Hl & _). Qed.

(** Finding a key's entry. *)
Lemma find_entry m st k (P : bytes → bool) : represents m st →
  (∀ k' e, m !! k' = Some e → Is_true (P (compress_state_event k' e)) ↔ k' = k) →
  find P (iter st) = compress_state_event k <$> m !! k.
Proof.
  intros [Hm Hst] HP. destruct (find P (iter st)) as [x|] eqn:Hf.
  - apply find_some in Hf as [Hx HPx]. apply list_elem_of_In, elem_of_iter in Hx.
    apply Hst in Hx as (k' & e & Hl & ->). apply Is_true_true_2, (HP k' e Hl) in HPx as ->.
    by rewrite Hl.
  - destruct (m !! k) as [e|] eqn:Hl; [|done].
    assert (compress_state_event k e ∈ iter st) as Hin by (apply elem_of_iter, Hst; eauto).
    apply list_elem_of_In in Hin. apply (find_none _ _ Hf) in Hin.
    assert (Is_true (P (compress_state_event k e))) as HPx by by apply (HP k e Hl).
    by rewrite Hin in HPx.
Qed.

Lemma find_replaced_spec m ps k : represents m (top_state ps) → is_u64 k →
  find_replaced (reverse ps) k = compress_state_event k <$> m !! k.
Proof.
  intros Hm Hk. unfold find_replaced. destruct ps as [|p ps].
  - destruct Hm as [_ Hst]. simpl in *. destruct (m !! k) as [e|] eqn:Hl; [|done].
    assert (compress_state_event k e ∈@{CompressedState} ∅) as Hin by (apply Hst; eauto). set_solver.
  - rewrite last_reverse_cons. cbn [mbind option_bind]. apply (find_entry m); [done|].
    intros k' e Hl. rewrite bool_decide_spec. apply key_prefix; [done|].
    destruct Hm as [Hm _]. destruct (Hm k' e Hl). word.
Qed.

(** Setting a key: what is added and what is removed. *)
Definition set_entry (m : gmap Z Z) (k e : Z) (st : CompressedState) : CompressedState :=
  {[compress_state_event k e]} ∪
    (st ∖ match m !! k with Some e' => {[compress_state_event k e']} | None => ∅ end).

Lemma represents_insert m st k e : represents m st → 0 < k ≤ u64_max → is_u64 e →
  represents (<[k := e]> m) (set_entry m k e st).
Proof.
  intros [Hm Hst] Hk He. split.
  { intros k' e' [[<- <-]|[_ Hl]]%lookup_insert_Some; [done|by apply Hm]. }
  intros x. unfold set_entry. rewrite elem_of_union, elem_of_singleton, elem_of_difference, Hst. split.
  - intros [->|[(k' & e' & Hl & ->) Hx]].
    + exists k, e. by rewrite lookup_insert_eq.
    + exists k', e'. split; [|done]. apply lookup_insert_Some. right. split; [|done].
      intros <-. apply Hx. rewrite Hl. set_solver.
  - intros (k' & e' & [[<- <-]|[Hne Hl]]%lookup_insert_Some & ->); [by left|].
    right. split; [by eauto|]. destruct (m !! k) as [e0|] eqn:Hk0; [|set_solver].
    rewrite elem_of_singleton. destruct (Hm k' e' Hl), (Hm k e0 Hk0).
    intros [-> _]%compress_inj; [done|word..].
Qed.

Lemma replace_diff (st old : CompressedState) (new : bytes) : new ∉ st → old ⊆ st →
  ({[new]} ∪ (st ∖ old)) ∖ st = {[new]} ∧ st ∖ ({[new]} ∪ (st ∖ old)) = old.
Proof.
  intros Hn Ho. split; apply set_eq; intros x; [set_solver|].
  destruct (decide (x ∈ old)), (decide (x = new)); set_solver.
Qed.

Lemma set_entry_diff m st k e : represents m st → 0 < k ≤ u64_max → is_u64 e → m !! k ≠ Some e →
  set_entry m k e st ∖ st = {[compress_state_event k e]} ∧
  st ∖ set_entry m k e st =
    match m !! k with Some e' => {[compress_state_event k e']} | None => ∅ end.
Proof.
  intros [Hm Hst] Hk He Hne.
  assert (compress_state_event k e ∉ st) as Hnew.
  { rewrite Hst. intros (k' & e' & Hl & Heq). destruct (Hm k' e' Hl).
    apply compress_inj in Heq as [-> ->]; [done|word..]. }
  apply replace_diff; [done|]. destruct (m !! k) as [e'|] eqn:Hl; [|set_solver].
  intros x ->%elem_of_singleton. apply Hst. eauto.
Qed.

Lemma set_entry_same m st k e : represents m st → m !! k = Some e → set_entry m k e st = st.
Proof.
  intros [Hm Hst] Hl. unfold set_entry. rewrite Hl.
  assert (compress_state_event k e ∈ st) by (apply Hst; eauto).
  apply set_eq. intros x. destruct (decide (x = compress_state_event k e)); set_solver.
Qed.

Lemma set_entry_size m st k e : set_len (set_entry m k e st) ≤ set_len st + 1.
Proof.
  pose proof (set_len_union (set_entry m k e st) {[compress_state_event k e]} st) as Hs.
  unfold set_len at 2 in Hs. rewrite size_singleton in Hs. unfold set_entry in *.
  pose proof (Hs ltac:(set_solver)). lia.
Qed.

(** * Numbers drawn *)

(** What drawing numbers for the identifiers of [L], and writing the plain columns [W], leaves of
    the database. *)
Record draws (W : list column) (L : list (column * bytes)) (w w' : World) : Prop := {
  dr_counter : counter w ≤ counter w';
  dr_kept c k v : is_id c → db w c !! k = Some v → db w' c !! k = Some v;
  dr_other c k : is_id c → (c, k) ∉ L → db w' c !! k = db w c !! k;
  dr_plain c : plain_column c → c ∉ W → db w' c = db w c;
}.

Lemma draws_trans W W' L L' w w' w'' : draws W L w w' → draws W' L' w' w'' →
  draws (W ++ W') (L ++ L') w w''.
Proof.
  intros [Hc Hk Ho Hp] [Hc' Hk' Ho' Hp']. split; [lia|by auto| |].
  - intros c k Hid Hn. rewrite Ho', Ho; set_solver.
  - intros c Hid Hn. rewrite Hp', Hp; set_solver.
Qed.

Lemma draws_weaken W W' L L' w w' : draws W L w w' → W ⊆ W' → L ⊆ L' → draws W' L' w w'.
Proof. intros [Hc Hk Ho Hp] HW HL. split; [done..| |]; intros; auto. Qed.

Lemma draws_same W w w' : counter w ≤ counter w' → Forall plain_column W →
  (∀ c, c ≠ global → c ∉ W → db w' c = db w c) → draws W [] w w'.
Proof.
  intros Hc HW Hd. assert (∀ c, is_id c → db w' c = db w c) as Hid.
  { intros c Hi. apply Hd; [by intros ->|]. intros Hin. eapply Forall_forall in Hin; [|done].
    by destruct c. }
  split; [done|..]; intros; rewrite ?Hid in * by done; try done. apply Hd; [by intros ->|done].
Qed.

Lemma draws_allocate w c k n w' : Inv w → counter w < u64_max → is_id c → allocate w c k = (n, w') →
  draws [] [(c, k)] w w' ∧ extends w w' ∧ db w' c !! k = Some (u64_to_be n) ∧
  0 < n ≤ counter w' ∧ counter w' ≤ counter w + 1.
Proof.
  intros Hw Hlt Hc Heq.
  pose proof (allocate_stored w c k Hw Hlt Hc) as Hst. pose proof (extends_allocate w c k Hw Hlt Hc) as Hext.
  pose proof (allocate_other w c k) as Hoth. pose proof (allocate_plain w c k) as Hpl.
  rewrite Heq in Hst, Hext, Hoth, Hpl. cbn [snd] in *. destruct Hst as (Hst & Hn & Hcnt).
  split_and!; try (done || lia). split; [lia| | |by auto].
  - intros c' k' v Hc' Hv. destruct (decide ((c', k') = (c, k))) as [[= -> ->]|Hne].
    + unfold allocate in Heq. rewrite Hv in Heq. by injection Heq as _ <-.
    + by rewrite Hoth.
  - intros c' k' Hc' Hn'. apply Hoth; [done..|]. intros [= -> ->]. set_solver.
Qed.

Section RoomState.
Context `{!Parsers} `{!Digest} {C : Type} `{!Lru Z (list ShortStateInfo) C} `{!LruLaws Z (list ShortStateInfo) C}.

(** ** Appending *)

Lemma load_parents_spec (s : Service C) room st fuel : Stored s → (4 ≤ fuel)%nat → room_state s room st → ∃ ps s',
  load_parents fuel s (get_room_shortstatehash (world s) room) = (Ok (reverse ps), s') ∧
  Stored s' ∧ world s' = world s ∧ canonical ps ∧ stack_of (db (world s)) ps ∧ top_state ps = st.
Proof.
  intros Hs Hf. pose proof (room_number s room Hs) as Hp. unfold room_state, load_parents.
  destruct (get_room_shortstatehash (world s) room) as [p|]; cbn [ok] in *; [|by intros ->; exists [], s].
  destruct Hp as [Hp _]. pose proof (inv_counter _ (st_short s Hs)) as Hcnt. intros Hst.
  destruct (stored_state s p st Hs ltac:(word) Hst) as (ps & Hl & Hc & Hlen & Hstk & Htop).
  pose proof (load_complete fuel s p ps (st_coherent s Hs) Hl ltac:(lia)) as Hload.
  destruct (load_shortstatehash_info fuel s p) as [r s'] eqn:Heq. simpl in Hload. subst r.
  apply load_sound in Heq as (Hco & Hw & _); [|by apply st_coherent].
  exists ps, s'. split_and!; try done. by eapply Stored_cache.
Qed.

Lemma Hashed_draws (s s' : Service C) W L : Hashed s → draws W L (world s) (world s') →
  (∀ k, (statehash_shortstatehash, k) ∉ L) →
  (∀ h st, state_at (db (world s)) h st → state_at (db (world s')) h st) → Hashed s'.
Proof.
  intros Hh Hd HL Hmono. apply (Hashed_mono s); [done..|]. apply map_eq. intros k.
  by apply (dr_other _ _ _ _ Hd).
Qed.

(** What a state event appended to a room in the state [old] leaves: its key's entry is set in the
    state returned, and no other. *)
Definition appended (s : Service C) (kind key id : bytes) (m : gmap Z Z) (old : CompressedState)
    (h : Z) (s' : Service C) : Prop :=
  Stored s' ∧ Hashed s' ∧ 0 < h ≤ counter (world s') ∧
  (∀ h st, state_at (db (world s)) h st → state_at (db (world s')) h st) ∧
  draws [shortstatehash_statediff]
    [(statekey_shortstatekey, pair_key kind key); (eventid_shorteventid, id)]
    (world s) (world s') ∧
  ∃ k e, db (world s') statekey_shortstatekey !! pair_key kind key = Some (u64_to_be k) ∧
    db (world s') eventid_shorteventid !! id = Some (u64_to_be e) ∧
    0 < k ≤ counter (world s') ∧ 0 < e ≤ counter (world s') ∧
    state_at (db (world s')) h (set_entry m k e old).

(** The event is not the one the key has: a new state is saved. *)
Lemma append_saves (s s2 : Service C) L m k e ps : Stored s → Hashed s → Stored s2 →
  extends (world s) (world s2) → draws [] L (world s) (world s2) →
  (∀ k, (statehash_shortstatehash, k) ∉ L) → counter (world s2) < u64_max →
  canonical ps → stack_of (db (world s)) ps → represents m (top_state ps) →
  0 < k ≤ u64_max → is_u64 e → m !! k ≠ Some e → Small s (set_entry m k e (top_state ps)) →
  ∃ w d, next_count (world s2) = Ok (counter (world s2) + 1, w) ∧
  save_state_from_diff (db w) (counter (world s2) + 1) {[compress_state_event k e]}
    (match compress_state_event k <$> m !! k with Some r => {[r]} | None => ∅ end) 2 (reverse ps) = Ok d ∧
  let s' := with_service_db (with_world s2 w) d in
  Stored s' ∧ Hashed s' ∧ counter (world s') = counter (world s2) + 1 ∧
  state_at d (counter (world s2) + 1) (set_entry m k e (top_state ps)) ∧
  (∀ h st, state_at (db (world s)) h st → state_at d h st) ∧
  draws [shortstatehash_statediff] L (world s) (world s') ∧
  (∀ c, c ≠ global → c ≠ shortstatehash_statediff → db (world s') c = db (world s2) c).
Proof.
  intros Hs Hh Hs2 Hext Hdr HL Hlt Hc Hst Hm Hk He Hne [Hsm Hsm'].
  destruct (extends_next (world s2) (st_short s2 Hs2) Hlt) as (w & Hnext & Hextw & Hcw & Hcol).
  pose proof (extends_trans _ _ _ Hext Hextw) as Hextw'.
  pose proof (Stored_extends s2 w Hs2 Hextw) as Hs3. pose proof (ext_counter _ _ Hext) as Hle.
  destruct (set_entry_diff m _ k e Hm Hk He Hne) as [Hadd Hrem].
  destruct (save_above s (with_world s2 w) (counter (world s2) + 1) (set_entry m k e (top_state ps)) ps 2)
    as (d & Hd & Hs4 & Hat & Hmono & Hcold); try (done || (simpl; lia)).
  { eapply represents_events. by apply represents_insert. }
  { destruct ps as [|p ps]; [done|]. simpl. eapply Layers_ext, Hst.
    symmetry. apply (ext_diff _ _ Hextw'). }
  { destruct ps as [|p ps]; [simpl in *; lia|]. by apply (Hsm' (si_shortstatehash p)). }
  rewrite Hadd, Hrem in Hd. exists w, d. split; [done|]. split; [by destruct (m !! k)|].
  assert (∀ h st, state_at (db (world s)) h st → state_at d h st) as Hmono'.
  { intros h st Hst'. apply Hmono. by eapply state_at_extends. }
  assert (∀ c, c ≠ global → c ≠ shortstatehash_statediff → d c = db (world s2) c) as Hcols.
  { intros c ??. rewrite Hcold by done. by apply Hcol. }
  assert (draws [shortstatehash_statediff] L (world s) (world (with_service_db (with_world s2 w) d)))
    as Hdr'.
  { rewrite <-(app_nil_r L). apply (draws_trans [] _ _ _ _ (world s2)); [done|].
    apply draws_same; [simpl; lia|by repeat constructor|]. intros c Hg Hn. apply Hcols; set_solver. }
  split_and!; try done. by eapply Hashed_draws.
Qed.

Lemma append_state_event_spec fuel (s : Service C) room old m id kind key : Stored s → Hashed s → (4 ≤ fuel)%nat →
  counter (world s) + 3 ≤ u64_max → room_state s room old → represents m old →
  (∀ st, set_len st ≤ set_len old + 1 → Small s st) → ∃ h s',
  append_state_event fuel s (get_room_shortstatehash (world s) room) id kind key = (Ok h, s') ∧
  appended s kind key id m old h s'.
Proof.
  intros Hs Hh Hf Hlt Hroom Hm Hsm.
  destruct (load_parents_spec s room old fuel Hs Hf Hroom) as (ps & s1 & Hload & Hs1 & Hw1 & Hc & Hst & Htop).
  unfold append_state_event. rewrite Hload, Hw1. pose proof (st_short s Hs) as Hinv.
  rewrite get_or_create_shortstatekey_spec by (done || lia).
  destruct (allocate _ _ _) as [k w1] eqn:Ha1.
  destruct (draws_allocate _ statekey_shortstatekey _ _ _ Hinv ltac:(lia) I Ha1) as (Hd1 & Hx1 & Hk1 & Hk & Hc1).
  pose proof (ext_inv _ _ Hx1) as Hinv1. rewrite get_or_create_shorteventid_spec by (done || lia).
  destruct (allocate w1 _ _) as [e w2] eqn:Ha2.
  destruct (draws_allocate _ eventid_shorteventid _ _ _ Hinv1 ltac:(lia) I Ha2) as (Hd2 & Hx2 & He2 & He & Hc2).
  pose proof (draws_trans _ _ _ _ _ _ _ Hd1 Hd2) as Hd. pose proof (extends_trans _ _ _ Hx1 Hx2) as Hx.
  pose proof (inv_counter _ (ext_inv _ _ Hx2)) as Hmax. pose proof (ext_counter _ _ Hx1). pose proof (ext_counter _ _ Hx2).
  apply (dr_kept _ _ _ _ Hd2) in Hk1; [|done]. subst old. cbv beta iota zeta.
  rewrite (find_replaced_spec m) by (done || word).
  assert (Stored (with_world s1 w2)) as Hs2.
  { apply Stored_extends; [done|]. by rewrite Hw1. }
  destruct (decide _) as [Heq|Hne].
  - symmetry in Heq. apply fmap_Some in Heq as (e' & Hl & Heq). pose proof Hm as [Hm1 Hm2].
    destruct (Hm1 k e' Hl). apply compress_inj in Heq as [_ <-]; [|word..].
    unfold room_state in Hroom. pose proof (room_number s room Hs) as Hp.
    destruct (get_room_shortstatehash (world s) room) as [p|]; cbn [ok] in *.
    2:{ rewrite Hroom in Hm2. destruct (Hm2 (compress_state_event k e)) as [_ Hm3]. set_solver. }
    exists p, (with_world s1 w2). split; [done|].
    assert (∀ h st, state_at (db (world s)) h st → state_at (db w2) h st) as Hmono
      by (intros; by eapply state_at_extends).
    split_and!; try (done || (simpl; lia)).
    + eapply Hashed_draws; [exact Hh|exact Hd|set_solver|exact Hmono].
    + eapply draws_weaken; [exact Hd|set_solver|done].
    + exists k, e. rewrite (set_entry_same m) by done. split_and!; try (done || (simpl; lia)). by apply Hmono.
  - destruct (append_saves s (with_world s1 w2)
      ([(statekey_shortstatekey, pair_key kind key)] ++ [(eventid_shorteventid, id)]) m k e ps)
      as (w3 & d & Hnext & Hsave & Hs' & Hh' & Hcnt & Hat & Hmono & Hdr & Hcols);
      try (done || (simpl; word)).
    { intros k'. simpl. rewrite !elem_of_cons, elem_of_nil. naive_solver. }
    { intros Hl. apply Hne. by rewrite Hl. }
    { apply Hsm, set_entry_size. }
    cbn [world with_world] in Hnext, Hsave |- *. rewrite Hnext. cbn [world with_world]. rewrite Hsave.
    eexists _, _. split; [done|].
    split_and!; try (done || (simpl in *; lia)).
    exists k, e. rewrite !Hcols by done. split_and!; try (done || (simpl in *; lia)).
Qed.

(** The previous state's number is recorded for the event. *)
Definition recorded (s : Service C) (room : bytes) (e : Z) (d : gmap bytes bytes) : gmap bytes bytes :=
  match ok (get_room_shortstatehash (world s) room) with
  | Some p => <[u64_to_be e := u64_to_be p]> d
  | None => d
  end.

Lemma record_previous_spec (w : World) e (previous : comp db_error Z) : Inv w → ∃ d,
  record_previous (db w) e previous = Ok d ∧ extends w (with_db w d) ∧
  draws [shorteventid_shortstatehash] [] w (with_db w d) ∧
  d shorteventid_shortstatehash =
    match ok previous with
    | Some p => <[u64_to_be e := u64_to_be p]> (db w shorteventid_shortstatehash)
    | None => db w shorteventid_shortstatehash
    end.
Proof.
  intros Hw. unfold record_previous. destruct previous as [p|]; cbn [ok].
  - rewrite aput_u64. eexists. split_and!; [done|by apply extends_plain| |by apply insert_same].
    apply draws_same; [simpl; lia|by repeat constructor|]. intros c _ Hc'. apply insert_other. set_solver.
  - exists (db w). assert (with_db w (db w) = w) as -> by by destruct w.
    split_and!; try done; apply draws_same; done || by repeat constructor.
Qed.

(** The number of the event and what is recorded for it. *)
Lemma append_start (s : Service C) room pdu : Stored s → Hashed s → counter (world s) < u64_max →
  ∃ e s2,
  (∀ fuel, append_to_state fuel s pdu room =
    match np_state_key pdu with
    | Some key => append_state_event fuel s2 (get_room_shortstatehash (world s2) room)
                    (np_event_id pdu) (np_kind pdu) key
    | None => (expect_ok (get_room_shortstatehash (world s2) room), s2)
    end) ∧
  Stored s2 ∧ Hashed s2 ∧ extends (world s) (world s2) ∧ counter (world s2) ≤ counter (world s) + 1 ∧
  draws [shorteventid_shortstatehash] [(eventid_shorteventid, np_event_id pdu)] (world s) (world s2) ∧
  db (world s2) eventid_shorteventid !! np_event_id pdu = Some (u64_to_be e) ∧
  0 < e ≤ counter (world s2) ∧
  db (world s2) shorteventid_shortstatehash =
    recorded s room e (db (world s) shorteventid_shortstatehash).
Proof.
  intros Hs Hh Hlt. unfold append_to_state. pose proof (st_short s Hs) as Hinv.
  rewrite get_or_create_shorteventid_spec by (done || lia).
  destruct (allocate _ _ _) as [e w1] eqn:Ha.
  destruct (draws_allocate _ eventid_shorteventid _ _ _ Hinv ltac:(lia) I Ha) as (Hd & Hx & He & Hle & Hc).
  assert (∀ w, db w roomid_shortstatehash = db (world s) roomid_shortstatehash →
    get_room_shortstatehash w room = get_room_shortstatehash (world s) room) as Hprev
    by (intros w Hw; unfold get_room_shortstatehash, get; by rewrite Hw).
  cbn [world with_world]. rewrite Hprev by apply (ext_rooms _ _ Hx).
  destruct (record_previous_spec w1 e (get_room_shortstatehash (world s) room) (ext_inv _ _ Hx))
    as (d & -> & Hx' & Hd' & Hrec).
  pose proof (draws_trans _ _ _ _ _ _ _ Hd Hd') as Hd2. pose proof (extends_trans _ _ _ Hx Hx') as Hx2.
  exists e, (with_world s (with_db w1 d)). cbn [world with_world].
  rewrite (Hprev (with_db w1 d)) by apply (ext_rooms _ _ Hx2).
  split_and!; try (done || (simpl; lia)).
  - by apply Stored_extends.
  - eapply Hashed_draws; [exact Hh|exact Hd2|set_solver|]. intros. by eapply state_at_extends.
  - by apply (dr_kept _ _ _ _ Hd').
  - simpl. rewrite Hrec. unfold recorded.
    by rewrite (dr_plain _ _ _ _ Hd shorteventid_shortstatehash I) by set_solver.
Qed.

Lemma append_to_state_spec fuel (s : Service C) room old m pdu key : Stored s → Hashed s →
  (4 ≤ fuel)%nat → counter (world s) + 4 ≤ u64_max → room_state s room old → represents m old →
  (∀ st, set_len st ≤ set_len old + 1 → Small s st) → np_state_key pdu = Some key → ∃ h s' k e,
  append_to_state fuel s pdu room = (Ok h, s') ∧
  Stored s' ∧ Hashed s' ∧ 0 < h ≤ counter (world s') ∧
  (∀ h st, state_at (db (world s)) h st → state_at (db (world s')) h st) ∧
  draws [shorteventid_shortstatehash; shortstatehash_statediff]
    [(statekey_shortstatekey, pair_key (np_kind pdu) key); (eventid_shorteventid, np_event_id pdu)]
    (world s) (world s') ∧
  db (world s') statekey_shortstatekey !! pair_key (np_kind pdu) key = Some (u64_to_be k) ∧
  db (world s') eventid_shorteventid !! np_event_id pdu = Some (u64_to_be e) ∧
  0 < k ≤ counter (world s') ∧ 0 < e ≤ counter (world s') ∧
  state_at (db (world s')) h (set_entry m k e old) ∧
  db (world s') shorteventid_shortstatehash =
    recorded s room e (db (world s) shorteventid_shortstatehash).
Proof.
  intros Hs Hh Hf Hlt Hroom Hm Hsm Hkey.
  destruct (append_start s room pdu Hs Hh ltac:(lia))
    as (e & s2 & Heq & Hs2 & Hh2 & Hx & Hc & Hd & He & Hle & Hrec).
  assert (room_state s2 room old) as Hroom2.
  { pose proof (room_state_extends s (world s2) room old Hx Hroom) as Hr. exact Hr. }
  destruct (append_state_event_spec fuel s2 room old m (np_event_id pdu) (np_kind pdu) key)
    as (h & s' & Happ & Hs' & Hh' & Hle' & Hmono & Hd' & k & e' & Hk & He' & Hkle & Hele & Hat); try done.
  { lia. }
  { intros st Hst. destruct (Hsm st Hst) as [Hl Hl']. split; [done|]. intros h ps Hps. apply (Hl' h).
    eapply Layers_ext, Hps. apply (ext_diff _ _ Hx). }
  apply (dr_kept _ _ _ _ Hd') in He as He2; [|done]. rewrite He' in He2.
  pose proof (inv_counter _ (st_short s' Hs')). pose proof (dr_counter _ _ _ _ Hd').
  assert (e' = e) as -> by (apply u64_to_be_inj; [word..|congruence]).
  exists h, s', k, e. rewrite Heq, Hkey. split_and!; try (done || lia).
  - intros h0 st Hst. apply Hmono. by eapply state_at_extends.
  - eapply draws_weaken; [by eapply draws_trans|set_solver|set_solver].
  - rewrite <-Hrec. apply (dr_plain _ _ _ _ Hd'); [done|set_solver].
Qed.

(** ** Pointing a room to a state *)

Lemma set_room_state_spec (s : Service C) room h st : Stored s → 0 < h ≤ counter (world s) →
  state_at (db (world s)) h st → ∃ s',
  set_room_state s room h = Ok s' ∧ Stored s' ∧ (Hashed s → Hashed s') ∧ room_state s' room st ∧
  get_room_shortstatehash (world s') room = Ok h ∧
  (∀ r, r ≠ room → get_room_shortstatehash (world s') r = get_room_shortstatehash (world s) r) ∧
  (∀ h st, state_at (db (world s)) h st → state_at (db (world s')) h st) ∧
  draws [roomid_shortstatehash] [] (world s) (world s').
Proof.
  intros Hs Hh Hst. unfold set_room_state. rewrite raw_aput_u64. cbn [mbind result_bind].
  set (d := insert _ _ _ _). exists (with_service_db s d). split; [done|].
  pose proof (inv_counter _ (st_short s Hs)) as Hmax.
  assert (d shortstatehash_statediff = db (world s) shortstatehash_statediff) as Hd by (subst d; by dbs).
  assert (∀ h st, state_at (db (world s)) h st → state_at d h st) as Hmono.
  { intros h' st' (ps & Hl & <-). exists ps. split; [|done]. by apply (Layers_ext (db (world s))). }
  assert (get_room_shortstatehash (with_db (world s) d) room = Ok h) as Hget.
  { unfold get_room_shortstatehash, deserialized_u64, deserialized, get. simpl. subst d. dbs.
    rewrite lookup_insert_eq. cbn [ok_or_fail ok_or mbind result_bind]. by rewrite from_slice_u64 by word. }
  assert (Stored (with_service_db s d)) as Hs'.
  { split; simpl.
    - apply Inv_plain; [by apply st_short|]. intros c Hc. apply insert_other. by intros ->.
    - intros h' stack Hpk. apply (Layers_ext (db (world s))); [done|]. by apply (st_coherent s Hs).
    - intros k v. rewrite Hd. intros Hv. destruct (st_keys s Hs _ _ Hv) as (n & ps & Hn & -> & Hl & Hcn & Hlen).
      exists n, ps. split_and!; try (done || lia). by apply (Layers_ext (db (world s))).
    - intros r v. rewrite Hd. subst d. rewrite insert_same. intros [[<- <-]|[_ Hv]]%lookup_insert_Some.
      + exists h. split_and!; try (done || lia). destruct Hst as (ps & Hl & _). by eapply Layers_stored.
      + by apply (st_rooms s Hs r). }
  split_and!; [done| | |done| |done|].
  - intros Hh'. apply (Hashed_mono s); [done..|]. subst d. simpl. by dbs.
  - unfold room_state. simpl. rewrite Hget. by apply Hmono.
  - intros r Hr. unfold get_room_shortstatehash, get. simpl. subst d. dbs. by rewrite lookup_insert_ne.
  - apply draws_same; [simpl; lia|by repeat constructor|]. intros c _ Hc. apply insert_other. set_solver.
Qed.

(** ** The state before an event from another server *)

(** What [set_event_state] leaves: the number returned stands for the state, and is recorded for
    the event. *)
Definition event_state (s : Service C) (id : bytes) (new : CompressedState) (h : Z) (s' : Service C) : Prop :=
  Stored s' ∧ Hashed s' ∧ 0 < h ≤ counter (world s') ∧ state_at (db (world s')) h new ∧
  (∀ h st, state_at (db (world s)) h st → state_at (db (world s')) h st) ∧
  db (world s') roomid_shortstatehash = db (world s) roomid_shortstatehash ∧
  ∃ e, db (world s') eventid_shorteventid !! id = Some (u64_to_be e) ∧ is_u64 e ∧
    db (world s') shorteventid_shortstatehash =
      <[u64_to_be e := u64_to_be h]> (db (world s) shorteventid_shortstatehash).

(** The last step. *)
Lemma record_state (s s1 : Service C) id new h e : Stored s1 → Hashed s1 →
  0 < h ≤ counter (world s1) → state_at (db (world s1)) h new →
  (∀ h st, state_at (db (world s)) h st → state_at (db (world s1)) h st) →
  (∀ c, c = roomid_shortstatehash ∨ c = shorteventid_shortstatehash → db (world s1) c = db (world s) c) →
  db (world s1) eventid_shorteventid !! id = Some (u64_to_be e) → is_u64 e →
  event_state s id new h (with_service_db s1
    (insert (db (world s1)) shorteventid_shortstatehash (u64_to_be e) (u64_to_be h))).
Proof.
  intros Hs1 Hh1 Hh Hat Hmono Hcol He Hle.
  pose proof (extends_plain (world s1) shorteventid_shortstatehash (u64_to_be e) (u64_to_be h)
    (st_short s1 Hs1) I ltac:(done) ltac:(done)) as Hx.
  split_and!; try (done || (simpl; lia)).
  - by apply Stored_extends.
  - apply (Hashed_mono s1); [done| |by simpl; dbs]. intros h0 st Hst. by eapply state_at_extends.
  - by eapply state_at_extends.
  - intros h0 st Hst. eapply state_at_extends; [done|]. by apply Hmono.
  - simpl. dbs. by apply Hcol; left.
  - exists e. simpl. dbs. split_and!; try done. by rewrite Hcol by by right.
Qed.

(** A new state is based on the room's. *)
Lemma save_event_state fuel (s : Service C) room new old : Stored s → Hashed s → (4 ≤ fuel)%nat →
  counter (world s) < u64_max → set_Forall is_event new → Small s new → room_state s room old →
  db (world s) statehash_shortstatehash !! calculate_hash new = None → ∃ ps s' d,
  load_parents fuel (with_world s (issue (world s) statehash_shortstatehash (calculate_hash new)))
    (get_room_shortstatehash (world s) room) = (Ok (reverse ps), s') ∧
  save_state_from_diff (db (world s')) (counter (world s) + 1) (new ∖ top_state ps)
    (top_state ps ∖ new) 1000000 (reverse ps) = Ok d ∧
  let s2 := with_service_db s' d in
  Stored s2 ∧ Hashed s2 ∧ state_at d (counter (world s) + 1) new ∧
  (∀ h st, state_at (db (world s)) h st → state_at d h st) ∧
  counter (world s2) = counter (world s) + 1 ∧
  (∀ c, plain_column c → c ≠ shortstatehash_statediff → d c = db (world s) c) ∧
  d eventid_shorteventid = db (world s) eventid_shorteventid.
Proof.
  intros Hs Hh Hf Hlt Hnew [Hsm Hsm'] Hroom Hk. pose proof (st_short s Hs) as Hinv.
  pose proof (inv_counter _ Hinv) as Hmax.
  pose proof (extends_allocate (world s) statehash_shortstatehash (calculate_hash new) Hinv Hlt I) as Hx.
  pose proof (fun c => allocate_plain (world s) statehash_shortstatehash (calculate_hash new) c I) as Hpl.
  unfold allocate in Hx, Hpl. rewrite Hk in Hx, Hpl. cbn [snd] in Hx, Hpl.
  set (w := issue (world s) statehash_shortstatehash (calculate_hash new)) in *.
  destruct (load_parents_spec (with_world s w) room old fuel) as (ps & s' & Hload & Hs' & Hw & Hc & Hst & Htop);
    [by apply Stored_extends|done|by apply room_state_extends|].
  assert (get_room_shortstatehash (world (with_world s w)) room = get_room_shortstatehash (world s) room)
    as Hprev by (unfold get_room_shortstatehash, get; cbn [world with_world]; by rewrite (ext_rooms _ _ Hx)).
  rewrite Hprev in Hload.
  destruct (save_new_number s new (counter (world s) + 1) ps s' 1000000)
    as (d & Hd & Hs2 & Hh2 & Hat & Hmono & Hcols); try (done || word).
  { by rewrite Hw. }
  { destruct ps as [|p ps]; [simpl; lia|]. apply (Hsm' (si_shortstatehash p)).
    eapply Layers_ext, Hst. apply (ext_diff _ _ Hx). }
  exists ps, s', d. split; [done|]. split; [done|]. cbv zeta. split_and!; try done.
  - intros h st Hst'. apply Hmono. rewrite Hw. by eapply state_at_extends.
  - simpl. by rewrite Hw.
  - intros c Hc' Hne. rewrite Hcols, Hw by done. by apply Hpl.
  - rewrite Hcols, Hw by done. cbn [world with_world]. subst w. by rewrite issue_id.
Qed.

Lemma set_event_state_spec fuel (s : Service C) room id new : Stored s → Hashed s → (4 ≤ fuel)%nat →
  counter (world s) + 2 ≤ u64_max → set_Forall is_event new → Small s new → NoCollision s new →
  ∃ h s', set_event_state fuel s id room new = (Ok h, s') ∧ event_state s id new h s'.
Proof.
  intros Hs Hh Hf Hlt Hnew [Hsm Hsm'] Hcol. unfold set_event_state. pose proof (st_short s Hs) as Hinv.
  rewrite get_or_create_shorteventid_spec by (done || lia).
  destruct (allocate _ _ _) as [e w1] eqn:Ha.
  destruct (draws_allocate _ eventid_shorteventid _ _ _ Hinv ltac:(lia) I Ha) as (Hd & Hx & He & Hle & Hc).
  pose proof (ext_inv _ _ Hx) as Hinv1. pose proof (inv_counter _ Hinv1) as Hmax.
  assert (Hashed (with_world s w1)) as Hh1.
  { eapply Hashed_draws; [exact Hh|exact Hd|set_solver|]. intros. by eapply state_at_extends. }
  pose proof (Stored_extends s w1 Hs Hx) as Hs1. rewrite get_or_create_shortstatehash_spec by (done || lia).
  pose proof (dr_plain _ _ _ _ Hd) as Hpl.
  destruct (allocate w1 _ _) as [n w2] eqn:Ha2. destruct (room_state_exists (with_world s w1) room Hs1) as [old Hold].
  unfold allocate in Ha2. destruct (db w1 statehash_shortstatehash !! calculate_hash new) as [v|] eqn:Hv.
  - destruct (inv_issued _ Hinv1 statehash_shortstatehash _ _ I Hv) as (m & Hm & ->).
    assert (from_be (u64_to_be m) = m) as Hfm by (apply u64_round_trip; word). rewrite Hfm in Ha2.
    injection Ha2 as <- <-. rewrite bool_decide_eq_true_2 by done. cbv beta iota zeta.
    destruct (Hh1 _ m ltac:(word) Hv) as (st & Hst & Hhash).
    cbn [mbind result_bind]. rewrite aput_u64. eexists _, _. split; [done|].
    apply (record_state s (with_world s w1)); try (done || word).
    + assert (st = new) as <-; [|done]. apply (Hcol m st); [|done]. unfold state_at in *.
      destruct Hst as (ps & Hl & Htop). exists ps. split; [|done]. eapply Layers_ext, Hl. apply (ext_diff _ _ Hx).
    + intros. by eapply state_at_extends.
    + intros c [-> | ->]; apply Hpl; done || set_solver.
  - injection Ha2 as <- <-. rewrite bool_decide_eq_false_2 by (intros [? ?]; done). cbv beta iota zeta.
    destruct (save_event_state fuel (with_world s w1) room new old) as
      (ps & s' & d & Hload & Hsave & Hs2 & Hh2 & Hat & Hmono & Hcnt & Hcols & Hids); try (done || (simpl; lia)).
    { split; [done|]. intros h ps Hl. apply (Hsm' h). eapply Layers_ext, Hl. apply (ext_diff _ _ Hx). }
    change (with_world (with_world s w1) ?w) with (with_world s w) in Hload.
    cbn [world with_world] in Hload, Hsave |- *. rewrite Hload, diff_from_spec. cbv beta iota zeta.
    rewrite Hsave. cbn [mbind result_bind]. rewrite aput_u64. eexists _, _. split; [done|].
    apply (record_state s (with_service_db s' d)); try (done || (simpl in *; word)).
    + intros h st Hst. apply Hmono. by eapply state_at_extends.
    + intros c Hc'. simpl. rewrite Hcols by (by destruct Hc' as [-> | ->]).
      apply Hpl; [by destruct Hc' as [-> | ->]|set_solver].
    + simpl. by rewrite Hids.
Qed.
End RoomState.

(** * Forward extremities *)

Section Extremities.
Context `{!Parsers}.

Lemma put_extremities (d : Db) room (ids : list bytes) : ∃ d' : Db,
  foldl (fun d event_id =>
           d ← d; put_raw d roomid_pduleaves (pair_value room event_id) event_id) (Ok d) ids = Ok d' ∧
  (∀ c, c ≠ roomid_pduleaves → d' c = d c) ∧
  (∀ e, e ∈ ids → d' roomid_pduleaves !! pair_key room e = Some e) ∧
  (∀ k, (∀ e, e ∈ ids → k ≠ pair_key room e) → d' roomid_pduleaves !! k = d roomid_pduleaves !! k).
Proof.
  revert d. induction ids as [|id ids IH]; intros d.
  { exists d. split_and!; try done. set_solver. }
  cbn [foldl]. change (Ok d ≫= ?f) with (f d). cbv beta.
  assert (put_raw d roomid_pduleaves (pair_value room id) id =
    Ok (insert d roomid_pduleaves (pair_key room id) id)) as ->
    by (unfold put_raw, bput_raw; by rewrite serialize_pair).
  destruct (IH (insert d roomid_pduleaves (pair_key room id) id)) as (d' & -> & Ho & Hin & Hk).
  assert (∀ e e', pair_key room e = pair_key room e' → e = e') as Hinj.
  { intros e e' Heq. unfold pair_key in Heq. by simplify_list_eq. }
  exists d'. split_and!; [done| | |].
  - intros c Hc. by rewrite Ho, insert_other.
  - intros e He. destruct (decide (e ∈ ids)) as [|Hne]; [by apply Hin|].
    assert (e = id) as -> by set_solver. rewrite Hk by (intros e' He' ->%Hinj; done).
    rewrite insert_same. apply lookup_insert_eq.
  - intros k Hne. rewrite Hk by (intros e He; apply Hne; set_solver). rewrite insert_same.
    apply lookup_insert_ne. intros <-. apply (Hne id); [set_solver|done].
Qed.

Lemma set_forward_extremities_spec (d : Db) room ids : ∃ d' : Db,
  set_forward_extremities d room ids = Ok d' ∧
  (∀ c, c ≠ roomid_pduleaves → d' c = d c) ∧
  (∀ e, is_Some (d' roomid_pduleaves !! pair_key room e) ↔ e ∈ ids) ∧
  (∀ k, (∀ e, k ≠ pair_key room e) → d' roomid_pduleaves !! k = d roomid_pduleaves !! k).
Proof.
  unfold set_forward_extremities. rewrite keys_prefix_raw_pair. cbn [mbind result_bind].
  set (keys := filter _ _). destruct (remove_keys d roomid_pduleaves keys) as [Ho Hk].
  assert (∀ k, k ∈ keys ↔ (∃ e, k = pair_key room e) ∧ is_Some (d roomid_pduleaves !! k)) as Hkeys.
  { intros k. subst keys. by rewrite list_elem_of_filter, prefix_pair, sorted_keys_elem. }
  set (d1 := foldl _ d keys) in *.
  destruct (put_extremities d1 room ids) as (d' & Hd' & Ho' & Hin & Hk').
  exists d'. split_and!; [exact Hd'| | |].
  - intros c Hc. by rewrite Ho', Ho.
  - intros e. destruct (decide (e ∈ ids)) as [He|He]; [by rewrite Hin|]. split; [|done].
    rewrite Hk' by (intros e' He' Heq; unfold pair_key in Heq; by simplify_list_eq).
    rewrite Hk. case_decide as Hkk; [by intros []|]. intros Hs. exfalso. apply Hkk, Hkeys. eauto.
  - intros k Hne. rewrite Hk' by auto. rewrite Hk. rewrite decide_False; [done|].
    intros [[e ->] _]%Hkeys. by apply (Hne e).
Qed.
End Extremities.

(** * Properties *)

Section Properties.
Context `{!Parsers}.

(** A room's forward extremities, once set, are read back as exactly those identifiers, each
    once, whatever they were before; other rooms keep theirs, also rooms whose identifier starts
    with this one's, and nothing else of the database changes. *)
Theorem forward_extremities_correct (d : Db) (room : bytes) (ids : list bytes)
    (Hr : valid_utf8 room) (Hids : Forall (fun e => valid_utf8 e) ids) : ∃ d' l,
  set_forward_extremities d room ids = Ok d' ∧ get_forward_extremities d' room = Ok l ∧
  NoDup l ∧ (∀ e, e ∈ l ↔ e ∈ ids) ∧
  (∀ r, valid_utf8 r → r ≠ room → get_forward_extremities d' r = get_forward_extremities d r) ∧
  (∀ c, c ≠ roomid_pduleaves → d' c = d c).
Proof.
  destruct (set_forward_extremities_spec d room ids) as (d' & Hd' & Ho & Hin & Hk).
  destruct (keys_second_spec d' roomid_pduleaves room Hr) as (l & Hl & Hnd & Hel).
  { intros e He%Hin. by eapply Forall_forall in Hids. }
  exists d', l. split_and!; try done.
  - intros e. by rewrite Hel, Hin.
  - intros r Hvr Hne. apply keys_second_ext. intros e. apply Hk.
    intros e' Heq. by apply pair_first_utf8 in Heq as [? _].
Qed.
End Properties.

Module ExtremitiesWitness.
#[local] Instance any_parsers : Parsers := {| json_ok _ := true; cbor_ok _ := true |}.

(** The rooms [!r] and [!rs]: the second keeps [$b]. *)
Definition before : Db :=
  insert (insert empty_db roomid_pduleaves (pair_key [33; 114] [36; 97]) [36; 97])
    roomid_pduleaves (pair_key [33; 114; 115] [36; 98]) [36; 98].

Lemma forward_extremities_correct_witness : ∃ d',
  set_forward_extremities before [33; 114] [[36; 99]; [36; 100]; [36; 99]] = Ok d' ∧
  get_forward_extremities d' [33; 114] = Ok [[36; 99]; [36; 100]] ∧
  get_forward_extremities d' [33; 114; 115] = get_forward_extremities before [33; 114; 115] ∧
  get_forward_extremities before [33; 114; 115] = Ok [[36; 98]].
Proof.
  destruct (forward_extremities_correct before [33; 114] [[36; 99]; [36; 100]; [36; 99]])
    as (d' & l & Hd' & _ & _ & _ & Hothers & _).
  - exact I.
  - repeat constructor.
  - exists d'. split; [exact Hd'|]. split; [|split].
    + assert (ok (d ← set_forward_extremities before [33; 114] [[36; 99]; [36; 100]; [36; 99]];
                  get_forward_extremities d [33; 114]) = Some [[36; 99]; [36; 100]]) as Hc
        by (vm_compute; reflexivity).
      rewrite Hd' in Hc. cbn [mbind result_bind] in Hc.
      destruct (get_forward_extremities d' [33; 114]); [|discriminate]. cbn [ok] in Hc. by injection Hc as ->.
    + apply Hothers; [exact I|discriminate].
    + vm_compute. reflexivity.
Defined.
End ExtremitiesWitness.
