(* ===== verification/Timeline.v ===== *)
(** The timeline of a room: src/src/service/rooms/timeline/data.rs over the positions of PduCount.v.

    Events are stored as JSON under the room's number and their position; outliers under their
    identifier.  Parsing the JSON is [serde_json]'s, a parameter.  Streams are the lists they
    yield.  Fetching both kinds of event at once ([select_ok]) takes the boolean [race], which
    fetch is first. *)

From stdpp Require Import prelude gmap sorting.
From Stdlib Require Import ZArith Lia.
From S2P Require Import Prelude Bytes PduCount DbSer Database PairKeys Short.
Local Open Scope Z_scope.

(** [serde_json] at [PduEvent]. *)
Class PduJson (P : Type) := parse_pdu : bytes → option P.

(** The first success of two; [race] says which was first. *)
Definition select_ok {E A} (race : bool) (a b : comp E A) : comp E A :=
  let '(a, b) := if race then (a, b) else (b, a) in
  match a with Ok x => Ok x | Err _ => b end.

Section Timeline.
Context `{!Parsers} {P : Type} `{!PduJson P}.

(** [deserialized::<PduEvent>]. *)
Definition deserialized_pdu (r : comp db_error bytes) : comp db_error P :=
  v ← deserialized TJson r;
  match v with VJson text => ok_or_fail SerdeDe (parse_pdu text) | _ => Err (Fail SerdeDe) end.

(** @src src/src/service/rooms/timeline/data.rs:303-323 Data::count_to_id *)
Definition count_to_id (w : World) (room_id : bytes) (shorteventid : Count) (dir : Direction) :
    comp db_error RawId :=
  shortroomid ← match get_shortroomid w room_id with
                | Ok n => Ok n | Err (Fail _) => Err (Fail NotFound) | Err e => Err e end;
  Ok (raw_from_id {| shortroomid := shortroomid; shorteventid := saturating_inc shorteventid dir |}).

(** @src src/src/service/rooms/timeline/data.rs:272-278 Data::from_json_slice *)
Definition from_json_slice (kv : bytes * bytes) : comp db_error (Count * P) :=
  pdu_id ← expect (raw_from_bytes kv.1);
  pdu ← ok_or_fail SerdeDe (parse_pdu kv.2);
  Ok (pdu_count pdu_id, pdu).

Definition has_prefix (p : bytes) (kv : bytes * bytes) : Prop := p `prefix_of` kv.1.
#[global] Instance has_prefix_dec p kv : Decision (has_prefix p kv).
Proof. unfold has_prefix. apply _. Defined.

(** @src src/src/service/rooms/timeline/data.rs:240-254 Data::pdus_rev *)
Definition pdus_rev (w : World) (room_id : bytes) (until : Count) :
    comp db_error (list (comp db_error (Count * P))) :=
  current ← count_to_id w room_id until Backward;
  Ok (map from_json_slice
        (take_while (has_prefix (raw_shortroomid current))
           (rev_raw_stream_from (db w) pduid_pdu (as_bytes current)))).

(** @src src/src/service/rooms/timeline/data.rs:256-270 Data::pdus *)
Definition pdus (w : World) (room_id : bytes) (from : Count) :
    comp db_error (list (comp db_error (Count * P))) :=
  current ← count_to_id w room_id from Forward;
  Ok (map from_json_slice
        (take_while (has_prefix (raw_shortroomid current))
           (raw_stream_from (db w) pduid_pdu (as_bytes current)))).

(** [try_next]: the first item, if any. *)
Definition try_next {A} (s : comp db_error (list (comp db_error A))) : comp db_error (option A) :=
  l ← s; match l with [] => Ok None | x :: _ => a ← x; Ok (Some a) end.

Definition is_normal (c : Count) : bool := match c with Normal _ => true | Backfilled _ => false end.

(** @src src/src/service/rooms/timeline/data.rs:50-62 Data::last_timeline_count *)
Definition last_timeline_count (w : World) (room_id : bytes) : comp db_error Count :=
  item ← try_next (pdus_rev w room_id count_max);
  Ok (match item with Some (count, _) => if is_normal count then count else count_max | None => count_max end).

(** The number of the room's last event, remembered.
    @src src/src/service/rooms/timeline/data.rs:64-83 Data::room_activity *)
Definition room_activity (w : World) (room_id : bytes) : comp db_error (Z * World) :=
  match deserialized_u64 (get (db w) roomid_lasttimelinecount room_id) with
  | Ok count => Ok (count, w)
  | Err _ =>
      item ← try_next (pdus_rev w room_id count_max);
      match item with
      | Some (Normal count, _) =>
          Ok (count, with_db w (insert (db w) roomid_lasttimelinecount room_id (u64_to_be count)))
      | _ => Ok (0, w)
      end
  end.

(** @src src/src/service/rooms/timeline/data.rs:86-95 Data::latest_pdu_in_room *)
Definition latest_pdu_in_room (w : World) (room_id : bytes) : comp db_error P :=
  item ← try_next (pdus_rev w room_id count_max);
  ok_or_fail NotFound (snd <$> item).

(** ** One event *)

(** A value of another length than an identifier's panics.
    @src src/src/service/rooms/timeline/data.rs:128-133 Data::get_pdu_id *)
Definition get_pdu_id (d : Db) (event_id : bytes) : comp db_error RawId :=
  handle ← get d eventid_pduid event_id; expect (raw_from_bytes handle).

(** @src src/src/service/rooms/timeline/data.rs:98-102 Data::get_pdu_count *)
Definition get_pdu_count (d : Db) (event_id : bytes) : comp db_error Count :=
  pdu_id ← get_pdu_id d event_id; Ok (pdu_count pdu_id).

(** @src src/src/service/rooms/timeline/data.rs:182-184 Data::get_pdu_from_id *)
Definition get_pdu_from_id (d : Db) (pdu_id : RawId) : comp db_error P :=
  deserialized_pdu (get d pduid_pdu (as_bytes pdu_id)).

(** @src src/src/service/rooms/timeline/data.rs:136-140 Data::get_non_outlier_pdu *)
Definition get_non_outlier_pdu (d : Db) (event_id : bytes) : comp db_error P :=
  pduid ← get_pdu_id d event_id; get_pdu_from_id d pduid.

(** @src src/src/service/rooms/timeline/data.rs:144-148 Data::non_outlier_pdu_exists *)
Definition non_outlier_pdu_exists (d : Db) (event_id : bytes) : comp db_error unit :=
  pduid ← get_pdu_id d event_id;
  _ ← get d pduid_pdu (as_bytes pduid); Ok tt.

(** @src src/src/service/rooms/timeline/data.rs:167-169 Data::outlier_pdu_exists *)
Definition outlier_pdu_exists (d : Db) (event_id : bytes) : comp db_error unit :=
  _ ← get d eventid_outlierpdu event_id; Ok tt.

(** @src src/src/service/rooms/timeline/data.rs:153-162 Data::get_pdu *)
Definition get_pdu (race : bool) (d : Db) (event_id : bytes) : comp db_error P :=
  select_ok race (get_non_outlier_pdu d event_id)
    (deserialized_pdu (get d eventid_outlierpdu event_id)).

(** @src src/src/service/rooms/timeline/data.rs:172-177 Data::pdu_exists *)
Definition pdu_exists (race : bool) (d : Db) (event_id : bytes) : comp db_error unit :=
  select_ok race (non_outlier_pdu_exists d event_id) (outlier_pdu_exists d event_id).

(** ** Storing *)

(** [raw_put] of a [Json]. *)
Definition raw_put_json (d : Db) (c : column) (key json : bytes) : comp db_error Db :=
  raw_put d c key (VJson json).

(** @src src/src/service/rooms/timeline/data.rs:211-220 Data::prepend_backfill_pdu *)
Definition prepend_backfill_pdu (d : Db) (pdu_id : RawId) (event_id json : bytes) : comp db_error Db :=
  d ← raw_put_json d pduid_pdu (as_bytes pdu_id) json;
  Ok (remove (insert d eventid_pduid event_id (as_bytes pdu_id)) eventid_outlierpdu event_id).

(** @src src/src/service/rooms/timeline/data.rs:194-209 Data::append_pdu *)
Definition append_pdu (d : Db) (pdu_id : RawId) (event_id room_id json : bytes) (count : Count) :
    comp db_error Db :=
  d ← raw_put_json d pduid_pdu (as_bytes pdu_id) json;
  let d := insert d eventid_pduid event_id (as_bytes pdu_id) in
  let d := remove d eventid_outlierpdu event_id in
  Ok (insert d roomid_lasttimelinecount room_id (u64_to_be (into_unsigned count))).

(** @src src/src/service/rooms/timeline/data.rs:223-235 Data::replace_pdu *)
Definition replace_pdu (d : Db) (pdu_id : RawId) (pdu_json : bytes) : comp db_error Db :=
  match get d pduid_pdu (as_bytes pdu_id) with
  | Err (Fail NotFound) => Err (Fail NotFound)
  | _ => raw_put_json d pduid_pdu (as_bytes pdu_id) pdu_json
  end.
End Timeline.

(** ** Notification counts *)

(** @src src/src/service/rooms/timeline/data.rs:327-331 increment *)
Definition increment_key (d : Db) (c : column) (key : bytes) : Db :=
  insert d c key (increment (d c !! key)).

(** @src src/src/service/rooms/timeline/data.rs:280-301 Data::increment_notification_counts *)
Definition increment_notification_counts (d : Db) (room_id : bytes) (notifies highlights : list bytes) : Db :=
  let userroom_id user := user ++ [255] ++ room_id in
  let d := foldl (fun d user => increment_key d userroomid_notificationcount (userroom_id user)) d notifies in
  foldl (fun d user => increment_key d userroomid_highlightcount (userroom_id user)) d highlights.

(** * Lemmas *)

(** ** Keys of the timeline *)

Definition pdu_key (room : Z) (c : Count) : bytes :=
  as_bytes (raw_from_id {| shortroomid := room; shorteventid := c |}).

Lemma pdu_key_prefix room c : u64_to_be room `prefix_of` pdu_key room c.
Proof. unfold pdu_key, raw_from_id. simpl. destruct c; by eexists. Qed.

(** Counts whose keys are in their order: all but [Backfilled 0]. *)
Definition placed (c : Count) : Prop := canonical c ∧ c ≠ Backfilled 0.

Lemma pdu_key_le room (c d : Count) : is_u64 room → placed c → placed d →
  (ord_le (pdu_key room c) (pdu_key room d) ↔ into_signed c ≤ into_signed d).
Proof.
  intros Hr [Hc Hc0] [Hd Hd0]. unfold ord_le at 1. unfold pdu_key, ord_cmp, list_ord.
  rewrite raw_key_cmp by done. unfold ord_cmp, Count_ord. by rewrite <-Z.compare_le_iff.
Qed.

Lemma pdu_key_other room (c : Count) room' (c' : Count) : is_u64 room → is_u64 room' →
  u64_to_be room `prefix_of` pdu_key room' c' → room = room'.
Proof.
  intros Hr Hr' Hp. destruct Hp as [r Heq]. apply (f_equal (take 8)) in Heq.
  destruct (pdu_key_prefix room' c') as [r' Hr'']. rewrite Hr'' in Heq.
  rewrite !take_8_to_be in Heq. by apply u64_to_be_inj in Heq.
Qed.

Lemma raw_from_pdu_key (room : Z) (c : Count) : raw_from_bytes (pdu_key room c) =
  Some (raw_from_id {| shortroomid := room; shorteventid := c |}).
Proof. apply raw_from_bytes_as_bytes. Qed.

Lemma pdu_count_key (room : Z) (c : Count) : is_u64 room → canonical c →
  pdu_count (raw_from_id {| shortroomid := room; shorteventid := c |}) = c.
Proof. intros. unfold pdu_count. by rewrite id_from_raw_from_id. Qed.

(** Every key of the timeline is that of a position. *)
Definition Timeline_ok (d : Db) : Prop := ∀ k v, d pduid_pdu !! k = Some v →
  ∃ room c, is_u64 room ∧ placed c ∧ k = pdu_key room c.

(** The JSON stored at a position. *)
Definition stored_at (d : Db) (room : Z) (c : Count) : option bytes := d pduid_pdu !! pdu_key room c.

Section Streams.
Context `{!Parsers} {P : Type} `{!PduJson P}.

(** What a stream yields for an entry. *)
Definition parsed (cv : Count * bytes) : comp db_error (Count * P) :=
  pdu ← ok_or_fail SerdeDe (parse_pdu cv.2); Ok (cv.1, pdu).

Definition position (kv : bytes * bytes) : Count * bytes :=
  (match raw_from_bytes kv.1 with Some id => pdu_count id | None => Backfilled 0 end, kv.2).

Definition in_room (n : Z) (kv : bytes * bytes) : Prop := ∃ c, placed c ∧ kv.1 = pdu_key n c.

Lemma position_key n c v : is_u64 n → placed c → position (pdu_key n c, v) = (c, v).
Proof. intros Hn [Hc _]. unfold position. simpl. by rewrite raw_from_pdu_key, pdu_count_key. Qed.

Lemma from_json_position n kv : is_u64 n → in_room n kv → from_json_slice kv = parsed (position kv).
Proof.
  intros Hn (c & Hc & Hk). destruct kv as [k v]. simpl in Hk. subst k.
  rewrite position_key by done. unfold from_json_slice, parsed. cbn [fst snd].
  rewrite raw_from_pdu_key. cbn [expect ok_or mbind result_bind]. destruct Hc as [Hc _].
  by rewrite pdu_count_key.
Qed.

Lemma map_from_json n l : is_u64 n → Forall (in_room n) l →
  map from_json_slice l = map parsed (map position l).
Proof.
  intros Hn. induction 1 as [|kv l Hkv Hl IH]; [done|]. simpl.
  by rewrite (from_json_position n), IH.
Qed.

Lemma position_elem n l c v : is_u64 n → Forall (in_room n) l → placed c →
  ((c, v) ∈ map position l ↔ (pdu_key n c, v) ∈ l).
Proof.
  intros Hn Hl Hc. change (map position l) with (position <$> l). rewrite list_elem_of_fmap. split.
  - intros ([k v'] & Heq & Hin). pose proof Hin as Hr. eapply Forall_forall in Hr; [|done].
    destruct Hr as (c' & Hc' & Hk). simpl in Hk. subst k.
    rewrite position_key in Heq by done. by simplify_eq.
  - intros Hin. exists (pdu_key n c, v). by rewrite position_key.
Qed.

(** Positions are in the order of their keys. *)
Lemma position_sorted n l (R : Z → Z → Prop) (S : bytes * bytes → bytes * bytes → Prop) :
  is_u64 n → Forall (in_room n) l → StronglySorted S l →
  (∀ c d v v', placed c → placed d → S (pdu_key n c, v) (pdu_key n d, v') →
    R (into_signed c) (into_signed d)) →
  StronglySorted (fun a b => R (into_signed a.1) (into_signed b.1)) (map position l).
Proof.
  intros Hn Hl Hs HR. induction Hs as [|kv l Hs IH Hkv]; [constructor|].
  apply Forall_cons in Hl as [Hkr Hl]. cbn [map]. constructor; [by apply IH|].
  rewrite Forall_forall. change (map position l) with (position <$> l).
  intros y (kv' & -> & Hin)%list_elem_of_fmap_1.
  pose proof Hin as Hr. eapply Forall_forall in Hr; [|exact Hl].
  eapply Forall_forall in Hin; [|exact Hkv].
  destruct kv as [k v], kv' as [k' v'], Hkr as (c & Hc & Hk), Hr as (c' & Hc' & Hk'). cbn [fst] in Hk, Hk'. subst.
  rewrite !position_key by done. cbn [fst]. by eapply HR.
Qed.

Lemma entries_in_room d n kv : Timeline_ok d → is_u64 n → kv ∈ entries (d pduid_pdu) →
  has_prefix (u64_to_be n) kv → in_room n kv.
Proof.
  intros Hd Hn Hin Hp. destruct kv as [k v]. apply entries_elem in Hin.
  destruct (Hd k v Hin) as (m & c & Hm & Hc & ->). exists c. split; [done|].
  unfold has_prefix in Hp. simpl in *. by rewrite (pdu_key_other n c m c Hn Hm Hp).
Qed.

(** The forward scan of a room from a position. *)
Lemma scan_forward d n cur : Timeline_ok d → is_u64 n → placed cur →
  let l := take_while (has_prefix (u64_to_be n)) (raw_stream_from d pduid_pdu (pdu_key n cur)) in
  Forall (in_room n) l ∧ StronglySorted key_lt l ∧
  ∀ c v, placed c → ((pdu_key n c, v) ∈ l ↔ stored_at d n c = Some v ∧ into_signed cur ≤ into_signed c).
Proof.
  intros Hd Hn Hcur. cbv zeta. rewrite take_while_filter.
  2:{ intros i j x y Hi Hj Hij [r Hy]. destruct (pdu_key_prefix n cur) as [rc Hrc].
    assert (StronglySorted key_lt (raw_stream_from d pduid_pdu (pdu_key n cur))) as Hs
      by apply StronglySorted_filter, entries_sorted.
    assert (x ∈ raw_stream_from d pduid_pdu (pdu_key n cur)) as Hx by by eapply list_elem_of_lookup_2.
    apply list_elem_of_filter in Hx as [Hx _].
    apply (prefix_between (u64_to_be n) x.1 r).
    - etrans; [|exact Hx]. rewrite Hrc. apply prefix_le.
    - rewrite <-Hy. apply ord_le_alt. left. by eapply StronglySorted_pos in Hs. }
  split_and!.
  - apply Forall_forall. intros kv [Hp [_ Hin]%list_elem_of_filter]%list_elem_of_filter.
    by eapply entries_in_room.
  - apply StronglySorted_filter, StronglySorted_filter, entries_sorted.
  - intros c v Hc. unfold raw_stream_from. rewrite !list_elem_of_filter, entries_elem. simpl.
    rewrite pdu_key_le by done. pose proof (pdu_key_prefix n c). unfold stored_at, has_prefix. naive_solver.
Qed.

(** The backward scan. *)
Lemma scan_backward d n cur : Timeline_ok d → is_u64 n → placed cur →
  let l := take_while (has_prefix (u64_to_be n)) (rev_raw_stream_from d pduid_pdu (pdu_key n cur)) in
  Forall (in_room n) l ∧ StronglySorted (fun a b => key_lt b a) l ∧
  ∀ c v, placed c → ((pdu_key n c, v) ∈ l ↔ stored_at d n c = Some v ∧ into_signed c ≤ into_signed cur).
Proof.
  intros Hd Hn Hcur. cbv zeta.
  assert (StronglySorted (fun a b => key_lt b a) (rev_raw_stream_from d pduid_pdu (pdu_key n cur))) as Hs
    by apply StronglySorted_reverse, StronglySorted_filter, entries_sorted.
  rewrite take_while_filter.
  2:{ intros i j x y Hi Hj Hij [r Hy]. destruct (pdu_key_prefix n cur) as [rc Hrc].
    assert (x ∈ rev_raw_stream_from d pduid_pdu (pdu_key n cur)) as Hx by by eapply list_elem_of_lookup_2.
    unfold rev_raw_stream_from in Hx. rewrite elem_of_reverse in Hx. apply list_elem_of_filter in Hx as [Hx _].
    apply (prefix_between (u64_to_be n) x.1 rc); [|by rewrite <-Hrc].
    etrans; [apply (prefix_le _ r)|]. rewrite <-Hy. apply ord_le_alt. left.
    by eapply (StronglySorted_pos (fun a b => key_lt b a)) in Hs. }
  split_and!.
  - apply Forall_forall. intros kv [Hp Hin]%list_elem_of_filter. unfold rev_raw_stream_from in Hin.
    rewrite elem_of_reverse in Hin. apply list_elem_of_filter in Hin as [_ Hin]. by eapply entries_in_room.
  - by apply StronglySorted_filter.
  - intros c v Hc. unfold rev_raw_stream_from.
    rewrite list_elem_of_filter, elem_of_reverse, list_elem_of_filter, entries_elem. simpl.
    rewrite pdu_key_le by done. pose proof (pdu_key_prefix n c). unfold stored_at, has_prefix. naive_solver.
Qed.
End Streams.

(** ** One position on *)

Lemma forward_next from : placed from → into_signed from < i64_max → from ≠ Backfilled (-1) →
  placed (saturating_inc from Forward) ∧
  into_signed (saturating_inc from Forward) = into_signed from + 1.
Proof.
  intros [Hc H0] Hlt H1. destruct from as [i|i]; simpl in *.
  - rewrite as_i64_small in Hlt by word. unfold saturating_u64. rewrite Z.max_r, Z.min_r by word.
    split; [split; [simpl; word|done]|]. rewrite !as_i64_small by word. lia.
  - assert (i ≠ 0) by congruence. assert (i ≠ -1) by congruence. rewrite (as_i64_small 1) by word.
    unfold saturating_i64. rewrite Z.max_r, Z.min_r by word. rewrite from_signed_neg by lia.
    split; [split; [simpl; word|]|done]. intros [= ?]. lia.
Qed.

Lemma backward_next until : placed until → i64_min < into_signed until → until ≠ Normal 1 →
  placed (saturating_inc until Backward) ∧
  into_signed (saturating_inc until Backward) = into_signed until - 1.
Proof.
  intros [Hc H0] Hlt H1. destruct until as [i|i]; simpl in *.
  - assert (i ≠ 1) by congruence. unfold saturating_u64. rewrite Z.max_r, Z.min_r by word.
    split; [split; [simpl; word|done]|]. rewrite !as_i64_small by word. done.
  - assert (i ≠ 0) by congruence. rewrite (as_i64_small 1) by word.
    unfold saturating_i64. rewrite Z.max_r, Z.min_r by word.
    split; [split; [simpl; word|]|done]. intros [= ?]. lia.
Qed.

(** ** Storing *)

Lemma raw_put_json_spec d c key json : raw_put_json d c key json = Ok (insert d c key json).
Proof. done. Qed.

Lemma pdu_key_inj room (c : Count) room' (c' : Count) : is_u64 room → is_u64 room' → placed c → placed c' →
  pdu_key room c = pdu_key room' c' → room = room' ∧ c = c'.
Proof.
  intros Hr Hr' [Hc _] [Hc' _] Heq. apply (f_equal raw_from_bytes) in Heq.
  rewrite !raw_from_pdu_key in Heq. injection Heq as Heq. apply (f_equal id_from_raw) in Heq.
  rewrite !id_from_raw_from_id in Heq by done. by simplify_eq.
Qed.

Section Storing.
Context `{!Parsers} {P : Type} `{!PduJson P}.

Lemma deserialized_json json : valid_utf8 json → json_ok json →
  deserialized_pdu (Ok json) = ok_or_fail SerdeDe (parse_pdu json).
Proof.
  intros Hu Hj. unfold deserialized_pdu, deserialized, from_slice. cbn [mbind result_bind deserialize_value].
  unfold deserialize_map. rewrite (record_next_app _ json []).
  - cbn [mbind result_bind]. apply Is_true_true in Hj. by rewrite Hj.
  - split; [simpl; lia|by rewrite app_nil_r].
  - by apply valid_utf8_no_sep.
  - by left.
Qed.

(** The event stored under an identifier. *)
Lemma get_non_outlier_spec d event n (c : Count) : d eventid_pduid !! event = Some (pdu_key n c) →
  get_non_outlier_pdu d event = deserialized_pdu (ok_or_fail NotFound (stored_at d n c)).
Proof.
  intros He. unfold get_non_outlier_pdu, get_pdu_id, get. rewrite He. cbn [ok_or_fail ok_or mbind result_bind].
  rewrite raw_from_pdu_key. done.
Qed.

Lemma get_pdu_id_same d d' event : d' eventid_pduid !! event = d eventid_pduid !! event →
  get_pdu_id d' event = get_pdu_id d event.
Proof. intros He. unfold get_pdu_id, get. by rewrite He. Qed.

Lemma get_pdu_same race d d' event : d' eventid_pduid !! event = d eventid_pduid !! event →
  d' eventid_outlierpdu !! event = d eventid_outlierpdu !! event →
  (∀ k, d eventid_pduid !! event = Some k → d' pduid_pdu !! k = d pduid_pdu !! k) →
  get_pdu race d' event = get_pdu race d event.
Proof.
  intros He Ho Hk. unfold get_pdu, get_non_outlier_pdu, get_pdu_from_id.
  rewrite (get_pdu_id_same d d') by done. unfold get at 2 4. rewrite Ho. f_equal.
  unfold get_pdu_id, get. destruct (d eventid_pduid !! event) as [k|]; [|done].
  cbn [ok_or_fail ok_or mbind result_bind]. destruct (raw_from_bytes k) as [id|] eqn:Hid; [|done].
  cbn [expect ok_or mbind result_bind]. assert (as_bytes id = k) as ->; [|by rewrite Hk].
  unfold raw_from_bytes in Hid. case_decide as Hl; [|case_decide as Hl'; [|done]]; simplify_eq; simpl;
    apply take_ge; lia.
Qed.
End Storing.

(** * Properties *)

Section Properties.
Context `{!Parsers} {P : Type} `{!PduJson P}.

(** Scanning a room's timeline forward from a position yields exactly the events stored after it,
    each once, in order; scanning backward, exactly those before it, in reverse.  The last backfilled
    position and the first normal one are excepted: the key next to them is not in order. *)
Theorem timeline_scans_correct (w : World) (room : bytes) (n : Z) (from until : Count)
    (Hw : Timeline_ok (db w)) (Hroom : get_shortroomid w room = Ok n) (Hn : is_u64 n)
    (Hfrom : placed from) (Hmax : into_signed from < i64_max) (Hlast : from ≠ Backfilled (-1))
    (Huntil : placed until) (Hmin : i64_min < into_signed until) (Hfirst : until ≠ Normal 1) :
  (∃ l, pdus w room from = Ok (map parsed l) ∧
    StronglySorted (fun a b => into_signed a.1 < into_signed b.1) l ∧
    ∀ c v, placed c →
      ((c, v) ∈ l ↔ stored_at (db w) n c = Some v ∧ into_signed from < into_signed c)) ∧
  (∃ l, pdus_rev w room until = Ok (map parsed l) ∧
    StronglySorted (fun a b => into_signed b.1 < into_signed a.1) l ∧
    ∀ c v, placed c →
      ((c, v) ∈ l ↔ stored_at (db w) n c = Some v ∧ into_signed c < into_signed until)).
Proof.
  assert (∀ c d v v' : _, placed c → placed d → key_lt (pdu_key n c, v) (pdu_key n d, v') →
    into_signed c < into_signed d) as Hlt.
  { intros c d v v' Hc Hd Hk. unfold key_lt in Hk. cbn [fst] in Hk. apply Z.nle_gt. intros Hle.
    apply (pdu_key_le n d c Hn Hd Hc) in Hle. apply ord_not_lt in Hle. done. }
  unfold pdus, pdus_rev, count_to_id. rewrite Hroom. cbn [mbind result_bind].
  rewrite !raw_shortroomid_spec. cbn [shortroomid]. split.
  - destruct (forward_next from Hfrom Hmax Hlast) as [Hcur Hnext].
    destruct (scan_forward (db w) n _ Hw Hn Hcur) as (Hl & Hs & Hin). fold (pdu_key n (saturating_inc from Forward)).
    eexists. rewrite (map_from_json n) by done. split; [done|]. split.
    + eapply (position_sorted n _ (fun a b => a < b)); [done..|]. intros c d v v'. apply Hlt.
    + intros c v Hc. rewrite (position_elem n), Hin by done. rewrite Hnext. intuition lia.
  - destruct (backward_next until Huntil Hmin Hfirst) as [Hcur Hnext].
    destruct (scan_backward (db w) n _ Hw Hn Hcur) as (Hl & Hs & Hin). fold (pdu_key n (saturating_inc until Backward)).
    eexists. rewrite (map_from_json n) by done. split; [done|]. split.
    + eapply (position_sorted n _ (fun a b => b < a)); [done..|]. intros c d v v' ??. by apply Hlt.
    + intros c v Hc. rewrite (position_elem n), Hin by done. rewrite Hnext. intuition lia.
Qed.

(** An event appended to the timeline is found by its identifier whichever fetch is first, is at
    its position and no longer an outlier; every other event and position is as it was. *)
Theorem append_pdu_correct (d : Db) (n : Z) (count : Count) (event room json : bytes) (p : P)
    (Hd : Timeline_ok d) (Hn : is_u64 n) (Hc : placed count) (Hutf : valid_utf8 json)
    (Hjson : json_ok json) (Hp : parse_pdu json = Some p)
    (Hfresh : ∀ e, d eventid_pduid !! e ≠ Some (pdu_key n count)) : ∃ d',
  append_pdu d (raw_from_id {| shortroomid := n; shorteventid := count |}) event room json count = Ok d' ∧
  Timeline_ok d' ∧ (∀ race, get_pdu race d' event = Ok p) ∧ get_pdu_count d' event = Ok count ∧
  outlier_pdu_exists d' event = Err (Fail NotFound) ∧
  (∀ m c, is_u64 m → placed c →
    stored_at d' m c = if decide (m = n ∧ c = count) then Some json else stored_at d m c) ∧
  (∀ race e, e ≠ event → get_pdu race d' e = get_pdu race d e ∧ get_pdu_count d' e = get_pdu_count d e).
Proof.
  unfold append_pdu. rewrite raw_put_json_spec. cbn [mbind result_bind]. fold (pdu_key n count).
  eexists. split; [done|]. set (d' := insert _ _ _ _).
  assert (d' pduid_pdu = <[pdu_key n count := json]> (d pduid_pdu)) as Hpdu by (subst d'; by dbs).
  assert (d' eventid_pduid = <[event := pdu_key n count]> (d eventid_pduid)) as Hid by (subst d'; by dbs).
  assert (d' eventid_outlierpdu = delete event (d eventid_outlierpdu)) as Hout by (subst d'; by dbs).
  assert (∀ m c, is_u64 m → placed c →
    stored_at d' m c = if decide (m = n ∧ c = count) then Some json else stored_at d m c) as Hst.
  { intros m c Hm Hpc. unfold stored_at. rewrite Hpdu. case_decide as Heq.
    - destruct Heq as [-> ->]. apply lookup_insert_eq.
    - apply lookup_insert_ne. intros Hk. apply Heq. by apply pdu_key_inj in Hk as [-> ->]. }
  assert (get_non_outlier_pdu d' event = Ok p) as Hget.
  { rewrite (get_non_outlier_spec d' event n count) by (rewrite Hid; apply lookup_insert_eq).
    rewrite Hst by done. rewrite decide_True by done. cbn [ok_or_fail ok_or].
    by rewrite deserialized_json, Hp. }
  split_and!.
  - intros k v. rewrite Hpdu. intros [[<- _]|[_ Hk]]%lookup_insert_Some; [by eauto|by apply (Hd k v)].
  - intros race. unfold get_pdu. rewrite Hget. unfold get. rewrite Hout, lookup_delete_eq. by destruct race.
  - unfold get_pdu_count, get_pdu_id, get. rewrite Hid, lookup_insert_eq. cbn [ok_or_fail ok_or mbind result_bind].
    rewrite raw_from_pdu_key. cbn [expect ok_or mbind result_bind]. destruct Hc. by rewrite pdu_count_key.
  - unfold outlier_pdu_exists, get. by rewrite Hout, lookup_delete_eq.
  - exact Hst.
  - intros race e He. assert (d' eventid_pduid !! e = d eventid_pduid !! e) as Heq
      by (rewrite Hid; by apply lookup_insert_ne). split.
    + apply get_pdu_same; [done|rewrite Hout; by apply lookup_delete_ne|].
      intros k Hk. rewrite Hpdu. apply lookup_insert_ne. intros <-. by apply (Hfresh e).
    + unfold get_pdu_count. by rewrite (get_pdu_id_same d d').
Qed.
End Properties.

(** * A concrete timeline *)
Module TimelineWitness.
#[local] Instance any_parsers : Parsers := {| json_ok _ := true; cbor_ok _ := true |}.
(** Events are their JSON. *)
#[local] Instance raw_json : PduJson bytes := fun json => Some json.

Definition room : bytes := [33; 114].

Definition event (c : Count) (json : bytes) (d : Db) : Db :=
  insert d pduid_pdu (pdu_key 7 c) json.

Definition db0 : Db := event (Backfilled (-4)) [65] (event (Backfilled (-1)) [66]
  (event (Normal 3) [67] (event (Normal 9) [68]
    (insert empty_db roomid_shortroomid room (u64_to_be 7))))).
Definition w0 : World := {| db := db0; counter := 9 |}.

Lemma placed_dec_true c : bool_decide (canonical c) = true → bool_decide (c = Backfilled 0) = false → placed c.
Proof. intros H1%bool_decide_eq_true H2%bool_decide_eq_false. done. Qed.
Ltac place := apply placed_dec_true; reflexivity.

Lemma w0_ok : Timeline_ok (db w0).
Proof.
  intros k v. unfold w0, db0, event. cbn [db]. rewrite !insert_same.
  rewrite (insert_other _ roomid_shortroomid) by done.
  intros [[<- _]|[_ Hk]]%lookup_insert_Some; [exists 7, (Backfilled (-4)); split; [word|split; [place|done]]|].
  apply lookup_insert_Some in Hk as [[<- _]|[_ Hk]]; [exists 7, (Backfilled (-1)); split; [word|split; [place|done]]|].
  apply lookup_insert_Some in Hk as [[<- _]|[_ Hk]]; [exists 7, (Normal 3); split; [word|split; [place|done]]|].
  apply lookup_insert_Some in Hk as [[<- _]|[_ Hk]]; [exists 7, (Normal 9); split; [word|split; [place|done]]|].
  done.
Qed.

(** From -4 on: the others in order.  Before 9: the others, backwards. *)
Lemma timeline_scans_correct_witness :
  pdus w0 room (Backfilled (-4)) =
    Ok [Ok (Backfilled (-1), [66]); Ok (Normal 3, [67]); Ok (Normal 9, [68])] ∧
  pdus_rev w0 room (Normal 9) =
    Ok [Ok (Normal 3, [67]); Ok (Backfilled (-1), [66]); Ok (Backfilled (-4), [65])] ∧
  ∃ l, pdus w0 room (Backfilled (-4)) = Ok (map parsed l).
Proof.
  split; [vm_compute; reflexivity|]. split; [vm_compute; reflexivity|].
  destruct (timeline_scans_correct w0 room 7 (Backfilled (-4)) (Normal 9)) as [(l & Hl & _) _].
  - apply w0_ok.
  - vm_compute. reflexivity.
  - word.
  - place.
  - simpl. word.
  - discriminate.
  - place.
  - reflexivity.
  - discriminate.
  - exists l. exact Hl.
Defined.

(** The two positions excepted: after the last backfilled event come all backfilled events again, and
    before the first normal one comes nothing. *)
Example scans_at_the_seam :
  pdus w0 room (Backfilled (-1)) = Ok [Ok (Backfilled (-4), [65]); Ok (Backfilled (-1), [66]);
    Ok (Normal 3, [67]); Ok (Normal 9, [68])] ∧
  pdus_rev w0 room (Normal 1) = Ok [].
Proof. split; vm_compute; reflexivity. Qed.

Lemma append_pdu_correct_witness : ∃ d',
  append_pdu db0 (raw_from_id {| shortroomid := 7; shorteventid := Normal 12 |}) [36] room [69] (Normal 12)
    = Ok d' ∧ (∀ race, get_pdu race d' [36] = Ok [69]).
Proof.
  destruct (append_pdu_correct db0 7 (Normal 12) [36] room [69] [69]) as (d' & Hd' & _ & Hget & _).
  - apply w0_ok.
  - word.
  - place.
  - vm_compute. exact I.
  - exact I.
  - reflexivity.
  - intros e. discriminate.
  - exists d'. exact (conj Hd' Hget).
Defined.
End TimelineWitness.
