(* ===== verification/ReadReceipt.v ===== *)
(** What users have read: src/src/service/rooms/read_receipt (data.rs, mod.rs) and the counts of
    src/src/service/rooms/user/mod.rs.

    Public receipts are kept under room, number and user, one per room and user, and sent to clients
    from a number on; private ones and the counts of unseen notifications under the pair.  The JSON
    of a receipt is [serde_json]'s. *)

From stdpp Require Import prelude gmap sorting.
From Stdlib Require Import ZArith Lia.
From S2P Require Import Prelude Bytes PduCount DbSer Database PairKeys Scans Tables Short Timeline.
Local Open Scope Z_scope.

(** [CanonicalJsonObject::remove], from text to text. *)
Class JsonObject := json_without : bytes → bytes → option bytes.

Definition ROOM_ID : bytes := [114; 111; 111; 109; 95; 105; 100].

Section ReadReceipt.
Context `{!Parsers} `{!JsonObject}.

(** ** Public receipts *)

Definition receipt_id (room_id : bytes) (count : Z) (user_id : bytes) : value :=
  VTuple [VStr room_id; VU64 count; VStr user_id].

(** The keys are deleted as raw bytes.
    @src src/src/service/rooms/read_receipt/data.rs:43-62 Data::readreceipt_update *)
Definition readreceipt_update (w : World) (user_id room_id event : bytes) : comp db_error World :=
  keys ← rev_keys_from_raw (db w) readreceiptid_readreceipt (VTuple [VStr room_id; VU64 u64_max]);
  let keys := filter (fun key => user_id `suffix_of` key)
                (take_while (fun key => room_id `prefix_of` key) keys) in
  let d := foldl (fun d key => remove d readreceiptid_readreceipt key) (db w) keys in
  '(count, w) ← expect_ok (next_count (with_db w d));
  d ← put (db w) readreceiptid_readreceipt (receipt_id room_id count user_id) (VJson event);
  Ok (with_db w d).

(** An item of the stream: room, number, user and text. *)
Definition receipt_item (kv : value * value) : option (bytes * Z * bytes * bytes) :=
  match kv with
  | (VTuple [VStr r; VU64 count; VStr user], VJson text) => Some (r, count, user, text)
  | _ => None
  end.

(** @src src/src/service/rooms/read_receipt/data.rs:64-87 Data::readreceipts_since *)
Definition readreceipts_since (d : Db) (room_id : bytes) (since : Z) :
    comp db_error (list (bytes * Z * bytes)) :=
  let after_since := Z.min (since + 1) u64_max in
  l ← stream_from (TTuple [TStr; TU64; TStr]) TJson d readreceiptid_readreceipt
        (VTuple [VStr room_id; VU64 after_since]);
  let l := take_while (fun item => item.1.1.1 = room_id) (omap receipt_item (ignore_err l)) in
  Ok (omap (fun '(_, count, user, text) => event ← json_without ROOM_ID text; Some (user, count, event)) l).

(** ** Private receipts *)

(** @src src/src/service/rooms/read_receipt/data.rs:89-95 Data::private_read_set *)
Definition private_read_set (w : World) (room_id user_id : bytes) (pdu_count : Z) : comp db_error World :=
  let key := pair_value room_id user_id in
  '(next_count, w) ← expect_ok (next_count w);
  d ← put (db w) roomuserid_privateread key (VU64 pdu_count);
  d ← put d roomuserid_lastprivatereadupdate key (VU64 next_count);
  Ok (with_db w d).

(** @src src/src/service/rooms/read_receipt/data.rs:97-104 Data::private_read_get_count *)
Definition private_read_get_count (d : Db) (room_id user_id : bytes) : comp db_error Z :=
  deserialized_u64 (qry d roomuserid_privateread (pair_value room_id user_id)).

(** @src src/src/service/rooms/read_receipt/data.rs:106-117 Data::last_privateread_update *)
Definition last_privateread_update (d : Db) (user_id room_id : bytes) : Z :=
  default 0 (ok (deserialized_u64 (qry d roomuserid_lastprivatereadupdate (pair_value room_id user_id)))).

(** The event a private receipt is at; the receipt made of it is [ruma]'s.
    @src src/src/service/rooms/read_receipt/mod.rs:65-104 Service::private_read_get *)
Definition private_read_get {P : Type} `{!PduJson P} (w : World) (room_id user_id : bytes) : comp db_error P :=
  pdu_count ← match private_read_get_count (db w) room_id user_id with
              | Err (Fail _) => Err (Fail DatabaseError) | r => r end;
  shortroomid ← match get_shortroomid w room_id with
                | Err (Fail _) => Err (Fail DatabaseError) | r => r end;
  get_pdu_from_id (db w) (raw_from_id {| shortroomid := shortroomid; shorteventid := Normal pdu_count |}).

(** ** Notification counts *)

(** @src src/src/service/rooms/user/mod.rs:44-54 Service::reset_notification_counts *)
Definition reset_notification_counts (w : World) (user_id room_id : bytes) : comp db_error World :=
  let userroom_id := pair_value user_id room_id in
  d ← put (db w) userroomid_highlightcount userroom_id (VU64 0);
  d ← put d userroomid_notificationcount userroom_id (VU64 0);
  '(count, w) ← expect_ok (next_count (with_db w d));
  d ← put (db w) roomuserid_lastnotificationread (pair_value room_id user_id) (VU64 count);
  Ok (with_db w d).

(** @src src/src/service/rooms/user/mod.rs:57-65 Service::notification_count *)
Definition notification_count (d : Db) (user_id room_id : bytes) : Z :=
  default 0 (ok (deserialized_u64 (qry d userroomid_notificationcount (pair_value user_id room_id)))).

(** @src src/src/service/rooms/user/mod.rs:69-77 Service::highlight_count *)
Definition highlight_count (d : Db) (user_id room_id : bytes) : Z :=
  default 0 (ok (deserialized_u64 (qry d userroomid_highlightcount (pair_value user_id room_id)))).

(** @src src/src/service/rooms/user/mod.rs:80-88 Service::last_notification_read *)
Definition last_notification_read (d : Db) (user_id room_id : bytes) : Z :=
  default 0 (ok (deserialized_u64 (qry d roomuserid_lastnotificationread (pair_value room_id user_id)))).
End ReadReceipt.

(** ** Packing receipts for a client *)

Section Pack.
Context {R : Type}.
(** The content of a receipt event: by event, type and user. *)
Definition receipt_content : Type := gmap bytes (gmap bytes (gmap bytes R)).

(** [extend]: the later entry of a user wins. *)
Definition merge_users (old new : gmap bytes R) : gmap bytes R := new ∪ old.
Definition merge_types (old new : gmap bytes (gmap bytes R)) : gmap bytes (gmap bytes R) :=
  union_with (fun new old => Some (merge_users old new)) new old.

(** Receipts that are not read as such are [None].
    @src src/src/service/rooms/read_receipt/mod.rs:144-176 pack_receipts *)
Definition pack_receipts (receipts : list (option receipt_content)) : receipt_content :=
  foldl (fun json value =>
           match value with
           | Some content => union_with (fun new old => Some (merge_types old new)) content json
           | None => json
           end) ∅ receipts.
End Pack.

(** * The receipts as a map from room and user to number and text *)

Abbreviation receipts := (gmap (bytes * bytes) (Z * bytes)).

Section Spec.
Context `{!Parsers} `{!JsonObject}.

Definition receipt_key (room : bytes) (c : Z) (user : bytes) : bytes :=
  tuple_bytes (counted [VStr room] c [VStr user]).
Definition key_of (x : bytes * bytes) (e : Z * bytes) : bytes := receipt_key x.1 e.1 x.2.
Definition value_of (x : bytes * bytes) (e : Z * bytes) : bytes := e.2.

Definition receipt_ok (text : bytes) : Prop := valid_utf8 text ∧ json_ok text.

Record ReceiptInv (R : receipts) (w : World) : Prop := {
  ri_rows : Represents key_of value_of R (db w readreceiptid_readreceipt);
  ri_ok x e : R !! x = Some e → valid_utf8 x.1 ∧ valid_utf8 x.2 ∧ 0 < e.1 ≤ counter w ∧ receipt_ok e.2;
  ri_numbers x y e e' : R !! x = Some e → R !! y = Some e' → e.1 = e'.1 → x = y;
  ri_counter : is_u64 (counter w);
}.

Lemma receipt_row room c user : valid_utf8 room → valid_utf8 user → is_u64 c →
  row [TStr] [TStr] [VStr room] c [VStr user] (receipt_key room c user).
Proof. intros. split; [done|by repeat constructor|done|by repeat constructor]. Qed.

Lemma receipt_key_inj room c user room' c' user' :
  valid_utf8 room → valid_utf8 user → is_u64 c → valid_utf8 room' → valid_utf8 user' → is_u64 c' →
  receipt_key room c user = receipt_key room' c' user' → (room, user) = (room', user') ∧ c = c'.
Proof.
  intros H1 H2 H3 H4 H5 H6 Heq. pose proof (receipt_row room c user H1 H2 H3) as Hr.
  pose proof (receipt_row room' c' user' H4 H5 H6) as Hr'. rewrite <-Heq in Hr'.
  destruct (row_inj [TStr] [TStr] ltac:(done) _ _ _ _ _ _ _ Hr Hr') as ([= ->] & -> & [= ->]). done.
Qed.

Lemma receipt_key_bytes room c user : receipt_key room c user = room ++ SEP :: u64_to_be c ++ SEP :: user.
Proof.
  unfold receipt_key. rewrite counted_bytes by done. unfold trail. cbn [fmap list_fmap concat record_bytes].
  simpl tuple_bytes. unfold trail. cbn [fmap list_fmap concat record_bytes]. by rewrite !app_nil_r, <-(assoc_L (++)).
Qed.

(** A room's last possible key comes after the receipts of the room and of the rooms whose names
    extend its name. *)
Lemma receipt_key_le room room' c user : valid_utf8 room' → 0 ≤ c < u64_max → room `prefix_of` room' →
  ord_le (receipt_key room' c user) (from_key [VStr room] u64_max).
Proof.
  intros Hr Hc [ext ->]. destruct ext as [|b ext].
  - rewrite app_nil_r. apply from_key_ge; [done|word..|left; lia].
  - unfold from_key. rewrite receipt_key_bytes, counted_bytes by done. simpl tuple_bytes.
    unfold trail. simpl (concat _). rewrite !app_nil_r. unfold ord_le, ord_cmp, list_ord.
    rewrite <-!(assoc_L (++)), list_cmp_prefix. simpl.
    apply valid_utf8_bytes, Forall_app in Hr as [_ [Hb _]%Forall_cons].
    assert (ord_cmp b SEP = Lt) as -> by by apply Z.compare_lt_iff. done.
Qed.

(** The keys that an update deletes. *)
Definition outdated (d : Db) (room user : bytes) : list bytes :=
  filter (fun key => user `suffix_of` key)
    (take_while (fun key => room `prefix_of` key)
       (rev_raw_keys_from d readreceiptid_readreceipt (from_key [VStr room] u64_max))).

Lemma outdated_elem R w room user x e : ReceiptInv R w → counter w < u64_max → valid_utf8 room → valid_utf8 user →
  R !! x = Some e → key_of x e ∈ outdated (db w) room user ↔ room `prefix_of` x.1 ∧ user `suffix_of` x.2.
Proof.
  intros Hinv Hlt Hr Hu Hx. pose proof Hinv as [Hrows Hok _ _]. destruct (Hok _ _ Hx) as (Hx1 & Hx2 & He & _).
  pose proof (valid_utf8_no_sep _ Hr). pose proof (valid_utf8_no_sep _ Hu).
  unfold outdated, rev_raw_keys_from. rewrite (take_while_sorted (fun a b => ord_le b a)).
  - rewrite !list_elem_of_filter, elem_of_reverse, list_elem_of_filter, sorted_keys_elem.
    unfold key_of. rewrite receipt_key_bytes, prefix_of_sep by done.
    rewrite (suffix_of_sep user), (suffix_of_sep user _ (u64_to_be e.1)) by done. rewrite <-receipt_key_bytes.
    split; [naive_solver|]. intros [Hp Hs]. split_and!; try done; [apply receipt_key_le; [done|lia|done]|].
    exists (value_of x e). by apply (rep_Some _ _ _ _ _ _ Hrows).
  - apply StronglySorted_reverse, StronglySorted_filter, sort_StronglySorted.
  - intros k k' [Hk _]%elem_of_reverse%list_elem_of_filter _ Hle [r ->].
    destruct (from_key_prefix [TStr] ltac:(done) [VStr room] u64_max ltac:(by repeat constructor)) as [r' Hr'].
    rewrite Hr' in Hk. simpl tuple_bytes in Hk. unfold trail in Hk. simpl in Hk.
    rewrite app_nil_r, <-!(assoc_L (++)) in Hk. eapply prefix_between; [|exact Hk].
    etrans; [apply prefix_le|exact Hle].
Qed.

(** The receipts that stay when [user] reads [room]. *)
Definition stays (room user : bytes) (xe : (bytes * bytes) * (Z * bytes)) : Prop :=
  ¬ (room `prefix_of` xe.1.1 ∧ user `suffix_of` xe.1.2).
#[local] Instance stays_dec room user xe : Decision (stays room user xe).
Proof. unfold stays. apply _. Defined.

Definition receipt_update (R : receipts) (room user : bytes) (c : Z) (text : bytes) : receipts :=
  <[(room, user) := (c, text)]> (filter (stays room user) R).

Lemma update_spec R w room user text : ReceiptInv R w → counter w < u64_max →
  valid_utf8 room → valid_utf8 user → receipt_ok text → ∃ w',
  readreceipt_update w user room text = Ok w' ∧ counter w' = counter w + 1 ∧
  ReceiptInv (receipt_update R room user (counter w + 1) text) w' ∧
  ∀ c, c ≠ global → c ≠ readreceiptid_readreceipt → db w' c = db w c.
Proof.
  intros Hinv Hlt Hr Hu Ht. pose proof Hinv as [Hrows Hok Hnu Hc].
  unfold readreceipt_update, rev_keys_from_raw. change (serialize_to_vec ?v) with (serialize None v).
  rewrite serialize_tuple_bytes by auto with plain. cbn [expect_ok mbind result_bind].
  change (tuple_bytes [VStr room; VU64 u64_max]) with (from_key [VStr room] u64_max).
  change (filter _ (take_while _ _)) with (outdated (db w) room user).
  destruct (remove_keys (db w) readreceiptid_readreceipt (outdated (db w) room user)) as [Hother Hrem].
  set (d := foldl _ _ _) in *. unfold next_count, checked_u64. cbn [counter with_db].
  rewrite decide_True by word. cbn [default expect_ok mbind result_bind db].
  unfold receipt_id. rewrite (put_tuple _ _ _ _ text) by auto with plain. cbn [mbind result_bind].
  eexists. split; [done|]. split; [done|]. set (c := counter w + 1).
  change (tuple_bytes _) with (key_of (room, user) (c, text)).
  assert (Represents key_of value_of (filter (stays room user) R) (d readreceiptid_readreceipt)) as Hf.
  { apply (rep_filter _ _ _ _ _ _ (outdated (db w) room user) Hrows Hrem). intros x e Hx.
    rewrite (outdated_elem R) by done. unfold stays. cbn [fst]. destruct (decide (room `prefix_of` x.1 ∧ user `suffix_of` x.2)); tauto. }
  assert (is_u64 c) as Hcu by (subst c; word).
  assert (filter (stays room user) R !! (room, user) = None) as Hnone.
  { apply map_lookup_filter_None_2. right. intros e _ Hs. by apply Hs. }
  split.
  - split; cbn [db with_db counter].
    + dbs. unfold receipt_update. change text with (value_of (room, user) (c, text)) at 2.
      replace (d readreceiptid_readreceipt) with
        (forget_key key_of (filter (stays room user) R) (room, user) (d readreceiptid_readreceipt))
        by (unfold forget_key; by rewrite Hnone).
      apply rep_insert; [done|]. intros y e' Hne [Hy _]%map_lookup_filter_Some Hk.
      destruct (Hok _ _ Hy) as (? & ? & ? & _).
      apply receipt_key_inj in Hk as [Hy' _]; try done; [|word]. destruct y. by simplify_eq/=.
    + unfold receipt_update. intros x e [[<- <-]|[_ [Hx _]%map_lookup_filter_Some]]%lookup_insert_Some.
      * split_and!; done || (simpl; subst c; word).
      * destruct (Hok _ _ Hx) as (? & ? & ? & ?). subst c. split_and!; try done; cbn; lia.
    + assert (∀ x e, filter (stays room user) R !! x = Some e → R !! x = Some e ∧ e.1 ≠ c) as Hold.
      { intros x e [Hx _]%map_lookup_filter_Some. destruct (Hok _ _ Hx) as (_ & _ & ? & _). subst c. split; [done|lia]. }
      intros x y e e' Hx Hy Heq. unfold receipt_update in *.
      apply lookup_insert_Some in Hx as [[<- <-]|[_ [Hx Hxc]%Hold]];
        apply lookup_insert_Some in Hy as [[<- <-]|[_ [Hy Hyc]%Hold]]; [done|..].
      * by destruct Hyc.
      * by destruct Hxc.
      * by apply (Hnu x y e e').
    + done.
  - intros c' Hg Hc'. cbn [db with_db]. rewrite !insert_other by done. by apply Hother.
Qed.

(** ** The stream *)

Definition receipt_item_of (kv : bytes * bytes) : option (bytes * Z * bytes * bytes) :=
  x ← ok (deserialize_kv (TTuple [TStr; TU64; TStr]) TJson kv); receipt_item x.

Lemma from_slice_json text : receipt_ok text → from_slice TJson text = Ok (VJson text).
Proof.
  intros [Hu Hj]. unfold from_slice. cbn [deserialize_value]. unfold deserialize_map.
  rewrite (record_next_app _ text []); [|split; [simpl; lia|by rewrite app_nil_r]|by apply valid_utf8_no_sep|by left].
  cbn [mbind result_bind]. apply Is_true_true in Hj. by rewrite Hj.
Qed.

Lemma receipt_item_entry room c user text : valid_utf8 room → valid_utf8 user → is_u64 c → receipt_ok text →
  receipt_item_of (receipt_key room c user, text) = Some (room, c, user, text).
Proof.
  intros Hr Hu Hc Ht. unfold receipt_item_of, deserialize_kv. cbn [fst snd]. unfold receipt_key.
  rewrite (from_slice_reads _ _ [VStr room; VU64 c; VStr user]);
    [|read_records; by constructor|done|by apply tuple_bytes_nonempty].
  cbn [mbind result_bind]. by rewrite from_slice_json.
Qed.

(** The receipts of a room after a number, in order. *)
Definition receipts_after (R : receipts) (room : bytes) (since : Z) (l : list (bytes * Z * bytes * bytes)) : Prop :=
  StronglySorted (fun a b => a.1.1.2 < b.1.1.2) l ∧
  ∀ r c user text, (r, c, user, text) ∈ l ↔ r = room ∧ R !! (room, user) = Some (c, text) ∧ since < c.

Lemma receipts_since_spec R w room since : ReceiptInv R w → valid_utf8 room → 0 ≤ since < u64_max → ∃ l,
  readreceipts_since (db w) room since =
    Ok (omap (fun '(_, count, user, text) => event ← json_without ROOM_ID text; Some (user, count, event)) l) ∧
  receipts_after R room since l.
Proof.
  intros [Hrows Hok Hnu Hc] Hr Hs. unfold readreceipts_since, stream_from, stream_from_raw.
  change (serialize_to_vec ?v) with (serialize None v). rewrite serialize_tuple_bytes by auto with plain.
  cbn [expect_ok mbind result_bind]. rewrite omap_ignore_err, Z.min_l by lia.
  change (tuple_bytes _) with (from_key [VStr room] (since + 1)).
  set (Q := fun item : bytes * Z * bytes * bytes => item.1.1.1 = room).
  set (l := take_while _ _).
  assert (l = counted_stream receipt_item_of Q [VStr room] (since + 1) (db w) readreceiptid_readreceipt) as Hl by done.
  clearbody l. exists l. split; [done|]. assert (is_u64 (since + 1)) as Hlo by word.
  set (m := db w readreceiptid_readreceipt).
  assert (∀ k v b, m !! k = Some v → receipt_item_of (k, v) = Some b → ∃ room c user,
    b = (room, c, user, v) ∧ R !! (room, user) = Some (c, v) ∧
    row [TStr] [TStr] [VStr room] c [VStr user] k) as Hentry.
  { intros k v b Hk Hb. apply (rep_lookup _ _ _ _ Hrows) in Hk as ([r' u'] & [c text] & HR & -> & ->).
    destruct (Hok _ _ HR) as (Hr' & Hu' & Hc' & Ht). cbn [fst snd] in *. assert (is_u64 c) by word.
    unfold key_of, value_of in Hb. cbn [fst snd] in Hb. rewrite receipt_item_entry in Hb by done. injection Hb as <-.
    exists r', c, u'. split_and!; [done..|]. by apply receipt_row. }
  assert (∀ k v b, m !! k = Some v → receipt_item_of (k, v) = Some b →
    Q b ↔ ∃ n post, row [TStr] [TStr] [VStr room] n post k ∧ True) as HQ.
  { intros k v b Hk Hb. destruct (Hentry k v b Hk Hb) as (r' & c & u' & -> & _ & Hrow). subst Q. cbn [fst]. split.
    - intros ->. eauto.
    - intros (n & post & Hrow' & _).
      by destruct (row_inj [TStr] [TStr] ltac:(done) _ _ _ _ _ _ _ Hrow Hrow') as ([= ->] & _). }
  assert (Counted [TStr] [TStr] m) as Hco.
  { intros k v Hk. apply (rep_lookup _ _ _ _ Hrows) in Hk as ([r' u'] & [c text] & HR & -> & ->).
    destruct (Hok _ _ HR) as (Hr' & Hu' & Hc' & Ht). eexists _, _, _. apply receipt_row; [done..|cbn in *; word]. }
  assert (Forall2 field [TStr] [VStr room]) as Hof by by repeat constructor.
  split; rewrite Hl.
  - eapply (counted_stream_sorted [TStr] [TStr] ltac:(done) receipt_item_of Q _ Hof (since + 1) (fun _ => True) m Hco
      ltac:(done) HQ); [done|].
    intros k v b n post k' v' b' n' post' Hk Hk' Hrow Hrow' Hne Hle Hb Hb'.
    destruct (Hentry k v b Hk Hb) as (r1 & c & u1 & -> & HR & Hrow1).
    destruct (Hentry k' v' b' Hk' Hb') as (r2 & c' & u2 & -> & HR' & Hrow2).
    destruct (row_inj [TStr] [TStr] ltac:(done) _ _ _ _ _ _ _ Hrow1 Hrow) as ([= ->] & -> & _).
    destruct (row_inj [TStr] [TStr] ltac:(done) _ _ _ _ _ _ _ Hrow2 Hrow') as ([= ->] & -> & _).
    cbn [fst snd]. destruct (decide (n = n')) as [->|]; [|lia]. exfalso. apply Hne.
    pose proof (Hnu _ _ _ _ HR HR' eq_refl) as [= ->].
    rewrite (row_key _ _ _ _ _ _ Hrow1). by rewrite (row_key _ _ _ _ _ _ Hrow2).
  - intros r c user text.
    rewrite (counted_stream_elem [TStr] [TStr] ltac:(done) receipt_item_of Q _ Hof (since + 1) Hlo (fun _ => True) m Hco
      ltac:(done) HQ) by done. split.
    + intros (n & post & v & Hk & Hrow & Hb & Hle & _).
      destruct (Hentry _ v _ Hk Hb) as (r1 & c1 & u1 & [= -> -> -> ->] & HR & Hrow1).
      destruct (row_inj [TStr] [TStr] ltac:(done) _ _ _ _ _ _ _ Hrow1 Hrow) as ([= ->] & -> & _).
      split_and!; [done..|lia].
    + intros (-> & HR & Hlt). destruct (Hok _ _ HR) as (Hr' & Hu' & Hc' & Ht). cbn [fst snd] in *.
      assert (is_u64 c) by word. exists c, [VStr user], text. cbv zeta.
      change (tuple_bytes _) with (receipt_key room c user). split_and!; [|by apply receipt_row|by apply receipt_item_entry|lia|done].
      by apply (rep_Some _ _ _ _ (room, user) (c, text) Hrows).
Qed.
End Spec.

(** * Notification counts *)

Section Counts.
Context `{!Parsers}.

(** What a count's bytes stand for. *)
Definition count_value (o : option bytes) : Z :=
  match o with Some b => u64_from_bytes_or_zero b | None => 0 end.

(** The column holds counts. *)
Definition counts (m : gmap bytes bytes) : Prop := ∀ k v, m !! k = Some v → ∃ n, is_u64 n ∧ v = u64_to_be n.

Lemma u64_from_bytes_or_zero_be n : is_u64 n → u64_from_bytes_or_zero (u64_to_be n) = n.
Proof. intros. unfold u64_from_bytes_or_zero, u64_from_bytes. rewrite decide_True by done. by apply u64_round_trip. Qed.

Lemma count_value_be n : is_u64 n → count_value (Some (u64_to_be n)) = n.
Proof. apply u64_from_bytes_or_zero_be. Qed.

Lemma count_read d c user room : counts (d c) →
  default 0 (ok (deserialized_u64 (qry d c (pair_value user room)))) = count_value (d c !! pair_key user room).
Proof.
  intros Hc. unfold qry, bqry. rewrite serialize_pair. cbn [expect_ok mbind result_bind]. unfold get.
  destruct (d c !! _) as [v|] eqn:Hv; [|done]. destruct (Hc _ _ Hv) as (n & Hn & ->).
  cbn [ok_or_fail ok_or]. unfold deserialized_u64, deserialized. cbn [mbind result_bind].
  rewrite from_slice_u64 by done. by rewrite count_value_be.
Qed.

Lemma counts_insert m k n : counts m → is_u64 n → counts (<[k := u64_to_be n]> m).
Proof. intros Hm Hn k' v [[<- <-]|[_ Hv]]%lookup_insert_Some; eauto. Qed.

Lemma increment_value o : count_value (Some (increment o)) = as_u64 (count_value o + 1).
Proof. unfold increment. change (to_be 8 ?x) with (u64_to_be x). rewrite count_value_be by apply as_u64_is_u64. by destruct o. Qed.

Lemma as_u64_add n k : as_u64 (as_u64 n + k) = as_u64 (n + k).
Proof. unfold as_u64. by rewrite Zplus_mod_idemp_l. Qed.

(** A column after one increment per user of a list. *)
Lemma increments_spec (room : bytes) (c : column) (l : list bytes) (d : Db) : valid_utf8 room →
  Forall valid_utf8 l → counts (d c) →
  let d' := foldl (fun d user => increment_key d c (user ++ [255] ++ room)) d l in
  counts (d' c) ∧ (∀ c', c' ≠ c → d' c' = d c') ∧
  ∀ user room', valid_utf8 user → valid_utf8 room' →
    as_u64 (count_value (d' c !! pair_key user room')) =
    as_u64 (count_value (d c !! pair_key user room') +
              if decide (room' = room) then Z.of_nat (length (filter (fun u => u = user) l)) else 0).
Proof.
  intros Hroom Hl. revert d. induction Hl as [|u l Hu Hl IH]; intros d Hc; cbn [foldl].
  { split_and!; [done..|]. intros user room' _ _. simpl. f_equal. destruct (decide _); lia. }
  change (u ++ [255] ++ room) with (pair_key u room).
  assert (counts (increment_key d c (pair_key u room) c)) as Hc1.
  { unfold increment_key. rewrite insert_same. apply counts_insert; [done|apply as_u64_is_u64]. }
  destruct (IH _ Hc1) as (Hc2 & Ho & Hv). split; [done|]. split.
  { intros c' Hc'. rewrite Ho by done. unfold increment_key. by rewrite insert_other. }
  intros user room' Huser Hroom'. rewrite Hv by done. unfold increment_key. rewrite insert_same.
  rewrite filter_cons. destruct (decide (u = user ∧ room' = room)) as [[-> ->]|Hne].
  - rewrite lookup_insert_eq, increment_value, as_u64_add, !decide_True by done. f_equal. simpl length. lia.
  - rewrite lookup_insert_ne.
    + destruct (decide (room' = room)) as [->|]; [|done]. rewrite decide_False by naive_solver. done.
    + intros Heq. apply pair_key_inj in Heq as [-> ->]; naive_solver.
Qed.

Lemma count_value_u64 (m : gmap bytes bytes) k : counts m → is_u64 (count_value (m !! k)).
Proof.
  intros Hm. destruct (m !! k) as [v|] eqn:Hk; [|cbn; word].
  destruct (Hm _ _ Hk) as (n & Hn & ->). by rewrite count_value_be.
Qed.

Lemma increments_exact (room : bytes) (c : column) (l : list bytes) (d : Db) user room' :
  valid_utf8 room → Forall valid_utf8 l → counts (d c) → valid_utf8 user → valid_utf8 room' →
  let d' := foldl (fun d user => increment_key d c (user ++ [255] ++ room)) d l in
  count_value (d' c !! pair_key user room') =
    as_u64 (count_value (d c !! pair_key user room') +
              if decide (room' = room) then Z.of_nat (length (filter (fun u => u = user) l)) else 0).
Proof.
  intros Hr Hl Hc Hu Hr' d'. destruct (increments_spec room c l d Hr Hl Hc) as (Hc' & _ & Hv).
  rewrite <-Hv by done. symmetry. by apply as_u64_id, count_value_u64.
Qed.

(** The two columns hold counts. *)
Definition NotifyInv (d : Db) : Prop := counts (d userroomid_notificationcount) ∧ counts (d userroomid_highlightcount).

Lemma put_pair d c a b n : put d c (pair_value a b) (VU64 n) = Ok (insert d c (pair_key a b) (u64_to_be n)).
Proof. unfold put, bput, bput_raw. cbn [expect_ok mbind result_bind]. by rewrite serialize_pair. Qed.

Lemma reset_eq w user room : counter w < u64_max → is_u64 (counter w) →
  reset_notification_counts w user room = Ok {|
    db := insert (insert (insert (insert (db w) userroomid_highlightcount (pair_key user room) (u64_to_be 0))
                   userroomid_notificationcount (pair_key user room) (u64_to_be 0))
                   global COUNTER (u64_to_be (counter w + 1)))
                 roomuserid_lastnotificationread (pair_key room user) (u64_to_be (counter w + 1));
    counter := counter w + 1 |}.
Proof.
  intros Hlt Hc. unfold reset_notification_counts. rewrite !put_pair. cbn [mbind result_bind].
  rewrite put_pair. cbn [mbind result_bind]. unfold next_count, checked_u64. cbn [counter with_db].
  rewrite decide_True by word. cbn [default expect_ok mbind result_bind db]. rewrite put_pair. done.
Qed.

(** Counting what a user has not seen: an event adds to the notifications and highlights of
    each user, for its room only, as often as the user is listed, modulo 2^64; reading the room
    makes both counts of this user and room zero, changes no other count, and remembers the number
    of the reset. *)
Theorem notification_counts_correct (w : World) (room user room' : bytes) (notifies highlights : list bytes)
    (Hinv : NotifyInv (db w)) (Hr : valid_utf8 room) (Hu : valid_utf8 user) (Hr' : valid_utf8 room')
    (Hn : Forall valid_utf8 notifies) (Hh : Forall valid_utf8 highlights)
    (Hc : is_u64 (counter w)) (Hlt : counter w < u64_max) :
  let d := increment_notification_counts (db w) room notifies highlights in
  let times l := if decide (room' = room) then Z.of_nat (length (filter (fun u : bytes => u = user) l)) else 0 in
  NotifyInv d ∧
  notification_count d user room' = as_u64 (notification_count (db w) user room' + times notifies) ∧
  highlight_count d user room' = as_u64 (highlight_count (db w) user room' + times highlights) ∧
  ∃ w', reset_notification_counts w user room = Ok w' ∧ NotifyInv (db w') ∧ counter w' = counter w + 1 ∧
    notification_count (db w') user room = 0 ∧ highlight_count (db w') user room = 0 ∧
    last_notification_read (db w') user room = counter w' ∧
    ∀ user' room'', valid_utf8 user' → valid_utf8 room'' → (user', room'') ≠ (user, room) →
      notification_count (db w') user' room'' = notification_count (db w) user' room'' ∧
      highlight_count (db w') user' room'' = highlight_count (db w) user' room''.
Proof.
  intros d times. destruct Hinv as [Hcn Hch].
  destruct (increments_spec room userroomid_notificationcount notifies (db w) Hr Hn Hcn) as (Hcn1 & Ho1 & _).
  set (d1 := foldl _ _ _) in *. assert (counts (d1 userroomid_highlightcount)) as Hch1 by by rewrite Ho1.
  destruct (increments_spec room userroomid_highlightcount highlights d1 Hr Hh Hch1) as (Hch2 & Ho2 & _).
  assert (NotifyInv d) as Hd by (split; [rewrite Ho2|]; done).
  assert (∀ k, NotifyInv (insert (insert (insert (insert (db w) userroomid_highlightcount k (u64_to_be 0))
    userroomid_notificationcount k (u64_to_be 0)) global COUNTER (u64_to_be (counter w + 1)))
    roomuserid_lastnotificationread (pair_key room user) (u64_to_be (counter w + 1)))) as Hreset.
  { intros k. split; dbs; by apply counts_insert. }
  split; [done|]. destruct Hd as [Hd1 Hd2]. unfold notification_count, highlight_count. rewrite !count_read by done.
  split; [rewrite Ho2 by done; by apply increments_exact|]. split.
  { subst times. rewrite <-(Ho1 userroomid_highlightcount) by done. by apply increments_exact. }
  eexists. rewrite reset_eq by done. split; [done|]. split; [apply Hreset|]. split; [done|]. cbn [db counter].
  destruct (Hreset (pair_key user room)) as [Hw1 Hw2]. rewrite !count_read by done. dbs.
  rewrite !lookup_insert_eq, !count_value_be by done. split_and!; [done..| |].
  - unfold last_notification_read, qry, bqry. rewrite serialize_pair. cbn [expect_ok mbind result_bind]. unfold get.
    rewrite insert_same, lookup_insert_eq. cbn [ok_or_fail ok_or]. unfold deserialized_u64, deserialized.
    cbn [mbind result_bind]. rewrite from_slice_u64 by word. done.
  - intros user' room'' Hu' Hr'' Hne. rewrite !count_read by done. dbs. rewrite !lookup_insert_ne; [done|..];
      intros Heq; apply pair_key_inj in Heq as [-> ->]; done.
Qed.
End Counts.

Section Receipts.
Context `{!Parsers} `{!JsonObject}.

(** The public receipts of a room are numbered values, one per room and user: an update sets the
    user's under the next number and keeps every other, unless its room's identifier extends the
    room's and its user's ends with the user's: the keys to delete are matched without separators.
    Clients are sent, in order, exactly the receipts of the room set after the number they give. *)
Theorem read_receipts_correct (R : receipts) (w : World) (room user text : bytes) (since : Z)
    (Hinv : ReceiptInv R w) (Hlt : counter w < u64_max) (Hr : valid_utf8 room) (Hu : valid_utf8 user)
    (Ht : receipt_ok text) (Hs : 0 ≤ since < u64_max) :
  (∃ R' w', readreceipt_update w user room text = Ok w' ∧ counter w' = counter w + 1 ∧ ReceiptInv R' w' ∧
     R' !! (room, user) = Some (counter w', text) ∧
     (∀ room' user', (room', user') ≠ (room, user) →
        R' !! (room', user') =
          if decide (room `prefix_of` room' ∧ user `suffix_of` user') then None else R !! (room', user')) ∧
     ∀ c, c ≠ global → c ≠ readreceiptid_readreceipt → db w' c = db w c) ∧
  ∃ l, readreceipts_since (db w) room since =
         Ok (omap (fun '(_, count, user, text) => event ← json_without ROOM_ID text; Some (user, count, event)) l) ∧
       receipts_after R room since l.
Proof.
  split; [|by apply receipts_since_spec].
  destruct (update_spec R w room user text) as (w' & Heq & Hc & Hi & Hf); [done..|].
  exists (receipt_update R room user (counter w + 1) text), w'. rewrite Hc. split_and!; try done.
  - apply lookup_insert_eq.
  - intros room' user' Hne. unfold receipt_update. rewrite lookup_insert_ne by done.
    rewrite map_lookup_filter. destruct (R !! (room', user')) as [e|]; cbn; [|by destruct (decide _)].
    unfold stays. cbn [fst snd]. destruct (decide (room `prefix_of` room' ∧ user `suffix_of` user')) as [Hd|Hd].
    + by rewrite option_guard_False by tauto.
    + by rewrite option_guard_True by tauto.
Qed.
End Receipts.

Module ReceiptWitness.
#[local] Instance any_parsers : Parsers := {| json_ok _ := true; cbor_ok _ := true |}.
#[local] Instance any_object : JsonObject := fun _ text => Some text.

Definition w0 : World := {| db := empty_db; counter := 4 |}.
Definition room1 : bytes := [33; 97].
(** Another room, whose identifier extends the first one's. *)
Definition room2 : bytes := [33; 97; 98].
Definition alice : bytes := [64; 97].

Lemma receipts_inv0 : ReceiptInv ∅ w0.
Proof.
  split; [apply represents_empty..| | |cbn; word]; intros x; intros; exfalso;
    by eapply (lookup_empty_Some (A := Z * bytes) x).
Qed.

Lemma read_receipts_correct_witness : ∃ R' w',
  readreceipt_update w0 alice room1 [123; 125] = Ok w' ∧ ReceiptInv R' w' ∧ R' !! (room1, alice) = Some (5, [123; 125]).
Proof.
  destruct (read_receipts_correct ∅ w0 room1 alice [123; 125] 3 receipts_inv0 ltac:(by vm_compute) ltac:(done) ltac:(done)
    ltac:(done) ltac:(word)) as [(R' & w' & Heq & Hc & Hi & Hl & _) _].
  exists R', w'. split; [exact Heq|]. split; [exact Hi|]. rewrite Hc in Hl. exact Hl.
Defined.

(** A receipt in one room deletes the user's receipt in another whose identifier extends it. *)
Example receipts_of_extending_rooms_lost :
  (w ← readreceipt_update w0 alice room2 [123; 125]; readreceipts_since (db w) room2 0)
    = Ok [(alice, 5, [123; 125])] ∧
  (w ← readreceipt_update w0 alice room2 [123; 125]; w ← readreceipt_update w alice room1 [123; 125];
   readreceipts_since (db w) room2 0) = Ok [].
Proof. split; vm_compute; reflexivity. Qed.

Lemma notification_counts_correct_witness :
  notification_count (increment_notification_counts (db w0) room1 [alice; alice] []) alice room1 = 2.
Proof.
  destruct (notification_counts_correct w0 room1 alice room1 [alice; alice] []) as (_ & Hn & _);
    [split; intros k v Hk; exfalso; by apply (lookup_empty_Some (A := bytes) k v)|done|done|done
    |by repeat constructor|constructor|cbn; word|by vm_compute|].
  rewrite Hn. vm_compute. reflexivity.
Defined.
End ReceiptWitness.
