(* ===== verification/StateCache.v ===== *)
(** The tables of members: who joined, left, knocked on or was invited to which room, and the servers
    in a room.  Source: src/src/service/rooms/state_cache/mod.rs, update.rs and via.rs.

    Every table is kept both ways, by user and by room.  What other services decide is an argument:
    whether an invite is blocked, whether a left room is forgotten at once, the stripped state kept
    with an invite.  The account data copied to an upgraded room and the cache of rooms with
    application services are not modelled. *)

From stdpp Require Import prelude gmap sorting.
From Stdlib Require Import ZArith Lia.
From S2P Require Import Prelude Bytes DbSer Database PairKeys Short.
Local Open Scope Z_scope.

Section StateCache.
Context `{!Parsers}.

(** [serialize_key(..).expect(..)]. *)
Definition expect_key (a b : bytes) : comp db_error bytes := expect_ok (serialize None (pair_value a b)).

(** ** Changes *)

(** @src src/src/service/rooms/state_cache/update.rs:205-226 Service::mark_as_joined *)
Definition mark_as_joined (d : Db) (user_id room_id : bytes) : comp db_error Db :=
  userroom_id ← expect_key user_id room_id;
  roomuser_id ← expect_key room_id user_id;
  let d := insert d userroomid_joined userroom_id [] in
  let d := insert d roomuserid_joined roomuser_id [] in
  let d := remove d userroomid_invitestate userroom_id in
  let d := remove d roomuserid_invitecount roomuser_id in
  let d := remove d userroomid_invitesender userroom_id in
  let d := remove d userroomid_leftstate userroom_id in
  let d := remove d roomuserid_leftcount roomuser_id in
  let d := remove d userroomid_knockedstate userroom_id in
  let d := remove d roomuserid_knockedcount roomuser_id in
  Ok (remove d roomid_inviteviaservers room_id).

(** @src src/src/service/rooms/state_cache/update.rs:306-312 Service::forget *)
Definition forget (d : Db) (room_id user_id : bytes) : comp db_error Db :=
  d ← del d userroomid_leftstate (pair_value user_id room_id);
  del d roomuserid_leftcount (pair_value room_id user_id).

(** [forget_now]: the user is local, and the room is banned or disabled or rooms are forgotten on
    leaving.
    @src src/src/service/rooms/state_cache/update.rs:235-268 Service::mark_as_left *)
Definition mark_as_left (w : World) (user_id room_id leave_pdu : bytes) (forget_now : bool) :
    comp db_error World :=
  userroom_id ← expect_key user_id room_id;
  roomuser_id ← expect_key room_id user_id;
  d ← raw_put (db w) userroomid_leftstate userroom_id (VJson leave_pdu);
  '(count, w) ← expect_ok (next_count (with_db w d));
  d ← raw_aput 8 (db w) roomuserid_leftcount roomuser_id (VU64 count);
  let d := remove d userroomid_joined userroom_id in
  let d := remove d roomuserid_joined roomuser_id in
  let d := remove d userroomid_invitestate userroom_id in
  let d := remove d roomuserid_invitecount roomuser_id in
  let d := remove d userroomid_invitesender userroom_id in
  let d := remove d userroomid_knockedstate userroom_id in
  let d := remove d roomuserid_knockedcount roomuser_id in
  let d := remove d roomid_inviteviaservers room_id in
  d ← if forget_now then forget d room_id user_id else Ok d;
  Ok (with_db w d).

(** @src src/src/service/rooms/state_cache/update.rs:273-303 Service::mark_as_knocked *)
Definition mark_as_knocked (w : World) (user_id room_id knocked_state : bytes) : comp db_error World :=
  userroom_id ← expect_key user_id room_id;
  roomuser_id ← expect_key room_id user_id;
  d ← raw_put (db w) userroomid_knockedstate userroom_id (VJson knocked_state);
  '(count, w) ← expect_ok (next_count (with_db w d));
  d ← raw_aput 8 (db w) roomuserid_knockedcount roomuser_id (VU64 count);
  let d := remove d userroomid_joined userroom_id in
  let d := remove d roomuserid_joined roomuser_id in
  let d := remove d userroomid_invitestate userroom_id in
  let d := remove d roomuserid_invitecount roomuser_id in
  let d := remove d userroomid_invitesender userroom_id in
  let d := remove d userroomid_leftstate userroom_id in
  let d := remove d roomuserid_leftcount roomuser_id in
  Ok (with_db w (remove d roomid_inviteviaservers room_id)).

(** @src src/src/service/rooms/state_cache/update.rs:315-318 Service::mark_as_once_joined *)
Definition mark_as_once_joined (d : Db) (user_id room_id : bytes) : comp db_error Db :=
  put_raw d roomuseroncejoinedids (pair_value user_id room_id) [].

(** ** The servers of an invite *)

(** The value of an entry, a list of server names. *)
Definition servers_of (kv : bytes * bytes) : comp db_error (list bytes) :=
  v ← from_slice (TSeq TStr) kv.2;
  match v with
  | VSeq vs => Ok (omap (fun v => match v with VStr s => Some s | _ => None end) vs)
  | _ => Err (Fail SerdeDe)
  end.

(** An entry without a server panics.
    @src src/src/service/rooms/state_cache/via.rs:76-87 Service::servers_invite_via *)
Definition servers_invite_via (d : Db) (room_id : bytes) : comp db_error (list bytes) :=
  mapR (fun servers => expect (last servers))
    (ignore_err (map servers_of (raw_stream_prefix d roomid_inviteviaservers room_id))).

(** [join(&[0xFF])]. *)
Definition join_sep (l : list bytes) : bytes :=
  match l with [] => [] | x :: l => x ++ concat (map (cons 255) l) end.

(** @src src/src/service/rooms/state_cache/via.rs:16-35 Service::add_servers_invite_via *)
Definition add_servers_invite_via (d : Db) (room_id : bytes) (servers : list bytes) : comp db_error Db :=
  old ← servers_invite_via d room_id;
  let servers := dedup (sort (old ++ servers)) in
  Ok (insert d roomid_inviteviaservers room_id (join_sep servers)).

(** [Err] and an unchanged world when the user blocks the sender's invites.
    @src src/src/service/rooms/state_cache/update.rs:322-375 Service::mark_as_invited *)
Definition mark_as_invited (w : World) (user_id room_id sender_user last_state : bytes)
    (invite_via : option (list bytes)) (blocked : bool) : comp db_error World :=
  if blocked then Err (Fail InviteBlocked) else
  roomuser_id ← expect_key room_id user_id;
  userroom_id ← expect_key user_id room_id;
  d ← raw_put (db w) userroomid_invitestate userroom_id (VJson last_state);
  '(count, w) ← expect_ok (next_count (with_db w d));
  d ← raw_aput 8 (db w) roomuserid_invitecount roomuser_id (VU64 count);
  let d := insert d userroomid_invitesender userroom_id sender_user in
  let d := remove d userroomid_joined userroom_id in
  let d := remove d roomuserid_joined roomuser_id in
  let d := remove d userroomid_leftstate userroom_id in
  let d := remove d roomuserid_leftcount roomuser_id in
  let d := remove d userroomid_knockedstate userroom_id in
  let d := remove d roomuserid_knockedcount roomuser_id in
  d ← match invite_via with
      | Some (s :: servers) => add_servers_invite_via d room_id (s :: servers)
      | _ => Ok d
      end;
  Ok (with_db w d).

(** ** Queries *)

Definition found (r : comp db_error bytes) : bool := is_ok r.

(** @src src/src/service/rooms/state_cache/mod.rs:467-470 Service::once_joined *)
Definition once_joined (d : Db) (user_id room_id : bytes) : bool :=
  found (qry d roomuseroncejoinedids (pair_value user_id room_id)).
(** @src src/src/service/rooms/state_cache/mod.rs:473-476 Service::is_joined *)
Definition is_joined (d : Db) (user_id room_id : bytes) : bool :=
  found (qry d userroomid_joined (pair_value user_id room_id)).
(** @src src/src/service/rooms/state_cache/mod.rs:479-482 Service::is_knocked *)
Definition is_knocked (d : Db) (user_id room_id : bytes) : bool :=
  found (qry d userroomid_knockedstate (pair_value user_id room_id)).
(** @src src/src/service/rooms/state_cache/mod.rs:485-488 Service::is_invited *)
Definition is_invited (d : Db) (user_id room_id : bytes) : bool :=
  found (qry d userroomid_invitestate (pair_value user_id room_id)).
(** @src src/src/service/rooms/state_cache/mod.rs:491-494 Service::is_left *)
Definition is_left (d : Db) (user_id room_id : bytes) : bool :=
  found (qry d userroomid_leftstate (pair_value user_id room_id)).

Inductive MembershipState : Set := Ban | Invite | Join | Knock | Leave.

(** @src src/src/service/rooms/state_cache/mod.rs:442-464 Service::user_membership *)
Definition user_membership (d : Db) (user_id room_id : bytes) : option MembershipState :=
  if is_joined d user_id room_id then Some Join
  else if is_left d user_id room_id then Some Leave
  else if is_knocked d user_id room_id then Some Knock
  else if is_invited d user_id room_id then Some Invite
  else if once_joined d user_id room_id then Some Ban
  else None.

(** @src src/src/service/rooms/state_cache/mod.rs:216-226 Service::room_members *)
Definition room_members (d : Db) (room_id : bytes) : comp db_error (list bytes) :=
  keys_second d roomuserid_joined room_id.
(** @src src/src/service/rooms/state_cache/mod.rs:283-293 Service::room_members_invited *)
Definition room_members_invited (d : Db) (room_id : bytes) : comp db_error (list bytes) :=
  keys_second d roomuserid_invitecount room_id.
(** @src src/src/service/rooms/state_cache/mod.rs:296-306 Service::room_members_knocked *)
Definition room_members_knocked (d : Db) (room_id : bytes) : comp db_error (list bytes) :=
  keys_second d roomuserid_knockedcount room_id.
(** @src src/src/service/rooms/state_cache/mod.rs:270-280 Service::room_useroncejoined *)
Definition room_useroncejoined (d : Db) (room_id : bytes) : comp db_error (list bytes) :=
  keys_second d roomuseroncejoinedids room_id.
(** @src src/src/service/rooms/state_cache/mod.rs:151-161 Service::room_servers *)
Definition room_servers (d : Db) (room_id : bytes) : comp db_error (list bytes) :=
  keys_second d roomserverids room_id.
(** @src src/src/service/rooms/state_cache/mod.rs:175-185 Service::server_rooms *)
Definition server_rooms (d : Db) (server : bytes) : comp db_error (list bytes) :=
  keys_second d serverroomids server.
(** @src src/src/service/rooms/state_cache/mod.rs:164-171 Service::server_in_room *)
Definition server_in_room (d : Db) (server room_id : bytes) : bool :=
  found (qry d serverroomids (pair_value server room_id)).

(** The prefix scanned for has no separator after the user.
    @src src/src/service/rooms/state_cache/mod.rs:335-344 Service::rooms_joined *)
Definition rooms_joined (d : Db) (user_id : bytes) : list bytes :=
  ignore_err (map (fun key => second (from_slice (TTuple [TIgnore; TStr]) key))
    (raw_keys_prefix d userroomid_joined user_id)).

(** @src src/src/service/rooms/state_cache/mod.rs:309-316 Service::get_invite_count *)
Definition get_invite_count (d : Db) (room_id user_id : bytes) : comp db_error Z :=
  deserialized_u64 (qry d roomuserid_invitecount (pair_value room_id user_id)).
(** @src src/src/service/rooms/state_cache/mod.rs:319-326 Service::get_knock_count *)
Definition get_knock_count (d : Db) (room_id user_id : bytes) : comp db_error Z :=
  deserialized_u64 (qry d roomuserid_knockedcount (pair_value room_id user_id)).
(** @src src/src/service/rooms/state_cache/mod.rs:329-332 Service::get_left_count *)
Definition get_left_count (d : Db) (room_id user_id : bytes) : comp db_error Z :=
  deserialized_u64 (qry d roomuserid_leftcount (pair_value room_id user_id)).
(** @src src/src/service/rooms/state_cache/mod.rs:229-231 Service::room_joined_count *)
Definition room_joined_count (d : Db) (room_id : bytes) : comp db_error Z :=
  deserialized_u64 (get d roomid_joinedcount room_id).
(** @src src/src/service/rooms/state_cache/mod.rs:260-266 Service::room_invited_count *)
Definition room_invited_count (d : Db) (room_id : bytes) : comp db_error Z :=
  deserialized_u64 (get d roomid_invitedcount room_id).
(** @src src/src/service/rooms/state_cache/mod.rs:497-504 Service::invite_sender *)
Definition invite_sender (d : Db) (user_id room_id : bytes) : comp db_error bytes :=
  deserialized_str (qry d userroomid_invitesender (pair_value user_id room_id)).

(** ** Servers in a room *)

(** ruma's [UserId::server_name]. *)
Context (server_name : bytes → bytes).

(** @src src/src/service/rooms/state_cache/mod.rs:188-192 Service::server_sees_user *)
Definition server_sees_user (d : Db) (server user_id : bytes) : comp db_error bool :=
  rooms ← server_rooms d server; Ok (existsb (is_joined d user_id) rooms).

(** One old server of the room: [joined_servers] without it, or its two keys gone. *)
Definition retire_server (room_id : bytes) (state : comp db_error (gset bytes * Db)) (server : bytes) :
    comp db_error (gset bytes * Db) :=
  '(joined_servers, d) ← state;
  if decide (server ∈ joined_servers) then Ok (joined_servers ∖ {[server]}, d)
  else
    d ← del d roomserverids (pair_value room_id server);
    d ← del d serverroomids (pair_value server room_id);
    Ok (joined_servers, d).

(** A server that is new to the room. *)
Definition add_server (room_id : bytes) (d : comp db_error Db) (server : bytes) : comp db_error Db :=
  d ← d;
  d ← put_raw d roomserverids (pair_value room_id server) [];
  put_raw d serverroomids (pair_value server room_id) [].

(** The counts are those of the scans; the new servers are visited in some order of the hash set.
    @src src/src/service/rooms/state_cache/update.rs:140-200 Service::update_joined_count *)
Definition update_joined_count `{!HashIter bytes} (d : Db) (room_id : bytes) : comp db_error Db :=
  joined ← room_members d room_id;
  let joined_servers : gset bytes := list_to_set (map server_name joined) in
  invited ← room_members_invited d room_id;
  knocked ← room_members_knocked d room_id;
  d ← raw_put d roomid_joinedcount room_id (VU64 (saturating_u64 (Z.of_nat (length joined))));
  d ← raw_put d roomid_invitedcount room_id (VU64 (saturating_u64 (Z.of_nat (length invited))));
  d ← raw_put d roomuserid_knockedcount room_id (VU64 (saturating_u64 (Z.of_nat (length knocked))));
  old ← room_servers d room_id;
  '(joined_servers, d) ← foldl (retire_server room_id) (Ok (joined_servers, d)) old;
  foldl (add_server room_id) (Ok d) (iter_set joined_servers).

(** The membership of an event applied: the first join of a user is remembered for ever.
    @src src/src/service/rooms/state_cache/update.rs:24-137 Service::update_membership *)
Definition update_membership `{!HashIter bytes} (w : World) (room_id user_id sender : bytes)
    (membership : MembershipState) (pdu invite_state : bytes) (blocked forget_now : bool)
    (update_count : bool) : comp db_error World :=
  w ← match membership with
      | Join =>
          d ← if once_joined (db w) user_id room_id then Ok (db w)
              else mark_as_once_joined (db w) user_id room_id;
          d ← mark_as_joined d user_id room_id;
          Ok (with_db w d)
      | Invite => mark_as_invited w user_id room_id sender invite_state None blocked
      | Leave | Ban => mark_as_left w user_id room_id pdu forget_now
      | Knock => Ok w
      end;
  if update_count then d ← update_joined_count (db w) room_id; Ok (with_db w d) else Ok w.
End StateCache.
