(* ===== verification/StateCacheSpec.v ===== *)
(** What the tables of members promise: a user is in one relation at most to a room, whichever
    changes were made, and every query by user or by room agrees with it. *)

From stdpp Require Import prelude gmap sorting.
From Stdlib Require Import ZArith Lia.
From S2P Require Import Prelude Bytes DbSer Database PairKeys Short StateCache.
Local Open Scope Z_scope.

(** * The abstract state *)

Inductive Member : Set := MJoined | MInvited | MKnocked | MLeft.
#[export] Instance Member_eq_dec : EqDecision Member.
Proof. solve_decision. Defined.

(** The members of all rooms, by user and room. *)
Abbreviation members := (gmap (bytes * bytes) Member).

(** The columns that say so, and whether the user is first in their keys. *)
Definition rows (m : Member) : list (column * bool) :=
  match m with
  | MJoined => [(userroomid_joined, true); (roomuserid_joined, false)]
  | MInvited => [(userroomid_invitestate, true); (roomuserid_invitecount, false);
                 (userroomid_invitesender, true)]
  | MKnocked => [(userroomid_knockedstate, true); (roomuserid_knockedcount, false)]
  | MLeft => [(userroomid_leftstate, true); (roomuserid_leftcount, false)]
  end.

Definition row_key (by_user : bool) (user room : bytes) : bytes :=
  if by_user then pair_key user room else pair_key room user.

(** The tables hold the relation, in all its columns and in no other's. *)
Record Represents (M : members) (d : Db) : Prop := {
  rep_row user room m c b : valid_utf8 user → valid_utf8 room → (c, b) ∈ rows m →
    (is_Some (d c !! row_key b user room) ↔ M !! (user, room) = Some m);
  rep_key m c b x y : (c, b) ∈ rows m → valid_utf8 x → is_Some (d c !! pair_key x y) → valid_utf8 y;
}.

Lemma row_key_inj b u r u' r' : valid_utf8 u → valid_utf8 r → valid_utf8 u' → valid_utf8 r' →
  row_key b u r = row_key b u' r' → u = u' ∧ r = r'.
Proof. destruct b; simpl; intros ???? Heq; apply pair_key_inj in Heq; naive_solver. Qed.

Lemma rows_column m m' c b b' : (c, b) ∈ rows m → (c, b') ∈ rows m' → m = m' ∧ b = b'.
Proof.
  destruct m, m'; simpl; rewrite !elem_of_cons, !elem_of_nil; intros Hm Hm'; naive_solver.
Qed.

(** Setting the relation of one user to one room. *)
Lemma represents_set M d d' user room (o : option Member) : Represents M d → valid_utf8 user →
  valid_utf8 room →
  (∀ m c b, (c, b) ∈ rows m →
    (is_Some (d' c !! row_key b user room) ↔ o = Some m) ∧
    ∀ k, k ≠ row_key b user room → is_Some (d' c !! k) ↔ is_Some (d c !! k)) →
  Represents (partial_alter (fun _ => o) (user, room) M) d'.
Proof.
  intros HM Hu Hr Hd. split.
  - intros u r m c b Hu' Hr' Hin. destruct (Hd m c b Hin) as [Hk Ho].
    destruct (decide ((u, r) = (user, room))) as [[= -> ->]|Hne].
    + by rewrite Hk, lookup_partial_alter_eq.
    + rewrite lookup_partial_alter_ne by done. rewrite Ho; [by apply (rep_row M d HM)|].
      intros [-> ->]%row_key_inj; done.
  - intros m c b x y Hin Hx Hs. destruct (Hd m c b Hin) as [Hk Ho].
    destruct (decide (pair_key x y = row_key b user room)) as [Heq|Hne].
    + destruct b; simpl in Heq; by apply pair_first_utf8 in Heq as [-> ->].
    + apply Ho in Hs; [|done]. by apply (rep_key M d HM m c b x).
Qed.

(** * Queries *)

Section Queries.
Context `{!Parsers}.

Lemma qry_pair d c a b : qry d c (pair_value a b) = get d c (pair_key a b).
Proof. unfold qry, bqry. by rewrite serialize_pair. Qed.

Lemma found_pair d c a b : found (qry d c (pair_value a b)) = bool_decide (is_Some (d c !! pair_key a b)).
Proof. rewrite qry_pair. unfold get. by destruct (d c !! pair_key a b). Qed.

Lemma row_decide M d user room m c : Represents M d → valid_utf8 user → valid_utf8 room →
  (c, true) ∈ rows m →
  found (qry d c (pair_value user room)) = bool_decide (M !! (user, room) = Some m).
Proof.
  intros HM Hu Hr Hin. rewrite found_pair. apply bool_decide_ext.
  by rewrite <-(rep_row M d HM user room m c true).
Qed.

Lemma queries_spec M d user room : Represents M d → valid_utf8 user → valid_utf8 room →
  is_joined d user room = bool_decide (M !! (user, room) = Some MJoined) ∧
  is_invited d user room = bool_decide (M !! (user, room) = Some MInvited) ∧
  is_knocked d user room = bool_decide (M !! (user, room) = Some MKnocked) ∧
  is_left d user room = bool_decide (M !! (user, room) = Some MLeft).
Proof.
  intros HM Hu Hr. unfold is_joined, is_invited, is_knocked, is_left.
  rewrite (row_decide M d user room MJoined), (row_decide M d user room MInvited),
    (row_decide M d user room MKnocked), (row_decide M d user room MLeft); try done; by left.
Qed.

(** A scan of a room lists the users in the relation. *)
Lemma scan_spec M d room m c : Represents M d → valid_utf8 room → (c, false) ∈ rows m → ∃ l,
  keys_second d c room = Ok l ∧ NoDup l ∧
  ∀ user, user ∈ l ↔ valid_utf8 user ∧ M !! (user, room) = Some m.
Proof.
  intros HM Hr Hin. destruct (keys_second_spec d c room) as (l & Hl & Hnd & Hk); [done| |].
  { intros b Hb. by apply (rep_key M d HM m c false room). }
  exists l. split_and!; [done..|]. intros user. rewrite Hk. split.
  - intros Hs. assert (valid_utf8 user) by by apply (rep_key M d HM m c false room).
    split; [done|]. by apply (rep_row M d HM user room m c false).
  - intros [Hu HMu]. by apply (rep_row M d HM user room m c false).
Qed.
End Queries.

(** * Changes *)

Section Changes.
Context `{!Parsers}.

Lemma next_count_total w : ∃ n, next_count w =
  Ok (n, {| db := insert (db w) global COUNTER (u64_to_be n); counter := n |}).
Proof. unfold next_count. by eexists. Qed.

Lemma raw_put_json_bytes d c key json : raw_put d c key (VJson json) = Ok (insert d c key json).
Proof. done. Qed.

Lemma expect_key_spec a b : expect_key a b = Ok (pair_key a b).
Proof. unfold expect_key. by rewrite serialize_pair. Qed.

Lemma del_pair d c a b : del d c (pair_value a b) = Ok (remove d c (pair_key a b)).
Proof. unfold del, bdel. by rewrite serialize_pair. Qed.

Lemma put_raw_pair d c a b v : put_raw d c (pair_value a b) v = Ok (insert d c (pair_key a b) v).
Proof. unfold put_raw, bput_raw. by rewrite serialize_pair. Qed.

(** An entry inserted or removed under a key, in one column. *)
Definition row_set (present : bool) (key : bytes) (old new : gmap bytes bytes) : Prop :=
  (is_Some (new !! key) ↔ present) ∧ ∀ k, k ≠ key → is_Some (new !! k) ↔ is_Some (old !! k).

Lemma row_insert key v old : row_set true key old (<[key := v]> old).
Proof.
  split; [by rewrite lookup_insert_eq|]. intros k Hk. by rewrite lookup_insert_ne.
Qed.

Lemma row_delete key old : row_set false key old (delete key old).
Proof.
  split; [rewrite lookup_delete_eq; split; [by intros []|done]|]. intros k Hk. by rewrite lookup_delete_ne.
Qed.

Lemma row_delete_insert key v old : row_set false key old (delete key (<[key := v]> old)).
Proof. rewrite delete_insert_eq. apply row_delete. Qed.

(** Every column of the tables set at once. *)
Definition all_rows (o : option Member) (user room : bytes) (d d' : Db) : Prop :=
  ∀ m c b, (c, b) ∈ rows m → row_set (bool_decide (o = Some m)) (row_key b user room) (d c) (d' c).

Lemma all_rows_represents M d d' user room o : Represents M d → valid_utf8 user → valid_utf8 room →
  all_rows o user room d d' → Represents (partial_alter (fun _ => o) (user, room) M) d'.
Proof.
  intros HM Hu Hr Hd. apply (represents_set M d); [done..|]. intros m c b Hin.
  destruct (Hd m c b Hin) as [Hk Ho]. by rewrite Hk, bool_decide_spec.
Qed.

(** Goes through the columns of a change. *)
Ltac each_row :=
  intros m c b Hin; destruct m; simpl in Hin;
  rewrite ?elem_of_cons, elem_of_nil in Hin; repeat destruct Hin as [Hin|Hin]; try done;
  injection Hin as -> ->; simpl; dbs; first [apply row_insert|apply row_delete|apply row_delete_insert].

(** The columns a change may write besides those of the relation. *)
Definition member_column (c : column) : bool :=
  match c with
  | roomid_inviteviaservers
  | roomuserid_invitecount | roomuserid_joined | roomuserid_leftcount | roomuserid_knockedcount
  | userroomid_invitestate | userroomid_joined | userroomid_leftstate | userroomid_knockedstate
  | userroomid_invitesender | global => true
  | _ => false
  end.

Definition keeps_others (d d' : Db) : Prop := ∀ c, ¬ member_column c → d' c = d c.

Ltac others := intros c Hc; destruct c; simpl in Hc; try done; simpl; by dbs.

Lemma mark_as_joined_spec d user room : ∃ d', mark_as_joined d user room = Ok d' ∧
  all_rows (Some MJoined) user room d d' ∧ keeps_others d d' ∧
  d' roomid_inviteviaservers = delete room (d roomid_inviteviaservers).
Proof.
  unfold mark_as_joined. rewrite !expect_key_spec. cbn [mbind result_bind]. eexists. split; [done|].
  split; [each_row|]. split; [others|by dbs].
Qed.

(** Runs the writes of a change that draws a number. *)
Ltac run_change :=
  rewrite ?expect_key_spec; cbn [mbind result_bind]; rewrite ?raw_put_json_bytes; cbn [mbind result_bind];
  match goal with |- context [next_count ?w] => destruct (next_count_total w) as [n ->] end;
  cbn [expect_ok mbind result_bind]; rewrite raw_aput_u64; cbn [mbind result_bind db with_db].

Lemma mark_as_knocked_spec w user room state : ∃ w', mark_as_knocked w user room state = Ok w' ∧
  all_rows (Some MKnocked) user room (db w) (db w') ∧ keeps_others (db w) (db w') ∧
  db w' roomid_inviteviaservers = delete room (db w roomid_inviteviaservers).
Proof.
  unfold mark_as_knocked. run_change. eexists. split; [done|]. cbn [db with_db].
  split; [each_row|]. split; [others|by dbs].
Qed.

Lemma forget_spec d room user : ∃ d', forget d room user = Ok d' ∧ keeps_others d d' ∧
  (∀ c, d' c = match c with
               | userroomid_leftstate => delete (pair_key user room) (d c)
               | roomuserid_leftcount => delete (pair_key room user) (d c)
               | _ => d c
               end).
Proof.
  unfold forget. rewrite del_pair. cbn [mbind result_bind]. rewrite del_pair. eexists. split; [done|].
  split; [others|]. intros []; by dbs.
Qed.

Lemma mark_as_left_spec w user room pdu forget_now : ∃ w', mark_as_left w user room pdu forget_now = Ok w' ∧
  all_rows (if forget_now then None else Some MLeft) user room (db w) (db w') ∧
  keeps_others (db w) (db w') ∧
  db w' roomid_inviteviaservers = delete room (db w roomid_inviteviaservers).
Proof.
  unfold mark_as_left. run_change. destruct forget_now.
  - unfold forget. rewrite del_pair. cbn [mbind result_bind]. rewrite del_pair. cbn [mbind result_bind].
    eexists. split; [done|]. cbn [db with_db]. split; [|split; [others|by dbs]]. each_row.
  - cbn [mbind result_bind]. eexists. split; [done|]. cbn [db with_db].
    split; [each_row|]. split; [others|by dbs].
Qed.

(** ** Invites *)

(** The lists of servers stored are not empty. *)
Definition Vias (d : Db) : Prop := ∀ k v, d roomid_inviteviaservers !! k = Some v → v ≠ [].

Lemma seq_head v vs : v ≠ [] → from_slice (TSeq TStr) v = Ok (VSeq vs) → ∃ s vs', vs = VStr s :: vs'.
Proof.
  intros Hv. unfold from_slice.
  change (deserialize_value (TSeq TStr) ?de) with
    ('(vs, d) ← deserialize_seq (length (buf de) + 2) deserialize_str (sequence_start de); Ok (VSeq vs, d)).
  cbn [buf]. rewrite Nat.add_comm. cbn [Nat.add deserialize_seq]. set (d := sequence_start _).
  destruct (next_first deserialize_str d) as [-> _]; [done..|].
  destruct (deserialize_str (de_record_start d)) as [[x d']|] eqn:Hs; [|done]. cbn [mbind result_bind].
  assert (∃ s, x = VStr s) as [s ->].
  { unfold deserialize_str in Hs. destruct (record_next _) as [[input d1]|]; [|done]. simpl in Hs.
    destruct (valid_utf8 input); [|done]. injection Hs as <- _. by eexists. }
  destruct (next_element_seed deserialize_str d') as [[[v1|] d1]|]; [| |done]; cbn [mbind result_bind].
  - destruct (deserialize_seq (length v) deserialize_str d1) as [[vs1 d2]|]; [|done]. cbn. intros [= <-]. eauto.
  - cbn. intros [= <-]. eauto.
Qed.

Lemma servers_of_head kv l : kv.2 ≠ [] → servers_of kv = Ok l → l ≠ [].
Proof.
  intros Hv. unfold servers_of. destruct (from_slice (TSeq TStr) kv.2) as [x|] eqn:Hf; [|done].
  cbn [mbind result_bind]. destruct x; try done. intros [= <-].
  apply seq_head in Hf as (s & vs' & ->); [|done]. done.
Qed.

Lemma take_while_elem {A} (Q : A → Prop) `{!∀ x, Decision (Q x)} l x : x ∈ take_while Q l → x ∈ l.
Proof. induction l as [|y l IH]; simpl; [done|]. case_decide; set_solver. Qed.

Lemma servers_invite_via_ok d room : Vias d → ∃ l, servers_invite_via d room = Ok l.
Proof.
  intros Hd. unfold servers_invite_via.
  assert (∀ kv, kv ∈ raw_stream_prefix d roomid_inviteviaservers room → kv.2 ≠ []) as Hall.
  { intros [k v] Hin%take_while_elem. apply list_elem_of_filter in Hin as [_ Hin].
    apply entries_elem in Hin. by apply (Hd k v). }
  induction (raw_stream_prefix d roomid_inviteviaservers room) as [|kv l IH]; [by exists []|].
  destruct IH as [r Hr]; [set_solver|]. unfold ignore_err in *. cbn [map omap list_omap].
  destruct (servers_of kv) as [servers|e] eqn:Hs; cbn [ok]; [|by exists r].
  apply servers_of_head in Hs; [|set_solver]. cbn [mapR mbind result_bind].
  destruct (last servers) as [s|] eqn:Hl; [|by apply last_None in Hl]. cbn [expect ok_or mbind result_bind].
  rewrite Hr. by eexists.
Qed.

Lemma join_sep_nonempty l s : s ∈ l → s ≠ [] → join_sep l ≠ [].
Proof.
  destruct l as [|x l]; simpl; [by intros ?%elem_of_nil|].
  destruct x as [|a x]; [|done]. destruct l as [|y l]; simpl; [|done]. set_solver.
Qed.

Lemma add_servers_spec d room servers s : Vias d → s ∈ servers → s ≠ [] → ∃ v,
  add_servers_invite_via d room servers = Ok (insert d roomid_inviteviaservers room v) ∧ v ≠ [].
Proof.
  intros Hd Hin Hs. unfold add_servers_invite_via. destruct (servers_invite_via_ok d room Hd) as [old ->].
  cbn [mbind result_bind]. eexists. split; [done|]. apply (join_sep_nonempty _ s); [|done].
  rewrite dedup_elem, elem_of_sort. set_solver.
Qed.

Lemma mark_as_invited_spec w user room sender state via : Vias (db w) →
  (∀ servers, via = Some servers → ∀ s, s ∈ servers → s ≠ []) → ∃ w',
  mark_as_invited w user room sender state via false = Ok w' ∧
  all_rows (Some MInvited) user room (db w) (db w') ∧ keeps_others (db w) (db w') ∧ Vias (db w').
Proof.
  intros Hv Hvia. unfold mark_as_invited. run_change. set (d := remove _ _ _).
  assert (all_rows (Some MInvited) user room (db w) d) as Hrows by each_row.
  assert (keeps_others (db w) d) as Ho by others.
  assert (d roomid_inviteviaservers = db w roomid_inviteviaservers) as Hd by (subst d; by dbs).
  destruct via as [[|s servers]|]; cbn [mbind result_bind].
  1,3: eexists; split; [done|]; cbn [db with_db]; split; [done|]; split; [done|]; unfold Vias; by rewrite Hd.
  destruct (add_servers_spec d room (s :: servers) s) as (v & -> & Hne);
    [unfold Vias; by rewrite Hd|set_solver|eapply Hvia; [done|set_solver]|].
  cbn [mbind result_bind]. eexists. split; [done|]. cbn [db with_db]. split_and!.
  - intros m c b Hin. rewrite insert_other; [by apply Hrows|]. destruct m; simpl in Hin; set_solver.
  - intros c Hc. rewrite insert_other; [by apply Ho|]. by intros ->.
  - intros k v'. rewrite insert_same, Hd. intros [[_ <-]|[_ Hk]]%lookup_insert_Some; [done|by eapply Hv].
Qed.
End Changes.

(** * Sequences of changes *)

(** A change made to the tables, with what other services decided. *)
Inductive change :=
| CJoin (user room : bytes)
| CLeave (user room pdu : bytes) (forget_now : bool)
| CKnock (user room state : bytes)
| CInvite (user room sender state : bytes) (via : option (list bytes)) (blocked : bool)
| CForget (user room : bytes).

Definition change_ids (c : change) : bytes * bytes :=
  match c with
  | CJoin u r | CLeave u r _ _ | CKnock u r _ | CInvite u r _ _ _ _ | CForget u r => (u, r)
  end.

(** Identifiers are strings, and servers have names. *)
Definition valid_change (c : change) : Prop :=
  valid_utf8 (change_ids c).1 ∧ valid_utf8 (change_ids c).2 ∧
  match c with
  | CInvite _ _ _ _ (Some servers) _ => ∀ s, s ∈ servers → s ≠ []
  | _ => True
  end.

(** The relation a change sets. *)
Definition abstract_change (M : members) (c : change) : members :=
  match c with
  | CJoin u r => <[(u, r) := MJoined]> M
  | CLeave u r _ forget_now => if forget_now then delete (u, r) M else <[(u, r) := MLeft]> M
  | CKnock u r _ => <[(u, r) := MKnocked]> M
  | CInvite u r _ _ _ blocked => if blocked then M else <[(u, r) := MInvited]> M
  | CForget u r => if decide (M !! (u, r) = Some MLeft) then delete (u, r) M else M
  end.

Section Sequences.
Context `{!Parsers}.

Definition apply_change (w : World) (c : change) : comp db_error World :=
  match c with
  | CJoin u r => d ← mark_as_joined (db w) u r; Ok (with_db w d)
  | CLeave u r pdu forget_now => mark_as_left w u r pdu forget_now
  | CKnock u r state => mark_as_knocked w u r state
  | CInvite u r sender state via blocked => mark_as_invited w u r sender state via blocked
  | CForget u r => d ← forget (db w) r u; Ok (with_db w d)
  end.

(** An error leaves the tables; a panic does not happen. *)
Definition run_change (w : World) (c : change) : World :=
  match apply_change w c with Ok w => w | Err _ => w end.

(** The tables hold [M], and nothing else changed. *)
Definition holds (M : members) (w w' : World) : Prop :=
  Represents M (db w') ∧ Vias (db w') ∧ keeps_others (db w) (db w').

Lemma Vias_delete d d' room : Vias d →
  d' roomid_inviteviaservers = delete room (d roomid_inviteviaservers) → Vias d'.
Proof. intros Hd Heq k v. rewrite Heq. intros [_ Hk]%lookup_delete_Some. by eapply Hd. Qed.

Lemma apply_change_spec M w c : Represents M (db w) → Vias (db w) → valid_change c →
  match apply_change w c with
  | Ok w' => holds (abstract_change M c) w w'
  | Err e => e = Fail InviteBlocked ∧ abstract_change M c = M ∧
             ∃ u r sender state via, c = CInvite u r sender state via true
  end.
Proof.
  intros HM Hv (Hu & Hr & Hc). destruct c as [u r|u r pdu fn|u r st|u r sender st via blocked|u r];
    cbn [change_ids fst snd] in Hu, Hr; cbn [apply_change abstract_change].
  - destruct (mark_as_joined_spec (db w) u r) as (d & -> & Hrows & Ho & Hvd).
    cbn [mbind result_bind]. split_and!; [by eapply all_rows_represents in Hrows|by eapply Vias_delete|done].
  - destruct (mark_as_left_spec w u r pdu fn) as (w' & -> & Hrows & Ho & Hvd).
    eapply all_rows_represents in Hrows; [|done..].
    split_and!; [by destruct fn|by eapply Vias_delete|done].
  - destruct (mark_as_knocked_spec w u r st) as (w' & -> & Hrows & Ho & Hvd).
    split_and!; [by eapply all_rows_represents in Hrows|by eapply Vias_delete|done].
  - destruct blocked; [by split_and!; eauto 10|].
    destruct (mark_as_invited_spec w u r sender st via) as (w' & -> & Hrows & Ho & Hvd);
      [done|by intros servers ->|].
    split_and!; [by eapply all_rows_represents in Hrows|done|done].
  - destruct (forget_spec (db w) r u) as (d & -> & Ho & Hcol). cbn [mbind result_bind].
    split_and!; [|by unfold Vias; simpl; rewrite Hcol|done]. simpl.
    assert (∀ o, (∀ m, m ≠ MLeft → o = Some m ↔ M !! (u, r) = Some m) → o ≠ Some MLeft →
      Represents (partial_alter (fun _ => o) (u, r) M) d) as Hset.
    { intros o Hoth HL. apply (represents_set M (db w)); [done..|]. intros m c b Hin. rewrite Hcol.
      pose proof (rep_row M (db w) HM u r m c b Hu Hr Hin) as Hrow.
      destruct (decide (m = MLeft)) as [->|Hm].
      - simpl in Hin. rewrite !elem_of_cons, elem_of_nil in Hin.
        destruct Hin as [[= -> ->]|[[= -> ->]|[]]]; simpl;
          (split; [rewrite lookup_delete_eq; split; [by intros []|done]|
                   intros k Hk; by rewrite lookup_delete_ne]).
      - rewrite (Hoth m Hm), <-Hrow. destruct m; try done; simpl in Hin;
          rewrite !elem_of_cons, elem_of_nil in Hin; naive_solver. }
    case_decide as Hleft.
    + apply (Hset None); [|done]. intros m Hm. rewrite Hleft. naive_solver.
    + rewrite <-(partial_alter_self M (u, r)). by apply Hset.
Qed.

Lemma run_changes_spec M w cs : Represents M (db w) → Vias (db w) → Forall valid_change cs →
  holds (foldl abstract_change M cs) w (foldl run_change w cs).
Proof.
  revert M w. induction cs as [|c cs IH]; intros M w HM Hv Hcs; simpl; [done|].
  apply Forall_cons in Hcs as [Hc Hcs]. pose proof (apply_change_spec M w c HM Hv Hc) as Hspec.
  unfold run_change at 2. destruct (apply_change w c) as [w'|e].
  - destruct Hspec as (HM' & Hv' & Ho). destruct (IH _ w' HM' Hv' Hcs) as (HM2 & Hv2 & Ho2).
    split_and!; [done..|]. intros k Hk. by rewrite Ho2, Ho.
  - destruct Hspec as (_ & -> & _). by apply IH.
Qed.
End Sequences.

(** * Servers *)

Section Servers.
Context `{!Parsers}.

(** The tables of servers hold the relation [S] of a server and a room, both ways. *)
Record Serving (S : bytes → bytes → Prop) (d : Db) : Prop := {
  srv_room s r : valid_utf8 s → valid_utf8 r → is_Some (d serverroomids !! pair_key s r) ↔ S s r;
  srv_server s r : valid_utf8 s → valid_utf8 r → is_Some (d roomserverids !! pair_key r s) ↔ S s r;
  srv_key r y : valid_utf8 r → is_Some (d roomserverids !! pair_key r y) → valid_utf8 y;
}.

Lemma pair_second_inj s s' (r : bytes) : pair_key s r = pair_key s' r → s = s'.
Proof. unfold pair_key. by intros ?%app_inv_tail. Qed.

Lemma pair_third_inj s s' (r : bytes) : pair_key r s = pair_key r s' → s = s'.
Proof. unfold pair_key. intros Heq. by simplify_list_eq. Qed.

(** What changed in the two tables for the servers of [l] in the room. *)
Definition servers_set (present : bool) (room : bytes) (l : bytes → Prop) (d d' : Db) : Prop :=
  (∀ c, c ≠ roomserverids → c ≠ serverroomids → d' c = d c) ∧
  (∀ s, l s → (is_Some (d' roomserverids !! pair_key room s) ↔ present) ∧
    (is_Some (d' serverroomids !! pair_key s room) ↔ present)) ∧
  (∀ k, (∀ s, l s → k ≠ pair_key room s) → is_Some (d' roomserverids !! k) ↔ is_Some (d roomserverids !! k)) ∧
  (∀ k, (∀ s, l s → k ≠ pair_key s room) → is_Some (d' serverroomids !! k) ↔ is_Some (d serverroomids !! k)).

Lemma servers_set_cons present room l s d d1 d2 : ¬ l s →
  servers_set present room (fun x => x = s) d d1 → servers_set present room l d1 d2 →
  servers_set present room (fun x => x = s ∨ l x) d d2.
Proof.
  intros Hs (Ho1 & Hin1 & Hr1 & Hs1) (Ho2 & Hin2 & Hr2 & Hs2). split_and!.
  - intros c ??. by rewrite Ho2, Ho1.
  - intros x [->|Hx]; [|by apply Hin2]. destruct (Hin1 s eq_refl) as [H1 H2]. split.
    + rewrite Hr2; [done|]. intros y Hy ->%pair_third_inj. done.
    + rewrite Hs2; [done|]. intros y Hy ->%pair_second_inj. done.
  - intros k Hk. rewrite Hr2, Hr1; [done|..]; intros; apply Hk; auto.
  - intros k Hk. rewrite Hs2, Hs1; [done|..]; intros; apply Hk; auto.
Qed.

Lemma servers_set_ext present room l l' d d' : (∀ s, l s ↔ l' s) →
  servers_set present room l d d' → servers_set present room l' d d'.
Proof.
  intros Hl (Ho & Hin & Hr & Hs). split_and!; [done|..].
  - intros s Hls. apply Hin. by apply Hl.
  - intros k Hk. apply Hr. intros s Hls. apply Hk. by apply Hl.
  - intros k Hk. apply Hs. intros s Hls. apply Hk. by apply Hl.
Qed.

Lemma servers_set_nil present room d (l : bytes → Prop) : (∀ s, ¬ l s) → servers_set present room l d d.
Proof. intros Hl. split_and!; try done. intros s Hs. by apply Hl in Hs. Qed.

Lemma servers_set_insert room s d :
  servers_set true room (fun x => x = s) d
    (insert (insert d roomserverids (pair_key room s) []) serverroomids (pair_key s room) []).
Proof.
  split_and!.
  - intros c ??. by rewrite !insert_other.
  - intros x ->. dbs. by rewrite !lookup_insert_eq.
  - intros k Hk. dbs. by rewrite lookup_insert_ne by (intros <-; by apply (Hk s)).
  - intros k Hk. dbs. by rewrite lookup_insert_ne by (intros <-; by apply (Hk s)).
Qed.

Lemma servers_set_remove room s d :
  servers_set false room (fun x => x = s) d
    (remove (remove d roomserverids (pair_key room s)) serverroomids (pair_key s room)).
Proof.
  split_and!.
  - intros c ??. by rewrite !remove_other.
  - intros x ->. dbs. rewrite !lookup_delete_eq. split; (split; [by intros []|done]).
  - intros k Hk. dbs. by rewrite lookup_delete_ne by (intros <-; by apply (Hk s)).
  - intros k Hk. dbs. by rewrite lookup_delete_ne by (intros <-; by apply (Hk s)).
Qed.

Lemma retire_spec (room : bytes) (old : list bytes) (J : gset bytes) (d : Db) : NoDup old → ∃ d' : Db,
  foldl (retire_server room) (Ok (J, d)) old = Ok (J ∖ list_to_set old, d') ∧
  servers_set false room (fun s => s ∈ old ∧ s ∉ J) d d'.
Proof.
  revert J d. induction old as [|s old IH]; intros J d Hnd.
  { exists d. split; [simpl; do 2 f_equal; set_solver|]. apply servers_set_nil. set_solver. }
  apply NoDup_cons in Hnd as [Hs Hnd]. cbn [foldl]. unfold retire_server at 2. cbn [mbind result_bind].
  destruct (decide (s ∈ J)) as [Hin|Hin].
  - destruct (IH (J ∖ {[s]}) d Hnd) as (d' & -> & Hd'). exists d'. split; [do 2 f_equal; set_solver|].
    eapply servers_set_ext, Hd'. intros x. destruct (decide (x = s)); set_solver.
  - rewrite del_pair. cbn [mbind result_bind]. rewrite del_pair. cbn [mbind result_bind].
    destruct (IH J (remove (remove d roomserverids (pair_key room s)) serverroomids (pair_key s room)) Hnd)
      as (d' & -> & Hd'). exists d'. split; [do 2 f_equal; set_solver|].
    eapply (servers_set_ext _ _ (fun x => x = s ∨ x ∈ old ∧ x ∉ J)).
    { intros x. destruct (decide (x = s)); set_solver. }
    eapply servers_set_cons; [|apply servers_set_remove|exact Hd']. by intros [? _].
Qed.

Lemma add_servers_set (room : bytes) (l : list bytes) (d : Db) : NoDup l → ∃ d' : Db,
  foldl (add_server room) (Ok d) l = Ok d' ∧ servers_set true room (fun s => s ∈ l) d d'.
Proof.
  revert d. induction l as [|s l IH]; intros d Hnd.
  { exists d. split; [done|]. apply servers_set_nil. set_solver. }
  apply NoDup_cons in Hnd as [Hs Hnd]. cbn [foldl]. unfold add_server at 2.
  change (Ok d ≫= ?f) with (f d). cbv beta. rewrite put_raw_pair. cbn [mbind result_bind].
  rewrite put_raw_pair.
  destruct (IH (insert (insert d roomserverids (pair_key room s) []) serverroomids (pair_key s room) []) Hnd)
    as (d' & -> & Hd'). exists d'. split; [done|].
  eapply (servers_set_ext _ _ (fun x => x = s ∨ x ∈ l)); [intros x; set_solver|].
  eapply servers_set_cons; [done|apply servers_set_insert|exact Hd'].
Qed.
End Servers.

Section JoinedCount.
Context `{!Parsers} (server_name : bytes → bytes) `{!HashIter bytes, !HashIterLaws bytes}.

(** The servers in a room after the count was updated: those of its members. *)
Definition served (M : members) (room : bytes) (S : bytes → bytes → Prop) (s r : bytes) : Prop :=
  if decide (r = room) then ∃ u, valid_utf8 u ∧ M !! (u, room) = Some MJoined ∧ server_name u = s
  else S s r.

(** What the update writes, before the servers. *)
Lemma represents_counts M d d' : Represents M d →
  (∀ m c b x y, (c, b) ∈ rows m → d' c !! pair_key x y = d c !! pair_key x y) → Represents M d'.
Proof.
  intros HM Hd. split.
  - intros u r m c b Hu Hr Hin. rewrite <-(rep_row M d HM u r m c b) by done.
    destruct b; simpl; by rewrite (Hd m c _ _ _ Hin).
  - intros m c b x y Hin Hx. rewrite (Hd m c b) by done. by apply (rep_key M d HM m c b).
Qed.

Lemma no_pair_key room x y : valid_utf8 room → room ≠ pair_key x y.
Proof. intros Hr ->. apply (valid_utf8_no_sep _ Hr). unfold pair_key. set_solver. Qed.

(** Old servers without a member retired, then new ones added: the room's servers are those of [J]. *)
Lemma serving_update (S : bytes → bytes → Prop) (d d2 d3 : Db) (room : bytes) (J : gset bytes) (old l : list bytes) : Serving S d → valid_utf8 room →
  (∀ s, s ∈ old ↔ is_Some (d roomserverids !! pair_key room s)) →
  (∀ s, s ∈ l ↔ s ∈ J ∧ s ∉ old) → (∀ s, s ∈ J → valid_utf8 s) →
  servers_set false room (fun s => s ∈ old ∧ s ∉ J) d d2 → servers_set true room (fun s => s ∈ l) d2 d3 →
  Serving (fun s r => if decide (r = room) then s ∈ J else S s r) d3.
Proof.
  intros HS Hr Hold Hl HJ (Ho2 & Hin2 & Hr2 & Hs2) (Ho3 & Hin3 & Hr3 & Hs3).
  assert (∀ s, s ∈ old → valid_utf8 s) as Hvold by (intros s Hs; by apply (srv_key _ _ HS room), Hold).
  assert (∀ s, s ∈ old ∨ s ∈ l → valid_utf8 s) as Hv by (intros s [?|?]; [auto|apply HJ; by apply Hl]).
  assert (∀ s, valid_utf8 s → is_Some (d serverroomids !! pair_key s room) ↔ s ∈ old) as Hsr.
  { intros s Hs. by rewrite (srv_room _ _ HS), <-(srv_server _ _ HS), Hold. }
  assert (∀ s, is_Some (d3 roomserverids !! pair_key room s) ↔ s ∈ J) as Hroom.
  { intros s. destruct (decide (s ∈ l)) as [Hsl|Hsl]; [rewrite (proj1 (Hin3 s Hsl)); naive_solver|].
    rewrite Hr3 by (intros s' Hs' ->%pair_third_inj; done).
    destruct (decide (s ∈ old)), (decide (s ∈ J)).
    - rewrite Hr2, <-Hold by (intros s' [_ Hs'] ->%pair_third_inj; done). done.
    - rewrite (proj1 (Hin2 s ltac:(done))). done.
    - naive_solver.
    - rewrite Hr2, <-Hold by (intros s' [Hs' _] ->%pair_third_inj; done). done. }
  assert (∀ s, valid_utf8 s → is_Some (d3 serverroomids !! pair_key s room) ↔ s ∈ J) as Hserver.
  { intros s Hvs. destruct (decide (s ∈ l)) as [Hsl|Hsl]; [rewrite (proj2 (Hin3 s Hsl)); naive_solver|].
    rewrite Hs3 by (intros s' Hs' ->%pair_second_inj; done).
    destruct (decide (s ∈ old)), (decide (s ∈ J)).
    - rewrite Hs2, Hsr by (done || intros s' [_ Hs'] ->%pair_second_inj; done). done.
    - rewrite (proj2 (Hin2 s ltac:(done))). done.
    - naive_solver.
    - rewrite Hs2, Hsr by (done || intros s' [Hs' _] ->%pair_second_inj; done). done. }
  split.
  - intros s r Hs Hvr. case_decide as Heq; [subst; by apply Hserver|].
    rewrite Hs3, Hs2; [by apply (srv_room _ _ HS)|..].
    + intros s' [Hs' _] [_ ?]%pair_first_utf8; auto.
    + intros s' Hs' [_ ?]%pair_first_utf8; auto.
  - intros s r Hs Hvr. case_decide as Heq; [subst; by apply Hroom|].
    rewrite Hr3, Hr2; [by apply (srv_server _ _ HS)|..]; intros s' _ [? _]%pair_first_utf8; auto.
  - intros r y Hvr Hy. destruct (decide (r = room)) as [->|Hne].
    + apply Hroom in Hy. by apply HJ.
    + rewrite Hr3, Hr2 in Hy; [by apply (srv_key _ _ HS r)|..]; intros s' _ [? _]%pair_first_utf8; auto.
Qed.

Lemma Serving_iff (S S' : bytes → bytes → Prop) d : (∀ s r, S s r ↔ S' s r) → Serving S d → Serving S' d.
Proof. intros HS [H1 H2 H3]. split; [intros; rewrite <-HS; auto..|done]. Qed.

Lemma update_joined_count_spec M S d room : Represents M d → Serving S d → valid_utf8 room →
  (∀ u, valid_utf8 u → valid_utf8 (server_name u)) → ∃ d' l,
  update_joined_count server_name d room = Ok d' ∧ Represents M d' ∧
  Serving (served M room S) d' ∧ room_members d room = Ok l ∧ NoDup l ∧
  (∀ u, u ∈ l ↔ valid_utf8 u ∧ M !! (u, room) = Some MJoined) ∧
  d' roomid_joinedcount !! room = Some (u64_to_be (saturating_u64 (Z.of_nat (length l)))).
Proof.
  intros HM HS Hr Hsn. unfold update_joined_count, room_members.
  destruct (scan_spec M d room MJoined roomuserid_joined HM Hr) as (l & Hl & Hnd & Hmem); [set_solver|].
  destruct (scan_spec M d room MInvited roomuserid_invitecount HM Hr) as (li & Hi & _); [set_solver|].
  destruct (scan_spec M d room MKnocked roomuserid_knockedcount HM Hr) as (lk & Hk & _); [set_solver|].
  unfold room_members_invited, room_members_knocked. rewrite Hl, Hi, Hk. cbn [mbind result_bind].
  unfold raw_put, raw_bput. change (serialize None (VU64 ?n)) with (Ok (E := fault db_error) (u64_to_be n)).
  cbn [expect_ok mbind result_bind]. set (d1 := insert _ _ _ _).
  assert (d1 roomserverids = d roomserverids ∧ d1 serverroomids = d serverroomids) as [Hrs Hsr]
    by (subst d1; by dbs).
  unfold room_servers. destruct (keys_second_spec d1 roomserverids room Hr) as (old & -> & Hndo & Hold).
  { intros b. rewrite Hrs. by apply (srv_key _ _ HS). }
  cbn [mbind result_bind]. set (J := list_to_set (map server_name l) : gset bytes).
  destruct (retire_spec room old J d1 Hndo) as (d2 & -> & Hd2). cbn [mbind result_bind].
  destruct (add_servers_set room (iter_set (J ∖ list_to_set old)) d2) as (d3 & -> & Hd3).
  { rewrite iter_set_perm. apply NoDup_elements. }
  exists d3, l. split; [done|].
  assert (∀ s, s ∈ J ↔ ∃ u, valid_utf8 u ∧ M !! (u, room) = Some MJoined ∧ server_name u = s) as HJ.
  { intros s. subst J. rewrite elem_of_list_to_set. change (map server_name l) with (server_name <$> l).
    rewrite list_elem_of_fmap. setoid_rewrite Hmem. naive_solver. }
  assert (∀ c, c ≠ roomserverids → c ≠ serverroomids → d3 c = d1 c) as Hcols.
  { intros c ??. by rewrite (proj1 Hd3), (proj1 Hd2). }
  split_and!; try done.
  - apply (represents_counts M d); [done|]. intros m c b x y Hin.
    pose proof (no_pair_key room x y Hr).
    assert (d3 c !! pair_key x y = d1 c !! pair_key x y) as ->
      by (rewrite Hcols; [done|..]; intros ->; destruct m; simpl in Hin; set_solver).
    subst d1. destruct (decide (c = roomuserid_knockedcount)) as [->|Hc].
    + dbs. by rewrite lookup_insert_ne.
    + rewrite !insert_other; [done|..]; try done; intros ->; destruct m; simpl in Hin; set_solver.
  - apply (Serving_iff (fun s r => if decide (r = room) then s ∈ J else S s r)).
    { intros s r. unfold served. case_decide; [apply HJ|done]. }
    apply (serving_update S d1 d2 d3 room J old (iter_set (J ∖ list_to_set old))); try done.
    + destruct HS as [H1 H2 H3]. split; intros; rewrite ?Hrs, ?Hsr in *; eauto.
    + intros s. rewrite iter_set_perm. set_solver.
    + intros s (u & Hu & _ & <-)%HJ. by apply Hsn.
  - rewrite Hcols by done. subst d1. dbs. apply lookup_insert_eq.
Qed.
End JoinedCount.

(** * Properties *)

Section Properties.
Context `{!Parsers}.


(** After a room's counts are updated, exactly the servers of its joined members are in it, by
    server and by room, the number of members stored is theirs, and other rooms and all
    memberships are as they were, in whatever order the hash set is iterated. *)
Theorem update_joined_count_correct (server_name : bytes → bytes) `{!HashIter bytes, !HashIterLaws bytes}
    (M : members) (S : bytes → bytes → Prop) (d : Db) (room : bytes) (HM : Represents M d)
    (HS : Serving S d) (Hr : valid_utf8 room) (Hsn : ∀ u, valid_utf8 u → valid_utf8 (server_name u)) :
  ∃ d', update_joined_count server_name d room = Ok d' ∧ Represents M d' ∧
  (∀ s, valid_utf8 s → server_in_room d' s room ↔
    ∃ u, valid_utf8 u ∧ is_joined d' u room ∧ server_name u = s) ∧
  (∀ s r, valid_utf8 s → valid_utf8 r → r ≠ room → server_in_room d' s r = server_in_room d s r) ∧
  (∃ l, room_members d' room = Ok l ∧ (Z.of_nat (length l) ≤ u64_max →
    room_joined_count d' room = Ok (Z.of_nat (length l)))).
Proof.
  destruct (update_joined_count_spec server_name M S d room HM HS Hr Hsn)
    as (d' & l & Hd' & HM' & HS' & Hl & Hnd & Hin & Hcount).
  exists d'. unfold server_in_room. split_and!; try done.
  - intros s Hs. rewrite found_pair, bool_decide_spec, (srv_room _ _ HS') by done.
    unfold served. rewrite decide_True by done. split; intros (u & Hu & HMu & Hsu); exists u;
      (split_and!; [done| |done]); destruct (queries_spec M d' u room HM' Hu Hr) as (Hj & _).
    + by rewrite Hj, bool_decide_spec.
    + by rewrite Hj, bool_decide_spec in HMu.
  - intros s r Hs Hvr Hne. rewrite !found_pair. apply bool_decide_ext.
    rewrite (srv_room _ _ HS'), (srv_room _ _ HS) by done. unfold served. by rewrite decide_False.
  - destruct (scan_spec M d' room MJoined roomuserid_joined HM' Hr) as (l' & Hl' & Hnd' & Hin'); [set_solver|].
    exists l'. split; [exact Hl'|]. intros Hlen.
    assert (length l' = length l) as Hlen'.
    { apply Permutation_length. apply NoDup_Permutation; [done..|]. intros u. by rewrite Hin, Hin'. }
    unfold room_joined_count, deserialized_u64, deserialized, get. rewrite Hcount.
    cbn [ok_or_fail ok_or mbind result_bind]. rewrite Hlen' in *.
    assert (saturating_u64 (Z.of_nat (length l)) = Z.of_nat (length l)) as -> by (unfold saturating_u64; lia).
    rewrite from_slice_u64 by word. done.
Qed.
End Properties.

(** * A concrete room *)
Module MembersWitness.
#[local] Instance any_parsers : Parsers := {| json_ok _ := true; cbor_ok _ := true |}.
#[local] Instance iter_fwd : HashIter bytes := hash_iter_fwd bytes.

(** [!r], [@a:b.co] and [@a:b.com]; the server is what follows the colon at the fourth byte. *)
Definition room : bytes := [33; 114].
Definition alice : bytes := [64; 97; 58; 98; 46; 99; 111].
Definition alicia : bytes := [64; 97; 58; 98; 46; 99; 111; 109].
Definition name_of (user : bytes) : bytes := if valid_utf8 (drop 3 user) then drop 3 user else [].

Lemma name_valid user : valid_utf8 user → valid_utf8 (name_of user).
Proof. intros _. unfold name_of. destruct (valid_utf8 (drop 3 user)) eqn:Hv; [by rewrite Hv|done]. Qed.

Definition w0 : World := {| db := empty_db; counter := 0 |}.

Lemma empty_represents : Represents ∅ (db w0).
Proof.
  split.
  - intros u r m c b _ _ _. unfold w0, empty_db. simpl. rewrite lookup_empty. rewrite (lookup_empty (A := Member)). split; [by intros []|discriminate].
  - intros m c b x y _ _. unfold w0, empty_db. simpl. rewrite lookup_empty. by intros [].
Qed.

Lemma empty_serving : Serving (fun _ _ => False) (db w0).
Proof.
  split; intros; unfold w0, empty_db in *; simpl in *; rewrite ?lookup_empty in *;
    try (split; [by intros []|done]). by destruct H0.
Qed.

Definition story : list change :=
  [CJoin alice room; CJoin alicia room; CInvite alice room alicia [91; 93] None false;
   CJoin alice room; CLeave alicia room [] false].


(** The two users joined: the servers of both are in the room. *)
Definition joined : World := foldl run_change w0 [CJoin alice room; CJoin alicia room].

Lemma update_joined_count_correct_witness : ∃ d',
  update_joined_count name_of (db joined) room = Ok d' ∧
  (∀ s, valid_utf8 s → server_in_room d' s room ↔
    ∃ u, valid_utf8 u ∧ is_joined d' u room ∧ name_of u = s).
Proof.
  destruct (update_joined_count_correct name_of
    (foldl abstract_change ∅ [CJoin alice room; CJoin alicia room]) (fun _ _ => False)
    (db joined) room) as (d' & Hd' & _ & Hs & _).
  - apply (run_changes_spec ∅ w0); [apply empty_represents| |repeat constructor].
    intros k v Hk. discriminate Hk.
  - destruct empty_serving as [H1 H2 H3]. split; assumption.
  - exact I.
  - apply name_valid.
  - exists d'. exact (conj Hd' Hs).
Defined.

(** A prefix of another user's identifier gets that user's rooms. *)
Example rooms_joined_leak :
  let d := db (foldl run_change w0 [CJoin alicia room]) in
  is_joined d alice room = false ∧ rooms_joined d alice = [room].
Proof. split; vm_compute; reflexivity. Qed.

(** A banned user is reported as having left; one who left and forgot the room, as banned. *)
Example ban_reported_as_leave :
  (fun w => user_membership (db w) alice room) <$> ok (update_membership name_of
    w0 room alice alicia Ban [] [] false false false) = Some (Some Leave).
Proof. vm_compute. reflexivity. Qed.

Example forgotten_reported_as_ban :
  (fun w => user_membership (db w) alice room) <$> ok (
    w ← update_membership name_of w0 room alice alice Join [] [] false false false;
    update_membership name_of w room alice alice Leave [] [] false true false) = Some (Some Ban).
Proof. vm_compute. reflexivity. Qed.

(** The users who once joined are stored by user and scanned by room: none is ever found. *)
Example once_joined_not_listed :
  ok (d ← mark_as_once_joined empty_db alice room; room_useroncejoined d room) = Some [].
Proof. vm_compute. reflexivity. Qed.

(** The number of knocking members is written among the members who knock. *)
Example knocked_count_misplaced :
  (fun d => d roomuserid_knockedcount !! room) <$> ok (update_joined_count name_of empty_db room)
    = Some (Some (u64_to_be 0)).
Proof. vm_compute. reflexivity. Qed.

(** Adding servers to an invite's list keeps one of those that were there. *)
Example invite_servers_lost :
  ok (d ← add_servers_invite_via empty_db room [[97]; [98]];
      d ← add_servers_invite_via d room [[99]];
      Ok (d roomid_inviteviaservers !! room)) = Some (Some [98; 255; 99]).
Proof. vm_compute. reflexivity. Qed.
End MembersWitness.
