(* ===== verification/StateAccessor.v ===== *)
(** Reading room states, and who may see what: src/src/service/rooms/state_accessor/state.rs,
    room_state.rs, user_can.rs and server_can.rs.

    Operations that load a state return the service with the cache loading left.  Parsing events
    and their contents is [serde_json]'s and ruma's, parameters. *)

From stdpp Require Import prelude gmap sorting.
From Stdlib Require Import ZArith Lia.
From S2P Require Import Prelude Cache Bytes PduCount DbSer Database PairKeys Short StateCompressor RoomState StateCache Timeline.
Local Open Scope Z_scope.

Inductive HistoryVisibility : Set := Invited | Joined | Shared | WorldReadable.

(** What [get_content] reads of an event, at the two types used. *)
Class EventContent (P : Type) := {
  membership_of : P → option MembershipState;
  history_visibility_of : P → option HistoryVisibility;
}.

(** The bytes of the event types. *)
Definition m_room_member : bytes :=
  [109; 46; 114; 111; 111; 109; 46; 109; 101; 109; 98; 101; 114].
Definition m_room_history_visibility : bytes :=
  [109; 46; 114; 111; 111; 109; 46; 104; 105; 115; 116; 111; 114; 121; 95; 118; 105; 115; 105; 98;
   105; 108; 105; 116; 121].

Section StateAccessor.
Context `{!Parsers} {C : Type} `{!Lru Z (list ShortStateInfo) C} {P : Type} `{!PduJson P} `{!EventContent P}.

(** ** A state *)

(** @src src/src/service/rooms/state_accessor/state.rs:403-413 Service::load_full_state *)
Definition load_full_state (fuel : nat) (s : Service C) (shortstatehash : Z) :
    comp db_error CompressedState * Service C :=
  match load_shortstatehash_info fuel s shortstatehash with
  | (Ok vec, s) => (expect (si_full_state <$> last vec), s)
  | (Err (Fail _), s) => (Err (Fail DatabaseError), s)
  | (Err e, s) => (Err e, s)
  end.

(** The first entry of a state key: [range(start..=end).next()].
    @src src/src/service/rooms/state_accessor/state.rs:181-187 Service::state_get_shortid *)
Definition range_first (full_state : CompressedState) (shortstatekey : Z) : option bytes :=
  let start := compress_state_event shortstatekey 0 in
  let end_ := compress_state_event shortstatekey u64_max in
  find (fun e => bool_decide (ord_le start e ∧ ord_le e end_)) (iter full_state).

(** @src src/src/service/rooms/state_accessor/state.rs:169-194 Service::state_get_shortid *)
Definition state_get_shortid (fuel : nat) (s : Service C) (shortstatehash : Z)
    (event_type state_key : bytes) : comp db_error Z * Service C :=
  match get_shortstatekey (world s) event_type state_key with
  | Err e => (Err e, s)
  | Ok shortstatekey =>
      let '(full_state, s) := load_full_state fuel s shortstatehash in
      (full_state ← full_state;
       ok_or_fail NotFound
         ((fun e => (parse_compressed_state_event e).2) <$> range_first full_state shortstatekey), s)
  end.

(** @src src/src/service/rooms/state_accessor/state.rs:147-165 Service::state_get_id *)
Definition state_get_id (fuel : nat) (s : Service C) (shortstatehash : Z)
    (event_type state_key : bytes) : comp db_error bytes * Service C :=
  let '(shorteventid, s) := state_get_shortid fuel s shortstatehash event_type state_key in
  (shorteventid ← shorteventid; get_eventid_from_short (world s) shorteventid, s).

(** @src src/src/service/rooms/state_accessor/state.rs:132-143 Service::state_get *)
Definition state_get (race : bool) (fuel : nat) (s : Service C) (shortstatehash : Z)
    (event_type state_key : bytes) : comp db_error P * Service C :=
  let '(event_id, s) := state_get_id fuel s shortstatehash event_type state_key in
  (event_id ← event_id; get_pdu race (db (world s)) event_id, s).

(** A state that cannot be loaded contains nothing.
    @src src/src/service/rooms/state_accessor/state.rs:115-128 Service::state_contains_shortstatekey *)
Definition state_contains_shortstatekey (fuel : nat) (s : Service C) (shortstatehash shortstatekey : Z) :
    bool * Service C :=
  let '(full_state, s) := load_full_state fuel s shortstatehash in
  (match full_state with
   | Ok full_state => bool_decide (is_Some (range_first full_state shortstatekey))
   | Err _ => false
   end, s).

(** @src src/src/service/rooms/state_accessor/state.rs:80-97 Service::state_contains *)
Definition state_contains (fuel : nat) (s : Service C) (shortstatehash : Z)
    (event_type state_key : bytes) : bool * Service C :=
  match get_shortstatekey (world s) event_type state_key with
  | Err _ => (false, s)
  | Ok shortstatekey => state_contains_shortstatekey fuel s shortstatehash shortstatekey
  end.

(** @src src/src/service/rooms/state_accessor/state.rs:383-400 Service::state_full_shortids *)
Definition state_full_shortids (fuel : nat) (s : Service C) (shortstatehash : Z) :
    comp db_error (list (Z * Z)) * Service C :=
  let '(full_state, s) := load_full_state fuel s shortstatehash in
  (full_state ← full_state; Ok (map parse_compressed_state_event (iter full_state)), s).

(** The pairs of a stream that yields an error when the state cannot be loaded. *)
Definition shortids (r : comp db_error (list (Z * Z))) : list (Z * Z) :=
  match r with Ok l => l | Err _ => [] end.

(** @src src/src/service/rooms/state_accessor/state.rs:348-380 Service::state_full_ids *)
Definition state_full_ids (fuel : nat) (s : Service C) (shortstatehash : Z) :
    list (Z * bytes) * Service C :=
  let '(short_ids, s) := state_full_shortids fuel s shortstatehash in
  (ignore_err (map (fun '(shortstatekey, shorteventid) =>
     event_id ← get_eventid_from_short (world s) shorteventid; Ok (shortstatekey, event_id))
     (shortids short_ids)), s).

(** @src src/src/service/rooms/state_accessor/state.rs:328-344 Service::state_full_pdus *)
Definition state_full_pdus (race : bool) (fuel : nat) (s : Service C) (shortstatehash : Z) :
    list P * Service C :=
  let '(short_ids, s) := state_full_shortids fuel s shortstatehash in
  let event_ids := ignore_err (map (fun '(_, shorteventid) => get_eventid_from_short (world s) shorteventid)
                     (shortids short_ids)) in
  (ignore_err (map (get_pdu race (db (world s))) event_ids), s).

(** @src src/src/service/rooms/state_accessor/state.rs:235-269 Service::state_keys_with_shortids *)
Definition state_keys_with_shortids (fuel : nat) (s : Service C) (shortstatehash : Z)
    (event_type : bytes) : list (bytes * Z) * Service C :=
  let '(short_ids, s) := state_full_shortids fuel s shortstatehash in
  let keys := ignore_err (map (fun '(shortstatekey, shorteventid) =>
    key ← get_statekey_from_short (world s) shortstatekey; Ok (key, shorteventid)) (shortids short_ids)) in
  (omap (fun '((event_type', state_key), event_id) =>
     if decide (event_type' = event_type) then Some (state_key, event_id) else None) keys, s).

(** @src src/src/service/rooms/state_accessor/state.rs:272-289 Service::state_keys *)
Definition state_keys (fuel : nat) (s : Service C) (shortstatehash : Z) (event_type : bytes) :
    list bytes * Service C :=
  let '(short_ids, s) := state_full_shortids fuel s shortstatehash in
  let keys := ignore_err (map (fun '(shortstatekey, _) => get_statekey_from_short (world s) shortstatekey)
                (shortids short_ids)) in
  (omap (fun '(event_type', state_key) =>
     if decide (event_type' = event_type) then Some state_key else None) keys, s).

(** @src src/src/service/rooms/state_accessor/state.rs:102-111 Service::state_contains_type *)
Definition state_contains_type (fuel : nat) (s : Service C) (shortstatehash : Z) (event_type : bytes) :
    bool * Service C :=
  let '(keys, s) := state_keys fuel s shortstatehash event_type in (bool_decide (keys ≠ []), s).

(** @src src/src/service/rooms/state_accessor/state.rs:302-314 Service::state_added *)
Definition state_added (fuel : nat) (s : Service C) (shortstatehash : Z * Z) :
    comp db_error (list (Z * Z)) * Service C :=
  match load_full_state fuel s shortstatehash.1 with
  | (Err e, s) => (Err e, s)
  | (Ok full_state_a, s) =>
      let '(full_state_b, s) := load_full_state fuel s shortstatehash.2 in
      (full_state_b ← full_state_b;
       Ok (map parse_compressed_state_event (iter (full_state_b ∖ full_state_a))), s)
  end.

(** @src src/src/service/rooms/state_accessor/state.rs:293-298 Service::state_removed *)
Definition state_removed (fuel : nat) (s : Service C) (shortstatehash : Z * Z) :
    comp db_error (list (Z * Z)) * Service C :=
  state_added fuel s (shortstatehash.2, shortstatehash.1).

(** The state before an event.
    @src src/src/service/rooms/state_accessor/state.rs:416-429 Service::pdu_shortstatehash *)
Definition pdu_shortstatehash (w : World) (event_id : bytes) : comp db_error Z :=
  deserialized_u64 (shorteventid ← get_shorteventid w event_id;
                    aqry 8 (db w) shorteventid_shortstatehash (VU64 shorteventid)).

(** ** The current state of a room *)

(** @src src/src/service/rooms/state_accessor/room_state.rs:55-70 Service::room_state_get_id *)
Definition room_state_get_id (fuel : nat) (s : Service C) (room_id event_type state_key : bytes) :
    comp db_error bytes * Service C :=
  match get_room_shortstatehash (world s) room_id with
  | Err e => (Err e, s)
  | Ok shortstatehash => state_get_id fuel s shortstatehash event_type state_key
  end.

(** @src src/src/service/rooms/state_accessor/room_state.rs:74-85 Service::room_state_get *)
Definition room_state_get (race : bool) (fuel : nat) (s : Service C)
    (room_id event_type state_key : bytes) : comp db_error P * Service C :=
  match get_room_shortstatehash (world s) room_id with
  | Err e => (Err e, s)
  | Ok shortstatehash => state_get race fuel s shortstatehash event_type state_key
  end.

(** @src src/src/service/rooms/state_accessor/room_state.rs:88-102 Service::room_state_keys *)
Definition room_state_keys (fuel : nat) (s : Service C) (room_id event_type : bytes) :
    comp db_error (list bytes) * Service C :=
  match get_room_shortstatehash (world s) room_id with
  | Err e => (Err e, s)
  | Ok shortstatehash =>
      let '(keys, s) := state_keys fuel s shortstatehash event_type in (Ok keys, s)
  end.

(** ** Members of a state *)

(** [state_get_content] and [room_state_get_content], at a type read by [content_of]. *)
Definition get_content {T} (content_of : P → option T) (r : comp db_error P * Service C) :
    comp db_error T * Service C :=
  let '(event, s) := r in (event ← event; ok_or_fail SerdeDe (content_of event), s).

(** @src src/src/service/rooms/state_accessor/state.rs:53-61 Service::user_membership *)
Definition state_user_membership (race : bool) (fuel : nat) (s : Service C) (shortstatehash : Z)
    (user_id : bytes) : MembershipState * Service C :=
  let '(membership, s) :=
    get_content membership_of (state_get race fuel s shortstatehash m_room_member user_id) in
  (match membership with Ok m => m | Err _ => Leave end, s).

(** @src src/src/service/rooms/state_accessor/state.rs:30-36 Service::user_was_joined *)
Definition user_was_joined (race : bool) (fuel : nat) (s : Service C) (shortstatehash : Z)
    (user_id : bytes) : bool * Service C :=
  let '(m, s) := state_user_membership race fuel s shortstatehash user_id in
  (match m with Join => true | _ => false end, s).

(** @src src/src/service/rooms/state_accessor/state.rs:40-49 Service::user_was_invited *)
Definition user_was_invited (race : bool) (fuel : nat) (s : Service C) (shortstatehash : Z)
    (user_id : bytes) : bool * Service C :=
  let '(m, s) := state_user_membership race fuel s shortstatehash user_id in
  (match m with Invite | Join => true | _ => false end, s).

(** ** Visibility *)

(** The history visibility of a state, [Shared] when it has none. *)
Definition history_visibility (r : comp db_error P * Service C) : HistoryVisibility * Service C :=
  let '(v, s) := get_content history_visibility_of r in
  (match v with Ok v => v | Err _ => Shared end, s).

(** @src src/src/service/rooms/state_accessor/user_can.rs:74-106 Service::user_can_see_event *)
Definition user_can_see_event (race : bool) (fuel : nat) (s : Service C)
    (user_id room_id event_id : bytes) : bool * Service C :=
  match pdu_shortstatehash (world s) event_id with
  | Err _ => (true, s)
  | Ok shortstatehash =>
      let currently_member := is_joined (db (world s)) user_id room_id in
      let '(visibility, s) :=
        history_visibility (state_get race fuel s shortstatehash m_room_history_visibility []) in
      match visibility with
      | Invited => user_was_invited race fuel s shortstatehash user_id
      | Joined => user_was_joined race fuel s shortstatehash user_id
      | WorldReadable => (true, s)
      | Shared => (currently_member, s)
      end
  end.

(** @src src/src/service/rooms/state_accessor/user_can.rs:110-128 Service::user_can_see_state_events *)
Definition user_can_see_state_events (race : bool) (fuel : nat) (s : Service C)
    (user_id room_id : bytes) : bool * Service C :=
  if is_joined (db (world s)) user_id room_id then (true, s)
  else
    let '(visibility, s) :=
      history_visibility (room_state_get race fuel s room_id m_room_history_visibility []) in
    (match visibility with
     | Invited => is_invited (db (world s)) user_id room_id
     | WorldReadable => true
     | _ => false
     end, s).

(** [any] over the members on the server. *)
Fixpoint any_member (f : Service C → bytes → bool * Service C) (s : Service C) (members : list bytes) :
    bool * Service C :=
  match members with
  | [] => (false, s)
  | member :: members =>
      let '(b, s) := f s member in if b : bool then (true, s) else any_member f s members
  end.

(** @src src/src/service/rooms/state_accessor/server_can.rs:14-60 Service::server_can_see_event *)
Definition server_can_see_event (server_name : bytes → bytes) (race : bool) (fuel : nat) (s : Service C)
    (origin room_id event_id : bytes) : bool * Service C :=
  match pdu_shortstatehash (world s) event_id with
  | Err _ => (false, s)
  | Ok shortstatehash =>
      let '(visibility, s) :=
        history_visibility (state_get race fuel s shortstatehash m_room_history_visibility []) in
      let current_server_members :=
        filter (fun member => server_name member = origin)
          (match room_members (db (world s)) room_id with Ok l => l | Err _ => [] end) in
      match visibility with
      | Invited => any_member (fun s => user_was_invited race fuel s shortstatehash) s current_server_members
      | Joined => any_member (fun s => user_was_joined race fuel s shortstatehash) s current_server_members
      | WorldReadable | Shared => (true, s)
      end
  end.
End StateAccessor.
