(* ===== verification/StateAccessorSpec.v ===== *)
(** What reading states promises: the entry of a state key is the one the state has for it, the event
    appended to a room is its state from then on, and visibility is decided by the state the
    event was recorded with. *)

From stdpp Require Import prelude gmap sorting.
From Stdlib Require Import ZArith Lia.
From S2P Require Import Prelude Cache Bytes PduCount DbSer Database PairKeys Short StateCompressor StateCompressorSpec RoomState StateCache StateCacheSpec Timeline StateAccessor.
Local Open Scope Z_scope.

(** * Ranges of a state *)

Lemma u64_be_le n m : is_u64 n → is_u64 m → (ord_le (u64_to_be n) (u64_to_be m) ↔ n ≤ m).
Proof.
  intros. unfold ord_le, ord_cmp, list_ord. rewrite u64_be_cmp by done. by rewrite <-Z.compare_le_iff.
Qed.

Lemma compress_le k e k' e' : is_u64 k → is_u64 e → is_u64 k' → is_u64 e' →
  (ord_le (compress_state_event k e) (compress_state_event k' e') ↔ k < k' ∨ k = k' ∧ e ≤ e').
Proof.
  intros. unfold ord_le, ord_cmp, list_ord, compress_state_event.
  rewrite list_cmp_app, !u64_be_cmp by (done || by rewrite !to_be_length).
  destruct (Z.compare_spec k k') as [->|?|?]; simpl.
  - rewrite Z.compare_le_iff. lia.
  - split; [lia|done].
  - split; [done|lia].
Qed.

(** The entry of a key. *)
Lemma range_first_spec m st k : represents m st → is_u64 k →
  range_first st k = compress_state_event k <$> m !! k.
Proof.
  intros Hm Hk. unfold range_first. cbv zeta. apply (find_entry m); [done|]. intros k' e Hl.
  destruct Hm as [Hm _]. destruct (Hm k' e Hl). rewrite bool_decide_spec, !compress_le by word.
  split; [word|]. intros ->. split; right; word.
Qed.

Section Reading.
Context `{!Parsers} `{!Digest} {C : Type} `{!Lru Z (list ShortStateInfo) C} `{!LruLaws Z (list ShortStateInfo) C}.

(** ** Loading *)

Lemma load_full_state_spec fuel (s : Service C) h st : Stored s → is_u64 h → (4 ≤ fuel)%nat →
  state_at (db (world s)) h st → ∃ s', load_full_state fuel s h = (Ok st, s') ∧ Stored s' ∧ world s' = world s.
Proof.
  intros Hs Hh Hf Hst. destruct (load_state s h st fuel Hs Hh Hf Hst) as (stack & top & Hload & Hlast & Hfull).
  unfold load_full_state. destruct (load_shortstatehash_info fuel s h) as [r s'] eqn:Heq. simpl in Hload. subst r.
  apply load_sound in Heq as (Hco & Hw & _); [|by apply st_coherent].
  rewrite Hlast. simpl. rewrite Hfull. exists s'. split_and!; try done. by eapply Stored_cache.
Qed.

Lemma state_get_shortid_spec fuel (s : Service C) h st m t k n : Stored s → is_u64 h → (4 ≤ fuel)%nat →
  state_at (db (world s)) h st → represents m st → get_shortstatekey (world s) t k = Ok n → is_u64 n →
  ∃ s', state_get_shortid fuel s h t k = (ok_or_fail NotFound (m !! n), s') ∧ Stored s' ∧ world s' = world s.
Proof.
  intros Hs Hh Hf Hst Hm Hn Hun. unfold state_get_shortid. rewrite Hn.
  destruct (load_full_state_spec fuel s h st Hs Hh Hf Hst) as (s' & -> & Hs' & Hw).
  exists s'. split_and!; [|done..]. cbn [mbind result_bind]. rewrite (range_first_spec m) by done.
  destruct (m !! n) as [e|] eqn:He; [|done]. cbn [fmap option_fmap option_map].
  destruct Hm as [Hm _]. destruct (Hm n e He). by rewrite parse_compress by word.
Qed.

(** The event of a state for a type and a key, by the numbers of the tables. *)
Definition event_id_in (w : World) (m : gmap Z Z) (t k : bytes) : comp db_error bytes :=
  n ← get_shortstatekey w t k; e ← ok_or_fail NotFound (m !! n); get_eventid_from_short w e.

Lemma shortstatekey_u64 w t k n : Inv w → get_shortstatekey w t k = Ok n → is_u64 n.
Proof.
  intros Hw. rewrite get_shortstatekey_spec, get_number by done.
  destruct (db w statekey_shortstatekey !! pair_key t k) as [v|] eqn:Hv; [|done].
  destruct (inv_issued w Hw statekey_shortstatekey _ _ I Hv) as (j & Hj & ->).
  pose proof (inv_counter w Hw).
  assert (from_be (u64_to_be j) = j) as -> by (apply u64_round_trip; word). intros [= <-]. word.
Qed.

Lemma state_get_id_spec fuel (s : Service C) h st m t k : Stored s → is_u64 h → (4 ≤ fuel)%nat →
  state_at (db (world s)) h st → represents m st → ∃ s',
  state_get_id fuel s h t k = (event_id_in (world s) m t k, s') ∧ Stored s' ∧ world s' = world s.
Proof.
  intros Hs Hh Hf Hst Hm. unfold state_get_id, event_id_in.
  destruct (get_shortstatekey (world s) t k) as [n|e] eqn:Hn.
  - destruct (state_get_shortid_spec fuel s h st m t k n) as (s' & -> & Hs' & Hw); try done.
    { eapply shortstatekey_u64; [by apply st_short|done]. }
    exists s'. by rewrite Hw.
  - unfold state_get_shortid. rewrite Hn. by exists s.
Qed.

Lemma room_state_get_id_spec fuel (s : Service C) room h st m t k : Stored s → (4 ≤ fuel)%nat →
  get_room_shortstatehash (world s) room = Ok h → state_at (db (world s)) h st → represents m st →
  (room_state_get_id fuel s room t k).1 = event_id_in (world s) m t k.
Proof.
  intros Hs Hf Hh Hst Hm. unfold room_state_get_id. pose proof (room_number s room Hs) as Hp.
  rewrite Hh in Hp |- *. cbn [ok] in Hp. pose proof (inv_counter _ (st_short s Hs)).
  destruct (state_get_id_spec fuel s h st m t k) as (s' & -> & _); try done. word.
Qed.

(** ** After an event was appended *)

(** The events of the state have numbers that were drawn for their identifiers. *)
Definition known (w : World) (m : gmap Z Z) : Prop := ∀ n e, m !! n = Some e →
  ∃ id, valid_utf8 id ∧ db w eventid_shorteventid !! id = Some (u64_to_be e).

Lemma event_id_in_insert w w' W L m n e t k id : Inv w → Inv w' → draws W L w w' → known w m →
  (∀ a b, m !! a = Some b → is_u64 b) →
  valid_utf8 id → is_u64 e → is_u64 n →
  db w' statekey_shortstatekey !! pair_key t k = Some (u64_to_be n) →
  db w' eventid_shorteventid !! id = Some (u64_to_be e) →
  (∀ t' k', pair_key t' k' ≠ pair_key t k → (statekey_shortstatekey, pair_key t' k') ∉ L) →
  ∀ t' k', ok (event_id_in w' (<[n := e]> m) t' k') =
    if decide (pair_key t' k' = pair_key t k) then Some id else ok (event_id_in w m t' k').
Proof.
  intros Hw Hw' Hd Hkn Hmu Hid He Hn Hkey Hev HL t' k'. unfold event_id_in.
  rewrite !get_shortstatekey_spec, !get_number by done. case_decide as Heq.
  - rewrite Heq, Hkey. cbn [mbind result_bind].
    assert (from_be (u64_to_be n) = n) as -> by by apply u64_round_trip.
    rewrite lookup_insert_eq. cbn [ok_or_fail ok_or mbind result_bind]. by rewrite (event_number w' id e).
  - rewrite (dr_other _ _ _ _ Hd) by (done || by apply HL).
    destruct (db w statekey_shortstatekey !! pair_key t' k') as [v|] eqn:Hv; [|done]. cbn [mbind result_bind].
    destruct (inv_issued w Hw statekey_shortstatekey _ _ I Hv) as (j & Hj & ->).
    pose proof (inv_counter w Hw).
    assert (from_be (u64_to_be j) = j) as -> by (apply u64_round_trip; word).
    rewrite lookup_insert_ne.
    2:{ intros <-. apply (dr_kept _ _ _ _ Hd) in Hv; [|done].
        by destruct (inv_unique w' Hw' statekey_shortstatekey statekey_shortstatekey _ _ _ I I Hv Hkey). }
    destruct (m !! j) as [e'|] eqn:Hj'; [|done]. cbn [ok_or_fail ok_or mbind result_bind].
    destruct (Hkn j e' Hj') as (id' & Hid' & Hl). assert (is_u64 e') by by eapply Hmu.
    rewrite (event_number w id' e'), (event_number w' id' e'); try done. by apply (dr_kept _ _ _ _ Hd).
Qed.

Lemma represents_nothing m : represents m ∅ → ∀ n, m !! n = None.
Proof.
  intros [_ Hst] n. destruct (m !! n) as [e|] eqn:Hl; [|done].
  assert (compress_state_event n e ∈@{CompressedState} ∅) by (apply Hst; eauto). set_solver.
Qed.

(** The room's events, whether it has a state or not. *)
Lemma room_events fuel (s : Service C) room old m t k : Stored s → (4 ≤ fuel)%nat →
  room_state s room old → represents m old →
  ok (room_state_get_id fuel s room t k).1 = ok (event_id_in (world s) m t k).
Proof.
  intros Hs Hf Hroom Hm. unfold room_state in Hroom.
  destruct (get_room_shortstatehash (world s) room) as [h|e] eqn:Hh; cbn [ok] in Hroom.
  - by rewrite (room_state_get_id_spec fuel s room h old m).
  - subst old. unfold room_state_get_id, event_id_in. rewrite Hh.
    destruct (get_shortstatekey (world s) t k) as [n|]; [|done]. cbn [mbind result_bind].
    by rewrite (represents_nothing m Hm n).
Qed.

Lemma pdu_shortstatehash_spec w id e p : Inv w → is_u64 e → is_u64 p →
  db w eventid_shorteventid !! id = Some (u64_to_be e) →
  db w shorteventid_shortstatehash !! u64_to_be e = Some (u64_to_be p) → pdu_shortstatehash w id = Ok p.
Proof.
  intros Hw He Hp Hid Hl. unfold pdu_shortstatehash, get_shorteventid. rewrite get_number by done.
  rewrite Hid. cbn [mbind result_bind].
  assert (from_be (u64_to_be e) = e) as -> by by apply u64_round_trip. rewrite aqry_u64.
  unfold get. rewrite Hl. cbn [ok_or_fail ok_or]. unfold deserialized_u64, deserialized.
  cbn [mbind result_bind]. by rewrite from_slice_u64.
Qed.

Lemma known_insert w w' W L m n e id : draws W L w w' → known w m → valid_utf8 id →
  db w' eventid_shorteventid !! id = Some (u64_to_be e) → known w' (<[n := e]> m).
Proof.
  intros Hd Hkn Hid Hl n' e' [[<- <-]|[_ Hm]]%lookup_insert_Some; [by exists id|].
  destruct (Hkn n' e' Hm) as (id' & Hid' & Hl'). exists id'. split; [done|]. by apply (dr_kept _ _ _ _ Hd).
Qed.
End Reading.

(** * Visibility *)

Section Visibility.
Context `{!Parsers} `{!Digest} {C : Type} `{!Lru Z (list ShortStateInfo) C} `{!LruLaws Z (list ShortStateInfo) C} {P : Type} `{!PduJson P} `{!EventContent P}.

(** A state's event for a type and a key, a user's membership in it and its history visibility. *)
Definition event_in (race : bool) (w : World) (m : gmap Z Z) (t k : bytes) : comp db_error P :=
  id ← event_id_in w m t k; get_pdu race (db w) id.
Definition member_in (race : bool) (w : World) (m : gmap Z Z) (user : bytes) : MembershipState :=
  match (p ← event_in race w m m_room_member user; ok_or_fail SerdeDe (membership_of p)) with
  | Ok x => x | Err _ => Leave end.
Definition visibility_in (race : bool) (w : World) (m : gmap Z Z) : HistoryVisibility :=
  match (p ← event_in race w m m_room_history_visibility []; ok_or_fail SerdeDe (history_visibility_of p)) with
  | Ok x => x | Err _ => Shared end.

(** [s'] differs from [s] in its cache only. *)
Definition same_world (s s' : Service C) : Prop := Stored s' ∧ world s' = world s.

Lemma state_get_spec race fuel (s : Service C) h st m t k : Stored s → is_u64 h → (4 ≤ fuel)%nat →
  state_at (db (world s)) h st → represents m st → ∃ s',
  state_get race fuel s h t k = (event_in race (world s) m t k, s') ∧ same_world s s'.
Proof.
  intros Hs Hh Hf Hst Hm. unfold state_get, event_in.
  destruct (state_get_id_spec fuel s h st m t k Hs Hh Hf Hst Hm) as (s' & -> & Hs' & Hw).
  exists s'. by rewrite Hw.
Qed.

Lemma state_user_membership_spec race fuel (s : Service C) h st m user : Stored s → is_u64 h →
  (4 ≤ fuel)%nat → state_at (db (world s)) h st → represents m st → ∃ s',
  state_user_membership race fuel s h user = (member_in race (world s) m user, s') ∧ same_world s s'.
Proof.
  intros Hs Hh Hf Hst Hm. unfold state_user_membership, member_in, get_content.
  destruct (state_get_spec race fuel s h st m m_room_member user Hs Hh Hf Hst Hm) as (s' & -> & Hs').
  by exists s'.
Qed.

Lemma history_visibility_spec race fuel (s : Service C) h st m : Stored s → is_u64 h →
  (4 ≤ fuel)%nat → state_at (db (world s)) h st → represents m st → ∃ s',
  history_visibility (state_get race fuel s h m_room_history_visibility []) =
    (visibility_in race (world s) m, s') ∧ same_world s s'.
Proof.
  intros Hs Hh Hf Hst Hm. unfold history_visibility, visibility_in, get_content.
  destruct (state_get_spec race fuel s h st m m_room_history_visibility [] Hs Hh Hf Hst Hm) as (s' & -> & Hs').
  by exists s'.
Qed.

Definition was_joined (m : MembershipState) : bool := match m with Join => true | _ => false end.
Definition was_invited (m : MembershipState) : bool := match m with Invite | Join => true | _ => false end.

Lemma user_was_spec race fuel (s : Service C) h st m user : Stored s → is_u64 h →
  (4 ≤ fuel)%nat → state_at (db (world s)) h st → represents m st →
  (∃ s', user_was_joined race fuel s h user = (was_joined (member_in race (world s) m user), s') ∧ same_world s s') ∧
  (∃ s', user_was_invited race fuel s h user = (was_invited (member_in race (world s) m user), s') ∧ same_world s s').
Proof.
  intros Hs Hh Hf Hst Hm. unfold user_was_joined, user_was_invited.
  destruct (state_user_membership_spec race fuel s h st m user Hs Hh Hf Hst Hm) as (s' & -> & Hs').
  split; by exists s'.
Qed.

(** [any] over members, each test leaving the world. *)
Lemma any_member_spec (s : Service C) f (g : bytes → bool) l :
  (∀ s' u, same_world s s' → ∃ s'', f s' u = (g u, s'') ∧ same_world s s'') →
  ∀ s', same_world s s' → (any_member f s' l).1 = existsb g l.
Proof.
  intros Hf. induction l as [|u l IH]; intros s' Hss; [done|]. simpl.
  destruct (Hf s' u Hss) as (s'' & -> & Hs''). destruct (g u); [done|]. by apply IH.
Qed.
End Visibility.

(** * Properties *)

Section Properties.
Context `{!Parsers} `{!Digest} {C : Type} `{!Lru Z (list ShortStateInfo) C} `{!LruLaws Z (list ShortStateInfo) C}.

(** C13: After a state event is appended to a room and the room pointed to the state that returns, the
    room's event for that type and key is the new one and for every other type and key the one it
    was, whatever is cached; other rooms keep their states, and the state before the event is
    recorded for it. *)
Theorem state_event_appended (fuel : nat) (s : Service C) (room key : bytes) (pdu : NewPdu)
    (old : CompressedState) (m : gmap Z Z) (Hs : Stored s) (Hh : Hashed s) (Hf : (4 ≤ fuel)%nat)
    (Hlt : counter (world s) + 4 ≤ u64_max) (Hroom : room_state s room old) (Hm : represents m old)
    (Hkn : known (world s) m) (Hsmall : ∀ st, set_len st ≤ set_len old + 1 → Small s st)
    (Hkey : np_state_key pdu = Some key) (Hid : valid_utf8 (np_event_id pdu))
    (Hkind : valid_utf8 (np_kind pdu)) (Hk : valid_utf8 key) : ∃ h s1 s2,
  append_to_state fuel s pdu room = (Ok h, s1) ∧ set_room_state s1 room h = Ok s2 ∧
  Stored s2 ∧ Hashed s2 ∧
  (∀ t k, valid_utf8 t → valid_utf8 k → ok (room_state_get_id fuel s2 room t k).1 =
    if decide ((t, k) = (np_kind pdu, key)) then Some (np_event_id pdu)
    else ok (room_state_get_id fuel s room t k).1) ∧
  (∀ r st, r ≠ room → room_state s r st → room_state s2 r st) ∧
  (∀ p, get_room_shortstatehash (world s) room = Ok p →
    pdu_shortstatehash (world s2) (np_event_id pdu) = Ok p) ∧
  (∃ n e new, room_state s2 room new ∧ represents (<[n := e]> m) new ∧ known (world s2) (<[n := e]> m)).
Proof.
  destruct (append_to_state_spec fuel s room old m pdu key Hs Hh Hf Hlt Hroom Hm Hsmall Hkey)
    as (h & s1 & n & e & Happ & Hs1 & Hh1 & Hhle & Hmono & Hd & Hnk & Hek & Hn & He & Hat & Hrec).
  destruct (set_room_state_spec s1 room h _ Hs1 Hhle Hat)
    as (s2 & Hset & Hs2 & Hh2 & Hroom2 & Hget & Hothers & Hmono2 & Hd2).
  pose proof (draws_trans _ _ _ _ _ _ _ Hd Hd2) as Hd'. rewrite app_nil_r in Hd'.
  pose proof (inv_counter _ (st_short s1 Hs1)). pose proof (inv_counter _ (st_short s Hs)) as Hc0.
  assert (0 < n ≤ u64_max) as Hn' by word. assert (is_u64 e) as He' by word.
  pose proof (represents_insert m old n e Hm Hn' He') as Hm'.
  apply (dr_kept _ _ _ _ Hd2) in Hnk as Hnk2, Hek as Hek2; try done.
  exists h, s1, s2. split_and!; try done; [by apply Hh2| | | |].
  - intros t k Ht Hk'. rewrite (room_events fuel s2 room _ (<[n:=e]> m)) by done.
    rewrite (room_events fuel s room old m) by done.
    rewrite (event_id_in_insert (world s) (world s2) _ _ m n e (np_kind pdu) key (np_event_id pdu)
      (st_short s Hs) (st_short s2 Hs2) Hd'); try (done || word).
    + apply decide_ext. split; [|by intros [= -> ->]]. intros Heq.
      by apply pair_key_inj in Heq as [-> ->].
    + intros a b Hab. destruct Hm as [Hm _]. by apply (Hm a b).
    + intros t' k' Hne. rewrite !elem_of_cons, elem_of_nil. naive_solver.
  - intros r st Hr. unfold room_state. rewrite Hothers by done.
    assert (get_room_shortstatehash (world s1) r = get_room_shortstatehash (world s) r) as ->.
    { unfold get_room_shortstatehash, get. by rewrite (dr_plain _ _ _ _ Hd) by (done || set_solver). }
    destruct (ok _); [|done]. intros Hst. by apply Hmono2, Hmono.
  - intros p Hp. pose proof (room_number s room Hs) as Hpn. rewrite Hp in Hpn. cbn [ok] in Hpn.
    apply (pdu_shortstatehash_spec (world s2) _ e p (st_short s2 Hs2)); try (done || word).
    rewrite (dr_plain _ _ _ _ Hd2), Hrec by (done || set_solver). unfold recorded. rewrite Hp. cbn [ok].
    apply lookup_insert_eq.
  - exists n, e, (set_entry m n e old). split_and!; [done..|]. by apply (known_insert _ _ _ _ m n e (np_event_id pdu) Hd').
Qed.

(** Whether a user or a server may see an event is decided by the state recorded for the event:
    its history visibility (shared when there is none), and for invited and joined visibility the
    membership there of the user, or of some current member on the server; shared events are
    seen by current members and by every server, and nothing cached changes the answer. *)
Theorem visibility_correct {P : Type} `{!PduJson P} `{!EventContent P} (server_name : bytes → bytes)
    (race : bool) (fuel : nat) (s : Service C) (M : members) (user origin room id : bytes) (h : Z)
    (st : CompressedState) (m : gmap Z Z) (Hs : Stored s) (HM : Represents M (db (world s)))
    (Hf : (4 ≤ fuel)%nat) (Hh : is_u64 h) (Hrec : pdu_shortstatehash (world s) id = Ok h)
    (Hst : state_at (db (world s)) h st) (Hm : represents m st)
    (Hu : valid_utf8 user) (Hr : valid_utf8 room) :
  let member := member_in race (world s) m in
  ((user_can_see_event race fuel s user room id).1 = true ↔
    match visibility_in race (world s) m with
    | WorldReadable => True
    | Shared => M !! (user, room) = Some MJoined
    | Invited => member user = Invite ∨ member user = Join
    | Joined => member user = Join
    end) ∧
  ((server_can_see_event server_name race fuel s origin room id).1 = true ↔
    match visibility_in race (world s) m with
    | WorldReadable | Shared => True
    | Invited => ∃ u, valid_utf8 u ∧ M !! (u, room) = Some MJoined ∧ server_name u = origin ∧
                   (member u = Invite ∨ member u = Join)
    | Joined => ∃ u, valid_utf8 u ∧ M !! (u, room) = Some MJoined ∧ server_name u = origin ∧ member u = Join
    end).
Proof.
  cbv zeta. unfold user_can_see_event, server_can_see_event. rewrite Hrec.
  destruct (history_visibility_spec race fuel s h st m Hs Hh Hf Hst Hm) as (s1 & -> & Hs1 & Hw1).
  destruct (queries_spec M _ user room HM Hu Hr) as (-> & _).
  destruct (scan_spec M _ room MJoined roomuserid_joined HM Hr) as (l & Hl & _ & Hin); [set_solver|].
  unfold room_members. rewrite Hw1, Hl.
  assert (∀ s' u, same_world s1 s' →
    (∃ s'', user_was_joined race fuel s' h u = (was_joined (member_in race (world s) m u), s'') ∧ same_world s1 s'') ∧
    (∃ s'', user_was_invited race fuel s' h u = (was_invited (member_in race (world s) m u), s'') ∧ same_world s1 s''))
    as Hwas.
  { intros s' u [Hs' Hw']. rewrite Hw1 in Hw'. rewrite <-Hw'.
    destruct (user_was_spec race fuel s' h st m u Hs' Hh Hf ltac:(by rewrite Hw') Hm)
      as [(a & -> & Ha & Haw) (b & -> & Hb & Hbw)]. split.
    - exists a. split; [done|split; [done|congruence]].
    - exists b. split; [done|split; [done|congruence]]. }
  assert (∀ x, was_joined x = true ↔ x = Join) as Hj by by intros [].
  assert (∀ x, was_invited x = true ↔ x = Invite ∨ x = Join) as Hi by (intros []; simpl; naive_solver).
  assert (∀ g, existsb g (filter (fun u => server_name u = origin) l) = true ↔
    ∃ u, valid_utf8 u ∧ M !! (u, room) = Some MJoined ∧ server_name u = origin ∧ g u = true) as Hex.
  { intros g. rewrite existsb_exists. split.
    - intros (u & Hu' & Hg). apply list_elem_of_In, list_elem_of_filter in Hu' as [Ho Hu']. apply Hin in Hu'.
      exists u. naive_solver.
    - intros (u & Hvu & HMu & Ho & Hg). exists u. split; [|done]. apply list_elem_of_In, list_elem_of_filter.
      split; [done|]. by apply Hin. }
  destruct (Hwas s1 user ltac:(done)) as [(a & Ha & _) (b & Hb & _)].
  destruct (visibility_in race (world s) m); cbn [fst].
  - rewrite Hb. cbn [fst]. rewrite Hi. split; [done|].
    rewrite (any_member_spec s1 _ (fun u => was_invited (member_in race (world s) m u)) )
      by (done || (intros; by apply Hwas)). rewrite Hex. setoid_rewrite Hi. done.
  - rewrite Ha. cbn [fst]. rewrite Hj. split; [done|].
    rewrite (any_member_spec s1 _ (fun u => was_joined (member_in race (world s) m u)) )
      by (done || (intros; by apply Hwas)). rewrite Hex. setoid_rewrite Hj. done.
  - by rewrite bool_decide_eq_true.
  - done.
Qed.
End Properties.

Module AccessorWitness.
Import CompressorWitness.
#[local] Existing Instances any_parsers no_digest cache_lru cache_laws.
(** Events are their bytes, which no content can be read from. *)
#[local] Instance raw_json : PduJson bytes := fun json => Some json.
#[local] Instance no_content : EventContent bytes :=
  {| membership_of _ := None; history_visibility_of _ := None |}.

Definition room : bytes := [33; 114].

Lemma nothing_represented : Hashed new_service.
Proof. by intros k n _. Qed.

Lemma small_states (st : CompressedState) : set_len st ≤ 1 → Small new_service st.
Proof. intros Hst. split; [lia|]. intros h ps Hl. by apply nothing_stored in Hl. Qed.

(** The first state event of a new room. *)
Lemma state_event_appended_witness : ∃ h s1 s2,
  append_to_state 4 new_service {| np_event_id := [36; 97]; np_kind := [109]; np_state_key := Some [] |} room
    = (Ok h, s1) ∧ set_room_state s1 room h = Ok s2 ∧
  ok (room_state_get_id 4 s2 room [109] []).1 = Some [36; 97].
Proof.
  destruct (state_event_appended 4 new_service room []
    {| np_event_id := [36; 97]; np_kind := [109]; np_state_key := Some [] |} ∅ ∅)
    as (h & s1 & s2 & H1 & H2 & _ & _ & H3 & _).
  - exact new_service_Stored.
  - exact nothing_represented.
  - lia.
  - vm_compute. discriminate.
  - reflexivity.
  - exact stack_represents_empty.
  - intros n e Hn. discriminate Hn.
  - intros st Hst. apply small_states. exact Hst.
  - reflexivity.
  - exact I.
  - exact I.
  - exact I.
  - exists h, s1, s2. split; [exact H1|]. split; [exact H2|].
    rewrite (H3 [109] [] I I). reflexivity.
Defined.

(** An event of another server, with the state before it: no visibility is set there. *)
Definition recorded : Service cache := (set_event_state 4 new_service [36] room sample).2.

Lemma sample_represents : represents {[1 := 2]} sample.
Proof.
  split.
  - intros k e [<- <-]%lookup_singleton_Some. word.
  - intros x. unfold sample. rewrite elem_of_singleton. split.
    + intros ->. exists 1, 2. by rewrite lookup_singleton_eq.
    + by intros (k & e & [<- <-]%lookup_singleton_Some & ->).
Qed.

Lemma recorded_state : ∃ h, Stored recorded ∧ is_u64 h ∧
  pdu_shortstatehash (world recorded) [36] = Ok h ∧ state_at (db (world recorded)) h sample.
Proof.
  destruct (set_event_state_spec 4 new_service room [36] sample)
    as (h & s' & Heq & Hs & _ & Hh & Hst & _ & _ & e & He & Hue & Hrec).
  - exact new_service_Stored.
  - exact nothing_represented.
  - lia.
  - vm_compute. discriminate.
  - exact sample_events.
  - exact sample_small.
  - exact sample_no_collision.
  - unfold recorded. rewrite Heq. cbn [snd]. pose proof (inv_counter _ (st_short s' Hs)).
    exists h. split; [exact Hs|]. split; [word|]. split; [|exact Hst].
    apply (pdu_shortstatehash_spec (world s') [36] e h (st_short s' Hs)); [exact Hue|word|exact He|].
    rewrite Hrec. apply lookup_insert_eq.
Qed.

Lemma no_members m c b : (c, b) ∈ rows m → db (world recorded) c = ∅.
Proof.
  intros Hin. assert (forallb (fun cb => bool_decide (db (world recorded) cb.1 = ∅))
    (rows MJoined ++ rows MInvited ++ rows MKnocked ++ rows MLeft) = true) as Hall by (vm_compute; reflexivity).
  rewrite forallb_forall in Hall. specialize (Hall (c, b)).
  rewrite bool_decide_eq_true in Hall. apply Hall, list_elem_of_In.
  clear Hall. rewrite !elem_of_app. destruct m; auto.
Qed.

Lemma recorded_members : Represents ∅ (db (world recorded)).
Proof.
  split.
  - intros u r m c b _ _ Hin. rewrite (no_members m c b Hin), lookup_empty, (lookup_empty (A := Member)).
    split; [by intros []|discriminate].
  - intros m c b x y Hin _. rewrite (no_members m c b Hin), lookup_empty. by intros [].
Qed.

(** The state has no visibility: the event is shared, with members and with every server. *)
Lemma visibility_correct_witness :
  (server_can_see_event (fun user => user) false 4 recorded [120] room [36]).1 = true ∧
  (user_can_see_event false 4 recorded [64] room [36]).1 = false.
Proof.
  destruct recorded_state as (h & Hs & Hh & Hrec & Hst).
  pose proof (visibility_correct (fun user => user) false 4 recorded ∅ [64] [120] room [36] h sample
    {[1 := 2]} Hs recorded_members ltac:(lia) Hh Hrec Hst sample_represents I I) as Hvis.
  cbv zeta in Hvis.
  assert (visibility_in false (world recorded) {[1 := 2]} = Shared) as Hv by (vm_compute; reflexivity).
  rewrite Hv in Hvis. destruct Hvis as [Hu Hsv]. split; [by apply Hsv|].
  destruct (user_can_see_event false 4 recorded [64] room [36]).1; [|reflexivity].
  pose proof (proj1 Hu eq_refl) as Hm. clear - Hm. rewrite (lookup_empty (A := Member)) in Hm.
  discriminate Hm.
Defined.

(** An event without a recorded state is seen by every user and by no server. *)
Example unrecorded_event :
  (user_can_see_event false 4 new_service [64] room [36]).1 = true ∧
  (server_can_see_event (fun user => user) false 4 new_service [120] room [36]).1 = false.
Proof. split; vm_compute; reflexivity. Qed.
End AccessorWitness.
