(* ===== verification/AuthChain.v ===== *)
(** Auth chains: which events an event's authorisation rests on, as numbers, with the caches in memory
    and on disk.  Source: src/src/service/rooms/auth_chain/mod.rs and data.rs.

    What of an event is read, its room and its auth events, is a parameter.  Buckets and starting
    events are worked off one after the other; the code runs several at once.  Searching
    is bounded by fuel. *)

From stdpp Require Import prelude gmap sorting.
From Stdlib Require Import ZArith Lia.
From S2P Require Import Prelude Cache Bytes DbSer Database PairKeys Short Timeline.

Local Open Scope Z_scope.

(** What [get_auth_chain_inner] reads of an event. *)
Class AuthPdu (P : Type) := {
  pdu_room_id : P → option bytes;
  pdu_auth_events : P → list bytes;
}.

(** The service's state: the database and the counter, and the cache in memory.
    @src src/src/service/rooms/auth_chain/data.rs:9-12 Data *)
Record Chains (C : Type) := { chain_world : World; auth_chain_cache : C }.
Arguments chain_world {C} _.
Arguments auth_chain_cache {C} _.

Definition with_chain_world {C} (s : Chains C) (w : World) : Chains C :=
  {| chain_world := w; auth_chain_cache := auth_chain_cache s |}.
Definition with_chain_cache {C} (s : Chains C) (c : C) : Chains C :=
  {| chain_world := chain_world s; auth_chain_cache := c |}.

(** The words of a chain on disk; what is left of less than a word is dropped. *)
Fixpoint words (n : nat) (bs : bytes) : list Z :=
  match n with
  | O => []
  | S n => from_be (take 8 bs) :: words n (drop 8 bs)
  end.
Definition chain_of_bytes (bs : bytes) : list Z := words (length bs / 8) bs.
Definition bytes_of_chain (chain : list Z) : bytes := concat (map (fun n => u64_to_be n) chain).

Section Data.
Context `{!Parsers} {C : Type} `{!Lru (list Z) (list Z) C}.

(** @src src/src/service/rooms/auth_chain/data.rs:27-63 Data::get_cached_eventid_authchain *)
Definition get_cached_eventid_authchain (s : Chains C) (key : list Z) :
    comp db_error (list Z) * Chains C :=
  let '(result, cache) := lru_get_mut (auth_chain_cache s) key in
  let s := with_chain_cache s cache in
  match result with
  | Some result => (Ok result, s)
  | None =>
      match key with
      | [k] =>
          match qry (db (chain_world s)) shorteventid_authchain (VU64 k) with
          | Err (Fail _) => (Err (Fail NotFound), s)
          | Err e => (Err e, s)
          | Ok chain =>
              let chain := chain_of_bytes chain in
              (Ok chain, with_chain_cache s (lru_insert (auth_chain_cache s) [k] chain))
          end
      | _ => (Err (Fail NotFound), s)
      end
  end.

(** Single events' chains are kept on disk, too.
    @src src/src/service/rooms/auth_chain/data.rs:65-81 Data::cache_auth_chain *)
Definition cache_auth_chain (s : Chains C) (key auth_chain : list Z) : Chains C :=
  let w := chain_world s in
  let s := match key with
           | [k] => with_chain_world s (with_db w
                      (insert (db w) shorteventid_authchain (u64_to_be k) (bytes_of_chain auth_chain)))
           | _ => s
           end in
  with_chain_cache s (lru_insert (auth_chain_cache s) key auth_chain).

(** @src src/src/service/rooms/auth_chain/mod.rs:249-249 Service::clear_cache *)
Definition clear_chains (s : Chains C) : Chains C :=
  with_chain_cache s (lru_clear (auth_chain_cache s)).
End Data.

Section AuthChain.
Context `{!Parsers} {P : Type} `{!PduJson P} `{!AuthPdu P}.
Context {C : Type} `{!Lru (list Z) (list Z) C} `{!HashIter Z}.

(** Auth events that were not found before are to be visited.
    @src src/src/service/rooms/auth_chain/mod.rs:206-217 Service::get_auth_chain_inner *)
Fixpoint add_auth_events (w : World) (todo : list bytes) (found : gset Z) (auth_events : list bytes) :
    comp db_error (list bytes * gset Z * World) :=
  match auth_events with
  | [] => Ok (todo, found, w)
  | auth_event :: auth_events =>
      '(sauthevent, w) ← get_or_create_shorteventid w auth_event;
      if decide (sauthevent ∈ found) then add_auth_events w todo found auth_events
      else add_auth_events w (todo ++ [auth_event]) ({[sauthevent]} ∪ found) auth_events
  end.

Definition wrong_room (pdu : P) (room_id : bytes) : bool :=
  match pdu_room_id pdu with Some claimed => bool_decide (claimed ≠ room_id) | None => false end.

(** [while let Some(event_id) = todo.pop_front()].
    @src src/src/service/rooms/auth_chain/mod.rs:187-220 Service::get_auth_chain_inner *)
Fixpoint visit_todo (fuel : nat) (race : bool) (room_id : bytes) (w : World) (todo : list bytes)
    (found : gset Z) : comp db_error (gset Z * World) :=
  match fuel with
  | O => Err OutOfFuel
  | S fuel =>
      match todo with
      | [] => Ok (found, w)
      | event_id :: todo =>
          match get_pdu race (db w) event_id with
          | Err (Fail _) => visit_todo fuel race room_id w todo found
          | Err e => Err e
          | Ok pdu =>
              if wrong_room pdu room_id then Err (Fail Forbidden)
              else
                '(todo, found, w) ← add_auth_events w todo found (pdu_auth_events pdu);
                visit_todo fuel race room_id w todo found
          end
      end
  end.

(** @src src/src/service/rooms/auth_chain/mod.rs:179-224 Service::get_auth_chain_inner *)
Definition get_auth_chain_inner (fuel : nat) (race : bool) (w : World) (room_id event_id : bytes) :
    comp db_error (list Z * World) :=
  '(found, w) ← visit_todo fuel race room_id w [event_id] ∅; Ok (iter_set found, w).

(** The chain of one event of a bucket.
    @src src/src/service/rooms/auth_chain/mod.rs:144-158 Service::get_auth_chain_outer *)
Definition event_chain (fuel : nat) (race : bool) (room_id : bytes) (s : Chains C) (event : Z * bytes) :
    comp db_error (list Z * Chains C) :=
  match get_cached_eventid_authchain s [event.1] with
  | (Ok cached, s) => Ok (cached, s)
  | (Err (Fail _), s) =>
      '(auth_chain, w) ← get_auth_chain_inner fuel race (chain_world s) room_id event.2;
      Ok (auth_chain, cache_auth_chain (with_chain_world s w) [event.1] auth_chain)
  | (Err e, s) => Err e
  end.

(** One after the other, until the first error. *)
Fixpoint collect {S A B E : Type} (f : S → A → comp E (B * S)) (s : S) (l : list A) :
    comp E (list B * S) :=
  match l with
  | [] => Ok ([], s)
  | x :: l => '(b, s) ← f s x; '(bs, s) ← collect f s l; Ok (b :: bs, s)
  end.

(** The chain of a bucket, from the cache or from its events.
    @src src/src/service/rooms/auth_chain/mod.rs:125-176 Service::get_auth_chain_outer *)
Definition get_auth_chain_outer (fuel : nat) (race : bool) (room_id : bytes) (s : Chains C)
    (chunk : list (Z * bytes)) : comp db_error (list Z * Chains C) :=
  let chunk_key := chunk.*1 in
  if decide (chunk_key = []) then Ok ([], s)
  else
    match get_cached_eventid_authchain s chunk_key with
    | (Ok cached, s) => Ok (cached, s)
    | (Err (Fail _), s) =>
        '(chains, s) ← collect (event_chain fuel race room_id) s chunk;
        let chunk_cache := dedup (sort (concat chains)) in
        Ok (chunk_cache, cache_auth_chain s chunk_key chunk_cache)
    | (Err e, s) => Err e
    end.

Definition NUM_BUCKETS : nat := 50.

(** A bucket's numbers and events, a [BTreeSet].
    @src src/src/service/rooms/auth_chain/mod.rs:88-93 Service::get_auth_chain *)
Definition bucket (pairs : list (Z * bytes)) (i : nat) : list (Z * bytes) :=
  dedup (sort (filter (fun p => p.1 `mod` Z.of_nat NUM_BUCKETS = Z.of_nat i) pairs)).

(** [starting_events], as the stream that looks their numbers up cuts them into chunks.
    @src src/src/service/rooms/auth_chain/mod.rs:70-123 Service::get_auth_chain *)
Definition get_auth_chain (fuel : nat) (race : bool) (s : Chains C) (room_id : bytes)
    (starting_events : list (list bytes)) : comp db_error (list Z * Chains C) :=
  '(shorts, w) ← multi_get_or_create_shorteventid (chain_world s) starting_events;
  let pairs := zip shorts (concat starting_events) in
  '(chains, s) ← collect (get_auth_chain_outer fuel race room_id) (with_chain_world s w)
                   (map (bucket pairs) (List.seq 0 NUM_BUCKETS));
  Ok (dedup (sort (concat chains)), s).

(** @src src/src/service/rooms/auth_chain/mod.rs:51-67 Service::event_ids_iter *)
Definition event_ids_iter (fuel : nat) (race : bool) (s : Chains C) (room_id : bytes)
    (starting_events : list (list bytes)) : comp db_error (list bytes * Chains C) :=
  '(chain, s) ← get_auth_chain fuel race s room_id starting_events;
  Ok (ignore_err (map (get_eventid_from_short (chain_world s)) chain), s).
End AuthChain.

(** * What auth chains promise: the numbers returned are exactly those of the events reached over auth
    events from the starting ones, whatever is cached, the search ends, and what is cached
    afterwards is right. *)

Local Open Scope Z_scope.

(** * Chains on disk *)

Lemma words_of_chain chain : Forall is_u64 chain → words (length chain) (bytes_of_chain chain) = chain.
Proof.
  induction 1 as [|n chain Hn Hc IH]; [done|]. unfold bytes_of_chain in *. cbn [map concat length words].
  rewrite take_8_to_be, drop_8_to_be, IH. f_equal. by apply u64_round_trip.
Qed.

Lemma bytes_of_chain_length chain : length (bytes_of_chain chain) = (8 * length chain)%nat.
Proof.
  unfold bytes_of_chain. induction chain as [|n chain IH]; [done|].
  cbn [map concat length]. rewrite length_app, IH, to_be_length. lia.
Qed.

Lemma chain_round_trip chain : Forall is_u64 chain → chain_of_bytes (bytes_of_chain chain) = chain.
Proof.
  intros Hc. unfold chain_of_bytes. rewrite bytes_of_chain_length, Nat.mul_comm, Nat.div_mul by lia.
  by apply words_of_chain.
Qed.

Section AuthChainSpec.
Context `{!Parsers} {P : Type} `{!PduJson P} `{!AuthPdu P}.

(** * The graph *)

(** An event's auth events, as the events stored say. *)
Definition auth_edge (race : bool) (d : Db) (a b : bytes) : Prop :=
  ∃ p : P, get_pdu race d a = Ok p ∧ b ∈ pdu_auth_events p.

(** [b] is reached from one of [ids] in one step or more. *)
Definition reached (race : bool) (d : Db) (ids : list bytes) (b : bytes) : Prop :=
  ∃ a, a ∈ ids ∧ tc (auth_edge race d) a b.

(** The number of an event. *)
Definition number (w : World) (id : bytes) (n : Z) : Prop :=
  is_u64 n ∧ db w eventid_shorteventid !! id = Some (u64_to_be n).

(** [chain] is the chain of the events [ids]. *)
Definition is_chain (race : bool) (w : World) (ids : list bytes) (chain : list Z) : Prop :=
  (∀ n, n ∈ chain ↔ ∃ b, reached race (db w) ids b ∧ number w b n) ∧
  (∀ b, reached race (db w) ids b → ∃ n, number w b n).

(** Drawing numbers and caching chains leave the rest. *)
Record grows (w w' : World) : Prop := {
  gr_inv : Inv w';
  gr_kept k v : db w eventid_shorteventid !! k = Some v → db w' eventid_shorteventid !! k = Some v;
  gr_plain c : plain_column c → c ≠ shorteventid_authchain → db w' c = db w c;
}.

Lemma grows_refl w : Inv w → grows w w.
Proof. by split. Qed.

Lemma grows_trans w w' w'' : grows w w' → grows w' w'' → grows w w''.
Proof.
  intros [_ Hk Hp] [Hi Hk' Hp']. split; [done|by eauto|]. intros c Hc Hn. by rewrite Hp', Hp.
Qed.

Lemma number_fun w id n m : number w id n → number w id m → n = m.
Proof. intros [Hn Hl] [Hm Hl']. apply u64_to_be_inj; [done..|congruence]. Qed.

Lemma number_inj w id id' n : Inv w → number w id n → number w id' n → id = id'.
Proof.
  intros Hw [_ Hl] [_ Hl'].
  by destruct (inv_unique w Hw eventid_shorteventid eventid_shorteventid _ _ _ I I Hl Hl').
Qed.

Lemma number_grows w w' id n : grows w w' → number w id n → number w' id n.
Proof. intros Hg [Hn Hl]. split; [done|]. by apply (gr_kept w w'). Qed.

Lemma get_pdu_grows race w w' id : grows w w' → get_pdu race (db w') id = get_pdu (P := P) race (db w) id.
Proof. intros Hg. apply get_pdu_same; intros; by rewrite (gr_plain w w' Hg). Qed.

Lemma auth_edge_grows race w w' a b : grows w w' → auth_edge race (db w') a b ↔ auth_edge race (db w) a b.
Proof. intros Hg. unfold auth_edge. by rewrite (get_pdu_grows race w w'). Qed.

Lemma reached_grows race w w' ids b : grows w w' → reached race (db w') ids b ↔ reached race (db w) ids b.
Proof.
  intros Hg.
  assert (∀ (R R' : relation bytes) x y, (∀ x y, R x y → R' x y) → tc R x y → tc R' x y) as Hmono
    by (intros R R' x y HR; induction 1; eauto using tc_once, tc_l).
  split; intros (a & Ha & Htc); exists a; (split; [done|]); (eapply Hmono; [|exact Htc]);
    intros x y Hxy; by apply (auth_edge_grows race w w').
Qed.

Lemma is_chain_grows race w w' ids chain : grows w w' → is_chain race w ids chain → is_chain race w' ids chain.
Proof.
  intros Hg [Hc Hn]. split.
  - intros n. rewrite Hc. split; intros (b & Hb & Hbn).
    + exists b. split; [by apply (reached_grows race w w')|by eapply number_grows].
    + apply (reached_grows race w w') in Hb; [|done]. exists b. split; [done|].
      destruct (Hn b Hb) as [m Hm]. by rewrite (number_fun w' b n m) by eauto using number_grows.
  - intros b Hb. apply (reached_grows race w w') in Hb; [|done].
    destruct (Hn b Hb) as [m Hm]. exists m. by eapply number_grows.
Qed.

(** Chains of the same events have the same numbers. *)
Lemma is_chain_perm race w ids ids' chain chain' : is_chain race w ids chain →
  (∀ id, id ∈ ids ↔ id ∈ ids') → (∀ n, n ∈ chain ↔ n ∈ chain') → is_chain race w ids' chain'.
Proof.
  intros [Hc Hn] Hids Hch.
  assert (∀ b, reached race (db w) ids' b ↔ reached race (db w) ids b) as Hr.
  { intros b. unfold reached. by setoid_rewrite <-Hids. }
  split; [intros n|intros b]; rewrite ?Hr; [|by apply Hn]. rewrite <-Hch, Hc. by setoid_rewrite Hr.
Qed.

Lemma is_chain_u64 race w ids chain : is_chain race w ids chain → Forall is_u64 chain.
Proof. intros [Hc _]. apply Forall_forall. intros n (b & _ & Hn & _)%Hc. done. Qed.

Lemma is_chain_nil race w : is_chain race w [] [].
Proof.
  assert (∀ b, ¬ reached race (db w) [] b) as Hr by by intros b (a & Ha%not_elem_of_nil & _).
  split; [intros n; split; [by intros ?%not_elem_of_nil|]|]; naive_solver.
Qed.

Lemma is_chain_app race w ids ids' chain chain' : is_chain race w ids chain → is_chain race w ids' chain' →
  is_chain race w (ids ++ ids') (chain ++ chain').
Proof.
  intros [Hc Hn] [Hc' Hn'].
  assert (∀ b, reached race (db w) (ids ++ ids') b ↔ reached race (db w) ids b ∨ reached race (db w) ids' b) as Hr.
  { intros b. unfold reached. setoid_rewrite elem_of_app. naive_solver. }
  split; [intros n|intros b]; rewrite ?elem_of_app, ?Hc, ?Hc', ?Hr; [|naive_solver].
  setoid_rewrite Hr. naive_solver.
Qed.

(** Many chains at once. *)
Lemma is_chain_concat race w (idss : list (list bytes)) chains :
  Forall2 (is_chain race w) idss chains → is_chain race w (concat idss) (concat chains).
Proof. induction 1; [apply is_chain_nil|]. by apply is_chain_app. Qed.
End AuthChainSpec.

(** * Searching *)

Section Search.
Context `{!Parsers} {P : Type} `{!PduJson P} `{!AuthPdu P} `{!HashIter Z} `{!HashIterLaws Z}.
Variables (race : bool) (room : bytes) (fin : gset bytes) (d0 : Db).

(** A set of events that holds the auth events of its members, none of another room. *)
Definition auth_closed : Prop :=
  (∀ a b, a ∈ fin → auth_edge (P := P) race d0 a b → b ∈ fin) ∧
  (∀ a (p : P), a ∈ fin → get_pdu race d0 a = Ok p → wrong_room p room = false) ∧
  (∀ a e, a ∈ fin → get_pdu (P := P) race d0 a = Err e → ∃ x, e = Fail x).

(** The members without a number yet. *)
Definition missing (w : World) : gset bytes :=
  filter (fun b => db w eventid_shorteventid !! b = None) fin.
Definition room_for (w : World) : Prop := counter w + Z.of_nat (size (missing w)) ≤ u64_max.

(** Worlds the search passes through. *)
Definition at_world (w : World) : Prop :=
  Inv w ∧ room_for w ∧ ∀ c, plain_column c → db w c = d0 c.

Lemma draw_number w b : at_world w → b ∈ fin → ∃ n w',
  get_or_create_shorteventid w b = Ok (n, w') ∧ grows w w' ∧ at_world w' ∧ number w' b n.
Proof.
  intros (Hw & Hr & Hp) Hb. pose proof (inv_counter w Hw) as Hmax. unfold get_or_create_shorteventid, get_shorteventid.
  rewrite get_number by done. destruct (db w eventid_shorteventid !! b) as [v|] eqn:Hv.
  - destruct (inv_issued w Hw eventid_shorteventid b v I Hv) as (n & Hn & ->).
    assert (from_be (u64_to_be n) = n) as -> by (apply u64_round_trip; word).
    exists n, w. split_and!; [done|by apply grows_refl|done|split; [word|done]].
  - assert (b ∈ missing w) as Hm by (apply elem_of_filter; done).
    assert (missing (issue w eventid_shorteventid b) ⊆ missing w ∖ {[b]}) as Hsub.
    { intros x [Hx Hxf]%elem_of_filter. rewrite issue_id, decide_True in Hx by done.
      apply lookup_insert_None in Hx as [Hx Hne]. apply elem_of_difference.
      split; [by apply elem_of_filter|set_solver]. }
    apply subseteq_size in Hsub. rewrite size_difference, size_singleton in Hsub by set_solver.
    assert (size (missing w) ≠ 0%nat) as Hne by (intros ?%size_empty_inv; set_solver).
    unfold room_for in Hr. rewrite create_shorteventid_spec by (done || word).
    pose proof (Inv_issue w eventid_shorteventid b Hw ltac:(word) I Hv) as Hi.
    assert (db (issue w eventid_shorteventid b) eventid_shorteventid =
      <[b := u64_to_be (counter w + 1)]> (db w eventid_shorteventid)) as Hid.
    { rewrite issue_id by done. by rewrite decide_True. }
    assert (grows w (issue w eventid_shorteventid b)) as Hg.
    { split; [done| |].
      - intros k v Hk. rewrite Hid. rewrite lookup_insert_ne; [done|]. intros <-. congruence.
      - intros c Hc _. by apply issue_plain. }
    eexists _, _. split; [done|]. split; [done|]. split.
    + split; [done|]. split; [unfold room_for; simpl; lia|].
      intros c Hc. by rewrite issue_plain, Hp.
    + split; [word|]. rewrite Hid. apply lookup_insert_eq.
Qed.

Lemma at_world_edge w : at_world w → ∀ a, get_pdu race (db w) a = get_pdu (P := P) race d0 a.
Proof. intros (_ & _ & Hp) a. by apply get_pdu_same; intros; rewrite Hp. Qed.

(** The numbers found are those of a set of events. *)
Definition numbers_of (w : World) (F : gset bytes) (found : gset Z) : Prop :=
  (∀ n, n ∈ found ↔ ∃ b, b ∈ F ∧ number w b n) ∧ (∀ b, b ∈ F → ∃ n, number w b n).

Lemma numbers_grow w w' F found : grows w w' → numbers_of w F found → numbers_of w' F found.
Proof.
  intros Hg [Hf Hn]. split.
  - intros n. rewrite Hf. split; intros (b & Hb & Hbn); exists b; (split; [done|]).
    + by eapply number_grows.
    + destruct (Hn b Hb) as [m Hm]. by rewrite (number_fun w' b n m) by eauto using number_grows.
  - intros b Hb. destruct (Hn b Hb) as [m Hm]. exists m. by eapply number_grows.
Qed.

Lemma numbers_mem w F found b n : at_world w → numbers_of w F found → number w b n → n ∈ found ↔ b ∈ F.
Proof.
  intros (Hw & _) [Hf _] Hb. rewrite Hf. split; [|by eauto].
  intros (b' & Hb' & Hn). by rewrite (number_inj w b b' n).
Qed.

Lemma add_auth_events_spec events : ∀ w todo found F, at_world w → numbers_of w F found →
  (∀ b, b ∈ events → b ∈ fin) → ∃ new found' w',
  add_auth_events w todo found events = Ok (todo ++ new, found', w') ∧
  grows w w' ∧ at_world w' ∧ numbers_of w' (F ∪ list_to_set events) found' ∧
  NoDup new ∧ (∀ b, b ∈ new ↔ b ∈ events ∧ b ∉ F).
Proof.
  induction events as [|b events IH]; intros w todo found F Hw HF Hfin.
  { exists [], found, w. rewrite app_nil_r. split_and!; try done; [by apply grows_refl, Hw| |constructor|].
    - by replace (F ∪ list_to_set []) with F by set_solver.
    - set_solver. }
  destruct (draw_number w b Hw ltac:(apply Hfin; by left)) as (n & w1 & Heq & Hg & Hw1 & Hn).
  cbn [add_auth_events]. rewrite Heq. cbn [mbind result_bind].
  pose proof (numbers_grow w w1 F found Hg HF) as HF1. pose proof (numbers_mem w1 F found b n Hw1 HF1 Hn) as Hmem.
  case_decide as Hin.
  - destruct (IH w1 todo found F) as (new & found' & w' & -> & Hg' & Hw' & HF' & Hnd & Hnew);
      [done|done|set_solver|].
    exists new, found', w'. split_and!; try done; [by eapply grows_trans| |].
    + by replace (F ∪ list_to_set (b :: events)) with (F ∪ list_to_set events) by set_solver.
    + intros x. rewrite Hnew. set_solver.
  - destruct (IH w1 (todo ++ [b]) ({[n]} ∪ found) ({[b]} ∪ F))
      as (new & found' & w' & -> & Hg' & Hw' & HF' & Hnd & Hnew); [done| |set_solver|].
    { destruct HF1 as [Hf1 Hn1]. split.
      - intros m. rewrite elem_of_union, elem_of_singleton, Hf1. split.
        + intros [->|(x & Hx & Hxm)]; [exists b; set_solver|exists x; set_solver].
        + intros (x & [->%elem_of_singleton|Hx]%elem_of_union & Hxm); [left; by eapply number_fun|right; eauto].
      - intros x [->%elem_of_singleton|Hx]%elem_of_union; eauto. }
    exists (b :: new), found', w'. rewrite <-app_assoc. split_and!; try done; [by eapply grows_trans| | |].
    + by replace (F ∪ list_to_set (b :: events)) with ({[b]} ∪ F ∪ list_to_set events) by set_solver.
    + constructor; [|done]. rewrite Hnew. set_solver.
    + intros x. assert (b ∉ F) as HbF by by rewrite <-Hmem.
      rewrite !elem_of_cons, Hnew, elem_of_union, elem_of_singleton.
      clear -HbF. destruct (decide (x = b)) as [->|]; naive_solver.
Qed.

(** While searching: what was found is reached, and the found events that do not wait have had
    their auth events added. *)
Record searching (e0 : bytes) (todo : list bytes) (F : gset bytes) : Prop := {
  se_fin : e0 ∈ fin;
  se_found b : b ∈ F → tc (auth_edge (P := P) race d0) e0 b ∧ b ∈ fin;
  se_todo b : b ∈ todo → b = e0 ∨ b ∈ F;
  se_done a b : a = e0 ∨ a ∈ F → a ∉ todo → auth_edge (P := P) race d0 a b → b ∈ F;
}.

Lemma searching_step e0 a todo F events new : auth_closed → searching e0 (a :: todo) F →
  (∀ b, auth_edge (P := P) race d0 a b ↔ b ∈ events) → (∀ b, b ∈ new ↔ b ∈ events ∧ b ∉ F) →
  searching e0 (todo ++ new) (F ∪ list_to_set events).
Proof.
  intros (Hcl & _) [Hfin Hfound Htodo Hdone] Hev Hnew.
  assert (a ∈ fin) as Ha by (destruct (Htodo a) as [->|?]; [by left|done|by apply Hfound]).
  split; [done|..].
  - intros b [Hb|Hb]%elem_of_union; [by apply Hfound|]. rewrite elem_of_list_to_set in Hb.
    apply Hev in Hb as Hedge. split; [|by apply (Hcl a)].
    destruct (Htodo a) as [->|Haf]; [by left|by apply tc_once|]. eapply tc_r; [by apply Hfound|done].
  - intros b [Hb|[Hb _]%Hnew]%elem_of_app; [|set_solver]. destruct (Htodo b); set_solver.
  - intros x b Hx Hn Hedge. destruct (decide (x = a)) as [->|Hne].
    { apply Hev in Hedge. set_solver. }
    apply elem_of_union_l. apply (Hdone x); [|set_solver|done].
    destruct Hx as [->|[?|Hx]%elem_of_union]; [by left|by right|]. right.
    destruct (decide (x ∈ F)); [done|]. exfalso. apply Hn, elem_of_app. right. apply Hnew. set_solver.
Qed.

Lemma searching_end e0 F : searching e0 [] F → ∀ b, b ∈ F ↔ reached (P := P) race d0 [e0] b.
Proof.
  intros [_ Hfound _ Hdone] b. split.
  - intros [Hb _]%Hfound. exists e0. split; [by left|done].
  - intros (a & ->%list_elem_of_singleton & Htc).
    assert (∀ x y, tc (auth_edge (P := P) race d0) x y → x = e0 ∨ x ∈ F → y ∈ F) as Hall.
    { induction 1 as [x y He|x y z He _ IH]; intros Hx; [by apply (Hdone x); [|set_solver|]|].
      apply IH. right. by apply (Hdone x); [|set_solver|]. }
    apply (Hall e0 b Htc). by left.
Qed.

Lemma found_size (F : gset bytes) (events new : list bytes) : NoDup new →
  (∀ b, b ∈ new ↔ b ∈ events ∧ b ∉ F) → size (F ∪ list_to_set events) = (size F + length new)%nat.
Proof.
  intros Hnd Hnew. rewrite <-(size_list_to_set (C := gset bytes) new Hnd), <-size_union.
  - f_equal. apply set_eq. intros b. rewrite !elem_of_union, !elem_of_list_to_set, Hnew.
    destruct (decide (b ∈ F)); naive_solver.
  - intros b Hb. rewrite elem_of_list_to_set, Hnew. naive_solver.
Qed.

Lemma visit_todo_spec e0 fuel : auth_closed → ∀ w todo F found, at_world w → numbers_of w F found →
  searching e0 todo F → (length todo + (size fin - size F) < fuel)%nat → ∃ F' found' w',
  visit_todo (P := P) fuel race room w todo found = Ok (found', w') ∧
  grows w w' ∧ at_world w' ∧ numbers_of w' F' found' ∧ searching e0 [] F'.
Proof.
  intros Hcl. induction fuel as [|fuel IH]; intros w todo F found Hw HF Hs Hfuel; [lia|].
  destruct todo as [|a todo]; cbn [visit_todo].
  { exists F, found, w. split_and!; try done. apply grows_refl, Hw. }
  assert (a ∈ fin) as Ha.
  { destruct (se_todo _ _ _ Hs a) as [->|Hx]; [by left|apply Hs|by apply (se_found _ _ _ Hs)]. }
  rewrite (at_world_edge w Hw a). simpl in Hfuel. destruct Hcl as (Hcl & Hroom & Herr).
  destruct (get_pdu race d0 a) as [p|e] eqn:Hp.
  - rewrite (Hroom a p Ha Hp).
    destruct (add_auth_events_spec (pdu_auth_events p) w todo found F Hw HF)
      as (new & found1 & w1 & -> & Hg1 & Hw1 & HF1 & Hnd & Hnew).
    { intros b Hb. apply (Hcl a b Ha). by exists p. }
    cbn [mbind result_bind].
    assert (searching e0 (todo ++ new) (F ∪ list_to_set (pdu_auth_events p))) as Hs1.
    { apply (searching_step e0 a); [done|done| |done]. intros b. unfold auth_edge. rewrite Hp.
      split; [by intros (? & [= <-] & ?)|by exists p]. }
    destruct (IH w1 (todo ++ new) _ found1 Hw1 HF1 Hs1) as (F' & found' & w' & -> & Hg & Hrest).
    { rewrite length_app, (found_size _ _ new) by done.
      assert (size (F ∪ list_to_set (pdu_auth_events p)) ≤ size fin)%nat as Hle
        by (apply subseteq_size; intros b Hb; by apply (se_found _ _ _ Hs1)).
      rewrite (found_size _ _ new) in Hle by done. lia. }
    exists F', found', w'. split; [done|]. split; [by eapply grows_trans|done].
  - destruct (Herr a e Ha Hp) as [x ->].
    destruct (IH w todo F found Hw HF) as (F' & found' & w' & -> & Hrest); [|lia|by exists F', found', w'].
    pose proof (searching_step e0 a todo F [] [] (conj Hcl (conj Hroom Herr)) Hs) as Hs1.
    rewrite app_nil_r in Hs1. replace (F ∪ list_to_set []) with F in Hs1 by set_solver. apply Hs1.
    + intros b. unfold auth_edge. rewrite Hp. split; [by intros (? & ? & _)|by intros ?%not_elem_of_nil].
    + set_solver.
Qed.

(** The search ends, with the chain. *)
Lemma get_auth_chain_inner_spec fuel w id : auth_closed → at_world w → id ∈ fin → (size fin + 1 < fuel)%nat →
  ∃ chain w', get_auth_chain_inner (P := P) fuel race w room id = Ok (chain, w') ∧
  grows w w' ∧ at_world w' ∧ is_chain (P := P) race w' [id] chain.
Proof.
  intros Hcl Hw Hid Hfuel. unfold get_auth_chain_inner.
  destruct (visit_todo_spec id fuel Hcl w [id] ∅ ∅) as (F & found & w' & -> & Hg & Hw' & [Hf Hn] & Hs).
  - done.
  - split; set_solver.
  - split; [done|set_solver|set_solver|]. intros a b [->|?] Hna; set_solver.
  - simpl. lia.
  - cbn [mbind result_bind]. exists (iter_set found), w'. split_and!; try done.
    assert (∀ b, reached (P := P) race (db w') [id] b ↔ b ∈ F) as Hr.
    { intros b. rewrite (searching_end id F Hs).
      assert (∀ (d d' : Db) b, (∀ a, get_pdu race d a = get_pdu (P := P) race d' a) →
        reached (P := P) race d [id] b → reached (P := P) race d' [id] b) as Hext.
      { intros d d' x Hd (a & Ha & Htc). exists a. split; [done|]. clear Ha.
        assert (∀ x y, auth_edge (P := P) race d x y → auth_edge (P := P) race d' x y) as He
          by (intros ?? (p & Hp & ?); exists p; by rewrite <-Hd).
        induction Htc; eauto using tc_once, tc_l. }
      split; apply Hext; intros a; by rewrite (at_world_edge w' Hw'). }
    split.
    + intros n. rewrite iter_set_perm, elem_of_elements, Hf. by setoid_rewrite Hr.
    + intros b Hb. apply Hn. by apply Hr.
Qed.
End Search.

(** * The caches *)

Section Service.
Context `{!Parsers} {P : Type} `{!PduJson P} `{!AuthPdu P} `{!HashIter Z} `{!HashIterLaws Z}.
Context {C : Type} `{!Lru (list Z) (list Z) C} `{!LruLaws (list Z) (list Z) C}.
Variables (race : bool) (room : bytes) (fin : gset bytes) (d0 : Db).
Abbreviation chain_in w := (is_chain (P := P) race w).

(** What is cached, in memory and on disk, are the chains of the events of the key. *)
Record Coherent (s : Chains C) : Prop := {
  co_memory key chain : lru_peek (auth_chain_cache s) key = Some chain →
    ∃ ids, Forall2 (number (chain_world s)) ids key ∧ chain_in (chain_world s) ids chain;
  co_disk k v : db (chain_world s) shorteventid_authchain !! k = Some v →
    ∃ id n, k = u64_to_be n ∧ number (chain_world s) id n ∧
      chain_in (chain_world s) [id] (chain_of_bytes v);
}.

Lemma qry_u64 (d : Db) c n : qry d c (VU64 n) = get d c (u64_to_be n).
Proof. done. Qed.

Lemma numbers_inj w ids ids' key : Inv w → Forall2 (number w) ids key → Forall2 (number w) ids' key → ids = ids'.
Proof.
  intros Hw Hn. revert ids'. induction Hn as [|id n ids key Hn _ IH]; intros ids' Hn'; inversion Hn'; subst; [done|].
  f_equal; [by eapply number_inj|by apply IH].
Qed.

Lemma numbers_grows w w' ids key : grows w w' → Forall2 (number w) ids key → Forall2 (number w') ids key.
Proof. intros Hg Hn. eapply Forall2_impl; [exact Hn|]. intros. by eapply number_grows. Qed.

(** A new world that keeps the chains on disk. *)
Lemma Coherent_world s w : Coherent s → grows (chain_world s) w →
  db w shorteventid_authchain = db (chain_world s) shorteventid_authchain → Coherent (with_chain_world s w).
Proof.
  intros [Hm Hd] Hg Heq. split; simpl.
  - intros key chain Hk. destruct (Hm key chain Hk) as (ids & Hn & Hc). exists ids.
    split; [by eapply numbers_grows|by eapply is_chain_grows].
  - intros k v. rewrite Heq. intros Hk. destruct (Hd k v Hk) as (id & n & -> & Hn & Hc). exists id, n.
    split_and!; [done|by eapply number_grows|by eapply is_chain_grows].
Qed.

(** Reading the caches. *)
Lemma get_cached_spec s ids key : Inv (chain_world s) → Coherent s → Forall2 (number (chain_world s)) ids key →
  ∃ r s', get_cached_eventid_authchain s key = (r, s') ∧ Coherent s' ∧ chain_world s' = chain_world s ∧
  (r = Err (Fail NotFound) ∨ ∃ chain, r = Ok chain ∧ chain_in (chain_world s) ids chain).
Proof.
  intros Hw [Hm Hd] Hn. unfold get_cached_eventid_authchain.
  pose proof (Hm key) as Hkey. unfold lru_peek in Hkey.
  pose proof (lru_peek_get (V := list Z) (auth_chain_cache s) key) as Hpeek.
  destruct (lru_get_mut (auth_chain_cache s) key) as [[chain|] cache]; simpl in Hkey, Hpeek.
  { eexists _, _. split; [done|]. split; [split; simpl; [intros k c; rewrite Hpeek; apply Hm|done]|].
    split; [done|]. right. exists chain. split; [done|]. destruct (Hkey chain eq_refl) as (ids' & Hn' & Hc).
    by rewrite (numbers_inj (chain_world s) ids ids' key). }
  assert (Coherent (with_chain_cache s cache)) as Hc1
    by (split; simpl; [intros k c; rewrite Hpeek; apply Hm|done]).
  destruct Hn as [|id n ids key Hn Hns]; [eexists _, _; split_and!; [done|done|done|by left]|].
  destruct Hns as [|? ? ? ? ? ?]; [|eexists _, _; split_and!; [done|done|done|by left]].
  rewrite qry_u64. unfold get. simpl db.
  destruct (db (chain_world s) shorteventid_authchain !! u64_to_be n) as [v|] eqn:Hv;
    cbn [ok_or_fail ok_or]; [|eexists _, _; split_and!; [done|done|done|by left]].
  destruct (Hd _ v Hv) as (id' & n' & Heq & Hn' & Hc). apply u64_to_be_inj in Heq as <-; [|apply Hn|apply Hn'].
  assert (id' = id) as -> by by eapply number_inj.
  eexists _, _. split; [done|]. split; [|split; [done|right; by eexists]].
  split; simpl; [|done]. intros k c [[-> ->]|Hk]%lru_peek_insert; [|apply Hm; by rewrite <-Hpeek].
  exists [id]. split; [by constructor|done].
Qed.

(** Worlds between the service's steps. *)
Definition served (w : World) : Prop :=
  Inv w ∧ room_for fin w ∧ ∀ c, plain_column c → c ≠ shorteventid_authchain → db w c = d0 c.

(** Filling the caches. *)
Lemma cache_spec s ids key chain : served (chain_world s) → Coherent s →
  Forall2 (number (chain_world s)) ids key → chain_in (chain_world s) ids chain →
  let s' := cache_auth_chain s key chain in
  Coherent s' ∧ served (chain_world s') ∧ grows (chain_world s) (chain_world s').
Proof.
  intros Hat Hco Hn Hc. pose proof Hat as (Hw & Hr & Hp).
  assert (∀ (s : Chains C), Coherent s → Forall2 (number (chain_world s)) ids key →
    chain_in (chain_world s) ids chain →
    Coherent (with_chain_cache s (lru_insert (auth_chain_cache s) key chain))) as Hmem.
  { intros s1 [Hm1 Hd1] Hn1 Hc1. split; simpl; [|done].
    intros k c [[-> ->]|Hk]%lru_peek_insert; [by exists ids|by apply Hm1]. }
  cbv zeta. unfold cache_auth_chain. destruct Hn as [|id n ids key Hn Hns];
    [split; [by apply Hmem|split; [done|by apply grows_refl]]|].
  destruct Hns as [|? ? ? ? ? ?]; [|split; [apply Hmem; [done|by auto using Forall2_cons_2|done]|split; [done|by apply grows_refl]]].
  set (w' := with_db _ _).
  assert (∀ c, c ≠ shorteventid_authchain → db w' c = db (chain_world s) c) as Hcol
    by by intros c Hne; apply insert_other.
  assert (grows (chain_world s) w') as Hg.
  { split; [|intros k v; by rewrite Hcol|intros; by apply Hcol]. apply Inv_plain; [done|].
    intros c Hpc. apply insert_other. by intros ->. }
  assert (Coherent (with_chain_world s w')) as Hco'.
  { destruct Hco as [Hm Hd]. split; simpl.
    - intros k c Hk. destruct (Hm k c Hk) as (ids' & ? & ?). exists ids'.
      split; [by eapply numbers_grows|by eapply is_chain_grows].
    - intros k v. rewrite insert_same. intros [[<- <-]|[_ Hk]]%lookup_insert_Some.
      + exists id, n. rewrite chain_round_trip by by eapply is_chain_u64.
        split_and!; [done|by eapply number_grows|by eapply is_chain_grows].
      + destruct (Hd k v Hk) as (id' & n' & ? & ? & ?). exists id', n'.
        split_and!; [done|by eapply number_grows|by eapply is_chain_grows]. }
  split; [|split; [|done]].
  - apply (Hmem (with_chain_world s w')); [done| |by eapply is_chain_grows].
    constructor; [by eapply number_grows|constructor].
  - split; [apply Hg|]. split; [|intros c Hpc Hne; simpl; by rewrite insert_other, Hp].
    unfold room_for, missing. simpl. by rewrite insert_other.
Qed.

(** * The chain *)

Definition good (s : Chains C) : Prop := served (chain_world s) ∧ Coherent s.

(** [collect] of a step that keeps the state good. *)
Lemma collect_spec {A B} (f : Chains C → A → comp db_error (B * Chains C))
    (Pre : World → A → Prop) (Post : World → A → B → Prop) :
  (∀ w w' x, grows w w' → Pre w x → Pre w' x) →
  (∀ w w' x b, grows w w' → Post w x b → Post w' x b) →
  (∀ s x, good s → Pre (chain_world s) x → ∃ b s', f s x = Ok (b, s') ∧ good s' ∧
    grows (chain_world s) (chain_world s') ∧ Post (chain_world s') x b) →
  ∀ l s, good s → Forall (Pre (chain_world s)) l → ∃ bs s', collect f s l = Ok (bs, s') ∧ good s' ∧
    grows (chain_world s) (chain_world s') ∧ Forall2 (Post (chain_world s')) l bs.
Proof.
  intros HPre HPost Hf. induction l as [|x l IH]; intros s Hs Hl; cbn [collect].
  { exists [], s. split_and!; [done|done|apply grows_refl, Hs|constructor]. }
  apply Forall_cons in Hl as [Hx Hl]. destruct (Hf s x Hs Hx) as (b & s1 & -> & Hs1 & Hg1 & Hb).
  cbn [mbind result_bind].
  destruct (IH s1 Hs1) as (bs & s' & -> & Hs' & Hg & Hbs); [by eapply Forall_impl; eauto|].
  cbn [mbind result_bind]. exists (b :: bs), s'. split; [done|]. split; [done|].
  split; [by eapply grows_trans|]. constructor; [by eapply HPost|done].
Qed.

Variable fuel : nat.
Hypothesis closed : auth_closed (P := P) race room fin d0.
Hypothesis enough : (size fin + 1 < fuel)%nat.

(** A numbered event of the set. *)
Definition start_event (w : World) (event : Z * bytes) : Prop := number w event.2 event.1 ∧ event.2 ∈ fin.

Lemma start_event_grows w w' e : grows w w' → start_event w e → start_event w' e.
Proof. intros Hg [Hn Hf]. split; [by eapply number_grows|done]. Qed.

(** A search from a world between steps. *)
Lemma search_spec w id : served w → id ∈ fin → ∃ chain w',
  get_auth_chain_inner (P := P) fuel race w room id = Ok (chain, w') ∧ grows w w' ∧
  db w' shorteventid_authchain = db w shorteventid_authchain ∧ served w' ∧ chain_in w' [id] chain.
Proof.
  intros (Hw & Hr & Hp) Hid. destruct closed as (Hcl & Hroom & Herr).
  assert (∀ a, get_pdu race (db w) a = get_pdu (P := P) race d0 a) as Hget
    by (intros a; by apply get_pdu_same; intros; rewrite Hp).
  destruct (get_auth_chain_inner_spec race room fin (db w) fuel w id)
    as (chain & w' & Heq & Hg & (Hw' & Hr' & Hp') & Hc).
  - split_and!; intros a; unfold auth_edge; rewrite ?Hget; [|apply Hroom|apply Herr].
    intros b Ha Hb. by apply (Hcl a b).
  - done.
  - done.
  - done.
  - exists chain, w'. split_and!; try done; [by apply Hp'|]. split_and!; [done|done|].
    intros c Hc' Hne. by rewrite Hp', Hp.
Qed.

Lemma event_chain_spec s event : good s → start_event (chain_world s) event → ∃ chain s',
  event_chain (P := P) fuel race room s event = Ok (chain, s') ∧ good s' ∧
  grows (chain_world s) (chain_world s') ∧ chain_in (chain_world s') [event.2] chain.
Proof.
  intros [Hw Hco] [Hn Hf]. unfold event_chain.
  destruct (get_cached_spec s [event.2] [event.1] (proj1 Hw) Hco) as (r & s1 & -> & Hco1 & Hw1 & Hr);
    [by constructor; [|constructor]|].
  destruct Hr as [->|(chain & -> & Hc)].
  2:{ exists chain, s1. unfold good. rewrite Hw1. split_and!; try done. apply grows_refl, Hw. }
  destruct (search_spec (chain_world s1) event.2) as (chain & w' & -> & Hg & Hdisk & Hw' & Hc);
    [by rewrite Hw1|done|].
  cbn [mbind result_bind].
  pose proof (Coherent_world s1 w' Hco1 Hg Hdisk) as Hco2. rewrite Hw1 in Hg.
  destruct (cache_spec (with_chain_world s1 w') [event.2] [event.1] chain) as (Hco' & Hat' & Hg'); try done.
  { constructor; [by eapply number_grows|constructor]. }
  eexists _, _. split; [done|]. split; [done|]. split; [by eapply grows_trans|by eapply is_chain_grows].
Qed.

Lemma sorted_chain race' w ids (chains : list (list Z)) : is_chain (P := P) race' w ids (concat chains) →
  is_chain (P := P) race' w ids (dedup (sort (concat chains))).
Proof.
  intros Hc. eapply is_chain_perm; [exact Hc|done|]. intros n. by rewrite dedup_elem, elem_of_sort.
Qed.

Lemma get_auth_chain_outer_spec s chunk : good s → Forall (start_event (chain_world s)) chunk → ∃ chain s',
  get_auth_chain_outer (P := P) fuel race room s chunk = Ok (chain, s') ∧ good s' ∧
  grows (chain_world s) (chain_world s') ∧ chain_in (chain_world s') chunk.*2 chain.
Proof.
  intros Hs Hchunk. pose proof Hs as [Hw Hco]. unfold get_auth_chain_outer. cbv zeta. case_decide as Hnil.
  { apply fmap_nil_inv in Hnil as ->. exists [], s. split_and!; try done; [apply grows_refl, Hw|apply is_chain_nil]. }
  assert (∀ w, Forall (start_event w) chunk → Forall2 (number w) chunk.*2 chunk.*1) as Hnum.
  { intros w Hc. apply Forall2_fmap, Forall_Forall2_diag. eapply Forall_impl; [exact Hc|]. by intros e [? _]. }
  destruct (get_cached_spec s chunk.*2 chunk.*1 (proj1 Hw) Hco) as (r & s1 & -> & Hco1 & Hw1 & Hr); [by apply Hnum|].
  destruct Hr as [->|(chain & -> & Hc)].
  2:{ exists chain, s1. unfold good. rewrite Hw1. split_and!; try done. apply grows_refl, Hw. }
  destruct (collect_spec (event_chain (P := P) fuel race room) start_event
    (fun w e chain => chain_in w [e.2] chain)) with (l := chunk) (s := s1)
    as (chains & s2 & -> & Hs2 & Hg & Hchains).
  - apply start_event_grows.
  - intros. by eapply is_chain_grows.
  - apply event_chain_spec.
  - unfold good. by rewrite Hw1.
  - by rewrite Hw1.
  - rewrite Hw1 in Hg. cbn [mbind result_bind].
    assert (chain_in (chain_world s2) chunk.*2 (dedup (sort (concat chains)))) as Hc.
    { apply sorted_chain. assert (chunk.*2 = concat (map (fun e => [e.2]) chunk)) as ->
        by (clear; induction chunk as [|e chunk IH]; [done|]; csimpl; by rewrite IH).
      apply is_chain_concat. by rewrite Forall2_fmap_l. }
    destruct (cache_spec s2 chunk.*2 chunk.*1 (dedup (sort (concat chains)))) as (Hco' & Hw' & Hg');
      [apply Hs2|apply Hs2| |done|].
    { apply Hnum. eapply Forall_impl; [exact Hchunk|]. intros. by eapply start_event_grows. }
    eexists _, _. split; [done|]. split; [done|]. split; [by eapply grows_trans|by eapply is_chain_grows].
Qed.

(** The numbers of the starting events. *)
Lemma starting_numbers ids w : served w → (∀ id, id ∈ ids → id ∈ fin) → ∃ ns w',
  get_or_create_each w ids = Ok (ns, w') ∧ grows w w' ∧
  db w' shorteventid_authchain = db w shorteventid_authchain ∧ served w' ∧ Forall2 (number w') ids ns.
Proof.
  revert w. induction ids as [|id ids IH]; intros w Hw Hids.
  { exists [], w. split_and!; try done. apply grows_refl, Hw. }
  pose proof Hw as (Hi & Hr & Hp).
  destruct (draw_number fin (db w) w id) as (n & w1 & Heq & Hg1 & (Hi1 & Hr1 & Hp1) & Hn);
    [done|apply Hids; by left|].
  cbn [get_or_create_each]. rewrite Heq. cbn [mbind result_bind].
  destruct (IH w1) as (ns & w' & -> & Hg & Hdisk & Hw' & Hns).
  { split_and!; [done|done|]. intros c Hc Hne. by rewrite Hp1, Hp. }
  { intros x Hx. apply Hids. by right. }
  exists (n :: ns), w'. split; [done|]. split; [by eapply grows_trans|].
  split; [by rewrite Hdisk, Hp1|]. split; [done|]. constructor; [by eapply number_grows|done].
Qed.

(** The buckets hold every pair. *)
Lemma buckets_elem (pairs : list (Z * bytes)) p :
  p ∈ concat (map (bucket pairs) (List.seq 0 NUM_BUCKETS)) ↔ p ∈ pairs.
Proof.
  rewrite list_elem_of_In, in_concat. setoid_rewrite in_map_iff.
  setoid_rewrite <-list_elem_of_In. unfold bucket. split.
  - intros (l & (i & <- & _) & Hp). rewrite dedup_elem, elem_of_sort, list_elem_of_filter in Hp. apply Hp.
  - intros Hp. eexists. split.
    + exists (Z.to_nat (p.1 `mod` 50)). split; [done|]. apply list_elem_of_In, in_seq. unfold NUM_BUCKETS.
      pose proof (Z.mod_pos_bound p.1 50). lia.
    + rewrite dedup_elem, elem_of_sort, list_elem_of_filter. split; [|done]. unfold NUM_BUCKETS.
      pose proof (Z.mod_pos_bound p.1 50). rewrite Z2Nat.id; lia.
Qed.

Lemma get_auth_chain_spec s starts : good s → NoDup (concat starts) →
  counter (chain_world s) + Z.of_nat (length (concat starts)) ≤ u64_max →
  (∀ id, id ∈ concat starts → id ∈ fin) → ∃ chain s',
  get_auth_chain (P := P) fuel race s room starts = Ok (chain, s') ∧ good s' ∧
  grows (chain_world s) (chain_world s') ∧ StronglySorted ord_lt chain ∧
  chain_in (chain_world s') (concat starts) chain.
Proof.
  intros [Hw Hco] Hnd Hlen Hfin. unfold get_auth_chain. rewrite multi_spec by (done || apply Hw).
  destruct (starting_numbers (concat starts) (chain_world s) Hw Hfin) as (ns & w1 & -> & Hg1 & Hdisk & Hw1 & Hns).
  cbn [mbind result_bind]. cbv zeta. pose proof (Coherent_world s w1 Hco Hg1 Hdisk) as Hco1.
  set (pairs := zip ns (concat starts)).
  assert (Forall (start_event w1) pairs) as Hpairs.
  { apply Forall_forall. intros [n id] Hp. unfold pairs in Hp.
    apply elem_of_lookup_zip_with in Hp as (i & n' & id' & Heq & Hi & Hi'). simplify_eq.
    split; [|apply Hfin; by eapply list_elem_of_lookup_2].
    by destruct (Forall2_lookup_lr _ _ _ _ _ _ Hns Hi' Hi). }
  destruct (collect_spec (get_auth_chain_outer (P := P) fuel race room)
    (fun w chunk => Forall (start_event w) chunk) (fun w chunk chain => chain_in w chunk.*2 chain))
    with (l := map (bucket pairs) (List.seq 0 NUM_BUCKETS)) (s := with_chain_world s w1)
    as (chains & s2 & -> & Hs2 & Hg & Hchains).
  - intros w w' chunk Hg Hc. eapply Forall_impl; [exact Hc|]. intros. by eapply start_event_grows.
  - intros. by eapply is_chain_grows.
  - apply get_auth_chain_outer_spec.
  - done.
  - apply Forall_forall. intros l (i & -> & _)%list_elem_of_fmap. apply Forall_forall.
    intros p Hp. unfold bucket in Hp. rewrite dedup_elem, elem_of_sort, list_elem_of_filter in Hp.
    eapply Forall_forall in Hpairs; [exact Hpairs|apply Hp].
  - cbn [mbind result_bind]. eexists _, _. split; [done|]. split; [done|]. split; [by eapply grows_trans|].
    split; [apply dedup_sorted, sort_StronglySorted|]. apply sorted_chain.
    apply (is_chain_perm race (chain_world s2) (concat (map (fun l => l.*2) (map (bucket pairs) (List.seq 0 NUM_BUCKETS))))
      _ (concat chains) (concat chains)); [|intros id|done].
    + apply is_chain_concat. by rewrite Forall2_fmap_l.
    + change (fun l : list (Z * bytes) => l.*2) with (@List.map (Z * bytes) bytes snd).
      rewrite <-concat_map. change (List.map snd ?l) with (l.*2).
      rewrite list_elem_of_fmap. setoid_rewrite buckets_elem.
      assert (pairs.*2 = concat starts) as <- by (apply snd_zip; by rewrite (Forall2_length _ _ _ Hns)).
      rewrite list_elem_of_fmap. naive_solver.
Qed.
End Service.

(** * Properties *)

Lemma ignore_err_NoDup {A B E} (f : A → comp E B) (l : list A) : NoDup l →
  (∀ x y b, x ∈ l → y ∈ l → f x = Ok b → f y = Ok b → x = y) → NoDup (ignore_err (map f l)).
Proof.
  induction 1 as [|x l Hx Hl IH]; intros Hf; [constructor|]. unfold ignore_err in *. csimpl.
  destruct (f x) as [b|] eqn:Hb; cbn [ok]; [|apply IH; set_solver].
  constructor; [|apply IH; set_solver]. intros (r & (y & -> & Hy)%list_elem_of_fmap & Hr)%list_elem_of_omap.
  destruct (f y) as [b'|] eqn:Hb'; [|done]. simplify_eq/=. assert (x = y) as -> by (apply (Hf x y b); set_solver).
  done.
Qed.

Lemma elem_of_ignore_err {A B E} (f : A → comp E B) (l : list A) b :
  b ∈ ignore_err (map f l) ↔ ∃ x, x ∈ l ∧ f x = Ok b.
Proof.
  unfold ignore_err. rewrite list_elem_of_omap. setoid_rewrite list_elem_of_fmap. split.
  - intros (r & (x & -> & Hx) & Hr). exists x. split; [done|]. by destruct (f x); simplify_eq/=.
  - intros (x & Hx & Hf). exists (f x). rewrite Hf. eauto.
Qed.

Section Properties.
Context `{!Parsers} {P : Type} `{!PduJson P} `{!AuthPdu P} `{!HashIter Z} `{!HashIterLaws Z}.
Context {C : Type} `{!Lru (list Z) (list Z) C} `{!LruLaws (list Z) (list Z) C}.

Lemma reached_fin (race : bool) (room : bytes) (fin : gset bytes) (d : Db) (starts : list bytes) (b : bytes) : auth_closed (P := P) race room fin d →
  (∀ id, id ∈ starts → id ∈ fin) → reached (P := P) race d starts b → b ∈ fin.
Proof.
  intros (Hcl & _) Hst (a & Ha & Htc). apply Hst in Ha. induction Htc as [x y He|x y z He _ IH].
  - by apply (Hcl x).
  - apply IH. by apply (Hcl x).
Qed.

(** C14: The auth chain of some events is what its name says: the search over auth events ends, for
    any store in which the events involved form a finite set of the room, and returns the numbers
    of exactly the events reached in one step or more, sorted and each once, and the identifiers of
    the same events; the answer does not depend on what is cached, in memory or on disk,
    what is cached afterwards is right, and no column but the chains' and the numbers' changes. *)
Theorem auth_chain_correct (fuel : nat) (race : bool) (s : Chains C) (room : bytes)
    (starts : list (list bytes)) (fin : gset bytes)
    (Hinv : Inv (chain_world s)) (Hco : Coherent (P := P) race s)
    (Hcl : auth_closed (P := P) race room fin (db (chain_world s)))
    (Hst : ∀ id, id ∈ concat starts → id ∈ fin) (Hnd : NoDup (concat starts))
    (Hroom : counter (chain_world s) + Z.of_nat (size fin) ≤ u64_max)
    (Hfuel : (size fin + 1 < fuel)%nat) (Hutf : ∀ id, id ∈ fin → valid_utf8 id) : ∃ chain ids s',
  get_auth_chain (P := P) fuel race s room starts = Ok (chain, s') ∧
  event_ids_iter (P := P) fuel race s room starts = Ok (ids, s') ∧
  StronglySorted Z.lt chain ∧
  (∀ n, n ∈ chain ↔ ∃ b, b ∈ ids ∧ number (chain_world s') b n) ∧
  NoDup ids ∧ (∀ b, b ∈ ids ↔ reached (P := P) race (db (chain_world s)) (concat starts) b) ∧
  Inv (chain_world s') ∧ Coherent (P := P) race s' ∧
  (∀ c, plain_column c → c ≠ shorteventid_authchain → db (chain_world s') c = db (chain_world s) c).
Proof.
  assert (good (P := P) race fin (db (chain_world s)) s) as Hgood.
  { split; [|done]. split; [done|]. split; [|done]. unfold room_for.
    assert (size (missing fin (chain_world s)) ≤ size fin)%nat by (apply subseteq_size; intros b Hb; by apply elem_of_filter in Hb as [_ ?]).
    lia. }
  assert (length (concat starts) ≤ size fin)%nat as Hlen.
  { rewrite <-(size_list_to_set (C := gset bytes)) by done. apply subseteq_size. intros b Hb.
    apply Hst. by apply elem_of_list_to_set in Hb. }
  destruct (get_auth_chain_spec (P := P) race room fin (db (chain_world s)) fuel Hcl Hfuel s starts)
    as (chain & s' & Heq & [(Hw' & _ & Hp) Hco'] & Hg & Hsort & Hc & Hn); [done|done|lia|done|].
  assert (∀ b, reached (P := P) race (db (chain_world s')) (concat starts) b ↔
    reached (P := P) race (db (chain_world s)) (concat starts) b) as Hr by by intros b; apply reached_grows.
  setoid_rewrite Hr in Hc. setoid_rewrite Hr in Hn.
  assert (∀ b n, reached (P := P) race (db (chain_world s)) (concat starts) b → number (chain_world s') b n →
    get_eventid_from_short (chain_world s') n = Ok b) as Hid.
  { intros b n Hb [Hu Hl]. apply event_number; [done| |done|done]. apply Hutf. by eapply reached_fin. }
  exists chain, (ignore_err (map (get_eventid_from_short (chain_world s')) chain)), s'.
  assert (∀ b, b ∈ ignore_err (map (get_eventid_from_short (chain_world s')) chain) ↔
    reached (P := P) race (db (chain_world s)) (concat starts) b) as Hids.
  { intros b. rewrite elem_of_ignore_err. split.
    - intros (n & (b' & Hb' & Hbn)%Hc & Hf). rewrite (Hid b' n) in Hf by done. by simplify_eq.
    - intros Hb. destruct (Hn b Hb) as [n Hbn]. exists n. split; [apply Hc; eauto|by apply Hid]. }
  split; [done|]. unfold event_ids_iter. rewrite Heq. split; [done|]. split; [done|].
  split; [intros n; rewrite Hc; by setoid_rewrite Hids|]. split_and!; try done.
  apply ignore_err_NoDup.
  - clear -Hsort. induction Hsort as [|x l Hs IH Hx]; constructor; [|done]. intros Hin.
    rewrite Forall_forall in Hx. by apply Hx, ord_lt_irrefl in Hin.
  - intros x y b (bx & Hbx & Hnx)%Hc (by' & Hby & Hny)%Hc. rewrite (Hid bx x), (Hid by' y) by done.
    intros [= ->] [= ->]. by eapply number_fun.
Qed.
End Properties.

Module ChainWitness.
#[local] Instance any_parsers : Parsers := {| json_ok _ := true; cbor_ok _ := true |}.
#[local] Instance iter_fwd : HashIter Z := hash_iter_fwd Z.
#[local] Instance chain_lru : Lru (list Z) (list Z) (list (list Z * list Z)) := list_lru.
#[local] Instance chain_laws : LruLaws (list Z) (list Z) (list (list Z * list Z)) := list_lru_laws.

(** An event is the list of its auth events, which have identifiers of one byte; all are of room [!]. *)
#[local] Instance raw_json : PduJson bytes := fun json => Some json.
#[local] Instance raw_auth : AuthPdu bytes := {|
  pdu_room_id _ := Some [33];
  pdu_auth_events p := map (fun b => [b]) p;
|}.

(** [D] rests on [B] and [C], [C] and [B] on [A]. *)
Definition events : Db := foldl (fun d e => insert d eventid_outlierpdu e.1 e.2) empty_db
  [([65], []); ([66], [65]); ([67], [65]); ([68], [66; 67])].
Definition s0 : Chains (list (list Z * list Z)) :=
  {| chain_world := {| db := events; counter := 0 |}; auth_chain_cache := [] |}.
Definition all : gset bytes := {[ [65]; [66]; [67]; [68] ]}.

Lemma all_cases (Q : bytes → Prop) : Q [65] → Q [66] → Q [67] → Q [68] → ∀ a, a ∈ all → Q a.
Proof. intros ???? a. unfold all. rewrite !elem_of_union, !elem_of_singleton. naive_solver. Qed.

Lemma all_closed : auth_closed (P := bytes) false [33] all events.
Proof.
  split; [|split].
  - intros a b Ha. revert a Ha b.
    apply (all_cases (fun a => ∀ b, auth_edge (P := bytes) false events a b → b ∈ all)); intros b (p & Hp & Hb); vm_compute in Hp; injection Hp as <-;
      unfold all; simpl in Hb; rewrite ?elem_of_cons, ?elem_of_nil in Hb; set_solver.
  - intros a p _ _. reflexivity.
  - intros a e Ha. revert a Ha e.
    apply (all_cases (fun a => ∀ e, get_pdu (P := bytes) false events a = Err e → ∃ x, e = Fail x)); intros e He; vm_compute in He; discriminate.
Qed.

Lemma s0_inv : Inv (chain_world s0).
Proof.
  apply (Inv_plain {| db := empty_db; counter := 0 |} events); [by split|].
  intros c Hc. destruct c; try reflexivity. by destruct Hc.
Qed.

Lemma s0_coherent : Coherent (P := bytes) false s0.
Proof. split; intros k v Hk; discriminate Hk. Qed.

Lemma auth_chain_correct_witness : ∃ s',
  event_ids_iter (P := bytes) 6 false s0 [33] [[ [68] ]; [ [67] ]] = Ok ([ [67]; [66]; [65] ], s') ∧
  Coherent (P := bytes) false s'.
Proof.
  destruct (auth_chain_correct (P := bytes) 6 false s0 [33] [[ [68] ]; [ [67] ]] all)
    as (chain & ids & s' & _ & Heq & _ & _ & _ & _ & _ & Hco & _).
  - exact s0_inv.
  - exact s0_coherent.
  - exact all_closed.
  - intros id. simpl. unfold all. rewrite !elem_of_cons, elem_of_nil, !elem_of_union, !elem_of_singleton. naive_solver.
  - apply (bool_decide_unpack _). vm_compute. exact I.
  - vm_compute. discriminate.
  - vm_compute. repeat constructor.
  - apply (all_cases (fun id => valid_utf8 id)); exact I.
  - exists s'. split; [|exact Hco]. rewrite Heq.
    assert (fst <$> ok (event_ids_iter (P := bytes) 6 false s0 [33] [[ [68] ]; [ [67] ]])
      = Some [ [67]; [66]; [65] ]) as Hc by (vm_compute; reflexivity).
    rewrite Heq in Hc. cbn [ok fmap option_fmap option_map fst] in Hc. injection Hc as ->. reflexivity.
Defined.

(** The chain of an event found while one of its ancestors is missing is cached: when the ancestor
    arrives, the chain stays what it was. *)
Example incomplete_chain_kept :
  let d := remove events eventid_outlierpdu [67] in
  fst <$> ok ('(_, s) ← get_auth_chain (P := bytes) 6 false
        {| chain_world := {| db := d; counter := 0 |}; auth_chain_cache := [] |} [33] [[ [68] ]];
      let w := chain_world s in
      event_ids_iter (P := bytes) 6 false
        (with_chain_world s (with_db w (insert (db w) eventid_outlierpdu [67] [65; 69]))) [33] [[ [68] ]])
  = Some [ [66]; [67]; [65] ].
Proof. vm_compute. reflexivity. Qed.

(** A chain from the cache is not checked to be of the room asked for. *)
Example cached_room_unchecked :
  get_auth_chain (P := bytes) 6 false s0 [34] [[ [68] ]] = Err (Fail Forbidden) ∧
  is_ok ('(_, s) ← get_auth_chain (P := bytes) 6 false s0 [33] [[ [68] ]];
         get_auth_chain (P := bytes) 6 false s [34] [[ [68] ]]) = true.
Proof. split; vm_compute; reflexivity. Qed.
End ChainWitness.
