(* ===== verification/Sending.v ===== *)
(** The sending queue: what is to be delivered to other servers, appservices and push gateways, kept on
    disk until it is, and the worker that delivers it.  Source: src/src/service/sending/dest.rs,
    data.rs, mod.rs and sender.rs, the health of servers of src/src/service/federation/mod.rs and
    the sticky events of src/src/core/matrix/pdu/sticky.rs.

    The requests themselves are not modelled: [futures] holds, for every transaction on its way, its
    destination and its events, and a step takes the result of one.  Parsing names is ruma's, and
    which device lists, receipts and presence are sent with a transaction is decided by other
    services: parameters.  Times are milliseconds. *)

From stdpp Require Import prelude gmap sorting.
From Stdlib Require Import ZArith Lia.
From S2P Require Import Prelude Bytes PduCount DbSer Database PairKeys Short Timeline.
Local Open Scope Z_scope.

(** * Destinations and keys *)

(** @src src/src/service/sending/dest.rs:6-10 Destination *)
Inductive Destination : Set :=
| Appservice (id : bytes)
| Push (user pushkey : bytes)
| Federation (server : bytes).
#[export] Instance Destination_eq_dec : EqDecision Destination.
Proof. solve_decision. Defined.
#[export] Instance Destination_countable : Countable Destination.
Proof.
  refine (inj_countable'
    (fun d => match d with Appservice a => inl a | Push u k => inr (inl (u, k)) | Federation s => inr (inr s) end)
    (fun x => match x with inl a => Appservice a | inr (inl (u, k)) => Push u k | inr (inr s) => Federation s end) _).
  by intros [].
Defined.

(** @src src/src/service/sending/dest.rs:15-53 Destination::get_prefix *)
Definition get_prefix (dest : Destination) : bytes :=
  match dest with
  | Federation server => server ++ [255]
  | Appservice server => [43] ++ server ++ [255]
  | Push user pushkey => [36] ++ user ++ [255] ++ pushkey ++ [255]
  end.

(** @src src/src/service/sending/mod.rs:78-82 SendingEvent *)
Inductive SendingEvent : Set :=
| Pdu (pduid : RawId)
| Edu (json : bytes)
| Flush.
#[export] Instance RawId_eq_dec : EqDecision RawId.
Proof. solve_decision. Defined.
#[export] Instance SendingEvent_eq_dec : EqDecision SendingEvent.
Proof. solve_decision. Defined.

(** What is before the first separator and what follows it, as [splitn] with two parts. *)
Fixpoint split_sep (l : bytes) : bytes * option bytes :=
  match l with
  | [] => ([], None)
  | b :: l => if decide (b = SEP) then ([], Some l)
              else let '(first, rest) := split_sep l in (b :: first, rest)
  end.

(** [UserId::parse] and [ServerName::parse] accept a string. *)
Class NameParsers := {
  user_id_ok : bytes → bool;
  server_name_ok : bytes → bool;
}.

Section Data.
Context `{!Parsers} `{!NameParsers}.

Definition string_from_bytes (b : bytes) : comp db_error bytes :=
  if valid_utf8 b then Ok b else Err (Fail DatabaseError).

(** The event of a key's end and its value. *)
Definition event_of (event value : bytes) : comp db_error SendingEvent :=
  match value with [] => id ← expect (raw_from_bytes event); Ok (Pdu id) | _ => Ok (Edu value) end.

(** @src src/src/service/sending/data.rs:185-258 parse_servercurrentevent *)
Definition parse_servercurrentevent (key value : bytes) : comp db_error (Destination * SendingEvent) :=
  match key with
  | 43 :: key =>
      let '(server, event) := split_sep key in
      event ← ok_or_fail DatabaseError event;
      server ← string_from_bytes server;
      event ← event_of event value; Ok (Appservice server, event)
  | 36 :: key =>
      let '(user, rest) := split_sep key in
      user ← string_from_bytes user;
      if user_id_ok user then
        rest ← ok_or_fail DatabaseError rest;
        let '(pushkey, event) := split_sep rest in
        pushkey ← string_from_bytes pushkey;
        event ← ok_or_fail DatabaseError event;
        event ← event_of event value; Ok (Push user pushkey, event)
      else Err (Fail DatabaseError)
  | _ =>
      let '(server, event) := split_sep key in
      event ← ok_or_fail DatabaseError event;
      server ← string_from_bytes server;
      if server_name_ok server then event ← event_of event value; Ok (Federation server, event)
      else Err (Fail DatabaseError)
  end.

(** * The tables *)

(** What an event is stored as. *)
Definition stored_value (event : SendingEvent) : bytes :=
  match event with Edu val => val | _ => [] end.

(** @src src/src/service/sending/data.rs:45-47 Data::delete_active_request *)
Definition delete_active_request (d : Db) (key : bytes) : Db := remove d servercurrentevent_data key.

Definition remove_all (d : Db) (c : column) (keys : list bytes) : Db :=
  foldl (fun d key => remove d c key) d keys.

(** @src src/src/service/sending/data.rs:49-56 Data::delete_all_active_requests_for *)
Definition delete_all_active_requests_for (d : Db) (destination : Destination) : Db :=
  remove_all d servercurrentevent_data
    (raw_keys_prefix d servercurrentevent_data (get_prefix destination)).

(** @src src/src/service/sending/data.rs:58-71 Data::delete_all_requests_for *)
Definition delete_all_requests_for (d : Db) (destination : Destination) : Db :=
  let d := delete_all_active_requests_for d destination in
  remove_all d servernameevent_data (raw_keys_prefix d servernameevent_data (get_prefix destination)).

(** @src src/src/service/sending/data.rs:73-85 Data::mark_as_active *)
Definition mark_as_active (d : Db) (events : list (bytes * SendingEvent)) : Db :=
  foldl (fun d '(key, val) =>
           remove (insert d servercurrentevent_data key (stored_value val)) servernameevent_data key)
    d (filter (fun e => e.1 ≠ []) events).

(** @src src/src/service/sending/data.rs:88-98 Data::active_requests *)
Definition active_requests (d : Db) : comp db_error (list (bytes * SendingEvent * Destination)) :=
  mapR (fun '(key, val) =>
          '(dest, event) ← expect_ok (parse_servercurrentevent key val); Ok (key, event, dest))
    (entries (d servercurrentevent_data)).

(** The events of a column whose keys start with the destination's prefix. *)
Definition requests_for (d : Db) (c : column) (destination : Destination) :
    comp db_error (list (bytes * SendingEvent)) :=
  mapR (fun '(key, val) =>
          '(_, event) ← expect_ok (parse_servercurrentevent key val); Ok (key, event))
    (raw_stream_prefix d c (get_prefix destination)).

(** @src src/src/service/sending/data.rs:101-116 Data::active_requests_for *)
Definition active_requests_for (d : Db) (destination : Destination) :
    comp db_error (list (bytes * SendingEvent)) := requests_for d servercurrentevent_data destination.

(** @src src/src/service/sending/data.rs:155-170 Data::queued_requests *)
Definition queued_requests (d : Db) (destination : Destination) :
    comp db_error (list (bytes * SendingEvent)) := requests_for d servernameevent_data destination.

(** The key of a request; what is not an event is numbered.
    @src src/src/service/sending/data.rs:124-134 Data::queue_requests *)
Definition request_key (w : World) (event : SendingEvent) (dest : Destination) :
    comp db_error (bytes * World) :=
  match event with
  | Pdu value => Ok (get_prefix dest ++ as_bytes value, w)
  | _ => '(count, w) ← expect_ok (next_count w); Ok (get_prefix dest ++ u64_to_be count, w)
  end.

Fixpoint request_keys (w : World) (requests : list (SendingEvent * Destination)) :
    comp db_error (list bytes * World) :=
  match requests with
  | [] => Ok ([], w)
  | (event, dest) :: requests =>
      '(key, w) ← request_key w event dest;
      '(keys, w) ← request_keys w requests;
      Ok (key :: keys, w)
  end.

(** @src src/src/service/sending/data.rs:118-153 Data::queue_requests *)
Definition queue_requests (w : World) (requests : list (SendingEvent * Destination)) :
    comp db_error (list bytes * World) :=
  '(keys, w) ← request_keys w requests;
  Ok (keys, with_db w (foldl (fun d '(key, event) => insert d servernameevent_data key (stored_value event))
                         (db w) (zip keys requests.*1))).

(** @src src/src/service/sending/data.rs:172-174 Data::set_latest_educount *)
Definition set_latest_educount (d : Db) (server_name : bytes) (last_count : Z) : comp db_error Db :=
  raw_put d servername_educount server_name (VU64 last_count).

(** @src src/src/service/sending/data.rs:176-182 Data::get_latest_educount *)
Definition get_latest_educount (d : Db) (server_name : bytes) : Z :=
  match deserialized_u64 (get d servername_educount server_name) with Ok n => n | Err _ => 0 end.
End Data.

(** * Sticky events *)

(** What is read of an event's sticky object, and its timestamp. *)
Class StickyPdu (P : Type) := {
  sticky_object : P → option Z;
  origin_server_ts : P → Z;
}.

(** @src src/src/core/matrix/pdu/sticky.rs:20-20 MAX_DURATION_MS *)
Definition MAX_DURATION_MS : Z := 3600000.

Definition saturating_sub_u64 (a b : Z) : Z := Z.max 0 (a - b).
Definition saturating_add_u64 (a b : Z) : Z := Z.min (a + b) u64_max.

(** Of the object's own duration, if it is an object that has one.
    @src src/src/core/matrix/pdu/sticky.rs:40-44 duration_ms *)
Definition duration_ms (sticky : option Z) : option Z :=
  (fun duration_ms => Z.min duration_ms MAX_DURATION_MS) <$> sticky.

(** @src src/src/core/matrix/pdu/sticky.rs:54-62 expires_at *)
Definition expires_at (origin_server_ts : Z) (sticky : option Z) (now : Z) : option Z :=
  if decide (MAX_DURATION_MS < saturating_sub_u64 origin_server_ts now) then None
  else
    let start := Z.min origin_server_ts now in
    (fun duration_ms => saturating_add_u64 start duration_ms) <$> duration_ms sticky.

(** @src src/src/core/matrix/pdu/sticky.rs:65-67 is_sticky *)
Definition is_sticky (origin_server_ts : Z) (sticky : option Z) (now : Z) : bool :=
  match expires_at origin_server_ts sticky now with
  | Some expires_at => bool_decide (now < expires_at)
  | None => false
  end.
