(* ===== verification/SendingWorker.v ===== *)
(** The worker of the sending queue: statuses of destinations, the health of servers, selecting events,
    handling requests and responses, and what happens on start and on shutdown.  Source:
    src/src/service/sending/mod.rs and sender.rs, src/src/service/federation/mod.rs. *)

From stdpp Require Import prelude gmap sorting.
From Stdlib Require Import ZArith Lia.
From S2P Require Import Prelude Bytes PduCount DbSer Database PairKeys Short Timeline Sending.
Local Open Scope Z_scope.

(** @src src/src/service/sending/sender.rs:59-63 TransactionStatus *)
Inductive TransactionStatus : Set :=
| Running
| Failed (tries time : Z)
| Retrying (tries : Z).

(** @src src/src/service/sending/mod.rs:70-74 Msg *)
Record Msg := { msg_dest : Destination; msg_event : SendingEvent; msg_queue_id : bytes }.

(** What of the configuration is read. *)
Record Config := {
  sender_retry_backoff_base : Z;
  sender_retry_backoff_limit : Z;
  allow_outgoing_read_receipts : bool;
  allow_outgoing_presence : bool;
  startup_netburst : bool;
  startup_netburst_keep : Z;
  allow_sticky_events : bool;
}.

(** A transaction on its way: the destination and the events. *)
Definition SendingFuture : Type := Destination * list SendingEvent.

(** The worker's state, with the channel it receives requests from and the health of servers.
    @src src/src/service/sending/sender.rs:65-69 CurTransactionStatus *)
Record Sender := {
  snd_world : World;
  statuses : gmap Destination TransactionStatus;
  futures : list SendingFuture;
  channel : list Msg;
  remote_health : gmap bytes (Z * Z);
  stale_destinations : gset bytes;
}.

Definition with_snd_db (s : Sender) (d : Db) : Sender :=
  {| snd_world := with_db (snd_world s) d; statuses := statuses s; futures := futures s;
     channel := channel s; remote_health := remote_health s; stale_destinations := stale_destinations s |}.
Definition with_snd_world (s : Sender) (w : World) : Sender :=
  {| snd_world := w; statuses := statuses s; futures := futures s;
     channel := channel s; remote_health := remote_health s; stale_destinations := stale_destinations s |}.
Definition with_statuses (s : Sender) (st : gmap Destination TransactionStatus) : Sender :=
  {| snd_world := snd_world s; statuses := st; futures := futures s;
     channel := channel s; remote_health := remote_health s; stale_destinations := stale_destinations s |}.
Definition with_futures (s : Sender) (f : list SendingFuture) : Sender :=
  {| snd_world := snd_world s; statuses := statuses s; futures := f;
     channel := channel s; remote_health := remote_health s; stale_destinations := stale_destinations s |}.
Definition with_channel (s : Sender) (c : list Msg) : Sender :=
  {| snd_world := snd_world s; statuses := statuses s; futures := futures s;
     channel := c; remote_health := remote_health s; stale_destinations := stale_destinations s |}.
Definition with_health (s : Sender) (h : gmap bytes (Z * Z)) (st : gset bytes) : Sender :=
  {| snd_world := snd_world s; statuses := statuses s; futures := futures s;
     channel := channel s; remote_health := h; stale_destinations := st |}.

Definition sdb (s : Sender) : Db := db (snd_world s).

(** * The health of servers *)

(** @src src/src/service/federation/mod.rs:62-70 Service::is_healthy *)
Definition is_healthy (now : Z) (s : Sender) (server_name : bytes) : bool :=
  match remote_health s !! server_name with
  | Some (_, next_retry) => bool_decide (next_retry ≤ now)
  | None => true
  end.

(** @src src/src/service/federation/mod.rs:74-79 Service::retry_after *)
Definition retry_after (now : Z) (s : Sender) (server_name : bytes) : option Z :=
  (fun '(_, next_retry) => saturating_sub_u64 next_retry now) <$> remote_health s !! server_name.

Definition u32_max : Z := 2 ^ 32 - 1.
Definition saturating_inc_u32 (n : Z) : Z := Z.min (n + 1) u32_max.

(** The configured times are seconds.
    @src src/src/service/federation/mod.rs:86-112 Service::hit_unhealthy *)
Definition hit_unhealthy (conf : Config) (now : Z) (s : Sender) (server_name : bytes) :
    comp db_error Sender :=
  let '(retries, next_retry) := default (0, 0) (remote_health s !! server_name) in
  if decide (next_retry > now) then
    Ok (with_health s (<[server_name := (retries, next_retry)]> (remote_health s)) (stale_destinations s))
  else
    let retries := saturating_inc_u32 retries in
    let next_interval :=
      1000 * Z.min (sender_retry_backoff_base conf * retries) (sender_retry_backoff_limit conf) in
    next_interval ← expect (checked_u64 next_interval);
    Ok (with_health s (<[server_name := (retries, saturating_add_u64 now next_interval)]> (remote_health s))
          (stale_destinations s)).

(** @src src/src/service/federation/mod.rs:118-141 Service::mark_healthy *)
Definition mark_healthy (s : Sender) (server_name : bytes) : Sender :=
  with_health s (delete server_name (remote_health s)) (stale_destinations s ∖ {[server_name]}).

(** @src src/src/service/federation/mod.rs:175-179 Service::mark_destination_stale *)
Definition mark_destination_stale (s : Sender) (server_name : bytes) : Sender :=
  with_health s (remote_health s) ({[server_name]} ∪ stale_destinations s).

(** What of an error is looked at: whether the connection failed, and the HTTP status. *)
Record SendError := { is_connect : bool; status_code : Z }.

(** @src src/src/service/federation/mod.rs:183-199 Service::should_mark_stale *)
Definition should_mark_stale (e : SendError) : bool :=
  is_connect e || bool_decide (status_code e ∈ [421; 405; 418]).

(** * Selecting *)

Section Worker.
Context `{!Parsers} `{!NameParsers}.

(** The device list changes, receipts and presence for a server since a count and up to another, and
    the highest count of them. *)
Class EduSources := {
  select_edus_device_changes : World → bytes → Z * Z → list bytes * Z;
  select_edus_receipts : World → bytes → Z * Z → option bytes * Z;
  select_edus_presence : World → bytes → Z * Z → option bytes * Z;
}.
Context `{!EduSources} (conf : Config).

Definition when {A} (b : bool) (x : option A * Z) : option A * Z := if b then x else (None, 0).

(** @src src/src/service/sending/sender.rs:476-512 Service::select_edus *)
Definition select_edus (w : World) (server_name : bytes) : list bytes * Z :=
  let since := get_latest_educount (db w) server_name in
  let batch := (since, current_count w) in
  let '(device_changes, max1) := select_edus_device_changes w server_name batch in
  let '(receipts, max2) :=
    when (allow_outgoing_read_receipts conf) (select_edus_receipts w server_name batch) in
  let '(presence, max3) :=
    when (allow_outgoing_presence conf) (select_edus_presence w server_name batch) in
  (device_changes ++ option_list presence ++ option_list receipts,
   Z.max since (Z.max max1 (Z.max max2 max3))).

(** Whether to send, and whether to send again what was not delivered.
    @src src/src/service/sending/sender.rs:410-472 Service::should_attempt_send *)
Definition should_attempt_send (now : Z) (dest : Destination) (s : Sender) : (bool * bool) * Sender :=
  let claim st := with_statuses s (<[dest := st]> (statuses s)) in
  match dest with
  | Federation server_name =>
      if decide (default 0 (retry_after now s server_name) ≠ 0) then ((false, false), s)
      else match statuses s !! dest with
           | Some Running | Some (Retrying _) => ((false, false), s)
           | Some (Failed tries _) => ((true, true), claim (Retrying tries))
           | None => ((true, false), claim Running)
           end
  | _ =>
      match statuses s !! dest with
      | Some (Failed tries time) =>
          let retry_after :=
            1000 * Z.min (sender_retry_backoff_base conf * tries) (sender_retry_backoff_limit conf) in
          if decide (Z.max 0 (now - time) < retry_after) then ((false, false), s)
          else ((true, true), claim (Retrying tries))
      | Some Running | Some (Retrying _) => ((false, false), s)
      | None => ((true, false), claim Running)
      end
  end.

(** [None] when nothing can be done.
    @src src/src/service/sending/sender.rs:359-406 Service::select_events *)
Definition select_events (now : Z) (dest : Destination) (new_events : list (bytes * SendingEvent))
    (s : Sender) : comp db_error (option (list SendingEvent) * Sender) :=
  let '((allow, retry), s) := should_attempt_send now dest s in
  if negb allow then Ok (None, s)
  else if retry then
    events ← active_requests_for (sdb s) dest; Ok (Some (events.*2), s)
  else
    let s := with_snd_db s (mark_as_active (sdb s) new_events) in
    match dest with
    | Federation server_name =>
        let '(select_edus, last_count) := select_edus (snd_world s) server_name in
        d ← set_latest_educount (sdb s) server_name last_count;
        Ok (Some (new_events.*2 ++ map Edu select_edus), with_snd_db s d)
    | _ => Ok (Some (new_events.*2), s)
    end.

(** * Requests and responses *)

Definition DEQUEUE_LIMIT : nat := 48.

(** @src src/src/service/sending/sender.rs:219-243 Service::handle_request *)
Definition handle_request (now : Z) (msg : Msg) (s : Sender) : comp db_error Sender :=
  '(selected, s) ← select_events now (msg_dest msg) [(msg_queue_id msg, msg_event msg)] s;
  match selected with
  | Some [] => Ok (with_statuses s (delete (msg_dest msg) (statuses s)))
  | Some events => Ok (with_futures s (futures s ++ [(msg_dest msg, events)]))
  | None => Ok s
  end.

(** @src src/src/service/sending/sender.rs:183-212 Service::handle_response_ok *)
Definition handle_response_ok (dest : Destination) (s : Sender) : comp db_error Sender :=
  let s := with_snd_db s (delete_all_active_requests_for (sdb s) dest) in
  let s := match dest with Federation server_name => mark_healthy s server_name | _ => s end in
  queued ← queued_requests (sdb s) dest;
  let new_events := take DEQUEUE_LIMIT queued in
  match new_events with
  | [] => Ok (with_statuses s (delete dest (statuses s)))
  | _ => let s := with_snd_db s (mark_as_active (sdb s) new_events) in
         Ok (with_futures s (futures s ++ [(dest, new_events.*2)]))
  end.

(** A transaction that fails without having been running panics.
    @src src/src/service/sending/sender.rs:164-179 Service::handle_response_err *)
Definition handle_response_err (now : Z) (dest : Destination) (s : Sender) : comp db_error Sender :=
  match statuses s !! dest with
  | Some Running => Ok (with_statuses s (<[dest := Failed 1 now]> (statuses s)))
  | Some (Retrying n) => Ok (with_statuses s (<[dest := Failed (saturating_inc_u32 n) now]> (statuses s)))
  | Some (Failed _ _) => Err Panicked
  | None => Ok s
  end.

(** @src src/src/service/sending/sender.rs:137-161 Service::handle_response *)
Definition handle_response (now : Z) (dest : Destination) (response : result SendError unit) (s : Sender) :
    comp db_error Sender :=
  match response with
  | Ok _ => handle_response_ok dest s
  | Err e =>
      s ← match dest with
          | Federation server_name =>
              if should_mark_stale e || bool_decide (status_code e = 404)
              then hit_unhealthy conf now (mark_destination_stale s server_name) server_name
              else if decide (status_code e ≠ 200) then hit_unhealthy conf now s server_name else Ok s
          | _ => Ok s
          end;
      handle_response_err now dest s
  end.

(** ** What happens to the worker, one step at a time *)

(** @src src/src/service/sending/mod.rs:405-416 Service::dispatch *)
Definition dispatch (s : Sender) (msg : Msg) : Sender := with_channel s (channel s ++ [msg]).

(** Requests are stored, then the worker is told of each. *)
Definition send_requests (s : Sender) (requests : list (SendingEvent * Destination)) :
    comp db_error Sender :=
  '(keys, w) ← queue_requests (snd_world s) requests;
  Ok (foldl (fun s '((event, dest), queue_id) =>
               dispatch s {| msg_dest := dest; msg_event := event; msg_queue_id := queue_id |})
        (with_snd_world s w) (zip requests keys)).

(** @src src/src/service/sending/mod.rs:164-174 Service::send_pdu_push *)
Definition send_pdu_push (s : Sender) (pdu_id : RawId) (user pushkey : bytes) : comp db_error Sender :=
  send_requests s [(Pdu pdu_id, Push user pushkey)].

(** @src src/src/service/sending/mod.rs:177-187 Service::send_pdu_appservice *)
Definition send_pdu_appservice (s : Sender) (appservice_id : bytes) (pdu_id : RawId) : comp db_error Sender :=
  send_requests s [(Pdu pdu_id, Appservice appservice_id)].

(** @src src/src/service/sending/mod.rs:201-218 Service::send_pdu_servers *)
Definition send_pdu_servers (s : Sender) (servers : list bytes) (pdu_id : RawId) : comp db_error Sender :=
  send_requests s (map (fun server => (Pdu pdu_id, Federation server)) servers).

(** @src src/src/service/sending/mod.rs:221-231 Service::send_edu_server *)
Definition send_edu_server (s : Sender) (server serialized : bytes) : comp db_error Sender :=
  send_requests s [(Edu serialized, Federation server)].

(** @src src/src/service/sending/mod.rs:245-264 Service::send_edu_servers *)
Definition send_edu_servers (s : Sender) (servers : list bytes) (serialized : bytes) : comp db_error Sender :=
  send_requests s (map (fun server => (Edu serialized, Federation server)) servers).

(** @src src/src/service/sending/mod.rs:278-293 Service::flush_servers *)
Definition flush_servers (s : Sender) (servers : list bytes) : Sender :=
  foldl (fun s server =>
           dispatch s {| msg_dest := Federation server; msg_event := Flush; msg_queue_id := [] |})
    s servers.

(** @src src/src/service/sending/mod.rs:374-403 Service::cleanup_events *)
Definition cleanup_events (d : Db) (appservice_id user_id push_key : option bytes) : Db :=
  match appservice_id, user_id, push_key with
  | None, Some user_id, Some push_key => delete_all_requests_for d (Push user_id push_key)
  | Some appservice_id, None, None => delete_all_requests_for d (Appservice appservice_id)
  | _, _, _ => d
  end.

(** Requests come in, the worker takes the channel's first, a transaction's result arrives. *)
Inductive label : Type :=
| LSend (requests : list (SendingEvent * Destination))
| LFlush (servers : list bytes)
| LRequest (now : Z)
| LResponse (now : Z) (i : nat) (response : result SendError unit).

(** A step of the worker's loop, or of those who send.
    @src src/src/service/sending/sender.rs:109-132 Service::work_loop *)
Definition step (s : Sender) (l : label) : comp db_error Sender :=
  match l with
  | LSend requests => send_requests s requests
  | LFlush servers => Ok (flush_servers s servers)
  | LRequest now =>
      match channel s with
      | [] => Ok s
      | msg :: channel => handle_request now msg (with_channel s channel)
      end
  | LResponse now i response =>
      match futures s !! i with
      | Some (dest, events) => handle_response now dest response (with_futures s (delete i (futures s)))
      | None => Ok s
      end
  end.

Fixpoint run (s : Sender) (ls : list label) : comp db_error Sender :=
  match ls with
  | [] => Ok s
  | l :: ls => s ← step s l; run s ls
  end.

(** * Start and shutdown *)

Section Start.
Context {P : Type} `{!PduJson P} `{!StickyPdu P} `{!HashIter Destination}.
Variables (shard_id : Destination → nat) (id : nat).

(** @src src/src/service/sending/sender.rs:329-347 Service::survives_netburst_trim *)
Definition survives_netburst_trim (now : Z) (d : Db) (event : SendingEvent) : bool :=
  if negb (allow_sticky_events conf) || negb (startup_netburst conf) then false
  else match event with
       | Pdu pdu_id =>
           match get_pdu_from_id (P := P) d pdu_id with
           | Ok pdu => is_sticky (origin_server_ts pdu) (sticky_object pdu) now
           | Err _ => false
           end
       | _ => false
       end.

(** The transactions to send at once; what is over the budget is dropped.
    @src src/src/service/sending/sender.rs:296-316 Service::startup_netburst *)
Fixpoint collect_active (now : Z) (d : Db) (txns : gmap Destination (list SendingEvent))
    (active : list (bytes * SendingEvent * Destination)) : gmap Destination (list SendingEvent) * Db :=
  match active with
  | [] => (txns, d)
  | (key, event, dest) :: active =>
      if decide (shard_id dest ≠ id) then collect_active now d txns active
      else
        let entry := default [] (txns !! dest) in
        let over_budget := bool_decide (0 ≤ startup_netburst_keep conf ≤ Z.of_nat (length entry)) in
        if over_budget && negb (survives_netburst_trim now d event)
        then collect_active now (delete_active_request d key) (<[dest := entry]> txns) active
        else collect_active now d (<[dest := entry ++ [event]]> txns) active
  end.

(** @src src/src/service/sending/sender.rs:285-324 Service::startup_netburst *)
Definition netburst (now : Z) (s : Sender) : comp db_error Sender :=
  active ← active_requests (sdb s);
  let '(txns, d) := collect_active now (sdb s) ∅ active in
  let s := with_snd_db s d in
  Ok (foldl (fun s '(dest, events) =>
               if startup_netburst conf && bool_decide (events ≠ [])
               then with_futures (with_statuses s (<[dest := Running]> (statuses s)))
                      (futures s ++ [(dest, events)])
               else s) s (iter_map txns)).

(** Transactions that succeed while the worker shuts down; the others stay stored.
    @src src/src/service/sending/sender.rs:253-274 Service::finish_responses *)
Definition finish_responses (s : Sender) (responses : list (result SendError Destination)) : Sender :=
  foldl (fun s response =>
           match response with
           | Ok dest => with_snd_db s (delete_all_active_requests_for (sdb s) dest)
           | Err _ => s
           end) s responses.
End Start.
End Worker.
