(* ===== verification/SendingSpec.v ===== *)
(** What the sending queue promises: keys tell their destinations and events, an event stored to be sent
    stays stored until a transaction that carries it is acknowledged, and the worker never
    panics. *)

From stdpp Require Import prelude gmap sorting.
From Stdlib Require Import ZArith Lia.
From S2P Require Import Prelude Bytes PduCount DbSer Database PairKeys Short Timeline Sending SendingWorker.
Local Open Scope Z_scope.

(** Server names start with a letter, a digit or a bracket. *)
Class NameLaws `{!NameParsers} : Prop := {
  server_name_start s : server_name_ok s → head s ≠ Some 43 ∧ head s ≠ Some 36;
}.

Section Keys.
Context `{!Parsers} `{!NameParsers} `{!NameLaws}.

Definition valid_dest (dest : Destination) : Prop :=
  match dest with
  | Appservice id => valid_utf8 id
  | Push user pushkey => valid_utf8 user ∧ user_id_ok user ∧ valid_utf8 pushkey
  | Federation server => valid_utf8 server ∧ server_name_ok server
  end.

(** The end of an event's key. *)
Definition key_end (ev : SendingEvent) (tail : bytes) : Prop :=
  match ev with
  | Pdu id => tail = as_bytes id ∧ raw_from_bytes (as_bytes id) = Some id
  | Edu json => json ≠ [] ∧ ∃ n, is_u64 n ∧ tail = u64_to_be n
  | Flush => False
  end.

(** What a key and its value stand for. *)
Definition entry_for (k v : bytes) (dest : Destination) (ev : SendingEvent) : Prop :=
  valid_dest dest ∧ v = stored_value ev ∧ ∃ tail, k = get_prefix dest ++ tail ∧ key_end ev tail.

Lemma split_sep_app a b : SEP ∉ a → split_sep (a ++ SEP :: b) = (a, Some b).
Proof.
  induction a as [|x a IH]; intros Ha; simpl; [done|].
  rewrite decide_False by set_solver. by rewrite IH by set_solver.
Qed.

Lemma split_sep_utf8 a b : valid_utf8 a → split_sep (a ++ SEP :: b) = (a, Some b).
Proof. intros Ha. apply split_sep_app. by apply valid_utf8_no_sep. Qed.

Lemma parse_federation (key value : bytes) : head key ≠ Some 43 → head key ≠ Some 36 →
  parse_servercurrentevent key value =
  (let '(server, event) := split_sep key in
   event ← ok_or_fail DatabaseError event;
   server ← string_from_bytes server;
   if server_name_ok server then event ← event_of event value; Ok (Federation server, event)
   else Err (Fail DatabaseError)).
Proof.
  intros Hp Hd. destruct key as [|x key]; [done|]. simpl in Hp, Hd.
  assert (x ≠ 43) by congruence. assert (x ≠ 36) by congruence. clear Hp Hd.
  unfold parse_servercurrentevent.
  destruct x as [|p|p]; try reflexivity. do 6 (try (destruct p as [p|p|]; try reflexivity)); done.
Qed.

(** The destination and the event are read back from any key that starts with the prefix. *)
Lemma parse_key dest tail value ev : valid_dest dest → event_of tail value = Ok ev →
  parse_servercurrentevent (get_prefix dest ++ tail) value = Ok (dest, ev).
Proof.
  intros Hd He. destruct dest as [id|user pushkey|server]; simpl in Hd; cbn [get_prefix].
  - cbn [app parse_servercurrentevent]. rewrite <-app_assoc. simpl app. rewrite split_sep_utf8 by done.
    cbn [ok_or_fail ok_or mbind result_bind]. unfold string_from_bytes. apply Is_true_eq_true in Hd as ->.
    cbn [mbind result_bind]. by rewrite He.
  - destruct Hd as (Hu & Hok & Hp). cbn [app parse_servercurrentevent]. rewrite <-!app_assoc. simpl app.
    rewrite <-!app_assoc. simpl app.
    rewrite split_sep_utf8 by done. unfold string_from_bytes.
    apply Is_true_eq_true in Hu as ->. cbn [mbind result_bind]. apply Is_true_eq_true in Hok as ->.
    cbn [ok_or_fail ok_or mbind result_bind]. rewrite split_sep_utf8 by done.
    apply Is_true_eq_true in Hp as ->. cbn [ok_or_fail ok_or mbind result_bind]. by rewrite He.
  - destruct Hd as (Hu & Hok). pose proof (server_name_start server Hok) as [Hplus Hdollar].
    rewrite <-app_assoc. simpl app. rewrite parse_federation.
    + rewrite split_sep_utf8 by done. cbn [ok_or_fail ok_or mbind result_bind]. unfold string_from_bytes.
      apply Is_true_eq_true in Hu as ->. cbn [mbind result_bind]. apply Is_true_eq_true in Hok as ->. by rewrite He.
    + destruct server; [done|]. by simpl in *.
    + destruct server; [done|]. by simpl in *.
Qed.

Lemma event_of_end ev tail : key_end ev tail → event_of tail (stored_value ev) = Ok ev.
Proof.
  destruct ev as [id|json|]; simpl; [|by intros [Hj _]; destruct json|done].
  intros [-> Hid]. by rewrite Hid.
Qed.

Lemma parse_entry k v dest ev : entry_for k v dest ev → parse_servercurrentevent k v = Ok (dest, ev).
Proof. intros (Hd & -> & tail & -> & Hend). apply parse_key; [done|by apply event_of_end]. Qed.

Lemma entry_fun k v dest ev dest' ev' : entry_for k v dest ev → entry_for k v dest' ev' →
  dest = dest' ∧ ev = ev'.
Proof. intros He%parse_entry He'%parse_entry. rewrite He in He'. by simplify_eq. Qed.

(** A key starts with the prefix of its own destination only. *)
Lemma prefix_dest dest dest' k v ev : valid_dest dest → entry_for k v dest' ev →
  get_prefix dest `prefix_of` k ↔ dest' = dest.
Proof.
  intros Hd (Hd' & _ & tail & Hk & _). split; [|intros ->; by exists tail].
  intros [tail' Hk']. pose proof (parse_key dest tail' [1] (Edu [1]) Hd eq_refl) as Hp.
  pose proof (parse_key dest' tail [1] (Edu [1]) Hd' eq_refl) as Hp'.
  rewrite <-Hk' in Hp. rewrite <-Hk in Hp'. congruence.
Qed.

Lemma entry_nonempty k v dest ev : entry_for k v dest ev → k ≠ [].
Proof. intros (_ & _ & tail & -> & _). destruct dest as [| |[]]; done. Qed.

(** * The tables *)

(** Keys and values, for all the events ever stored: what the tables hold is among them. *)
Definition Wf (content : gmap bytes bytes) : Prop :=
  ∀ k v, content !! k = Some v → ∃ dest ev, entry_for k v dest ev.

(** [k] is the key of the event [ev] to [dest]. *)
Definition names (content : gmap bytes bytes) (k : bytes) (dest : Destination) (ev : SendingEvent) : Prop :=
  ∃ v, content !! k = Some v ∧ entry_for k v dest ev.

Lemma names_fun content k dest ev dest' ev' : names content k dest ev → names content k dest' ev' →
  dest = dest' ∧ ev = ev'.
Proof. intros (v & Hv & He) (v' & Hv' & He'). simplify_eq. by eapply entry_fun. Qed.

Lemma mapR_total {A B E} (f : A → comp E B) (l : list A) : (∀ x, x ∈ l → ∃ y, f x = Ok y) →
  ∃ ys, mapR f l = Ok ys ∧ ∀ y, y ∈ ys ↔ ∃ x, x ∈ l ∧ f x = Ok y.
Proof.
  induction l as [|x l IH]; intros Hf; [exists []; split; [done|set_solver]|].
  destruct (Hf x) as [y Hy]; [by left|]. destruct IH as (ys & Hys & Hel); [set_solver|].
  exists (y :: ys). simpl. rewrite Hy. cbn [mbind result_bind]. rewrite Hys. split; [done|].
  intros z. rewrite elem_of_cons, Hel. setoid_rewrite elem_of_cons. split.
  - intros [->|(x' & Hx' & Hz)]; eauto.
  - intros (x' & [->|Hx'] & Hz); [left; congruence|eauto].
Qed.

(** The events of one destination in a table. *)
Lemma requests_for_spec content (d : Db) c dest : Wf content → d c ⊆ content → valid_dest dest → ∃ l,
  requests_for d c dest = Ok l ∧ ∀ k ev, (k, ev) ∈ l ↔ is_Some (d c !! k) ∧ names content k dest ev.
Proof.
  intros Hwf Hsub Hd. unfold requests_for.
  assert (∀ k v, (k, v) ∈ raw_stream_prefix d c (get_prefix dest) ↔
    d c !! k = Some v ∧ ∃ ev, entry_for k v dest ev) as Hel.
  { intros k v. rewrite raw_stream_prefix_elem. split; intros [Hk Hp]; (split; [done|]).
    - destruct (Hwf k v) as (dest' & ev & He); [by eapply lookup_weaken|].
      apply (prefix_dest dest dest' k v ev) in Hp as ->; eauto.
    - destruct Hp as [ev He]. by eapply (prefix_dest dest dest). }
  match goal with |- context [mapR ?f ?l] => destruct (mapR_total f l) as (l' & -> & Hl) end.
  { intros [k v] [_ [ev He]]%Hel. rewrite (parse_entry _ _ _ _ He). by eexists. }
  exists l'. split; [done|]. intros k ev. rewrite Hl. split.
  - intros ([k' v] & [Hk [ev' He]]%Hel & Heq). rewrite (parse_entry _ _ _ _ He) in Heq.
    cbn [expect_ok mbind result_bind] in Heq. simplify_eq. split; [by eexists|].
    exists v. split; [by eapply lookup_weaken|done].
  - intros ([v Hk] & v' & Hv' & He). assert (v' = v) as -> by (eapply lookup_weaken in Hk; [|done]; congruence).
    exists (k, v). split; [apply Hel; eauto|]. by rewrite (parse_entry _ _ _ _ He).
Qed.

(** Deleting a destination's active events. *)
Lemma delete_active_spec content (d : Db) dest : Wf content → d servercurrentevent_data ⊆ content →
  valid_dest dest → let d' := delete_all_active_requests_for d dest in
  (∀ c, c ≠ servercurrentevent_data → d' c = d c) ∧
  (∀ k v, d' servercurrentevent_data !! k = Some v ↔
    d servercurrentevent_data !! k = Some v ∧ ¬ ∃ ev, entry_for k v dest ev).
Proof.
  intros Hwf Hsub Hd. unfold delete_all_active_requests_for, remove_all.
  destruct (remove_keys d servercurrentevent_data
    (raw_keys_prefix d servercurrentevent_data (get_prefix dest))) as [Ho Hk].
  split; [done|]. intros k v. rewrite Hk, raw_keys_prefix_filter. case_decide as Hin.
  - apply list_elem_of_filter in Hin as [Hp _]. split; [done|]. intros [Hv Hn]. exfalso. apply Hn.
    destruct (Hwf k v) as (dest' & ev & He); [by eapply lookup_weaken|].
    apply (prefix_dest dest dest' k v ev) in Hp as ->; eauto.
  - split; [|by intros [? _]]. intros Hv. split; [done|]. intros [ev He]. apply Hin, list_elem_of_filter.
    split; [by eapply (prefix_dest dest dest)|]. apply sorted_keys_elem. by eexists.
Qed.

(** Moving events to the active ones. *)
Lemma mark_as_active_spec content (d : Db) (events : list (bytes * SendingEvent)) :
  d servercurrentevent_data ⊆ content → d servernameevent_data ⊆ content →
  (∀ k ev, (k, ev) ∈ events → k ≠ [] → content !! k = Some (stored_value ev)) →
  let d' := mark_as_active d events in
  (∀ c, c ≠ servercurrentevent_data → c ≠ servernameevent_data → d' c = d c) ∧
  d' servercurrentevent_data ⊆ content ∧ d' servernameevent_data ⊆ content ∧
  (∀ k, is_Some (d' servercurrentevent_data !! k) ↔
    is_Some (d servercurrentevent_data !! k) ∨ k ≠ [] ∧ k ∈ events.*1) ∧
  (∀ k, is_Some (d' servernameevent_data !! k) ↔
    is_Some (d servernameevent_data !! k) ∧ ¬ (k ≠ [] ∧ k ∈ events.*1)).
Proof.
  unfold mark_as_active. revert d. induction events as [|[key ev] events IH]; intros d Ha Hq Hev.
  { split_and!; try done; intros k; csimpl; set_solver. }
  rewrite filter_cons. simpl. case_decide as Hne.
  - cbn [foldl]. set (d1 := remove _ _ _). assert (content !! key = Some (stored_value ev)) as Hkey
      by (apply Hev; [by left|done]).
    assert (d1 servercurrentevent_data = <[key := stored_value ev]> (d servercurrentevent_data)) as Hd1a
      by (subst d1; by dbs).
    assert (d1 servernameevent_data = delete key (d servernameevent_data)) as Hd1q by (subst d1; by dbs).
    destruct (IH d1) as (Ho & Ha' & Hq' & Hka & Hkq).
    + rewrite Hd1a. by apply insert_subseteq_l.
    + rewrite Hd1q. etrans; [apply delete_subseteq|done].
    + intros k e Hk. apply Hev. by right.
    + split_and!; try done.
      * intros c Hc Hc'. rewrite Ho by done. subst d1. by rewrite remove_other, insert_other.
      * intros k. rewrite Hka, Hd1a, lookup_insert_is_Some, elem_of_cons.
        clear -Hne. destruct (decide (k = key)) as [->|]; naive_solver.
      * intros k. rewrite Hkq, Hd1q, lookup_delete_is_Some, elem_of_cons.
        clear -Hne. destruct (decide (k = key)) as [->|]; naive_solver.
  - subst key. destruct (IH d) as (Ho & Ha' & Hq' & Hka & Hkq); [done|done| |].
    + intros k e Hk. apply Hev. by right.
    + split_and!; try done; intros k; rewrite ?Hka, ?Hkq, elem_of_cons; clear; naive_solver.
Qed.
End Keys.

(** * Property *)

Section Property.
Context `{!Parsers} `{!NameParsers} `{!NameLaws}.

(** The key and the value under which an event is stored give back its destination and the event,
    for all three kinds of destination; so two requests with the same key and value are the
    same, and a key starts with a destination's prefix just when it is that destination's. *)
Theorem queue_key_correct (dest : Destination) (ev : SendingEvent) (tail : bytes)
    (Hd : valid_dest dest) (He : key_end ev tail) :
  parse_servercurrentevent (get_prefix dest ++ tail) (stored_value ev) = Ok (dest, ev) ∧
  (∀ dest' ev' tail', valid_dest dest' → key_end ev' tail' →
    get_prefix dest' ++ tail' = get_prefix dest ++ tail → stored_value ev' = stored_value ev →
    dest' = dest ∧ ev' = ev) ∧
  (∀ dest', valid_dest dest' → get_prefix dest' `prefix_of` get_prefix dest ++ tail ↔ dest' = dest).
Proof.
  assert (entry_for (get_prefix dest ++ tail) (stored_value ev) dest ev) as Hentry
    by (split; [done|split; [done|by exists tail]]).
  split; [by apply parse_entry|]. split.
  - intros dest' ev' tail' Hd' He' Hk Hv.
    apply (entry_fun (get_prefix dest ++ tail) (stored_value ev)); [|done].
    split; [done|]. split; [done|]. by exists tail'.
  - intros dest' Hd'. rewrite (prefix_dest dest' dest _ _ _ Hd' Hentry). by split.
Qed.
End Property.

(** Names are accepted when they start with a small letter or [@]. *)
Module SendingWitness.
#[export] Instance any_parsers : Parsers := {| json_ok _ := true; cbor_ok _ := true |}.
#[export] Instance letters : NameParsers := {|
  user_id_ok u := match u with 64 :: _ => true | _ => false end;
  server_name_ok s := match s with b :: _ => (97 <=? b) && (b <=? 122) | [] => false end;
|}.
#[export] Instance letters_laws : NameLaws.
Proof. split. intros [|b s]; [done|]. simpl. intros Hb. apply andb_prop_elim in Hb as [Hb _]. split; intros [= ->]; done. Qed.

Definition pdu (n : Z) : RawId := raw_from_id {| shortroomid := 7; shorteventid := Normal n |}.

Lemma queue_key_correct_witness :
  parse_servercurrentevent (get_prefix (Push [64; 97] [255 - 128]) ++ as_bytes (pdu 255)) [] =
    Ok (Push [64; 97] [127], Pdu (pdu 255)).
Proof.
  exact (proj1 (queue_key_correct (Push [64; 97] [127]) (Pdu (pdu 255)) (as_bytes (pdu 255))
    (conj I (conj I I)) (conj eq_refl eq_refl))).
Defined.

(** An event without a value under a key that is no event's panics. *)
Example short_key_panics :
  parse_servercurrentevent (get_prefix (Federation [97]) ++ u64_to_be 1) [] = Err Panicked.
Proof. vm_compute. reflexivity. Qed.
End SendingWitness.
