(* ===== verification/SendingWorkerSpec.v ===== *)
(** The worker's invariant and what follows: nothing that was stored to be sent is lost, and a failed
    transaction is always one that was running. *)

From stdpp Require Import prelude gmap sorting.
From Stdlib Require Import ZArith Lia.
From S2P Require Import Prelude Bytes PduCount DbSer Database PairKeys Short Timeline Sending SendingWorker SendingSpec.
Local Open Scope Z_scope.

Section WorkerSpec.
Context `{!Parsers} `{!NameParsers} `{!NameLaws} `{!EduSources} (conf : Config).

Abbreviation active s := (sdb s servercurrentevent_data).
Abbreviation queued s := (sdb s servernameevent_data).

(** A destination whose transaction is on its way. *)
Definition busy (s : Sender) (dest : Destination) : Prop :=
  match statuses s !! dest with Some Running | Some (Retrying _) => True | _ => False end.

(** A message of the channel: a flush, or an event under its key. *)
Definition msg_ok (content : gmap bytes bytes) (m : Msg) : Prop :=
  valid_dest (msg_dest m) ∧
  (msg_event m = Flush ∧ msg_queue_id m = [] ∨ names content (msg_queue_id m) (msg_dest m) (msg_event m)).

(** The events stored as numbered have numbers the counter has passed. *)
Definition numbered (content : gmap bytes bytes) (n : Z) : Prop :=
  ∀ k dest json, names content k dest (Edu json) → ∃ m, 0 ≤ m ≤ n ∧ k = get_prefix dest ++ u64_to_be m.

(** [content] holds the keys and values of all events ever stored.  A destination is busy as long as one
    transaction to it is on its way; that transaction carries its active events; a destination
    without a status has none. *)
Record QueueInv (content : gmap bytes bytes) (s : Sender) : Prop := {
  iv_content : Wf content;
  iv_numbered : numbered content (counter (snd_world s));
  iv_active : active s ⊆ content;
  iv_queued : queued s ⊆ content;
  iv_channel : Forall (msg_ok content) (channel s);
  iv_once : NoDup (futures s).*1;
  iv_busy dest : dest ∈ (futures s).*1 ↔ busy s dest;
  iv_dest dest : dest ∈ (futures s).*1 → valid_dest dest;
  iv_carried dest events k ev : (dest, events) ∈ futures s → is_Some (active s !! k) →
    names content k dest ev → ev ∈ events;
  iv_idle dest k ev : statuses s !! dest = None → is_Some (active s !! k) → ¬ names content k dest ev;
  iv_health server n t : remote_health s !! server = Some (n, t) → 0 ≤ n;
}.

(** The parts of the state that decide the invariant. *)
Lemma QueueInv_ext content s s' : QueueInv content s →
  snd_world s' = snd_world s → statuses s' = statuses s → futures s' = futures s → channel s' = channel s →
  (∀ server n t, remote_health s' !! server = Some (n, t) → 0 ≤ n) → QueueInv content s'.
Proof.
  intros [] Hw Hs Hf Hc Hh. unfold sdb, busy in *. split; unfold sdb, busy; rewrite ?Hw, ?Hs, ?Hf, ?Hc; done.
Qed.

(** The future that is done is taken out. *)
Lemma futures_taken content s i dest events : QueueInv content s → futures s !! i = Some (dest, events) →
  dest ∉ (delete i (futures s)).*1 ∧ NoDup (delete i (futures s)).*1 ∧
  ∀ f, f ∈ delete i (futures s) ↔ f ∈ futures s ∧ f.1 ≠ dest.
Proof.
  intros Hinv Hi. pose proof (iv_once _ _ Hinv) as Hnd. apply delete_Permutation in Hi as Hp.
  rewrite Hp in Hnd. csimpl in Hnd. apply NoDup_cons in Hnd as [Hn Hnd]. split; [done|]. split; [done|].
  intros f. split.
  - intros Hf. split; [rewrite Hp; by right|]. intros <-. apply Hn. by apply list_elem_of_fmap_2.
  - intros [Hf Hne]. rewrite Hp in Hf. by apply elem_of_cons in Hf as [->|?].
Qed.

(** Changing statuses and futures for one destination, and moving its events. *)
Lemma QueueInv_step content (s s' : Sender) dest fs : QueueInv content s →
  counter (snd_world s') = counter (snd_world s) →
  active s' ⊆ content → queued s' ⊆ content → Forall (msg_ok content) (channel s') →
  (∀ f, f ∈ fs ↔ f ∈ futures s ∧ f.1 ≠ dest) → NoDup fs.*1 →
  (∀ d, d ≠ dest → statuses s' !! d = statuses s !! d) →
  (∀ server n t, remote_health s' !! server = Some (n, t) → 0 ≤ n) →
  (∀ k d ev, is_Some (active s' !! k) → names content k d ev → d ≠ dest → is_Some (active s !! k)) →
  (futures s' = fs ∧ ¬ busy s' dest ∧
     (statuses s' !! dest = None → ∀ k ev, is_Some (active s' !! k) → ¬ names content k dest ev) ∨
   ∃ events, futures s' = fs ++ [(dest, events)] ∧ busy s' dest ∧ valid_dest dest ∧
     ∀ k ev, is_Some (active s' !! k) → names content k dest ev → ev ∈ events) →
  QueueInv content s'.
Proof.
  intros Hinv Hc Ha Hq Hch Hfs Hnd Hst Hh Hact Hcase.
  assert (∀ d, d ∈ fs.*1 ↔ d ∈ (futures s).*1 ∧ d ≠ dest) as Hfs1.
  { intros d. rewrite !list_elem_of_fmap. setoid_rewrite Hfs. naive_solver. }
  assert (∀ d, d ≠ dest → busy s' d ↔ busy s d) as Hbusy by (intros d Hd; unfold busy; by rewrite Hst).
  assert (∀ d, d ∈ (futures s').*1 ↔ busy s' d) as Hbusy'.
  { intros d. destruct Hcase as [(-> & Hn & _)|(events & -> & Hb & _)].
    - rewrite Hfs1, (iv_busy _ _ Hinv). destruct (decide (d = dest)) as [->|Hne]; [tauto|].
      rewrite (Hbusy d Hne). tauto.
    - rewrite fmap_app, elem_of_app, Hfs1, (iv_busy _ _ Hinv). csimpl. rewrite list_elem_of_singleton.
      destruct (decide (d = dest)) as [->|Hne]; [tauto|]. rewrite (Hbusy d Hne). tauto. }
  assert (∀ f, f ∈ futures s' → f ∈ fs ∨ ∃ events, f = (dest, events) ∧ valid_dest dest ∧
    ∀ k ev, is_Some (active s' !! k) → names content k dest ev → ev ∈ events) as Hin.
  { intros f Hf. destruct Hcase as [(Heq & _)|(events & Heq & _ & Hd & Hev)]; rewrite Heq in Hf; [by left|].
    apply elem_of_app in Hf as [|Hf%list_elem_of_singleton]; [by left|right; eauto]. }
  split; try done; try (by apply Hinv).
  - rewrite Hc. apply Hinv.
  - destruct Hcase as [(-> & _)|(events & -> & _)]; [done|]. rewrite fmap_app. apply NoDup_app.
    split; [done|]. split; [|apply NoDup_singleton]. intros d [_ Hne]%Hfs1 ->%list_elem_of_singleton. done.
  - intros d (f & -> & Hf)%list_elem_of_fmap. destruct (Hin f Hf) as [[Hf' _]%Hfs|(? & -> & ? & _)]; [|done].
    apply (iv_dest _ _ Hinv). by apply list_elem_of_fmap_2.
  - intros d events k ev Hf Hk Hn. destruct (Hin _ Hf) as [[Hf' Hne]%Hfs|(events' & Heq & _ & Hev)].
    + eapply (iv_carried _ _ Hinv); eauto.
    + simplify_eq. by eapply Hev.
  - intros d k ev Hs Hk Hn. destruct (decide (d = dest)) as [->|Hne].
    + destruct Hcase as [(_ & _ & Hi)|(events & _ & Hb & _)]; [by eapply Hi|]. unfold busy in Hb. by rewrite Hs in Hb.
    + rewrite Hst in Hs by done. eapply (iv_idle _ _ Hinv); eauto.
Qed.

Lemma names_value content k dest ev : names content k dest ev → content !! k = Some (stored_value ev).
Proof. by intros (v & Hv & _ & -> & _). Qed.

(** An event that is to be delivered. *)
Definition pending (content : gmap bytes bytes) (s : Sender) (dest : Destination) (ev : SendingEvent) : Prop :=
  ∃ k, names content k dest ev ∧ (is_Some (active s !! k) ∨ is_Some (queued s !! k)).

(** ** Responses *)

(** A failed transaction was running: its destination is to be retried. *)
Lemma handle_response_err_spec content (s s0 : Sender) now i dest events : QueueInv content s →
  futures s !! i = Some (dest, events) → snd_world s0 = snd_world s → statuses s0 = statuses s →
  futures s0 = delete i (futures s) → channel s0 = channel s →
  (∀ server n t, remote_health s0 !! server = Some (n, t) → 0 ≤ n) →
  ∃ s', handle_response_err now dest s0 = Ok s' ∧ QueueInv content s' ∧ snd_world s' = snd_world s.
Proof.
  intros Hinv Hi Hw Hs Hf Hc Hh. destruct (futures_taken content s i dest events Hinv Hi) as (Hn & Hnd & Hfs).
  assert (busy s dest) as Hb.
  { apply (iv_busy _ _ Hinv). apply list_elem_of_fmap. exists (dest, events).
    split; [done|by eapply list_elem_of_lookup_2]. }
  assert (∀ t r, QueueInv content (with_statuses s0 (<[dest := Failed r t]> (statuses s0)))) as Hok.
  { intros t r. apply (QueueInv_step content s _ dest (delete i (futures s))); simpl; unfold sdb; simpl;
      rewrite ?Hw, ?Hs, ?Hf, ?Hc; try done; try apply Hinv.
    - intros d Hd. by rewrite lookup_insert_ne.
    - left. split; [done|]. unfold busy. simpl. rewrite ?Hs, lookup_insert_eq. split; [by intros []|done]. }
  unfold handle_response_err. rewrite Hs. unfold busy in Hb. destruct (statuses s !! dest) as [[|? ?|n]|] eqn:Hst; try done.
  - eexists. rewrite <-Hs. split; [done|]. split; [apply Hok|done].
  - eexists. rewrite <-Hs. split; [done|]. split; [apply Hok|done].
Qed.

(** A transaction that was acknowledged: its events are deleted and what came in meanwhile is sent. *)
Lemma handle_response_ok_spec content (s : Sender) i dest events : QueueInv content s →
  futures s !! i = Some (dest, events) → ∃ s',
  handle_response_ok dest (with_futures s (delete i (futures s))) = Ok s' ∧ QueueInv content s' ∧
  counter (snd_world s') = counter (snd_world s) ∧
  ∀ d ev, pending content s d ev → pending content s' d ev ∨ d = dest ∧ ev ∈ events.
Proof.
  intros Hinv Hi. destruct (futures_taken content s i dest events Hinv Hi) as (Hn & Hnd & Hfs).
  assert (dest ∈ (futures s).*1) as Hin.
  { apply list_elem_of_fmap. exists (dest, events). split; [done|by eapply list_elem_of_lookup_2]. }
  pose proof (iv_dest _ _ Hinv dest Hin) as Hd. pose proof (iv_content _ _ Hinv) as Hwf.
  unfold handle_response_ok. change (sdb (with_futures s ?f)) with (sdb s).
  destruct (delete_active_spec content (sdb s) dest Hwf (iv_active _ _ Hinv) Hd) as [Ho Ha].
  set (d1 := delete_all_active_requests_for (sdb s) dest) in *.
  assert (d1 servercurrentevent_data ⊆ content) as Ha1.
  { apply map_subseteq_spec. intros k v [Hk _]%Ha. by eapply lookup_weaken, (iv_active _ _ Hinv). }
  assert (d1 servernameevent_data ⊆ content) as Hq1 by (rewrite Ho by done; apply Hinv).
  set (s1 := match dest with Federation n => _ | _ => _ end).
  assert (sdb s1 = d1 ∧ statuses s1 = statuses s ∧ futures s1 = delete i (futures s) ∧ channel s1 = channel s ∧
    counter (snd_world s1) = counter (snd_world s) ∧
    ∀ server n t, remote_health s1 !! server = Some (n, t) → 0 ≤ n) as (Hs1 & Hst1 & Hf1 & Hc1 & Hcnt1 & Hh1).
  { subst s1. destruct dest; split_and!; try done; simpl; intros server0 n t; try apply (iv_health _ _ Hinv).
    intros [_ Hh]%lookup_delete_Some. by eapply (iv_health _ _ Hinv). }
  assert (∀ k d ev, is_Some (d1 servercurrentevent_data !! k) → names content k d ev →
    is_Some (active s !! k) ∧ d ≠ dest) as Hact1.
  { intros k d ev [v Hv] Hk. apply Ha in Hv as [Hv Hne]. split; [by eexists|]. intros ->.
    apply Hne. destruct Hk as (v' & Hv' & He). exists ev.
    assert (v' = v) as <-; [|done]. eapply lookup_weaken in Hv; [|apply (iv_active _ _ Hinv)]. congruence. }
  assert (∀ k d ev, is_Some (active s !! k) → names content k d ev →
    is_Some (d1 servercurrentevent_data !! k) ∨ d = dest ∧ ev ∈ events) as Hkeep.
  { intros k d ev [v Hv] Hk. destruct (decide (d = dest)) as [->|Hne].
    - right. split; [done|]. eapply (iv_carried _ _ Hinv); [by eapply list_elem_of_lookup_2|by eexists|done].
    - left. exists v. apply Ha. split; [done|]. intros [ev' He]. apply Hne.
      destruct Hk as (v' & Hv' & He'). eapply lookup_weaken in Hv; [|apply (iv_active _ _ Hinv)].
      simplify_eq. by eapply entry_fun. }
  rewrite Hs1. unfold queued_requests.
  destruct (requests_for_spec content d1 servernameevent_data dest Hwf Hq1 Hd) as (l & -> & Hl).
  cbn [mbind result_bind]. cbv zeta. destruct (take DEQUEUE_LIMIT l) as [|e new] eqn:Htake.
  - eexists. split; [done|]. split; [|split; [done|]].
    + apply (QueueInv_step content s _ dest (delete i (futures s))); simpl; unfold sdb in *; simpl;
        rewrite ?Hs1, ?Hc1, ?Hcnt1; try done; try apply Hinv.
      * intros d Hne. by rewrite Hst1, lookup_delete_ne.
      * intros k d ev Hk Hk' _. by eapply Hact1.
      * left. split; [done|]. unfold busy. simpl. rewrite lookup_delete_eq. split; [by intros []|].
        intros _ k ev Hk Hk'. by eapply Hact1.
    + intros d ev (k & Hk & [Hka|Hkq]).
      * destruct (Hkeep k d ev Hka Hk) as [?|?]; [left|by right]. exists k. split; [done|]. left.
        unfold sdb in *. simpl. by rewrite Hs1.
      * left. exists k. split; [done|]. right. unfold sdb in *. simpl. by rewrite Hs1, Ho.
  - set (sel := e :: new) in *.
    assert (∀ k ev, (k, ev) ∈ sel → is_Some (d1 servernameevent_data !! k) ∧ names content k dest ev) as Hsel.
    { intros k ev Hk. apply Hl. rewrite <-Htake in Hk. eapply elem_of_take in Hk as (j & Hj & _).
      by eapply list_elem_of_lookup_2. }
    destruct (mark_as_active_spec content d1 sel Ha1 Hq1) as (Ho2 & Ha2 & Hq2 & Hka2 & Hkq2).
    { intros k ev [_ Hk]%Hsel _. by eapply names_value. }
    set (d2 := mark_as_active d1 sel) in *.
    eexists. split; [done|]. split; [|split; [done|]].
    + apply (QueueInv_step content s _ dest (delete i (futures s))); simpl; unfold sdb in *; simpl;
        rewrite ?Hc1, ?Hcnt1; try done; try apply Hinv.
      * intros d Hne. by rewrite Hst1.
      * intros k d ev Hk Hk' Hne. apply Hka2 in Hk as [Hk|[_ Hk]]; [by eapply Hact1|]. exfalso.
        apply list_elem_of_fmap in Hk as ([k0 ev0] & Heq & [_ Hk0]%Hsel). simpl in Heq. subst k0.
        by destruct (names_fun _ _ _ _ _ _ Hk' Hk0).
      * right. exists sel.*2. rewrite Hf1. split; [done|]. split; [|split; [done|]].
        { unfold busy. simpl. rewrite Hst1. by apply (iv_busy _ _ Hinv). }
        intros k ev Hk Hk'. apply Hka2 in Hk as [Hk|[_ Hk]]; [by destruct (Hact1 k dest ev Hk Hk')|].
        apply list_elem_of_fmap in Hk as ([k0 ev0] & Heq & Hin0). simpl in Heq. subst k0.
        destruct (Hsel k ev0 Hin0) as [_ Hk0]. destruct (names_fun _ _ _ _ _ _ Hk' Hk0) as [_ ->].
        apply list_elem_of_fmap. by exists (k, ev0).
    + intros d ev (k & Hk & Hst). unfold pending, sdb in *. simpl. destruct Hst as [Hka|Hkq].
      * destruct (Hkeep k d ev Hka Hk) as [?|?]; [left|by right]. exists k. split; [done|]. left. apply Hka2. by left.
      * left. exists k. split; [done|].
        destruct (decide (k ≠ [] ∧ k ∈ sel.*1)) as [Hs|Hs]; [left; apply Hka2; by right|].
        right. apply Hkq2. by rewrite Ho.
Qed.

(** ** Requests *)

Lemma should_attempt_cases now dest s :
  should_attempt_send conf now dest s = ((false, false), s) ∨
  statuses s !! dest = None ∧
    should_attempt_send conf now dest s = ((true, false), with_statuses s (<[dest := Running]> (statuses s))) ∨
  (∃ n t, statuses s !! dest = Some (Failed n t)) ∧ ∃ n,
    should_attempt_send conf now dest s = ((true, true), with_statuses s (<[dest := Retrying n]> (statuses s))).
Proof.
  unfold should_attempt_send. destruct dest; repeat case_decide; try (by left);
    destruct (statuses s !! _) as [[|n t|n]|]; repeat case_decide; eauto 10.
Qed.

Lemma queued_spec content (s : Sender) dest : QueueInv content s → valid_dest dest → ∃ l,
  active_requests_for (sdb s) dest = Ok l ∧
  ∀ k ev, (k, ev) ∈ l ↔ is_Some (active s !! k) ∧ names content k dest ev.
Proof. intros Hinv Hd. apply requests_for_spec; [apply Hinv|apply Hinv|done]. Qed.

(** A message taken from the channel while nothing can be done for its destination. *)
Lemma QueueInv_channel content s ch : QueueInv content s → Forall (msg_ok content) ch →
  QueueInv content (with_channel s ch).
Proof. intros [] Hch. split; try done. Qed.

(** The destination of a message has no transaction: one is made, or it stays without. *)
Lemma QueueInv_send content s s' dest : QueueInv content s → ¬ busy s dest →
  counter (snd_world s') = counter (snd_world s) →
  active s' ⊆ content → queued s' ⊆ content → channel s' = channel s → remote_health s' = remote_health s →
  (∀ d, d ≠ dest → statuses s' !! d = statuses s !! d) →
  (∀ k d ev, is_Some (active s' !! k) → names content k d ev → d ≠ dest → is_Some (active s !! k)) →
  (futures s' = futures s ∧ ¬ busy s' dest ∧
     (statuses s' !! dest = None → ∀ k ev, is_Some (active s' !! k) → ¬ names content k dest ev) ∨
   ∃ events, futures s' = futures s ++ [(dest, events)] ∧ busy s' dest ∧ valid_dest dest ∧
     ∀ k ev, is_Some (active s' !! k) → names content k dest ev → ev ∈ events) →
  QueueInv content s'.
Proof.
  intros Hinv Hb Hc Ha Hq Hch Hh Hst Hact Hcase.
  apply (QueueInv_step content s s' dest (futures s)); rewrite ?Hch, ?Hh; try done; try apply Hinv.
  intros f. split; [|by intros [? _]]. intros Hf. split; [done|]. intros <-. apply Hb, (iv_busy _ _ Hinv).
  by apply list_elem_of_fmap_2.
Qed.

(** What a new transaction of one message's event is. *)
Lemma select_new_spec content (s : Sender) m now : QueueInv content s → msg_ok content m →
  should_attempt_send conf now (msg_dest m) s =
    ((true, false), with_statuses s (<[msg_dest m := Running]> (statuses s))) →
  ∃ s' edus, select_events conf now (msg_dest m) [(msg_queue_id m, msg_event m)] s =
    Ok (Some (msg_event m :: edus), s') ∧
  snd_world s' = with_db (snd_world s) (sdb s') ∧ statuses s' = <[msg_dest m := Running]> (statuses s) ∧
  futures s' = futures s ∧ channel s' = channel s ∧ remote_health s' = remote_health s ∧
  active s' ⊆ content ∧ queued s' ⊆ content ∧
  (∀ k, is_Some (active s' !! k) ↔ is_Some (active s !! k) ∨ k ≠ [] ∧ k = msg_queue_id m) ∧
  (∀ k, is_Some (queued s' !! k) ↔ is_Some (queued s !! k) ∧ ¬ (k ≠ [] ∧ k = msg_queue_id m)).
Proof.
  intros Hinv [Hd Hm] Hs. unfold select_events. rewrite Hs. cbn [negb]. cbv zeta.
  destruct (mark_as_active_spec content (sdb s) [(msg_queue_id m, msg_event m)]
    (iv_active _ _ Hinv) (iv_queued _ _ Hinv)) as (Ho & Ha & Hq & Hka & Hkq).
  { intros k ev [= -> ->]%list_elem_of_singleton Hne. destruct Hm as [(_ & ?)|Hn]; [done|].
    by eapply names_value. }
  change (sdb (with_statuses s ?st)) with (sdb s).
  set (d1 := mark_as_active _ _) in *. csimpl in Hka. csimpl in Hkq.
  setoid_rewrite list_elem_of_singleton in Hka. setoid_rewrite list_elem_of_singleton in Hkq.
  destruct (msg_dest m) as [id|u k|server]; [by (eexists _, []; split_and!)..|].
  destruct (select_edus conf _ server) as [edus last]. unfold set_latest_educount, raw_put, raw_bput.
  cbn [serialize expect_ok]. unfold sdb. cbn. eexists _, _. split; [done|].
  simpl. rewrite !insert_other by done. by split_and!.
Qed.

Lemma handle_request_spec content (s : Sender) m ch now : QueueInv content s → channel s = m :: ch →
  ∃ s', handle_request conf now m (with_channel s ch) = Ok s' ∧ QueueInv content s' ∧
  counter (snd_world s') = counter (snd_world s) ∧
  ∀ d ev, pending content s d ev → pending content s' d ev.
Proof.
  intros Hinv Hch. pose proof (iv_channel _ _ Hinv) as Hmsgs. rewrite Hch in Hmsgs.
  apply Forall_cons in Hmsgs as [Hm Hmsgs]. pose proof Hm as [Hd Hm'].
  pose proof (QueueInv_channel content s ch Hinv Hmsgs) as Hinv1. set (s1 := with_channel s ch) in *.
  assert (∀ s' d ev, active s' = active s1 → queued s' = queued s1 → pending content s d ev →
    pending content s' d ev) as Hsame.
  { intros s' d ev Ha Hq (k & Hk & Hst). exists k. split; [done|]. by rewrite Ha, Hq. }
  unfold handle_request. destruct (should_attempt_cases now (msg_dest m) s1) as [Hs|[[Hnone Hs]|[(n & t & Hf) [n' Hs]]]].
  - unfold select_events. rewrite Hs. cbn [negb mbind result_bind]. exists s1.
    split; [done|]. split; [done|]. split; [done|]. intros d ev. by apply Hsame.
  - destruct (select_new_spec content s1 m now Hinv1 Hm Hs)
      as (s2 & edus & -> & Hw & Hst & Hfu & Hc & Hh & Ha & Hq & Hka & Hkq).
    cbn [mbind result_bind]. eexists. split; [done|]. split; [|split].
    + apply (QueueInv_send content s1 _ (msg_dest m)); simpl; try done.
      * intros Hb. unfold busy in Hb. by rewrite Hnone in Hb.
      * by rewrite Hw.
      * intros d Hne. by rewrite Hst, lookup_insert_ne.
      * intros k d ev Hk Hn Hne. apply Hka in Hk as [?|[Hk ->]]; [done|]. exfalso. apply Hne.
        destruct Hm' as [(_ & ?)|Hn']; [done|]. by destruct (names_fun _ _ _ _ _ _ Hn Hn').
      * right. exists (msg_event m :: edus). rewrite Hfu. split; [done|]. split; [|split; [done|]].
        { unfold busy. simpl. by rewrite Hst, lookup_insert_eq. }
        intros k ev Hk Hn. apply Hka in Hk as [Hk|[Hk ->]]; [by destruct (iv_idle _ _ Hinv1 _ k ev Hnone Hk)|].
        destruct Hm' as [(_ & ?)|Hn']; [done|]. destruct (names_fun _ _ _ _ _ _ Hn Hn') as [_ ->]. by left.
    + simpl. by rewrite Hw.
    + intros d ev (k & Hk & Hst'). exists k. split; [done|]. unfold sdb in *. simpl.
      rewrite Hka, Hkq. destruct Hst' as [?|?]; [by left; left|].
      destruct (decide (k ≠ [] ∧ k = msg_queue_id m)); [left; by right|by right].
  - unfold select_events. rewrite Hs. cbn [negb]. change (sdb (with_statuses s1 ?st)) with (sdb s1).
    destruct (queued_spec content s1 (msg_dest m) Hinv1 Hd) as (l & -> & Hl). cbn [mbind result_bind].
    assert (¬ busy s1 (msg_dest m)) as Hb by (intros Hb; unfold busy in Hb; by rewrite Hf in Hb).
    destruct (l.*2) as [|e events] eqn:Hl2.
    + apply fmap_nil_inv in Hl2 as ->. eexists. split; [done|]. split; [|split; [done|by intros d ev; apply Hsame]].
      apply (QueueInv_send content s1 _ (msg_dest m)); simpl; try done; try apply Hinv.
      * intros d Hne. by rewrite lookup_delete_ne, lookup_insert_ne.
      * left. split; [done|]. unfold busy. simpl. rewrite lookup_delete_eq. split; [by intros []|].
        intros _ k ev Hk Hn. eapply not_elem_of_nil, Hl. by split.
    + eexists. split; [done|]. split; [|split; [done|by intros d ev; apply Hsame]].
      apply (QueueInv_send content s1 _ (msg_dest m)); simpl; try done; try apply Hinv.
      * intros d Hne. by rewrite lookup_insert_ne.
      * right. exists (e :: events). split; [done|]. unfold busy. simpl. rewrite lookup_insert_eq.
        split; [done|]. split; [done|]. intros k ev Hk Hn. rewrite <-Hl2. apply list_elem_of_fmap.
        exists (k, ev). split; [done|]. by apply Hl.
Qed.

(** ** Sending *)

Definition valid_request (r : SendingEvent * Destination) : Prop :=
  valid_dest r.2 ∧
  match r.1 with
  | Pdu id => raw_from_bytes (as_bytes id) = Some id
  | Edu json => json ≠ []
  | Flush => False
  end.

Lemma raw_length id : raw_from_bytes (as_bytes id) = Some id → length (as_bytes id) ≠ 8%nat.
Proof. unfold raw_from_bytes. repeat case_decide; try done; lia. Qed.

Lemma names_insert content k v k' d e : names (<[k := v]> content) k' d e →
  (k' = k ∧ entry_for k v d e) ∨ names content k' d e.
Proof. intros (v' & [[<- <-]|[_ Hv]]%lookup_insert_Some & He); [by left|right; by exists v']. Qed.

(** The key of a request is new, or was that of the same request. *)
Lemma request_key_spec content w ev dest : Wf content → numbered content (counter w) →
  0 ≤ counter w < u64_max → valid_request (ev, dest) → ∃ k w',
  request_key w ev dest = Ok (k, w') ∧ counter w ≤ counter w' ≤ counter w + 1 ∧
  (∀ c, c ≠ global → db w' c = db w c) ∧ entry_for k (stored_value ev) dest ev ∧
  (content !! k = None ∨ content !! k = Some (stored_value ev)) ∧
  numbered (<[k := stored_value ev]> content) (counter w').
Proof.
  intros Hwf Hnum Hc [Hd Hev]. simpl in Hd, Hev.
  assert (∀ tail v, content !! (get_prefix dest ++ tail) = Some v → ∃ ev', v = stored_value ev' ∧ key_end ev' tail)
    as Hold.
  { intros tail v Hv. destruct (Hwf _ _ Hv) as (d' & ev' & He). pose proof He as (_ & -> & tail' & Hk & Hend).
    assert (d' = dest) as -> by (eapply (prefix_dest dest d'); [done|done|by exists tail]).
    apply app_inv_head in Hk as ->. by exists ev'. }
  destruct ev as [id|json|]; [| |done]; unfold request_key.
  - exists (get_prefix dest ++ as_bytes id), w. split; [done|]. split; [lia|]. split; [done|].
    split; [split; [done|split; [done|by exists (as_bytes id)]]|].
    assert (content !! (get_prefix dest ++ as_bytes id) = None ∨
      content !! (get_prefix dest ++ as_bytes id) = Some (stored_value (Pdu id))) as Hfree.
    { destruct (content !! _) as [v|] eqn:Hv; [right|by left]. destruct (Hold _ _ Hv) as ([id'|j|] & -> & Hend); [done| |done].
      destruct Hend as (_ & n & _ & Htail). exfalso. apply (raw_length id Hev). by rewrite Htail. }
    split; [done|]. intros k' d j [[-> He]|Hn]%names_insert.
    + by destruct He as (_ & Hj & tail & Hk & Hne & n & Hun & ->).
    + destruct (Hnum _ _ _ Hn) as (m & Hm & ->). exists m. by split.
  - unfold next_count, checked_u64. rewrite decide_True by word. simpl default. cbn [expect_ok mbind result_bind].
    eexists _, _. split; [done|]. cbn [counter db]. split; [lia|].
    split; [intros c Hne; by apply insert_other|].
    split; [split; [done|split; [done|exists (u64_to_be (counter w + 1))]]|].
    { split; [done|]. split; [done|]. exists (counter w + 1). split; [word|done]. }
    assert (content !! (get_prefix dest ++ u64_to_be (counter w + 1)) = None) as Hfree.
    { destruct (content !! _) as [v|] eqn:Hv; [exfalso|done]. destruct (Hold _ _ Hv) as ([id'|j|] & -> & Hend); [| |done].
      - destruct Hend as [Htail Hid]. apply (raw_length id' Hid). by rewrite <-Htail.
      - assert (names content (get_prefix dest ++ u64_to_be (counter w + 1)) dest (Edu j)) as Hn.
        { eexists. split; [done|]. split; [done|]. split; [done|]. by eexists. }
        destruct (Hnum _ _ _ Hn) as (m & Hm & Hk). apply app_inv_head, u64_to_be_inj in Hk; word. }
    split; [by left|]. intros k' d j [[-> He]|Hn]%names_insert.
    + exists (counter w + 1). split; [word|]. destruct He as (Hd' & _ & tail & Hk & _).
      assert (dest = d) as ->; [|done].
      eapply (prefix_dest d dest _ [1] (Edu [1])); [done| |by exists tail].
      split; [done|]. split; [done|]. exists (u64_to_be (counter w + 1)). split; [done|].
      split; [done|]. exists (counter w + 1). split; [word|done].
    + destruct (Hnum _ _ _ Hn) as (m & Hm & ->). exists m. split; [lia|done].
Qed.

Lemma names_weaken content content' k d e : content ⊆ content' → names content k d e → names content' k d e.
Proof. intros Hs (v & Hv & He). exists v. split; [by eapply lookup_weaken|done]. Qed.

Lemma request_keys_spec reqs : ∀ content w, Wf content → numbered content (counter w) →
  0 ≤ counter w → counter w + Z.of_nat (length reqs) ≤ u64_max → Forall valid_request reqs → ∃ keys w' content',
  request_keys w reqs = Ok (keys, w') ∧ counter w ≤ counter w' ≤ counter w + Z.of_nat (length reqs) ∧
  (∀ c, c ≠ global → db w' c = db w c) ∧ content ⊆ content' ∧ Wf content' ∧ numbered content' (counter w') ∧
  Forall2 (fun r k => names content' k r.2 r.1) reqs keys.
Proof.
  induction reqs as [|[ev dest] reqs IH]; intros content w Hwf Hnum Hc0 Hc Hr.
  { exists [], w, content. split_and!; try done; simpl; lia. }
  apply Forall_cons in Hr as [Hr Hrs]. cbn [length] in Hc.
  destruct (request_key_spec content w ev dest Hwf Hnum ltac:(lia) Hr)
    as (k & w1 & Hk & Hc1 & Ho1 & He & Hfree & Hnum1).
  assert (content ⊆ <[k := stored_value ev]> content) as Hsub1.
  { destruct Hfree as [Hn|Hs]; [by apply insert_subseteq|by rewrite insert_id]. }
  destruct (IH (<[k := stored_value ev]> content) w1) as (keys & w' & content' & Hks & Hc' & Ho & Hsub & Hwf' & Hnum' & Hnames);
    [|done|lia|lia|done|].
  { intros k' v [[<- <-]|[_ Hv]]%lookup_insert_Some; [by exists dest, ev|by apply Hwf]. }
  exists (k :: keys), w', content'. cbn [request_keys length]. rewrite Hk. cbn [mbind result_bind]. rewrite Hks.
  split; [done|]. split; [lia|]. split; [intros c Hne; by rewrite Ho, Ho1|].
  split; [by etrans|]. split; [done|]. split; [done|]. constructor; [|done]. simpl.
  eapply names_weaken; [exact Hsub|]. exists (stored_value ev). split; [apply lookup_insert_eq|done].
Qed.

(** The batch written. *)
Lemma insert_batch_spec content (d : Db) (kes : list (bytes * SendingEvent)) : d servernameevent_data ⊆ content →
  (∀ k ev, (k, ev) ∈ kes → content !! k = Some (stored_value ev)) →
  let d' := foldl (fun d '(key, event) => insert d servernameevent_data key (stored_value event)) d kes in
  (∀ c, c ≠ servernameevent_data → d' c = d c) ∧ d' servernameevent_data ⊆ content ∧
  ∀ k, is_Some (d' servernameevent_data !! k) ↔ is_Some (d servernameevent_data !! k) ∨ k ∈ kes.*1.
Proof.
  revert d. induction kes as [|[key ev] kes IH]; intros d Hq Hk; cbv zeta; cbn [foldl].
  { split_and!; try done. intros k. csimpl. rewrite elem_of_nil. tauto. }
  destruct (IH (insert d servernameevent_data key (stored_value ev))) as (Ho & Hq' & Hk').
  { rewrite insert_same. apply insert_subseteq_l; [apply Hk; by left|done]. }
  { intros k e He. apply Hk. by right. }
  split; [intros c Hc; rewrite Ho by done; by apply insert_other|]. split; [done|].
  intros k. rewrite Hk', insert_same, lookup_insert_is_Some. csimpl. rewrite elem_of_cons.
  clear. destruct (decide (key = k)) as [->|]; naive_solver.
Qed.

(** More events are known. *)
Lemma QueueInv_weaken content content' s w' : QueueInv content s → content ⊆ content' → Wf content' →
  numbered content' (counter w') → active (with_snd_world s w') = active s → db w' servernameevent_data ⊆ content' →
  QueueInv content' (with_snd_world s w').
Proof.
  intros Hinv Hsub Hwf Hnum Ha Hq.
  assert (∀ k d ev, is_Some (active s !! k) → names content' k d ev → names content k d ev) as Hback.
  { intros k d ev [v Hv] (v' & Hv' & He). eapply lookup_weaken in Hv; [|apply (iv_active _ _ Hinv)].
    pose proof (lookup_weaken _ _ _ _ Hv Hsub). assert (v' = v) as -> by congruence. by exists v. }
  split; rewrite ?Ha; try done; try apply Hinv.
  - etrans; [apply (iv_active _ _ Hinv)|done].
  - eapply Forall_impl; [apply (iv_channel _ _ Hinv)|]. intros m [Hd Hm]. split; [done|].
    destruct Hm as [?|Hm]; [by left|right]. by apply (names_weaken content).
  - intros dest events k ev Hf Hk Hn. apply (iv_carried _ _ Hinv dest events k ev Hf Hk). by apply Hback.
  - intros dest k ev Hs Hk Hn. apply (iv_idle _ _ Hinv dest k ev Hs Hk). by apply Hback.
Qed.

Lemma dispatch_all (s : Sender) (msgs : list ((SendingEvent * Destination) * bytes)) :
  foldl (fun s '((event, dest), queue_id) =>
           dispatch s {| msg_dest := dest; msg_event := event; msg_queue_id := queue_id |}) s msgs
  = with_channel s (channel s ++ map (fun '((event, dest), queue_id) =>
      {| msg_dest := dest; msg_event := event; msg_queue_id := queue_id |}) msgs).
Proof.
  revert s. induction msgs as [|[[ev dest] k] msgs IH]; intros s; cbn [foldl map].
  - rewrite app_nil_r. by destruct s.
  - rewrite IH. simpl. unfold with_channel. simpl. by rewrite <-app_assoc.
Qed.

Lemma send_requests_spec content (s : Sender) reqs : QueueInv content s → Forall valid_request reqs →
  0 ≤ counter (snd_world s) → counter (snd_world s) + Z.of_nat (length reqs) ≤ u64_max → ∃ content' s',
  send_requests s reqs = Ok s' ∧ QueueInv content' s' ∧ content ⊆ content' ∧
  counter (snd_world s) ≤ counter (snd_world s') ≤ counter (snd_world s) + Z.of_nat (length reqs) ∧
  (∀ d ev, pending content s d ev → pending content' s' d ev) ∧
  (∀ d ev, (ev, d) ∈ reqs → pending content' s' d ev).
Proof.
  intros Hinv Hr Hc0 Hc. unfold send_requests, queue_requests.
  destruct (request_keys_spec reqs content (snd_world s)) as (keys & w & content' & -> & Hc' & Ho & Hsub & Hwf & Hnum & Hnames);
    [apply Hinv|apply Hinv|done|done|done|].
  cbn [mbind result_bind]. rewrite dispatch_all.
  assert (length keys = length reqs) as Hlen by by rewrite <-(Forall2_length _ _ _ Hnames).
  assert (∀ k ev, (k, ev) ∈ zip keys reqs.*1 → ∃ dest, (ev, dest) ∈ reqs ∧ names content' k dest ev) as Hzip.
  { intros k ev Hk. apply elem_of_lookup_zip_with in Hk as (i & k' & ev' & Heq & Hki & Hei). simplify_eq.
    apply list_lookup_fmap_Some in Hei as ([e dest] & -> & Hri).
    exists dest. split; [by eapply list_elem_of_lookup_2|].
    exact (Forall2_lookup_lr _ _ _ _ _ _ Hnames Hri Hki). }
  destruct (insert_batch_spec content' (db w) (zip keys reqs.*1)) as (Hob & Hqb & Hkb).
  { rewrite Ho by done. etrans; [apply (iv_queued _ _ Hinv)|done]. }
  { intros k ev (dest & _ & Hn)%Hzip. by eapply names_value. }
  set (d' := foldl _ (db w) (zip keys reqs.*1)) in *.
  assert ((zip keys reqs.*1).*1 = keys) as Hkeys by (apply fst_zip; rewrite length_fmap; lia).
  rewrite Hkeys in Hkb.
  assert (active (with_snd_world s (with_db w d')) = active s) as Hact
    by (unfold sdb; simpl; rewrite Hob by done; by apply Ho).
  eexists content', _. split; [done|]. split; [|split; [done|split; [done|split]]].
  - assert (QueueInv content' (with_snd_world s (with_db w d'))) as Hinv'
      by (apply (QueueInv_weaken content); done).
    apply (QueueInv_channel content' (with_snd_world s (with_db w d'))); [done|].
    apply Forall_app. split; [apply (iv_channel _ _ Hinv')|].
    apply Forall_forall. intros m ([[ev dest] k] & -> & Hm)%list_elem_of_fmap.
    apply elem_of_lookup_zip_with in Hm as (i & r & k' & Heq & Hri & Hki). simplify_eq.
    pose proof (Forall2_lookup_lr _ _ _ _ _ _ Hnames Hri Hki) as Hn. split; [|by right].
    eapply Forall_lookup_1 in Hri; [|exact Hr]. apply Hri.
  - intros d ev (k & Hk & Hst). exists k. split; [by apply (names_weaken content)|].
    unfold sdb in *. simpl in Hact |- *. rewrite Hact, Hkb, Ho by done. tauto.
  - intros d ev [i Hri]%list_elem_of_lookup. destruct (Forall2_lookup_l _ _ _ _ _ Hnames Hri) as (k & Hki & Hn).
    exists k. split; [done|]. right. unfold sdb. simpl. apply Hkb. right. by eapply list_elem_of_lookup_2.
Qed.

(** ** Steps *)

(** The configured times fit. *)
Definition conf_ok : Prop :=
  0 ≤ sender_retry_backoff_base conf ∧ 0 ≤ sender_retry_backoff_limit conf ≤ u64_max / 1000.

Lemma hit_unhealthy_spec now (s : Sender) server : conf_ok →
  (∀ server n t, remote_health s !! server = Some (n, t) → 0 ≤ n) → ∃ h,
  hit_unhealthy conf now s server = Ok (with_health s h (stale_destinations s)) ∧
  (∀ server n t, h !! server = Some (n, t) → 0 ≤ n).
Proof.
  intros [Hb Hl] Hh. unfold hit_unhealthy.
  assert (∃ r t, default (0, 0) (remote_health s !! server) = (r, t) ∧ 0 ≤ r) as (r & t & -> & Hr).
  { destruct (remote_health s !! server) as [[r t]|] eqn:Hs; [exists r, t|exists 0, 0]; split; try done.
    by eapply Hh. }
  case_decide.
  - eexists. split; [done|]. intros sv n t' [[<- [= <- <-]]|[_ Hs]]%lookup_insert_Some; [done|by eapply Hh].
  - unfold checked_u64. rewrite decide_True.
    2:{ unfold saturating_inc_u32, u32_max. pose proof (Z.mul_div_le u64_max 1000). word. }
    cbn [expect ok_or mbind result_bind]. eexists. split; [done|].
    intros sv n t' [[<- [= <- <-]]|[_ Hs]]%lookup_insert_Some; [|by eapply Hh].
    unfold saturating_inc_u32, u32_max. lia.
Qed.

Lemma handle_response_spec content (s : Sender) now i dest events response : conf_ok → QueueInv content s →
  futures s !! i = Some (dest, events) → ∃ s',
  handle_response conf now dest response (with_futures s (delete i (futures s))) = Ok s' ∧
  QueueInv content s' ∧ counter (snd_world s') = counter (snd_world s) ∧
  ∀ d ev, pending content s d ev → pending content s' d ev ∨ response = Ok tt ∧ d = dest ∧ ev ∈ events.
Proof.
  intros Hconf Hinv Hi. destruct response as [[]|e]; cbn [handle_response].
  - destruct (handle_response_ok_spec content s i dest events Hinv Hi) as (s' & -> & Hs' & Hc & Hp).
    exists s'. split_and!; try done. intros d ev Hd. destruct (Hp d ev Hd) as [?|?]; [by left|by right].
  - set (s0 := with_futures s (delete i (futures s))).
    assert (∃ h st, match dest with
      | Federation server_name =>
          if should_mark_stale e || bool_decide (status_code e = 404)
          then hit_unhealthy conf now (mark_destination_stale s0 server_name) server_name
          else if decide (status_code e ≠ 200) then hit_unhealthy conf now s0 server_name else Ok s0
      | _ => Ok s0
      end = Ok (with_health s0 h st) ∧ ∀ server n t, h !! server = Some (n, t) → 0 ≤ n) as (h & st & -> & Hh).
    { pose proof (iv_health _ _ Hinv) as Hhs. assert (s0 = with_health s0 (remote_health s0) (stale_destinations s0)) as Hsame by done.
      destruct dest as [| |server]; [by eexists _, _; split; [exact (f_equal Ok Hsame)|]..|].
      repeat case_match; try (by eexists _, _; split; [exact (f_equal Ok Hsame)|]).
      - destruct (hit_unhealthy_spec now (mark_destination_stale s0 server) server Hconf) as (h & -> & Hh); [done|].
        by exists h, ({[server]} ∪ stale_destinations s0).
      - destruct (hit_unhealthy_spec now s0 server Hconf) as (h & -> & Hh); [done|]. by exists h, (stale_destinations s0). }
    cbn [mbind result_bind].
    destruct (handle_response_err_spec content s (with_health s0 h st) now i dest events) as (s' & -> & Hs' & Hw); try done.
    exists s'. split; [done|]. split; [done|]. split; [by rewrite Hw|]. intros d ev Hd. left.
    destruct Hd as (k & Hk & Hst). exists k. split; [done|]. unfold sdb in *. by rewrite Hw.
Qed.

Definition label_ok (l : label) : Prop :=
  match l with
  | LSend requests => Forall valid_request requests
  | LFlush servers => Forall (fun server => valid_dest (Federation server)) servers
  | _ => True
  end.

Definition requests_of (l : label) : list (SendingEvent * Destination) :=
  match l with LSend requests => requests | _ => [] end.

(** The transaction a step acknowledges. *)
Definition acked (s : Sender) (l : label) : list SendingFuture :=
  match l with LResponse _ i (Ok _) => option_list (futures s !! i) | _ => [] end.

Lemma flush_all (s : Sender) servers :
  flush_servers s servers = with_channel s (channel s ++ map (fun server =>
    {| msg_dest := Federation server; msg_event := Flush; msg_queue_id := [] |}) servers).
Proof.
  unfold flush_servers. revert s. induction servers as [|sv servers IH]; intros s; cbn [foldl map].
  - rewrite app_nil_r. by destruct s.
  - rewrite IH. unfold with_channel. simpl. by rewrite <-app_assoc.
Qed.

Lemma step_spec content (s : Sender) l : conf_ok → QueueInv content s → label_ok l →
  0 ≤ counter (snd_world s) →
  counter (snd_world s) + Z.of_nat (length (requests_of l)) ≤ u64_max → ∃ content' s',
  step conf s l = Ok s' ∧ QueueInv content' s' ∧ content ⊆ content' ∧
  counter (snd_world s) ≤ counter (snd_world s') ≤ counter (snd_world s) + Z.of_nat (length (requests_of l)) ∧
  (∀ d ev, pending content s d ev → pending content' s' d ev ∨ ∃ events, (d, events) ∈ acked s l ∧ ev ∈ events) ∧
  (∀ d ev, (ev, d) ∈ requests_of l → pending content' s' d ev).
Proof.
  intros Hconf Hinv Hl Hc0 Hc. destruct l as [reqs|servers|now|now i response]; cbn [step requests_of length] in *.
  - destruct (send_requests_spec content s reqs Hinv Hl Hc0 Hc) as (content' & s' & -> & Hs' & Hsub & Hc' & Hp & Hr).
    exists content', s'. split_and!; try (done || lia). intros d ev Hd. left. by apply Hp.
  - rewrite flush_all. eexists content, _. split; [done|]. split; [|split; [done|split; [simpl; lia|split]]].
    + apply QueueInv_channel; [done|]. apply Forall_app. split; [apply Hinv|].
      apply Forall_forall. intros m (sv & -> & Hsv)%list_elem_of_fmap. split; [|by left].
      by eapply Forall_forall in Hl.
    + intros d ev Hd. by left.
    + intros d ev Hin. by apply not_elem_of_nil in Hin.
  - destruct (channel s) as [|m ch] eqn:Hch.
    + exists content, s. split_and!; try (done || lia); [intros d ev Hd; by left|]. intros d ev Hin. by apply not_elem_of_nil in Hin.
    + destruct (handle_request_spec content s m ch now Hinv Hch) as (s' & -> & Hs' & Hcnt & Hp).
      exists content, s'. split_and!; try (done || lia); [intros d ev Hd; left; by apply Hp|].
      intros d ev Hin. by apply not_elem_of_nil in Hin.
  - destruct (futures s !! i) as [[dest events]|] eqn:Hi.
    + destruct (handle_response_spec content s now i dest events response Hconf Hinv Hi)
        as (s' & -> & Hs' & Hcnt & Hp).
      exists content, s'. split_and!; try (done || lia); [|intros d ev Hin; by apply not_elem_of_nil in Hin].
      intros d ev Hd. destruct (Hp d ev Hd) as [?|(-> & -> & He)]; [by left|right].
      exists events. split; [|done]. unfold acked. replace (futures s !! i) with (Some ((dest, events) : SendingFuture)) by (symmetry; exact Hi). by left.
    + exists content, s. split_and!; try (done || lia); [intros d ev Hd; by left|]. intros d ev Hin. by apply not_elem_of_nil in Hin.
Qed.
End WorkerSpec.

(** * Start *)

Section StartSpec.
Context `{!Parsers} `{!NameParsers} `{!NameLaws} (conf : Config).
Context {P : Type} `{!PduJson P} `{!StickyPdu P} `{!HashIter Destination} `{!HashIterLaws Destination}.
Variables (shard_id : Destination → nat) (id : nat).
Hypothesis one_shard : ∀ dest, shard_id dest = id.

Abbreviation active s := (sdb s servercurrentevent_data).

(** What is gathered: every event that stays stored is among its destination's. *)
Lemma collect_active_spec now act : ∀ (d : Db) txns, ∃ txns' (d' : Db),
  collect_active conf (P := P) shard_id id now d txns act = (txns', d') ∧
  (∀ c, c ≠ servercurrentevent_data → d' c = d c) ∧
  d' servercurrentevent_data ⊆ d servercurrentevent_data ∧
  (startup_netburst_keep conf < 0 → d' = d) ∧
  (∀ dest ev, ev ∈ default [] (txns !! dest) → ev ∈ default [] (txns' !! dest)) ∧
  (∀ key ev dest, (key, ev, dest) ∈ act → is_Some (d' servercurrentevent_data !! key) →
    ev ∈ default [] (txns' !! dest)) ∧
  (∀ dest, is_Some (txns' !! dest) → is_Some (txns !! dest) ∨ ∃ key ev, (key, ev, dest) ∈ act).
Proof.
  induction act as [|[[key ev] dest] act IH]; intros d txns; cbn [collect_active].
  { exists txns, d. split_and!; try done; [|by left]. intros key ev dest Hin. by apply not_elem_of_nil in Hin. }
  rewrite decide_False by (intros Hne; by apply Hne). cbv zeta.
  set (entry := default [] (txns !! dest)).
  assert (∀ x, x ∈ default [] (txns !! dest) → x ∈ entry) as Hentry by done.
  case_match eqn:Hover.
  - destruct (IH (delete_active_request d key) (<[dest := entry]> txns))
      as (txns' & d' & -> & Ho & Hsub & Hkeep & Hmono & Hin & Hdest).
    exists txns', d'. unfold delete_active_request in *. split; [done|].
    split; [intros c Hc; rewrite Ho by done; by apply remove_other|].
    rewrite remove_same in Hsub. split; [etrans; [done|apply delete_subseteq]|].
    split; [intros Hneg; apply andb_true_iff in Hover as [Hb _]; apply bool_decide_eq_true in Hb; lia|].
    split_and!.
    + intros dest' x Hx. apply Hmono. destruct (decide (dest = dest')) as [->|Hne];
        [by rewrite lookup_insert_eq|by rewrite lookup_insert_ne].
    + intros k e dest' [Heq|Hk]%elem_of_cons Hst; [|by eapply Hin]. simplify_eq.
      destruct Hst as [v Hv]. eapply lookup_weaken in Hv; [|exact Hsub]. by rewrite lookup_delete_eq in Hv.
    + intros dest' Hs. destruct (Hdest dest' Hs) as [Hs'|(k & e & Hk)]; [|right; exists k, e; by right].
      apply lookup_insert_is_Some in Hs' as [<-|[_ ?]]; [right; exists key, ev; by left|by left].
  - destruct (IH d (<[dest := entry ++ [ev]]> txns)) as (txns' & d' & -> & Ho & Hsub & Hkeep & Hmono & Hin & Hdest).
    exists txns', d'. split; [done|]. split; [done|]. split; [done|]. split; [done|]. split_and!.
    + intros dest' x Hx. apply Hmono. destruct (decide (dest = dest')) as [->|Hne];
        [rewrite lookup_insert_eq; simpl; apply elem_of_app; by left|by rewrite lookup_insert_ne].
    + intros k e dest' [Heq|Hk]%elem_of_cons Hst; [|by eapply Hin]. simplify_eq.
      apply Hmono. rewrite lookup_insert_eq. simpl. apply elem_of_app. right. by left.
    + intros dest' Hs. destruct (Hdest dest' Hs) as [Hs'|(k & e & Hk)]; [|right; exists k, e; by right].
      apply lookup_insert_is_Some in Hs' as [<-|[_ ?]]; [right; exists key, ev; by left|by left].
Qed.

(** The transactions begun. *)
Definition begun (l : list (Destination * list SendingEvent)) := filter (fun f => f.2 ≠ []) l.

Lemma begun_NoDup l : NoDup l.*1 → NoDup (begun l).*1.
Proof.
  intros Hnd. eapply sublist_NoDup; [exact Hnd|]. apply fmap_sublist, sublist_filter.
Qed.

Lemma begin_all (s : Sender) l : startup_netburst conf = true → NoDup l.*1 →
  let s' := foldl (fun s '(dest, events) =>
      if startup_netburst conf && bool_decide (events ≠ [])
      then with_futures (with_statuses s (<[dest := Running]> (statuses s))) (futures s ++ [(dest, events)])
      else s) s l in
  snd_world s' = snd_world s ∧ channel s' = channel s ∧ remote_health s' = remote_health s ∧
  futures s' = futures s ++ begun l ∧
  ∀ d, statuses s' !! d = if decide (d ∈ (begun l).*1) then Some Running else statuses s !! d.
Proof.
  intros ->. cbn [andb]. unfold begun. revert s. induction l as [|[dest events] l IH]; intros s Hnd; cbn [foldl].
  { csimpl. rewrite app_nil_r. by split_and!. }
  csimpl in Hnd. apply NoDup_cons in Hnd as [Hn Hnd]. rewrite filter_cons. simpl snd.
  destruct (decide (events ≠ [])) as [Hne|He].
  - rewrite bool_decide_eq_true_2 by done.
    destruct (IH (with_futures (with_statuses s (<[dest := Running]> (statuses s))) (futures s ++ [(dest, events)])) Hnd)
      as (Hw & Hc & Hh & Hf & Hst). split_and!; try done.
    + rewrite Hf. simpl. by rewrite <-app_assoc.
    + intros d. rewrite Hst. simpl statuses. csimpl. case_decide as Hd.
      { rewrite decide_True; [done|]. by right. }
      case_decide as Hd'; [apply elem_of_cons in Hd' as [->|?]; [apply lookup_insert_eq|done]|].
      apply lookup_insert_ne. intros <-. apply Hd'. by left.
  - rewrite bool_decide_eq_false_2 by done. by apply IH.
Qed.

(** The worker starts in order, whatever the last one left. *)
Lemma netburst_spec content (s : Sender) now : Wf content → numbered content (counter (snd_world s)) →
  sdb s servercurrentevent_data ⊆ content → sdb s servernameevent_data ⊆ content →
  Forall (msg_ok content) (channel s) → statuses s = ∅ → futures s = [] →
  (∀ server n t, remote_health s !! server = Some (n, t) → 0 ≤ n) → startup_netburst conf = true → ∃ s',
  netburst conf (P := P) shard_id id now s = Ok s' ∧ QueueInv content s' ∧
  (startup_netburst_keep conf < 0 → ∀ d ev, pending content s d ev → pending content s' d ev).
Proof.
  intros Hwf Hnum Ha Hq Hch Hst Hfu Hh Hnet. unfold netburst.
  unfold active_requests. match goal with |- context [mapR ?f ?l] => destruct (mapR_total f l) as (act & -> & Hact) end.
  { intros [k v] Hk%entries_elem. destruct (Hwf k v) as (dest & ev & He); [by eapply lookup_weaken|].
    rewrite (parse_entry _ _ _ _ He). by eexists. }
  cbn [mbind result_bind].
  destruct (collect_active_spec now act (sdb s) ∅) as (txns & d & -> & Ho & Hsub & Hkeep & _ & Hin & Hdest).
  assert (NoDup (iter_map txns).*1) as Hnd by (rewrite iter_map_perm; apply NoDup_fst_map_to_list).
  destruct (begin_all (with_snd_db s d) (iter_map txns) Hnet Hnd) as (Hw & Hc & Hhe & Hf & Hs).
  eexists. split; [done|]. set (s' := foldl _ _ _) in *. simpl in Hw, Hc, Hhe, Hf, Hs. rewrite Hfu in Hf. simpl in Hf.
  assert (∀ dest events, (dest, events) ∈ begun (iter_map txns) → txns !! dest = Some events ∧ events ≠ []) as Hb.
  { intros dest events [Hne Hm]%list_elem_of_filter. rewrite iter_map_perm in Hm. by apply elem_of_map_to_list in Hm. }
  assert (∀ k dest ev, is_Some (d servercurrentevent_data !! k) → names content k dest ev →
    ev ∈ default [] (txns !! dest)) as Hev.
  { intros k dest ev Hk (v & Hv & He). apply (Hin k); [|done]. apply Hact. exists (k, v). split.
    - apply entries_elem. destruct Hk as [v' Hv']. eapply lookup_weaken in Hv'; [|exact Hsub].
      pose proof (lookup_weaken _ _ _ _ Hv' Ha). by simplify_eq.
    - by rewrite (parse_entry _ _ _ _ He). }
  assert (∀ dest ev, ev ∈ default [] (txns !! dest) → dest ∈ (begun (iter_map txns)).*1) as Hstarted.
  { intros dest ev He. destruct (txns !! dest) as [events|] eqn:Ht; [|by apply not_elem_of_nil in He].
    apply list_elem_of_fmap. exists (dest, events). split; [done|]. apply list_elem_of_filter.
    split; [intros Hnil; simpl in Hnil, He; subst; by apply not_elem_of_nil in He|]. rewrite iter_map_perm. by apply elem_of_map_to_list. }
  split.
  - split; unfold sdb; rewrite ?Hw, ?Hc, ?Hhe, ?Hf; simpl; try done.
    + etrans; [exact Hsub|done].
    + by rewrite Ho.
    + by apply begun_NoDup.
    + intros dest. unfold busy. rewrite Hs. case_decide; [done|]. by rewrite Hst, lookup_empty.
    + intros dest (f & -> & Hf')%list_elem_of_fmap. destruct f as [dest events]. destruct (Hb dest events Hf') as [Ht _].
      destruct (Hdest dest) as [[? He]|(k & ev & Hk)]; [by eexists|by rewrite lookup_empty in He|].
      apply Hact in Hk as ([k' v] & Hk%entries_elem & Heq).
      destruct (Hwf k' v) as (dest' & ev' & He); [by eapply lookup_weaken|].
      rewrite (parse_entry _ _ _ _ He) in Heq. cbn [expect_ok mbind result_bind] in Heq. simplify_eq. apply He.
    + intros dest events k ev Hf' Hk Hn. destruct (Hb dest events Hf') as [Ht _].
      pose proof (Hev k dest ev Hk Hn) as He. by rewrite Ht in He.
    + intros dest k ev Hnone Hk Hn. rewrite Hs, decide_True in Hnone; [done|]. by eapply Hstarted, Hev.
  - intros Hneg dest ev (k & Hk & Hp). exists k. split; [done|]. unfold sdb in *. rewrite Hw. simpl. by rewrite Hkeep.
Qed.
End StartSpec.

(** * Properties *)

Section Properties.
Context `{!Parsers} `{!NameParsers} `{!NameLaws} `{!EduSources} (conf : Config).

(** The transactions acknowledged in a run. *)
Fixpoint acknowledged (s : Sender) (ls : list label) : list SendingFuture :=
  match ls with
  | [] => []
  | l :: ls => acked s l ++ match step conf s l with Ok s => acknowledged s ls | Err _ => [] end
  end.

Definition all_requests (ls : list label) : list (SendingEvent * Destination) := concat (map requests_of ls).

Lemma run_spec ls : ∀ content s, conf_ok conf → QueueInv content s → Forall label_ok ls →
  0 ≤ counter (snd_world s) →
  counter (snd_world s) + Z.of_nat (length (all_requests ls)) ≤ u64_max → ∃ content' s',
  run conf s ls = Ok s' ∧ QueueInv content' s' ∧ content ⊆ content' ∧
  (∀ d ev, pending content s d ev ∨ (ev, d) ∈ all_requests ls →
    pending content' s' d ev ∨ ∃ events, (d, events) ∈ acknowledged s ls ∧ ev ∈ events).
Proof.
  induction ls as [|l ls IH]; intros content s Hconf Hinv Hls Hc0 Hc; cbn [run acknowledged].
  { exists content, s. split_and!; try done. intros d ev [Hd|Hd]; [by left|by apply not_elem_of_nil in Hd]. }
  apply Forall_cons in Hls as [Hl Hls]. unfold all_requests in *. cbn [map concat] in *. rewrite length_app in Hc.
  destruct (step_spec conf content s l Hconf Hinv Hl Hc0 ltac:(lia))
    as (content1 & s1 & Heq & Hinv1 & Hsub1 & Hc1 & Hp1 & Hr1).
  rewrite Heq. cbn [mbind result_bind].
  destruct (IH content1 s1 Hconf Hinv1 Hls ltac:(lia) ltac:(lia)) as (content' & s' & -> & Hinv' & Hsub & Hp).
  exists content', s'. split; [done|]. split; [done|]. split; [by etrans|].
  intros d ev Hd. setoid_rewrite elem_of_app.
  assert ((∃ events, (d, events) ∈ acked s l ∧ ev ∈ events) ∨
          (pending content1 s1 d ev ∨ (ev, d) ∈ concat (map requests_of ls))) as [(evs & ? & ?)|Hd1].
  { destruct Hd as [Hd|[Hd|Hd]%elem_of_app]; [|right; left; by apply Hr1|right; by right].
    destruct (Hp1 d ev Hd) as [?|?]; [right; by left|by left]. }
  - right. exists evs. by split; [left|].
  - destruct (Hp d ev Hd1) as [?|(evs & ? & ?)]; [by left|right]. exists evs. by split; [right|].
Qed.

(** C15: However requests, messages and results of transactions interleave: the worker never panics, in
    particular a failed transaction is always of a destination it was running for, the worker's
    invariant holds, and every event stored to be sent, before or during the run, is still
    stored at the end unless a transaction that carried it to its destination was
    acknowledged. *)
Theorem nothing_lost (content : gmap bytes bytes) (s : Sender) (ls : list label)
    (Hconf : conf_ok conf) (Hinv : QueueInv content s) (Hls : Forall label_ok ls)
    (Hc0 : 0 ≤ counter (snd_world s))
    (Hc : counter (snd_world s) + Z.of_nat (length (all_requests ls)) ≤ u64_max) : ∃ content' s',
  run conf s ls = Ok s' ∧ QueueInv content' s' ∧ content ⊆ content' ∧
  (∀ dest ev, pending content s dest ev ∨ (ev, dest) ∈ all_requests ls →
    pending content' s' dest ev ∨ ∃ events, (dest, events) ∈ acknowledged s ls ∧ ev ∈ events).
Proof. by apply run_spec. Qed.

End Properties.

Section StartProperty.
Context `{!Parsers} `{!NameParsers} `{!NameLaws} (conf : Config).
Context {P : Type} `{!PduJson P} `{!StickyPdu P} `{!HashIter Destination} `{!HashIterLaws Destination}.

(** With the netburst on, a worker of one shard starts in order from whatever tables a previous
    one left: its invariant holds, so the events that were active are on their way again, and
    unless a budget is configured nothing is dropped. *)
Theorem worker_start_correct (shard_id : Destination → nat) (id : nat) (content : gmap bytes bytes)
    (s : Sender) (now : Z) (Hshard : ∀ dest, shard_id dest = id) (Hwf : Wf content)
    (Hnum : numbered content (counter (snd_world s)))
    (Ha : sdb s servercurrentevent_data ⊆ content) (Hq : sdb s servernameevent_data ⊆ content)
    (Hch : Forall (msg_ok content) (channel s)) (Hst : statuses s = ∅) (Hfu : futures s = [])
    (Hh : ∀ server n t, remote_health s !! server = Some (n, t) → 0 ≤ n)
    (Hnet : startup_netburst conf = true) : ∃ s',
  netburst conf (P := P) shard_id id now s = Ok s' ∧ QueueInv content s' ∧
  (startup_netburst_keep conf < 0 → ∀ d ev, pending content s d ev → pending content s' d ev).
Proof. by apply netburst_spec. Qed.
End StartProperty.

Module WorkerWitness.
Import SendingWitness.

(** Every server is sent one device list change of count 1, once. *)
#[local] Instance one_change : EduSources := {|
  select_edus_device_changes _ _ batch := if decide (batch.1 < 1) then ([[123; 125]], 1) else ([], 0);
  select_edus_receipts _ _ _ := (None, 0);
  select_edus_presence _ _ _ := (None, 0);
|}.
#[local] Instance raw_json : PduJson bytes := fun json => Some json.
#[local] Instance not_sticky : StickyPdu bytes := {| sticky_object _ := None; origin_server_ts _ := 0 |}.
#[local] Instance iter_fwd : HashIter Destination := hash_iter_fwd Destination.

Definition conf : Config := {|
  sender_retry_backoff_base := 180; sender_retry_backoff_limit := 86400;
  allow_outgoing_read_receipts := true; allow_outgoing_presence := true;
  startup_netburst := true; startup_netburst_keep := -1; allow_sticky_events := true;
|}.

Lemma conf_fits : conf_ok conf.
Proof. split; simpl; [lia|]. split; [lia|]. by apply Z.leb_le. Qed.

(** A worker with nothing to do. *)
Definition idle (d : Db) : Sender := {|
  snd_world := {| db := d; counter := 0 |}; statuses := ∅; futures := []; channel := [];
  remote_health := ∅; stale_destinations := ∅;
|}.

Lemma idle_inv : QueueInv ∅ (idle empty_db).
Proof.
  split; simpl.
  - intros k v Hk. by rewrite lookup_empty in Hk.
  - intros k d j (v & Hv & _). by rewrite lookup_empty in Hv.
  - done.
  - done.
  - constructor.
  - constructor.
  - intros d. unfold busy. simpl. rewrite lookup_empty. split; [by intros ?%not_elem_of_nil|done].
  - intros d Hd. by apply not_elem_of_nil in Hd.
  - intros d e k ev Hd. by apply not_elem_of_nil in Hd.
  - intros d k ev _ [v Hv]. discriminate Hv.
  - intros sv n t Hs. by rewrite lookup_empty in Hs.
Qed.

Definition remote : Destination := Federation [97].
Definition timeout : result SendError unit := Err {| is_connect := true; status_code := 500 |}.

(** Two events to one server: the first transaction fails, and is repeated after the backoff; the
    second event follows it. *)
Definition story : list label :=
  [LSend [(Pdu (pdu 1), remote)]; LRequest 0; LResponse 1000 0 timeout;
   LSend [(Pdu (pdu 2), remote)]; LRequest 2000; LFlush [[97]]; LRequest 181000;
   LResponse 182000 0 (Ok tt)].

Lemma nothing_lost_witness : ∃ s',
  run conf (idle empty_db) story = Ok s' ∧ futures s' = [(remote, [Pdu (pdu 2)])] ∧
  acknowledged conf (idle empty_db) story = [(remote, [Pdu (pdu 1)])] ∧
  ∃ content, QueueInv content s' ∧ pending content s' remote (Pdu (pdu 2)).
Proof.
  destruct (nothing_lost conf ∅ (idle empty_db) story conf_fits idle_inv) as (content & s' & Hrun & Hinv & _ & Hp).
  - unfold story. repeat constructor.
  - simpl. lia.
  - simpl. by apply Z.leb_le.
  - exists s'. split; [exact Hrun|].
    assert ((fun s => futures s) <$> ok (run conf (idle empty_db) story) = Some [(remote, [Pdu (pdu 2)])]) as Hf
      by (vm_compute; reflexivity).
    rewrite Hrun in Hf. cbn [ok fmap option_fmap option_map] in Hf. injection Hf as Hf.
    split; [exact Hf|].
    assert (acknowledged conf (idle empty_db) story = [(remote, [Pdu (pdu 1)])]) as Hack by (vm_compute; reflexivity).
    split; [exact Hack|]. exists content. split; [exact Hinv|].
    destruct (Hp remote (Pdu (pdu 2))) as [?|(events & Hin & Hev)]; [|assumption|].
    + right. right. left.
    + rewrite Hack in Hin. apply list_elem_of_singleton in Hin. injection Hin as ->.
      apply list_elem_of_singleton in Hev. discriminate Hev.
Defined.


(** The tables after an event was sent but not acknowledged, and a new worker. *)
Definition left_over : Db := insert empty_db servercurrentevent_data (get_prefix remote ++ as_bytes (pdu 1)) [].
Definition content : gmap bytes bytes := {[ get_prefix remote ++ as_bytes (pdu 1) := [] ]}.

Lemma left_over_entry : entry_for (get_prefix remote ++ as_bytes (pdu 1)) [] remote (Pdu (pdu 1)).
Proof. split; [done|]. split; [done|]. by exists (as_bytes (pdu 1)). Qed.

Lemma worker_start_correct_witness : ∃ s',
  netburst conf (P := bytes) (fun _ => 0%nat) 0 0 (idle left_over) = Ok s' ∧
  pending content s' remote (Pdu (pdu 1)) ∧ QueueInv content s'.
Proof.
  destruct (worker_start_correct conf (P := bytes) (fun _ => 0%nat) 0 content (idle left_over) 0)
    as (s' & Hs & Hinv & Hp).
  - intros d. reflexivity.
  - intros k v Hk. unfold content in Hk. apply lookup_singleton_Some in Hk as [<- <-]. exists remote, (Pdu (pdu 1)). exact left_over_entry.
  - intros k d j (v & Hk & He). unfold content in Hk. apply lookup_singleton_Some in Hk as [<- <-].
    destruct (entry_fun _ _ _ _ _ _ He left_over_entry) as [_ Heq]. discriminate Heq.
  - unfold sdb, idle, left_over. simpl. rewrite insert_same. apply insert_subseteq_l; [unfold content; apply lookup_singleton_eq|].
    apply map_empty_subseteq.
  - unfold sdb, idle, left_over. simpl. rewrite insert_other by discriminate. apply map_empty_subseteq.
  - constructor.
  - reflexivity.
  - reflexivity.
  - intros sv n t Hs. simpl in Hs. by rewrite lookup_empty in Hs.
  - reflexivity.
  - exists s'. split; [exact Hs|]. split; [|exact Hinv]. apply Hp; [reflexivity|].
    exists (get_prefix remote ++ as_bytes (pdu 1)). split.
    + exists []. split; [unfold content; apply lookup_singleton_eq|exact left_over_entry].
    + left. unfold sdb, idle, left_over. simpl. rewrite insert_same. exists []. apply lookup_insert_eq.
Defined.

(** What was selected for a transaction that fails is not in the one that repeats it. *)
Example selected_lost :
  (fun s => futures s) <$> ok (run conf (idle empty_db) [LSend [(Pdu (pdu 1), remote)]; LRequest 0])
    = Some [(remote, [Pdu (pdu 1); Edu [123; 125]])] ∧
  (fun s => futures s) <$> ok (run conf (idle empty_db)
    [LSend [(Pdu (pdu 1), remote)]; LRequest 0; LResponse 0 0 timeout; LFlush [[97]]; LRequest 180000])
    = Some [(remote, [Pdu (pdu 1)])].
Proof. split; vm_compute; reflexivity. Qed.

(** A message that waits in the channel while its event is sent with others has it sent once more. *)
Example sent_twice :
  acknowledged conf (idle empty_db)
    [LSend [(Edu [49], Appservice [97])]; LSend [(Edu [50], Appservice [97])]; LRequest 0;
     LResponse 0 0 (Ok tt); LResponse 0 0 (Ok tt); LRequest 0; LResponse 0 0 (Ok tt)]
  = [(Appservice [97], [Edu [49]]); (Appservice [97], [Edu [50]]); (Appservice [97], [Edu [50]])].
Proof. vm_compute. reflexivity. Qed.

(** After a failed flush the next event finds nothing to repeat: it stays queued, with no transaction on
    its way, until the next one to the server. *)
Example event_waits :
  (fun s => (futures s, statuses s !! remote)) <$> ok (run conf (idle empty_db)
    [LFlush [[97]]; LRequest 0; LResponse 0 0 timeout; LSend [(Pdu (pdu 1), remote)]; LRequest 180000])
  = Some ([], None).
Proof. vm_compute. reflexivity. Qed.
End WorkerWitness.
