(* ===== verification/Transactions.v ===== *)
(** Transactions: src/src/service/transactions/mod.rs, the route of
    src/src/api/server/send.rs that runs the transactions of other servers, and the use of a client's
    transaction identifiers in src/src/api/client/send.rs.

    A transaction of another server is processed once: requests for it while it is processed wait for
    the task that does, later ones are given the response kept.  [tasks] holds, under the name of
    its [watch] channel, every task started, with the value it sent: what the receivers of a channel
    borrow is what its only sender, owned by the task, has sent.  What handling the events gives is a
    parameter of the step, clock readings too (nanoseconds since the epoch). *)

From stdpp Require Import prelude gmap sorting strings.
From Stdlib Require Import ZArith Lia.
From S2P Require Import Prelude Bytes DbSer Database PairKeys Scans Tables.
Local Open Scope Z_scope.

(** * The transactions of clients *)

Section Client.

(** [unwrap_or_default] of an identifier's bytes. *)
Definition opt_bytes (o : option bytes) : bytes := default [] o.

(** @src src/src/service/transactions/mod.rs:137-151 Service::add_client_txnid *)
Definition add_client_txnid (d : Db) (user_id : bytes) (device_id : option bytes) (txn_id data : bytes) : Db :=
  let key := user_id ++ [255] ++ opt_bytes device_id ++ [255] ++ txn_id in
  insert d userdevicetxnid_response key data.

(** @src src/src/service/transactions/mod.rs:153-161 Service::get_client_txn *)
Definition get_client_txn (d : Db) (user_id : bytes) (device_id : option bytes) (txn_id : bytes) : comp db_error bytes :=
  qry d userdevicetxnid_response (VTuple [VStr user_id; opt_str device_id; VStr txn_id]).

(** The part of the route that the identifier guards; [build_and_append_pdu] is the timeline's, and a
    response is the event's identifier, which ruma parses.
    @src src/src/api/client/send.rs:54-118 send_message_event_route *)
Definition send_message_event (event_id_ok : bytes → bool) (build_and_append_pdu : Db → comp db_error (bytes * Db)) (d : Db)
    (sender_user : bytes) (sender_device : option bytes) (txn_id : bytes) : comp db_error (bytes * Db) :=
  match get_client_txn d sender_user sender_device txn_id with
  | Ok [] => Err (Fail InvalidParam)
  | Ok response => 
      if valid_utf8 response then if event_id_ok response then Ok (response, d) else Err (Fail Unknown)
      else Err (Fail DatabaseError)
  | Err Panicked => Err Panicked
  | Err OutOfFuel => Err OutOfFuel
  | Err (Fail _) =>
      '(event_id, d) ← build_and_append_pdu d;
      Ok (event_id, add_client_txnid d sender_user sender_device txn_id event_id)
  end.
End Client.

(** * The transactions of servers *)

(** Origin and identifier.
    @src src/src/service/transactions/mod.rs:25-25 TxnKey *)
Abbreviation TxnKey := (bytes * bytes)%type.

(** @src src/src/service/transactions/mod.rs:31-36 TransactionError *)
Inductive TransactionError : Set := ShuttingDown | Unexpected.

(** @src src/src/service/transactions/mod.rs:52-52 CLEANUP_INTERVAL_SECS *)
Definition CLEANUP_INTERVAL_SECS : Z := 30.

(** @src src/src/service/sending/sender.rs:76-76 PDU_LIMIT *)
Definition PDU_LIMIT : nat := 50.
(** @src src/src/service/sending/sender.rs:77-77 EDU_LIMIT *)
Definition EDU_LIMIT : nat := 100.

(** What of the configuration is read. *)
Record TxnConfig := {
  max_concurrent_inbound_transactions : nat;
  transaction_id_cache_max_age_secs : Z;
  transaction_id_cache_max_entries : nat;
}.

(** [SystemTime::checked_sub] of seconds. *)
Definition SEC : Z := 1000000000.
Definition checked_sub_secs (t secs : Z) : option Z :=
  if decide (i64_min ≤ t / SEC - secs) then Some (t - secs * SEC) else None.

(** The errors a request is answered with: kind, status and text. *)
Inductive HttpError : Set :=
| HForbidden
| HLimitExceeded
| HUnknown (status : Z) (text : string).

Section Federation.
Context {R : Type}. (* [send_transaction_message::v1::Response] *)

(** @src src/src/service/transactions/mod.rs:55-58 CachedTxnResponse *)
Record CachedTxnResponse := { response : R; created : Z }.

(** @src src/src/service/transactions/mod.rs:63-69 TxnState *)
Inductive TxnState :=
| Active (receiver : nat)
| Cached (c : CachedTxnResponse).

(** @src src/src/service/transactions/mod.rs:72-85 FederationTxnState *)
Inductive FederationTxnState :=
| FCached (r : R)
| FActive (receiver : nat)
| FStarted (channel : nat).

(** @src src/src/service/transactions/mod.rs:26-27 WrappedTransactionResponse *)
Definition WrappedTransactionResponse : Type := option (result TransactionError R).

(** @src src/src/service/transactions/mod.rs:87-92 Service *)
Record Service := {
  federation_txn_state : gmap TxnKey TxnState;
  last_cleanup : Z;
}.

Definition is_active (v : TxnState) : bool := match v with Active _ => true | Cached _ => false end.
Definition cached_at (v : TxnState) : option Z := match v with Active _ => None | Cached c => Some (created c) end.

Context `{!HashIter TxnKey} (config : TxnConfig).

Definition active_entries (state : gmap TxnKey TxnState) : list (TxnKey * TxnState) :=
  filter (fun kv => is_active kv.2) (iter_map state).

(** @src src/src/service/transactions/mod.rs:129-135 Service::txn_active_handle_count *)
Definition txn_active_handle_count (s : Service) : nat := length (active_entries (federation_txn_state s)).

(** @src src/src/service/transactions/mod.rs:117-121 Service::clear_cache *)
Definition clear_cache (s : Service) : Service :=
  {| federation_txn_state := filter (fun kv => is_active kv.2) (federation_txn_state s); last_cleanup := last_cleanup s |}.

(** The new channel is named by the caller.
    @src src/src/service/transactions/mod.rs:165-220 Service::get_or_start_federation_txn *)
Definition get_or_start_federation_txn (s : Service) (key : TxnKey) (channel : nat) :
    result HttpError (FederationTxnState * Service) :=
  let state := federation_txn_state s in
  match state !! key with
  | Some (Cached cached) => Ok (FCached (response cached), s)
  | Some (Active receiver) => Ok (FActive receiver, s)
  | None =>
      if existsb (fun '(k, v) => bool_decide (k.1 = key.1) && is_active v) (iter_map state)
      then Err HLimitExceeded
      else
        let max_active_txns := max_concurrent_inbound_transactions config in
        let active_count := length (active_entries state) in
        if decide (max_active_txns ≤ size state ∧ max_active_txns ≤ active_count)%nat
        then Err HLimitExceeded
        else Ok (FStarted channel,
                 {| federation_txn_state := <[key := Active channel]> state; last_cleanup := last_cleanup s |})
  end.

(** [last] is the value loaded, which another thread may have replaced when it is compared and
    exchanged.
    @src src/src/service/transactions/mod.rs:265-280 Service::should_try_cleanup *)
Definition should_try_cleanup (s : Service) (now last : Z) : comp HttpError (bool * Service) :=
  let secs := now / SEC in
  if decide (now < 0) then Err Panicked
  else if decide (CLEANUP_INTERVAL_SECS ≤ Z.max 0 (secs - last)) then
    if decide (last_cleanup s = last)
    then Ok (true, {| federation_txn_state := federation_txn_state s; last_cleanup := secs |})
    else Ok (false, s)
  else Ok (false, s).

Definition older (a b : TxnKey * Z) : Prop := a.2 ≤ b.2.
#[export] Instance older_dec a b : Decision (older a b).
Proof. unfold older. apply _. Defined.

(** Active transactions are never removed. *)
Definition keep (cutoff : Z) (v : TxnState) : bool :=
  match v with Active _ => true | Cached c => bool_decide (cutoff < created c) end.

(** @src src/src/service/transactions/mod.rs:289-328 Service::cleanup_entries_locked *)
Definition cleanup_entries_locked (now : Z) (state : gmap TxnKey TxnState) : gmap TxnKey TxnState :=
  let cutoff := default 0 (checked_sub_secs now (transaction_id_cache_max_age_secs config)) in
  let state := filter (fun kv => keep cutoff kv.2) state in
  let cached_count := length (filter (fun kv => ¬ is_active kv.2) (iter_map state)) in
  let max_entries := transaction_id_cache_max_entries config in
  if decide (max_entries < cached_count)%nat then
    let excess := (cached_count - max_entries)%nat in
    let cached_entries := omap (fun '(k, v) => pair k <$> cached_at v) (iter_map state) in
    let cached_entries := merge_sort older cached_entries in
    foldl (fun state '(key, _) => delete key state) state (take excess cached_entries)
  else state.

(** The readings of the clock while a transaction is finished. *)
Record Clock := { now_check : Z; now_created : Z; now_cleanup : Z; loaded : Z }.

(** What is sent on the channel is returned beside the state.
    @src src/src/service/transactions/mod.rs:224-256 Service::finish_federation_txn *)
Definition finish_federation_txn (s : Service) (key : TxnKey) (clock : Clock) (r : R) :
    comp HttpError (WrappedTransactionResponse * Service) :=
  '(should_try_cleanup, s) ← should_try_cleanup s (now_check clock) (loaded clock);
  let state := <[key := Cached {| response := r; created := now_created clock |}]> (federation_txn_state s) in
  let state := if should_try_cleanup : bool then cleanup_entries_locked (now_cleanup clock) state else state in
  Ok (Some (Ok r), {| federation_txn_state := state; last_cleanup := last_cleanup s |}).

(** @src src/src/service/transactions/mod.rs:258-261 Service::remove_federation_txn *)
Definition remove_federation_txn (s : Service) (key : TxnKey) : Service :=
  {| federation_txn_state := delete key (federation_txn_state s); last_cleanup := last_cleanup s |}.

(** ** The route *)

(** How far the task of a channel is: handling the events, about to send an error, or done. *)
Inductive Task :=
| Handling
| Failing (e : TransactionError)
| Sent (r : result TransactionError R).

(** [waiters]: the requests that wait for a channel, with their keys. *)
Record Server := {
  service : Service;
  tasks : gmap nat (TxnKey * Task);
  waiters : list (TxnKey * nat);
}.

(** What a receiver of a channel borrows: nothing while the task has sent nothing. *)
Definition borrow (s : Server) (channel : nat) : WrappedTransactionResponse :=
  match tasks s !! channel with Some (_, Sent r) => Some r | _ => None end.

(** @src src/src/api/server/send.rs:251-264 transaction_error_to_response *)
Definition transaction_error_to_response (e : TransactionError) : HttpError :=
  match e with
  | ShuttingDown => HUnknown 503 "Server is shutting down, please retry later"%string
  | Unexpected => HUnknown 500 "Unhandled internal server error"%string
  end.

(** [elapsed]: nothing was sent for fifty seconds and the sender was not dropped.
    @src src/src/api/server/send.rs:105-128 wait_for_result *)
Definition wait_for_result (elapsed : bool) (value : WrappedTransactionResponse) : result HttpError R :=
  if elapsed then Err HLimitExceeded
  else match value with
       | Some (Ok r) => Ok r
       | Some (Err e) => Err (transaction_error_to_response e)
       | None => Err (HUnknown 500 "Transaction processing failed unexpectedly"%string)
       end.

(** A request's answer, or the channel it waits for. *)
Inductive Reply :=
| Done (r : result HttpError R)
| Wait (channel : nat).

(** @src src/src/api/server/send.rs:56-103 send_transaction_message_route *)
Definition send_transaction_message_route (s : Server) (identity origin transaction_id : bytes) (pdus edus : nat) :
    Reply * Server :=
  if decide (identity ≠ origin) then (Done (Err HForbidden), s)
  else if decide (PDU_LIMIT < pdus)%nat then (Done (Err HForbidden), s)
  else if decide (EDU_LIMIT < edus)%nat then (Done (Err HForbidden), s)
  else
    let txn_key := (identity, transaction_id) in
    let channel := fresh (dom (tasks s)) in
    match get_or_start_federation_txn (service s) txn_key channel with
    | Err e => (Done (Err e), s)
    | Ok (FCached r, sv) => (Done (Ok r), {| service := sv; tasks := tasks s; waiters := waiters s |})
    | Ok (FActive receiver, sv) =>
        (Wait receiver, {| service := sv; tasks := tasks s; waiters := (txn_key, receiver) :: waiters s |})
    | Ok (FStarted channel, sv) =>
        (Wait channel, {| service := sv; tasks := <[channel := (txn_key, Handling)]> (tasks s);
                          waiters := (txn_key, channel) :: waiters s |})
    end.

Definition set_task (s : Server) (channel : nat) (key : TxnKey) (t : Task) (sv : Service) : Server :=
  {| service := sv; tasks := <[channel := (key, t)]> (tasks s); waiters := waiters s |}.

(** The task once the events are handled; a panic was caught.
    @src src/src/api/server/send.rs:179-228 process_inbound_transaction *)
Definition process_inbound_transaction (s : Server) (channel : nat) (key : TxnKey) (handle_result : comp TransactionError R)
    (clock : Clock) : comp HttpError Server :=
  match handle_result with
  | Ok r =>
      '(sent, sv) ← finish_federation_txn (service s) key clock r;
      Ok (set_task s channel key (match sent with Some sent => Sent sent | None => Handling end) sv)
  | Err (Fail err) => Ok (set_task s channel key (Failing err) (remove_federation_txn (service s) key))
  | Err _ => Ok (set_task s channel key (Failing Unexpected) (remove_federation_txn (service s) key))
  end.

(** The end of a failed transaction: the error is sent after the entry was removed, and other requests
    may come in between.
    @src src/src/api/server/send.rs:233-247 fail_federation_txn *)
Definition fail_federation_txn (s : Server) (channel : nat) (key : TxnKey) (err : TransactionError) : Server :=
  set_task s channel key (Sent (Err err)) (service s).

(** ** Interleavings *)

Inductive label :=
| Request (identity origin transaction_id : bytes) (pdus edus : nat)
| Handled (channel : nat) (handle_result : comp TransactionError R) (clock : Clock)
| SendError (channel : nat)
| ClearCache.

(** A task that is scheduled where it has nothing to do leaves the server as it is. *)
Definition step (s : Server) (l : label) : comp HttpError Server :=
  match l with
  | Request identity origin txn pdus edus => Ok (send_transaction_message_route s identity origin txn pdus edus).2
  | Handled channel r clock =>
      match tasks s !! channel with
      | Some (key, Handling) => process_inbound_transaction s channel key r clock
      | _ => Ok s
      end
  | SendError channel =>
      match tasks s !! channel with
      | Some (key, Failing err) => Ok (fail_federation_txn s channel key err)
      | _ => Ok s
      end
  | ClearCache => Ok {| service := clear_cache (service s); tasks := tasks s; waiters := waiters s |}
  end.

Fixpoint run (s : Server) (ls : list label) : comp HttpError Server :=
  match ls with [] => Ok s | l :: ls => s ← step s l; run s ls end.

Definition initial : Server :=
  {| service := {| federation_txn_state := ∅; last_cleanup := 0 |}; tasks := ∅; waiters := [] |}.
End Federation.
Arguments Task R : clear implicits.
Arguments Server R : clear implicits.
Arguments Service R : clear implicits.
Arguments TxnState R : clear implicits.
Arguments label R : clear implicits.
Arguments Reply R : clear implicits.
