(* ===== verification/TransactionsSpec.v ===== *)
(** What Transactions.v is for: a client's retry gets the event of the first attempt; every
    transaction of a server is processed by one task at a time, within the limits; no request is left
    without an answer; and the responses kept are bounded. *)

From stdpp Require Import prelude gmap sorting strings.
From Stdlib Require Import ZArith Lia.
From S2P Require Import Prelude Bytes DbSer Database PairKeys Scans Tables Transactions.
Local Open Scope Z_scope.

(** * Clients *)

Section Client.

Definition txn_key (user : bytes) (device : option bytes) (txn : bytes) : bytes :=
  user ++ SEP :: opt_bytes device ++ SEP :: txn.

Lemma add_client_txnid_eq d user device txn data :
  add_client_txnid d user device txn data = insert d userdevicetxnid_response (txn_key user device txn) data.
Proof. done. Qed.

Lemma get_client_txn_eq d user device txn :
  get_client_txn d user device txn = get d userdevicetxnid_response (txn_key user device txn).
Proof.
  unfold get_client_txn. rewrite qry_tuple by auto with plain.
  f_equal. unfold txn_key. destruct device; simpl; unfold trail; simpl; by rewrite ?app_nil_r.
Qed.

Lemma txn_key_inj user device txn user' device' txn' : valid_utf8 user → valid_utf8 user' →
  valid_utf8 (opt_bytes device) → valid_utf8 (opt_bytes device') →
  txn_key user device txn = txn_key user' device' txn' →
  user = user' ∧ opt_bytes device = opt_bytes device' ∧ txn = txn'.
Proof.
  intros Hu Hu' Hd Hd' Heq. unfold txn_key in Heq.
  apply pair_first_utf8 in Heq as [-> Heq]; [|done..]. by apply pair_first_utf8 in Heq as [-> ->].
Qed.

(** A client that repeats a request with its transaction identifier is given the event that the
    first attempt sent, and nothing is sent again; an identifier that another user, another device or
    another request used says nothing; and one that was used where no event results is refused. *)
Theorem client_retry_correct (event_id_ok : bytes → bool) (build_and_append_pdu : Db → comp db_error (bytes * Db))
    (d d' d'' : Db) (user : bytes) (device : option bytes) (txn event_id : bytes)
    (Hnew : d userdevicetxnid_response !! txn_key user device txn = None)
    (Hbuild : build_and_append_pdu d = Ok (event_id, d')) (Hid : valid_utf8 event_id ∧ event_id_ok event_id ∧ event_id ≠ [])
    (Hlater : d'' userdevicetxnid_response !! txn_key user device txn =
      add_client_txnid d' user device txn event_id userdevicetxnid_response !! txn_key user device txn) :
  send_message_event event_id_ok build_and_append_pdu d user device txn =
    Ok (event_id, add_client_txnid d' user device txn event_id) ∧
  send_message_event event_id_ok build_and_append_pdu d'' user device txn = Ok (event_id, d'') ∧
  (∀ user' device' txn' data, valid_utf8 user → valid_utf8 user' → valid_utf8 (opt_bytes device) →
     valid_utf8 (opt_bytes device') → (user', opt_bytes device', txn') ≠ (user, opt_bytes device, txn) →
     get_client_txn (add_client_txnid d user' device' txn' data) user device txn = get_client_txn d user device txn) ∧
  send_message_event event_id_ok build_and_append_pdu (add_client_txnid d user device txn []) user device txn =
    Err (Fail InvalidParam).
Proof.
  unfold send_message_event. rewrite !get_client_txn_eq. unfold get. rewrite Hnew, Hlater, !add_client_txnid_eq.
  rewrite !insert_same, !lookup_insert_eq. cbn [ok_or_fail ok_or]. rewrite Hbuild. cbn [mbind result_bind].
  destruct Hid as (Hu & Hok & Hne). split; [done|]. split.
  { destruct event_id as [|b event_id]; [done|]. apply Is_true_true in Hu, Hok. by rewrite Hu, Hok. }
  split; [|done]. intros user' device' txn' data ? ? ? ? Hneq.
  rewrite !get_client_txn_eq. unfold get. rewrite add_client_txnid_eq, insert_same, lookup_insert_ne; [by rewrite Hnew|].
  intros Heq. apply txn_key_inj in Heq as (-> & Hd & ->); [|done..]. by rewrite Hd in Hneq.
Qed.
End Client.

(** * Servers *)

Section Federation.
Context {R : Type} `{!HashIter TxnKey, !HashIterLaws TxnKey} (config : TxnConfig).

Lemma elem_of_iter_map {V} (m : gmap TxnKey V) k v : (k, v) ∈ iter_map m ↔ m !! k = Some v.
Proof. rewrite iter_map_perm. apply elem_of_map_to_list. Qed.

Lemma filter_map_to_list {V} (P : TxnKey * V → Prop) `{!∀ x, Decision (P x)} (m : gmap TxnKey V) :
  filter P (map_to_list m) ≡ₚ map_to_list (filter P m).
Proof.
  apply NoDup_Permutation; [apply NoDup_filter, NoDup_map_to_list|apply NoDup_map_to_list|].
  intros [k v]. rewrite list_elem_of_filter, !elem_of_map_to_list, map_lookup_filter_Some. naive_solver.
Qed.

Lemma count_iter {V} (P : TxnKey * V → Prop) `{!∀ x, Decision (P x)} (m : gmap TxnKey V) :
  length (filter P (iter_map m)) = size (filter P m).
Proof. by rewrite iter_map_perm, filter_map_to_list, length_map_to_list. Qed.

(** ** Cleanup *)

Definition cached (v : TxnState R) : bool := negb (is_active v).

Lemma foldl_delete {V} (l : list (TxnKey * Z)) : ∀ (m : gmap TxnKey V) k,
  foldl (fun m '(key, _) => delete key m) m l !! k = if decide (k ∈ l.*1) then None else m !! k.
Proof.
  induction l as [|[k' t] l IH]; intros m k; cbn [foldl fmap list_fmap fst]; [by rewrite decide_False by set_solver|].
  rewrite IH. destruct (decide (k ∈ l.*1)); [by rewrite decide_True by set_solver|].
  destruct (decide (k = k')) as [->|]; [by rewrite lookup_delete_eq, decide_True by set_solver|].
  rewrite lookup_delete_ne by done. by rewrite decide_False by set_solver.
Qed.

(** The responses kept, with their age, the oldest first. *)
Definition ages (m : gmap TxnKey (TxnState R)) : list (TxnKey * Z) :=
  merge_sort older (omap (fun '(k, v) => pair k <$> cached_at v) (iter_map m)).

Lemma elem_of_ages m k t : (k, t) ∈ ages m ↔ ∃ c, m !! k = Some (Cached c) ∧ created c = t.
Proof.
  unfold ages. rewrite merge_sort_Permutation, list_elem_of_omap. split.
  - intros ([k' v] & Hk & Hv). apply elem_of_iter_map in Hk. destruct v as [c|c]; simplify_eq/=. eauto.
  - intros (c & Hk & <-). exists (k, Cached c). by rewrite elem_of_iter_map.
Qed.

Lemma ages_keys m : (ages m).*1 ≡ₚ (map_to_list (filter (fun kv => cached kv.2) m)).*1.
Proof.
  unfold ages. rewrite merge_sort_Permutation, iter_map_perm, <-filter_map_to_list.
  induction (map_to_list m) as [|[k [c|c]] l IH]; cbn; rewrite ?filter_cons; cbn; [done|by rewrite IH..].
Qed.

Lemma ages_key m k : k ∈ (ages m).*1 ↔ ∃ c, m !! k = Some (Cached c).
Proof.
  rewrite list_elem_of_fmap. split.
  - intros ([k' t] & -> & (c & Hk & _)%elem_of_ages). eauto.
  - intros [c Hk]. exists (k, created c). split; [done|]. apply elem_of_ages. eauto.
Qed.

Lemma ages_NoDup m : NoDup (ages m).*1.
Proof. rewrite ages_keys. apply NoDup_fst_map_to_list. Qed.

#[local] Instance older_trans : Transitive older.
Proof. unfold older. intros ???. lia. Qed.
#[local] Instance older_total : Total older.
Proof. unfold older. intros ??. lia. Qed.

Lemma ages_sorted m : StronglySorted older (ages m).
Proof. apply (StronglySorted_merge_sort older). Qed.

Lemma cleanup_eq (now : Z) (m : gmap TxnKey (TxnState R)) :
  let cutoff := default 0 (checked_sub_secs now (transaction_id_cache_max_age_secs config)) in
  let m1 := filter (fun kv => keep cutoff kv.2) m in
  cleanup_entries_locked config now m =
    foldl (fun m '(key, _) => delete key m) m1 (take (length (ages m1) - transaction_id_cache_max_entries config) (ages m1)).
Proof.
  intros cutoff m1. unfold cleanup_entries_locked. fold cutoff m1.
  assert (length (filter (fun kv => ¬ is_active kv.2) (iter_map m1)) = length (ages m1)) as ->.
  { rewrite <-(length_fmap fst (ages m1)), ages_keys, length_fmap, length_map_to_list, <-count_iter.
    f_equal. apply list_filter_iff. intros [k [c|c]]; cbn; naive_solver. }
  goal_decide as H; [done|]. by replace (_ - _)%nat with 0%nat by lia.
Qed.

Lemma cleanup_spec (now : Z) (m : gmap TxnKey (TxnState R)) :
  let cutoff := default 0 (checked_sub_secs now (transaction_id_cache_max_age_secs config)) in
  let m' := cleanup_entries_locked config now m in
  let fresh := filter (fun kv => cached kv.2 ∧ keep cutoff kv.2) m in
  (∀ k c, m' !! k = Some (Active c) ↔ m !! k = Some (Active c)) ∧
  m' ⊆ m ∧
  filter (fun kv => cached kv.2) m' ⊆ fresh ∧
  size (filter (fun kv => cached kv.2) m') = (transaction_id_cache_max_entries config `min` size fresh)%nat ∧
  ∀ k k' c c', fresh !! k = Some (Cached c) → m' !! k = None → m' !! k' = Some (Cached c') → created c ≤ created c'.
Proof.
  intros cutoff m' fresh. subst m'. rewrite cleanup_eq. fold cutoff.
  set (m1 := filter (fun kv => keep cutoff kv.2) m). set (max := transaction_id_cache_max_entries config).
  set (gone := take _ _). set (m' := foldl _ _ _).
  assert (∀ k, m' !! k = if decide (k ∈ gone.*1) then None else m1 !! k) as Hm' by (intros; apply foldl_delete).
  pose proof (take_drop (length (ages m1) - max) (ages m1)) as Hsplit. fold gone in Hsplit. set (rest := drop _ _) in *.
  pose proof (ages_NoDup m1) as Hnd. rewrite <-Hsplit, fmap_app in Hnd. apply NoDup_app in Hnd as (Hnd1 & Hdisj & Hnd2).
  assert (∀ k, k ∈ gone.*1 → ∃ c, m1 !! k = Some (Cached c)) as Hgone.
  { intros k Hk. apply ages_key. rewrite <-Hsplit, fmap_app. set_solver. }
  assert (m1 ⊆ m) as Hsub1 by apply map_filter_subseteq.
  assert (m' ⊆ m1) as Hsub.
  { apply map_subseteq_spec. intros k v. rewrite Hm'. by destruct (decide _). }
  assert (filter (fun kv => cached kv.2) m1 = fresh) as Hfresh.
  { subst m1 fresh. rewrite map_filter_filter. apply map_filter_ext. intros k [c|c] _; cbn; naive_solver. }
  split_and!.
  - intros k c. rewrite Hm'. subst m1. split.
    + destruct (decide _); [done|]. by intros [? _]%map_lookup_filter_Some.
    + intros Hk. assert (filter (fun kv => keep cutoff kv.2) m !! k = Some (Active c)) as Hk1.
      { by apply map_lookup_filter_Some. }
      rewrite Hk1. destruct (decide _) as [Hg|]; [|done]. apply Hgone in Hg as [c' Hc']. congruence.
  - by etrans.
  - rewrite <-Hfresh. by apply map_filter_subseteq_mono.
  - assert ((map_to_list (filter (fun kv => cached kv.2) m')).*1 ≡ₚ rest.*1) as Hp.
    { apply NoDup_Permutation; [apply NoDup_fst_map_to_list|done|]. intros k.
      rewrite <-ages_keys, ages_key. split.
      - intros [c Hk]. rewrite Hm' in Hk. destruct (decide (k ∈ gone.*1)) as [|Hg]; [done|].
        assert (k ∈ (ages m1).*1) as Hin by (apply ages_key; eauto). rewrite <-Hsplit, fmap_app in Hin. set_solver.
      - intros Hk. destruct (proj1 (ages_key m1 k)) as [c Hc]; [rewrite <-Hsplit, fmap_app; set_solver|].
        exists c. rewrite Hm', decide_False; [done|]. intros Hg. by apply (Hdisj k). }
    apply (f_equal length) in Hsplit as Hlen. rewrite length_app in Hlen.
    apply Permutation_length in Hp. rewrite !length_fmap, length_map_to_list in Hp. rewrite Hp.
    assert (length (ages m1) = size fresh) as Hs.
    { by rewrite <-Hfresh, <-length_map_to_list, <-(length_fmap fst), ages_keys, length_fmap. }
    subst rest. rewrite length_drop. lia.
  - intros k k' c c' Hk Hnone Hk'. rewrite <-Hfresh in Hk. apply map_lookup_filter_Some in Hk as [Hk _].
    rewrite Hm' in Hnone, Hk'. destruct (decide (k ∈ gone.*1)) as [Hg|]; [|congruence].
    destruct (decide (k' ∈ gone.*1)) as [|Hg']; [done|].
    apply list_elem_of_fmap in Hg as ([k2 t] & -> & Hg).
    assert ((k2, t) ∈ ages m1) as (c2 & Hc2 & <-)%elem_of_ages by (rewrite <-Hsplit; set_solver). cbn [fst] in *.
    assert ((k', created c') ∈ ages m1) as Hin by (apply elem_of_ages; eauto). rewrite <-Hsplit in Hin.
    apply elem_of_app in Hin as [Hin|Hin]; [destruct Hg'; by apply (list_elem_of_fmap_2 fst) in Hin|].
    pose proof (ages_sorted m1) as Hs. rewrite <-Hsplit in Hs.
    pose proof (StronglySorted_app_1_elem_of _ _ _ _ _ Hs Hg Hin) as Hle. unfold older in Hle. cbn in Hle. by simplify_eq.
Qed.

(** ** The state machine *)

Abbreviation entries s := (federation_txn_state (service s)).

Record TxnInv (s : Server R) : Prop := {
  ti_active key c : entries s !! key = Some (Active c) ↔ tasks s !! c = Some (key, Handling);
  ti_origin key key' c c' : entries s !! key = Some (Active c) → entries s !! key' = Some (Active c') →
    key.1 = key'.1 → key = key';
  ti_limit : (txn_active_handle_count (service s) ≤ max_concurrent_inbound_transactions config)%nat;
  ti_cached key r : entries s !! key = Some (Cached r) → ∃ c, tasks s !! c = Some (key, Sent (Ok (response r)));
  ti_waiters key c : (key, c) ∈ waiters s → ∃ t, tasks s !! c = Some (key, t);
}.

(** The clock is not before the epoch. *)
Definition label_ok (l : label R) : Prop :=
  match l with Handled _ (Ok _) clock => 0 ≤ now_check clock | _ => True end.

Definition active (kv : TxnKey * TxnState R) : bool := is_active kv.2.

Lemma active_count (m : gmap TxnKey (TxnState R)) : length (active_entries m) = size (filter active m).
Proof. apply count_iter. Qed.

Lemma active_same (m m' : gmap TxnKey (TxnState R)) :
  (∀ k c, m' !! k = Some (Active c) ↔ m !! k = Some (Active c)) → filter active m' = filter active m.
Proof.
  intros Hm. apply map_eq_iff. intros k. apply option_eq. intros v. rewrite !map_lookup_filter_Some.
  destruct v as [c|c]; [by rewrite Hm|]. unfold active. cbn. naive_solver.
Qed.

Lemma active_remove (m m' : gmap TxnKey (TxnState R)) key :
  (∀ k c, m' !! k = Some (Active c) → k ≠ key ∧ m !! k = Some (Active c)) →
  (size (filter active m') ≤ size (filter active m))%nat.
Proof.
  intros Hm. apply map_subseteq_size, map_subseteq_spec. intros k [c|c]; rewrite !map_lookup_filter_Some.
  - intros [Hk _]. by apply Hm in Hk as [_ Hk].
  - by intros [_ []].
Qed.

Lemma origin_busy (m : gmap TxnKey (TxnState R)) origin :
  existsb (fun '(k, v) => bool_decide (k.1 = origin) && is_active v) (iter_map m) = true ↔
  ∃ key c, key.1 = origin ∧ m !! key = Some (Active c).
Proof.
  rewrite existsb_exists. split.
  - intros ([k v] & Hk%list_elem_of_In%elem_of_iter_map & [Ho%bool_decide_eq_true Hv]%andb_prop).
    destruct v as [c|]; [eauto|done].
  - intros (key & c & Ho & Hk). exists (key, Active c). split; [by apply list_elem_of_In, elem_of_iter_map|].
    by rewrite bool_decide_true.
Qed.

(** A task that is done handling gives up its entry. *)
Lemma TxnInv_done s c key t sv : TxnInv s → tasks s !! c = Some (key, Handling) → t ≠ Handling →
  (∀ k c', federation_txn_state sv !! k = Some (Active c') ↔ k ≠ key ∧ entries s !! k = Some (Active c')) →
  (∀ k r, federation_txn_state sv !! k = Some (Cached r) →
     k = key ∧ t = Sent (Ok (response r)) ∨ entries s !! k = Some (Cached r)) →
  TxnInv (set_task s c key t sv).
Proof.
  intros [Ha Ho Hl Hc Hw] Hk Ht Hact Hcach. split; cbn [service tasks waiters set_task].
  - intros k c'. rewrite Hact, Ha. destruct (decide (c' = c)) as [->|].
    + rewrite lookup_insert_eq. split; [intros [Hne Hk']; congruence|naive_solver].
    + rewrite lookup_insert_ne by done. split; [tauto|]. intros Hk'. split; [|done]. intros ->.
      apply Ha in Hk, Hk'. congruence.
  - intros k k' c1 c2 [_ H1]%Hact [_ H2]%Hact. by eapply Ho.
  - unfold txn_active_handle_count in *. rewrite active_count in *. etrans; [|exact Hl].
    apply (active_remove _ _ key). intros k c'. apply Hact.
  - intros k r Hk'. destruct (Hcach _ _ Hk') as [[-> ->]|Hold].
    + exists c. by rewrite lookup_insert_eq.
    + destruct (Hc _ _ Hold) as [c' Hc']. exists c'. rewrite lookup_insert_ne; [done|]. intros ->. congruence.
  - intros k c' [t' Hk']%Hw. destruct (decide (c' = c)) as [->|].
    + rewrite lookup_insert_eq. simplify_eq. eauto.
    + rewrite lookup_insert_ne by done. eauto.
Qed.

Lemma TxnInv_failed s c key err : TxnInv s → tasks s !! c = Some (key, Handling) →
  TxnInv (set_task s c key (Failing err) (remove_federation_txn (service s) key)).
Proof.
  intros Hinv Hc. apply TxnInv_done; [done..| |]; cbn [federation_txn_state remove_federation_txn].
  - intros k c'. rewrite lookup_delete_Some. naive_solver.
  - intros k r. rewrite lookup_delete_Some. naive_solver.
Qed.

Lemma should_try_cleanup_eq (sv : Service R) now last : 0 ≤ now → ∃ b l,
  should_try_cleanup sv now last = Ok (b, {| federation_txn_state := federation_txn_state sv; last_cleanup := l |}).
Proof.
  intros Hnow. unfold should_try_cleanup. rewrite decide_False by lia.
  destruct sv as [m l]; cbn. repeat case_decide; eauto.
Qed.

Lemma TxnInv_finished s c key clock r : TxnInv s → tasks s !! c = Some (key, Handling) → 0 ≤ now_check clock →
  ∃ s', process_inbound_transaction config s c key (Ok r) clock = Ok s' ∧ TxnInv s' ∧
    tasks s' = <[c := (key, Sent (Ok r))]> (tasks s) ∧ waiters s' = waiters s.
Proof.
  intros Hinv Hc Hnow. cbn [process_inbound_transaction]. unfold finish_federation_txn.
  destruct (should_try_cleanup_eq (service s) _ (loaded clock) Hnow) as (b & l & ->).
  cbn [mbind result_bind federation_txn_state last_cleanup]. eexists. split; [done|]. split; [|done].
  set (m := <[key := _]> _).
  assert (∀ m', (if b then cleanup_entries_locked config (now_cleanup clock) m else m) = m' →
    (∀ k c', m' !! k = Some (Active c') ↔ m !! k = Some (Active c')) ∧ m' ⊆ m) as Hclean.
  { intros m' <-. destruct b; [|done]. destruct (cleanup_spec (now_cleanup clock) m) as (? & ? & _). done. }
  destruct (Hclean _ eq_refl) as [Hact Hsub]. apply TxnInv_done; [done..| |]; cbn [federation_txn_state].
  - intros k c'. rewrite Hact. subst m. rewrite lookup_insert_Some. naive_solver.
  - intros k r' Hk. apply (lookup_weaken _ m) in Hk; [|done].
    apply lookup_insert_Some in Hk as [[<- [= <-]]|[_ Hk]]; auto.
Qed.

Lemma TxnInv_sent s c key err : TxnInv s → tasks s !! c = Some (key, Failing err) →
  TxnInv (fail_federation_txn s c key err).
Proof.
  intros [Ha Ho Hl Hc Hw] Hk. unfold fail_federation_txn. split; cbn [service tasks waiters set_task]; [|done..| |].
  - intros k c'. rewrite Ha. rewrite lookup_insert_Some. naive_solver.
  - intros k r [c' Hc']%Hc. exists c'. rewrite lookup_insert_Some. naive_solver.
  - intros k c' [t Ht]%Hw. destruct (decide (c' = c)) as [->|].
    + rewrite lookup_insert_eq. naive_solver.
    + rewrite lookup_insert_ne by done. eauto.
Qed.

Lemma TxnInv_clear s : TxnInv s →
  TxnInv {| service := clear_cache (service s); tasks := tasks s; waiters := waiters s |}.
Proof.
  intros [Ha Ho Hl Hc Hw].
  assert (∀ k c, filter (fun kv => is_active kv.2) (entries s) !! k = Some (Active c) ↔ entries s !! k = Some (Active c)) as Hact.
  { intros k c. rewrite map_lookup_filter_Some. naive_solver. }
  split; cbn [service tasks waiters clear_cache federation_txn_state]; [| | | |done].
  - intros k c. by rewrite Hact.
  - intros k k' c c'. rewrite !Hact. apply Ho.
  - unfold txn_active_handle_count in *. rewrite active_count in *. cbn [federation_txn_state].
    by rewrite (active_same (entries s)).
  - intros k r [Hk _]%map_lookup_filter_Some. by apply Hc.
Qed.

(** What a request of a server is answered. *)
Definition reply_ok (s s' : Server R) (key : TxnKey) (reply : Reply R) : Prop :=
  match reply with
  | Done (Ok r) => s' = s ∧ ∃ c, tasks s !! c = Some (key, Sent (Ok r))
  | Done (Err e) => s' = s ∧ e = HLimitExceeded ∧ (∀ c, tasks s !! c ≠ Some (key, Handling)) ∧
      ((∃ txn c, tasks s !! c = Some ((key.1, txn), Handling)) ∨
       txn_active_handle_count (service s) = max_concurrent_inbound_transactions config)
  | Wait c => tasks s' !! c = Some (key, Handling) ∧ (key, c) ∈ waiters s' ∧
      (tasks s' = tasks s ∨
       tasks s' = <[c := (key, Handling)]> (tasks s) ∧ tasks s !! c = None ∧
       ∀ txn c', tasks s !! c' ≠ Some ((key.1, txn), Handling))
  end.

Lemma TxnInv_start s key c l : TxnInv s → tasks s !! c = None → entries s !! key = None →
  (∀ k c', k.1 = key.1 → entries s !! k ≠ Some (Active c')) →
  (txn_active_handle_count (service s) < max_concurrent_inbound_transactions config)%nat →
  TxnInv {| service := {| federation_txn_state := <[key := Active c]> (entries s); last_cleanup := l |};
            tasks := <[c := (key, Handling)]> (tasks s); waiters := (key, c) :: waiters s |}.
Proof.
  intros [Ha Ho Hl Hc Hw] Hfresh Hnone Hfree Hlt. split; cbn [service tasks waiters federation_txn_state].
  - intros k c'. rewrite !lookup_insert_Some, Ha. split.
    + intros [[-> [= ->]]|[Hne Hk]]; [by left|]. right. split; [|done]. intros ->. congruence.
    + intros [[-> [= ->]]|[Hne Hk]]; [by left|]. right. split; [|done]. intros ->. apply Ha in Hk. congruence.
  - intros k k' c1 c2 [[<- _]|[_ Hk]]%lookup_insert_Some [[<- _]|[_ Hk']]%lookup_insert_Some Heq; [done|..].
    + by destruct (Hfree _ _ (eq_sym Heq) Hk').
    + by destruct (Hfree _ _ Heq Hk).
    + by eapply Ho.
  - unfold txn_active_handle_count in *. rewrite active_count in *. cbn [federation_txn_state].
    rewrite map_filter_insert_True by done. rewrite map_size_insert_None; [lia|].
    apply map_lookup_filter_None. by left.
  - intros k r [[_ ?]|[_ Hk]]%lookup_insert_Some; [done|]. destruct (Hc _ _ Hk) as [c' Hc'].
    exists c'. rewrite lookup_insert_ne; [done|]. intros ->. congruence.
  - intros k c' [[= -> ->]|Hin]%elem_of_cons; [exists Handling; apply lookup_insert_eq|].
    destruct (Hw _ _ Hin) as [t Ht]. exists t. rewrite lookup_insert_ne; [done|]. intros ->. congruence.
Qed.

Lemma route_spec s origin txn pdus edus : TxnInv s → (pdus ≤ PDU_LIMIT)%nat → (edus ≤ EDU_LIMIT)%nat →
  let out := send_transaction_message_route config s origin origin txn pdus edus in
  TxnInv out.2 ∧ reply_ok s out.2 (origin, txn) out.1.
Proof.
  intros Hinv Hp He. pose proof Hinv as [Ha Ho Hl Hc Hw]. unfold send_transaction_message_route.
  rewrite decide_False by tauto. rewrite !decide_False by lia. set (key := (origin, txn)).
  assert (tasks s !! fresh (dom (tasks s)) = None) as Hfresh by apply not_elem_of_dom, is_fresh.
  set (ch := fresh _) in *. clearbody ch. unfold get_or_start_federation_txn.
  destruct (entries s !! key) as [[receiver|r]|] eqn:Hkey.
  - cbn [fst snd reply_ok tasks waiters]. pose proof Hkey as Htask. rewrite Ha in Htask. split.
    + split; [done..|]. intros k c' [[= -> ->]|Hin]%elem_of_cons; eauto.
    + split; [done|]. split; [by left|by left].
  - cbn [fst snd reply_ok]. split; [by destruct s|]. split; [by destruct s|]. by apply Hc.
  - assert (∀ c, tasks s !! c ≠ Some (key, Handling)) as Hnot by (intros c; rewrite <-Ha; congruence).
    destruct (existsb _ _) eqn:Hbusy.
    + cbn [fst snd reply_ok]. split; [done|]. apply origin_busy in Hbusy as ([o t] & c & Heq & Hk).
      cbn [fst] in Heq. subst o. apply Ha in Hk. split_and!; [done..|]. left. eauto.
    + assert (∀ k c, k.1 = key.1 → entries s !! k ≠ Some (Active c)) as Hfree.
      { intros k c Hk Hk'. assert (existsb (fun '(k, v) => bool_decide (k.1 = key.1) && is_active v) (iter_map (entries s)) = true)
          as Ht by (apply origin_busy; eauto). by rewrite Ht in Hbusy. }
      change (length (active_entries (entries s))) with (txn_active_handle_count (service s)).
      goal_decide as Hmax.
      * cbn [fst snd reply_ok]. split; [done|]. split_and!; [done..|]. right. lia.
      * cbn [fst snd reply_ok tasks waiters]. split.
        -- apply TxnInv_start; try done. apply not_and_l in Hmax as [Hs|]; [|lia].
           assert (txn_active_handle_count (service s) ≤ size (entries s))%nat; [|lia].
           unfold txn_active_handle_count. rewrite active_count. apply map_subseteq_size, map_filter_subseteq.
        -- split; [apply lookup_insert_eq|]. split; [by left|]. right. split; [done|]. split; [done|].
           intros txn' c'. rewrite <-Ha. by apply Hfree.
Qed.

(** A refused request changes nothing. *)
Lemma route_cases (s : Server R) identity origin txn pdus edus :
  (identity = origin ∧ (pdus ≤ PDU_LIMIT)%nat ∧ (edus ≤ EDU_LIMIT)%nat) ∨
  send_transaction_message_route config s identity origin txn pdus edus = (Done (Err HForbidden), s).
Proof.
  unfold send_transaction_message_route. destruct (decide (identity ≠ origin)) as [|Hi]; [by right|].
  destruct (decide (PDU_LIMIT < pdus)%nat); [by right|]. destruct (decide (EDU_LIMIT < edus)%nat); [by right|].
  left. split; [by apply dec_stable|lia].
Qed.

Lemma route_waiters (s : Server R) identity origin txn pdus edus :
  waiters s ⊆ waiters (send_transaction_message_route config s identity origin txn pdus edus).2.
Proof.
  unfold send_transaction_message_route. repeat case_decide; [done..|].
  destruct (get_or_start_federation_txn _ _ _ _) as [[[r|c|c] sv]|e]; cbn [snd waiters]; set_solver.
Qed.

(** What a step does to the task of a channel. *)
Definition advances (t t' : Task R) : Prop :=
  match t with
  | Handling => True
  | Failing e => t' = t ∨ t' = Sent (Err e)
  | Sent _ => t' = t
  end.

Lemma advances_refl t : advances t t.
Proof. destruct t; cbn; auto. Qed.

Definition progress (l : label R) (c : nat) (t t' : Task R) : Prop :=
  match l with
  | Handled c' _ _ => c' = c → t' ≠ Handling
  | SendError c' => c' = c → t ≠ Handling → ∃ r, t' = Sent r
  | _ => True
  end.

Definition moves (l : label R) (s s' : Server R) : Prop :=
  ∀ c key t, tasks s !! c = Some (key, t) → ∃ t', tasks s' !! c = Some (key, t') ∧ advances t t' ∧ progress l c t t'.

Lemma moves_set l s s' c key t t' : tasks s !! c = Some (key, t) → tasks s' = <[c := (key, t')]> (tasks s) →
  advances t t' → progress l c t t' → (∀ c' t, c' ≠ c → progress l c' t t) → moves l s s'.
Proof.
  intros Hc Heq Hadv Hp Hother c' key' t1 Hc'. rewrite Heq. destruct (decide (c' = c)) as [->|].
  - rewrite lookup_insert_eq. simplify_eq. eauto.
  - rewrite lookup_insert_ne by done. eauto using advances_refl.
Qed.

Lemma moves_same l s s' : tasks s' = tasks s →
  (∀ c key t, tasks s !! c = Some (key, t) → progress l c t t) → moves l s s'.
Proof. intros Heq Hp c key t Hc. rewrite Heq. eauto using advances_refl. Qed.

Lemma handled_spec s c r clock : TxnInv s → label_ok (Handled c r clock) →
  ∃ s', step config s (Handled c r clock) = Ok s' ∧ TxnInv s' ∧ waiters s ⊆ waiters s' ∧ moves (Handled c r clock) s s'.
Proof.
  intros Hinv Hl. cbn [step]. destruct (tasks s !! c) as [[key [|e|r']]|] eqn:Hc; cycle 1.
  1-3: eexists; (split; [done|]); (split; [done|]); (split; [done|]); apply moves_same; [done|]; cbn; naive_solver.
  assert (∀ t', t' ≠ Handling → ∀ s', tasks s' = <[c := (key, t')]> (tasks s) → moves (Handled c r clock) s s') as Hmoves.
  { intros t' Hne s' Heq. eapply moves_set; [exact Hc|exact Heq|done|by intros _|by intros c' t ? <-]. }
  destruct r as [r|e].
  - destruct (TxnInv_finished s c key clock r) as (s' & -> & Hi & Ht & Hw); [done..|].
    exists s'. split; [done|]. split; [done|]. split; [by rewrite Hw|]. by apply (Hmoves (Sent (Ok r))).
  - destruct e as [e| |]; (eexists; split; [done|]); (split; [by apply TxnInv_failed|]); (split; [done|]);
      (eapply Hmoves; [|reflexivity]; done).
Qed.

Lemma txn_step_spec s l : TxnInv s → label_ok l →
  ∃ s', step config s l = Ok s' ∧ TxnInv s' ∧ waiters s ⊆ waiters s' ∧ moves l s s'.
Proof.
  intros Hinv Hl. destruct l as [identity origin txn pdus edus|c r clock|c|]; cbn [step].
  - eexists. split; [done|]. split; [|split; [apply route_waiters|]].
    + destruct (route_cases s identity origin txn pdus edus) as [(<- & Hp & He)| ->]; [|done].
      by apply route_spec.
    + destruct (route_cases s identity origin txn pdus edus) as [(<- & Hp & He)| ->]; [|by apply moves_same].
      destruct (route_spec s identity txn pdus edus Hinv Hp He) as [_ Hr].
      destruct (_.1) as [[r|e]|c]; [by destruct Hr as [-> _]; apply moves_same..|].
      destruct Hr as (_ & _ & [Heq|(Heq & Hnone & _)]); [by apply moves_same|].
      intros c' k t Hc'. rewrite Heq, lookup_insert_ne by congruence. eauto using advances_refl.
  - by apply handled_spec.
  - destruct (tasks s !! c) as [[key [|e|r']]|] eqn:Hc.
    2: { eexists. split; [done|]. split; [by apply TxnInv_sent|]. split; [done|].
         eapply moves_set; [exact Hc|done|by right|cbn; eauto|by intros c' t ? <-]. }
    all: eexists; (split; [done|]); (split; [done|]); (split; [done|]); apply moves_same; [done|].
    all: intros c' k t Ht; cbn; intros <-; rewrite Hc in Ht; simplify_eq; eauto; done.
  - eexists. split; [done|]. split; [by apply TxnInv_clear|]. split; [done|]. by apply moves_same.
Qed.

Lemma txn_run_spec ls : ∀ s, TxnInv s → Forall label_ok ls → ∃ s', run config s ls = Ok s' ∧ TxnInv s' ∧ waiters s ⊆ waiters s'.
Proof.
  induction ls as [|l ls IH]; intros s Hinv Hls; [eauto|]. apply Forall_cons in Hls as [Hl Hls].
  destruct (txn_step_spec s l Hinv Hl) as (s1 & Heq & Hi & Hw & _). destruct (IH s1 Hi Hls) as (s' & Hr & Hi' & Hw').
  exists s'. cbn [run]. rewrite Heq. cbn [mbind result_bind]. split_and!; [done..|set_solver].
Qed.

Lemma initial_inv : TxnInv initial.
Proof.
  split; unfold initial; cbn [service tasks waiters federation_txn_state]; [|done| |done|].
  - intros key c. by rewrite !lookup_empty.
  - unfold txn_active_handle_count. rewrite active_count. cbn [federation_txn_state]. rewrite map_filter_empty, map_size_empty. lia.
  - intros key c Hin. by apply elem_of_nil in Hin.
Qed.

(** A task that has left some stages behind does not come back to them. *)
Lemma run_advances ls : ∀ s, TxnInv s → Forall label_ok ls → ∀ c key t, tasks s !! c = Some (key, t) →
  ∃ s' t', run config s ls = Ok s' ∧ TxnInv s' ∧ tasks s' !! c = Some (key, t') ∧ advances t t' ∧
    (t ≠ Handling → t' ≠ Handling).
Proof.
  induction ls as [|l ls IH]; intros s Hinv Hls c key t Hc; [eauto 10 using advances_refl|].
  apply Forall_cons in Hls as [Hl Hls]. destruct (txn_step_spec s l Hinv Hl) as (s1 & Heq & Hi & _ & Hm).
  destruct (Hm _ _ _ Hc) as (t1 & Hc1 & Ha & _). destruct (IH s1 Hi Hls _ _ _ Hc1) as (s' & t' & Hr & Hi' & Hc' & Ha' & Hn).
  exists s', t'. cbn [run]. rewrite Heq. cbn [mbind result_bind]. split_and!; try done.
  - destruct t; cbn in *; [done| |by subst].
    destruct Ha as [->| ->]; cbn in Ha'; [done|by right].
  - intros Hne. apply Hn. destruct t; cbn in Ha; [done|by destruct Ha as [->| ->]|by subst].
Qed.

Lemma run_app (ls ls' : list (label R)) : ∀ s, run config s (ls ++ ls') = run config s ls ≫= fun s => run config s ls'.
Proof.
  induction ls as [|l ls IH]; intros s; cbn [app run]; [done|].
  destruct (step config s l) as [s'|e]; cbn [mbind result_bind]; [apply IH|done].
Qed.

(** A run in which a task is scheduled after it handled the events sends its answer. *)
Lemma run_sends ls1 ls2 ls3 c h clock s key t : TxnInv s →
  Forall label_ok (ls1 ++ Handled c h clock :: ls2 ++ SendError c :: ls3) → tasks s !! c = Some (key, t) →
  ∃ s' r, run config s (ls1 ++ Handled c h clock :: ls2 ++ SendError c :: ls3) = Ok s' ∧ tasks s' !! c = Some (key, Sent r).
Proof.
  intros Hinv Hls Hc. apply Forall_app in Hls as [Hl1 Hls]. apply Forall_cons in Hls as [Hh Hls].
  apply Forall_app in Hls as [Hl2 Hls]. apply Forall_cons in Hls as [Hs Hl3].
  rewrite run_app. destruct (run_advances ls1 s Hinv Hl1 c key t Hc) as (s1 & t1 & -> & Hi1 & Hc1 & _).
  cbn [mbind result_bind run]. destruct (txn_step_spec s1 _ Hi1 Hh) as (s2 & -> & Hi2 & _ & Hm2).
  destruct (Hm2 _ _ _ Hc1) as (t2 & Hc2 & _ & Hne). cbn [mbind result_bind]. rewrite run_app.
  destruct (run_advances ls2 s2 Hi2 Hl2 c key t2 Hc2) as (s3 & t3 & -> & Hi3 & Hc3 & _ & Hn3).
  cbn [mbind result_bind run]. destruct (txn_step_spec s3 _ Hi3 Hs) as (s4 & -> & Hi4 & _ & Hm4).
  destruct (Hm4 _ _ _ Hc3) as (t4 & Hc4 & _ & Hp). destruct (Hp eq_refl) as [r ->]; [by apply Hn3, Hne|].
  cbn [mbind result_bind]. destruct (run_advances ls3 s4 Hi4 Hl3 c key _ Hc4) as (s' & t' & Hr & _ & Hc' & Ha & _).
  exists s', r. split; [done|]. cbn in Ha. by subst t'.
Qed.

(** C21: Whatever requests come in, tasks end and caches are cleared, in whatever order: the server
    never handles two transactions of an origin at a time, nor more than the limit; a request for a
    transaction that is handled waits for its task, one whose response is kept is given the response
    that a task sent for it, any other starts a task, or is refused while the origin has a task or
    the limit is reached. *)
Theorem transactions_correct (ls : list (label R)) (Hls : Forall label_ok ls) : ∃ s,
  run config initial ls = Ok s ∧
  (∀ origin txn txn' c c', tasks s !! c = Some ((origin, txn), Handling) → tasks s !! c' = Some ((origin, txn'), Handling) → c = c') ∧
  (∀ key c, entries s !! key = Some (Active c) ↔ tasks s !! c = Some (key, Handling)) ∧
  (txn_active_handle_count (service s) ≤ max_concurrent_inbound_transactions config)%nat ∧
  ∀ origin txn pdus edus, (pdus ≤ PDU_LIMIT)%nat → (edus ≤ EDU_LIMIT)%nat →
    let out := send_transaction_message_route config s origin origin txn pdus edus in
    reply_ok s out.2 (origin, txn) out.1.
Proof.
  destruct (txn_run_spec ls initial initial_inv Hls) as (s & Hr & Hi & _). exists s. split; [done|].
  pose proof Hi as [Ha Ho Hlim _ _]. split; [|split; [done|split; [done|]]].
  - intros origin txn txn' c c' Hc Hc'. pose proof Hc as He. pose proof Hc' as He'. rewrite <-Ha in He, He'.
    pose proof (Ho _ _ _ _ He He' eq_refl) as Heq. rewrite Heq in He. congruence.
  - intros origin txn pdus edus Hp He. by apply route_spec.
Qed.


(** Cleaning the responses kept: transactions that are handled stay, nothing is added or altered,
    responses past their age go, of the others as many stay as the limit allows, and none that goes is
    newer than one that stays. *)
Theorem cleanup_correct (now : Z) (m : gmap TxnKey (TxnState R)) :
  let cutoff := default 0 (checked_sub_secs now (transaction_id_cache_max_age_secs config)) in
  let m' := cleanup_entries_locked config now m in
  let fresh := filter (fun kv => cached kv.2 ∧ keep cutoff kv.2) m in
  (∀ k c, m' !! k = Some (Active c) ↔ m !! k = Some (Active c)) ∧
  m' ⊆ m ∧
  filter (fun kv => cached kv.2) m' ⊆ fresh ∧
  size (filter (fun kv => cached kv.2) m') = (transaction_id_cache_max_entries config `min` size fresh)%nat ∧
  ∀ k k' c c', fresh !! k = Some (Cached c) → m' !! k = None → m' !! k' = Some (Cached c') → created c ≤ created c'.
Proof. apply cleanup_spec. Qed.
End Federation.

Module TransactionsWitness.
#[local] Existing Instance hash_iter_fwd.

Definition conf : TxnConfig := {|
  max_concurrent_inbound_transactions := 2; transaction_id_cache_max_age_secs := 60; transaction_id_cache_max_entries := 1 |}.
Definition clock : Clock := {| now_check := 100 * SEC; now_created := 100 * SEC; now_cleanup := 100 * SEC; loaded := 0 |}.
Definition a : bytes := [97].
Definition b : bytes := [98].

(** Two requests for one transaction; it fails, and is tried again. *)
Definition story : list (label nat) :=
  [Request a a [49] 1 0; Request a a [49] 1 0; Handled 0 (Err (Fail ShuttingDown)) clock; Request a a [49] 1 0;
   SendError 0; Handled 1 (Ok 7%nat) clock].

Lemma story_ok : Forall label_ok story.
Proof. by repeat constructor. Qed.

Lemma transactions_correct_witness : ∃ s, run conf initial story = Ok s ∧
  (txn_active_handle_count (service s) ≤ 2)%nat.
Proof.
  destruct (transactions_correct conf story story_ok) as (s & Hr & _ & _ & Hl & _). exists s. split; [exact Hr|exact Hl].
Defined.

(** The second request is given the error, later ones the response of the second attempt. *)
Example story_answers :
  (s ← run conf initial story; Ok (borrow s 0%nat, (send_transaction_message_route conf s a a [49] 0 0).1)) =
    Ok (Some (Err ShuttingDown), Done (Ok 7%nat)).
Proof. vm_compute. reflexivity. Qed.

Definition one_waiting : Server nat := (send_transaction_message_route conf initial a a [49] 1 0).2.


Lemma client_retry_correct_witness :
  send_message_event (fun _ => true) (fun d => Ok ([36; 49], d)) empty_db a (Some b) [49] =
    Ok ([36; 49], add_client_txnid empty_db a (Some b) [49] [36; 49]).
Proof.
  destruct (client_retry_correct (fun _ => true) (fun d => Ok ([36; 49], d)) empty_db empty_db
    (add_client_txnid empty_db a (Some b) [49] [36; 49]) a (Some b) [49] [36; 49]) as [Hr _]; [done..|exact Hr].
Defined.
End TransactionsWitness.
