(* ===== verification/PduMetadata.v ===== *)
(** What is kept of events beside them: which were rejected, soft-failed or referenced, and which refer to
    which.  Source: src/src/service/rooms/pdu_metadata/mod.rs and data.rs, rooms/outlier/mod.rs.

    The unsigned data that an event is given for the user who asks is left out.  A walk over relations
    to some depth is bounded by fuel. *)

From stdpp Require Import prelude gmap sorting.
From Stdlib Require Import ZArith Lia.
From S2P Require Import Prelude Bytes PduCount DbSer Database PairKeys Scans Short Timeline.
Local Open Scope Z_scope.

(** ** Marks *)

(** @src src/src/service/rooms/pdu_metadata/data.rs:125-127 Data::mark_event_soft_failed *)
Definition mark_event_soft_failed (d : Db) (event_id : bytes) : Db := insert d softfailedeventids event_id [].

(** @src src/src/service/rooms/pdu_metadata/data.rs:129-131 Data::unmark_event_soft_failed *)
Definition unmark_event_soft_failed (d : Db) (event_id : bytes) : Db := remove d softfailedeventids event_id.

(** @src src/src/service/rooms/pdu_metadata/data.rs:133-135 Data::is_event_soft_failed *)
Definition is_event_soft_failed (d : Db) (event_id : bytes) : bool := is_ok (get d softfailedeventids event_id).

(** @src src/src/service/rooms/pdu_metadata/data.rs:137-139 Data::mark_event_rejected *)
Definition mark_event_rejected (d : Db) (event_id : bytes) : Db := insert d rejectedeventids event_id [].

(** @src src/src/service/rooms/pdu_metadata/data.rs:141-143 Data::unmark_event_rejected *)
Definition unmark_event_rejected (d : Db) (event_id : bytes) : Db := remove d rejectedeventids event_id.

(** @src src/src/service/rooms/pdu_metadata/data.rs:145-147 Data::is_event_rejected *)
Definition is_event_rejected (d : Db) (event_id : bytes) : bool := is_ok (get d rejectedeventids event_id).

(** @src src/src/service/rooms/pdu_metadata/data.rs:150-153 Data::clear_pdu_markers *)
Definition clear_pdu_markers (d : Db) (event_id : bytes) : Db :=
  unmark_event_soft_failed (unmark_event_rejected d event_id) event_id.

(** @src src/src/service/rooms/pdu_metadata/mod.rs:161-164 Service::is_event_accepted *)
Definition is_event_accepted (d : Db) (event_id : bytes) : bool :=
  negb (is_event_rejected d event_id) && negb (is_event_soft_failed d event_id).

(** @src src/src/service/rooms/pdu_metadata/data.rs:110-118 Data::mark_as_referenced *)
Fixpoint mark_as_referenced (d : Db) (room_id : bytes) (event_ids : list bytes) : comp db_error Db :=
  match event_ids with
  | [] => Ok d
  | prev :: event_ids => d ← put_raw d referencedevents (pair_value room_id prev) []; mark_as_referenced d room_id event_ids
  end.

(** @src src/src/service/rooms/pdu_metadata/data.rs:120-123 Data::is_event_referenced *)
Definition is_event_referenced (d : Db) (room_id event_id : bytes) : bool :=
  is_ok (qry d referencedevents (pair_value room_id event_id)).

(** ** Outliers *)

Section Outlier.
Context `{!Parsers} {P : Type} `{!PduJson P}.

(** @src src/src/service/rooms/outlier/mod.rs:38-44 Service::get_pdu_outlier *)
Definition get_pdu_outlier (d : Db) (event_id : bytes) : comp db_error P :=
  deserialized_pdu (get d eventid_outlierpdu event_id).

(** @src src/src/service/rooms/outlier/mod.rs:47-49 Service::add_pdu_outlier *)
Definition add_pdu_outlier (d : Db) (event_id pdu : bytes) : comp db_error Db :=
  raw_put_json d eventid_outlierpdu event_id pdu.
End Outlier.

(** ** Relations *)

(** @src src/src/service/rooms/pdu_metadata/data.rs:52-57 Data::add_relation *)
Definition add_relation_raw (d : Db) (from to : Z) : comp db_error Db :=
  aput_raw 16 d tofrom_relation (VSeq [VU64 to; VU64 from]) [].

(** @src src/src/service/rooms/pdu_metadata/mod.rs:44-51 Service::add_relation *)
Definition add_relation (d : Db) (from to : Count) : comp db_error Db :=
  match from, to with
  | Normal f, Normal t => add_relation_raw d f t
  | _, _ => Ok d
  end.

(** The key of a relation. *)
Definition tofrom_key (to from : Z) : bytes := u64_to_be to ++ u64_to_be from.

(** The second word of a key. *)
Definition from_of_key (key : bytes) : Count := from_unsigned (from_be (take 8 (drop 8 key))).

(** What a scan lets through: the starting position only at both ends. *)
Definition beyond (from : Count) (dir : Direction) (count : Count) : bool :=
  if bool_decide (from = Backfilled i64_min) || bool_decide (from = Normal i64_max) then true
  else
    match dir with
    | Forward => into_unsigned from <? into_unsigned count
    | Backward => into_unsigned count <? into_unsigned from
    end.

(** @src src/src/service/rooms/pdu_metadata/data.rs:69-92 Data::get_relations *)
Definition relation_counts (d : Db) (target : Z) (from : Count) (dir : Direction) : list Count :=
  let current := tofrom_key target (into_unsigned from) in
  let keys := match dir with
              | Forward => raw_keys_from d tofrom_relation current
              | Backward => rev_raw_keys_from d tofrom_relation current
              end in
  filter (fun count => beyond from dir count = true)
    (map from_of_key (take_while (fun key => u64_to_be target `prefix_of` key) keys)).

Section Relations.
Context `{!Parsers} {P : Type} `{!PduJson P}.

(** @src src/src/service/rooms/pdu_metadata/data.rs:59-107 Data::get_relations *)
Definition get_relations_raw (d : Db) (room target : Z) (from : Count) (dir : Direction) : list (Count * P) :=
  omap (fun count =>
      match get_pdu_from_id d (raw_from_id {| shortroomid := room; shorteventid := count |}) with
      | Ok pdu => Some (count, pdu)
      | Err _ => None
      end) (relation_counts d target from dir).

(** Events that refer to no position are taken for the first. *)
Definition relation_target (c : Count) : Z := match c with Normal c => c | Backfilled _ => 0 end.

(** The relations of one event of the walk, until there are enough.
    @src src/src/service/rooms/pdu_metadata/mod.rs:103-112 Service::get_relations *)
Fixpoint push_relations (limit : nat) (deeper : bool) (depth : Z) (relations : list (Count * P))
    (stack : list (Count * P * Z)) (pdus : list (Count * P)) : list (Count * P * Z) * list (Count * P) * bool :=
  match relations with
  | [] => (stack, pdus, false)
  | relation :: relations =>
      let stack := if deeper then stack ++ [(relation, depth + 1)] else stack in
      let pdus := pdus ++ [relation] in
      if decide (limit ≤ length pdus)%nat then (stack, pdus, true)
      else push_relations limit deeper depth relations stack pdus
  end.

(** @src src/src/service/rooms/pdu_metadata/mod.rs:90-113 Service::get_relations *)
Fixpoint walk_relations (fuel : nat) (d : Db) (room : Z) (from : Count) (dir : Direction) (limit : nat) (max_depth : Z)
    (stack : list (Count * P * Z)) (pdus : list (Count * P)) : comp db_error (list (Count * P)) :=
  match fuel with
  | O => Err OutOfFuel
  | S fuel =>
      match last stack with
      | None => Ok pdus
      | Some ((count, _), depth) =>
          let relations := get_relations_raw d room (relation_target count) from dir in
          let '(stack, pdus, full) :=
            push_relations limit (depth <? max_depth) depth relations (removelast stack) pdus in
          if full : bool then Ok pdus else walk_relations fuel d room from dir limit max_depth stack pdus
      end
  end.

(** @src src/src/service/rooms/pdu_metadata/mod.rs:54-116 Service::get_relations *)
Definition get_relations (fuel : nat) (w : World) (room_id target : bytes) (from : Count) (limit : nat) (max_depth : Z)
    (dir : Direction) : comp db_error (list (Count * P)) :=
  match (room ← get_shortroomid w room_id; target ← get_pdu_count (db w) target; Ok (room, target)) with
  | Ok (room, target) =>
      let pdus := get_relations_raw (db w) room (relation_target target) from dir in
      let stack := if 0 <? max_depth then map (fun pdu => (pdu, 1)) pdus else [] in
      walk_relations fuel (db w) room from dir limit max_depth stack pdus
  | Err (Fail _) => Ok []
  | Err e => Err e
  end.
End Relations.

(** * Relations are found *)

(** Every key is that of a relation between positions. *)
Definition Relations_ok (d : Db) : Prop := ∀ k, is_Some (d tofrom_relation !! k) →
  ∃ to from, is_u64 to ∧ 0 < from ≤ i64_max ∧ k = tofrom_key to from.
Definition related (d : Db) (to from : Z) : Prop := is_Some (d tofrom_relation !! tofrom_key to from).

Lemma tofrom_key_cmp to from to' from' : is_u64 to → is_u64 from → is_u64 to' → is_u64 from' →
  ord_cmp (tofrom_key to from) (tofrom_key to' from') = cmp_then (to ?= to') (from ?= from').
Proof.
  intros. unfold tofrom_key, ord_cmp, list_ord. rewrite list_cmp_app by by rewrite !to_be_length.
  by rewrite !u64_be_cmp.
Qed.

Lemma tofrom_key_prefix to to' from : is_u64 to → is_u64 to' →
  u64_to_be to `prefix_of` tofrom_key to' from ↔ to = to'.
Proof.
  intros. split; [|intros ->; by eexists]. intros [r Hr]. apply (f_equal (take 8)) in Hr. unfold tofrom_key in Hr.
  rewrite !take_8_to_be in Hr. symmetry. by apply u64_to_be_inj.
Qed.

Lemma from_of_tofrom_key to from : 0 < from ≤ i64_max → from_of_key (tofrom_key to from) = Normal from.
Proof.
  intros Hf. unfold from_of_key, tofrom_key. rewrite drop_app_length' by by rewrite to_be_length.
  rewrite take_ge by by rewrite to_be_length. rewrite u64_round_trip by word.
  unfold from_unsigned. rewrite as_i64_small by word. unfold from_signed. rewrite decide_False by lia. f_equal. unfold as_u64. apply Z.mod_small. word.
Qed.

Lemma StronglySorted_map_in {A B} (f : A → B) (R : A → A → Prop) (S : B → B → Prop) (l : list A) :
  StronglySorted R l → (∀ x y, x ∈ l → y ∈ l → R x y → S (f x) (f y)) → StronglySorted S (map f l).
Proof.
  induction 1 as [|x l Hs IH Hx]; intros HS; simpl; [constructor|]. constructor.
  - apply IH. intros. apply HS; [by right..|done].
  - apply Forall_forall. change (map f l) with (f <$> l). intros y (z & -> & Hz)%list_elem_of_fmap.
    rewrite Forall_forall in Hx. apply HS; [by left|by right|by apply Hx].
Qed.

Section Scan.
Context (d : Db) (Hd : Relations_ok d) (target : Z) (Htarget : is_u64 target).

Definition word_of_key (key : bytes) : Z := from_be (take 8 (drop 8 key)).

Lemma word_of_tofrom_key to from : is_u64 from → word_of_key (tofrom_key to from) = from.
Proof.
  intros Hf. unfold word_of_key, tofrom_key. rewrite drop_app_length' by by rewrite to_be_length.
  rewrite take_ge by by rewrite to_be_length. by apply u64_round_trip.
Qed.

(** The keys of a target, as the words of their relations, in the order of the scan. *)
Lemma scanned_words (R : bytes → bytes → Prop) (S : Z → Z → Prop) (keys : list bytes) :
  StronglySorted R keys → (∀ k, k ∈ keys → is_Some (d tofrom_relation !! k)) →
  (∀ f f', is_u64 f → is_u64 f' → R (tofrom_key target f) (tofrom_key target f') → S f f') →
  (∀ x y, x ∈ keys → y ∈ keys → R x y → u64_to_be target `prefix_of` y → u64_to_be target `prefix_of` x) →
  let l := take_while (fun key => u64_to_be target `prefix_of` key) keys in
  map from_of_key l = map (fun f => Normal f) (map word_of_key l) ∧ StronglySorted S (map word_of_key l)
  ∧ ∀ f, f ∈ map word_of_key l ↔ 0 < f ≤ i64_max ∧ tofrom_key target f ∈ keys.
Proof.
  intros Hs Hkeys HS HR. cbv zeta. rewrite (take_while_sorted R) by done.
  set (l := filter _ keys).
  assert (∀ k, k ∈ l → ∃ f, 0 < f ≤ i64_max ∧ k = tofrom_key target f) as Hl.
  { intros k [Hp Hin]%list_elem_of_filter. destruct (Hd k (Hkeys k Hin)) as (to & f & Hto & Hf & ->).
    exists f. apply tofrom_key_prefix in Hp; [|done..]. by subst. }
  split_and!.
  - rewrite map_map. apply map_ext_in. intros k Hk. destruct (Hl k) as (f & Hf & ->); [by apply list_elem_of_In|].
    rewrite from_of_tofrom_key, word_of_tofrom_key by word. done.
  - apply (StronglySorted_map_in word_of_key R S); [by apply StronglySorted_filter|].
    intros x y Hx Hy Hxy. destruct (Hl x Hx) as (f & Hf & ->), (Hl y Hy) as (f' & Hf' & ->).
    rewrite !word_of_tofrom_key by word. apply HS; [word..|done].
  - intros f. change (map word_of_key l) with (word_of_key <$> l). rewrite list_elem_of_fmap. split.
    + intros (k & -> & Hk). destruct (Hl k Hk) as (f & Hf & ->). rewrite word_of_tofrom_key by word.
      split; [done|]. by apply list_elem_of_filter in Hk as [_ ?].
    + intros [Hf Hin]. exists (tofrom_key target f). rewrite word_of_tofrom_key by word. split; [done|].
      apply list_elem_of_filter. split; [|done]. by apply tofrom_key_prefix.
Qed.

Definition scan_keys (dir : Direction) (cur : Z) : list bytes :=
  match dir with
  | Forward => raw_keys_from d tofrom_relation (tofrom_key target cur)
  | Backward => rev_raw_keys_from d tofrom_relation (tofrom_key target cur)
  end.
Definition in_direction (dir : Direction) (a b : Z) : Prop := match dir with Forward => a < b | Backward => b < a end.
#[export] Instance in_direction_dec dir a b : Decision (in_direction dir a b).
Proof. destruct dir; simpl; apply _. Defined.

Lemma tofrom_key_le f f' : is_u64 f → is_u64 f' → ord_le (tofrom_key target f) (tofrom_key target f') ↔ f ≤ f'.
Proof.
  intros. unfold ord_le. rewrite tofrom_key_cmp by done. rewrite Z.compare_refl. simpl. by rewrite <-Z.compare_le_iff.
Qed.

Lemma sorted_keys_strict : StronglySorted ord_lt (sorted_keys (d tofrom_relation)).
Proof. apply StronglySorted_strict; [apply sorted_keys_NoDup|apply sort_StronglySorted]. Qed.

Lemma scan_relations dir cur : is_u64 cur → ∃ fs,
  map from_of_key (take_while (fun key => u64_to_be target `prefix_of` key) (scan_keys dir cur)) = map (fun f => Normal f) fs
  ∧ StronglySorted (in_direction dir) fs
  ∧ ∀ f, f ∈ fs ↔ 0 < f ≤ i64_max ∧ related d target f ∧ (cur = f ∨ in_direction dir cur f).
Proof.
  intros Hcur. pose proof sorted_keys_strict as Hstrict.
  destruct dir; unfold scan_keys, raw_keys_from, rev_raw_keys_from.
  - destruct (scanned_words ord_lt (in_direction Forward)
      (filter (fun k => ord_le (tofrom_key target cur) k) (sorted_keys (d tofrom_relation)))) as (Hmap & Hs & Hin).
    + by apply StronglySorted_filter.
    + intros k [_ Hk]%list_elem_of_filter. by apply sorted_keys_elem.
    + intros f f' Hf Hf' Hlt. simpl. unfold ord_lt in Hlt. rewrite tofrom_key_cmp in Hlt by done.
      rewrite Z.compare_refl in Hlt. by apply Z.compare_lt_iff.
    + intros x y [Hx _]%list_elem_of_filter _ Hxy [r ->]. apply (prefix_between _ x r).
      * etrans; [apply prefix_le|exact Hx].
      * apply ord_le_alt. by left.
    + eexists. split; [exact Hmap|]. split; [exact Hs|]. intros f. rewrite Hin, list_elem_of_filter, sorted_keys_elem.
      unfold related. simpl. split.
      * intros (Hf & Hle & Hk). apply tofrom_key_le in Hle; [|word..]. split; [done|]. split; [done|lia].
      * intros (Hf & Hk & Hle). split; [done|]. split; [|done]. apply tofrom_key_le; [word..|lia].
  - destruct (scanned_words (fun a b => ord_lt b a) (in_direction Backward)
      (reverse (filter (fun k => ord_le k (tofrom_key target cur)) (sorted_keys (d tofrom_relation))))) as (Hmap & Hs & Hin).
    + by apply StronglySorted_reverse, StronglySorted_filter.
    + intros k Hk. rewrite elem_of_reverse in Hk. apply list_elem_of_filter in Hk as [_ Hk]. by apply sorted_keys_elem.
    + intros f f' Hf Hf' Hlt. simpl. unfold ord_lt in Hlt. rewrite tofrom_key_cmp in Hlt by done.
      rewrite Z.compare_refl in Hlt. by apply Z.compare_lt_iff.
    + intros x y Hx _ Hxy [r ->]. rewrite elem_of_reverse in Hx. apply list_elem_of_filter in Hx as [Hx _].
      apply (prefix_between _ x (u64_to_be cur)); [|exact Hx].
      etrans; [apply (prefix_le _ r)|]. apply ord_le_alt. by left.
    + eexists. split; [exact Hmap|]. split; [exact Hs|]. intros f.
      rewrite Hin, elem_of_reverse, list_elem_of_filter, sorted_keys_elem. unfold related. simpl. split.
      * intros (Hf & Hle & Hk). apply tofrom_key_le in Hle; [|word..]. split; [done|]. split; [done|lia].
      * intros (Hf & Hk & Hle). split; [done|]. split; [|done]. apply tofrom_key_le; [word..|lia].
Qed.

Lemma filter_beyond dir n fs : 0 < n < i64_max →
  filter (fun count => beyond (Normal n) dir count = true) (map (fun f => Normal f) fs)
  = map (fun f => Normal f) (filter (in_direction dir n) fs).
Proof.
  intros Hn. assert (∀ f, beyond (Normal n) dir (Normal f) = true ↔ in_direction dir n f) as Hb.
  { intros f. unfold beyond. rewrite bool_decide_eq_false_2 by done. rewrite bool_decide_eq_false_2 by (intros [=]; lia).
    destruct dir; simpl; apply Z.ltb_lt. }
  induction fs as [|f fs IH]; [done|]. simpl. rewrite !filter_cons. specialize (Hb f).
  do 2 case_decide; simpl; rewrite ?IH; naive_solver.
Qed.

Lemma filter_ends from dir (l : list Count) : from = Backfilled i64_min ∨ from = Normal i64_max →
  filter (fun count => beyond from dir count = true) l = l.
Proof.
  intros Hf. assert (∀ c, beyond from dir c = true) as Hb.
  { intros c. unfold beyond. destruct Hf as [-> | ->].
    - by rewrite (bool_decide_eq_true_2 (Backfilled i64_min = _)).
    - rewrite (bool_decide_eq_true_2 (Normal i64_max = Normal i64_max)) by done. by rewrite orb_true_r. }
  induction l as [|c l IH]; [done|]. rewrite filter_cons, decide_True by done. by rewrite IH.
Qed.
End Scan.

Section Walk.
Context `{!Parsers} {P : Type} `{!PduJson P} (limit : nat).
Implicit Types (stack : list (Count * P * Z)) (pdus : list (Count * P)).

Lemma push_relations_bound deeper depth relations stack pdus stack' pdus' full :
  push_relations limit deeper depth relations stack pdus = (stack', pdus', full) →
  (length pdus ≤ length pdus')%nat ∧ (length stack' + length pdus ≤ length stack + length pdus')%nat ∧
  (length pdus' ≤ Nat.max (S (length pdus)) limit)%nat ∧
  (full = false → length pdus' = length pdus ∨ length pdus' < limit)%nat.
Proof.
  revert stack pdus. induction relations as [|r relations IH]; intros stack pdus Hrun; simpl in Hrun.
  { injection Hrun as <- <- <-. split_and!; [lia..|by left]. }
  set (stack1 := if deeper then stack ++ [(r, depth + 1)] else stack) in *.
  assert (length stack1 ≤ S (length stack))%nat as Hstack.
  { unfold stack1. destruct deeper; [rewrite length_app; simpl|]; lia. }
  destruct (decide _) as [Hle|Hgt] in Hrun.
  - injection Hrun as <- <- <-. rewrite length_app in *. simpl in *. split_and!; [lia..|done].
  - apply IH in Hrun as (H1' & H2' & H3' & H4'). rewrite length_app in *. simpl in *.
    split_and!; [lia..|]. intros Hf. right. destruct (H4' Hf); lia.
Qed.

(** Walking relations to some depth ends: it takes at most as many steps as there are events to start
    from and events that are let through, and gives no more than these or the limit. *)
Theorem relations_walk_ends fuel d room from dir max_depth stack pdus :
  (length stack + (limit - length pdus) < fuel)%nat →
  ∃ l, walk_relations fuel d room from dir limit max_depth stack pdus = Ok l
    ∧ (length l ≤ Nat.max (S (length pdus)) limit)%nat.
Proof.
  revert stack pdus. induction fuel as [|fuel IH]; intros stack pdus Hfuel; [lia|]. simpl.
  destruct (last stack) as [[[count ev] depth]|] eqn:Hlast; [|exists pdus; split; [done|lia]].
  assert (length stack = S (length (removelast stack))) as Hlen.
  { destruct stack as [|x stack] using rev_ind; [done|]. rewrite removelast_last, length_app. simpl. lia. }
  destruct (push_relations _ _ _ _ _ _) as [[stack' pdus'] full] eqn:Hpush.
  apply push_relations_bound in Hpush as (Hp & Hs & Hmax & Hfull).
  destruct full; [by exists pdus'|]. specialize (Hfull eq_refl).
  destruct (IH stack' pdus') as (l & Hl & Hbound); [lia|]. exists l. split; [done|]. lia.
Qed.
End Walk.

(** A relation that is added is found. *)
Lemma add_relation_spec (d : Db) f t : Relations_ok d → 0 < f ≤ i64_max → is_u64 t →
  ∃ d', add_relation d (Normal f) (Normal t) = Ok d' ∧ Relations_ok d' ∧
    ∀ to from, is_u64 to → is_u64 from → related d' to from ↔ (to = t ∧ from = f) ∨ related d to from.
Proof.
  intros Hd Hf Ht. exists (insert d tofrom_relation (tofrom_key t f) []).
  assert (∀ k, insert d tofrom_relation (tofrom_key t f) [] tofrom_relation !! k
               = if decide (k = tofrom_key t f) then Some [] else d tofrom_relation !! k) as Hlookup.
  { intros k. rewrite insert_same. case_decide as Hk; [by rewrite Hk, lookup_insert_eq|by rewrite lookup_insert_ne]. }
  split_and!.
  - unfold add_relation, add_relation_raw, aput_raw, bput_raw.
    assert (serialize (Some 16%nat) (VSeq [VU64 t; VU64 f]) = Ok (tofrom_key t f)) as ->; [|done].
    unfold serialize, tofrom_key. simpl. done.
  - intros k. rewrite Hlookup. case_decide as Hk; [|apply Hd]. intros _. exists t, f. done.
  - intros to from Hto Hfrom. unfold related. rewrite Hlookup. case_decide as Hk.
    + split; [|by eauto]. intros _. left. pose proof (tofrom_key_cmp to from t f) as Hcmp. rewrite Hk in Hcmp.
      rewrite ord_refl in Hcmp. destruct (Z.compare_spec to t), (Z.compare_spec from f); simpl in Hcmp; try done.
      all: exfalso; by discriminate Hcmp; try word.
    + split; [by right|]. intros [[-> ->]|]; done.
Qed.

Section Properties.

(** From a position, the relations to an event are found that lie beyond it, each once, in the order of
    the direction; backwards from the end, all of them.  Forwards from the start none is found, since
    the smallest position is the largest as an unsigned number. *)
Theorem relations_correct (d : Db) (target n : Z) (dir : Direction)
    (Hd : Relations_ok d) (Ht : is_u64 target) (Hn : 0 < n < i64_max) :
  (∃ fs, relation_counts d target (Normal n) dir = map (fun f => Normal f) fs
    ∧ StronglySorted (in_direction dir) fs
    ∧ ∀ f, f ∈ fs ↔ 0 < f ≤ i64_max ∧ related d target f ∧ in_direction dir n f)
  ∧ (∃ fs, relation_counts d target (Normal i64_max) Backward = map (fun f => Normal f) fs
    ∧ StronglySorted (in_direction Backward) fs ∧ ∀ f, f ∈ fs ↔ 0 < f ≤ i64_max ∧ related d target f)
  ∧ relation_counts d target (Backfilled i64_min) Forward = [].
Proof.
  split_and!.
  - destruct (scan_relations d Hd target Ht dir n) as (fs & Hmap & Hs & Hin); [word|].
    exists (filter (in_direction dir n) fs).
    assert (relation_counts d target (Normal n) dir = map (fun f => Normal f) (filter (in_direction dir n) fs)) as ->.
    { unfold relation_counts. simpl. rewrite <-filter_beyond, <-Hmap by done. by destruct dir. }
    split; [done|]. split; [by apply StronglySorted_filter|]. intros f. rewrite list_elem_of_filter, Hin. tauto.
  - destruct (scan_relations d Hd target Ht Backward i64_max) as (fs & Hmap & Hs & Hin); [word|].
    exists fs. split_and!; [|done|].
    + unfold relation_counts. rewrite filter_ends by by right. exact Hmap.
    + intros f. rewrite Hin. simpl. split; [tauto|]. intros [? ?]. split; [done|]. split; [done|lia].
  - destruct (scan_relations d Hd target Ht Forward (into_unsigned (Backfilled i64_min))) as (fs & Hmap & Hs & Hin);
      [vm_compute; split; congruence|].
    unfold relation_counts. rewrite filter_ends by by left. unfold scan_keys in Hmap. rewrite Hmap.
    assert (fs = []) as ->; [|done]. apply elem_of_nil_inv. intros f Hf%Hin.
    assert (into_unsigned (Backfilled i64_min) = 2 ^ 63) as Hu by done. rewrite Hu in Hf. simpl in Hf. word.
Qed.
End Properties.

Module MetadataWitness.
#[local] Instance any_parsers : Parsers := {| json_ok _ := true; cbor_ok _ := true |}.
#[local] Instance raw_json : PduJson bytes := fun json => Some json.

(** Events 5 and 9 refer to event 3, event 7 to event 5. *)
Definition d0 : Db := foldl (fun d '(f, t) => insert d tofrom_relation (tofrom_key t f) []) empty_db [(5, 3); (9, 3); (7, 5)].

Lemma d0_ok : Relations_ok d0.
Proof.
  intros k Hk. assert (Forall (fun k => k = tofrom_key 3 5 ∨ k = tofrom_key 3 9 ∨ k = tofrom_key 5 7)
    (elements (dom (d0 tofrom_relation)))) as Hall.
  { apply (bool_decide_unpack _). vm_compute. exact I. }
  rewrite Forall_forall in Hall. destruct (Hall k) as [->|[->| ->]]; [by apply elem_of_elements, elem_of_dom|..].
  - exists 3, 5. split_and!; word || done.
  - exists 3, 9. split_and!; word || done.
  - exists 5, 7. split_and!; word || done.
Qed.

(** From position 5 on there is one relation to event 3. *)
Lemma relations_correct_witness :
  Relations_ok d0 ∧ relation_counts d0 3 (Normal 5) Forward = [Normal 9] ∧
  (∃ fs, relation_counts d0 3 (Normal 5) Forward = map (fun f => Normal f) fs
    ∧ StronglySorted (in_direction Forward) fs
    ∧ ∀ f, f ∈ fs ↔ 0 < f ≤ i64_max ∧ related d0 3 f ∧ in_direction Forward 5 f).
Proof.
  split; [exact d0_ok|]. split; [apply (bool_decide_unpack _); vm_compute; exact I|].
  apply (relations_correct d0 3 5 Forward d0_ok); word.
Defined.

Lemma relations_walk_ends_witness :
  (length [(Normal 9, [65], 1)] + (2 - length [(Normal 9, [65])]) < 3)%nat ∧
  ∃ l, walk_relations 3 d0 1 (Normal 5) Forward 2 3 [(Normal 9, [65], 1)] [(Normal 9, [65])] = Ok l
    ∧ (length l ≤ Nat.max (S (length [(Normal 9, [65])])) 2)%nat.
Proof.
  split; [simpl; lia|]. apply (relations_walk_ends 2 3 d0 1 (Normal 5) Forward 3 [(Normal 9, [65], 1)] [(Normal 9, [65])]).
  simpl. lia.
Defined.
End MetadataWitness.
