(* ===== verification/EventStore.v ===== *)
(** What the handling of events asks of the services that store them: an interface, with its laws, to
    src/src/service/rooms/timeline (which events are there), rooms/outlier, rooms/pdu_metadata (which
    events were rejected, soft-failed or referenced); and the JSON values of the handler.

    EventStoreDb.v implements the interface over the database. *)

From stdpp Require Import prelude gmap strings.
From Stdlib Require Import ZArith.
From S2P Require Import Prelude Effects Event.

(** * JSON

    [CanonicalJsonValue]; an event as it came is a map from field names ([CanonicalJsonObject], a
    [BTreeMap]). *)
Inductive CanonicalJsonValue : Type :=
| CNull
| CBool (b : bool)
| CInteger (n : Z)
| CString (s : string)
| CArray (l : list CanonicalJsonValue)
| CObject (l : list (string * CanonicalJsonValue)).

Abbreviation CanonicalJsonObject := (gmap string CanonicalJsonValue).

Definition as_str (v : CanonicalJsonValue) : option string := match v with CString s => Some s | _ => None end.
Definition as_array (v : CanonicalJsonValue) : option (list CanonicalJsonValue) :=
  match v with CArray l => Some l | _ => None end.

(** * Room versions

    Of [RoomVersionRules] of ruma, what the handler reads beside the rules of state resolution. *)
Inductive EventIdFormatVersion : Set := IdV1 | IdV2 | IdV3.
#[export] Instance EventIdFormatVersion_eq_dec : EqDecision EventIdFormatVersion.
Proof. solve_decision. Defined.

Record VersionRules := {
  room_rules : RoomVersionRules;
  require_room_create_room_id : bool;
  allow_room_create_in_auth_events : bool;
  event_id_format : EventIdFormatVersion;
  events_reference_v1 : bool; (** [EventsReferenceFormatVersion::V1] *)
  content_field_redacts : bool;
}.

(** The errors of the handler, by kind. *)
Inductive HandlerError : Set :=
| EBadJson | ETooLarge | EForbidden | ENotFound | EInvalidParam | EUnsupportedRoomVersion | ELimitExceeded
| EDatabase | EUnableToAuthorizeJoin | EUnableToGrantJoin | EIncompatibleRoomVersion | EUnknown.
#[export] Instance HandlerError_eq_dec : EqDecision HandlerError.
Proof. solve_decision. Defined.

(** * The interface

    [position] is [RawPduId]; [get_pdu] finds events of the timeline and outliers.  Marks and outliers
    are added; the timeline is not touched by the operations here. *)
Class EventStore `{!Ruma} (S position : Type) := {
  get_pdu : S → EventId → option Pdu;
  pdu_exists : S → EventId → bool;
  get_pdu_id : S → EventId → option position;
  non_outlier_pdu_exists : S → EventId → bool;
  get_pdu_json : S → EventId → option CanonicalJsonObject;
  outlier_pdu_exists : S → EventId → bool;
  is_event_rejected : S → EventId → bool;
  is_event_soft_failed : S → EventId → bool;
  is_event_referenced : S → RoomId → EventId → bool;
  add_pdu_outlier : EventId → CanonicalJsonObject → S → S;
  mark_event_rejected : EventId → S → S;
  mark_event_soft_failed : EventId → S → S;
  mark_as_referenced : RoomId → list EventId → S → S;
}.

(** What is asked of a room when an event of it comes in: its create event, the time of its first event,
    whether federation is disabled, whether this server is in it, what its access list says. *)
Record ServerAcl := { acl_allow : list string; acl_deny : list string; acl_is_allowed : string → bool }.
Record RoomStatus `{!Ruma} := {
  is_disabled : bool;
  room_exists : bool;
  is_resident : bool;
  server_acl : option ServerAcl;
  room_create_event : option Pdu;
  first_pdu_ts : option Z;
}.

(** The services that keep rooms: short identifiers (rooms/short), states (rooms/state,
    rooms/state_accessor, rooms/state_compressor), authorisation chains (rooms/auth_chain), the
    timeline.  An operation whose result does not matter to its caller gives the new state only. *)
Class RoomServices `{!Ruma} (S position : Type) := {
  get_shortstatekey : S → string → string → option Z;
  get_statekey_from_short : S → Z → option (string * string);
  get_or_create_shortstatekey : string → string → S → Z * S;

  pdu_shortstatehash : S → EventId → option Z;
  state_full_ids : S → Z → gmap Z EventId;
  get_room_shortstatehash : S → RoomId → option Z;
  event_ids_iter : RoomId → list EventId → eff S HandlerError (gset EventId);
  get_auth_events : S → RoomId → Pdu → RoomVersionRules → comp HandlerError (StateMap Pdu);
  user_can_redact : S → EventId → UserId → RoomId → bool;

  (** [compress_state_events] and [set_event_state]. *)
  set_event_state : EventId → RoomId → gmap Z EventId → eff S HandlerError unit;
  (** [compress_state_events], [save_state] and [force_state]. *)
  force_state : RoomId → list (Z * EventId) → eff S HandlerError unit;

  get_forward_extremities : S → RoomId → list EventId;
  append_pdu : Pdu → CanonicalJsonObject → list EventId → RoomId → eff S HandlerError position;

  room_status : S → RoomId → RoomStatus;
  (** The least depth of the room. *)
  get_mindepth : S → RoomId → Z;
  set_mindepth : RoomId → Z → S → S;
  get_room_version : S → RoomId → option (option VersionRules);
  candidate_backfill_servers : S → RoomId → list string;
  (** The events that could not be fetched: how often, and when last. *)
  failed_pdu_pulls : S → gmap EventId (Z * Z);
  set_failed_pdu_pulls : gmap EventId (Z * Z) → S → S;
}.

(** What [serde_json] reads an event's JSON as. *)
Class PduOfJson `{!Ruma} := pdu_of_json : CanonicalJsonObject → option Pdu.

(** What the readers say after a writer. *)
Class EventStoreLaws (S position : Type) `{EventStore S position} `{!PduOfJson} : Prop := {
  exists_get s id ev : get_pdu s id = Some ev → pdu_exists s id = true;

  outlier_get s id j ev : get_pdu s id = None → get_pdu_id s id = None → pdu_of_json j = Some ev →
    get_pdu (add_pdu_outlier id j s) id = Some ev;
  outlier_get_other s id j id' : id' ≠ id → get_pdu (add_pdu_outlier id j s) id' = get_pdu s id';
  outlier_exists s id j id' :
    pdu_exists (add_pdu_outlier id j s) id' = bool_decide (id' = id) || pdu_exists s id';
  outlier_position s id j id' : get_pdu_id (add_pdu_outlier id j s) id' = get_pdu_id s id';
  outlier_rejected s id j id' : is_event_rejected (add_pdu_outlier id j s) id' = is_event_rejected s id';
  outlier_soft_failed s id j id' : is_event_soft_failed (add_pdu_outlier id j s) id' = is_event_soft_failed s id';

  rejected_get s id id' : get_pdu (mark_event_rejected id s) id' = get_pdu s id';
  rejected_exists s id id' : pdu_exists (mark_event_rejected id s) id' = pdu_exists s id';
  rejected_position s id id' : get_pdu_id (mark_event_rejected id s) id' = get_pdu_id s id';
  rejected_rejected s id id' :
    is_event_rejected (mark_event_rejected id s) id' = bool_decide (id' = id) || is_event_rejected s id';
  rejected_soft_failed s id id' : is_event_soft_failed (mark_event_rejected id s) id' = is_event_soft_failed s id';

  soft_failed_get s id id' : get_pdu (mark_event_soft_failed id s) id' = get_pdu s id';
  soft_failed_exists s id id' : pdu_exists (mark_event_soft_failed id s) id' = pdu_exists s id';
  soft_failed_position s id id' : get_pdu_id (mark_event_soft_failed id s) id' = get_pdu_id s id';
  soft_failed_rejected s id id' : is_event_rejected (mark_event_soft_failed id s) id' = is_event_rejected s id';
  soft_failed_soft_failed s id id' :
    is_event_soft_failed (mark_event_soft_failed id s) id' = bool_decide (id' = id) || is_event_soft_failed s id';

  referenced_get s r l id' : get_pdu (mark_as_referenced r l s) id' = get_pdu s id';
  referenced_outlier s r l id' : outlier_pdu_exists (mark_as_referenced r l s) id' = outlier_pdu_exists s id';
  referenced_position s r l id' : get_pdu_id (mark_as_referenced r l s) id' = get_pdu_id s id';
  referenced_rejected s r l id' : is_event_rejected (mark_as_referenced r l s) id' = is_event_rejected s id';
  referenced_soft_failed s r l id' : is_event_soft_failed (mark_as_referenced r l s) id' = is_event_soft_failed s id';
  referenced_referenced s r l id' :
    is_event_referenced (mark_as_referenced r l s) r id' = bool_decide (id' ∈ l) || is_event_referenced s r id';
}.

(** What the services that keep rooms leave alone: which events were rejected, and which are in the
    timeline, but for the event that is appended. *)
Definition same_verdict `{!Ruma} {S position : Type} `{!EventStore S position} (id : EventId) (s s' : S) : Prop :=
  is_event_rejected s' id = is_event_rejected s id ∧ get_pdu_id s' id = get_pdu_id s id.

Class RoomServicesLaws `{!Ruma} (S position : Type) `{!EventStore S position} `{!RoomServices S position} : Prop := {
  shortstatekey_verdict id ty sk s : same_verdict id s (get_or_create_shortstatekey ty sk s).2;
  auth_chain_verdict id rid ids s : same_verdict id s (event_ids_iter rid ids s).2;
  set_event_state_verdict id eid rid state s : same_verdict id s (set_event_state eid rid state s).2;
  force_state_verdict id rid state s : same_verdict id s (force_state rid state s).2;
  append_pdu_verdict id pdu json l rid s : id ≠ event_id pdu → same_verdict id s (append_pdu pdu json l rid s).2;
  mindepth_verdict id rid n s : same_verdict id s (set_mindepth rid n s);
  pulls_verdict id pulls s : same_verdict id s (set_failed_pdu_pulls pulls s);
}.
