(* ===== verification/EventChecks.v ===== *)
(** The checks of an event that its own JSON decides: src/src/service/rooms/event_handler
    (parse_incoming_pdu.rs, the first of pdu_checks.rs, build_local_dag of fetch_and_handle_outliers.rs,
    acl_check.rs, the failed pulls of mod.rs) and src/src/core/matrix/event (id.rs, redact.rs).

    Parameters: signatures, hashes, JSON and base64 (of ruma, serde_json and base64), and what other
    servers answer. *)

From stdpp Require Import prelude gmap strings.
From Stdlib Require Import ZArith Lia.
From Stdlib.Strings Require Import Ascii.
From S2P Require Import Prelude Event EventAuth TopoSort Effects EventStore.

(** [ruma::signatures::Verified]. *)
Inductive Verified : Set := VerifiedAll | VerifiedSignatures.

(** Of ruma, serde_json and base64. *)
Class HandlerLibrary `{!Ruma} := {
  (** [serde_json::to_string], its length. *)
  json_length : CanonicalJsonObject → option nat;
  de_object : string → option CanonicalJsonObject;
  (** [base64] in the alphabet of a format, without padding. *)
  base64_ok : EventIdFormatVersion → string → bool;
  (** [RoomCreateEventContent]; then [room_version.rules()]. *)
  de_room_version : json → option (option VersionRules);
  (** [RoomRedactionEventContent]'s [redacts]. *)
  de_content_redacts : json → option (option EventId);
  reference_hash : VersionRules → CanonicalJsonObject → option EventId;
  redact : VersionRules → CanonicalJsonObject → option CanonicalJsonObject;
  to_canonical_object : Pdu → CanonicalJsonObject;
  (** [ExtractBody] of a message. *)
  de_ExtractBody : json → option (option string);
  (** [RoomVersionId::from_str]; then [rules()]. *)
  room_version_of_str : string → option (option VersionRules);
  (** [RoomVersionRules::V1]. *)
  rules_v1 : VersionRules;
  (** [verify_event] with the keys of the servers that signed. *)
  verify_event_json : CanonicalJsonObject → VersionRules → option Verified;
}.

(** The first element of an array, when it is a string. *)
Definition first_str (v : CanonicalJsonValue) : option string :=
  match v with CArray (x :: _) => as_str x | _ => None end.

(** What other servers answer; the same request has the same answer. *)
Class Federation `{!Ruma} := {
  send_event_authorization : string → EventId → option (list string);
  (** Asked with what is known, what is missing, how many and the least depth. *)
  send_missing_events : string → RoomId → list EventId → list EventId → Z → Z → option (list string);
  send_event : string → EventId → option string;
  send_state_ids : string → EventId → RoomId → comp HandlerError (list EventId);
  (** The chain and the state; [None] also when it takes too long. *)
  send_state : string → EventId → RoomId → option (list string * list string);
  (** [policy_server_allows_event]: the event's JSON as the policy server signed it. *)
  policy_server_allows_event : Pdu → CanonicalJsonObject → RoomId → VersionRules →
    comp HandlerError CanonicalJsonObject;
}.

Section Parsing.
Context `{!Ruma} `{!HandlerLibrary}.

Abbreviation res A := (comp HandlerError A).

(** @src src/src/core/matrix/event/id.rs:26-40 gen_event_id *)
Definition gen_event_id (value : CanonicalJsonObject) (rules : VersionRules) : res EventId :=
  if decide (event_id_format rules = IdV1) then
    eid ← ok_or_fail EBadJson (value !! "event_id" ≫= as_str);
    if is_event_id eid then Ok eid else Err (Fail EBadJson)
  else ok_or_fail EUnknown (reference_hash rules value).

(** @src src/src/core/matrix/event/id.rs:13-23 gen_event_id_canonical_json *)
Definition gen_event_id_canonical_json (pdu : string) (rules : VersionRules) :
    res (EventId * CanonicalJsonObject) :=
  value ← ok_or_fail EUnknown (de_object pdu);
  eid ← gen_event_id value rules;
  Ok (eid, value).

(** A field that is a string. *)
Definition str_field (value : CanonicalJsonObject) (field : string) : option string := value !! field ≫= as_str.

(** [as_object]; its fields. *)
Definition as_object (v : CanonicalJsonValue) : option CanonicalJsonObject :=
  match v with CObject l => Some (list_to_map l) | _ => None end.

(** The room id a create event of the newest versions lacks is its event id, but for the sigil.
    @src src/src/service/rooms/event_handler/parse_incoming_pdu.rs:21-58 extract_room_id *)
Definition extract_room_id (event_type : string) (pdu : CanonicalJsonObject) : res RoomId :=
  match str_field pdu "room_id" with
  | Some rid => if is_room_id rid then Ok rid else Err (Fail EBadJson)
  | None =>
      let is_create := bool_decide (event_type = "m.room.create")
                       && bool_decide (str_field pdu "state_key" = Some "") in
      if negb is_create then Err (Fail EBadJson)
      else
        content ← ok_or_fail EInvalidParam (pdu !! "content" ≫= as_object);
        room_version ← ok_or_fail EBadJson
                         (room_version_of_str (default "1" (str_field content "room_version")));
        rules ← ok_or_fail EBadJson room_version;
        if require_room_create_room_id rules then Err (Fail EBadJson)
        else
          eid ← gen_event_id pdu rules;
          let rid := replace_char "$"%char "!"%char eid in
          if is_room_id rid then Ok rid else Err Panicked
  end.

(** With no rules given, they are those of the room's version.
    @src src/src/service/rooms/event_handler/parse_incoming_pdu.rs:106-142 Service::parse_incoming_pdu *)
Definition parse_incoming_pdu (version_of : RoomId → option (option VersionRules)) (pdu : string)
    (room_version_rules : option VersionRules) : res (RoomId * EventId * CanonicalJsonObject) :=
  value ← ok_or_fail EUnknown (de_object pdu);
  event_type ← ok_or_fail EInvalidParam (str_field value "type");
  rid ← extract_room_id event_type value;
  rules ← match room_version_rules with
          | Some r => Ok r
          | None => room_version ← ok_or_fail ENotFound (version_of rid); expect room_version
          end;
  '(eid, value) ← match gen_event_id_canonical_json pdu rules with
                  | Err (Fail _) => Err (Fail EInvalidParam)
                  | r => r
                  end;
  Ok (rid, eid, value).

(** @src src/src/service/rooms/event_handler/parse_incoming_pdu.rs:60-82 expect_event_reference *)
Definition expect_event_reference (legacy_references : bool) (value : CanonicalJsonValue) : res EventId :=
  let parse eid := if is_event_id eid then Ok eid else Err (Fail EBadJson) in
  match as_str value with
  | Some eid => parse eid
  | None =>
      if legacy_references then
        match first_str value with
        | Some eid => parse eid
        | None => Err (Fail EBadJson)
        end
      else Err (Fail EBadJson)
  end.

(** @src src/src/service/rooms/event_handler/parse_incoming_pdu.rs:84-100 expect_event_id_array *)
Definition expect_event_id_array (value : CanonicalJsonObject) (field : string) (rules : VersionRules) :
    res (list EventId) :=
  v ← ok_or_fail EBadJson (value !! field);
  l ← ok_or_fail EBadJson (as_array v);
  mapR (expect_event_reference (events_reference_v1 rules)) l.

(** At most 255 bytes, where the field is a string. *)
Definition short_field (value : CanonicalJsonObject) (field : string) : bool :=
  match str_field value field with Some s => bool_decide (String.length s ≤ 255)%nat | None => true end.

(** @src src/src/service/rooms/timeline/create.rs:30-63 pdu_fits *)
Definition pdu_fits (value : CanonicalJsonObject) : bool :=
  short_field value "room_id" && short_field value "event_id" && short_field value "sender"
  && short_field value "type" && short_field value "state_key"
  && match json_length value with Some n => bool_decide (N.of_nat n ≤ 65535)%N | None => false end.

(** [str::strip_prefix] of a sigil. *)
Definition strip_sigil (a : ascii) (s : string) : option string :=
  match s with String c rest => if Ascii.eqb c a then Some rest else None | EmptyString => None end.

(** @src src/src/service/rooms/event_handler/pdu_checks.rs:23-52 check_event_id_format *)
Definition check_event_id_format (rules : VersionRules) (eid : EventId) : res unit :=
  if decide (event_id_format rules = IdV1) then
    match event_server_name eid with None => Err (Fail EInvalidParam) | Some _ => Ok tt end
  else
    event_id_without_sigil ← expect (strip_sigil "$" eid);
    if base64_ok (event_id_format rules) event_id_without_sigil then Ok tt else Err (Fail EInvalidParam).

Definition check_all (rules : VersionRules) (ids : list EventId) : res unit :=
  _ ← mapR (check_event_id_format rules) ids; Ok tt.

(** @src src/src/service/rooms/event_handler/pdu_checks.rs:58-118 Service::pdu_format_check_1 *)
Definition pdu_format_check_1 (pdu_json : CanonicalJsonObject) (rules : VersionRules) (create_event_id : EventId) :
    res unit :=
  if negb (pdu_fits pdu_json) then Err (Fail ETooLarge)
  else if require_room_create_room_id rules && bool_decide (pdu_json !! "room_id" = None) then Err (Fail EBadJson)
  else
    auth_events ← expect_event_id_array pdu_json "auth_events" rules;
    if decide (10 < length auth_events)%nat then Err (Fail EBadJson)
    else
      _ ← check_all rules auth_events;
      event_type ← ok_or_fail EBadJson (str_field pdu_json "type");
      let state_key := str_field pdu_json "state_key" in
      let is_create_event := bool_decide (event_type = "m.room.create") && bool_decide (state_key = Some "") in
      let create_event_in_auth_events := bool_decide (create_event_id ∈ auth_events) in
      if negb is_create_event
         && ((negb (allow_room_create_in_auth_events rules) && create_event_in_auth_events)
             || (allow_room_create_in_auth_events rules && negb create_event_in_auth_events))
      then Err (Fail EBadJson)
      else
        prev_events ← expect_event_id_array pdu_json "prev_events" rules;
        if decide (20 < length prev_events)%nat then Err (Fail EBadJson)
        else check_all rules prev_events.

(** @src src/src/service/rooms/event_handler/mod.rs:196-203 get_room_version_rules *)
Definition get_room_version_rules (create_event : Pdu) : res VersionRules :=
  room_version ← ok_or_fail EBadJson (de_room_version (content create_event));
  ok_or_fail EUnsupportedRoomVersion room_version.

(** @src src/src/core/matrix/pdu.rs:93-99 Pdu::from_id_val *)
Definition from_id_val `{!PduOfJson} (eid : EventId) (value : CanonicalJsonObject) : option Pdu :=
  pdu_of_json (<["event_id" := CString eid]> value).

(** @src src/src/core/matrix/event/redact.rs:63-79 redacts_id *)
Definition redacts_id (ev : Pdu) (rules : VersionRules) : option EventId :=
  if decide (kind ev ≠ RoomRedaction) then None
  else if content_field_redacts rules then redacts ev
  else mjoin (de_content_redacts (content ev)).
End Parsing.

(** A dag of events, ready to be sorted: the references of each within the map, and its time. *)
Inductive DagBuilderTree : Set := PrevEvents | AuthEvents.
Definition tree_field (tree : DagBuilderTree) : string :=
  match tree with PrevEvents => "prev_events" | AuthEvents => "auth_events" end.

Section Dag.
Context `{!Ruma} `{!HashIter EventId}.

(** A reference, also as the first element of a legacy tuple; what is none is skipped. *)
Definition reference (v : CanonicalJsonValue) : option EventId :=
  s ← match as_str v with Some s => Some s | None => first_str v end;
  if is_event_id s then Some s else None.

(** [UInt::try_from] of the time, zero otherwise. *)
Definition origin_ts (value : CanonicalJsonObject) : Z :=
  match value !! "origin_server_ts" with
  | Some (CInteger n) => if decide (0 ≤ n)%Z then n else 0%Z
  | _ => 0%Z
  end.

(** @src src/src/service/rooms/event_handler/fetch_and_handle_outliers.rs:59-122 build_local_dag *)
Definition build_local_dag (pdu_map : gmap EventId CanonicalJsonObject) (tree : DagBuilderTree) :
    comp HandlerError (list EventId) :=
  if decide (size pdu_map ≤ 1)%nat then Ok (iter_map pdu_map).*1
  else
    dag ← mapR (fun '(eid, value) =>
              l ← ok_or_fail EBadJson ((value : CanonicalJsonObject) !! tree_field tree ≫= as_array);
              Ok (eid, list_to_set (filter (fun id => id ∈ dom pdu_map) (omap reference l)) : gset EventId))
            (iter_map pdu_map);
    lexicographical_topological_sort
      (fun id => Ok (0, default 0 (origin_ts <$> pdu_map !! id))%Z)
      (list_to_map dag).
End Dag.

Section Checks.
Context `{!Ruma} `{!HandlerLibrary}.

(** @src src/src/service/rooms/event_handler/pdu_checks.rs:124-149 Service::signature_hash_check_2_3 *)
Definition signature_hash_check_2_3 (pdu_json : CanonicalJsonObject) (rules : VersionRules) :
    comp HandlerError CanonicalJsonObject :=
  match verify_event_json pdu_json rules with
  | Some VerifiedAll => Ok pdu_json
  | Some VerifiedSignatures => ok_or_fail EBadJson (redact rules pdu_json)
  | None => Err (Fail EForbidden)
  end.

(** An error of the check itself is none of the event's.
    @src src/src/service/rooms/event_handler/pdu_checks.rs:157-178 Service::auth_state_check_4 *)
Definition auth_state_check_4 (pdu : Pdu) (rules : VersionRules) (create_event : Pdu)
    (auth_events_by_key : StateMap Pdu) : comp HandlerError bool :=
  match auth_check (room_rules rules) pdu None (fun ty sk => auth_events_by_key !! (ty, sk)) create_event with
  | Ok b => Ok b
  | Err (Fail _) => Err (Fail EUnknown)
  | Err Panicked => Err Panicked
  | Err OutOfFuel => Err OutOfFuel
  end.

End Checks.

(** ** Whom to listen to, and what to ask for again *)

(** A list that allows nobody, and one that allows and denies everybody, is taken for broken.
    @src src/src/service/rooms/event_handler/acl_check.rs:9-40 Service::acl_check *)
Definition acl_check (server_name : string) (acl : option ServerAcl) : comp HandlerError unit :=
  match acl with
  | None => Ok tt
  | Some acl =>
      if bool_decide (acl_allow acl = []) then Ok tt
      else if bool_decide ("*" ∈ acl_deny acl) && bool_decide ("*" ∈ acl_allow acl) then Ok tt
      else if acl_is_allowed acl server_name then Ok tt
      else Err (Fail EForbidden)
  end.

Section Pulls.
(** Configuration, in milliseconds: [sender_retry_backoff_base], [sender_retry_backoff_limit]. *)
Context (backoff_base backoff_limit : Z).
Local Open Scope Z_scope.

(** The largest [Duration] is left out of the product.
    @src src/src/service/rooms/event_handler/mod.rs:205-209 calc_next_retry *)
Definition calc_next_retry (retries : Z) : Z := Z.min (backoff_base * retries) backoff_limit.

(** Time is monotone ([Instant]).
    @src src/src/service/rooms/event_handler/mod.rs:147-164 Service::ensure_can_pull_event *)
Definition ensure_can_pull_event (pulls : gmap EventId (Z * Z)) (now : Z) (eid : EventId) : comp HandlerError unit :=
  match pulls !! eid with
  | None => Ok tt
  | Some (retry_count, last_retry) =>
      if decide (calc_next_retry retry_count ≤ now - last_retry) then Ok tt else Err (Fail ELimitExceeded)
  end.

(** @src src/src/service/rooms/event_handler/mod.rs:168-183 Service::hit_failed_pdu_pull *)
Definition hit_failed_pdu_pull (pulls : gmap EventId (Z * Z)) (now : Z) (eid : EventId) : gmap EventId (Z * Z) :=
  match pulls !! eid with
  | None => <[eid := (1, now)]> pulls
  | Some (retries, last_retry) =>
      if decide (now - last_retry < calc_next_retry retries) then pulls
      else <[eid := (Z.min (retries + 1) (2 ^ 32 - 1), now)]> pulls
  end.

(** @src src/src/service/rooms/event_handler/mod.rs:187-193 Service::clear_failed_pdu *)
Definition clear_failed_pdu (pulls : gmap EventId (Z * Z)) (eid : EventId) : gmap EventId (Z * Z) :=
  delete eid pulls.
End Pulls.
