(* ===== verification/ServerKeys.v ===== *)
(** The signing keys of other servers: src/src/service/server_keys (mod.rs, get.rs, request.rs, verify.rs,
    util.rs).  Responses that were verified are kept under the server and each key they have; what is
    missing is asked from the servers themselves and from notaries.

    Parameters: signatures (of ruma), what other servers answer, and in which order their answers come. *)

From stdpp Require Import prelude gmap strings.
From Stdlib Require Import ZArith Lia.
From S2P Require Import Prelude Event EventStore EventChecks.
Local Open Scope Z_scope.

(** A server's keys: those it signs with, and those it signed with up to a time. *)
Record ServerSigningKeys := {
  ssk_server_name : string;
  valid_until_ts : Z;
  verify_keys : gmap string string;
  old_verify_keys : gmap string (string * Z);
  signatures : gmap string (gmap string string);
}.

(** For each server the keys needed, with the time up to which they have to be valid. *)
Abbreviation ServerKeysQuerySet := (gmap string (option Z)).
Abbreviation ServerKeysQuery := (gmap string ServerKeysQuerySet).
Abbreviation PubKeyMap := (gmap string (gmap string string)).

(** The column [servernamekeyid_response], as it is read. *)
Abbreviation KeyStore := (gmap (string * string) ServerSigningKeys).

(** Of ruma: the signatures of a server on its response by these of its keys, those of others aside; a
    signature on the response by one key; a signature of text; the servers that have to sign an event. *)
Class KeyVerification := {
  verify_json : string → gmap string string → ServerSigningKeys → bool;
  verify_canonical_json_bytes : string → string → ServerSigningKeys → bool;
  parse_signature : string → option string;
  required_server_signatures_to_verify_event : CanonicalJsonObject → VersionRules → option (list string);
  is_key_id : string → bool;
  POLICY_SERVER_ED25519_SIGNING_KEY_ID : string;
}.

(** What servers answer when asked for their own keys, and notaries when asked for a batch; [arrival] is the
    order in which the answers come. *)
Inductive source := Origin (server : string) | Notary (server : string).
Class KeyNetwork := {
  get_server_keys : string → option ServerSigningKeys;
  get_remote_server_keys_batch : string → ServerKeysQuery → option (list ServerSigningKeys);
  arrival : list source → list source;
}.

Section ServerKeys.
Context `{!KeyVerification, !KeyNetwork} (now : Z).
(** [trusted_servers] with the keys they are known to have, and whether they are asked first. *)
Context (trusted_servers : list (string * list string)) (query_trusted_key_servers_first : bool).

(** [js_int::UInt::MAX]. *)
Definition max_ts : Z := 2 ^ 53 - 1.

(** @src src/src/service/server_keys/request.rs:205-209 in_one_week *)
Definition in_one_week : Z := Z.min (Z.min now max_ts + 604800000) max_ts.

(** ** Events *)

(** @src src/src/service/server_keys/get.rs:26-39 Service::min_valid_ts_from_event *)
Definition min_valid_ts_from_event (object : CanonicalJsonObject) : option Z :=
  match object !! "origin_server_ts" with
  | Some (CInteger ts) => Some (Z.min (Z.max ts 0) max_ts)
  | _ => None
  end.

(** @src src/src/service/server_keys/util.rs:14-41 required_keys *)
Definition required_keys (object : CanonicalJsonObject) (rules : VersionRules) : option (gmap string (list string)) :=
  match object !! "signatures" with
  | Some (CObject sigs) =>
      servers ← required_server_signatures_to_verify_event object rules;
      Some (foldl (fun map server =>
              match (list_to_map sigs : gmap string CanonicalJsonValue) !! server with
              | Some (CObject set) =>
                  <[server := default [] (map !! server) ++
                     filter (fun key_id => is_key_id key_id = true ∧ key_id ≠ POLICY_SERVER_ED25519_SIGNING_KEY_ID) set.*1]> map
              | _ => map
              end) ∅ servers)
  | _ => Some ∅
  end.

(** ** What is stored *)

(** @src src/src/service/server_keys/mod.rs:86-100 Service::add_signing_keys *)
Definition add_signing_keys (new_keys : ServerSigningKeys) (d : KeyStore) : KeyStore :=
  foldl (fun d key => <[(ssk_server_name new_keys, key) := new_keys]> d) d
    ((map_to_list (verify_keys new_keys)).*1 ++ (map_to_list (old_verify_keys new_keys)).*1).

(** @src src/src/service/server_keys/mod.rs:155-166 Service::get_signing_key *)
Definition get_signing_key (d : KeyStore) (origin key_id : string) : option ServerSigningKeys := d !! (origin, key_id).

(** A response that is neither out of date nor dated too far ahead. *)
Definition in_date (min_valid_ts : Z) (keys : ServerSigningKeys) : bool :=
  negb (bool_decide (valid_until_ts keys < min_valid_ts) || bool_decide (in_one_week < valid_until_ts keys)).

(** @src src/src/service/server_keys/mod.rs:125-153 Service::verify_key_exists *)
Definition verify_key_exists (d : KeyStore) (origin key_id : string) (minimum_valid_ts : Z) : bool :=
  match get_signing_key d origin key_id with
  | None => false
  | Some keys =>
      if negb (in_date minimum_valid_ts keys) then false
      else if bool_decide (is_Some (verify_keys keys !! key_id)) then true
      else match old_verify_keys keys !! key_id with
           | Some (_, expired_ts) => bool_decide (minimum_valid_ts ≤ Z.min expired_ts (valid_until_ts keys))
           | None => false
           end
  end.

(** @src src/src/service/server_keys/mod.rs:104-121 Service::required_keys_exist *)
Definition required_keys_exist (d : KeyStore) (object : CanonicalJsonObject) (rules : VersionRules) : bool :=
  match required_keys object rules, min_valid_ts_from_event object with
  | Some required, Some min_valid_ts =>
      forallb (fun '(server, key_ids) => forallb (fun key_id => verify_key_exists d server key_id min_valid_ts) (key_ids : list string))
        (map_to_list required)
  | _, _ => false
  end.

(** @src src/src/service/server_keys/get.rs:421-447 verify_key_from_response *)
Definition verify_key_from_response (key_id : string) (server_keys : ServerSigningKeys) (min_valid_ts : Z) : option string :=
  if negb (in_date min_valid_ts server_keys) then None
  else match verify_keys server_keys !! key_id with
       | Some key => Some key
       | None =>
           match old_verify_keys server_keys !! key_id with
           | Some (key, expired_ts) =>
               if decide (min_valid_ts ≤ Z.min expired_ts (valid_until_ts server_keys)) then Some key else None
           | None => None
           end
       end.

(** ** Verifying responses *)

(** @src src/src/service/server_keys/verify.rs:87-139 Service::verify_notary_signature *)
Definition verify_notary_signature (server_keys : ServerSigningKeys) (notary_name : string) (notary_keys : list string) : bool :=
  match signatures server_keys !! notary_name with
  | None => false
  | Some notary_signatures =>
      existsb (fun signature => existsb (fun key => verify_canonical_json_bytes key signature server_keys) notary_keys)
        (omap parse_signature (map_to_list notary_signatures).*2)
  end.

(** @src src/src/service/server_keys/verify.rs:60-83 Service::verify_server_keys_response *)
Definition verify_server_keys_response (server_keys : ServerSigningKeys) (notary : option (string * list string)) : bool :=
  match notary with
  | Some (notary_name, notary_keys) =>
      bool_decide (notary_keys = []) || verify_notary_signature server_keys notary_name notary_keys
  | None => true
  end && verify_json (ssk_server_name server_keys) (verify_keys server_keys) server_keys.

(** @src src/src/service/server_keys/request.rs:26-69 Service::origin_request *)
Definition origin_request (target : string) (min_valid_ts : Z) : option ServerSigningKeys :=
  server_signing_key ← get_server_keys target;
  if negb (bool_decide (ssk_server_name server_signing_key = target)) then None
  else if negb (in_date min_valid_ts server_signing_key) then None
  else if verify_server_keys_response server_signing_key None then Some server_signing_key else None.

Definition min_of (q : option Z) : Z := default 0 q.

(** @src src/src/service/server_keys/request.rs:130-201 Service::validate_notary_chunk *)
Definition validate_notary_chunk (batch : ServerKeysQuery) (keys : ServerSigningKeys) (notary_name : string)
    (notary_keys : list string) : bool :=
  match batch !! ssk_server_name keys with
  | None => false
  | Some expected_keys =>
      let min_valid_ts := default 0 (match min_of <$> (map_to_list expected_keys).*2 with
                                     | [] => None
                                     | q :: l => Some (foldl Z.min q l)
                                     end) in
      if negb (in_date min_valid_ts keys) then false
      else
        let interesting := existsb (fun '(k, q) =>
          (bool_decide (is_Some (verify_keys keys !! k)) || bool_decide (is_Some (old_verify_keys keys !! k)))
          && match (q : option Z) with Some m => bool_decide (m ≤ valid_until_ts keys) | None => true end) (map_to_list expected_keys) in
        if negb interesting then false
        else verify_server_keys_response keys (Some (notary_name, notary_keys))
  end.

(** Chunks that cannot be read are dropped by the answer already.
    @src src/src/service/server_keys/request.rs:82-116 Service::notary_request *)
Definition notary_request (notary : string) (batch : ServerKeysQuery) : option (list ServerSigningKeys) :=
  if forallb (fun '(_, keys) => bool_decide ((keys : ServerKeysQuerySet) = ∅)) (map_to_list batch) then Some []
  else
    let notary_keys := default [] (snd <$> (snd <$> list_find (fun n => n.1 = notary) trusted_servers)) in
    response ← get_remote_server_keys_batch notary batch;
    Some (filter (fun keys => validate_notary_chunk batch keys notary notary_keys = true) response).

(** ** Fetching *)

(** Results found, keys still missing, what is stored. *)
Record Progress := { results : PubKeyMap; missing : ServerKeysQuery; store : KeyStore }.

(** @src src/src/service/server_keys/get.rs:356-374 Service::track_one_result *)
Definition track_one_result (origin key_id key : string) (p : Progress) : Progress :=
  {| results := <[origin := <[key_id := key]> (default ∅ (results p !! origin))]> (results p);
     missing := match missing p !! origin with
                | None => missing p
                | Some keys =>
                    let keys := delete key_id keys in
                    if decide (keys = ∅) then delete origin (missing p) else <[origin := keys]> (missing p)
                end;
     store := store p |}.

(** @src src/src/service/server_keys/get.rs:339-350 Service::track_result *)
Definition track_result (batch : ServerSigningKeys) (p : Progress) : Progress :=
  let p := foldl (fun p '(key_id, key) => track_one_result (ssk_server_name batch) key_id key p) p (map_to_list (verify_keys batch)) in
  foldl (fun p '(key_id, (key, _)) => track_one_result (ssk_server_name batch) key_id key p) p (map_to_list (old_verify_keys batch)).

Definition take_response (keys : ServerSigningKeys) (p : Progress) : Progress :=
  track_result keys {| results := results p; missing := missing p; store := add_signing_keys keys (store p) |}.

(** The keys that are known already.
    @src src/src/service/server_keys/get.rs:152-174 Service::fetch_verify_keys *)
Definition take_local (origin key_id : string) (min_valid_ts : Z) (p : Progress) : Progress :=
  match server_keys ← get_signing_key (store p) origin key_id; verify_key_from_response key_id server_keys min_valid_ts with
  | Some key => track_one_result origin key_id key p
  | None => p
  end.
Definition take_all_local (batch : ServerKeysQuery) (p : Progress) : Progress :=
  foldl (fun p '(origin, keys) =>
    foldl (fun p '(key_id, criteria) => take_local origin key_id (min_of criteria) p) p (map_to_list (keys : ServerKeysQuerySet)))
    p (map_to_list batch).

(** What an origin is asked for: keys valid for the latest of the times.
    @src src/src/service/server_keys/get.rs:193-207 Service::fetch_verify_keys *)
Definition latest_of (keys : ServerKeysQuerySet) : Z :=
  match omap id (map_to_list keys).*2 with [] => 0 | q :: l => foldl Z.max q l end.

Definition answer_of (batch still_missing : ServerKeysQuery) (src : source) : option (list ServerSigningKeys) :=
  match src with
  | Origin origin => keys ← origin_request origin (default 0 (latest_of <$> batch !! origin)); Some [keys]
  | Notary notary => notary_request notary still_missing
  end.

(** The chunks of a notary's answer, until nothing is missing. *)
Fixpoint take_chunks (chunks : list ServerSigningKeys) (p : Progress) : Progress :=
  match chunks with
  | [] => p
  | keys :: chunks =>
      let p := take_response keys p in
      if decide (missing p = ∅) then p else take_chunks chunks p
  end.

(** Answers as they come.  The loop ends early only after the answer of an origin: after one of a notary the
    [break] is that of the chunks.
    @src src/src/service/server_keys/get.rs:230-280 Service::fetch_verify_keys *)
Fixpoint take_answers (batch still_missing : ServerKeysQuery) (order : list source) (p : Progress) : Progress :=
  match order with
  | [] => p
  | src :: order =>
      match answer_of batch still_missing src with
      | None => take_answers batch still_missing order p
      | Some chunks =>
          let p := take_chunks chunks p in
          if decide (missing p = ∅) then
            match src with Origin _ => p | Notary _ => take_answers batch still_missing order p end
          else take_answers batch still_missing order p
      end
  end.

(** All chunks of an answer, answers until nothing is missing.
    @src src/src/service/server_keys/get.rs:281-311 Service::fetch_verify_keys *)
Fixpoint drain_answers (batch still_missing : ServerKeysQuery) (order : list source) (p : Progress) : Progress :=
  match order with
  | [] => p
  | src :: order =>
      match answer_of batch still_missing src with
      | None => drain_answers batch still_missing order p
      | Some chunks =>
          let p := foldl (fun p keys => take_response keys p) p chunks in
          if decide (missing p = ∅) then p else drain_answers batch still_missing order p
      end
  end.

Definition is_notary (src : source) : bool := match src with Notary _ => true | Origin _ => false end.

(** @src src/src/service/server_keys/get.rs:147-334 Service::fetch_verify_keys *)
Definition fetch_verify_keys (batch : ServerKeysQuery) (d : KeyStore) : PubKeyMap * KeyStore :=
  let p := take_all_local batch {| results := ∅; missing := batch; store := d |} in
  if decide (missing p = ∅) then (results p, store p)
  else
    let still_missing := missing p in
    let sources := (Origin <$> (map_to_list still_missing).*1) ++ (Notary ∘ fst <$> trusted_servers) in
    let order := arrival sources in
    let p :=
      if negb (bool_decide (trusted_servers = [])) && query_trusted_key_servers_first then
        let p := drain_answers batch still_missing (filter (fun src => is_notary src = true) order) p in
        if decide (missing p = ∅) then p
        else drain_answers batch still_missing (filter (fun src => is_notary src = false) order) p
      else take_answers batch still_missing order p in
    (results p, store p).

(** @src src/src/service/server_keys/get.rs:49-73 Service::get_event_keys *)
Definition get_event_keys (object : CanonicalJsonObject) (rules : VersionRules) (d : KeyStore) : option (PubKeyMap * KeyStore) :=
  min_valid_ts ← min_valid_ts_from_event object;
  required ← required_keys object rules;
  Some (fetch_verify_keys ((fun ids => list_to_map ((fun key_id => (key_id, Some min_valid_ts)) <$> ids)) <$> required) d).

(** @src src/src/service/server_keys/get.rs:381-405 Service::get_single_verify_key *)
Definition get_single_verify_key (origin key_id : string) (min_valid_ts : Z) (d : KeyStore) : option string * KeyStore :=
  match ssk ← get_signing_key d origin key_id; verify_key_from_response key_id ssk min_valid_ts with
  | Some vk => (Some vk, d)
  | None =>
      match origin_request origin min_valid_ts with
      | None => (None, d)
      | Some response =>
          match verify_key_from_response key_id response min_valid_ts with
          | Some vk => (Some vk, add_signing_keys response d)
          | None => (None, d)
          end
      end
  end.
End ServerKeys.

(** ** What is relied on

    A key is taken for a server's only from a response that the server signed with it or another of its keys. *)

Section Sound.
Context `{!KeyVerification, !KeyNetwork} (now : Z).
Context (trusted_servers : list (string * list string)) (query_trusted_key_servers_first : bool).

Definition verified (r : ServerSigningKeys) : Prop := verify_json (ssk_server_name r) (verify_keys r) r = true.

Definition has_key (r : ServerSigningKeys) (key_id key : string) : Prop :=
  verify_keys r !! key_id = Some key ∨ ∃ expired_ts, old_verify_keys r !! key_id = Some (key, expired_ts).

(** A server's key, by a response that is not dated too far ahead. *)
Definition vouched (server key_id key : string) : Prop :=
  ∃ r, ssk_server_name r = server ∧ verified r ∧ has_key r key_id key ∧ valid_until_ts r ≤ in_one_week now.

(** A server's key that may be used for what was signed at a time. *)
Definition usable (server key_id key : string) (ts : Z) : Prop :=
  ∃ r, ssk_server_name r = server ∧ verified r ∧ ts ≤ valid_until_ts r ≤ in_one_week now ∧
    (verify_keys r !! key_id = Some key ∨ ∃ expired_ts, old_verify_keys r !! key_id = Some (key, expired_ts) ∧ ts ≤ expired_ts).

(** What is stored under a server and a key is a verified response of the server that has the key. *)
Definition KeysInv (d : KeyStore) : Prop :=
  ∀ server key_id r, d !! (server, key_id) = Some r → ssk_server_name r = server ∧ verified r ∧ ∃ key, has_key r key_id key.

Lemma in_date_spec ts r : in_date now ts r = true ↔ ts ≤ valid_until_ts r ≤ in_one_week now.
Proof. unfold in_date. rewrite negb_true_iff, orb_false_iff, !bool_decide_eq_false. lia. Qed.

Lemma verify_key_from_response_usable key_id r ts key : verified r → verify_key_from_response now key_id r ts = Some key →
  usable (ssk_server_name r) key_id key ts.
Proof.
  intros Hv. unfold verify_key_from_response. destruct (in_date now ts r) eqn:Hd; [|done]. apply in_date_spec in Hd. simpl.
  intros Hk. exists r. split_and!; [done|done|lia|lia|].
  destruct (verify_keys r !! key_id) eqn:Hcur; [by left; simplify_eq|].
  destruct (old_verify_keys r !! key_id) as [[k e]|] eqn:Hold; [|done]. case_decide; simplify_eq. right. exists e. split; [done|lia].
Qed.

Lemma usable_vouched server key_id key ts : usable server key_id key ts → vouched server key_id key.
Proof.
  intros (r & Hs & Hv & Hd & Hk). exists r. split_and!; [done|done| |lia].
  destruct Hk as [?|(e & ? & _)]; [by left|right; by exists e].
Qed.

(** The store knows a key exactly when it gives it. *)
Lemma verify_key_exists_eq d origin key_id ts : verify_key_exists now d origin key_id ts =
  match get_signing_key d origin key_id with
  | Some r => bool_decide (is_Some (verify_key_from_response now key_id r ts))
  | None => false
  end.
Proof.
  unfold verify_key_exists, verify_key_from_response. destruct (get_signing_key d origin key_id) as [r|]; [|done].
  destruct (in_date now ts r); simpl; [|done].
  destruct (verify_keys r !! key_id) as [key|]; simpl; [done|].
  destruct (old_verify_keys r !! key_id) as [[key e]|]; [|done].
  case_bool_decide; case_decide; simpl; done.
Qed.

(** ** Storing *)

Lemma add_signing_keys_inv r d : verified r → KeysInv d → KeysInv (add_signing_keys r d).
Proof.
  intros Hv. unfold add_signing_keys.
  assert (∀ key_id, key_id ∈ (map_to_list (verify_keys r)).*1 ++ (map_to_list (old_verify_keys r)).*1 → ∃ key, has_key r key_id key) as Hkeys.
  { intros key_id [Hin|Hin]%elem_of_app; apply list_elem_of_fmap in Hin as ([k v] & -> & Hin); apply elem_of_map_to_list in Hin.
    - exists v. by left.
    - destruct v as [key e]. exists key. right. by exists e. }
  revert d Hkeys. induction (_ ++ _) as [|key_id l IH]; intros d Hkeys Hinv; [done|]. simpl.
  apply IH; [intros k Hk; apply Hkeys; by constructor|].
  intros server k r' Hr'. destruct (decide ((server, k) = (ssk_server_name r, key_id))) as [[= -> ->]|Hne].
  - rewrite lookup_insert_eq in Hr'. injection Hr' as <-. split_and!; [done|done|]. apply Hkeys. by constructor.
  - rewrite lookup_insert_ne in Hr' by done. by apply Hinv.
Qed.

Record ProgressInv (p : Progress) : Prop := {
  pi_store : KeysInv (store p);
  pi_results server key_id key : results p !! server ≫= (fun keys => keys !! key_id) = Some key → vouched server key_id key;
}.

Lemma track_one_inv server key_id key p : vouched server key_id key → ProgressInv p → ProgressInv (track_one_result server key_id key p).
Proof.
  intros Hv [Hstore Hres]. split; [done|]. intros server' key_id' key'. simpl.
  destruct (decide (server' = server)) as [->|Hne]; [|rewrite lookup_insert_ne by done; apply Hres].
  rewrite lookup_insert_eq. simpl. destruct (decide (key_id' = key_id)) as [->|Hne].
  - rewrite lookup_insert_eq. by intros [= <-].
  - rewrite lookup_insert_ne by done. intros Hk. apply Hres. by destruct (results p !! server).
Qed.

Lemma foldl_inv {A B} (P : B → Prop) (f : B → A → B) l b : (∀ b a, a ∈ l → P b → P (f b a)) → P b → P (foldl f b l).
Proof.
  revert b. induction l as [|a l IH]; intros b Hf Hb; [done|]. simpl. apply IH; [intros; apply Hf; [by constructor|done]|].
  apply Hf; [constructor|done].
Qed.

Lemma track_result_inv r p : verified r → valid_until_ts r ≤ in_one_week now → ProgressInv p → ProgressInv (track_result r p).
Proof.
  intros Hv Hd Hp. unfold track_result. apply foldl_inv.
  - intros p' [key_id [key e]] Hin%elem_of_map_to_list Hp'. apply track_one_inv; [|done].
    exists r. split_and!; [done|done|right; by exists e|done].
  - apply foldl_inv; [|done]. intros p' [key_id key] Hin%elem_of_map_to_list Hp'. apply track_one_inv; [|done].
    exists r. split_and!; [done|done|by left|done].
Qed.

Lemma take_response_inv r p : verified r → valid_until_ts r ≤ in_one_week now → ProgressInv p → ProgressInv (take_response r p).
Proof.
  intros Hv Hd [Hstore Hres]. apply track_result_inv; [done|done|]. split; [by apply add_signing_keys_inv|done].
Qed.

Lemma take_local_inv origin key_id ts p : ProgressInv p → ProgressInv (take_local now origin key_id ts p).
Proof.
  intros Hp. unfold take_local. destruct (get_signing_key (store p) origin key_id) as [r|] eqn:Hr; simpl; [|done].
  destruct (verify_key_from_response now key_id r ts) as [key|] eqn:Hk; [|done].
  destruct (pi_store _ Hp _ _ _ Hr) as (<- & Hv & _). apply track_one_inv; [|done].
  eapply usable_vouched. by apply verify_key_from_response_usable.
Qed.

(** ** Answers *)

Lemma origin_request_verified target ts r : origin_request now target ts = Some r →
  ssk_server_name r = target ∧ verified r ∧ ts ≤ valid_until_ts r ≤ in_one_week now.
Proof.
  unfold origin_request. destruct (get_server_keys target) as [r'|]; simpl; [|done].
  case_bool_decide; simpl; [|done]. destruct (in_date now ts r') eqn:Hd; simpl; [|done]. apply in_date_spec in Hd.
  unfold verify_server_keys_response. simpl. destruct (verify_json _ _ _) eqn:Hv; [|done]. intros [= <-]. done.
Qed.

Lemma validate_notary_chunk_verified batch r notary keys : validate_notary_chunk now batch r notary keys = true →
  verified r ∧ valid_until_ts r ≤ in_one_week now.
Proof.
  unfold validate_notary_chunk. destruct (batch !! ssk_server_name r); [|done].
  destruct (in_date now _ r) eqn:Hd; [|done]. apply in_date_spec in Hd. simpl. destruct (existsb _ _); [|done]. simpl.
  intros Hv. split; [|lia]. by apply andb_true_iff in Hv as [_ ?].
Qed.

Lemma answer_verified batch still src chunks : answer_of now trusted_servers batch still src = Some chunks →
  Forall (fun r => verified r ∧ valid_until_ts r ≤ in_one_week now) chunks.
Proof.
  destruct src as [origin|notary]; simpl.
  - destruct (origin_request now origin _) as [r|] eqn:Hr; simpl; [|done]. intros [= <-].
    apply origin_request_verified in Hr as (_ & ? & ?). repeat constructor; [done|lia].
  - unfold notary_request. case_match; [intros [= <-]; constructor|].
    destruct (get_remote_server_keys_batch notary still) as [l|]; simpl; [|done]. intros [= <-].
    apply Forall_forall. intros r [Hr _]%list_elem_of_filter. by eapply validate_notary_chunk_verified.
Qed.

Lemma take_chunks_inv chunks p : Forall (fun r => verified r ∧ valid_until_ts r ≤ in_one_week now) chunks →
  ProgressInv p → ProgressInv (take_chunks chunks p).
Proof.
  intros Hall. revert p. induction Hall as [|r chunks [Hv Hd] _ IH]; intros p Hp; simpl; [done|].
  assert (ProgressInv (take_response r p)) by by apply take_response_inv. case_decide; [done|by apply IH].
Qed.

Lemma take_answers_inv batch still order p : ProgressInv p → ProgressInv (take_answers now trusted_servers batch still order p).
Proof.
  revert p. induction order as [|src order IH]; intros p Hp; simpl; [done|].
  destruct (answer_of _ _ _ _ _) as [chunks|] eqn:Ha; [|by apply IH]. apply answer_verified in Ha.
  assert (ProgressInv (take_chunks chunks p)) by by apply take_chunks_inv.
  case_decide; [destruct src; [done|by apply IH]|by apply IH].
Qed.

Lemma drain_answers_inv batch still order p : ProgressInv p → ProgressInv (drain_answers now trusted_servers batch still order p).
Proof.
  revert p. induction order as [|src order IH]; intros p Hp; simpl; [done|].
  destruct (answer_of _ _ _ _ _) as [chunks|] eqn:Ha; [|by apply IH]. apply answer_verified in Ha.
  assert (ProgressInv (foldl (fun p keys => take_response keys p) p chunks)).
  { apply foldl_inv; [|done]. intros p' r Hin Hp'. rewrite Forall_forall in Ha. destruct (Ha r Hin). by apply take_response_inv. }
  case_decide; [done|by apply IH].
Qed.

Lemma get_single_sound d origin key_id ts : KeysInv d →
  let '(key, d') := get_single_verify_key now origin key_id ts d in
  KeysInv d' ∧ ∀ k, key = Some k → usable origin key_id k ts.
Proof.
  intros Hinv. unfold get_single_verify_key.
  destruct (r ← get_signing_key d origin key_id; verify_key_from_response now key_id r ts) as [k|] eqn:Hk.
  { destruct (get_signing_key d origin key_id) as [r|] eqn:Hr; [|done]. simpl in Hk. destruct (Hinv _ _ _ Hr) as (<- & Hv & _).
    split; [done|]. intros k' [= <-]. by apply verify_key_from_response_usable. }
  destruct (origin_request now origin ts) as [r'|] eqn:Hreq; [|done].
  apply origin_request_verified in Hreq as (<- & Hv' & _).
  destruct (verify_key_from_response now key_id r' ts) as [k|] eqn:Hk'; [|done].
  split; [by apply add_signing_keys_inv|]. intros k' [= <-]. by apply verify_key_from_response_usable.
Qed.

End Sound.

(** ** Server "b" and its keys *)

Module KeysWitness.
(** "b" changed its key at 5; it is asked at 10. *)
Definition keys_of_b : ServerSigningKeys :=
  {| ssk_server_name := "b"; valid_until_ts := 1000; verify_keys := {["ed25519:2" := "second"]};
     old_verify_keys := {["ed25519:1" := ("first", 5)]}; signatures := {["b" := {["ed25519:2" := "signed"]}]} |}.
#[local] Instance verification : KeyVerification := {|
  verify_json server keys r := bool_decide (signatures r !! server ≫= (fun sigs => sigs !! "ed25519:2") = Some "signed");
  verify_canonical_json_bytes _ _ _ := false;
  parse_signature := Some;
  required_server_signatures_to_verify_event _ _ := Some ["b"];
  is_key_id _ := true;
  POLICY_SERVER_ED25519_SIGNING_KEY_ID := "ed25519:policy_server";
|}.
#[local] Instance network : KeyNetwork := {|
  get_server_keys server := if decide (server = "b") then Some keys_of_b else None;
  get_remote_server_keys_batch notary _ := if decide (notary = "n") then Some [keys_of_b] else None;
  arrival sources := sources;
|}.
Definition ask (key_id : string) : ServerKeysQuery := {["b" := {[key_id := Some 10]}]}.


(** The key that "b" no longer signs with is not taken for what is signed at 10 when it is asked for alone; when
    it is fetched for an event of that time it is. *)
Example expired_keys_are_fetched :
  (get_single_verify_key 10 "b" "ed25519:1" 10 ∅).1 = None ∧
  (fetch_verify_keys 10 [] false (ask "ed25519:1") ∅).1 !! "b" ≫= (fun keys => keys !! "ed25519:1") = Some "first" ∧
  verify_key_exists 10 (fetch_verify_keys 10 [] false (ask "ed25519:1") ∅).2 "b" "ed25519:1" 10 = false.
Proof. by vm_compute. Qed.

(** After a notary gave all that is missing the origin is waited for: its answer is stored as well. *)
Definition late_answer : ServerSigningKeys :=
  {| ssk_server_name := "b"; valid_until_ts := 2000; verify_keys := {["ed25519:2" := "second"]}; old_verify_keys := ∅;
     signatures := {["b" := {["ed25519:2" := "signed"]}]} |}.
#[local] Instance notary_first : KeyNetwork := {|
  get_server_keys server := if decide (server = "b") then Some late_answer else None;
  get_remote_server_keys_batch notary _ := if decide (notary = "n") then Some [keys_of_b] else None;
  arrival sources := reverse sources;
|}.
Example origins_are_waited_for :
  let '(keys, d) := fetch_verify_keys 10 [("n", [])] false (ask "ed25519:2") ∅ in
  keys !! "b" ≫= (fun keys => keys !! "ed25519:1") = Some "first" ∧
  valid_until_ts <$> get_signing_key d "b" "ed25519:2" = Some 2000.
Proof. by vm_compute. Qed.
End KeysWitness.
