(* ===== verification/StateAtIncoming.v ===== *)
(** The state of a room before an event of another server, and the state after it:
    src/src/service/rooms/event_handler/state_at_incoming.rs and resolve_state.rs.

    States are stored per event: what [pdu_shortstatehash] names is the state before the event.  What
    runs side by side there is worked off in the order of the collection here; state resolution is
    that of StateRes.v, its searches bounded by [fuel]. *)

From stdpp Require Import prelude gmap strings.
From Stdlib Require Import ZArith.
From S2P Require Import Prelude TopoSort Event EventAuth StateRes Effects EventStore.

Section StateAtIncoming.
Context `{!Ruma} {S position : Type} `{!EventStore S position, !RoomServices S position}.
Context `{!HashIter string, !HashIter (string * string), !HashIter Z, !Scheduler} (fuel : nat).

Abbreviation M A := (eff S HandlerError A).

(** @src src/src/service/rooms/event_handler/mod.rs:134-136 Service::event_exists *)
Definition event_exists (s : S) (eid : EventId) : bool := pdu_exists s eid.

(** @src src/src/service/rooms/event_handler/mod.rs:139-141 Service::event_fetch *)
Definition event_fetch (s : S) (eid : EventId) : option Pdu := get_pdu s eid.

(** @src src/src/service/rooms/event_handler/resolve_state.rs:101-121 Service::state_resolution *)
Definition state_resolution (rules : VersionRules) (state_sets : list (StateMap EventId))
    (auth_chain_sets : list (gset EventId)) : M (StateMap EventId) := fun s =>
  match resolve (room_rules rules) (event_fetch s) (event_exists s) fuel state_sets auth_chain_sets with
  | Ok state => (Ok state, s)
  | Err (Fail _) => (Err (Fail EUnknown), s)
  | Err Panicked => (Err Panicked, s)
  | Err OutOfFuel => (Err OutOfFuel, s)
  end.

(** The state after an event: its own entry, put into the state before. *)
Definition state_after (state : gmap Z EventId) (ev : Pdu) : M (gmap Z EventId) :=
  match state_key ev with
  | None => mret state
  | Some sk =>
      shortstatekey ← infallible (get_or_create_shortstatekey (kind ev) sk);
      mret (<[shortstatekey := event_id ev]> state)
  end.

(** @src src/src/service/rooms/event_handler/state_at_incoming.rs:43-96 Service::state_before_incoming_degree_one *)
Definition state_before_incoming_degree_one (incoming_pdu : Pdu) : M (option (gmap Z EventId)) :=
  match prev_events incoming_pdu with
  | [] => panic
  | prev_event :: _ =>
      s ← gets id;
      match pdu_shortstatehash s prev_event with
      | None => mret None
      | Some prev_event_sstatehash =>
          let state := state_full_ids s prev_event_sstatehash in
          match get_pdu s prev_event with
          | None => fail EDatabase
          | Some prev_pdu =>
              match state_key prev_pdu with
              | None => mret (Some state)
              | Some sk =>
                  shortstatekey ← infallible (get_or_create_shortstatekey (kind prev_pdu) sk);
                  mret (Some (<[shortstatekey := prev_event]> state))
              end
          end
      end
  end.

(** The types and keys of a state's short keys; those unknown are left out. *)
Definition fork_state_map (s : S) (state : gmap Z EventId) : StateMap EventId :=
  foldl (fun m '(k, id) => match get_statekey_from_short s k with Some ty_sk => <[ty_sk := id]> m | None => m end)
    ∅ (iter_map state).

(** @src src/src/service/rooms/event_handler/state_at_incoming.rs:175-223 Service::state_at_incoming_fork *)
Definition state_at_incoming_fork (rid : RoomId) (fork : Z * Pdu) : M (StateMap EventId * gset EventId) :=
  let '(sstatehash, prev_event) := fork in
  s ← gets id;
  leaf_state ← state_after (state_full_ids s sstatehash) prev_event;
  s ← gets id;
  auth_chain ← event_ids_iter rid (iter_map leaf_state).*2;
  mret (fork_state_map s leaf_state, auth_chain).

(** The states before the events that come before, each with an event: a map, by state. *)
Definition extremity_sstatehashes (s : S) (ids : list EventId) : option (gmap Z Pdu) :=
  foldl (fun m id =>
      m ← m; prev_event ← get_pdu s id; sstatehash ← pdu_shortstatehash s id;
      Some (<[sstatehash := prev_event]> m))
    (Some ∅) ids.

(** The short keys of a resolved state, made where there are none. *)
Definition short_entry (entry : string * string * EventId) : M (Z * EventId) :=
  let '((ty, sk), id) := entry in
  shortstatekey ← infallible (get_or_create_shortstatekey ty sk);
  mret (shortstatekey, id).

(** @src src/src/service/rooms/event_handler/state_at_incoming.rs:103-171 Service::state_before_incoming_resolved *)
Definition state_before_incoming_resolved (incoming_pdu : Pdu) (rules : VersionRules) : M (option (gmap Z EventId)) :=
  s ← gets id;
  match extremity_sstatehashes s (prev_events incoming_pdu) with
  | None => mret None
  | Some sstatehashes =>
      rid ← pure (room_id_or_hash incoming_pdu);
      forks ← traverse (state_at_incoming_fork rid) (iter_map sstatehashes);
      new_state ← attempt (state_resolution rules forks.*1 forks.*2);
      match new_state with
      | None => mret None
      | Some new_state =>
          entries ← traverse short_entry (iter_map new_state);
          mret (Some (foldl (fun m e => <[e.1 := e.2]> m) ∅ entries))
      end
  end.

(** @src src/src/service/rooms/event_handler/state_at_incoming.rs:24-38 Service::state_before_incoming *)
Definition state_before_incoming (incoming_pdu : Pdu) (rules : VersionRules) : M (option (gmap Z EventId)) :=
  if decide (length (prev_events incoming_pdu) = 1) then state_before_incoming_degree_one incoming_pdu
  else state_before_incoming_resolved incoming_pdu rules.

(** The resolved state by short keys; compressing it is left to [force_state].
    @src src/src/service/rooms/event_handler/resolve_state.rs:19-99 Service::resolve_state *)
Definition resolve_state (rid : RoomId) (rules : VersionRules) (incoming_state : gmap Z EventId) :
    M (list (Z * EventId)) :=
  s ← gets id;
  match get_room_shortstatehash s rid with
  | None => fail EDatabase
  | Some current_sstatehash =>
      let fork_states := [state_full_ids s current_sstatehash; incoming_state] in
      auth_chain_sets ← traverse (fun state : gmap Z EventId => event_ids_iter rid (iter_map state).*2) fork_states;
      state ← state_resolution rules (fork_state_map s <$> fork_states) auth_chain_sets;
      traverse short_entry (iter_map state)
  end.
End StateAtIncoming.
