(* ===== verification/Extremities.v ===== *)
(** Appending an event of another server: src/src/service/rooms/timeline/append.rs, from
    append_incoming_pdu to derive_new_state.

    The forward extremities of a room are the events that none is known to follow; an event that is
    appended replaces those it follows, and also those that only events outside of the timeline
    (outliers, rejected or soft-failed events) stand between.  The walk over these is bounded by fuel.
    Commands to the server's administration and waking up clients are left out. *)

From stdpp Require Import prelude gmap strings.
From Stdlib Require Import ZArith Lia.
From S2P Require Import Prelude TopoSort Event EventAuth StateRes Effects EventStore EventChecks StateAtIncoming.

Section Extremities.
Context `{!Ruma} {S position : Type} `{!EventStore S position, !RoomServices S position, !HandlerLibrary}.
Context `{!HashIter string, !HashIter (string * string), !HashIter Z, !Scheduler} (fuel : nat).

Abbreviation M A := (eff S HandlerError A).

(** Not known to be referenced, and not in the timeline: passed over by the walk. *)
Definition passed_over (s : S) (rid : RoomId) (eid : EventId) : bool :=
  negb (is_event_referenced s rid eid)
  && (outlier_pdu_exists s eid || is_event_soft_failed s eid || is_event_rejected s eid).

(** @src src/src/service/rooms/timeline/append.rs:214-246 Service::progress_state_and_extremities *)
Fixpoint walk_ancestors (fuel : nat) (rid : RoomId) (new_extremities : gset EventId) (ancestors_todo : list EventId) :
    M (gset EventId) :=
  match fuel with
  | O => fun s => (Err OutOfFuel, s)
  | Datatypes.S fuel =>
      match ancestors_todo with
      | [] => mret new_extremities
      | prev_event_id :: ancestors_todo =>
          let new_extremities := new_extremities ∖ {[prev_event_id]} in
          _ ← modify (mark_as_referenced rid [prev_event_id]);
          s ← gets id;
          match get_pdu s prev_event_id with
          | None => walk_ancestors fuel rid new_extremities ancestors_todo
          | Some prev_event =>
              let outlier_prevs := filter (fun id => passed_over s rid id = true) (prev_events prev_event) in
              walk_ancestors fuel rid new_extremities (ancestors_todo ++ outlier_prevs)
          end
      end
  end.

(** @src src/src/service/rooms/timeline/append.rs:183-258 Service::progress_state_and_extremities *)
Definition calculate_extremities (incoming_pdu : Pdu) (current_extremities : list EventId) : M (list EventId) :=
  rid ← pure (room_id_or_hash incoming_pdu);
  s ← gets id;
  let new_extremities : gset EventId := list_to_set (event_id incoming_pdu :: current_extremities) in
  let new_extremities := filter (fun id => is_event_referenced s rid id = false) new_extremities in
  new_extremities ← walk_ancestors fuel rid new_extremities (prev_events incoming_pdu);
  if bool_decide (new_extremities = ∅) then fail EUnknown else mret (iter_set new_extremities).

(** @src src/src/service/rooms/timeline/append.rs:268-308 Service::derive_new_state *)
Definition derive_new_state (incoming_pdu : Pdu) (rules : VersionRules) (state_before : gmap Z EventId) : M unit :=
  rid ← pure (room_id_or_hash incoming_pdu);
  sk ← pure (expect (state_key incoming_pdu));
  shortstatekey ← infallible (get_or_create_shortstatekey (kind incoming_pdu) sk);
  new_room_state ← resolve_state fuel rid rules (<[shortstatekey := event_id incoming_pdu]> state_before);
  force_state rid new_room_state.

(** @src src/src/service/rooms/timeline/append.rs:165-259 Service::progress_state_and_extremities *)
Definition progress_state_and_extremities (incoming_pdu : Pdu) (rules : VersionRules) (state_before : gmap Z EventId)
    (current_extremities : list EventId) : M (list EventId) :=
  _ ← match state_key incoming_pdu with
      | Some _ => derive_new_state incoming_pdu rules state_before
      | None => mret tt
      end;
  calculate_extremities incoming_pdu current_extremities.

(** A soft-failed event leaves its state and its mark.  The body of a message is read, for commands,
    after the event was appended.
    @src src/src/service/rooms/timeline/append.rs:55-158 Service::append_incoming_pdu *)
Definition append_incoming_pdu (pdu : Pdu) (pdu_json : CanonicalJsonObject) (rules : VersionRules)
    (state_before : gmap Z EventId) (should_soft_fail : bool) : M (option position) :=
  rid ← pure (room_id_or_hash pdu);
  _ ← set_event_state (event_id pdu) rid state_before;
  if should_soft_fail then
    _ ← modify (mark_event_soft_failed (event_id pdu));
    mret None
  else
    s ← gets id;
    extremities ← progress_state_and_extremities pdu rules state_before (get_forward_extremities s rid);
    pdu_id ← append_pdu pdu pdu_json extremities rid;
    if decide (kind pdu = "m.room.message") then
      _ ← pure (ok_or_fail EBadJson (de_ExtractBody (content pdu)));
      mret (Some pdu_id)
    else mret (Some pdu_id).
End Extremities.

(** * What appending an event makes of the forward extremities: exactly those of before and the event
    itself are kept that are not known to be referenced and that the walk does not reach from the
    event, and the walk ends; and how long it may take. *)

Section Walk.
Context `{!Ruma} {S position : Type} `{!EventStore S position, !RoomServices S position, !HandlerLibrary, !PduOfJson}.
Context `{!EventStoreLaws S position} `{!HashIter string, !HashIterLaws string}.
Context `{!HashIter (string * string), !HashIter Z, !Scheduler}.
Context (rid : RoomId) (s0 : S).

(** One step from an event that the walk reaches to one before it. *)
Definition walk_edge (u v : EventId) : Prop :=
  ∃ ev, get_pdu s0 u = Some ev ∧ v ∈ prev_events ev ∧ passed_over s0 rid v = true.

(** Reached from the events before the incoming one. *)
Definition walked (incoming_pdu : Pdu) (id : EventId) : Prop :=
  ∃ p, p ∈ prev_events incoming_pdu ∧ rtc walk_edge p id.

(** The state after some events were marked as referenced. *)
Record marked (P : gset EventId) (s : S) : Prop := {
  marked_get id : get_pdu s id = get_pdu s0 id;
  marked_outlier id : outlier_pdu_exists s id = outlier_pdu_exists s0 id;
  marked_soft_failed id : is_event_soft_failed s id = is_event_soft_failed s0 id;
  marked_rejected id : is_event_rejected s id = is_event_rejected s0 id;
  marked_referenced id : is_event_referenced s rid id = bool_decide (id ∈ P) || is_event_referenced s0 rid id;
}.

Lemma marked_start : marked ∅ s0.
Proof. split; intros; try done. Qed.

Lemma marked_step P s x : marked P s → marked (P ∪ {[x]}) (mark_as_referenced rid [x] s).
Proof.
  intros [Hg Ho Hs Hr Hf]. split; intros.
  - by rewrite referenced_get.
  - by rewrite referenced_outlier.
  - by rewrite referenced_soft_failed.
  - by rewrite referenced_rejected.
  - rewrite referenced_referenced, Hf. apply Bool.eq_iff_eq_true.
    rewrite !orb_true_iff, !bool_decide_eq_true. set_solver.
Qed.

Lemma marked_passed_over P s v : marked P s →
  passed_over s rid v = true ↔ passed_over s0 rid v = true ∧ v ∉ P.
Proof.
  intros [Hg Ho Hs Hr Hf]. unfold passed_over. rewrite Ho, Hs, Hr, Hf.
  rewrite !andb_true_iff, negb_orb, andb_true_iff, negb_true_iff, bool_decide_eq_false. naive_solver.
Qed.

(** The walk in the middle: what was visited and what is left come from the start, and what
    follows what was visited was visited or is left. *)
Record walking (roots : list EventId) (P : gset EventId) (todo : list EventId) : Prop := {
  walking_roots id : id ∈ roots → id ∈ P ∨ id ∈ todo;
  walking_from id : id ∈ P ∨ id ∈ todo → ∃ p, p ∈ roots ∧ rtc walk_edge p id;
  walking_closed u v : u ∈ P → walk_edge u v → v ∈ P ∨ v ∈ todo;
}.

Lemma walking_start roots : walking roots ∅ roots.
Proof.
  split; [naive_solver| |set_solver]. intros id [?|?]; [set_solver|]. exists id. split; [done|apply rtc_refl].
Qed.

Lemma walking_none roots P x todo : walking roots P (x :: todo) → get_pdu s0 x = None →
  walking roots (P ∪ {[x]}) todo.
Proof.
  intros [Hr Hf Hc] Hx. split.
  - intros id Hid. destruct (Hr id Hid); set_solver.
  - intros id Hid. apply Hf. set_solver.
  - intros u v Hu Huv. destruct (decide (u = x)) as [->|Hne].
    { destruct Huv as (ev & Hev & _). congruence. }
    destruct (Hc u v ltac:(set_solver) Huv); set_solver.
Qed.

Lemma walking_some roots P s x ev todo : walking roots P (x :: todo) → get_pdu s0 x = Some ev →
  marked (P ∪ {[x]}) s →
  walking roots (P ∪ {[x]}) (todo ++ filter (fun id => passed_over s rid id = true) (prev_events ev)).
Proof.
  intros [Hr Hf Hc] Hx Hm. split.
  - intros id Hid. destruct (Hr id Hid); set_solver.
  - intros id Hid.
    assert (id ∈ P ∨ id ∈ x :: todo ∨ (id ∈ prev_events ev ∧ passed_over s0 rid id = true)) as [Hid'|[Hid'|[Hp Hpo]]].
    { destruct Hid as [?|[?|[Hp ?]%list_elem_of_filter]%elem_of_app]; [set_solver..|].
      apply (marked_passed_over _ _ _ Hm) in Hp as [??]. naive_solver. }
    + apply Hf. by left.
    + apply Hf. by right.
    + destruct (Hf x ltac:(set_solver)) as (q & Hq & Hqx). exists q. split; [done|].
      eapply rtc_r; [done|]. by exists ev.
  - intros u v Hu Huv. destruct (decide (v ∈ P ∪ {[x]})) as [|Hv]; [by left|].
    destruct (decide (u = x)) as [->|Hne].
    + destruct Huv as (ev' & Hev' & Hin & Hpo). assert (ev' = ev) as -> by congruence.
      right. apply elem_of_app. right. apply list_elem_of_filter. split; [|done].
      by apply (marked_passed_over _ _ _ Hm).
    + destruct (Hc u v ltac:(set_solver) Huv); set_solver.
Qed.

Lemma walking_end roots P : walking roots P [] → ∀ id, id ∈ P ↔ ∃ p, p ∈ roots ∧ rtc walk_edge p id.
Proof.
  intros [Hr Hf Hc] id. split; [intros; apply Hf; by left|].
  intros (p & Hp & Hpid). assert (p ∈ P) as HP by (destruct (Hr p Hp); [done|set_solver]).
  clear Hp. induction Hpid as [x|x y z Hxy _ IH]; [done|]. apply IH.
  destruct (Hc x y HP Hxy); [done|set_solver].
Qed.

(** ** The walk ends

    Events are before the events that reference them: [rank], and none references more than [B]. *)
Definition ranked (rank : EventId → nat) (B : nat) : Prop :=
  ∀ u ev, get_pdu s0 u = Some ev →
    length (prev_events ev) ≤ B ∧ ∀ v, v ∈ prev_events ev → rank v < rank u.

(** How many events the walk visits from one of a rank, at most. *)
Fixpoint visits (B rank : nat) : nat := match rank with O => 1 | Datatypes.S r => 1 + B * visits B r end.
Definition total_visits (rank : EventId → nat) (B : nat) (ids : list EventId) : nat :=
  sum_list_with (fun id => visits B (rank id)) ids.

Lemma visits_mono B r r' : r ≤ r' → visits B r ≤ visits B r'.
Proof.
  revert r'. induction r as [|r IH]; intros [|r'] Hr; simpl; [lia|nia|lia|].
  specialize (IH r' ltac:(lia)). nia.
Qed.

Lemma total_visits_app rank B l k : total_visits rank B (l ++ k) = total_visits rank B l + total_visits rank B k.
Proof. apply sum_list_with_app. Qed.

Lemma total_visits_below rank B n l :
  (∀ v, v ∈ l → rank v ≤ n) → total_visits rank B l ≤ length l * visits B n.
Proof.
  unfold total_visits. induction l as [|x l IH]; intros Hl; simpl; [lia|].
  specialize (IH ltac:(set_solver)). pose proof (visits_mono B (rank x) n (Hl x ltac:(set_solver))). lia.
Qed.

Lemma total_visits_prevs rank B x ev (P : EventId → Prop) `{!∀ x, Decision (P x)} : ranked rank B → get_pdu s0 x = Some ev →
  1 + total_visits rank B (filter P (prev_events ev)) ≤ visits B (rank x).
Proof.
  intros Hr Hx. destruct (Hr x ev Hx) as [Hlen Hlt].
  pose proof (length_filter P (prev_events ev)) as Hf.
  destruct (rank x) as [|n] eqn:Hn.
  - destruct (prev_events ev) as [|v l]; [simpl; unfold total_visits; simpl; lia|].
    specialize (Hlt v ltac:(set_solver)). lia.
  - simpl. assert (total_visits rank B (filter P (prev_events ev)) ≤ length (filter P (prev_events ev)) * visits B n).
    { apply total_visits_below. intros v [_ Hv]%list_elem_of_filter. specialize (Hlt v Hv). lia. }
    nia.
Qed.

Lemma walk_spec rank B fuel roots ext P todo s : ranked rank B → marked P s → walking roots P todo →
  total_visits rank B todo < fuel →
  ∃ P' s', walk_ancestors fuel rid (ext ∖ P) todo s = (Ok (ext ∖ P'), s') ∧ marked P' s' ∧ walking roots P' [].
Proof.
  intros Hrank. revert P todo s. induction fuel as [|fuel IH]; intros P todo s Hm Hw Hfuel; [lia|].
  simpl. destruct todo as [|x todo]; [by exists P, s|].
  unfold mbind at 1, eff_bind, modify. unfold mbind at 1, eff_bind, gets. simpl.
  pose proof (marked_step P s x Hm) as Hm'. rewrite (marked_get _ _ Hm' x).
  replace (ext ∖ P ∖ {[x]}) with (ext ∖ (P ∪ {[x]})) by set_solver.
  change (total_visits rank B (x :: todo)) with (visits B (rank x) + total_visits rank B todo) in Hfuel.
  destruct (get_pdu s0 x) as [ev|] eqn:Hx.
  - apply IH; [done|by apply walking_some|].
    rewrite total_visits_app. pose proof (total_visits_prevs rank B x ev
      (fun id => passed_over (mark_as_referenced rid [x] s) rid id = true) Hrank Hx). lia.
  - apply IH; [done|by apply walking_none|]. destruct (rank x); simpl in Hfuel; lia.
Qed.
(** ** What is kept *)

Definition kept (incoming_pdu : Pdu) (current_extremities : list EventId) (id : EventId) : Prop :=
  (id = event_id incoming_pdu ∨ id ∈ current_extremities)
  ∧ is_event_referenced s0 rid id = false ∧ ¬ walked incoming_pdu id.

Lemma walked_rank rank B incoming_pdu id : ranked rank B →
  (∀ p, p ∈ prev_events incoming_pdu → rank p < rank (event_id incoming_pdu)) →
  walked incoming_pdu id → rank id < rank (event_id incoming_pdu).
Proof.
  intros Hr Hp (p & Hin & Hpid). specialize (Hp p Hin). clear Hin.
  induction Hpid as [|x y z (ev & Hev & Hy & _) _ IH]; [done|].
  apply IH. destruct (Hr x ev Hev) as [_ Hlt]. specialize (Hlt y Hy). lia.
Qed.

(** ** How long the walk may take *)

Lemma walk_short fuel ext todo s : fuel ≤ length todo → (walk_ancestors fuel rid ext todo s).1 = Err OutOfFuel.
Proof.
  revert ext todo s. induction fuel as [|fuel IH]; intros ext [|x todo] s Hlen; simpl in *; try done; [lia|].
  unfold mbind at 1, eff_bind, modify. unfold mbind at 1, eff_bind, gets. simpl.
  destruct (get_pdu _ x); apply IH; [rewrite length_app|]; lia.
Qed.

(** Layers of two events, both of which reference both events of the layer before, all of them
    outside of the timeline. *)
Record diamonds (a b : nat → EventId) (n : nat) : Prop := {
  diamond_pdu i x : i ≤ n → x = a i ∨ x = b i →
    ∃ ev, get_pdu s0 x = Some ev ∧ prev_events ev = match i with O => [] | Datatypes.S i => [a i; b i] end;
  diamond_over i : i ≤ n → passed_over s0 rid (a i) = true ∧ passed_over s0 rid (b i) = true;
  diamond_apart i j x y : i < j ≤ n → x = a i ∨ x = b i → y = a j ∨ y = b j → x ≠ y;
}.

Definition fresh (a b : nat → EventId) (P : gset EventId) (i : nat) : Prop :=
  ∀ j x, j ≤ i → x = a j ∨ x = b j → x ∉ P.

Fixpoint pairs (a b : nat → EventId) (k i : nat) : list EventId :=
  match k with O => [] | Datatypes.S k => pairs a b k i ++ [a i; b i] end.

Lemma length_pairs a b k i : length (pairs a b k i) = 2 * k.
Proof. induction k as [|k IH]; simpl; [done|]. rewrite length_app, IH. simpl. lia. Qed.

Lemma pairs_Forall a b k i : Forall (fun x => x = a i ∨ x = b i) (pairs a b k i).
Proof. induction k as [|k IH]; simpl; [constructor|]. apply Forall_app. split; [done|]. repeat constructor; naive_solver. Qed.

Lemma walk_layer a b n i l m ext P s fuel : diamonds a b n → Datatypes.S i ≤ n →
  Forall (fun x => x = a (Datatypes.S i) ∨ x = b (Datatypes.S i)) l → marked P s → fresh a b P i →
  ∃ ext' P' s', marked P' s' ∧ fresh a b P' i ∧
    walk_ancestors (length l + fuel) rid ext (l ++ pairs a b m i) s
    = walk_ancestors fuel rid ext' (pairs a b (m + length l) i) s'.
Proof.
  intros Hd Hi. revert m ext P s. induction l as [|x l IH]; intros m ext P s Hl Hm Hf.
  { exists ext, P, s. simpl. by rewrite Nat.add_0_r. }
  apply Forall_cons in Hl as [Hx Hl].
  destruct (diamond_pdu _ _ _ Hd _ _ Hi Hx) as (ev & Hev & Hprevs).
  pose proof (marked_step P s x Hm) as Hm'.
  assert (fresh a b (P ∪ {[x]}) i) as Hf'.
  { intros j y Hj Hy. rewrite not_elem_of_union, not_elem_of_singleton. split; [by apply (Hf j)|].
    apply (diamond_apart _ _ _ Hd j (Datatypes.S i)); [lia|done..]. }
  assert (filter (fun id => passed_over (mark_as_referenced rid [x] s) rid id = true) (prev_events ev) = [a i; b i]) as Hfilter.
  { rewrite Hprevs. destruct (diamond_over _ _ _ Hd i ltac:(lia)) as [Ha Hb].
    rewrite !filter_cons_True, filter_nil; [done|..]; apply (marked_passed_over _ _ _ Hm');
      (split; [done|]); apply (Hf' i); [lia|naive_solver|lia|naive_solver]. }
  destruct (IH (Datatypes.S m) (ext ∖ {[x]}) _ _ Hl Hm' Hf') as (ext' & P' & s' & Hm'' & Hf'' & Hrun).
  exists ext', P', s'. split; [done|]. split; [done|].
  replace (m + length (x :: l)) with (Datatypes.S m + length l) by (simpl; lia). rewrite <-Hrun. simpl.
  unfold mbind at 1, eff_bind, modify. unfold mbind at 1, eff_bind, gets. simpl.
  rewrite (marked_get _ _ Hm' x), Hev, Hfilter. by rewrite <-app_assoc.
Qed.

Lemma walk_pairs a b n i k ext P s fuel : diamonds a b n → i ≤ n → marked P s → fresh a b P (pred i) →
  fuel < k * 2 ^ (i + 1) → (walk_ancestors fuel rid ext (pairs a b k i) s).1 = Err OutOfFuel.
Proof.
  intros Hd. revert k ext P s fuel. induction i as [|i IH]; intros k ext P s fuel Hi Hm Hf Hfuel.
  { apply walk_short. rewrite length_pairs. simpl in Hfuel. lia. }
  destruct (decide (fuel ≤ length (pairs a b k (Datatypes.S i)))) as [|Hlen]; [by apply walk_short|].
  destruct (walk_layer a b n i (pairs a b k (Datatypes.S i)) 0 ext P s (fuel - length (pairs a b k (Datatypes.S i))))
    as (ext' & P' & s' & Hm' & Hf' & Hrun); [done..|apply pairs_Forall|done|done|].
  replace (length (pairs a b k (Datatypes.S i)) + (fuel - length (pairs a b k (Datatypes.S i)))) with fuel in Hrun by lia.
  rewrite app_nil_r in Hrun. rewrite Hrun. eapply IH; [lia|done| |].
  - intros j x Hj. apply Hf'. lia.
  - rewrite length_pairs in *. simpl in *. lia.
Qed.

(** The walk forgets what it is about to visit: where events outside of the timeline reference each
    other in [n] layers of two, a server that sends them makes it take more than [2 ^ n] steps for an
    event that references the last two. *)
Theorem walk_takes_exponentially_long a b n fuel ext : diamonds a b n → fuel < 2 ^ (n + 1) →
  (walk_ancestors fuel rid ext [a n; b n] s0).1 = Err OutOfFuel.
Proof.
  intros Hd Hfuel. apply (walk_pairs a b n n 1 ext ∅ s0); [done|lia|apply marked_start| |lia].
  intros j x _ _. set_solver.
Qed.
End Walk.
