(* ===== verification/Outliers.v ===== *)
(** Events outside of the timeline: how they are checked and kept, and how those that are missing are
    fetched from other servers.  Source: src/src/service/rooms/event_handler (handle_outlier_pdu.rs,
    fetch_auth.rs, fetch_and_handle_outliers.rs, fetch_state.rs).

    A store ([EventStore]) keeps the events; other servers answer ([Federation]).  Servers that are
    asked at once answer in the order of their list here, and events that are handled at once are
    handled one after the other.  The federation lock of the room is held throughout. *)

From stdpp Require Import prelude gmap strings.
From Stdlib Require Import ZArith Lia.
From S2P Require Import Prelude Event EventAuth TopoSort Effects EventStore EventChecks.

Section Outliers.
Context `{!Ruma} {S position : Type} `{!EventStore S position, !RoomServices S position}.
Context `{!PduOfJson, !HandlerLibrary, !Federation, !HashIter EventId}.

Abbreviation M A := (eff S HandlerError A).

(** @src src/src/service/rooms/event_handler/handle_outlier_pdu.rs:224-227 Service::reject_and_persist *)
Definition reject_and_persist (eid : EventId) (pdu : CanonicalJsonObject) : M unit :=
  modify (fun s => add_pdu_outlier eid pdu (mark_event_rejected eid s)).

(** [return Err] after that. *)
Definition reject {A} (eid : EventId) (pdu : CanonicalJsonObject) : M A :=
  _ ← reject_and_persist eid pdu; fail EForbidden.

(** ** Fetching the authorisation chain *)

(** One event of the answer; [None] for one that is dropped.
    @src src/src/service/rooms/event_handler/fetch_auth.rs:51-101 Service::fetch_and_persist_event_auth *)
Definition chain_event (incoming_room : RoomId) (rules : VersionRules) (create_event : Pdu) (raw : string) :
    comp HandlerError (option (EventId * Pdu)) :=
  match parse_incoming_pdu (fun _ => None) raw (Some rules) with
  | Ok (rid, eid, value) =>
      match pdu_format_check_1 value rules (event_id create_event) with
      | Ok _ =>
          match signature_hash_check_2_3 value rules with
          | Ok value =>
              if decide (rid ≠ incoming_room) then Err (Fail EForbidden)
              else
                pdu ← ok_or_fail EBadJson (from_id_val eid value);
                match state_key pdu with None => Err (Fail EBadJson) | Some _ => Ok (Some (eid, pdu)) end
          | Err (Fail _) => Ok None
          | Err e => Err e
          end
      | Err (Fail _) => Ok None
      | Err e => Err e
      end
  | Err (Fail _) => Ok None
  | Err e => Err e
  end.

(** The auth events of one of the chain, by type and key: [None] when a key is there twice.  Each is
    stored as an outlier when it is met.
    @src src/src/service/rooms/event_handler/fetch_auth.rs:166-193 Service::authorise_remote_auth_chain *)
Fixpoint claimed_auth_events (auth_chain_map : gmap EventId Pdu) (ids : list EventId) (by_key : StateMap Pdu) :
    M (option (StateMap Pdu)) :=
  match ids with
  | [] => mret (Some by_key)
  | aid :: ids =>
      match auth_chain_map !! aid with
      | None => fail ENotFound
      | Some auth_event =>
          _ ← modify (add_pdu_outlier aid (to_canonical_object auth_event));
          match state_key auth_event with
          | None => panic
          | Some sk =>
              let key := with_state_key (kind auth_event) sk in
              match by_key !! key with
              | None => claimed_auth_events auth_chain_map ids (<[key := auth_event]> by_key)
              | Some _ => mret None
              end
          end
      end
  end.

(** @src src/src/service/rooms/event_handler/fetch_auth.rs:144-205 Service::authorise_remote_auth_chain *)
Definition authorise_chain_event (auth_chain_map : gmap EventId Pdu) (rules : VersionRules) (create_event : Pdu)
    (entry : EventId * Pdu) : M unit :=
  let '(eid, pdu) := entry in
  s ← gets id;
  if is_event_rejected s eid || pdu_exists s eid then mret tt
  else
    by_key ← claimed_auth_events auth_chain_map (auth_events pdu) ∅;
    match by_key with
    | None => reject_and_persist eid (to_canonical_object pdu)
    | Some by_key =>
        passes ← pure (auth_state_check_4 pdu rules create_event by_key);
        if passes : bool then mret tt else reject_and_persist eid (to_canonical_object pdu)
    end.

(** The events are sorted, then gathered in a hash map again: they are visited in its order.
    @src src/src/service/rooms/event_handler/fetch_auth.rs:125-208 Service::authorise_remote_auth_chain *)
Definition authorise_remote_auth_chain (auth_chain_map : gmap EventId Pdu) (rules : VersionRules) (create_event : Pdu) :
    M unit :=
  sorted ← pure (build_local_dag (to_canonical_object <$> auth_chain_map) AuthEvents);
  auth_chain_topo ← pure (mapR (fun eid => pdu ← expect (auth_chain_map !! eid); Ok (eid, pdu)) sorted);
  for_each (authorise_chain_event auth_chain_map rules create_event)
    (iter_map (list_to_map auth_chain_topo : gmap EventId Pdu)).

(** @src src/src/service/rooms/event_handler/fetch_auth.rs:21-118 Service::fetch_and_persist_event_auth *)
Definition fetch_and_persist_event_auth (incoming_event : Pdu) (origin : string) (rules : VersionRules)
    (create_event : Pdu) : M (gmap EventId Pdu) :=
  chain ← pure (ok_or_fail EForbidden (send_event_authorization origin (event_id incoming_event)));
  incoming_room ← pure (room_id_or_hash incoming_event);
  l ← pure (mapR (chain_event incoming_room rules create_event) chain);
  let auth_chain_map := foldl (fun m e => <[e.1 := e.2]> m) ∅ (omap id l) in
  _ ← authorise_remote_auth_chain auth_chain_map rules create_event;
  mret auth_chain_map.

(** ** Outliers *)

(** Those of some events that are there. *)
Definition known_events (s : S) (ids : list EventId) : gmap EventId Pdu :=
  foldl (fun m id => match get_pdu s id with Some ev => <[id := ev]> m | None => m end) ∅ ids.

(** @src src/src/service/rooms/event_handler/handle_outlier_pdu.rs:116-128 Service::handle_outlier_pdu *)
Fixpoint complete_from (chain m : gmap EventId Pdu) (ids : list EventId) : comp HandlerError (gmap EventId Pdu) :=
  match ids with
  | [] => Ok m
  | id :: ids =>
      match m !! id with
      | Some _ => complete_from chain m ids
      | None => ev ← ok_or_fail EForbidden (chain !! id); complete_from chain (<[id := ev]> m) ids
      end
  end.

(** The auth events that are known, and those that are not taken from the chain.
    @src src/src/service/rooms/event_handler/handle_outlier_pdu.rs:91-129 Service::handle_outlier_pdu *)
Definition gather_auth_events (pdu : Pdu) (origin : string) (rules : VersionRules) (create_event : Pdu) :
    M (gmap EventId Pdu) :=
  s ← gets id;
  let known := known_events s (auth_events pdu) in
  if decide (size known = length (auth_events pdu)) then mret known
  else
    chain ← fetch_and_persist_event_auth pdu origin rules create_event;
    pure (complete_from chain known (auth_events pdu)).

(** None of them may be rejected or of another room.
    @src src/src/service/rooms/event_handler/handle_outlier_pdu.rs:133-162 Service::handle_outlier_pdu *)
Definition check_auth_event (eid : EventId) (rid : RoomId) (incoming : CanonicalJsonObject) (entry : EventId * Pdu) :
    M unit :=
  s ← gets id;
  if is_event_rejected s entry.1 then reject eid incoming
  else
    room ← pure (room_id_or_hash entry.2);
    if decide (room ≠ rid) then reject eid incoming else mret tt.

(** @src src/src/service/rooms/event_handler/handle_outlier_pdu.rs:167-196 Service::handle_outlier_pdu *)
Fixpoint auth_events_by_key (eid : EventId) (incoming : CanonicalJsonObject) (known : gmap EventId Pdu)
    (ids : list EventId) (by_key : StateMap Pdu) : M (StateMap Pdu) :=
  match ids with
  | [] => mret by_key
  | aid :: ids =>
      auth_event ← pure (expect (known !! aid));
      match state_key auth_event with
      | None => reject eid incoming
      | Some sk =>
          let key := with_state_key (kind auth_event) sk in
          match by_key !! key with
          | None => auth_events_by_key eid incoming known ids (<[key := auth_event]> by_key)
          | Some _ => reject eid incoming
          end
      end
  end.

(** @src src/src/service/rooms/event_handler/handle_outlier_pdu.rs:22-221 Service::handle_outlier_pdu *)
Definition handle_outlier_pdu (origin : string) (create_event : Pdu) (eid : EventId) (rid : RoomId)
    (value : CanonicalJsonObject) : M (Pdu * CanonicalJsonObject) :=
  s ← gets id;
  match get_pdu s eid with
  | Some pdu => mret (pdu, <["event_id" := CString eid]> value)
  | None =>
      rules ← pure (get_room_version_rules create_event);
      _ ← pure (pdu_format_check_1 value rules (event_id create_event));
      let value := delete "unsigned" value in
      incoming ← pure (signature_hash_check_2_3 value rules);
      let incoming := <["event_id" := CString eid]> incoming in
      pdu ← pure (ok_or_fail EBadJson (pdu_of_json incoming));
      known ← gather_auth_events pdu origin rules create_event;
      _ ← for_each (check_auth_event eid rid incoming) (iter_map known);
      by_key ← auth_events_by_key eid incoming known (auth_events pdu) ∅;
      passes ← pure (auth_state_check_4 pdu rules create_event by_key);
      if passes : bool then
        _ ← modify (add_pdu_outlier (event_id pdu) incoming);
        mret (pdu, incoming)
      else reject eid incoming
  end.

(** ** Fetching what is missing *)

(** Configuration: [sender_retry_backoff_base] and [.._limit] in milliseconds,
    [max_fetch_prev_events]; the server's own name; the time. *)
Context (backoff_base backoff_limit max_fetch_prev_events : Z) (own_name : string) (now : Z).

(** @src src/src/service/rooms/event_handler/fetch_and_handle_outliers.rs:393-418 Service::fetch_event_via *)
Definition fetch_event_via (remote : string) (eid : EventId) (rules : VersionRules) :
    comp HandlerError (EventId * CanonicalJsonObject) :=
  res ← ok_or_fail EUnknown (send_event remote eid);
  '(_, calculated_event_id, value) ← parse_incoming_pdu (fun _ => None) res (Some rules);
  if decide (calculated_event_id ≠ eid) then Err (Fail EBadJson) else Ok (eid, value).

(** [select_ok]: the first answer that is not an error, the last error if all are. *)
Fixpoint select_ok {A} (l : list (comp HandlerError A)) : comp HandlerError A :=
  match l with
  | [] => Err Panicked
  | [r] => r
  | Err (Fail _) :: l => select_ok l
  | r :: _ => r
  end.

(** @src src/src/service/rooms/event_handler/fetch_and_handle_outliers.rs:420-439 Service::fetch_event_vias *)
Definition fetch_event_vias (candidates : list string) (eid : EventId) (rules : VersionRules) :
    M (EventId * CanonicalJsonObject) :=
  s ← gets id;
  match get_pdu_json s eid with
  | Some pdu_json => mret (eid, pdu_json)
  | None => pure (select_ok ((fun remote => fetch_event_via remote eid rules) <$> candidates))
  end.

(** The origin is asked, too. *)
Definition fetch_candidates (s : S) (origin : string) (rid : RoomId) : list string :=
  candidate_backfill_servers s rid ++ [origin].

Definition on_pulls (f : gmap EventId (Z * Z) → gmap EventId (Z * Z)) : M unit :=
  modify (fun s => set_failed_pdu_pulls (f (failed_pdu_pulls s)) s).
Definition hit_pull (eid : EventId) : M unit :=
  on_pulls (fun pulls => hit_failed_pdu_pull backoff_base backoff_limit pulls now eid).
Definition clear_pull (eid : EventId) : M unit := on_pulls (fun pulls => clear_failed_pdu pulls eid).

(** Fetches an event and keeps count of failures: [None] after one. *)
Definition pull (candidates : list string) (eid : EventId) (rules : VersionRules) : M (option CanonicalJsonObject) :=
  r ← attempt (fetch_event_vias candidates eid rules);
  match r with
  | Some (_, value) => _ ← clear_pull eid; mret (Some value)
  | None => _ ← hit_pull eid; mret None
  end.

(** An event's own JSON, with its identifier only where the format keeps it there. *)
Definition without_event_id (rules : VersionRules) (obj : CanonicalJsonObject) : CanonicalJsonObject :=
  if decide (event_id_format rules ≠ IdV1) then delete "event_id" obj else obj.

(** The walk over auth events: what was found, and what cannot be used.
    @src src/src/service/rooms/event_handler/fetch_and_handle_outliers.rs:488-586 Service::fetch_and_handle_auth_events *)
Fixpoint discover (fuel : nat) (candidates : list string) (rules : VersionRules)
    (discovered_events : gmap EventId CanonicalJsonObject) (unusable_events : gset EventId) (todo : list EventId) :
    M (gmap EventId CanonicalJsonObject * gset EventId) :=
  match fuel with
  | O => fun s => (Err OutOfFuel, s)
  | Datatypes.S fuel =>
      match todo with
      | [] => mret (discovered_events, unusable_events)
      | target_id :: todo =>
          if decide (target_id ∈ dom discovered_events) then discover fuel candidates rules discovered_events unusable_events todo
          else if decide (target_id ∈ unusable_events) then discover fuel candidates rules discovered_events unusable_events todo
          else
            s ← gets id;
            match get_pdu s target_id with
            | Some local_pdu =>
                let obj := without_event_id rules (to_canonical_object local_pdu) in
                discover fuel candidates rules (<[target_id := obj]> discovered_events) unusable_events todo
            | None =>
                _ ← pure (ensure_can_pull_event backoff_base backoff_limit (failed_pdu_pulls s) now target_id);
                value ← pull candidates target_id rules;
                match value with
                | None => fail ENotFound
                | Some value =>
                    match expect_event_id_array value "auth_events" rules with
                    | Ok auth_events =>
                        discover fuel candidates rules (<[target_id := value]> discovered_events) unusable_events
                          (todo ++ auth_events)
                    | Err (Fail _) =>
                        _ ← hit_pull target_id;
                        discover fuel candidates rules discovered_events ({[target_id]} ∪ unusable_events) todo
                    | Err e => pure (Err e)
                    end
                end
            end
      end
  end.

(** @src src/src/service/rooms/event_handler/fetch_and_handle_outliers.rs:482-587 Service::fetch_and_handle_auth_events *)
Fixpoint discover_all (fuel : nat) (candidates : list string) (rules : VersionRules) (events : list EventId)
    (discovered_events : gmap EventId CanonicalJsonObject) (unusable_events : gset EventId) :
    M (gmap EventId CanonicalJsonObject) :=
  match events with
  | [] => mret discovered_events
  | apex_event_id :: events =>
      '(discovered_events, unusable_events) ← discover fuel candidates rules discovered_events unusable_events [apex_event_id];
      discover_all fuel candidates rules events discovered_events unusable_events
  end.

(** One of the events that were found, as an outlier; those that fail are dropped.
    @src src/src/service/rooms/event_handler/fetch_and_handle_outliers.rs:595-620 Service::fetch_and_handle_auth_events *)
Definition handle_discovered (origin : string) (create_event : Pdu) (rid : RoomId)
    (discovered_events : gmap EventId CanonicalJsonObject) (eid : EventId) : M (option (EventId * Pdu)) :=
  match discovered_events !! eid with
  | None => panic
  | Some pdu_json =>
      if bool_decide (pdu_json !! "event_id" = None) then
        r ← attempt (handle_outlier_pdu origin create_event eid rid pdu_json);
        mret ((fun p : Pdu * CanonicalJsonObject => (eid, p.1)) <$> r)
      else panic
  end.

(** @src src/src/service/rooms/event_handler/fetch_and_handle_outliers.rs:450-630 Service::fetch_and_handle_auth_events *)
Definition fetch_and_handle_auth_events (fuel : nat) (origin : string) (events : list EventId) (create_event : Pdu)
    (rid : RoomId) : M (gmap EventId Pdu) :=
  let rules := match get_room_version_rules create_event with Ok r => r | Err _ => rules_v1 end in
  s ← gets id;
  discovered_events ← discover_all fuel (fetch_candidates s origin rid) rules events ∅ ∅;
  match build_local_dag discovered_events AuthEvents with
  | Ok seeded_ordered =>
      pdus ← traverse (handle_discovered origin create_event rid discovered_events) seeded_ordered;
      mret (filter (fun p => p.1 ∈ events) (list_to_map (omap id pdus)))
  | Err OutOfFuel => pure (Err OutOfFuel)
  | Err _ => panic
  end.

(** @src src/src/service/rooms/event_handler/fetch_and_handle_outliers.rs:657-720 Service::fetch_prev_events *)
Fixpoint fetch_prev_loop (fuel : nat) (candidates : list string) (rules : VersionRules)
    (discovered_events : gmap EventId Pdu) (todo : list EventId) : M (gmap EventId Pdu) :=
  match fuel with
  | O => fun s => (Err OutOfFuel, s)
  | Datatypes.S fuel =>
      match todo with
      | [] => mret discovered_events
      | next_id :: todo =>
          if decide (max_fetch_prev_events ≤ Z.of_nat (size discovered_events))%Z then mret discovered_events
          else if decide (next_id ∈ dom discovered_events) then fetch_prev_loop fuel candidates rules discovered_events todo
          else
            s ← gets id;
            match ensure_can_pull_event backoff_base backoff_limit (failed_pdu_pulls s) now next_id with
            | Err _ => fetch_prev_loop fuel candidates rules discovered_events todo
            | Ok _ =>
                pdu ← pull candidates next_id rules;
                match pdu with
                | None => fetch_prev_loop fuel candidates rules discovered_events todo
                | Some pdu =>
                    match expect_event_id_array pdu "prev_events" rules with
                    | Err (Fail _) => fetch_prev_loop fuel candidates rules discovered_events todo
                    | Err e => pure (Err e)
                    | Ok prev_events =>
                        s ← gets id;
                        let missing_prev :=
                          filter (fun id => id ∉ dom discovered_events ∧ pdu_exists s id = false) prev_events in
                        match from_id_val next_id pdu with
                        | None => panic
                        | Some ev =>
                            fetch_prev_loop fuel candidates rules (<[next_id := ev]> discovered_events) (todo ++ missing_prev)
                        end
                    end
                end
            end
      end
  end.

(** @src src/src/service/rooms/event_handler/fetch_and_handle_outliers.rs:636-723 Service::fetch_prev_events *)
Definition fetch_prev_events (fuel : nat) (origin : string) (events : list EventId) (create_event : Pdu) (rid : RoomId) :
    M (gmap EventId Pdu) :=
  let rules := match get_room_version_rules create_event with Ok r => r | Err _ => rules_v1 end in
  s ← gets id;
  fetch_prev_loop fuel (fetch_candidates s origin rid) rules ∅ events.

(** ** Filling gaps *)

Abbreviation gaps := (gmap EventId Pdu * list EventId)%type.

(** An event before one that was received: what is asked for next.  Events that are there count as
    missing.
    @src src/src/service/rooms/event_handler/fetch_and_handle_outliers.rs:293-337 Service::get_missing_events *)
Definition missing_prev (s : S) (acc : gaps) (prev_event_id : EventId) : gaps :=
  let '(discovered, latest_events) := acc in
  if decide (prev_event_id ∈ dom discovered) then acc
  else if non_outlier_pdu_exists s prev_event_id then acc
  else
    match get_pdu s prev_event_id with
    | Some outlier =>
        let outlier_missing_prevs := length (filter (fun id => pdu_exists s id = true) (prev_events outlier)) in
        (<[prev_event_id := outlier]> discovered,
         if decide (0 < outlier_missing_prevs)%nat then latest_events ++ [prev_event_id] else latest_events)
    | None => (discovered, latest_events ++ [prev_event_id])
    end.

(** @src src/src/service/rooms/event_handler/fetch_and_handle_outliers.rs:259-340 Service::get_missing_events *)
Definition missing_event (s : S) (min_depth : Z) (acc : gaps) (raw_event : string) : comp HandlerError gaps :=
  '(_, eid, pdu_json) ← parse_incoming_pdu (get_room_version s) raw_event None;
  pdu ← ok_or_fail EBadJson (from_id_val eid pdu_json);
  if decide (eid ∈ dom acc.1) then Ok acc
  else if non_outlier_pdu_exists s eid then Ok acc
  else if decide (depth pdu < min_depth)%Z then Ok (<[eid := pdu]> acc.1, acc.2)
  else
    let acc := foldl (missing_prev s) acc (prev_events pdu) in
    Ok (<[eid := pdu]> acc.1, acc.2).

(** How many events are asked for: ten more each time, at most fifty, at least those that come before. *)
Definition batch_limit (iteration prevs : Z) : Z := Z.max (Z.min ((iteration + 1) * 10) 50) prevs.

(** The rounds that are left, from the given one on.
    @src src/src/service/rooms/event_handler/fetch_and_handle_outliers.rs:206-382 Service::get_missing_events *)
Fixpoint gap_fill (rounds : nat) (s : S) (iteration : Z) (rid : RoomId) (head : Pdu) (tail : list EventId)
    (via : string) (min_depth : Z) (discovered : gmap EventId Pdu) (latest_events : list EventId) :
    comp HandlerError (gmap EventId Pdu) :=
  match rounds with
  | O => Ok discovered
  | Datatypes.S rounds =>
      let limit := batch_limit iteration (Z.of_nat (length (prev_events head))) in
      events ← ok_or_fail EUnknown (send_missing_events via rid tail latest_events limit min_depth);
      if bool_decide (events = []) then Ok discovered
      else
        '(discovered, latest_events) ← foldl (fun acc raw => acc ← acc; missing_event s min_depth acc raw)
                                         (Ok (discovered, [])) events;
        if bool_decide (latest_events = []) then Ok discovered
        else if decide (max_fetch_prev_events ≤ Z.of_nat (size discovered))%Z then Ok discovered
        else gap_fill rounds s (iteration + 1) rid head tail via min_depth discovered latest_events
  end.

(** Debug assertions are left out.
    @src src/src/service/rooms/event_handler/fetch_and_handle_outliers.rs:151-386 Service::get_missing_events *)
Definition get_missing_events (rid : RoomId) (head : Pdu) (tail : list EventId) (via : string) (min_depth : Z) :
    M (gmap EventId Pdu) :=
  s ← gets id;
  if bool_decide (tail = []) then panic
  else if decide (via = own_name) then panic
  else
    let iteration_limit := Z.max (max_fetch_prev_events / 20) 10 in
    pure (gap_fill (Z.to_nat iteration_limit) s 0 rid head tail via min_depth ∅ [event_id head]).

(** ** Fetching states *)

(** The events of an answer that are of the room, as outliers; those that fail are dropped. *)
Definition handle_raw (origin : string) (create_event : Pdu) (rid : RoomId) (raw : string) : M (option Pdu) :=
  s ← gets id;
  match parse_incoming_pdu (get_room_version s) raw None with
  | Ok (incoming_room_id, incoming_event_id, json) =>
      if decide (incoming_room_id = rid) then
        r ← attempt (handle_outlier_pdu origin create_event incoming_event_id incoming_room_id json);
        mret (fst <$> r)
      else mret None
  | Err (Fail _) => mret None
  | Err e => pure (Err e)
  end.

(** @src src/src/service/rooms/event_handler/fetch_state.rs:294-391 Service::fetch_full_state *)
Definition fetch_full_state (origin : string) (create_event : Pdu) (rid : RoomId) (eid : EventId) :
    M (gmap EventId Pdu) :=
  '(auth_chain, pdus) ← pure (ok_or_fail EUnknown (send_state origin eid rid));
  _ ← traverse (handle_raw origin create_event rid) auth_chain;
  events ← traverse (handle_raw origin create_event rid) pdus;
  mret (foldl (fun acc ev => <[event_id ev := ev]> acc) ∅ (omap id events)).

(** @src src/src/service/rooms/event_handler/fetch_state.rs:257-287 Service::fetch_state_ids_from_backfill_servers *)
Definition fetch_state_ids_from_backfill_servers (s : S) (eid : EventId) (rid : RoomId) : comp HandlerError (list EventId) :=
  match candidate_backfill_servers s rid with
  | [] => Err (Fail ENotFound)
  | candidates => select_ok ((fun server_name => send_state_ids server_name eid rid) <$> candidates)
  end.

(** The state by short keys: no event without a state key, none twice for a key.
    @src src/src/service/rooms/event_handler/fetch_state.rs:224-254 Service::fetch_state *)
Fixpoint state_of_events (events : list (EventId * Pdu)) (state : gmap Z EventId) : M (gmap Z EventId) :=
  match events with
  | [] => mret state
  | (_, pdu) :: events =>
      match state_key pdu with
      | None => fail EBadJson
      | Some sk =>
          shortstatekey ← infallible (get_or_create_shortstatekey (kind pdu) sk);
          match state !! shortstatekey with
          | None => state_of_events events (<[shortstatekey := event_id pdu]> state)
          | Some _ => fail EForbidden
          end
      end
  end.

(** @src src/src/service/rooms/event_handler/fetch_state.rs:31-255 Service::fetch_state *)
Definition fetch_state (fuel : nat) (origin : string) (create_event : Pdu) (rid : RoomId) (eid : EventId) :
    M (gmap Z EventId) :=
  s ← gets id;
  pdu_ids ← pure (match send_state_ids origin eid rid with
                  | Err (Fail ENotFound) => fetch_state_ids_from_backfill_servers s eid rid
                  | r => r
                  end);
  let to_fetch := filter (fun id => pdu_exists s id = false) pdu_ids in
  state_events ←
    (if bool_decide (to_fetch = []) then
       (** Each is there, or the task panics; so it does when one is named twice. *)
       let events := known_events s pdu_ids in
       if decide (size events = length pdu_ids) then mret events else panic
     else if decide (Nat.max 50 (length pdu_ids / 4) ≤ length to_fetch)%nat then
       full ← attempt (fetch_full_state origin create_event rid eid);
       fetched_state ← match full with
                       | Some state => mret (filter (fun p => p.1 ∈ pdu_ids) state)
                       | None => fetch_and_handle_auth_events fuel origin pdu_ids create_event rid
                       end;
       if bool_decide (fetched_state = (∅ : gmap EventId Pdu)) then panic else mret fetched_state
     else
       let events := known_events s pdu_ids in
       if bool_decide (events = ∅) then panic
       else
         fetched_state ← fetch_and_handle_auth_events fuel origin to_fetch create_event rid;
         mret ((fetched_state : gmap EventId Pdu) ∪ events));
  if bool_decide (state_events = (∅ : gmap EventId Pdu)) then mret ∅
  else state_of_events (iter_map state_events) ∅.
End Outliers.
