(* ===== verification/OutliersSpec.v ===== *)
(** What is checked of an event outside of the timeline, and how fetching ends. *)

From stdpp Require Import prelude gmap strings.
From Stdlib Require Import ZArith Lia.
From S2P Require Import Prelude Event EventAuth TopoSort Effects EventStore EventChecks Outliers.

Section OutlierVerdict.
Context `{!Ruma} {S position : Type} `{!EventStore S position, !RoomServices S position}.
Context `{!PduOfJson, !HandlerLibrary, !Federation, !HashIter EventId, !HashIterLaws EventId}.
Implicit Types (s : S) (m known chain : gmap EventId Pdu) (id aid eid : EventId) (ev pdu : Pdu).

(** ** Auth events *)

Lemma known_events_lookup s ids id ev :
  (known_events s ids : gmap EventId Pdu) !! id = Some ev ↔ id ∈ ids ∧ get_pdu s id = Some ev.
Proof.
  unfold known_events.
  enough (∀ m, (foldl (fun m id => match get_pdu s id with Some ev => <[id := ev]> m | None => m end) m ids
                : gmap EventId Pdu) !! id = Some ev
               ↔ (id ∈ ids ∧ get_pdu s id = Some ev) ∨ (m !! id = Some ev ∧ (id ∈ ids → get_pdu s id = None))) as Hm.
  { rewrite Hm, lookup_empty. naive_solver. }
  induction ids as [|x ids IH]; intros m; simpl; [set_solver|].
  rewrite IH, elem_of_cons. destruct (decide (id = x)) as [->|Hne].
  - destruct (decide (x ∈ ids)); destruct (get_pdu s x) as [e0|] eqn:Hx; rewrite ?lookup_insert_eq; intuition congruence.
  - destruct (get_pdu s x); [rewrite lookup_insert_ne by done|]; intuition congruence.
Qed.

Lemma complete_from_lookup chain ids m m' : complete_from chain m ids = Ok m' →
  (∀ id ev, m' !! id = Some ev ↔ m !! id = Some ev ∨ (m !! id = None ∧ id ∈ ids ∧ chain !! id = Some ev))
  ∧ (∀ id, id ∈ ids → is_Some (m' !! id)).
Proof.
  revert m. induction ids as [|x ids IH]; intros m Hrun; simpl in Hrun.
  { injection Hrun as <-. set_solver. }
  destruct (m !! x) as [e|] eqn:Hx.
  - destruct (IH m Hrun) as [Hl Hd]. split.
    + intros id ev. rewrite Hl, elem_of_cons. naive_solver.
    + intros id [->|]%elem_of_cons; [|by apply Hd]. exists e. apply Hl. by left.
  - destruct (chain !! x) as [e|] eqn:Hc; [|done]. simpl in Hrun. destruct (IH _ Hrun) as [Hl Hd]. split.
    + intros id ev. rewrite Hl, elem_of_cons. destruct (decide (id = x)) as [->|Hne].
      * rewrite lookup_insert_eq. naive_solver.
      * rewrite lookup_insert_ne by done. naive_solver.
    + intros id [->|]%elem_of_cons; [|by apply Hd]. exists e. apply Hl. rewrite lookup_insert_eq. by left.
Qed.

Lemma size_list_to_set_le (l : list EventId) : size (list_to_set l : gset EventId) ≤ length l.
Proof.
  induction l as [|x l IH]; simpl; [done|].
  rewrite size_union_alt, size_singleton.
  assert (size (list_to_set l ∖ {[x]} : gset EventId) ≤ size (list_to_set l : gset EventId)); [|lia].
  apply subseteq_size. set_solver.
Qed.

(** Where an auth event is from: the store, or else the answer of the origin. *)
Definition obtained s origin rules create pdu s' (aid : EventId) (ev : Pdu) : Prop :=
  get_pdu s aid = Some ev
  ∨ (get_pdu s aid = None ∧ ∃ chain,
      fetch_and_persist_event_auth pdu origin rules create s = (Ok chain, s') ∧ chain !! aid = Some ev).

Lemma gather_spec pdu origin rules create s known s' :
  gather_auth_events pdu origin rules create s = (Ok known, s') →
  (∀ aid, is_Some (known !! aid) ↔ aid ∈ auth_events pdu)
  ∧ (∀ aid ev, known !! aid = Some ev → obtained s origin rules create pdu s' aid ev).
Proof.
  unfold gather_auth_events. unfold gets, mbind at 1, eff_bind at 1. cbn [fst snd]. unfold id at 1 2 3.
  set (local := known_events s (auth_events pdu)).
  destruct (decide (size local = length (auth_events pdu))) as [Hsize|_].
  - intros [= <- <-]. split.
    + intros aid. split.
      * intros [ev Hev]. by apply known_events_lookup in Hev as [??].
      * intros Hin. apply elem_of_dom.
        assert (list_to_set (auth_events pdu) = (dom local : gset EventId)) as Heq; [|set_solver].
        symmetry. apply set_subseteq_size_eq.
        -- intros x [ev Hev]%elem_of_dom. apply known_events_lookup in Hev as [??]. set_solver.
        -- rewrite size_dom, Hsize. apply size_list_to_set_le.
    + intros aid ev Hev. left. by apply known_events_lookup in Hev as [??].
  - intros Hrun. inv_run Hrun. unfold pure in Hrun. injection Hrun as Hc <-.
    destruct (complete_from_lookup _ _ _ _ Hc) as [Hl Hd]. split.
    + intros aid. split; [|apply Hd]. intros [ev [Hev|(_&?&_)]%Hl]; [|done].
      by apply known_events_lookup in Hev as [??].
    + intros aid ev [Hev|(Hnone & Hin & Hev)]%Hl.
      * left. by apply known_events_lookup in Hev as [??].
      * right. split; [|naive_solver]. destruct (get_pdu s aid) as [e|] eqn:Hg; [|done].
        
        assert (local !! aid = Some e) as Hlocal by (by apply known_events_lookup).
        unfold local in Hlocal. congruence.
Qed.

(** ** The verdict *)

Definition reject_run {A} eid (json : CanonicalJsonObject) s : comp HandlerError A * S :=
  (Err (Fail EForbidden), add_pdu_outlier eid json (mark_event_rejected eid s)).

(** An auth event that may be relied on. *)
Definition reliable s (rid : RoomId) (entry : EventId * Pdu) : Prop :=
  is_event_rejected s entry.1 = false ∧ room_id_or_hash entry.2 = (Ok rid : comp HandlerError RoomId).

Lemma check_auth_event_run eid rid json s entry r : room_id_or_hash entry.2 = (Ok r : comp HandlerError RoomId) →
  (check_auth_event eid rid json entry s = (Ok tt, s) ∧ reliable s rid entry)
  ∨ (check_auth_event eid rid json entry s = reject_run eid json s ∧ ¬ reliable s rid entry).
Proof.
  intros Hr. unfold check_auth_event, reliable, gets, mbind, eff_bind. cbn.
  destruct (is_event_rejected s entry.1) eqn:Hrej; [right; naive_solver|].
  unfold pure. rewrite Hr. destruct (decide (r ≠ rid)) as [Hne|Heq].
  - right. split; [done|]. intros [_ ?]. congruence.
  - left. assert (r = rid) as -> by (by destruct (decide (r = rid))). done.
Qed.

Lemma check_auth_events_run eid rid json s l :
  (∀ entry, entry ∈ l → ∃ r, room_id_or_hash entry.2 = (Ok r : comp HandlerError RoomId)) →
  (for_each (check_auth_event eid rid json) l s = (Ok tt, s) ∧ Forall (reliable s rid) l)
  ∨ (for_each (check_auth_event eid rid json) l s = reject_run eid json s ∧ ¬ Forall (reliable s rid) l).
Proof.
  induction l as [|entry l IH]; intros Hrooms; simpl; [by left|].
  destruct (Hrooms entry) as [r Hr]; [by left|].
  unfold mbind, eff_bind. rewrite Forall_cons.
  destruct (check_auth_event_run eid rid json s entry r Hr) as [[-> Hgood]|[-> Hbad]].
  - destruct IH as [[Hrun Hall]|[Hrun Hnot]]; [|by left|right; naive_solver].
    intros e He. apply Hrooms. by right.
  - right. split; [done|naive_solver].
Qed.

(** The state an event is authorised by: each of the named events is a state event, no two of them for
    the same type and key. *)
Definition auth_key known aid : option (string * string) :=
  ev ← known !! aid; sk ← state_key ev; Some (with_state_key (kind ev) sk).
Record selection known (ids : list EventId) (state : StateMap Pdu) : Prop := {
  selection_keys : Forall (fun aid => is_Some (auth_key known aid)) ids;
  selection_once : NoDup (omap (auth_key known) ids);
  selection_state k ev : state !! k = Some ev ↔ ∃ aid, aid ∈ ids ∧ known !! aid = Some ev ∧ auth_key known aid = Some k;
}.

Lemma selection_nil known : selection known [] ∅.
Proof. split; [constructor|constructor|]. intros k ev. rewrite lookup_empty. set_solver. Qed.

Lemma selection_snoc known ids aid ev k state : selection known ids state → known !! aid = Some ev →
  auth_key known aid = Some k → state !! k = None → selection known (ids ++ [aid]) (<[k := ev]> state).
Proof.
  intros [Hk Ho Hs] Hev Hak Hnone. split.
  - apply Forall_app. split; [done|]. repeat constructor. by rewrite Hak.
  - rewrite omap_app. simpl. rewrite Hak. apply NoDup_app. split; [done|].
    split; [|apply NoDup_singleton]. intros k' (aid' & Hin & Hak')%list_elem_of_omap ->%list_elem_of_singleton.
    destruct (known !! aid') as [ev'|] eqn:Hev'.
    + assert (state !! k = Some ev') by (apply Hs; eauto). congruence.
    + unfold auth_key in Hak'. by rewrite Hev' in Hak'.
  - intros k' ev'. destruct (decide (k' = k)) as [->|Hne].
    + rewrite lookup_insert_eq. split.
      * intros [= <-]. exists aid. split; [set_solver|done].
      * intros (aid' & [Hin| ->%list_elem_of_singleton]%elem_of_app & Hev' & Hak'); [|congruence].
        assert (state !! k = Some ev') by (apply Hs; eauto). congruence.
    + rewrite lookup_insert_ne, Hs by done. split.
      * intros (aid' & Hin & ?). exists aid'. split; [set_solver|done].
      * intros (aid' & [Hin| ->%list_elem_of_singleton]%elem_of_app & Hev' & Hak'); [eauto|congruence].
Qed.

Lemma auth_events_by_key_run eid json known ids pre state s : selection known pre state →
  (∀ aid, aid ∈ ids → is_Some (known !! aid)) →
  (∃ state', auth_events_by_key eid json known ids state s = (Ok state', s) ∧ selection known (pre ++ ids) state')
  ∨ (auth_events_by_key eid json known ids state s = reject_run eid json s ∧ ∀ state', ¬ selection known (pre ++ ids) state').
Proof.
  revert pre state. induction ids as [|aid ids IH]; intros pre state Hsel Hknown; simpl.
  { left. exists state. by rewrite app_nil_r. }
  destruct (Hknown aid) as [ev Hev]; [by left|].
  unfold pure, mbind, eff_bind. rewrite Hev. cbn.
  destruct (state_key ev) as [sk|] eqn:Hsk.
  2: { right. split; [done|]. intros state' [Hk _ _]. apply Forall_app in Hk as [_ [[k Hk] _]%Forall_cons].
       unfold auth_key in Hk. rewrite Hev in Hk. simpl in Hk. by rewrite Hsk in Hk. }
  assert (auth_key known aid = Some (with_state_key (kind ev) sk)) as Hak.
  { unfold auth_key. rewrite Hev. simpl. by rewrite Hsk. }
  destruct (state !! with_state_key (kind ev) sk) as [ev'|] eqn:Hst.
  - right. split; [done|]. intros state' [_ Ho _]. rewrite omap_app in Ho. simpl in Ho. rewrite Hak in Ho.
    apply (selection_state _ _ _ Hsel) in Hst as (aid' & Hin & _ & Hak').
    apply NoDup_app in Ho as (_ & Ho & _). eapply Ho; [|by left]. apply list_elem_of_omap. eauto.
  - replace (pre ++ aid :: ids) with ((pre ++ [aid]) ++ ids) by (by rewrite <-app_assoc).
    apply IH; [by apply selection_snoc|]. intros aid' Hin. apply Hknown. by right.
Qed.

Lemma selection_unique known ids state1 state2 : selection known ids state1 → selection known ids state2 → state1 = state2.
Proof.
  intros [_ _ Hs1] [_ _ Hs2]. apply map_eq. intros k. apply option_eq. intros ev. by rewrite Hs1, Hs2.
Qed.

(** An event whose JSON passed the first checks is acceptable: the auth events it names may be relied on,
    they make up a state, and by that state the event is authorised. *)
Definition acceptable s rid pdu known rules create : Prop :=
  (∀ aid ev, known !! aid = Some ev → reliable s rid (aid, ev)) ∧
  ∃ state, selection known (auth_events pdu) state ∧
    auth_check (room_rules rules) pdu None (fun ty sk => state !! (ty, sk)) create = Ok true.

Lemma reliable_all s rid known :
  Forall (reliable s rid) (iter_map known) ↔ ∀ aid ev, known !! aid = Some ev → reliable s rid (aid, ev).
Proof.
  rewrite Forall_forall. split.
  - intros Hall aid ev Hev. apply Hall. rewrite iter_map_perm. by apply elem_of_map_to_list.
  - intros Hall [aid ev] Hin. rewrite iter_map_perm in Hin. by apply Hall, elem_of_map_to_list.
Qed.

(** The second part of [handle_outlier_pdu]: from the auth events on. *)
Lemma outlier_verdict_run eid rid rules create pdu known json s :
  (∀ aid, is_Some (known !! aid) ↔ aid ∈ auth_events pdu) →
  (∀ aid ev, known !! aid = Some ev → ∃ r, room_id_or_hash ev = (Ok r : comp HandlerError RoomId)) →
  match (_ ← for_each (check_auth_event eid rid json) (iter_map known);
         by_key ← auth_events_by_key eid json known (auth_events pdu) ∅;
         passes ← pure (auth_state_check_4 pdu rules create by_key);
         if passes : bool then
           _ ← modify (add_pdu_outlier (event_id pdu) json);
           mret (pdu, json)
         else reject eid json) s with
  | (Ok r, s') => acceptable s rid pdu known rules create ∧ r = (pdu, json) ∧ s' = add_pdu_outlier (event_id pdu) json s
  | (Err e, s') =>
      (e = Fail EForbidden ∧ ¬ acceptable s rid pdu known rules create
       ∧ s' = add_pdu_outlier eid json (mark_event_rejected eid s))
      ∨ (s' = s ∧ ∃ state err, selection known (auth_events pdu) state ∧
           auth_check (room_rules rules) pdu None (fun ty sk => state !! (ty, sk)) create = Err err)
  end.
Proof.
  intros Hdom Hrooms. unfold mbind at 1, eff_bind at 1.
  destruct (check_auth_events_run eid rid json s (iter_map known)) as [[-> Hall]|[-> Hnot]].
  { intros [aid ev] Hin. rewrite iter_map_perm in Hin. by apply (Hrooms aid), elem_of_map_to_list. }
  2: { left. split; [done|]. split; [|done]. intros [Hall _]. by apply Hnot, reliable_all. }
  rewrite reliable_all in Hall. unfold mbind at 1, eff_bind at 1.
  destruct (auth_events_by_key_run eid json known (auth_events pdu) [] ∅ s (selection_nil known))
    as [(state & -> & Hsel)|[-> Hno]]; [intros aid; apply Hdom| |].
  2: { left. split; [done|]. split; [|done]. intros (_ & state & Hsel & _). by apply (Hno state). }
  simpl in Hsel. unfold pure, mbind, eff_bind, auth_state_check_4.
  destruct (auth_check _ _ _ _ _) as [[|]|e] eqn:Hauth; cbn.
  - split; [|done]. split; [done|]. eauto.
  - left. split; [done|]. split; [|done]. intros (_ & state' & Hsel' & Hauth').
    rewrite (selection_unique _ _ _ _ Hsel' Hsel) in Hauth'. congruence.
  - destruct e; cbn; right; eauto 10.
Qed.

(** C19: What becomes of a new event outside of the timeline whose format and signatures are in order:
    it is accepted, and kept, when none of the auth events it names was rejected or is of another
    room, they are state events for different types and keys, and the event is authorised by that
    state; otherwise it is rejected, which is kept with the event.  Every auth event it names was
    found, either in the store or in the answer of the origin. *)
Theorem handle_outlier_correct origin create eid rid value s rules signed pdu known s1 :
  let json := <["event_id" := CString eid]> signed in
  get_pdu s eid = None → get_room_version_rules create = Ok rules →
  pdu_format_check_1 value rules (event_id create) = Ok tt →
  signature_hash_check_2_3 (delete "unsigned" value) rules = Ok signed → pdu_of_json json = Some pdu →
  gather_auth_events pdu origin rules create s = (Ok known, s1) →
  (∀ aid ev, known !! aid = Some ev → ∃ r, room_id_or_hash ev = (Ok r : comp HandlerError RoomId)) →
  (∀ aid, is_Some (known !! aid) ↔ aid ∈ auth_events pdu) ∧
  (∀ aid ev, known !! aid = Some ev → obtained s origin rules create pdu s1 aid ev) ∧
  match handle_outlier_pdu origin create eid rid value s with
  | (Ok r, s') => acceptable s1 rid pdu known rules create ∧ r = (pdu, json) ∧ s' = add_pdu_outlier (event_id pdu) json s1
  | (Err e, s') =>
      (e = Fail EForbidden ∧ ¬ acceptable s1 rid pdu known rules create
       ∧ s' = add_pdu_outlier eid json (mark_event_rejected eid s1))
      ∨ (s' = s1 ∧ ∃ state err, selection known (auth_events pdu) state ∧
           auth_check (room_rules rules) pdu None (fun ty sk => state !! (ty, sk)) create = Err err)
  end.
Proof.
  intros json Hnew Hrules Hformat Hsigned Hpdu Hgather Hrooms.
  destruct (gather_spec _ _ _ _ _ _ _ Hgather) as [Hdom Hfrom]. split; [done|]. split; [done|].
  pose proof (outlier_verdict_run eid rid rules create pdu known json s1 Hdom Hrooms) as Hverdict.
  unfold handle_outlier_pdu. rewrite (bind_run (gets id) _ s s s) by done. rewrite Hnew.
  rewrite (bind_run _ _ s rules s) by (unfold pure; by rewrite Hrules).
  rewrite (bind_run _ _ s tt s) by (unfold pure; by rewrite Hformat).
  rewrite (bind_run _ _ s signed s) by (unfold pure; by rewrite Hsigned).
  fold json. rewrite (bind_run _ _ s pdu s) by (unfold pure; by rewrite Hpdu).
  rewrite (bind_run _ _ s known s1) by done. exact Hverdict.
Qed.
End OutlierVerdict.
