(* ===== verification/EventHandler.v ===== *)
(** Handling events of other servers: src/src/service/rooms/event_handler, from an event as it comes in
    to its place in the timeline (upgrade_outlier_pdu.rs, the other checks of pdu_checks.rs,
    fetch_prev.rs, handle_incoming_pdu.rs).

    The federation lock of the room is held while an event is handled, so steps on one room do not
    interleave; [fuel] bounds the searches of state resolution and the walks over events. *)

From stdpp Require Import prelude gmap strings.
From Stdlib Require Import ZArith Lia.
From S2P Require Import Prelude TopoSort Event EventAuth StateRes Effects EventStore EventChecks StateAtIncoming Extremities Outliers.

Section Handler.
Context `{!Ruma} {S position : Type} `{!EventStore S position, !RoomServices S position}.
Context `{!PduOfJson, !HandlerLibrary, !Federation}.
Context `{!HashIter string, !HashIter (string * string), !HashIter Z, !Scheduler} (fuel : nat).
Context (backoff_base backoff_limit max_fetch_prev_events : Z) (own_name : string) (now : Z).

Abbreviation M A := (eff S HandlerError A).

(** ** Promotion *)

(** [auth_check], whose own errors refuse the event. *)
Definition authorised (rules : VersionRules) (pdu create_event : Pdu) (state : string → string → option Pdu) :
    comp HandlerError bool :=
  match auth_check (room_rules rules) pdu None state create_event with
  | Ok b => Ok b
  | Err (Fail _) => Err (Fail EForbidden)
  | Err Panicked => Err Panicked
  | Err OutOfFuel => Err OutOfFuel
  end.

(** The event that a state has for a type and key. *)
Definition state_lookup (s : S) (state : gmap Z EventId) (ty sk : string) : option Pdu :=
  shortstatekey ← get_shortstatekey s ty sk; eid ← state !! shortstatekey; get_pdu s eid.

(** @src src/src/service/rooms/event_handler/pdu_checks.rs:187-258 Service::state_before_check_5 *)
Definition state_before_check_5 (incoming_pdu : Pdu) (rules : VersionRules) (create_event : Pdu) (origin : string) :
    M (bool * gmap Z EventId) :=
  rid ← pure (room_id_or_hash incoming_pdu);
  state_before ← state_before_incoming fuel incoming_pdu rules;
  state_before ← match state_before with
                 | Some s => mret s
                 | None => fetch_state backoff_base backoff_limit now fuel origin create_event rid (event_id incoming_pdu)
                 end;
  if bool_decide (state_before = (∅ : gmap Z EventId)) && bool_decide (kind incoming_pdu ≠ RoomCreate)
  then fail EForbidden
  else
    s ← gets id;
    b ← pure (authorised rules incoming_pdu create_event (state_lookup s state_before));
    mret (b, state_before).

(** @src src/src/service/rooms/event_handler/pdu_checks.rs:266-307 Service::current_state_check_6 *)
Definition current_state_check_6 (incoming_pdu : Pdu) (rules : VersionRules) (create_event : Pdu) : M bool :=
  s ← gets id;
  rid ← pure (room_id_or_hash incoming_pdu);
  auth ← pure (get_auth_events s rid incoming_pdu (room_rules rules));
  pure (authorised rules incoming_pdu create_event (fun ty sk => auth !! (ty, sk))).

(** The JSON goes without its identifier, which is put back when the event is allowed.
    @src src/src/service/rooms/event_handler/pdu_checks.rs:314-356 Service::policy_server_check_7 *)
Definition policy_server_check_7 (incoming_pdu : Pdu) (pdu_json : CanonicalJsonObject) (rules : VersionRules) :
    M (bool * CanonicalJsonObject) :=
  s ← gets id;
  eid ← pure (expect (pdu_json !! "event_id"));
  let pdu_json := if decide (event_id_format rules ≠ IdV1) then delete "event_id" pdu_json else pdu_json in
  rid ← pure (room_id_or_hash incoming_pdu);
  match policy_server_allows_event incoming_pdu pdu_json rid rules with
  | Ok pdu_json => mret (true, <["event_id" := eid]> pdu_json)
  | Err (Fail EForbidden) => mret (false, pdu_json)
  | Err e => pure (Err e)
  end.

(** @src src/src/service/rooms/event_handler/upgrade_outlier_pdu.rs:16-205 Service::upgrade_outlier_to_timeline_pdu *)
Definition upgrade_outlier_to_timeline_pdu (incoming_pdu : Pdu) (val : CanonicalJsonObject) (create_event : Pdu)
    (origin : string) (rid : RoomId) : M (option position) :=
  s ← gets id;
  match get_pdu_id s (event_id incoming_pdu) with
  | Some pdu_id => mret (Some pdu_id)
  | None =>
      if is_event_rejected s (event_id incoming_pdu) then fail EForbidden
      else if is_event_soft_failed s (event_id incoming_pdu) then fail EForbidden
      else if decide (kind create_event ≠ RoomCreate) then panic
      else
        room ← pure (room_id_or_hash incoming_pdu);
        if decide (room ≠ rid) then panic
        else
          let min_depth := get_mindepth s rid in
          rules ← pure (get_room_version_rules create_event);
          '(passes_state_before, state_before) ← state_before_check_5 incoming_pdu rules create_event origin;
          if negb passes_state_before then reject (event_id incoming_pdu) val
          else
            passes_current_state ← current_state_check_6 incoming_pdu rules create_event;
            s ← gets id;
            let redaction_permitted :=
              match redacts_id incoming_pdu rules with
              | Some redacted_id => user_can_redact s redacted_id (sender incoming_pdu) rid
              | None => true
              end in
            '(should_soft_fail, val) ←
              (if negb redaction_permitted || negb passes_current_state then mret (true, val)
               else
                 '(passes, val) ← policy_server_check_7 incoming_pdu val rules;
                 s ← gets id;
                 let not_accepted := match redacts_id incoming_pdu rules with
                                     | Some redact_id => is_event_rejected s redact_id || is_event_soft_failed s redact_id
                                     | None => false
                                     end in
                 mret (negb passes || not_accepted, val));
            pdu_id ← append_incoming_pdu fuel incoming_pdu val rules state_before should_soft_fail;
            _ ← (if bool_decide (min_depth < depth incoming_pdu)%Z && bool_decide (state_key incoming_pdu ≠ None)
                 then modify (set_mindepth rid (depth incoming_pdu)) else mret tt);
            mret pdu_id
  end.

(** ** Events as they come *)

(** A failure is logged and forgotten. *)
Definition ignore_err {A} (m : M A) : M unit := fun s =>
  match m s with
  | (Ok _, s) => (Ok tt, s)
  | (Err (Fail _), s) => (Ok tt, s)
  | (Err e, s) => (Err e, s)
  end.

(** @src src/src/service/rooms/event_handler/fetch_prev.rs:113-153 Service::fetch_prevs *)
Definition persist_prev (origin : string) (create_event : Pdu) (rid : RoomId) (first_ts_in_room : Z)
    (mapped : gmap EventId CanonicalJsonObject) (eid : EventId) : M unit :=
  match mapped !! eid with None => panic | Some obj =>
  (fun s =>
    match handle_outlier_pdu origin create_event eid rid obj s with
    | (Ok (pdu, val), s) =>
        if decide (first_ts_in_room ≤ Event.origin_server_ts pdu)%Z
        then ignore_err (upgrade_outlier_to_timeline_pdu pdu val create_event origin rid) s
        else (Ok tt, s)
    | (Err (Fail _), s) => (Ok tt, s)
    | (Err e, s) => (Err e, s)
    end)
  end.

(** @src src/src/service/rooms/event_handler/fetch_prev.rs:17-163 Service::fetch_prevs *)
Definition fetch_prevs (rid : RoomId) (create_event incoming_pdu : Pdu) (origin : string) (first_ts_in_room : Z) : M unit :=
  s ← gets id;
  let missing := filter (fun id => non_outlier_pdu_exists s id = false) (prev_events incoming_pdu) in
  if bool_decide (missing = []) then mret tt
  else
    let tail := get_forward_extremities s rid in
    if bool_decide (tail = []) then fail EUnknown
    else
      (** [saturating_mul] of bytes, [saturating_sub]. *)
      let reach := Z.min 255 (2 * Z.of_nat (length (prev_events incoming_pdu))) in
      if decide (255 < length (prev_events incoming_pdu))%nat then panic
      else
      gapfilled ← get_missing_events max_fetch_prev_events own_name rid incoming_pdu tail origin
                    (Z.max 0 (get_mindepth s rid - reach));
      let missing := filter (fun id => id ∉ dom (gapfilled : gmap EventId Pdu)) missing in
      gapfilled ← (if bool_decide (missing = []) then mret gapfilled
                   else more ← fetch_prev_events backoff_base backoff_limit max_fetch_prev_events now fuel origin missing create_event rid; mret ((more : gmap EventId Pdu) ∪ gapfilled));
      rules ← pure (get_room_version_rules create_event);
      let mapped := (fun pdu =>
          without_event_id rules (to_canonical_object pdu)) <$> gapfilled in
      to_persist ← pure (build_local_dag mapped PrevEvents);
      for_each (persist_prev origin create_event rid first_ts_in_room mapped) to_persist.

(** Tying loose ends of the room together afterwards is not modelled.
    @src src/src/service/rooms/event_handler/handle_incoming_pdu.rs:43-197 Service::handle_incoming_pdu *)
Definition handle_incoming_pdu (origin : string) (rid : RoomId) (eid : EventId) (value : CanonicalJsonObject)
    (is_backfilled_event : bool) : M (option position) :=
  s ← gets id;
  match get_pdu_id s eid with
  | Some pdu_id => mret (Some pdu_id)
  | None =>
      let status := room_status s rid in
      _ ← pure (acl_check origin (server_acl status));
      if is_disabled status then fail EForbidden
      else if negb (room_exists status) then fail ENotFound
      else if negb (is_resident status) then fail ENotFound
      else
        create_event ← pure (expect (room_create_event status));
        '(incoming_pdu, val) ← handle_outlier_pdu origin create_event eid rid value;
        if is_backfilled_event then mret None
        else
          s ← gets id;
          first_ts_in_room ← pure (ok_or_fail ENotFound (first_pdu_ts (room_status s rid)));
          if decide (Event.origin_server_ts incoming_pdu < first_ts_in_room)%Z then mret None
          else
            _ ← fetch_prevs rid create_event incoming_pdu origin first_ts_in_room;
            upgrade_outlier_to_timeline_pdu incoming_pdu val create_event origin rid
  end.
End Handler.
