(* ===== verification/EventHandlerSpec.v ===== *)
(** What the handler guarantees: events that were rejected stay out of the timeline, whatever comes in;
    what an event passed when it is accepted; and how promotion ends. *)

From stdpp Require Import prelude gmap strings.
From Stdlib Require Import ZArith Lia.
From S2P Require Import Prelude TopoSort Event EventAuth StateRes Effects EventStore EventChecks StateAtIncoming Extremities Outliers EventHandler.

(** ** Rejected events *)

Section Verdicts.
Context `{!Ruma} {S position : Type} `{!EventStore S position, !RoomServices S position, !PduOfJson}.
Context `{!EventStoreLaws S position, !RoomServicesLaws S position}.
Context `{!HandlerLibrary, !Federation}.
Context `{!HashIter string, !HashIter (string * string), !HashIter Z, !Scheduler} (fuel : nat).
Context (backoff_base backoff_limit max_fetch_prev_events : Z) (own_name : string) (now : Z).
Context (id : EventId).

Definition left_out (s : S) : Prop := is_event_rejected s id = true ∧ get_pdu_id s id = None.
Definition stays_out (s s' : S) : Prop := left_out s → left_out s'.

#[local] Instance stays_out_preorder : PreOrder stays_out.
Proof. split; unfold stays_out; [intros s; auto|intros s1 s2 s3; auto]. Qed.

Lemma stays_out_same s s' : same_verdict id s s' → stays_out s s'.
Proof. intros [Hr Hp] [??]. unfold left_out. by rewrite Hr, Hp. Qed.

Lemma stays_out_outlier eid json s : stays_out s (add_pdu_outlier eid json s).
Proof. apply stays_out_same. split; [by rewrite outlier_rejected|by rewrite outlier_position]. Qed.
Lemma stays_out_rejected eid s : stays_out s (mark_event_rejected eid s).
Proof.
  intros [Hr Hp]. split; [|by rewrite rejected_position]. rewrite rejected_rejected, Hr. apply orb_true_r.
Qed.
Lemma stays_out_soft_failed eid s : stays_out s (mark_event_soft_failed eid s).
Proof. apply stays_out_same. split; [by rewrite soft_failed_rejected|by rewrite soft_failed_position]. Qed.
Lemma stays_out_referenced rid l s : stays_out s (mark_as_referenced rid l s).
Proof. apply stays_out_same. split; [by rewrite referenced_rejected|by rewrite referenced_position]. Qed.
Lemma stays_out_shortstatekey ty sk s : stays_out s (get_or_create_shortstatekey ty sk s).2.
Proof. apply stays_out_same, shortstatekey_verdict. Qed.
Lemma stays_out_auth_chain rid ids : preserves stays_out (event_ids_iter (S := S) rid ids).
Proof. intros s. apply stays_out_same, auth_chain_verdict. Qed.
Lemma stays_out_event_state eid rid state : preserves stays_out (set_event_state (S := S) eid rid state).
Proof. intros s. apply stays_out_same, set_event_state_verdict. Qed.
Lemma stays_out_force_state rid state : preserves stays_out (force_state (S := S) rid state).
Proof. intros s. apply stays_out_same, force_state_verdict. Qed.
Lemma stays_out_mindepth rid n s : stays_out s (set_mindepth rid n s).
Proof. apply stays_out_same, mindepth_verdict. Qed.
Lemma stays_out_pulls pulls s : stays_out s (set_failed_pdu_pulls pulls s).
Proof. apply stays_out_same, pulls_verdict. Qed.

#[local] Hint Resolve stays_out_preorder stays_out_outlier stays_out_rejected stays_out_soft_failed
  stays_out_referenced stays_out_shortstatekey stays_out_auth_chain stays_out_event_state
  stays_out_force_state stays_out_mindepth stays_out_pulls : preserves.

Lemma reject_and_persist_stays_out eid json :
  preserves stays_out (reject_and_persist eid json : eff S HandlerError unit).
Proof.
  unfold reject_and_persist. preserve. etrans; [apply stays_out_rejected|apply stays_out_outlier].
Qed.
#[local] Hint Resolve reject_and_persist_stays_out : preserves.

Lemma reject_stays_out {A} eid json : preserves stays_out (reject eid json : eff S HandlerError A).
Proof. unfold reject. preserve. Qed.
#[local] Hint Resolve reject_stays_out : preserves.

(** *** Outliers *)

Lemma claimed_auth_events_stays_out m ids by_key : preserves stays_out (claimed_auth_events (S := S) m ids by_key).
Proof. revert by_key. induction ids as [|aid ids IH]; intros by_key; simpl; preserve. Qed.
#[local] Hint Resolve claimed_auth_events_stays_out : preserves.

Lemma authorise_chain_event_stays_out m rules create entry :
  preserves stays_out (authorise_chain_event (S := S) m rules create entry).
Proof. destruct entry. unfold authorise_chain_event. preserve. Qed.
#[local] Hint Resolve authorise_chain_event_stays_out : preserves.

Lemma fetch_and_persist_event_auth_stays_out ev origin rules create :
  preserves stays_out (fetch_and_persist_event_auth (S := S) ev origin rules create).
Proof.
  unfold fetch_and_persist_event_auth, authorise_remote_auth_chain. preserve.
Qed.
#[local] Hint Resolve fetch_and_persist_event_auth_stays_out : preserves.

Lemma auth_events_by_key_stays_out eid json known ids by_key :
  preserves stays_out (auth_events_by_key (S := S) eid json known ids by_key).
Proof. revert by_key. induction ids as [|aid ids IH]; intros by_key; simpl; preserve. Qed.
#[local] Hint Resolve auth_events_by_key_stays_out : preserves.

Lemma handle_outlier_pdu_stays_out origin create eid rid value :
  preserves stays_out (handle_outlier_pdu (S := S) origin create eid rid value).
Proof. unfold handle_outlier_pdu, gather_auth_events, check_auth_event. preserve. Qed.
#[local] Hint Resolve handle_outlier_pdu_stays_out : preserves.

(** *** Fetching *)

Lemma pull_stays_out candidates eid rules :
  preserves stays_out (pull (S := S) backoff_base backoff_limit now candidates eid rules).
Proof. unfold pull, fetch_event_vias, clear_pull, hit_pull, on_pulls. preserve. Qed.
#[local] Hint Resolve pull_stays_out : preserves.

Lemma discover_stays_out n candidates rules found unusable todo :
  preserves stays_out (discover (S := S) backoff_base backoff_limit now n candidates rules found unusable todo).
Proof.
  revert found unusable todo. induction n as [|n IH]; intros found unusable todo; simpl;
    unfold hit_pull, on_pulls; preserve.
Qed.
#[local] Hint Resolve discover_stays_out : preserves.

Lemma discover_all_stays_out n candidates rules events found unusable :
  preserves stays_out (discover_all (S := S) backoff_base backoff_limit now n candidates rules events found unusable).
Proof. revert found unusable. induction events as [|e events IH]; intros; simpl; preserve. Qed.
#[local] Hint Resolve discover_all_stays_out : preserves.

Lemma fetch_and_handle_auth_events_stays_out n origin events create rid :
  preserves stays_out (fetch_and_handle_auth_events (S := S) backoff_base backoff_limit now n origin events create rid).
Proof. unfold fetch_and_handle_auth_events, handle_discovered. preserve. Qed.
#[local] Hint Resolve fetch_and_handle_auth_events_stays_out : preserves.

Lemma fetch_prev_loop_stays_out n candidates rules found todo :
  preserves stays_out (fetch_prev_loop (S := S) backoff_base backoff_limit max_fetch_prev_events now n candidates rules found todo).
Proof. revert found todo. induction n as [|n IH]; intros found todo; simpl; preserve. Qed.
#[local] Hint Resolve fetch_prev_loop_stays_out : preserves.

Lemma state_of_events_stays_out events state : preserves stays_out (state_of_events (S := S) events state).
Proof. revert state. induction events as [|[eid pdu] events IH]; intros state; simpl; preserve. Qed.
#[local] Hint Resolve state_of_events_stays_out : preserves.

Lemma fetch_state_stays_out n origin create rid eid :
  preserves stays_out (fetch_state (S := S) backoff_base backoff_limit now n origin create rid eid).
Proof. unfold fetch_state, fetch_full_state, handle_raw. preserve. Qed.
#[local] Hint Resolve fetch_state_stays_out : preserves.

(** *** States and the timeline *)

Lemma short_entry_stays_out entry : preserves stays_out (short_entry (S := S) entry).
Proof. destruct entry as [[ty sk] eid]. unfold short_entry. preserve. Qed.
#[local] Hint Resolve short_entry_stays_out : preserves.

Lemma state_resolution_stays_out rules sets chains :
  preserves stays_out (state_resolution (S := S) fuel rules sets chains).
Proof. intros s. unfold state_resolution. by destruct (resolve _ _ _ _ _ _) as [|[]]. Qed.
#[local] Hint Resolve state_resolution_stays_out : preserves.

Lemma state_at_incoming_fork_stays_out rid fork : preserves stays_out (state_at_incoming_fork (S := S) rid fork).
Proof. destruct fork. unfold state_at_incoming_fork, state_after. preserve. Qed.
#[local] Hint Resolve state_at_incoming_fork_stays_out : preserves.

Lemma state_before_incoming_stays_out pdu rules :
  preserves stays_out (state_before_incoming (S := S) fuel pdu rules).
Proof.
  unfold state_before_incoming, state_before_incoming_degree_one, state_before_incoming_resolved. preserve.
Qed.
#[local] Hint Resolve state_before_incoming_stays_out : preserves.

Lemma resolve_state_stays_out rid rules state : preserves stays_out (resolve_state (S := S) fuel rid rules state).
Proof. unfold resolve_state. preserve. Qed.
#[local] Hint Resolve resolve_state_stays_out : preserves.

Lemma walk_ancestors_stays_out n rid ext todo : preserves stays_out (walk_ancestors (S := S) n rid ext todo).
Proof. revert ext todo. induction n as [|n IH]; intros ext todo; simpl; preserve. Qed.
#[local] Hint Resolve walk_ancestors_stays_out : preserves.

Lemma append_incoming_pdu_stays_out pdu json rules state soft : id ≠ event_id pdu →
  preserves stays_out (append_incoming_pdu (S := S) fuel pdu json rules state soft).
Proof.
  intros Hid. assert (∀ l rid, preserves stays_out (append_pdu (S := S) pdu json l rid)) as Happend.
  { intros l rid s. by apply stays_out_same, append_pdu_verdict. }
  unfold append_incoming_pdu, progress_state_and_extremities, derive_new_state, calculate_extremities. preserve.
Qed.

(** *** Promotion *)

Lemma upgrade_stays_out pdu json create origin rid :
  preserves stays_out (upgrade_outlier_to_timeline_pdu (S := S) fuel backoff_base backoff_limit now pdu json create origin rid).
Proof.
  destruct (decide (id = event_id pdu)) as [Hid|Hid].
  - intros s [Hr Hp]. unfold upgrade_outlier_to_timeline_pdu, gets, mbind, eff_bind. simpl.
    rewrite <-Hid, Hp, Hr. done.
  - pose proof (append_incoming_pdu_stays_out pdu) as Happend.
    unfold upgrade_outlier_to_timeline_pdu, state_before_check_5, current_state_check_6, policy_server_check_7. preserve.
Qed.
#[local] Hint Resolve upgrade_stays_out : preserves.

Lemma persist_prev_stays_out origin create rid ts mapped eid :
  preserves stays_out (persist_prev (S := S) fuel backoff_base backoff_limit now origin create rid ts mapped eid).
Proof.
  unfold persist_prev. destruct (mapped !! eid) as [obj|]; [|preserve]. intros s.
  pose proof (handle_outlier_pdu_stays_out origin create eid rid obj s) as Houtlier.
  destruct (handle_outlier_pdu _ _ _ _ _ s) as [[[pdu val]|[]] s']; simpl in *; try done.
  destruct (decide _); [|done]. etrans; [done|]. unfold ignore_err.
  pose proof (upgrade_stays_out pdu val create origin rid s') as Hupgrade.
  by destruct (upgrade_outlier_to_timeline_pdu _ _ _ _ _ _ _ _ _ _) as [[|[]] s''].
Qed.
#[local] Hint Resolve persist_prev_stays_out : preserves.

Lemma handle_incoming_pdu_stays_out origin rid eid value backfilled :
  preserves stays_out (handle_incoming_pdu (S := S) fuel backoff_base backoff_limit max_fetch_prev_events own_name now
                         origin rid eid value backfilled).
Proof.
  unfold handle_incoming_pdu, fetch_prevs, get_missing_events, fetch_prev_events. preserve.
Qed.

(** An event as it comes in. *)
Record incoming := {
  in_origin : string; in_room : RoomId; in_event : EventId; in_value : CanonicalJsonObject; in_backfilled : bool;
}.
Definition receive (s : S) (e : incoming) : S :=
  (handle_incoming_pdu fuel backoff_base backoff_limit max_fetch_prev_events own_name now
     (in_origin e) (in_room e) (in_event e) (in_value e) (in_backfilled e) s).2.

End Verdicts.

(** ** Accepted events *)

Section Accepted.
Context `{!Ruma} {S position : Type} `{!EventStore S position, !RoomServices S position, !PduOfJson}.
Context `{!HandlerLibrary, !Federation}.
Context `{!HashIter string, !HashIter (string * string), !HashIter Z, !Scheduler} (fuel : nat).
Context (backoff_base backoff_limit max_fetch_prev_events : Z) (own_name : string) (now : Z).

(** The checks from the fifth on: the event is authorised by the state before it and by the current
    state of the room; if it is a redaction, its sender may redact the event, which was accepted; and
    the policy server has nothing against it. *)
Record passed_checks (rules : VersionRules) (pdu create_event : Pdu) (rid : RoomId) (state_before : gmap Z EventId)
    (s : S) : Prop := {
  passed_state_known : state_before ≠ ∅ ∨ kind pdu = RoomCreate;
  passed_state_before : auth_check (room_rules rules) pdu None (state_lookup s state_before) create_event = Ok true;
  passed_current_state : ∃ auth, get_auth_events s rid pdu (room_rules rules) = Ok auth ∧
    auth_check (room_rules rules) pdu None (fun ty sk => auth !! (ty, sk)) create_event = Ok true;
  passed_redaction r : redacts_id pdu rules = Some r →
    user_can_redact s r (sender pdu) rid = true ∧ is_event_rejected s r = false ∧ is_event_soft_failed s r = false;
  passed_policy : ∃ json signed, policy_server_allows_event pdu json rid rules = Ok signed;
}.

Lemma authorised_Ok rules pdu create_event state b : authorised rules pdu create_event state = Ok b →
  auth_check (room_rules rules) pdu None state create_event = Ok b.
Proof. clear own_name. unfold authorised. destruct (auth_check _ _ _ _ _) as [|[]]; naive_solver. Qed.

Lemma state_before_check_spec pdu rules create_event origin s b state_before s' :
  state_before_check_5 fuel backoff_base backoff_limit now pdu rules create_event origin s = (Ok (b, state_before), s') →
  (state_before ≠ ∅ ∨ kind pdu = RoomCreate) ∧
  auth_check (room_rules rules) pdu None (state_lookup s' state_before) create_event = Ok b.
Proof.
  unfold state_before_check_5. intros Hrun. inv_run Hrun. inv_run Hrun. inv_run Hrun.
  destruct (_ && _) eqn:Hempty in Hrun; [done|]. inv_run Hrun.
  apply mret_Ok in Hrun as [[= <- <-] <-]. split; [|by apply authorised_Ok].
  apply andb_false_iff in Hempty as [He|Hk].
  - left. by apply bool_decide_eq_false in He.
  - right. apply bool_decide_eq_false in Hk. by destruct (decide (kind pdu = RoomCreate)).
Qed.

Lemma current_state_check_spec pdu rules create_event s b s' rid :
  room_id_or_hash pdu = (Ok rid : comp HandlerError RoomId) →
  current_state_check_6 pdu rules create_event s = (Ok b, s') →
  s' = s ∧ ∃ auth, get_auth_events s rid pdu (room_rules rules) = Ok auth ∧
    auth_check (room_rules rules) pdu None (fun ty sk => auth !! (ty, sk)) create_event = Ok b.
Proof.
  intros Hrid Hrun. unfold current_state_check_6 in Hrun. inv_run Hrun. rewrite Hrid in Hrun0. injection Hrun0 as <-.
  inv_run Hrun. apply pure_Ok in Hrun as [Hauth <-]. split; [done|]. eexists. split; [done|]. by apply authorised_Ok.
Qed.

Lemma policy_check_spec pdu val rules s b val' s' rid : room_id_or_hash pdu = (Ok rid : comp HandlerError RoomId) →
  policy_server_check_7 (S := S) pdu val rules s = (Ok (b, val'), s') →
  s' = s ∧ (b = true → ∃ json signed, policy_server_allows_event pdu json rid rules = Ok signed).
Proof.
  intros Hrid Hrun. unfold policy_server_check_7 in Hrun. inv_run Hrun. inv_run Hrun.
  rewrite Hrid in Hrun1. injection Hrun1 as <-.
  destruct (policy_server_allows_event _ _ _ _) as [signed|[[]| |]] eqn:Hpolicy in Hrun;
    first [apply mret_Ok in Hrun as [[= <- <-] <-]|apply pure_Ok in Hrun as [? _]]; naive_solver.
Qed.

Lemma append_soft_failed pdu val rules state s r s' :
  append_incoming_pdu (S := S) fuel pdu val rules state true s = (Ok r, s') → r = None.
Proof. unfold append_incoming_pdu. intros Hrun. inv_run Hrun. inv_run Hrun. by apply mret_Ok in Hrun as [<- _]. Qed.

Lemma soft_fail_false pdu val rules rid current s val' s' :
  room_id_or_hash pdu = (Ok rid : comp HandlerError RoomId) →
  (if negb match redacts_id pdu rules with
           | Some redacted_id => user_can_redact s redacted_id (sender pdu) rid
           | None => true
           end || negb current then mret (true, val)
   else
     '(passes, val) ← policy_server_check_7 pdu val rules;
     s ← gets id;
     mret (negb passes || match redacts_id pdu rules with
                          | Some redact_id => is_event_rejected s redact_id || is_event_soft_failed s redact_id
                          | None => false
                          end, val)) s = (Ok (false, val'), s') →
  s' = s ∧ current = true ∧
  (∀ r, redacts_id pdu rules = Some r →
    user_can_redact s r (sender pdu) rid = true ∧ is_event_rejected s r = false ∧ is_event_soft_failed s r = false) ∧
  ∃ json signed, policy_server_allows_event pdu json rid rules = Ok signed.
Proof.
  intros Hrid Hrun. destruct (_ || _) eqn:Hearly in Hrun; [by apply mret_Ok in Hrun as [? _]|].
  apply orb_false_iff in Hearly as [Hredact Hcurrent]. apply negb_false_iff in Hredact, Hcurrent.
  inv_run Hrun. destruct a as [passes val1]. destruct (policy_check_spec _ _ _ _ _ _ _ _ Hrid Hrun0) as [-> Hpolicy].
  apply mret_Ok in Hrun as [[= Hsoft <-] <-]. apply orb_false_iff in Hsoft as [Hpasses Haccepted].
  apply negb_false_iff in Hpasses. split; [done|]. split; [done|]. split; [|by apply Hpolicy].
  intros r Hr. rewrite Hr in Hredact, Haccepted. apply orb_false_iff in Haccepted as [??]. done.
Qed.

Lemma promoted_spec pdu val create_event origin rid s p s' :
  upgrade_outlier_to_timeline_pdu fuel backoff_base backoff_limit now pdu val create_event origin rid s = (Ok (Some p), s') →
  get_pdu_id s (event_id pdu) = None →
  is_event_rejected s (event_id pdu) = false ∧ is_event_soft_failed s (event_id pdu) = false ∧
  ∃ rules state_before s1 s2 val', get_room_version_rules create_event = Ok rules ∧
    passed_checks rules pdu create_event rid state_before s1 ∧
    append_incoming_pdu fuel pdu val' rules state_before false s1 = (Ok (Some p), s2).
Proof.
  unfold upgrade_outlier_to_timeline_pdu. intros Hrun Hnew.
  rewrite bind_gets_id, Hnew in Hrun.
  destruct (is_event_rejected s (event_id pdu)) eqn:Hrej; [discriminate Hrun|]. split; [done|].
  destruct (is_event_soft_failed s (event_id pdu)) eqn:Hsoft; [discriminate Hrun|]. split; [done|].
  destruct (decide (kind create_event ≠ RoomCreate)); [discriminate Hrun|]. inv_run Hrun.
  destruct (decide (a ≠ rid)) as [|Heq]; [discriminate Hrun|]. assert (a = rid) as -> by (by destruct (decide (a = rid))).
  inv_run Hrun. inv_run Hrun. destruct a0 as [before state_before].
  destruct (state_before_check_spec _ _ _ _ _ _ _ _ Hrun2) as [Hstate Hbefore].
  destruct before; [|discriminate Hrun]. cbn [negb] in Hrun. inv_run Hrun.
  destruct (current_state_check_spec _ _ _ _ _ _ _ Hrun0 Hrun3) as [-> (auth & Hauth & Hcurrent)].
  inv_run Hrun. destruct a1 as [soft val']. inv_run Hrun.
  assert (a1 = Some p) as ->. { inv_run Hrun. by apply mret_Ok in Hrun as [? _]. }
  destruct soft; [by apply append_soft_failed in Hrun5|].
  destruct (soft_fail_false pdu val a rid a0 s0 val' s1) as (-> & -> & Hredact & Hpolicy); [done..|].
  exists a, state_before, s0, s2, val'. split; [done|]. split; [|done]. split; [done|done|eauto|done|done].
Qed.

(** C17: An event that comes in and gets a place in the timeline, which it did not have, passed every
    check: its room is known, federated and has members here, its access list allows the origin; the
    event was accepted as one outside of the timeline; it was not sent before the first event that
    is kept; and, unless it was appended while events before it were fetched, it was neither rejected
    nor soft-failed, and passed the checks by the state before it, the current state, the policy
    server, and those of redactions. *)
Theorem accepted_events_passed_all_checks origin rid eid value backfilled s p s' :
  handle_incoming_pdu fuel backoff_base backoff_limit max_fetch_prev_events own_name now
    origin rid eid value backfilled s = (Ok (Some p), s') →
  get_pdu_id s eid = None →
  acl_check origin (server_acl (room_status s rid)) = Ok tt ∧ is_disabled (room_status s rid) = false ∧
  room_exists (room_status s rid) = true ∧ is_resident (room_status s rid) = true ∧ backfilled = false ∧
  ∃ create_event pdu val s1 first_ts s2,
    room_create_event (room_status s rid) = Some create_event ∧
    handle_outlier_pdu origin create_event eid rid value s = (Ok (pdu, val), s1) ∧
    first_pdu_ts (room_status s1 rid) = Some first_ts ∧ (first_ts ≤ Event.origin_server_ts pdu)%Z ∧
    fetch_prevs fuel backoff_base backoff_limit max_fetch_prev_events own_name now
      rid create_event pdu origin first_ts s1 = (Ok tt, s2) ∧
    (get_pdu_id s2 (event_id pdu) ≠ None ∨
     (is_event_rejected s2 (event_id pdu) = false ∧ is_event_soft_failed s2 (event_id pdu) = false ∧
      ∃ rules state_before s3 s4 val', get_room_version_rules create_event = Ok rules ∧
        passed_checks rules pdu create_event rid state_before s3 ∧
        append_incoming_pdu fuel pdu val' rules state_before false s3 = (Ok (Some p), s4))).
Proof.
  unfold handle_incoming_pdu. intros Hrun Hnew. rewrite bind_gets_id, Hnew in Hrun. inv_run Hrun. destruct a.
  split; [done|]. destruct (is_disabled _); [discriminate Hrun|]. split; [done|].
  destruct (room_exists _); [|discriminate Hrun]. split; [done|].
  destruct (is_resident _); [|discriminate Hrun]. split; [done|]. cbn [negb] in Hrun.
  inv_run Hrun. apply ok_or_Ok in Hrun1. inv_run Hrun. destruct a0 as [pdu val].
  destruct backfilled; [discriminate Hrun|]. split; [done|]. inv_run Hrun.
  destruct (first_pdu_ts (room_status s0 rid)) as [ts|] eqn:Hts; [|discriminate Hrun3]. injection Hrun3 as <-.
  destruct (decide _) as [|Hle]; [discriminate Hrun|]. inv_run Hrun. destruct a0.
  exists a, pdu, val, s0, ts, s1. split; [done|]. split; [done|]. split; [done|]. split; [lia|]. split; [done|].
  destruct (get_pdu_id s1 (event_id pdu)) as [q|] eqn:Hq; [by left|]. right.
  by apply (promoted_spec _ _ _ _ _ _ _ _ Hrun).
Qed.
End Accepted.
