(* ===== verification/LocalEvents.v ===== *)
(** Events this server makes: src/src/service/rooms/timeline/create.rs and build.rs, and what they
    authorise an event against, [get_auth_events] of src/src/service/rooms/state/mod.rs.

    The room's state lock is held throughout, so steps on one room do not interleave. *)

From stdpp Require Import prelude gmap strings.
From Stdlib Require Import ZArith Lia.
From Stdlib.Strings Require Import Ascii.
From S2P Require Import Prelude TopoSort Event EventAuth Effects EventStore EventChecks EventHandler.

(** What a client asks for; [sticky] is kept as it came.
    @src src/src/core/matrix/pdu/partial.rs:17-34 PartialPdu *)
Record PartialPdu `{!Ruma} := {
  event_type : string;
  pp_content : json;
  sticky : option json;
  unsigned : option (gmap string json);
  pp_state_key : option string;
  pp_redacts : option EventId;
  timestamp : option Z;
}.

(** Of ruma and serde_json. *)
Class LocalLibrary `{!Ruma} := {
  (** [serde_json::to_value] of a string. *)
  json_of_str : string → json;
  (** [utils::to_canonical_object] of a [PduEvent], its sticky and unsigned fields given beside it. *)
  to_canonical_pdu : Pdu → option json → option (gmap string json) → option CanonicalJsonObject;
  (** [RoomMemberEventContent]: the membership, and who authorised a restricted join. *)
  de_member_content : json → option (MembershipState * option UserId);
}.

(** What the services around rooms do for an event of this server. *)
Class LocalServices `{!Ruma} (S position : Type) := {
  user_is_local : UserId → bool;
  server_user : UserId;
  (** [server_keys.hash_and_sign_event]. *)
  hash_and_sign_event : CanonicalJsonObject → VersionRules → comp HandlerError CanonicalJsonObject;
  (** [policy_server_allows_event] for an event of this server: its JSON as the policy server signed it. *)
  policy_server_signs : Pdu → CanonicalJsonObject → RoomId → VersionRules → comp HandlerError CanonicalJsonObject;
  get_or_create_shorteventid : EventId → S → S;
  get_or_create_shortroomid : RoomId → S → S;
  is_admin_room : S → RoomId → bool;
  room_members : S → RoomId → list UserId;
  (** [user_can_redact] for a sender of this server. *)
  user_can_redact_local : S → EventId → UserId → RoomId → comp HandlerError bool;
  append_to_state : Pdu → RoomId → eff S HandlerError Z;
  set_room_state : RoomId → Z → S → S;
  (** [is_admin_command], then [command_with_sender]. *)
  run_admin_command : Pdu → string → eff S HandlerError unit;
  room_servers : S → RoomId → gset string;
  send_pdu_servers : gset string → position → eff S HandlerError unit;
}.

Section LocalEvents.
Context `{!Ruma} {S position : Type} `{!EventStore S position, !RoomServices S position}.
Context `{!PduOfJson, !HandlerLibrary, !Federation, !LocalLibrary, !LocalServices S position}.
Context `{!HashIter (string * string)} (own_name : string) (now : Z).

Abbreviation M A := (eff S HandlerError A).
Abbreviation res A := (comp HandlerError A).

(** ** The state an event is authorised against *)

(** @src src/src/service/rooms/state_accessor/room_state.rs:74-85 Service::room_state_get *)
Definition room_state_get (s : S) (rid : RoomId) (ty sk : string) : res Pdu :=
  shortstatehash ← ok_or_fail ENotFound (get_room_shortstatehash s rid);
  ok_or_fail ENotFound (state_lookup s (state_full_ids s shortstatehash) ty sk).

(** A [HashMap] collected from pairs: the last of a key stays. *)
Definition collect_map `{Countable K} {A} (l : list (K * A)) : gmap K A := list_to_map (reverse l).

(** An error of [auth_types_for_event] is one of the caller's. *)
Definition auth_types (kind : string) (sender : UserId) (state_key : option string) (content : json)
    (rules : VersionRules) : res (list (string * string)) :=
  match auth_types_for_event kind sender state_key content (room_rules rules) with
  | Ok types => Ok types
  | Err _ => Err (Fail EUnknown)
  end.

(** An event of the state that is not there is left out.
    @src src/src/service/rooms/state/mod.rs:447-512 Service::get_auth_events *)
Definition get_auth_events_for (s : S) (rid : RoomId) (kind : string) (sender : UserId) (state_key : option string)
    (content : json) (rules : VersionRules) : res (StateMap Pdu) :=
  match get_room_shortstatehash s rid with
  | None => Ok ∅
  | Some shortstatehash =>
      types ← auth_types kind sender state_key content rules;
      let sauthevents : gmap Z (string * string) :=
        collect_map (omap (fun '(ty, sk) => ssk ← get_shortstatekey s ty sk; Some (ssk, (ty, sk))) types) in
      Ok (collect_map (omap (fun '(ssk, eid) =>
            key ← sauthevents !! ssk; pdu ← get_pdu s eid; Some (key, pdu))
          (map_to_list (state_full_ids s shortstatehash))))
  end.

(** ** Creating *)

(** @src src/src/service/rooms/timeline/create.rs:66-80 room_version_from_event *)
Definition room_version_from_event (event_type : string) (content : json) : res (option VersionRules) :=
  if decide (event_type = RoomCreate) then ok_or_fail EBadJson (de_room_version content)
  else Err (Fail EUnknown).

(** [js_int::UInt::MAX]. *)
Definition uint_max : Z := 2 ^ 53 - 1.

(** What the event gets beside what the client gave: the event it replaces.
    @src src/src/service/rooms/timeline/create.rs:254-275 Service::create_event *)
Definition new_unsigned (s : S) (given : option (gmap string json)) (rid : option RoomId) (event_type : string)
    (state_key : option string) : option (gmap string json) :=
  let unsigned := default ∅ given in
  let unsigned :=
    match rid, state_key with
    | Some rid, Some sk =>
        match room_state_get s rid event_type sk with
        | Ok prev_pdu =>
            <["replaces_state" := json_of_str (event_id prev_pdu)]>
              (<["prev_sender" := json_of_str (sender prev_pdu)]>
                (<["prev_content" := content prev_pdu]> unsigned))
        | Err _ => unsigned
        end
    | _, _ => unsigned
    end in
  if decide (unsigned = ∅) then None else Some unsigned.

Definition placeholder : EventId := "$thiswillbefilledinlater".

(** The event, its rules and its unsigned field.
    @src src/src/service/rooms/timeline/create.rs:160-353 Service::create_event *)
Definition create_event (s : S) (partial : PartialPdu) (sender : UserId) (rid : option RoomId) :
    res (Pdu * VersionRules * option (gmap string json)) :=
  let ty := event_type partial in
  room_version ← match rid with
                 | Some rid =>
                     match get_room_version s rid with
                     | Some v => Ok v
                     | None => room_version_from_event ty (pp_content partial)
                     end
                 | None => room_version_from_event ty (pp_content partial)
                 end;
  rules ← ok_or_fail EUnsupportedRoomVersion room_version;
  let prev_events := match rid with Some rid => take 20 (get_forward_extremities s rid) | None => [] end in
  auth_events ← match rid with
                | Some rid => get_auth_events_for s rid ty sender (pp_state_key partial) (pp_content partial) rules
                | None => Ok ∅
                end;
  let depth := match rid with
               | Some _ => Z.min (foldl Z.max 0 (omap (fun eid => depth <$> get_pdu s eid) prev_events) + 1) uint_max
               | None => 1
               end%Z in
  let pdu := {| event_id := placeholder; room_id := rid; Event.sender := sender;
                origin_server_ts := default now (timestamp partial); kind := ty; content := pp_content partial;
                state_key := pp_state_key partial; Event.prev_events := prev_events; Event.depth := depth;
                Event.auth_events := event_id <$> (iter_map auth_events).*2; redacts := pp_redacts partial |} in
  room ← room_id_or_hash pdu;
  create_pdu ← (if decide (ty = RoomCreate) then Ok pdu
                else match room_state_get s room RoomCreate "" with
                     | Ok ev => Ok ev
                     | Err (Fail _) => Err (Fail EForbidden)
                     | Err e => Err e
                     end);
  allowed ← authorised rules pdu create_pdu (fun t k => auth_events !! (t, k));
  if (allowed : bool) then Ok (pdu, rules, new_unsigned s (unsigned partial) rid ty (pp_state_key partial))
  else Err (Fail EForbidden).

(** ** References, as the first room versions write them *)

(** @src src/src/service/rooms/timeline/create.rs:82-98 legacy_event_reference_id *)
Definition legacy_event_reference_id (value : CanonicalJsonValue) : res EventId :=
  let parse eid := if is_event_id eid then Ok eid else Err (Fail EBadJson) in
  match as_str value with
  | Some eid => parse eid
  | None =>
      tuple ← ok_or_fail EBadJson (as_array value);
      eid ← ok_or_fail EBadJson (head tuple ≫= as_str);
      parse eid
  end.

(** The hash is the event's identifier by hash, but for the sigil.
    @src src/src/service/rooms/timeline/create.rs:100-114 legacy_event_reference *)
Definition legacy_event_reference (s : S) (eid : EventId) (rules : VersionRules) : res CanonicalJsonValue :=
  referenced ← ok_or_fail ENotFound (get_pdu_json s eid);
  hash ← ok_or_fail EUnknown (reference_hash rules referenced);
  sha256 ← expect (strip_sigil "$" hash);
  Ok (CArray [CString eid; CObject [("sha256", CString sha256)]]).

(** @src src/src/service/rooms/timeline/create.rs:128-135 convert_reference_field_to_legacy *)
Definition convert_reference (s : S) (rules : VersionRules) (reference : CanonicalJsonValue) : res CanonicalJsonValue :=
  eid ← legacy_event_reference_id reference;
  match reference with CArray _ => Ok reference | _ => legacy_event_reference s eid rules end.

(** @src src/src/service/rooms/timeline/create.rs:116-140 convert_reference_field_to_legacy *)
Definition convert_reference_field_to_legacy (s : S) (pdu_json : CanonicalJsonObject) (rules : VersionRules)
    (field : string) : res CanonicalJsonObject :=
  references ← ok_or_fail EBadJson (pdu_json !! field ≫= as_array);
  legacy_references ← mapR (convert_reference s rules) references;
  Ok (<[field := CArray legacy_references]> pdu_json).

(** @src src/src/service/rooms/timeline/create.rs:143-156 Service::convert_to_outgoing_event_format *)
Definition convert_to_outgoing_event_format (s : S) (pdu_json : CanonicalJsonObject) (rules : VersionRules) :
    res CanonicalJsonObject :=
  if events_reference_v1 rules then
    pdu_json ← convert_reference_field_to_legacy s pdu_json rules "auth_events";
    convert_reference_field_to_legacy s pdu_json rules "prev_events"
  else Ok pdu_json.

(** ** Signing *)

(** The JSON that is signed: with a new identifier ([EventId::new_v1] is random) in the first versions, without in the others.
    @src src/src/service/rooms/timeline/create.rs:375-388 Service::create_hash_and_sign_event *)
Definition signing_json (s : S) (new_id : EventId) (pdu : Pdu) (sticky : option json) (unsigned : option (gmap string json))
    (rules : VersionRules) : res CanonicalJsonObject :=
  pdu_json ← ok_or_fail EBadJson (to_canonical_pdu pdu sticky unsigned);
  let pdu_json := if decide (event_id_format rules = IdV1) then <["event_id" := CString new_id]> pdu_json
                  else delete "event_id" pdu_json in
  convert_to_outgoing_event_format s pdu_json rules.

(** @src src/src/service/rooms/timeline/create.rs:361-464 Service::create_hash_and_sign_event *)
Definition create_hash_and_sign_event (new_id : EventId) (partial : PartialPdu) (sender : UserId) (rid : option RoomId) :
    M (Pdu * CanonicalJsonObject) :=
  if negb (user_is_local sender) then fail EForbidden
  else
    s ← gets id;
    '(pdu, rules, unsigned) ← pure (create_event s partial sender rid);
    pdu_json ← pure (signing_json s new_id pdu (sticky partial) unsigned rules);
    pdu_json ← pure match hash_and_sign_event pdu_json rules with
                    | Err (Fail e) => Err (Fail (if decide (e = ETooLarge) then ETooLarge else EUnknown))
                    | r => r
                    end;
    eid ← pure (gen_event_id pdu_json rules);
    pdu ← pure (ok_or_fail EUnknown (from_id_val eid pdu_json));
    let pdu_json := <["event_id" := CString (event_id pdu)]> pdu_json in
    if negb (pdu_fits pdu_json) then fail ETooLarge
    else
      pdu_json ← (if decide (rid = None) then mret pdu_json
                  else
                    let pdu_json := if decide (event_id_format rules = IdV1) then pdu_json
                                    else delete "event_id" pdu_json in
                    room ← pure (expect (room_id pdu));
                    pdu_json ← pure (policy_server_signs pdu pdu_json room rules);
                    mret (<["event_id" := CString (event_id pdu)]> pdu_json));
      _ ← modify (get_or_create_shorteventid (event_id pdu));
      mret (pdu, pdu_json).

(** ** Appending *)

(** Another local member of the room than [target].
    @src src/src/service/rooms/timeline/build.rs:248-256 Service::check_pdu_for_admin_room *)
Definition other_local_members (s : S) (room : RoomId) (target : UserId) : nat :=
  length (filter (fun user => user_is_local user = true ∧ user ≠ target) (room_members s room)).

(** @src src/src/service/rooms/timeline/build.rs:232-235 Service::check_pdu_for_admin_room *)
Definition admin_target (pdu : Pdu) (sender : UserId) : UserId :=
  match state_key pdu with
  | Some sk => if decide (String.get 0 sk = Some "@"%char) then sk else sender
  | None => sender
  end.

(** @src src/src/service/rooms/timeline/build.rs:221-295 Service::check_pdu_for_admin_room *)
Definition check_pdu_for_admin_room (s : S) (pdu : Pdu) (sender : UserId) : res unit :=
  if decide (kind pdu = "m.room.encryption") then Err (Fail EForbidden)
  else if decide (kind pdu = RoomMember) then
    let target := admin_target pdu sender in
    '(membership, _) ← ok_or_fail EBadJson (de_member_content (content pdu));
    room ← room_id_or_hash pdu;
    let guard_target :=
      if decide (target = server_user) then Err (Fail EForbidden)
      else if decide (other_local_members s room target < 2)%nat then Err (Fail EForbidden)
      else Ok tt in
    match membership with
    | Leave => guard_target
    | Ban => if decide (state_key pdu = None) then Ok tt else guard_target
    | _ => Ok tt
    end
  else Ok tt.

(** @src src/src/service/rooms/timeline/build.rs:46-76 Service::build_and_append_pdu *)
Definition check_redaction (s : S) (pdu : Pdu) (room : RoomId) : res unit :=
  if decide (kind pdu = RoomRedaction) then
    room_version ← ok_or_fail ENotFound (get_room_version s room);
    redact_id ← (if match room_version with Some rules => content_field_redacts rules | None => true end
                 then ok_or_fail EBadJson (de_content_redacts (content pdu))
                 else Ok (redacts pdu));
    match redact_id with
    | None => Ok tt
    | Some redact_id =>
        allowed ← user_can_redact_local s redact_id (sender pdu) room;
        if (allowed : bool) then Ok tt else Err (Fail EForbidden)
    end
  else Ok tt.

(** @src src/src/service/rooms/timeline/build.rs:78-100 Service::build_and_append_pdu *)
Definition check_restricted_join (pdu : Pdu) : res unit :=
  if decide (kind pdu = RoomMember) then
    '(membership, authorising_user) ← ok_or_fail EBadJson (de_member_content (content pdu));
    match authorising_user with
    | None => Ok tt
    | Some user =>
        if decide (membership ≠ Join) then Err (Fail EBadJson)
        else if negb (user_is_local user) then Err (Fail EInvalidParam)
        else Ok tt
    end
  else Ok tt.

(** The server of the user a membership event is about.
    @src src/src/service/rooms/timeline/build.rs:194-202 Service::build_and_append_pdu *)
Definition target_server (pdu : Pdu) : gset string :=
  if decide (kind pdu = RoomMember) then
    match state_key pdu with
    | Some sk => if is_user_id sk then {[user_server_name sk]} else ∅
    | None => ∅
    end
  else ∅.

(** Waking the clients that wait is not modelled.
    @src src/src/service/rooms/timeline/build.rs:28-216 Service::build_and_append_pdu *)
Definition build_and_append_pdu (new_id : EventId) (partial : PartialPdu) (sender : UserId) (rid : option RoomId) :
    M EventId :=
  '(pdu, pdu_json) ← create_hash_and_sign_event new_id partial sender rid;
  room ← pure (room_id_or_hash pdu);
  s ← gets id;
  _ ← pure (if is_admin_room s room then check_pdu_for_admin_room s pdu sender else Ok tt);
  _ ← pure (check_redaction s pdu room);
  _ ← pure (check_restricted_join pdu);
  _ ← (if decide (kind pdu = RoomCreate) then modify (get_or_create_shortroomid room) else mret tt);
  statehashid ← append_to_state pdu room;
  s ← gets id;
  let unreferenced := filter (fun eid => eid ∉ prev_events pdu) (get_forward_extremities s room) in
  pdu_id ← append_pdu pdu pdu_json (unreferenced ++ [event_id pdu]) room;
  _ ← (if decide (kind pdu = "m.room.message") then
         body ← pure (ok_or_fail EBadJson (de_ExtractBody (content pdu)));
         match body with Some body => run_admin_command pdu body | None => mret tt end
       else mret tt);
  _ ← modify (set_room_state room statehashid);
  s ← gets id;
  _ ← send_pdu_servers ((room_servers s room ∪ target_server pdu) ∖ {[own_name]}) pdu_id;
  mret (event_id pdu).
End LocalEvents.
