(* ===== verification/LocalEventsSpec.v ===== *)
(** What holds of the events this server makes: they are authorised by the room's state at the time,
    name exactly the events that authorise them, come after what they refer to, and take the place of
    the forward extremities they refer to. *)

From stdpp Require Import prelude gmap strings.
From Stdlib Require Import ZArith Lia.
From Stdlib.Strings Require Import Ascii.
From S2P Require Import Prelude TopoSort Event EventAuth EventAuthSpec Effects EventStore EventChecks EventHandler EventHandlerSpec LocalEvents.

(** ** What is asked of the services *)

(** Short keys name one type and state key. *)
Class KeyLaws `{!Ruma} (S position : Type) `{!RoomServices S position} : Prop := {
  shortstatekey_inj s ty sk ty' sk' k :
    get_shortstatekey s ty sk = Some k → get_shortstatekey s ty' sk' = Some k → (ty, sk) = (ty', sk');
}.

(** The identifiers a field of an event's JSON refers to, plain or as the first of a legacy tuple. *)
Definition name_of (v : CanonicalJsonValue) : option EventId :=
  match as_str v with Some s => Some s | None => first_str v end.
Definition references (j : CanonicalJsonObject) (field : string) : option (list EventId) :=
  l ← j !! field ≫= as_array; mapM (M:=option) name_of l.

Definition with_id `{!Ruma} (eid : EventId) (ev : Pdu) : Pdu :=
  {| event_id := eid; room_id := room_id ev; sender := sender ev; origin_server_ts := origin_server_ts ev;
     kind := kind ev; content := content ev; state_key := state_key ev; prev_events := prev_events ev;
     auth_events := auth_events ev; redacts := redacts ev; depth := depth ev |}.

(** Signing adds hashes and signatures.  An event that was written is read back: the JSON fields that are
    the same give the same event, with the references that the two fields name, and the identifier given.
    (Contents are JSON values, however they are laid out.) *)
Class SigningLaws `{!Ruma} (S position : Type) `{!PduOfJson, !LocalLibrary, !LocalServices S position} : Prop := {
  signing_keeps j rules j' f :
    hash_and_sign_event j rules = Ok j' → f ≠ "hashes" → f ≠ "signatures" → j' !! f = j !! f;
  written_references pdu st un j : to_canonical_pdu pdu st un = Some j →
    j !! "auth_events" = Some (CArray (CString <$> auth_events pdu)) ∧
    j !! "prev_events" = Some (CArray (CString <$> prev_events pdu));
  read_back pdu st un j j' eid p : to_canonical_pdu pdu st un = Some j →
    (∀ f, f ∉ ["event_id"; "auth_events"; "prev_events"; "hashes"; "signatures"] → j' !! f = j !! f) →
    references j' "auth_events" = Some (auth_events pdu) → references j' "prev_events" = Some (prev_events pdu) →
    j' !! "event_id" = Some (CString eid) → pdu_of_json j' = Some p → p = with_id eid pdu;
}.

(** The forward extremities of a room are a set, which only appending an event changes. *)
Class ExtremityLaws `{!Ruma} (S position : Type) `{!RoomServices S position, !LocalServices S position} : Prop := {
  extremities_NoDup s r : NoDup (get_forward_extremities s r);
  shorteventid_extremities s eid r :
    get_forward_extremities (get_or_create_shorteventid eid s) r = get_forward_extremities s r;
  shortroomid_extremities s room r :
    get_forward_extremities (get_or_create_shortroomid room s) r = get_forward_extremities s r;
  append_to_state_extremities s pdu room r :
    get_forward_extremities (append_to_state pdu room s).2 r = get_forward_extremities s r;
  append_pdu_extremities s pdu json l room n s' : append_pdu pdu json l room s = (Ok n, s') →
    ∀ x, x ∈ get_forward_extremities s' room ↔ x ∈ l;
  admin_command_extremities s pdu body r :
    get_forward_extremities (run_admin_command pdu body s).2 r = get_forward_extremities s r;
  set_room_state_extremities s room h r :
    get_forward_extremities (set_room_state room h s) r = get_forward_extremities s r;
  send_pdu_extremities s servers n r :
    get_forward_extremities (send_pdu_servers servers n s).2 r = get_forward_extremities s r;
}.

(** ** Maps collected from pairs *)

Lemma collect_map_lookup `{Countable K} {A} (l : list (K * A)) k a :
  (∀ k a b, (k, a) ∈ l → (k, b) ∈ l → a = b) →
  collect_map l !! k = Some a ↔ (k, a) ∈ l.
Proof.
  intros Hfun. unfold collect_map. split.
  - intros Hl%elem_of_list_to_map_2. by rewrite elem_of_reverse in Hl.
  - intros Hin. destruct (list_to_map (reverse l) !! k) as [b|] eqn:Hb.
    + apply elem_of_list_to_map_2 in Hb. rewrite elem_of_reverse in Hb. by rewrite (Hfun k b a).
    + apply not_elem_of_list_to_map in Hb as []. apply list_elem_of_fmap.
      exists (k, a). split; [done|]. by rewrite elem_of_reverse.
Qed.

Section AuthEvents.
Context `{!Ruma} {S position : Type} `{!EventStore S position, !RoomServices S position, !KeyLaws S position}.

(** What a room's current state has for a type and key. *)
Definition room_state_at (s : S) (rid : RoomId) (ty sk : string) : option Pdu :=
  shortstatehash ← get_room_shortstatehash s rid; state_lookup s (state_full_ids s shortstatehash) ty sk.

Lemma room_state_get_at s rid ty sk ev : room_state_get s rid ty sk = Ok ev ↔ room_state_at s rid ty sk = Some ev.
Proof.
  unfold room_state_get, room_state_at. destruct (get_room_shortstatehash s rid); simpl; [|done].
  destruct (state_lookup _ _ ty sk); simpl; naive_solver.
Qed.

(** The events given for an event's authorisation are those of the room's state that its types select. *)
Lemma get_auth_events_lookup s rid ty snd sk j rules m types k ev :
  get_auth_events_for s rid ty snd sk j rules = Ok m →
  auth_types ty snd sk j rules = Ok types →
  m !! k = Some ev ↔ k ∈ types ∧ room_state_at s rid k.1 k.2 = Some ev.
Proof.
  unfold get_auth_events_for, room_state_at. intros Hm Ht.
  destruct (get_room_shortstatehash s rid) as [h|] eqn:Hh; simpl.
  2: { simplify_eq. rewrite lookup_empty. naive_solver. }
  rewrite Ht in Hm. simplify_eq/=.
  set (keys := omap _ types).
  assert (∀ ssk key, (ssk, key) ∈ keys ↔ key ∈ types ∧ get_shortstatekey s key.1 key.2 = Some ssk) as Hkeys.
  { intros ssk key. unfold keys. rewrite list_elem_of_omap. split.
    - intros ([ty' sk'] & Hin & Hk). destruct (get_shortstatekey s ty' sk') eqn:?; simplify_eq/=. done.
    - intros [Hin Hk]. exists key. destruct key. simpl in *. by rewrite Hk. }
  assert (∀ ssk key, (collect_map keys : gmap Z (string * string)) !! ssk = Some key ↔ (ssk, key) ∈ keys) as Hmap.
  { intros ssk key. apply collect_map_lookup. intros i [a a'] [b b'] [_ Ha]%Hkeys [_ Hb]%Hkeys.
    by apply (shortstatekey_inj s a a' b b' i). }
  rewrite collect_map_lookup.
  - rewrite list_elem_of_omap. unfold state_lookup. split.
    + intros ([ssk eid] & Hin & Hk). apply elem_of_map_to_list in Hin.
      destruct (collect_map keys !! ssk) as [key|] eqn:Hkey; simpl in Hk; [|done].
      apply Hmap, Hkeys in Hkey as [Hin' Hssk].
      destruct (get_pdu s eid) eqn:?; simplify_eq/=. split; [done|]. by rewrite Hssk; simpl; rewrite Hin.
    + intros [Hin Hev]. destruct (get_shortstatekey s k.1 k.2) as [ssk|] eqn:Hssk; simpl in Hev; [|done].
      destruct (state_full_ids s h !! ssk) as [eid|] eqn:Heid; simpl in Hev; [|done].
      exists (ssk, eid). rewrite elem_of_map_to_list. split; [done|].
      rewrite (proj2 (Hmap ssk k)) by (by apply Hkeys). simpl. by rewrite Hev.
  - intros k' a b ([i ei] & Hi & Ha)%list_elem_of_omap ([i' ei'] & Hi' & Hb)%list_elem_of_omap.
    apply elem_of_map_to_list in Hi, Hi'.
    destruct (collect_map keys !! i) as [key|] eqn:Hkey; simpl in Ha; [|done].
    destruct (collect_map keys !! i') as [key'|] eqn:Hkey'; simpl in Hb; [|done].
    apply Hmap, Hkeys in Hkey as [_ Hk1], Hkey' as [_ Hk2].
    destruct (get_pdu s ei) eqn:?, (get_pdu s ei') eqn:?; simplify_eq/=. congruence.
Qed.
End AuthEvents.

(** ** Authorisation does not look at the identifier *)

Section Identifier.
Context `{!Ruma}.

(** But for redactions in the first room versions. *)
Definition reads_id (rules : RoomVersionRules) (ev : Pdu) : Prop :=
  special_case_room_redaction (authorization rules) = true ∧ kind ev = RoomRedaction.

Lemma auth_check_with_id rules eid ev tp fetch create :
  ¬ reads_id rules ev → auth_check rules (with_id eid ev) tp fetch create = auth_check rules ev tp fetch create.
Proof.
  intros Hid. unfold auth_check, auth_check_other. cbn [with_id kind].
  assert (special_case_room_redaction (authorization rules) && bool_decide (kind ev = RoomRedaction) = false) as Hno.
  { apply not_true_iff_false. rewrite andb_true_iff, bool_decide_eq_true. exact Hid. }
  rewrite Hno. destruct ev. reflexivity.
Qed.
End Identifier.

(** ** References keep their names *)

Section References.
Context `{!Ruma} {S position : Type} `{!EventStore S position, !HandlerLibrary}.

Lemma convert_reference_name s rules v v' :
  convert_reference s rules v = Ok v' → ∃ eid, name_of v = Some eid ∧ name_of v' = Some eid.
Proof.
  unfold convert_reference. intros (eid & Hid & Hv)%bind_Ok. exists eid.
  unfold legacy_event_reference_id in Hid.
  assert (∀ x, (if is_event_id x then Ok x else Err (Fail EBadJson)) = (Ok eid : comp HandlerError EventId) → x = eid) as Hp.
  { intros x. destruct (is_event_id x); naive_solver. }
  destruct v; simpl in Hid; try done.
  - apply Hp in Hid as ->. split; [done|]. unfold legacy_event_reference in Hv. inv_ok. done.
  - simplify_eq. destruct l as [|[] l]; simpl in Hid; try done. apply Hp in Hid as ->. done.
Qed.

Lemma convert_field_spec s j rules f j' :
  convert_reference_field_to_legacy s j rules f = Ok j' →
  references j' f = references j f ∧ ∀ g, g ≠ f → j' !! g = j !! g.
Proof.
  unfold convert_reference_field_to_legacy, references. intros (l & Hl & H1)%bind_Ok. inv_ok.
  destruct (j !! f ≫= as_array) as [l'|] eqn:Hj; simplify_eq/=.
  split; [|intros g Hg; by rewrite lookup_insert_ne].
  rewrite lookup_insert_eq. simpl. apply mapR_Forall2 in Ha.
  clear Hj. induction Ha as [|v v' l l' Hv Ha IH]; simpl; [done|].
  destruct (convert_reference_name _ _ _ _ Hv) as (eid & -> & ->). simpl. by rewrite IH.
Qed.

Lemma convert_to_outgoing_spec s j rules j' :
  convert_to_outgoing_event_format s j rules = Ok j' →
  references j' "auth_events" = references j "auth_events" ∧ references j' "prev_events" = references j "prev_events" ∧
  ∀ f, f ≠ "auth_events" → f ≠ "prev_events" → j' !! f = j !! f.
Proof.
  unfold convert_to_outgoing_event_format. destruct (events_reference_v1 rules); [|by intros [= ->]].
  intros (j1 & [Ha Ho]%convert_field_spec & [Hp Ho']%convert_field_spec)%bind_Ok.
  split_and!.
  - unfold references at 1. rewrite Ho' by done. exact Ha.
  - rewrite Hp. unfold references. by rewrite Ho.
  - intros f H1 H2. by rewrite Ho', Ho.
Qed.

Lemma references_plain j f l : j !! f = Some (CArray (CString <$> l)) → references j f = Some l.
Proof.
  intros Hj. unfold references. rewrite Hj. simpl. clear Hj.
  induction l as [|x l IH]; [done|]. csimpl. match goal with |- ?a ≫= _ = _ => replace a with (Some l) by (symmetry; exact IH) end. done.
Qed.
End References.

(** ** What was created *)

Section Created.
Context `{!Ruma} {S position : Type} `{!EventStore S position, !RoomServices S position, !KeyLaws S position}.
Context `{!PduOfJson, !HandlerLibrary, !Federation, !LocalLibrary, !LocalServices S position, !SigningLaws S position}.
Context `{!HashIter (string * string), !HashIterLaws (string * string)} (own_name : string) (now : Z).

(** The state [auth_events] of the room that authorises the event, and its create event. *)
Record authorised_by (s : S) (rid : option RoomId) (rules : VersionRules) (pdu : Pdu) (state : StateMap Pdu)
    (types : list (string * string)) (create : Pdu) : Prop := {
  ab_types : auth_types (kind pdu) (sender pdu) (state_key pdu) (content pdu) rules = Ok types;
  ab_state k ev : state !! k = Some ev ↔
    k ∈ types ∧ ∃ r, rid = Some r ∧ room_state_at s r k.1 k.2 = Some ev;
  ab_named : auth_events pdu ≡ₚ event_id <$> (map_to_list state).*2;
  ab_create : kind pdu ≠ RoomCreate → ∃ r, rid = Some r ∧ room_state_at s r RoomCreate "" = Some create;
  ab_check : auth_check (room_rules rules) (with_id placeholder pdu) None (fun t k => state !! (t, k)) create = Ok true;
}.

(** An event made from what a client asked for. *)
Record made_from (s : S) (partial : PartialPdu) (snd : UserId) (rid : option RoomId) (rules : VersionRules)
    (pdu : Pdu) : Prop := {
  mf_sender : sender pdu = snd;
  mf_room : room_id pdu = rid;
  mf_kind : kind pdu = event_type partial;
  mf_content : content pdu = pp_content partial;
  mf_state_key : state_key pdu = pp_state_key partial;
  mf_redacts : redacts pdu = pp_redacts partial;
  mf_ts : origin_server_ts pdu = default now (timestamp partial);
  mf_prev : prev_events pdu = match rid with Some r => take 20 (get_forward_extremities s r) | None => [] end;
  mf_depth eid prev : eid ∈ prev_events pdu → get_pdu s eid = Some prev →
    (depth prev < uint_max → depth prev < depth pdu)%Z;
  mf_authorised : ∃ state types create, authorised_by s rid rules pdu state types create;
}.

Lemma foldl_max (l : list Z) a : (a ≤ foldl Z.max a l)%Z ∧ ∀ x, x ∈ l → (x ≤ foldl Z.max a l)%Z.
Proof.
  revert a. induction l as [|y l IH]; intros a; simpl; [split; [lia|by intros x ?%not_elem_of_nil]|].
  destruct (IH (Z.max a y)) as [Hle Hin]. split; [lia|].
  intros x [->|Hx]%elem_of_cons; [lia|by apply Hin].
Qed.

(** The events an event is authorised by, when there may be no room yet. *)
Lemma auth_events_spec s rid ty snd sk j rules m :
  match rid with
  | Some r => get_auth_events_for s r ty snd sk j rules
  | None => Ok ∅
  end = Ok m →
  (ty = RoomCreate ∨ ∃ r create, rid = Some r ∧ room_state_at s r RoomCreate "" = Some create) →
  ∃ types, auth_types ty snd sk j rules = Ok types ∧
    ∀ k ev, m !! k = Some ev ↔ k ∈ types ∧ ∃ r, rid = Some r ∧ room_state_at s r k.1 k.2 = Some ev.
Proof.
  intros Hm Hc.
  assert (∃ types, auth_types ty snd sk j rules = Ok types) as [types Ht].
  { destruct Hc as [->|(r & c & -> & Hc)].
    - exists []. reflexivity.
    - unfold get_auth_events_for in Hm. unfold room_state_at in Hc.
      destruct (get_room_shortstatehash s r); simpl in *; [|done].
      destruct (auth_types _ _ _ _ _) as [types|]; [by exists types|done]. }
  exists types. split; [done|]. intros k ev. destruct rid as [r|].
  - rewrite (get_auth_events_lookup s r ty snd sk j rules m types) by done. naive_solver.
  - simplify_eq. rewrite lookup_empty. naive_solver.
Qed.

Lemma create_event_spec s partial snd rid pdu rules un :
  create_event now s partial snd rid = Ok (pdu, rules, un) →
  event_id pdu = placeholder ∧ un = new_unsigned s (unsigned partial) rid (event_type partial) (pp_state_key partial)
  ∧ made_from s partial snd rid rules pdu.
Proof.
  unfold create_event. intros (version & _ & Hrun)%bind_Ok. apply bind_Ok in Hrun as (rules' & _ & Hrun).
  apply bind_Ok in Hrun as (m & Hm & Hrun). simpl in Hrun.
  apply bind_Ok in Hrun as (room & Hroom & Hrun). apply bind_Ok in Hrun as (create & Hcreate & Hrun).
  apply bind_Ok in Hrun as (allowed & Hallowed & Hrun). destruct allowed; [|done].
  injection Hrun as <- <- <-. split_and!; [done..|].
  assert (event_type partial ≠ RoomCreate → ∃ r, rid = Some r ∧ room_state_at s r RoomCreate "" = Some create) as Hc.
  { intros Hne. rewrite decide_False in Hcreate by done. unfold room_id_or_hash in Hroom. simpl in Hroom.
    rewrite decide_True in Hroom by done. destruct rid as [r|]; [|done]. injection Hroom as <-.
    exists r. split; [done|]. apply room_state_get_at.
    by destruct (room_state_get s r RoomCreate "") as [|[]]; simplify_eq. }
  destruct (auth_events_spec s rid (event_type partial) snd (pp_state_key partial) (pp_content partial) rules' m Hm)
    as (types & Ht & Hstate).
  { destruct (decide (event_type partial = RoomCreate)) as [|Hne]; [by left|right].
    destruct (Hc Hne) as (r & ? & ?). by exists r, create. }
  split; simpl; try done.
  - intros eid prev Hin Hprev Hlt. destruct rid as [r|]; [|by apply not_elem_of_nil in Hin].
    pose proof (foldl_max (omap (fun eid => depth <$> get_pdu s eid) (take 20 (get_forward_extremities s r))) 0)
      as [_ Hle].
    specialize (Hle (depth prev)). ospecialize (Hle _); [|lia].
    apply list_elem_of_omap. exists eid. by rewrite Hprev.
  - exists m, types, create. split; simpl; [done|done| |done|].
    + by rewrite iter_map_perm.
    + by apply authorised_Ok.
Qed.

(** The event that is signed is read back as it was created. *)
Lemma signed_event s new_id pdu st un rules j j' eid p :
  signing_json s new_id pdu st un rules = Ok j →
  hash_and_sign_event j rules = Ok j' → gen_event_id j' rules = Ok eid → from_id_val eid j' = Some p →
  p = with_id eid pdu.
Proof.
  unfold signing_json, from_id_val. intros (j0 & Hj0 & Hj)%bind_Ok Hsign Hid Hp.
  assert (to_canonical_pdu pdu st un = Some j0) as Hw by (by destruct (to_canonical_pdu pdu st un); simplify_eq/=).
  set (j1 := if decide _ then _ else _) in Hj.
  assert (∀ f, f ≠ "event_id" → j1 !! f = j0 !! f) as Hj1.
  { intros f Hf. unfold j1. case_decide; [by rewrite lookup_insert_ne|by rewrite lookup_delete_ne]. }
  apply convert_to_outgoing_spec in Hj as (Ha & Hpv & Ho).
  destruct (written_references _ _ _ _ Hw) as [Hwa Hwp].
  assert (∀ f g, j1 !! f = j0 !! f → references j f = references j1 f → f ≠ "event_id" → f ≠ "hashes" →
    f ≠ "signatures" → g = <["event_id" := CString eid]> j' → references g f = references j0 f) as Hrefs.
  { intros f g H1f Hr Hf1 Hf2 Hf3 ->. unfold references at 1. rewrite lookup_insert_ne by done.
    rewrite (signing_keeps _ _ _ _ Hsign Hf2 Hf3). fold (references j f). rewrite Hr. unfold references. by rewrite H1f. }
  apply (read_back pdu st un j0 (<["event_id" := CString eid]> j') eid p Hw); [|..|done].
  - intros f Hf. rewrite !not_elem_of_cons in Hf. destruct Hf as (? & ? & ? & ? & ? & _).
    rewrite lookup_insert_ne by done. rewrite (signing_keeps _ _ _ _ Hsign) by done. rewrite Ho by done. by apply Hj1.
  - rewrite (Hrefs "auth_events" _); [by apply references_plain|by apply Hj1|done..].
  - rewrite (Hrefs "prev_events" _); [by apply references_plain|by apply Hj1|done..].
  - apply lookup_insert_eq.
Qed.

Lemma made_from_with_id s partial snd rid rules pdu eid :
  event_id pdu = placeholder → made_from s partial snd rid rules pdu → made_from s partial snd rid rules (with_id eid pdu).
Proof.
  intros Hid []. split; try done. destruct mf_authorised0 as (state & types & create & []).
  exists state, types, create. split; done.
Qed.

Lemma create_hash_and_sign_inv s new_id partial snd rid pdu json s' :
  create_hash_and_sign_event now new_id partial snd rid s = (Ok (pdu, json), s') →
  user_is_local snd = true ∧ json !! "event_id" = Some (CString (event_id pdu)) ∧
  s' = get_or_create_shorteventid (event_id pdu) s ∧
  ∃ rules un pdu0 eid, create_event now s partial snd rid = Ok (pdu0, rules, un) ∧ pdu = with_id eid pdu0.
Proof.
  unfold create_hash_and_sign_event. destruct (user_is_local snd); [|done]. cbn [negb]. intros Hrun.
  inv_run Hrun. destruct a as [[pdu0 rules] un]. inv_run Hrun. inv_run Hrun. inv_run Hrun. inv_run Hrun.
  match goal with H : ok_or_fail _ _ = Ok _ |- _ => apply ok_or_Ok in H as Hp end.
  assert (hash_and_sign_event a rules = Ok a0) as Hsign by (by destruct (hash_and_sign_event a rules) as [|[]]; simplify_eq).
  destruct (pdu_fits _); [|done]. cbn [negb] in Hrun. inv_run Hrun. apply mret_Ok in Hrun as [[= <- <-] <-].
  split; [done|]. split; [|split].
  - case_decide; [apply mret_Ok in Hrun5 as [<- _]; apply lookup_insert_eq|].
    inv_run Hrun5. inv_run Hrun5. apply mret_Ok in Hrun5 as [<- _]. apply lookup_insert_eq.
  - case_decide; [by apply mret_Ok in Hrun5 as [_ <-]|].
    inv_run Hrun5. inv_run Hrun5. by apply mret_Ok in Hrun5 as [_ <-].
  - exists rules, un, pdu0, a1. split; [done|]. by eapply signed_event.
Qed.

(** C28: An event of this server is made of what was asked for, by a user of this server; it refers to at
    most twenty of the forward extremities and comes after them; it names exactly the events that
    [auth_types_for_event] selects from the room's current state, and these authorise it (except that
    the check of redactions in the first room versions sees no identifier). *)
Theorem local_event_authorised s new_id partial snd rid pdu json s' :
  create_hash_and_sign_event now new_id partial snd rid s = (Ok (pdu, json), s') →
  user_is_local snd = true ∧ json !! "event_id" = Some (CString (event_id pdu)) ∧
  ∃ rules, made_from s partial snd rid rules pdu ∧
    (¬ reads_id (room_rules rules) pdu → ∃ state types create,
       authorised_by s rid rules pdu state types create ∧
       auth_check (room_rules rules) pdu None (fun t k => state !! (t, k)) create = Ok true).
Proof.
  intros (Hlocal & Hj & _ & rules & un & pdu0 & eid & Hc & ->)%create_hash_and_sign_inv.
  apply create_event_spec in Hc as (Hid & _ & Hmade). apply (made_from_with_id _ _ _ _ _ _ eid) in Hmade; [|done].
  split_and!; [done..|]. exists rules. split; [done|]. intros Hno.
  destruct (mf_authorised _ _ _ _ _ _ Hmade) as (state & types & create & Hby).
  exists state, types, create. split; [done|]. rewrite <-(ab_check _ _ _ _ _ _ _ Hby).
  symmetry. by apply auth_check_with_id.
Qed.

(** ** What was appended *)

Context `{!ExtremityLaws S position}.

Lemma unreferenced_spec (l : list EventId) n x : NoDup l → x ∈ filter (fun y => y ∉ take n l) l ↔ x ∈ drop n l.
Proof.
  intros Hnd. rewrite list_elem_of_filter. rewrite <-(take_drop n l) at 2.
  rewrite elem_of_app. split; [tauto|]. intros Hx. split; [|by right].
  rewrite <-(take_drop n l) in Hnd. apply NoDup_app in Hnd as (_ & Hdisj & _).
  intros Hin. by apply (Hdisj x).
Qed.

(** The admin room is not emptied, and keeps the server's user. *)
Lemma admin_room_guard s pdu snd membership auth :
  check_pdu_for_admin_room s pdu snd = Ok tt → kind pdu = RoomMember →
  de_member_content (content pdu) = Some (membership, auth) →
  membership = Leave ∨ membership = Ban ∧ state_key pdu ≠ None →
  ∃ room, room_id_or_hash (E:=HandlerError) pdu = Ok room ∧ admin_target pdu snd ≠ server_user ∧
    (2 ≤ other_local_members s room (admin_target pdu snd))%nat.
Proof.
  unfold check_pdu_for_admin_room. intros Hok Hk Hm Hleave. rewrite Hk, decide_False, decide_True in Hok by done.
  rewrite Hm in Hok. simpl in Hok. apply bind_Ok in Hok as (room & Hroom & Hok). exists room. split; [done|].
  assert ((if decide (admin_target pdu snd = server_user) then Err (Fail EForbidden)
           else if decide (other_local_members s room (admin_target pdu snd) < 2)%nat then Err (Fail EForbidden)
           else Ok tt) = (Ok tt : comp HandlerError unit)) as Hg.
  { destruct Hleave as [->|[-> Hsk]]; [done|]. by rewrite decide_False in Hok. }
  clear Hok. repeat case_decide; try done. split; [done|lia].
Qed.

Definition same_extremities (s s' : S) : Prop := ∀ r, get_forward_extremities s' r = get_forward_extremities s r.
#[local] Instance same_extremities_preorder : PreOrder same_extremities.
Proof. split; [by intros s r|]. intros s1 s2 s3 E1 E2 r. by rewrite E2, E1. Qed.

Lemma create_same_extremities s new_id partial snd rid pdu json s' :
  create_hash_and_sign_event now new_id partial snd rid s = (Ok (pdu, json), s') → same_extremities s s'.
Proof. intros (_ & _ & -> & _)%create_hash_and_sign_inv r. apply shorteventid_extremities. Qed.

(** Before the event is appended, and after. *)
Lemma shortroomid_same pdu room s x s' :
  (if decide (kind pdu = RoomCreate) then modify (get_or_create_shortroomid room) else mret () : eff S HandlerError ()) s
    = (x, s') → same_extremities s s'.
Proof. case_decide; intros [= <- <-] r; [apply shortroomid_extremities|done]. Qed.

Lemma commands_same pdu s x s' :
  (if decide (kind pdu = "m.room.message") then
     body ← pure (ok_or_fail EBadJson (de_ExtractBody (content pdu)));
     match body with Some body => run_admin_command pdu body | None => mret tt end
   else mret tt : eff S HandlerError ()) s = (x, s') → same_extremities s s'.
Proof.
  intros Hrun. change s' with (x, s').2. rewrite <-Hrun.
  assert (∀ body, preserves (E:=HandlerError) same_extremities (run_admin_command pdu body)).
  { intros body s0 r. apply admin_command_extremities. }
  match goal with |- same_extremities _ (?m s).2 => assert (preserves same_extremities m) as Hp; [preserve|apply Hp] end.
Qed.

(** C29: An event that is appended was created as above; redacting was permitted to its sender; it does
    not empty the admin room of local members; and it replaces, among the forward extremities of the
    room, the first twenty, and no other. *)
Theorem local_event_appended s new_id partial snd rid eid s' :
  build_and_append_pdu own_name now new_id partial snd rid s = (Ok eid, s') →
  ∃ pdu json s1 room, create_hash_and_sign_event now new_id partial snd rid s = (Ok (pdu, json), s1) ∧
    eid = event_id pdu ∧ room_id_or_hash (E:=HandlerError) pdu = Ok room ∧
    (∀ x, x ∈ get_forward_extremities s' room ↔
       x = eid ∨ (x ∈ get_forward_extremities s room ∧ (rid ≠ None → x ∈ drop 20 (get_forward_extremities s room)))) ∧
    check_redaction s1 pdu room = Ok tt ∧ check_restricted_join pdu = Ok tt ∧
    (is_admin_room s1 room = true → ∀ membership auth, kind pdu = RoomMember →
       de_member_content (content pdu) = Some (membership, auth) →
       membership = Leave ∨ membership = Ban ∧ state_key pdu ≠ None →
       admin_target pdu snd ≠ server_user ∧ (2 ≤ other_local_members s1 room (admin_target pdu snd))%nat).
Proof.
  unfold build_and_append_pdu. intros Hrun. inv_run Hrun. destruct a as [pdu json].
  do 9 inv_run Hrun. apply mret_Ok in Hrun as [<- <-].
  exists pdu, json, s0, a. split; [done|]. split; [done|]. split; [done|]. split.
  - pose proof (create_same_extremities _ _ _ _ _ _ _ _ Hrun0) as E0.
    apply shortroomid_same in Hrun5 as E1. apply commands_same in Hrun8 as E3.
    pose proof (append_to_state_extremities s1 pdu a a) as E2. rewrite Hrun6 in E2. simpl in E2.
    pose proof (send_pdu_extremities (set_room_state a a4 s4)
      ((room_servers (set_room_state a a4 s4) a ∪ target_server pdu) ∖ {[own_name]}) a5 a) as E4.
    rewrite Hrun9 in E4. simpl in E4. intros x.
    rewrite E4, set_room_state_extremities, E3, (append_pdu_extremities _ _ _ _ _ _ _ Hrun7 x).
    rewrite E2, E1, E0, elem_of_app, list_elem_of_singleton.
    apply create_hash_and_sign_inv in Hrun0 as (_ & _ & _ & rules & un & pdu0 & id & Hc & Hpdu).
    apply create_event_spec in Hc as (_ & _ & Hmade). subst pdu. cbn [with_id prev_events].
    pose proof (mf_prev _ _ _ _ _ _ Hmade) as Hprev. pose proof (mf_room _ _ _ _ _ _ Hmade) as Hroom.
    rewrite Hprev. destruct rid as [r|].
    + assert (a = r) as ->. { unfold room_id_or_hash in Hrun1. cbn [with_id room_id kind] in Hrun1. rewrite Hroom in Hrun1. destruct (decide (kind pdu0 ≠ RoomCreate)); by injection Hrun1. }
      rewrite unreferenced_spec by apply extremities_NoDup. split; [|naive_solver].
      intros [Hx| ->]; [right|by left]. split; [|done]. rewrite <-(take_drop 20 (get_forward_extremities s r)), elem_of_app. by right.
    + rewrite list_elem_of_filter. split; [intros [[_ Hx]| ->]; [by right|by left]|].
      intros [->|[Hx _]]; [by right|left]. split; [by apply not_elem_of_nil|done].
  - destruct a1, a2. split; [done|]. split; [done|]. intros Hadmin membership auth Hk Hm Hl. rewrite Hadmin in Hrun2.
    destruct a0. destruct (admin_room_guard s0 pdu snd membership auth Hrun2 Hk Hm Hl) as (room & Hroom & Ht & Hn).
    rewrite Hroom in Hrun1. by simplify_eq.
Qed.
End Created.
