(* ===== verification/FederationApi.v ===== *)
(** What other servers may read of a room: the requests of src/src/api/server (event.rs, state.rs,
    state_ids.rs, event_auth.rs, backfill.rs, get_missing_events.rs), the check of access in utils.rs,
    and the sanitising of events in src/src/service/sending/sender.rs.

    The requests change nothing.  [fuel] bounds the walk over missing events. *)

From stdpp Require Import prelude gmap strings.
From Stdlib Require Import ZArith Lia.
From S2P Require Import Prelude Event Effects EventStore EventChecks PduCount LocalEvents.

(** What rooms/state_accessor, rooms/state_cache and rooms/timeline answer. *)
Class RoomAccess `{!Ruma} (S : Type) := {
  is_world_readable : S → RoomId → bool;
  server_in_room : S → string → RoomId → bool;
  server_can_see_event : S → string → RoomId → EventId → bool;
  get_pdu_count : S → EventId → option Count;
  (** Backwards, from before a position; a position whose event cannot be read is an error. *)
  pdus_rev : S → RoomId → Count → list (comp HandlerError (Count * Pdu));
  (** [Pdu::redact] with the rules of the room's version; it fails for content that is not JSON. *)
  redact_pdu : VersionRules → Pdu → option Pdu;
}.

Section FederationApi.
Context `{!Ruma} {S position : Type} `{!EventStore S position, !RoomServices S position, !RoomAccess S}.
Context `{!HandlerLibrary} (own_name : string).

Abbreviation res A := (comp HandlerError A).

(** ** Events as they are sent *)

(** When one reference cannot be converted the fields before it stay converted.
    @src src/src/service/sending/sender.rs:1006-1043 Service::convert_to_outgoing_federation_event *)
Definition convert_to_outgoing_federation_event (s : S) (pdu_json : CanonicalJsonObject) : CanonicalJsonObject :=
  let pdu_json := delete "unsigned" pdu_json in
  let room_id := rid ← str_field pdu_json "room_id"; if is_room_id rid then Some rid else None in
  match room_id ≫= get_room_version s with
  | Some (Some rules) =>
      let pdu_json :=
        if events_reference_v1 rules then
          match convert_reference_field_to_legacy s pdu_json rules "auth_events" with
          | Err _ => pdu_json
          | Ok converted =>
              match convert_reference_field_to_legacy s converted rules "prev_events" with
              | Err _ => converted
              | Ok converted => converted
              end
          end
        else pdu_json in
      if decide (event_id_format rules ≠ IdV1) then delete "event_id" pdu_json else pdu_json
  | _ => delete "event_id" pdu_json
  end.

(** ** Access *)

(** @src src/src/api/server/utils.rs:20-67 AccessCheck::assert *)
Definition access_check (s : S) (origin : string) (rid : RoomId) (eid : option EventId) : res unit :=
  if negb (is_ok (acl_check origin (server_acl (room_status s rid)))) then Err (Fail EForbidden)
  else if negb (is_world_readable s rid) && negb (server_in_room s origin rid) then Err (Fail EForbidden)
  else match eid with
       | Some eid => if server_can_see_event s origin rid eid then Ok tt else Err (Fail EForbidden)
       | None => Ok tt
       end.

(** @src src/src/api/server/get_missing_events.rs:28-39 get_missing_events_route *)
Definition participating (s : S) (rid : RoomId) : res unit :=
  if server_in_room s own_name rid then Ok tt else Err (Fail ENotFound).

(** The event is in the room that access was given to.
    @src src/src/api/server/state.rs:27-36 get_room_state_route *)
Definition event_of_room (s : S) (rid : RoomId) (eid : EventId) : res unit :=
  match get_pdu s eid with
  | None => Err (Fail ENotFound)
  | Some pdu => room ← room_id_or_hash pdu; if decide (room = rid) then Ok tt else Err (Fail ENotFound)
  end.

Definition not_rejected (s : S) (eid : EventId) : res unit :=
  if is_event_rejected s eid then Err (Fail ENotFound) else Ok tt.

(** The JSON of events that have to be there. *)
Definition events_json (s : S) (ids : list EventId) : res (list CanonicalJsonObject) :=
  mapR (fun id => json ← ok_or_fail ENotFound (get_pdu_json s id); Ok (convert_to_outgoing_federation_event s json)) ids.

(** ** Single events and states *)

(** @src src/src/api/server/event.rs:14-71 get_event_route *)
Definition get_event_route (s : S) (origin : string) (eid : EventId) : res CanonicalJsonObject :=
  event ← ok_or_fail ENotFound (get_pdu_json s eid);
  _ ← not_rejected s eid;
  rid ← ok_or_fail EDatabase (str_field event "room_id");
  if negb (is_room_id rid) then Err (Fail EDatabase)
  else
    _ ← access_check s origin rid (Some eid);
    _ ← participating s rid;
    Ok (convert_to_outgoing_federation_event s event).

(** What the requests for a state at an event check first.
    @src src/src/api/server/state_ids.rs:19-66 get_room_state_ids_route *)
Definition check_state_request (s : S) (origin : string) (rid : RoomId) (eid : EventId) : res Z :=
  _ ← access_check s origin rid None;
  _ ← event_of_room s rid eid;
  _ ← not_rejected s eid;
  _ ← participating s rid;
  ok_or_fail ENotFound (pdu_shortstatehash s eid).

(** The states are sets of events; the order they are sent in does not matter.
    @src src/src/api/server/state_ids.rs:15-84 get_room_state_ids_route *)
Definition get_room_state_ids_route (s : S) (origin : string) (rid : RoomId) (eid : EventId) :
    res (gset EventId * list EventId) :=
  shortstatehash ← check_state_request s origin rid eid;
  auth_chain_ids ← (event_ids_iter rid [eid] s).1;
  Ok (auth_chain_ids, (map_to_list (state_full_ids s shortstatehash)).*2).

(** @src src/src/api/server/state.rs:14-103 get_room_state_route *)
Definition get_room_state_route (s : S) (origin : string) (rid : RoomId) (eid : EventId) :
    res (list CanonicalJsonObject * list CanonicalJsonObject) :=
  shortstatehash ← check_state_request s origin rid eid;
  pdus ← events_json s (map_to_list (state_full_ids s shortstatehash)).*2;
  auth_chain_ids ← (event_ids_iter rid [eid] s).1;
  auth_chain ← events_json s (elements (auth_chain_ids : gset EventId));
  Ok (auth_chain, pdus).

(** Events of the chain that are not there are left out.
    @src src/src/api/server/event_auth.rs:16-73 get_event_authorization_route *)
Definition get_event_authorization_route (s : S) (origin : string) (rid : RoomId) (eid : EventId) :
    res (list CanonicalJsonObject) :=
  _ ← access_check s origin rid None;
  _ ← not_rejected s eid;
  _ ← participating s rid;
  _ ← event_of_room s rid eid;
  match (event_ids_iter rid [eid] s).1 with
  | Ok auth_chain => Ok (convert_to_outgoing_federation_event s <$> omap (get_pdu_json s) (elements (auth_chain : gset EventId)))
  | Err (Fail _) => Ok []
  | Err e => Err e
  end.

(** ** Backfill *)

(** @src src/src/api/server/backfill.rs:16-16 LIMIT_MAX *)
Definition LIMIT_MAX : nat := 150.

(** The last of the positions that are known.
    @src src/src/api/server/backfill.rs:56-67 get_backfill_route *)
Definition last_position (s : S) (v : list EventId) : Count :=
  foldl (fun a b => if decide (ord_cmp a b = Gt) then a else b) count_min (omap (get_pdu_count s) v).

(** @src src/src/api/server/backfill.rs:69-75 get_backfill_route *)
Definition read_item (item : res (Count * Pdu)) : res Pdu := '(_, pdu) ← item; Ok pdu.

(** @src src/src/api/server/backfill.rs:75-82 get_backfill_route *)
Definition visibility (s : S) (origin : string) (pdu : Pdu) : res (Pdu * bool) :=
  room ← room_id_or_hash pdu;
  Ok (pdu, server_can_see_event s origin room (event_id pdu)).

(** @src src/src/api/server/backfill.rs:80-89 get_backfill_route *)
Definition visible_json (s : S) (pdus : list (Pdu * bool)) : list CanonicalJsonObject :=
  omap (fun '(pdu, can_see) => if can_see : bool then get_pdu_json s (event_id pdu) else None) pdus.

(** Of the [limit] events from the last that is asked for backwards, those the server may see.
    @src src/src/api/server/backfill.rs:24-104 get_backfill_route *)
Definition get_backfill_route (s : S) (origin : string) (rid : RoomId) (v : list EventId) (limit : nat) :
    res (list CanonicalJsonObject) :=
  _ ← access_check s origin rid None;
  _ ← participating s rid;
  pdus ← mapR read_item (take (Nat.min limit LIMIT_MAX) (pdus_rev s rid (saturating_add (last_position s v) 1)));
  visible ← mapR (visibility s origin) pdus;
  Ok (convert_to_outgoing_federation_event s <$> visible_json s visible).

(** ** Missing events *)

(** @src src/src/service/rooms/event_handler/fetch_and_handle_outliers.rs:30-30 GET_MISSING_EVENTS_MAX_BATCH_SIZE *)
Definition GET_MISSING_EVENTS_MAX_BATCH_SIZE : nat := 50.

(** An event as it is sent: redacted when the server may not see it.
    @src src/src/api/server/get_missing_events.rs:87-95 get_missing_events_route *)
Definition missing_event (s : S) (origin : string) (rid : RoomId) (rules : option VersionRules) (pdu : Pdu) : res Pdu :=
  if server_can_see_event s origin rid (event_id pdu) then Ok pdu
  else rules ← ok_or_fail EUnknown rules; ok_or_fail EBadJson (redact_pdu rules pdu).

(** The walk over previous events, breadth first; results are identified by their event.
    @src src/src/api/server/get_missing_events.rs:49-121 get_missing_events_route *)
Fixpoint missing_loop (fuel : nat) (s : S) (origin : string) (rid : RoomId) (rules : option VersionRules)
    (latest : list EventId) (limit : nat) (queue : list EventId) (seen : gset EventId)
    (results : list (EventId * CanonicalJsonObject)) : res (list (EventId * CanonicalJsonObject)) :=
  match fuel with
  | O => Err OutOfFuel
  | Datatypes.S fuel =>
      match queue with
      | [] => Ok results
      | next_event_id :: queue =>
          if decide (next_event_id ∈ seen) then missing_loop fuel s origin rid rules latest limit queue seen results
          else if decide (limit ≤ length results)%nat then Ok results
          else
            match get_pdu s next_event_id with
            | None => missing_loop fuel s origin rid rules latest limit queue seen results
            | Some pdu =>
                room ← room_id_or_hash pdu;
                if decide (room ≠ rid) then Err (Fail EUnknown)
                else if is_event_rejected s (event_id pdu)
                then missing_loop fuel s origin rid rules latest limit queue seen results
                else
                  pdu ← missing_event s origin rid rules pdu;
                  let queue := queue ++ prev_events pdu in
                  let seen := {[next_event_id]} ∪ seen in
                  if decide (next_event_id ∈ latest) then missing_loop fuel s origin rid rules latest limit queue seen results
                  else missing_loop fuel s origin rid rules latest limit queue seen
                         (results ++ [(next_event_id, convert_to_outgoing_federation_event s (to_canonical_object pdu))])
            end
      end
  end.

(** Oldest first.
    @src src/src/api/server/get_missing_events.rs:15-128 get_missing_events_route *)
Definition get_missing_events_route (fuel : nat) (s : S) (origin : string) (rid : RoomId)
    (earliest latest : list EventId) (limit : nat) : res (list (EventId * CanonicalJsonObject)) :=
  _ ← access_check s origin rid None;
  _ ← participating s rid;
  room_version ← ok_or_fail ENotFound (get_room_version s rid);
  results ← missing_loop fuel s origin rid room_version latest (Nat.min limit GET_MISSING_EVENTS_MAX_BATCH_SIZE)
              latest (list_to_set earliest) [];
  Ok (reverse results).
End FederationApi.
