(* ===== verification/FederationApiSpec.v ===== *)
(** Other servers read only what they may: every answer was checked against the access control list and
    the membership of the server, is about events of the room that were not rejected, and the walk over
    missing events ends and gives at most what was asked for. *)

From stdpp Require Import prelude gmap strings.
From Stdlib Require Import ZArith Lia.
From S2P Require Import Prelude Event Effects EventStore EventChecks PduCount LocalEvents FederationApi.

(** What redacting keeps. *)
Class RedactLaws `{!Ruma} (S : Type) `{!RoomAccess S} : Prop := {
  redact_prev_events rules pdu pdu' : redact_pdu rules pdu = Some pdu' → prev_events pdu' = prev_events pdu;
}.

Section Spec.
Context `{!Ruma} {S position : Type} `{!EventStore S position, !RoomServices S position, !RoomAccess S}.
Context `{!HandlerLibrary, !RedactLaws S} (own_name : string).

(** ** Access *)

Definition acl_allows (s : S) (origin : string) (rid : RoomId) : Prop :=
  acl_check origin (server_acl (room_status s rid)) = Ok tt.

Record may_read (s : S) (origin : string) (rid : RoomId) : Prop := {
  mr_acl : acl_allows s origin rid;
  mr_member : is_world_readable s rid = true ∨ server_in_room s origin rid = true;
  mr_resident : server_in_room s own_name rid = true;
}.

Definition in_room (s : S) (rid : RoomId) (eid : EventId) : Prop :=
  ∃ pdu, get_pdu s eid = Some pdu ∧ room_id_or_hash (E:=HandlerError) pdu = Ok rid.

Lemma access_check_Ok s origin rid eid : access_check s origin rid eid = Ok tt ↔
  acl_allows s origin rid ∧ (is_world_readable s rid = true ∨ server_in_room s origin rid = true) ∧
  match eid with Some eid => server_can_see_event s origin rid eid = true | None => True end.
Proof.
  unfold access_check, acl_allows.
  destruct (acl_check origin _) as [[]|] eqn:Ha; simpl; [|naive_solver].
  destruct (is_world_readable s rid), (server_in_room s origin rid); simpl; try naive_solver;
    destruct eid as [e|]; try destruct (server_can_see_event s origin rid e); naive_solver.
Qed.

Lemma participating_Ok s rid : participating own_name s rid = Ok tt ↔ server_in_room s own_name rid = true.
Proof. unfold participating. destruct (server_in_room s own_name rid); naive_solver. Qed.

Lemma not_rejected_Ok s eid : not_rejected s eid = Ok tt ↔ is_event_rejected s eid = false.
Proof. unfold not_rejected. destruct (is_event_rejected s eid); naive_solver. Qed.

Lemma event_of_room_Ok s rid eid : event_of_room s rid eid = Ok tt → in_room s rid eid.
Proof.
  unfold event_of_room, in_room. destruct (get_pdu s eid) as [pdu|]; [|done].
  intros (room & Hroom & Hr)%bind_Ok. case_decide; [|done]. subst. eauto.
Qed.

(** Takes an answer apart into its checks. *)
Ltac checks H := repeat (let x := fresh "x" in let Hx := fresh "Hcheck" in
  apply bind_Ok in H as (x & Hx & H); try destruct x).

Lemma check_state_request_Ok s origin rid eid h : check_state_request own_name s origin rid eid = Ok h →
  may_read s origin rid ∧ in_room s rid eid ∧ is_event_rejected s eid = false ∧ pdu_shortstatehash s eid = Some h.
Proof.
  unfold check_state_request. intros Hrun. checks Hrun.
  apply access_check_Ok in Hcheck as (? & ? & _). apply event_of_room_Ok in Hcheck0. apply not_rejected_Ok in Hcheck1.
  apply participating_Ok in Hcheck2. apply ok_or_Ok in Hrun. split_and!; [by split|done..].
Qed.

(** ** The walk over missing events *)

Section Walk.
Context (s : S) (origin : string) (rid : RoomId) (rules : option VersionRules) (latest : list EventId) (limit : nat).

(** An event that is passed on the walk, and the one before it. *)
Definition passed (eid : EventId) : Prop :=
  ∃ pdu, get_pdu s eid = Some pdu ∧ room_id_or_hash (E:=HandlerError) pdu = Ok rid ∧ is_event_rejected s (event_id pdu) = false.
Definition before (a b : EventId) : Prop := passed a ∧ ∃ pdu, get_pdu s a = Some pdu ∧ b ∈ prev_events pdu.
Definition reached (eid : EventId) : Prop := ∃ l, l ∈ latest ∧ rtc before l eid.

(** A result: an event that was passed, and is sent whole only if the server may see it. *)
Record sent (eid : EventId) (json : CanonicalJsonObject) : Prop := {
  st_passed : passed eid;
  st_reached : reached eid;
  st_other : eid ∉ latest;
  st_json : ∃ pdu pdu', get_pdu s eid = Some pdu ∧ json = convert_to_outgoing_federation_event s (to_canonical_object pdu') ∧
    (pdu' = pdu ∧ server_can_see_event s origin rid (event_id pdu) = true ∨
     server_can_see_event s origin rid (event_id pdu) = false ∧ ∃ rs, rules = Some rs ∧ redact_pdu rs pdu = Some pdu');
}.

Record walk_inv (earliest : gset EventId) (queue : list EventId) (seen : gset EventId)
    (results : list (EventId * CanonicalJsonObject)) : Prop := {
  wi_queue eid : eid ∈ queue → reached eid;
  wi_results eid json : (eid, json) ∈ results → sent eid json ∧ eid ∈ seen ∧ eid ∉ earliest;
  wi_NoDup : NoDup results.*1;
  wi_limit : (length results ≤ limit)%nat;
  wi_earliest : earliest ⊆ seen;
}.

Lemma missing_event_prev pdu pdu' : missing_event s origin rid rules pdu = Ok pdu' → prev_events pdu' = prev_events pdu.
Proof.
  unfold missing_event. destruct (server_can_see_event _ _ _ _); [by intros [= ->]|].
  intros (rs & _ & Hred)%bind_Ok. apply ok_or_Ok in Hred. by eapply redact_prev_events.
Qed.

Lemma missing_loop_sound earliest fuel queue seen results out :
  walk_inv earliest queue seen results →
  missing_loop fuel s origin rid rules latest limit queue seen results = Ok out →
  ∃ queue' seen', walk_inv earliest queue' seen' out.
Proof.
  revert queue seen results. induction fuel as [|fuel IH]; intros queue seen results Hinv Hrun; [done|].
  cbn [missing_loop] in Hrun. destruct queue as [|eid queue]; [injection Hrun as <-; eauto|].
  assert (reached eid) as Hreach by (apply Hinv; constructor).
  assert (walk_inv earliest queue seen results) as Hskip.
  { destruct Hinv. split; try done. intros x Hx. apply wi_queue0. by constructor. }
  case_decide as Hseen; [by eapply IH|]. case_decide as Hlim; [injection Hrun as <-; eauto|].
  destruct (get_pdu s eid) as [pdu|] eqn:Hpdu; [|by eapply IH].
  apply bind_Ok in Hrun as (room & Hroom & Hrun). case_decide as Hr; [done|]. subst room.
  destruct (is_event_rejected s (event_id pdu)) eqn:Hrej; [by eapply IH|].
  apply bind_Ok in Hrun as (pdu' & Hpdu' & Hrun). rewrite (missing_event_prev _ _ Hpdu') in Hrun.
  assert (passed eid) as Hpass by (by exists pdu).
  assert (∀ x, x ∈ queue ++ prev_events pdu → reached x) as Hqueue.
  { intros x [Hx|Hx]%elem_of_app; [by apply Hskip|]. destruct Hreach as (l & Hl & Hpath). exists l. split; [done|].
    eapply rtc_r; [done|]. split; [done|]. eauto. }
  destruct Hskip as [_ Hres Hnd Hlen Hear]. case_decide as Hlatest.
  - eapply IH; [|exact Hrun]. split; [done| |done|done|set_solver].
    intros x j Hxj. destruct (Hres x j Hxj) as (? & ? & ?). split_and!; [done|set_solver|done].
  - eapply IH; [|exact Hrun]. split; [done| | | |set_solver].
    + intros x j [Hxj|Hxj]%elem_of_app.
      * destruct (Hres x j Hxj) as (? & ? & ?). split_and!; [done|set_solver|done].
      * apply list_elem_of_singleton in Hxj as [= -> ->]. split; [|set_solver].
        split; [done|done|done|]. exists pdu, pdu'. split_and!; [done|done|].
        unfold missing_event in Hpdu'. destruct (server_can_see_event s origin rid (event_id pdu)); [left; by simplify_eq|right].
        apply bind_Ok in Hpdu' as (rs & Hrs%ok_or_Ok & Hred%ok_or_Ok). eauto.
    + rewrite fmap_app. apply NoDup_app. split_and!; [done| |apply NoDup_singleton].
      intros x ([x' j] & -> & Hxj)%list_elem_of_fmap Hx. simpl in Hx. apply list_elem_of_singleton in Hx. simpl in Hx. subst.
      by destruct (Hres _ _ Hxj) as (_ & ? & _).
    + rewrite length_app. simpl. lia.
Qed.

(** Every step but the last takes an event from the queue, and an event is followed once: with as much fuel as
    there are references among the events it may pass, the walk ends. *)
Definition references (eid : EventId) : nat := match get_pdu s eid with Some pdu => length (prev_events pdu) | None => 0 end.
Definition open_references (U seen : gset EventId) : nat := sum_list (references <$> elements (U ∖ seen)).

Lemma open_references_seen U seen eid : eid ∈ U → eid ∉ seen →
  open_references U seen = (references eid + open_references U ({[eid]} ∪ seen))%nat.
Proof.
  intros HU Hs. unfold open_references.
  assert (U ∖ seen = {[eid]} ∪ U ∖ ({[eid]} ∪ seen)) as ->.
  { apply set_eq. intros x. destruct (decide (x = eid)) as [->|]; set_solver. }
  rewrite (elements_union_singleton (U ∖ ({[eid]} ∪ seen)) eid) by set_solver. done.
Qed.

Lemma missing_loop_ends U fuel queue seen results :
  (∀ a b, a ∈ U → before a b → b ∈ U) → (∀ x, x ∈ queue → x ∈ U) →
  (length queue + open_references U seen < fuel)%nat →
  missing_loop fuel s origin rid rules latest limit queue seen results ≠ Err OutOfFuel.
Proof.
  intros HU. revert queue seen results. induction fuel as [|fuel IH]; intros queue seen results Hq Hf; [lia|].
  cbn [missing_loop]. destruct queue as [|eid queue]; [done|]. simpl in Hf.
  assert (∀ x, x ∈ queue → x ∈ U) as Hq' by (intros x Hx; apply Hq; by constructor).
  case_decide as Hseen; [apply IH; [done|lia]|]. case_decide as Hlim; [done|].
  destruct (get_pdu s eid) as [pdu|] eqn:Hpdu; [|apply IH; [done|lia]].
  destruct (room_id_or_hash pdu) as [room|[]] eqn:Hroom; try done; cbn [mbind result_bind].
  2: { exfalso. revert Hroom. unfold room_id_or_hash, expect, ok_or. repeat case_match; congruence. }
  case_decide as Hr; [done|]. subst room.
  destruct (is_event_rejected s (event_id pdu)) eqn:Hrej; [apply IH; [done|lia]|].
  destruct (missing_event s origin rid rules pdu) as [pdu'|e] eqn:Hpdu'.
  2: { unfold missing_event in Hpdu'. destruct (server_can_see_event _ _ _ _); [done|].
       destruct rules; simpl in Hpdu'; [|by simplify_eq]. destruct (redact_pdu _ _); simplify_eq/=; done. }
  cbn [mbind result_bind]. rewrite (missing_event_prev _ _ Hpdu').
  assert (eid ∈ U) as HeU by (apply Hq; constructor).
  assert (∀ x, x ∈ queue ++ prev_events pdu → x ∈ U) as Hq2.
  { intros x [Hx|Hx]%elem_of_app; [by apply Hq'|]. apply (HU eid); [done|]. split; [by exists pdu|eauto]. }
  rewrite (open_references_seen U seen eid) in Hf by done. unfold references in Hf. rewrite Hpdu in Hf.
  assert (length (queue ++ prev_events pdu) + open_references U ({[eid]} ∪ seen) < fuel)%nat by (rewrite length_app; lia).
  case_decide; by apply IH.
Qed.
End Walk.

(** ** The requests *)

Definition event_json (s : S) (eid : EventId) (json : CanonicalJsonObject) : Prop :=
  ∃ stored, get_pdu_json s eid = Some stored ∧ json = convert_to_outgoing_federation_event s stored.

Lemma events_json_Ok s ids l : events_json s ids = Ok l → Forall2 (event_json s) ids l.
Proof.
  unfold events_json. revert l. induction ids as [|eid ids IH]; intros l Hrun; simpl in Hrun; [by simplify_eq|].
  apply bind_Ok in Hrun as (json & Hjson & Hrun). apply bind_Ok in Hrun as (l' & Hl' & Hrun). simplify_eq.
  apply bind_Ok in Hjson as (stored & Hs%ok_or_Ok & Hjson). simplify_eq. constructor; [by exists stored|by apply IH].
Qed.

(** An event of a page that is given: one of the last [n] of the room before a position that the server may see. *)
Record in_page (s : S) (origin : string) (rid : RoomId) (v : list EventId) (n : nat) (json : CanonicalJsonObject) : Prop := {
  pg_event : ∃ count pdu room,
    Ok (count, pdu) ∈ take n (pdus_rev s rid (saturating_add (last_position s v) 1)) ∧
    room_id_or_hash (E:=HandlerError) pdu = Ok room ∧
    server_can_see_event s origin room (event_id pdu) = true ∧ event_json s (event_id pdu) json;
}.

Lemma mapR_length {A B} (f : A → comp HandlerError B) l l' : mapR f l = Ok l' → length l' = length l.
Proof.
  revert l'. induction l as [|a l IH]; intros l' Hrun; simpl in Hrun; [by simplify_eq|].
  apply bind_Ok in Hrun as (b & _ & Hrun). apply bind_Ok in Hrun as (l2 & Hl2 & Hrun). simplify_eq.
  simpl. by rewrite (IH l2).
Qed.

Lemma mapR_elem {A B} (f : A → comp HandlerError B) l l' b : mapR f l = Ok l' → b ∈ l' → ∃ a, a ∈ l ∧ f a = Ok b.
Proof.
  revert l'. induction l as [|a l IH]; intros l' Hrun Hb; simpl in Hrun; [simplify_eq; by apply not_elem_of_nil in Hb|].
  apply bind_Ok in Hrun as (b' & Hb' & Hrun). apply bind_Ok in Hrun as (l2 & Hl2 & Hrun). simplify_eq.
  apply elem_of_cons in Hb as [->|Hb]; [exists a; split; [constructor|done]|].
  destruct (IH l2 Hl2 Hb) as (a' & ? & ?). exists a'. split; [by constructor|done].
Qed.

Lemma visible_json_length s pdus : (length (visible_json s pdus) <= length pdus)%nat.
Proof.
  unfold visible_json. induction pdus as [|[pdu []] pdus IH]; simpl; [done| |by apply Nat.le_le_succ_r].
  destruct (get_pdu_json s (event_id pdu)); simpl; [by apply le_n_S|by apply Nat.le_le_succ_r].
Qed.

Lemma get_backfill_Ok s origin rid v limit l : get_backfill_route own_name s origin rid v limit = Ok l →
  may_read s origin rid ∧ (length l <= limit `min` LIMIT_MAX)%nat ∧
  ∀ json, json ∈ l → in_page s origin rid v (limit `min` LIMIT_MAX) json.
Proof.
  unfold get_backfill_route. intros Hrun. apply bind_Ok in Hrun as ([] & Hacc & Hrun). apply bind_Ok in Hrun as ([] & Hres & Hrun).
  apply bind_Ok in Hrun as (pdus & Hpdus & Hrun). apply bind_Ok in Hrun as (visible & Hvis & Hrun). simplify_eq.
  apply access_check_Ok in Hacc as (? & ? & _). apply participating_Ok in Hres. split_and!; [by split| |].
  - rewrite length_fmap. pose proof (visible_json_length s visible). apply mapR_length in Hpdus, Hvis.
    rewrite length_take in Hpdus. lia.
  - intros json (stored & -> & Hin)%list_elem_of_fmap. unfold visible_json in Hin.
    apply list_elem_of_omap in Hin as ([pdu []] & Hin & Hjson); [|done].
    destruct (mapR_elem _ _ _ _ Hvis Hin) as (pdu' & Hpage & Hsee). unfold visibility in Hsee.
    apply bind_Ok in Hsee as (room & Hroom & Hsee). injection Hsee as -> Hsee.
    destruct (mapR_elem _ _ _ _ Hpdus Hpage) as (item & Hitem & Hread). unfold read_item in Hread.
    destruct item as [[count ?]|]; [|done]. injection Hread as ->.
    split. exists count, pdu, room. split_and!; [done..|by exists stored].
Qed.

(** C31: What another server reads of a room it may read.  Whatever is answered, the access control list of
    the room allows the server, the room is world readable or the server is in it, and this server is in
    it.  A single event is stored, was not rejected, is of that room and the server may see it.  The state
    at an event, and its authorisation, are given for events of the room that were not rejected: the states
    as the stored JSON of exactly the events of the state and of the authorisation chain.  A page of the
    timeline holds only events the server may see, and no more than asked for and than [LIMIT_MAX]. *)
Theorem federation_reads_guarded (s : S) (origin : string) (rid : RoomId) (eid : EventId) (v : list EventId) (limit : nat) :
  (∀ json, get_event_route own_name s origin eid = Ok json →
     event_json s eid json ∧ is_event_rejected s eid = false ∧
     ∃ stored room, get_pdu_json s eid = Some stored ∧ str_field stored "room_id" = Some room ∧ is_room_id room = true ∧
       may_read s origin room ∧ server_can_see_event s origin room eid = true) ∧
  (∀ auth state, get_room_state_ids_route own_name s origin rid eid = Ok (auth, state) →
     may_read s origin rid ∧ in_room s rid eid ∧ is_event_rejected s eid = false ∧
     ∃ h, pdu_shortstatehash s eid = Some h ∧ (event_ids_iter rid [eid] s).1 = Ok auth ∧
       ∀ x, x ∈ state ↔ ∃ k, state_full_ids s h !! k = Some x) ∧
  (∀ auth state, get_room_state_route own_name s origin rid eid = Ok (auth, state) →
     may_read s origin rid ∧ in_room s rid eid ∧ is_event_rejected s eid = false ∧
     ∃ h auth_ids, pdu_shortstatehash s eid = Some h ∧ (event_ids_iter rid [eid] s).1 = Ok auth_ids ∧
       Forall2 (event_json s) (map_to_list (state_full_ids s h)).*2 state ∧ Forall2 (event_json s) (elements auth_ids) auth) ∧
  (∀ auth, get_event_authorization_route own_name s origin rid eid = Ok auth →
     may_read s origin rid ∧ in_room s rid eid ∧ is_event_rejected s eid = false ∧
     ∀ json, json ∈ auth → ∃ auth_ids x, (event_ids_iter rid [eid] s).1 = Ok auth_ids ∧ x ∈ auth_ids ∧ event_json s x json) ∧
  (∀ l, get_backfill_route own_name s origin rid v limit = Ok l →
     may_read s origin rid ∧ (length l <= limit `min` LIMIT_MAX)%nat ∧
     ∀ json, json ∈ l → in_page s origin rid v (limit `min` LIMIT_MAX) json).
Proof.
  split_and!; [| | | |by apply get_backfill_Ok].
  - intros json Hrun. apply bind_Ok in Hrun as (stored & Hs%ok_or_Ok & Hrun). apply bind_Ok in Hrun as ([] & Hrej%not_rejected_Ok & Hrun).
    apply bind_Ok in Hrun as (room & Hroom%ok_or_Ok & Hrun). destruct (is_room_id room) eqn:Hid; [|done]. simpl in Hrun.
    checks Hrun. apply access_check_Ok in Hcheck as (? & ? & ?). apply participating_Ok in Hcheck0. simplify_eq.
    split_and!; [by exists stored|done|]. exists stored, room. split_and!; [done..|by split|done].
  - intros auth state Hrun. apply bind_Ok in Hrun as (h & (? & ? & ? & ?)%check_state_request_Ok & Hrun).
    apply bind_Ok in Hrun as (auth' & Hauth & Hrun). injection Hrun as <- <-. split_and!; [done..|].
    exists h. split_and!; [done..|]. intros x. rewrite list_elem_of_fmap. split.
    + intros ([k y] & -> & Hin). exists k. by apply elem_of_map_to_list in Hin.
    + intros [k Hk]. exists (k, x). split; [done|]. by apply elem_of_map_to_list.
  - intros auth state Hrun. apply bind_Ok in Hrun as (h & (? & ? & ? & ?)%check_state_request_Ok & Hrun).
    apply bind_Ok in Hrun as (pdus & Hpdus%events_json_Ok & Hrun). apply bind_Ok in Hrun as (auth' & Hauth & Hrun).
    apply bind_Ok in Hrun as (l & Hl%events_json_Ok & Hrun). injection Hrun as <- <-. split_and!; [done..|]. by exists h, auth'.
  - intros auth Hrun. apply bind_Ok in Hrun as ([] & (? & ? & _)%access_check_Ok & Hrun).
    apply bind_Ok in Hrun as ([] & ?%not_rejected_Ok & Hrun). apply bind_Ok in Hrun as ([] & ?%participating_Ok & Hrun).
    apply bind_Ok in Hrun as ([] & ?%event_of_room_Ok & Hrun). split_and!; [by split|done..|]. intros json Hin.
    destruct (event_ids_iter rid [eid] s).1 as [ids|[]]; simplify_eq; [|by apply not_elem_of_nil in Hin].
    apply list_elem_of_fmap in Hin as (stored & -> & (x & Hx & Hjson)%list_elem_of_omap).
    exists ids, x. split_and!; [done| |by exists stored]. by apply elem_of_elements in Hx.
Qed.

(** C32: The events another server is missing.  The walk back from the latest events it named ends, with as
    many steps as there are latest events and references among the events before them.  Its answer is for
    a server that may read the room, has at most the asked number of events and never more than
    [GET_MISSING_EVENTS_MAX_BATCH_SIZE], none twice, none that the server said it has; each is stored, of
    the room, not rejected, reached from the latest events through such events, and is redacted unless the
    server may see it. *)
Theorem missing_events_correct (s : S) (origin : string) (rid : RoomId) (earliest latest : list EventId) (limit fuel : nat)
    (U : gset EventId) :
  (∀ a b, a ∈ U → before s rid a b → b ∈ U) → (∀ x, x ∈ latest → x ∈ U) →
  (length latest + open_references s U (list_to_set earliest) < fuel)%nat →
  let run := get_missing_events_route own_name fuel s origin rid earliest latest limit in
  run ≠ Err OutOfFuel ∧
  ∀ l, run = Ok l → may_read s origin rid ∧
    (length l <= limit `min` GET_MISSING_EVENTS_MAX_BATCH_SIZE)%nat ∧ NoDup l.*1 ∧
    ∃ rules, get_room_version s rid = Some rules ∧
      ∀ eid json, (eid, json) ∈ l → sent s origin rid rules latest eid json ∧ eid ∉ earliest.
Proof.
  intros HU Hlatest Hfuel run. unfold run, get_missing_events_route. split.
  - destruct (access_check s origin rid None) as [[]|[]] eqn:Ha; try done.
    2: { unfold access_check in Ha. repeat case_match; simplify_eq. }
    destruct (participating own_name s rid) as [[]|[]] eqn:Hp; try done.
    2: { unfold participating in Hp. repeat case_match; simplify_eq. }
    cbn [mbind result_bind]. destruct (get_room_version s rid) as [rules|]; simpl; [|done].
    pose proof (missing_loop_ends s origin rid rules latest (limit `min` GET_MISSING_EVENTS_MAX_BATCH_SIZE) U fuel latest
      (list_to_set earliest) [] HU Hlatest Hfuel) as Hends.
    destruct (missing_loop _ _ _ _ _ _ _ _ _ _) as [|[]]; simpl; congruence.
  - intros l Hrun. apply bind_Ok in Hrun as ([] & (? & ? & _)%access_check_Ok & Hrun).
    apply bind_Ok in Hrun as ([] & ?%participating_Ok & Hrun). apply bind_Ok in Hrun as (rules & Hv%ok_or_Ok & Hrun).
    apply bind_Ok in Hrun as (results & Hloop & Hrun). injection Hrun as <-.
    eapply (missing_loop_sound s origin rid rules latest _ (list_to_set earliest)) in Hloop as (queue & seen & Hinv).
    + destruct Hinv as [_ Hres Hnd Hlen _]. split_and!; [by split|by rewrite length_reverse| |].
      * rewrite fmap_reverse. by rewrite reverse_Permutation.
      * exists rules. split; [done|]. intros eid json Hin. rewrite elem_of_reverse in Hin.
        destruct (Hres _ _ Hin) as (? & _ & Hn). split; [done|]. by rewrite elem_of_list_to_set in Hn.
    + split; [|by intros ? ? ?%not_elem_of_nil|constructor|simpl; lia|done].
      intros eid Heid. exists eid. split; [done|constructor].
Qed.
End Spec.
