(* ===== verification/Joins.v ===== *)
(** How users of other servers come into a room and leave it: the requests of src/src/api/server
    (make_join.rs, make_leave.rs, make_knock.rs, send_join.rs, send_leave.rs, send_knock.rs), the checks
    they share in utils.rs, and the lists of servers in src/src/service/moderation.rs.

    A server asks for a template of a membership event, signs it and sends it back.  Locks of a room are held
    where the source holds them, so the steps of one request on a room are not interleaved with others. *)

From stdpp Require Import prelude gmap strings.
From Stdlib Require Import ZArith Lia.
From S2P Require Import Prelude TopoSort Event EventAuth StateRes Effects EventStore EventChecks EventHandler LocalEvents PduCount FederationApi.

(** ** Which servers are dealt with *)

(** The lists of the configuration; a list of patterns matches or not ([RegexSet::is_match]). *)
Record ModerationConfig := {
  server_name : string;
  allowed_remote_server_names : string → bool;
  forbidden_remote_server_names : string → bool;
  forbidden_remote_room_directory_server_names : string → bool;
  prevent_media_downloads_from : string → bool;
  ignore_messages_from_server_names : string → bool;
  (** [ServerName::host]. *)
  host : string → string;
}.

(** @src src/src/service/moderation.rs:34-45 Service::is_remote_server_ignored *)
Definition is_remote_server_ignored (config : ModerationConfig) (server : string) : bool :=
  if decide (server = server_name config) then false else ignore_messages_from_server_names config (host config server).

(** @src src/src/service/moderation.rs:51-72 Service::is_remote_server_forbidden *)
Definition is_remote_server_forbidden (config : ModerationConfig) (server : string) : bool :=
  if decide (server = server_name config) then false
  else if allowed_remote_server_names config (host config server) then false
  else forbidden_remote_server_names config (host config server).

(** @src src/src/service/moderation.rs:78-87 Service::is_remote_server_room_directory_forbidden *)
Definition is_remote_server_room_directory_forbidden (config : ModerationConfig) (server : string) : bool :=
  is_remote_server_forbidden config server || forbidden_remote_room_directory_server_names config (host config server).

(** @src src/src/service/moderation.rs:94-103 Service::is_remote_server_media_downloads_forbidden *)
Definition is_remote_server_media_downloads_forbidden (config : ModerationConfig) (server : string) : bool :=
  is_remote_server_forbidden config server || prevent_media_downloads_from config (host config server).

(** ** What is asked of libraries and other services *)

(** [AllowRule]. *)
Inductive AllowRule : Set := RoomMembership (room : RoomId) | SpamChecker | OtherAllowRule.

(** Of ruma and serde_json. *)
Class MembershipLibrary `{!Ruma} := {
  (** [RoomJoinRulesEventContent]; the rules of [Restricted] and [KnockRestricted]. *)
  de_allow : json → option (option (list AllowRule));
  (** [RoomMemberEventContent] of a membership and of who authorised it. *)
  member_content : MembershipState → option UserId → json;
  (** The same read from an event's JSON: who authorised it. *)
  de_authorising_user : CanonicalJsonValue → option (option UserId);
  restricted_join_rule : VersionRules → bool;
}.

(** The membership tables, and the spam checker: a service outside that is asked about a room and a user. *)
Class MembershipServices `{!Ruma} (S : Type) := {
  is_joined : S → UserId → RoomId → bool;
  is_invited : S → UserId → RoomId → bool;
  check_all_joins : bool;
  meowlnir_accept_make_join : RoomId → UserId → bool;
}.

Section Joins.
Context `{!Ruma} {S position : Type} `{!EventStore S position, !RoomServices S position, !RoomAccess S}.
Context `{!PduOfJson, !HandlerLibrary, !Federation, !LocalLibrary, !LocalServices S position}.
Context `{!MembershipLibrary, !MembershipServices S} (config : ModerationConfig).
Context `{!HashIter string, !HashIter (string * string), !HashIter Z, !Scheduler} (fuel : nat).
Context (backoff_base backoff_limit max_fetch_prev_events : Z) (own_name : string) (now : Z).

Abbreviation M A := (eff S HandlerError A).
Abbreviation res A := (comp HandlerError A).

(** Refuses unless a condition holds. *)
Definition ensure (b : bool) (e : HandlerError) : res unit := if b then Ok tt else Err (Fail e).

(** An error of a part becomes this one. *)
Definition map_err {A} (e : HandlerError) (r : res A) : res A := match r with Err (Fail _) => Err (Fail e) | _ => r end.

(** ** Restricted joins *)

Definition partial_member (membership : MembershipState) (authorising : option UserId) (user : UserId) : PartialPdu :=
  {| event_type := RoomMember; pp_content := member_content membership authorising; sticky := None; unsigned := None;
     pp_state_key := Some user; pp_redacts := None; timestamp := None |}.

(** @src src/src/service/rooms/state_accessor/user_can.rs:133-153 Service::user_can_invite *)
Definition user_can_invite (s : S) (rid : RoomId) (sender target : UserId) : bool :=
  is_ok (create_event now s (partial_member Invite None target) sender (Some rid)).

(** @src src/src/service/rooms/state_cache/mod.rs:235-241 Service::local_users_in_room *)
Definition local_users_in_room (s : S) (rid : RoomId) : list UserId :=
  filter (fun user => user_is_local user = true) (room_members s rid).

(** The first local member who could invite the user.
    @src src/src/api/server/make_join.rs:174-198 select_authorising_user *)
Definition select_authorising_user (s : S) (rid : RoomId) (user : UserId) : res UserId :=
  ok_or_fail EUnableToGrantJoin (head (filter (fun candidate => user_can_invite s rid candidate user = true)
                                         (local_users_in_room s rid))).

(** [could_satisfy] says whether every rule could be checked so far.
    @src src/src/api/server/make_join.rs:232-300 user_can_perform_restricted_join *)
Fixpoint check_allow_rules (s : S) (rid : RoomId) (user : UserId) (could_satisfy : bool) (allow : list AllowRule) : res bool :=
  match allow with
  | [] => if could_satisfy then Err (Fail EForbidden) else Err (Fail EUnableToAuthorizeJoin)
  | RoomMembership room :: allow =>
      if negb (server_in_room s own_name room) then check_allow_rules s rid user false allow
      else if is_joined s user room then Ok true
      else check_allow_rules s rid user could_satisfy allow
  | SpamChecker :: _ => if meowlnir_accept_make_join rid user then Ok true else Err (Fail EForbidden)
  | OtherAllowRule :: allow => check_allow_rules s rid user false allow
  end.

(** @src src/src/api/server/make_join.rs:201-301 user_can_perform_restricted_join *)
Definition user_can_perform_restricted_join (s : S) (user : UserId) (rid : RoomId) : res bool :=
  match room_state_get s rid RoomJoinRules "" with
  | Err (Fail _) => Ok false
  | Err e => Err e
  | Ok join_rules =>
      match de_allow (content join_rules) with
      | None | Some None => Ok false
      | Some (Some []) => Err (Fail EForbidden)
      | Some (Some allow) => check_allow_rules s rid user true allow
      end
  end.

(** ** Templates *)

(** What all templates ask: the room is known here and this server in it, and a server asks for a user of
    its own that the room's list lets in.
    @src src/src/api/server/make_join.rs:39-66 create_join_event_template_route *)
Definition template_allowed (s : S) (origin : string) (rid : RoomId) (user : UserId) (e : HandlerError) : res unit :=
  _ ← ensure (room_exists (room_status s rid)) ENotFound;
  _ ← participating own_name s rid;
  _ ← ensure (bool_decide (user_server_name user = origin)) e;
  acl_check origin (server_acl (room_status s rid)).

(** [new_id] is random ([EventId::new_v1]).
    @src src/src/api/server/make_join.rs:147-164 create_join_event_template_route *)
Definition template_json (s : S) (new_id : EventId) (rules : VersionRules) (pdu : Pdu) (unsigned : option (gmap string json)) :
    res CanonicalJsonObject :=
  pdu_json ← expect (to_canonical_pdu pdu None unsigned);
  pdu_json ← convert_to_outgoing_event_format s pdu_json rules;
  Ok (if decide (event_id_format rules = IdV1) then <["event_id" := CString new_id]> pdu_json
      else delete "event_id" pdu_json).

(** Who authorises a join, if anybody has to.
    @src src/src/api/server/make_join.rs:90-121 create_join_event_template_route *)
Definition authorising_user_for (s : S) (rules : VersionRules) (rid : RoomId) (user : UserId) : res (option UserId) :=
  if is_joined s user rid || is_invited s user rid then Ok None
  else if negb (restricted_join_rule rules) then Ok None
  else
    can ← user_can_perform_restricted_join s user rid;
    if (can : bool) then candidate ← select_authorising_user s rid user; Ok (Some candidate) else Ok None.

(** [ver] says whether the asking server supports the version.
    @src src/src/api/server/make_join.rs:35-171 create_join_event_template_route *)
Definition create_join_event_template_route (s : S) (new_id : EventId) (origin : string) (rid : RoomId) (user : UserId)
    (ver : VersionRules → bool) : res (VersionRules * CanonicalJsonObject) :=
  _ ← template_allowed s origin rid user EBadJson;
  _ ← ensure (negb (is_remote_server_forbidden config origin)) EForbidden;
  room_version ← ok_or_fail ENotFound (get_room_version s rid);
  rules ← expect room_version;
  _ ← ensure (ver rules) EIncompatibleRoomVersion;
  authorising ← authorising_user_for s rules rid user;
  _ ← ensure (negb (check_all_joins && bool_decide (authorising = None)) || meowlnir_accept_make_join rid user) EForbidden;
  '(pdu, _, unsigned) ← create_event now s (partial_member Join authorising user) user (Some rid);
  pdu_json ← template_json s new_id rules pdu unsigned;
  Ok (rules, pdu_json).

(** @src src/src/api/server/make_leave.rs:16-92 create_leave_event_template_route *)
Definition create_leave_event_template_route (s : S) (new_id : EventId) (origin : string) (rid : RoomId) (user : UserId) :
    res (VersionRules * CanonicalJsonObject) :=
  _ ← template_allowed s origin rid user EForbidden;
  room_version ← ok_or_fail ENotFound (get_room_version s rid);
  '(pdu, _, unsigned) ← create_event now s (partial_member Leave None user) user (Some rid);
  rules ← expect room_version;
  pdu_json ← template_json s new_id rules pdu unsigned;
  Ok (rules, pdu_json).

(** Whether the user is banned; [get_member] reads the room's state.
    @src src/src/api/server/make_knock.rs:85-99 create_knock_event_template_route *)
Definition is_banned_member (s : S) (rid : RoomId) (user : UserId) : bool :=
  match room_state_get s rid RoomMember user with
  | Ok ev => bool_decide (de_RoomMemberEventContent (content ev) = Some Ban)
  | Err _ => false
  end.

(** @src src/src/api/server/make_knock.rs:17-123 create_knock_event_template_route *)
Definition create_knock_event_template_route (s : S) (origin : string) (rid : RoomId) (user : UserId)
    (ver : VersionRules → bool) : res (VersionRules * CanonicalJsonObject) :=
  _ ← template_allowed s origin rid user EBadJson;
  _ ← ensure (negb (is_remote_server_forbidden config origin)) EForbidden;
  room_version ← ok_or_fail ENotFound (get_room_version s rid);
  rules ← expect room_version;
  _ ← ensure (knocking (authorization (room_rules rules))) EIncompatibleRoomVersion;
  _ ← ensure (ver rules) EIncompatibleRoomVersion;
  _ ← ensure (negb (is_banned_member s rid user)) EForbidden;
  '(pdu, _, unsigned) ← create_event now s (partial_member Knock None user) user (Some rid);
  pdu_json ← expect (to_canonical_pdu pdu None unsigned);
  Ok (rules, delete "event_id" pdu_json).

(** ** Signed membership events *)

Definition content_of (pdu : CanonicalJsonObject) : option CanonicalJsonObject := pdu !! "content" ≫= as_object.

Definition user_field (pdu : CanonicalJsonObject) (field : string) : option UserId :=
  user ← str_field pdu field; if is_user_id user then Some user else None.

(** A restricted join that a user of this server authorises is signed by this server as well.
    @src src/src/api/server/utils.rs:112-142 validate_any_membership_event *)
Definition cosign (pdu : CanonicalJsonObject) (rules : VersionRules) : res CanonicalJsonObject :=
  let membership_is_join := bool_decide ((content_of pdu ≫= (fun c => str_field c "membership")) = Some "join") in
  let authorising_user := content_of pdu ≫= (fun c => user_field c "join_authorised_via_users_server") in
  match authorising_user with
  | Some user =>
      if restricted_join_rule rules && membership_is_join && user_is_local user
      then map_err EInvalidParam (hash_and_sign_event pdu rules)
      else Ok pdu
  | None => Ok pdu
  end.

(** The membership is as it is written.
    @src src/src/api/server/utils.rs:86-199 validate_any_membership_event *)
Definition validate_any_membership_event (s : S) (body : string) (rules : VersionRules) (create_event_id : EventId)
    (expected_room_id : RoomId) (expected_event_id : EventId) : res (CanonicalJsonObject * string * UserId * UserId) :=
  '(template_room_id, template_event_id, pdu) ← map_err EBadJson (parse_incoming_pdu (get_room_version s) body (Some rules));
  _ ← ensure (bool_decide (template_room_id = expected_room_id)) EInvalidParam;
  _ ← ensure (bool_decide (template_event_id = expected_event_id)) EInvalidParam;
  pdu ← cosign pdu rules;
  _ ← ok_or_fail EInvalidParam (verify_event_json pdu rules);
  ty ← expect (str_field pdu "type");
  _ ← ensure (bool_decide (ty = "m.room.member")) EBadJson;
  content ← ok_or_fail EBadJson (content_of pdu);
  membership ← ok_or_fail EBadJson (str_field content "membership");
  sender_user ← ok_or_fail EInvalidParam (user_field pdu "sender");
  recipient_user ← ok_or_fail EInvalidParam (user_field pdu "state_key");
  _ ← map_err EInvalidParam (pdu_format_check_1 pdu rules create_event_id);
  Ok (pdu, membership, sender_user, recipient_user).

(** What a server sends for a user of its own.
    @src src/src/api/server/send_leave.rs:44-69 create_leave_event_v2_route *)
Definition validate_own_membership (s : S) (origin : string) (body : string) (rid : RoomId) (eid : EventId) (wanted : string)
    (allowed : VersionRules → res unit) : res (VersionRules * CanonicalJsonObject * UserId) :=
  room_version ← ok_or_fail ENotFound (get_room_version s rid);
  create_event ← expect (room_create_event (room_status s rid));
  rules ← expect room_version;
  _ ← allowed rules;
  '(value, membership, sender, target) ← validate_any_membership_event s body rules (event_id create_event) rid eid;
  _ ← ensure (bool_decide (membership = wanted)) EInvalidParam;
  _ ← ensure (bool_decide (user_server_name sender = origin)) EInvalidParam;
  _ ← ensure (bool_decide (sender = target)) EInvalidParam;
  Ok (rules, value, sender).

(** @src src/src/service/sending/mod.rs:190-198 Service::send_pdu_room *)
Definition send_pdu_room (rid : RoomId) (pdu_id : position) : M unit :=
  s ← gets id;
  send_pdu_servers (room_servers s rid ∖ {[own_name]}) pdu_id.

Definition handle (origin : string) (rid : RoomId) (eid : EventId) (value : CanonicalJsonObject) : M position :=
  pdu_id ← handle_incoming_pdu fuel backoff_base backoff_limit max_fetch_prev_events own_name now origin rid eid value false;
  pure (ok_or_fail EInvalidParam pdu_id).

(** @src src/src/api/server/send_leave.rs:13-95 create_leave_event_v2_route *)
Definition create_leave_event_v2_route (origin : string) (rid : RoomId) (eid : EventId) (body : string) : M unit :=
  s ← gets id;
  _ ← pure (ensure (room_exists (room_status s rid)) ENotFound);
  _ ← pure (participating own_name s rid);
  _ ← pure (acl_check origin (server_acl (room_status s rid)));
  '(_, value, _) ← pure (validate_own_membership s origin body rid eid "leave" (fun _ => Ok tt));
  pdu_id ← handle origin rid eid value;
  send_pdu_room rid pdu_id.

(** The state that somebody outside is shown: a few events of it, the given event in the place of its own.
    @src src/src/service/rooms/state/mod.rs:307-366 Service::summary_stripped *)
Definition summary_stripped (s : S) (event : Pdu) (rid : RoomId) (target : UserId) : list CanonicalJsonObject :=
  let state_events :=
    [(RoomCreate, ""); (RoomJoinRules, ""); ("m.room.canonical_alias", ""); ("m.room.name", ""); ("m.room.avatar", "");
     (RoomMember, sender event); ("m.room.encryption", ""); ("m.room.topic", "")]
    ++ (if decide (target = sender event) then [] else [(RoomMember, target)]) in
  omap (fun '(ty, sk) =>
    ev ← (if decide (kind event = ty ∧ state_key event = Some sk) then Some event
          else ok (room_state_get s rid ty sk));
    Some (convert_to_outgoing_federation_event s (to_canonical_object ev))) state_events.

(** @src src/src/api/server/send_knock.rs:13-120 create_knock_event_v1_route *)
Definition create_knock_event_v1_route (origin : string) (rid : RoomId) (eid : EventId) (body : string) :
    M (list CanonicalJsonObject) :=
  _ ← pure (ensure (negb (is_remote_server_forbidden config origin)) EForbidden);
  s ← gets id;
  _ ← pure (ensure (room_exists (room_status s rid)) ENotFound);
  _ ← pure (participating own_name s rid);
  _ ← pure (acl_check origin (server_acl (room_status s rid)));
  '(_, value, sender) ← pure (validate_own_membership s origin body rid eid "knock"
                                (fun rules => ensure (knocking (authorization (room_rules rules))) EForbidden));
  let event := <["event_id" := CString eid]> value in
  pdu ← pure (ok_or_fail EInvalidParam (from_id_val eid event));
  pdu_id ← handle (user_server_name sender) rid eid event;
  _ ← send_pdu_room rid pdu_id;
  gets (fun s => summary_stripped s pdu rid sender).

(** What a server that joins is told. *)
Record RoomStateResponse := {
  auth_chain : list CanonicalJsonObject;
  state : list CanonicalJsonObject;
  event : CanonicalJsonObject;
  members_omitted : bool;
  servers_in_room : option (list string);
}.

(** A join that a user authorises: of this server, joined, and for who may join by the room's rules.
    @src src/src/api/server/send_join.rs:77-123 create_join_event *)
Definition check_authorising_user (s : S) (rid : RoomId) (rules : VersionRules) (sender : UserId) (pdu : CanonicalJsonObject) :
    res CanonicalJsonObject :=
  content ← ok_or_fail EBadJson (pdu !! "content");
  authorising ← ok_or_fail EBadJson (de_authorising_user content);
  match authorising with
  | None => Ok pdu
  | Some user =>
      _ ← ensure (restricted_join_rule rules) EInvalidParam;
      _ ← ensure (user_is_local user) EInvalidParam;
      _ ← ensure (is_joined s user rid) EInvalidParam;
      can ← user_can_perform_restricted_join s sender rid;
      _ ← ensure can EUnableToAuthorizeJoin;
      map_err EInvalidParam (hash_and_sign_event pdu rules)
  end.

(** The state before the join, without the members if asked.
    @src src/src/api/server/send_join.rs:143-175 create_join_event *)
Definition state_before_join (s : S) (shortstatehash : Z) (omit_members : bool) : list EventId :=
  filter (fun eid => negb (omit_members && match get_pdu s eid with
                                           | Some pdu => bool_decide (kind pdu = RoomMember)
                                           | None => false
                                           end) = true)
    (map_to_list (state_full_ids s shortstatehash)).*2.

(** @src src/src/api/server/send_join.rs:28-227 create_join_event *)
Definition create_join_event (origin : string) (rid : RoomId) (eid : EventId) (rules : VersionRules)
    (pdu : CanonicalJsonObject) (omit_members : bool) : M RoomStateResponse :=
  s ← gets id;
  _ ← pure (ensure (room_exists (room_status s rid)) ENotFound);
  _ ← pure (participating own_name s rid);
  _ ← pure (acl_check origin (server_acl (room_status s rid)));
  shortstatehash ← pure (ok_or_fail ENotFound (get_room_shortstatehash s rid));
  sender ← pure (expect (user_field pdu "sender"));
  pdu ← pure (check_authorising_user s rid rules sender pdu);
  pdu_id ← handle (user_server_name sender) rid eid pdu;
  s ← gets id;
  state ← pure (events_json s (state_before_join s shortstatehash omit_members));
  auth_chain_ids ← event_ids_iter rid (map_to_list (state_full_ids s shortstatehash)).*2;
  s ← gets id;
  auth_chain ← pure (events_json s (elements (auth_chain_ids : gset EventId)));
  _ ← send_pdu_room rid pdu_id;
  s ← gets id;
  let servers := elements (room_servers s rid) in
  mret {| auth_chain := auth_chain; state := state; event := pdu; members_omitted := omit_members;
          servers_in_room := if omit_members then Some (if decide (servers = []) then [own_name] else servers) else None |}.

(** @src src/src/api/server/send_join.rs:232-290 create_join_event_v2_route *)
Definition create_join_event_v2_route (origin : string) (rid : RoomId) (eid : EventId) (body : string) (omit_members : bool) :
    M RoomStateResponse :=
  _ ← pure (ensure (negb (is_remote_server_forbidden config origin)) EForbidden);
  s ← gets id;
  '(rules, value, _) ← pure (validate_own_membership s origin body rid eid "join" (fun _ => Ok tt));
  create_join_event origin rid eid rules value omit_members.
End Joins.
