(* ===== verification/RequestAuth.v ===== *)
(** Who a request comes from: src/src/api/router/auth.rs, with the application services that may ask
    (src/src/service/appservice).  Servers sign their requests; clients have an access token of a device,
    application services one of their own, with which they act as users of their namespaces. *)

From stdpp Require Import prelude gmap strings.
From Stdlib Require Import ZArith Lia.
From S2P Require Import Prelude Effects Bytes DbSer Database Scans Json Host UserKeys Devices UsersExample DevicesSpec Accounts OAuthSpec Event EventStore EventChecks PduCount FederationApi LocalEvents Joins ServerKeys.

(** ** Application services *)

(** Patterns of a namespace, if there are any. *)
Record NamespaceRegex := { exclusive : option (bytes → bool); non_exclusive : option (bytes → bool) }.
Record Registration := { as_id : bytes; as_token : bytes; sender_localpart : bytes }.
Record RegistrationInfo := { registration : Registration; users : NamespaceRegex; aliases : NamespaceRegex; rooms : NamespaceRegex }.

(** @src src/src/service/appservice/namespace_regex.rs:32-39 NamespaceRegex::is_exclusive_match *)
Definition is_exclusive_match (n : NamespaceRegex) (heystack : bytes) : bool :=
  match exclusive n with Some matches => matches heystack | None => false end.
(** @src src/src/service/appservice/namespace_regex.rs:16-27 NamespaceRegex::is_match *)
Definition is_match (n : NamespaceRegex) (heystack : bytes) : bool :=
  if is_exclusive_match n heystack then true
  else match non_exclusive n with Some matches => matches heystack | None => false end.

(** Of ruma: user identifiers. *)
Class UserIds := {
  parse_user_id : bytes → option bytes;
  parse_with_server_name : bytes → string → option bytes;
  localpart : bytes → bytes;
}.

Section Appservices.
Context `{!UserIds}.

(** @src src/src/service/appservice/registration_info.rs:16-20 RegistrationInfo::is_user_match *)
Definition is_user_match (info : RegistrationInfo) (user_id : bytes) : bool :=
  is_match (users info) user_id || bool_decide (sender_localpart (registration info) = localpart user_id).
(** @src src/src/service/appservice/registration_info.rs:22-27 RegistrationInfo::is_exclusive_user_match *)
Definition is_exclusive_user_match (info : RegistrationInfo) (user_id : bytes) : bool :=
  is_exclusive_match (users info) user_id || bool_decide (sender_localpart (registration info) = localpart user_id).

(** The registrations that run, by their identifier. *)
Abbreviation Registrations := (list (bytes * RegistrationInfo)).

(** @src src/src/service/appservice/mod.rs:240-247 Service::find_from_token *)
Definition find_appservice (regs : Registrations) (token : bytes) : option RegistrationInfo :=
  snd <$> list_find (fun info => as_token (registration info) = token) regs.*2.

(** @src src/src/service/appservice/mod.rs:250-255 Service::is_exclusive_user_id *)
Definition is_exclusive_user_id (regs : Registrations) (user_id : bytes) : bool :=
  existsb (fun '(_, info) => is_exclusive_user_match info user_id) regs.
(** @src src/src/service/appservice/mod.rs:259-264 Service::is_user_id *)
Definition is_user_id (regs : Registrations) (user_id : bytes) : bool :=
  existsb (fun '(_, info) => is_user_match info user_id) regs.
(** @src src/src/service/appservice/mod.rs:267-272 Service::is_exclusive_alias *)
Definition is_exclusive_alias (regs : Registrations) (alias : bytes) : bool :=
  existsb (fun '(_, info) => is_exclusive_match (aliases info) alias) regs.
End Appservices.
Abbreviation Registrations := (list (bytes * RegistrationInfo)).

(** ** Identities *)

(** @src src/src/api/router/auth.rs:30-40 ClientIdentity *)
Inductive ClientIdentity :=
| User (sender_user sender_device : bytes)
| Appservice (sender_user : bytes) (sender_device : option bytes) (appservice_info : RegistrationInfo).

Inductive AuthError : Set :=
| Unauthorized | UnknownToken (soft_logout : bool) | UserLocked | InvalidUsername | Exclusive | AForbidden.

(** @src src/src/api/router/auth.rs:43-48 ClientIdentity::sender_user *)
Definition sender_user (i : ClientIdentity) : bytes := match i with User u _ | Appservice u _ _ => u end.
(** @src src/src/api/router/auth.rs:57-62 ClientIdentity::sender_device *)
Definition sender_device (i : ClientIdentity) : option bytes := match i with User _ d => Some d | Appservice _ d _ => d end.
(** @src src/src/api/router/auth.rs:64-71 ClientIdentity::expect_sender_device *)
Definition expect_sender_device (i : ClientIdentity) : comp AuthError bytes := ok_or_fail AForbidden (sender_device i).

(** The routes that are told apart. *)
Inductive Route : Set := Logout | LogoutAll | ProfileRead | OtherRoute.
#[export] Instance Route_eq_dec : EqDecision Route.
Proof. solve_decision. Defined.

Record AuthQueryParams := { q_user_id : option bytes; q_device_id : option bytes; q_legacy_device_id : option bytes }.

(** What a server says of its request ([XMatrix]). *)
Record XMatrix := { x_origin : string; x_destination : option string; x_key : string }.

(** Of ruma and http: what the headers of a request say (an error when they cannot be read), and whether a
    request was signed with the keys. *)
Class Http (request : Type) := {
  extract_signatures : request → option XMatrix;
  extract_token : request → option (option bytes);
  verify_http_request : XMatrix → request → string → PubKeyMap → bool;
}.

Section Authenticate.
Context `{!Parsers, !Rooms, !UserKeys.KeyLibrary, !Server, !Json Device, !Json DehydratedDevice, !Json SessionInfo,
  !Json RefreshTokenInfo, !Json UserSuspension}.
Context `{!UserIds} {request : Type} `{!Http request, !KeyVerification, !KeyNetwork}.
Context (config : ModerationConfig) (own_name : string) (require_auth_for_profile_requests : bool) (now : Z).

Abbreviation res A := (comp AuthError A).

(** An error of the database is not one here. *)
Definition no_db_error {A} (r : comp db_error A) : res A :=
  match r with Ok a => Ok a | Err OutOfFuel => Err OutOfFuel | Err _ => Err Panicked end.

(** Milliseconds. *)
Definition now_ms : Z := (now / 1000000)%Z.

(** Waking the queue of a server that is back is not modelled.
    @src src/src/api/router/auth.rs:121-183 ServerSignatures::verify *)
Definition verify_server (d : KeyStore) (req : request) (output : XMatrix) : res string * KeyStore :=
  if match x_destination output with Some supplied => bool_decide (supplied ≠ own_name) | None => false end
  then (Err (Fail Unauthorized), d)
  else
    let min_valid_ts := Z.min now_ms max_ts in
    let '(key, d) := get_single_verify_key now_ms (x_origin output) (x_key output) min_valid_ts d in
    match key with
    | None => (Err (Fail Unauthorized), d)
    | Some key =>
        let keys : PubKeyMap := {[x_origin output := {[x_key output := key]}]} in
        if verify_http_request output req own_name keys then
          (if is_remote_server_forbidden config (x_origin output) then Err (Fail AForbidden) else Ok (x_origin output), d)
        else (Err (Fail Unauthorized), d)
    end.

(** [Ok(true)] of the lock's table, where any error counts as not locked. *)
Definition is_locked_user (d : Db) (user : bytes) : res bool :=
  match is_locked d user with Ok b => Ok b | Err (Fail _) => Ok false | Err Panicked => Err Panicked | Err OutOfFuel => Err OutOfFuel end.

(** Whom an application service acts as.
    @src src/src/api/router/auth.rs:228-271 AccessToken::verify *)
Definition verify_appservice (d : Db) (info : RegistrationInfo) (query : AuthQueryParams) : res ClientIdentity :=
  sender_user ← ok_or_fail InvalidUsername
    match q_user_id query with
    | None => parse_with_server_name (sender_localpart (registration info)) own_name
    | Some user_id => parse_user_id user_id
    end;
  if negb (is_user_match info sender_user) then Err (Fail Exclusive)
  else
    match (match q_device_id query with Some dv => Some dv | None => q_legacy_device_id query end) with
    | Some device_id =>
        match get_device_metadata d sender_user device_id with
        | Ok _ => Ok (Appservice sender_user (Some device_id) info)
        | Err (Fail _) => Err (Fail AForbidden)
        | Err Panicked => Err Panicked
        | Err OutOfFuel => Err OutOfFuel
        end
    | None => Ok (Appservice sender_user None info)
    end.

(** @src src/src/api/router/auth.rs:189-280 AccessToken::verify *)
Definition verify_access_token (d : Db) (regs : Registrations) (output : bytes) (query : AuthQueryParams) (route : Route) :
    res ClientIdentity :=
  if decide (output = []) then Err (Fail Unauthorized)
  else
    found ← no_db_error (find_from_token now d output);
    match found with
    | Some (sender_user, sender_device, status) =>
        match status with
        | Expired => Err (Fail (UnknownToken true))
        | Valid =>
            locked ← is_locked_user d sender_user;
            if locked && negb (bool_decide (route = Logout ∨ route = LogoutAll)) then Err (Fail UserLocked)
            else Ok (User sender_user sender_device)
        end
    | None =>
        match find_appservice regs output with
        | Some info => verify_appservice d info query
        | None => Err (Fail (UnknownToken false))
        end
    end.

(** @src src/src/api/router/auth.rs:286-300 AccessTokenOptional::verify *)
Definition verify_access_token_optional (d : Db) (regs : Registrations) (output : option bytes) (query : AuthQueryParams)
    (route : Route) : res (option ClientIdentity) :=
  match output with
  | Some token => i ← verify_access_token d regs token query route; Ok (Some i)
  | None => Ok None
  end.

(** @src src/src/api/router/auth.rs:306-321 AppserviceToken::verify *)
Definition verify_appservice_token (regs : Registrations) (output : bytes) : res RegistrationInfo :=
  if decide (output = []) then Err (Fail Unauthorized) else ok_or_fail Unauthorized (find_appservice regs output).

(** @src src/src/api/router/auth.rs:358-384 NoAccessToken::verify *)
Definition verify_no_access_token (d : Db) (regs : Registrations) (req : request) (query : AuthQueryParams) (route : Route) :
    res (option ClientIdentity) :=
  token ← ok_or_fail Unauthorized (extract_token req);
  if bool_decide (route = ProfileRead) && require_auth_for_profile_requests && bool_decide (token = None)
  then Err (Fail Unauthorized)
  else verify_access_token_optional d regs token query route.

(** What a route asks for is read from the request first.
    @src src/src/api/router/auth.rs:85-102 CheckAuth::authenticate *)
Definition authenticate_server (d : KeyStore) (req : request) : res string * KeyStore :=
  match extract_signatures req with
  | Some output => verify_server d req output
  | None => (Err (Fail Unauthorized), d)
  end.
(** @src src/src/api/router/auth.rs:85-102 CheckAuth::authenticate *)
Definition authenticate_client (d : Db) (regs : Registrations) (req : request) (query : AuthQueryParams) (route : Route) :
    res ClientIdentity :=
  output ← ok_or_fail Unauthorized (mjoin (extract_token req));
  verify_access_token d regs output query route.
End Authenticate.

(** ** Who is let in *)

Section Authenticated.
Context `{!Parsers, !Rooms, !UserKeys.KeyLibrary, !Server, !Json Device, !Json DehydratedDevice, !Json SessionInfo,
  !Json RefreshTokenInfo, !Json UserSuspension, !JsonLaws Device, !JsonLaws DehydratedDevice, !JsonLaws SessionInfo,
  !JsonLaws RefreshTokenInfo}.
Context `{!UserIds} {request : Type} `{!Http request, !KeyVerification, !KeyNetwork}.
Context (config : ModerationConfig) (own_name : string) (require_auth_for_profile_requests : bool) (now : Z).

(** A request of a server: meant for this one, and signed with a key of that server that is valid now. *)
Record server_authenticated (req : request) (output : XMatrix) (origin : string) : Prop := {
  sa_origin : x_origin output = origin;
  sa_destination : x_destination output = None ∨ x_destination output = Some own_name;
  sa_signed : ∃ key, usable (now_ms now) origin (x_key output) key (Z.min (now_ms now) max_ts) ∧
    verify_http_request output req own_name {[origin := {[x_key output := key]}]} = true;
  sa_allowed : is_remote_server_forbidden config origin = false;
}.

(** A client by the token of its device, or an application service by its own. *)
Definition client_authenticated (A : Auth) (d : Db) (regs : Registrations) (token : bytes) (query : AuthQueryParams)
    (route : Route) (i : ClientIdentity) : Prop :=
  match i with
  | User u dv => tokens A !! (u, dv) = Some token ∧ is_Some (devices A !! (u, dv)) ∧ expired now A (u, dv) = Valid ∧
      (is_locked d u = Ok true → route = Logout ∨ route = LogoutAll)
  | Appservice u dv info => (∀ x, tokens A !! x ≠ Some token) ∧ info ∈ regs.*2 ∧ as_token (registration info) = token ∧
      is_user_match info u = true ∧
      (q_user_id query = None → parse_with_server_name (sender_localpart (registration info)) own_name = Some u) ∧
      (∀ dv', dv = Some dv' → who_ok (u, dv') → is_Some (devices A !! (u, dv')))
  end.

Lemma find_appservice_Some regs token info : find_appservice regs token = Some info →
  info ∈ regs.*2 ∧ as_token (registration info) = token.
Proof.
  unfold find_appservice. intros ([k i] & (Hi & Ht & _)%list_find_Some & ->)%fmap_Some. simpl.
  split; [by eapply list_elem_of_lookup_2|done].
Qed.

Lemma verify_appservice_Ok A d info query i : AuthInv A d → verify_appservice own_name d info query = Ok i →
  ∃ u dv, i = Appservice u dv info ∧ is_user_match info u = true ∧
    (q_user_id query = None → parse_with_server_name (sender_localpart (registration info)) own_name = Some u) ∧
    (∀ dv', dv = Some dv' → who_ok (u, dv') → is_Some (devices A !! (u, dv'))).
Proof.
  intros Hinv. unfold verify_appservice. intros (u & Hu%ok_or_Ok & Hrun)%bind_Ok.
  assert (q_user_id query = None → parse_with_server_name (sender_localpart (registration info)) own_name = Some u) as Hself.
  { intros Hq. by rewrite Hq in Hu. }
  destruct (is_user_match info u) eqn:Hm; [|done]. simpl in Hrun.
  destruct (match q_device_id query with Some dv => Some dv | None => q_legacy_device_id query end) as [dv|].
  2: { injection Hrun as <-. exists u, None. by split_and!. }
  destruct (get_device_metadata d u dv) as [dev|[]] eqn:Hd; simplify_eq.
  exists u, (Some dv). split_and!; [done..|]. intros dv' [= <-] Hok.
  pose proof (metadata_found A d (u, dv) Hinv Hok) as Hfound. cbn [fst snd] in Hfound. rewrite Hd in Hfound.
  symmetry in Hfound. apply ok_or_Ok in Hfound. by exists dev.
Qed.

Lemma verify_access_token_Ok A d regs token query route i : AuthInv A d → (∀ x n, ends A !! x = Some n → n ≤ i64_max)%Z →
  verify_access_token own_name now d regs token query route = Ok i → client_authenticated A d regs token query route i.
Proof.
  intros Hinv Hends. unfold verify_access_token. case_decide as Hne; [done|]. intros (found & Hfound & Hrun)%bind_Ok.
  destruct (find_from_token_spec A d now token Hinv Hne Hends) as [Hyes Hno].
  destruct (decide (map_Exists (fun _ t => t = token) (tokens A))) as [(x & t & Hx & ->)|Hnone].
  - rewrite (Hyes x Hx) in Hfound. injection Hfound as <-. destruct (expired now A x) eqn:He; [|done].
    apply bind_Ok in Hrun as (locked & Hlocked & Hrun).
    destruct (locked && _) eqn:Hl; [done|]. injection Hrun as <-. simpl. rewrite <-surjective_pairing.
    split_and!; [done|by apply (ai_token _ _ Hinv) in Hx as [? _]|done|].
    intros Hlock. unfold is_locked_user in Hlocked. rewrite Hlock in Hlocked. injection Hlocked as <-.
    simpl in Hl. apply negb_false_iff in Hl. by apply bool_decide_eq_true_1 in Hl.
  - assert (∀ x, tokens A !! x ≠ Some token) as Hall by (intros x Hx; apply Hnone; by exists x, token).
    rewrite (Hno Hall) in Hfound. injection Hfound as <-.
    destruct (find_appservice regs token) as [info|] eqn:Hinfo; [|done].
    apply find_appservice_Some in Hinfo as [Hin Ht].
    destruct (verify_appservice_Ok A d info query i Hinv Hrun) as (u & dv & -> & ? & ? & ?). simpl. by split_and!.
Qed.

Lemma verify_server_Ok (d : KeyStore) req output : KeysInv d →
  let '(r, d') := verify_server config own_name now d req output in
  KeysInv d' ∧ ∀ origin, r = Ok origin → server_authenticated req output origin.
Proof.
  intros Hinv. unfold verify_server.
  destruct (match x_destination output with Some supplied => bool_decide (supplied ≠ own_name) | None => false end) eqn:Hdest; [done|].
  assert (x_destination output = None ∨ x_destination output = Some own_name) as Hd.
  { destruct (x_destination output) as [s|]; [right|by left]. apply bool_decide_eq_false_1, dec_stable in Hdest. by subst. }
  set (ts := Z.min (now_ms now) max_ts).
  pose proof (get_single_sound (now_ms now) d (x_origin output) (x_key output) ts Hinv) as Hkey.
  destruct (get_single_verify_key (now_ms now) (x_origin output) (x_key output) ts d) as [[key|] d']; [|by destruct Hkey].
  destruct Hkey as [Hinv' Hkey]. destruct (verify_http_request output req own_name _) eqn:Hsig; [|done].
  split; [done|]. intros origin. destruct (is_remote_server_forbidden config (x_origin output)) eqn:Hf; [done|]. intros [= <-].
  split; [done|done| |done]. exists key. split; [by apply Hkey|done].
Qed.

End Authenticated.

(** ** Requests of alice's phone, of a bridge and of server "b" *)

Module AuthWitness.
#[local] Existing Instances example_parsers example_rooms example_keys example_server.
#[local] Instance js {A} `{Countable A} : Json A := countable_json.
#[local] Instance laws {A} `{Countable A} : JsonLaws A := example_laws.
#[local] Instance no_suspensions : Json UserSuspension := {| to_json _ := []; from_json _ := None |}.
#[local] Existing Instances KeysWitness.verification KeysWitness.network.

(** An identifier is an at sign, a name of one byte, a colon and a server. *)
#[local] Instance ids : UserIds := {|
  parse_user_id s := if decide (head s = Some 64%Z) then Some s else None;
  parse_with_server_name name _ := Some (64%Z :: name ++ [58; 97]%Z);
  localpart s := take 1 (drop 1 s);
|}.
Inductive example_request := FromServer (x : XMatrix) (signature : string) | FromClient (token : option bytes).
#[local] Instance http : Http example_request := {|
  extract_signatures r := match r with FromServer x _ => Some x | FromClient _ => None end;
  extract_token r := match r with FromClient t => Some t | FromServer _ _ => Some None end;
  verify_http_request x r own keys :=
    match r with
    | FromServer x' signature =>
        bool_decide ((keys !! x_origin x ≫= fun set => set !! x_key x) = Some signature)
    | FromClient _ => false
    end;
|}.
Definition config : ModerationConfig :=
  {| server_name := "a"; allowed_remote_server_names _ := false; forbidden_remote_server_names h := bool_decide (h = "c");
     forbidden_remote_room_directory_server_names _ := false; prevent_media_downloads_from _ := false;
     ignore_messages_from_server_names _ := false; host h := h |}.

(** The bridge with the token 116 and the user "@r". *)
Definition bridge : RegistrationInfo :=
  {| registration := {| as_id := [98%Z]; as_token := [116%Z]; sender_localpart := [114%Z] |};
     users := {| exclusive := None; non_exclusive := None |}; aliases := {| exclusive := None; non_exclusive := None |};
     RequestAuth.rooms := {| exclusive := None; non_exclusive := None |} |}.
Definition regs : Registrations := [([98%Z], bridge)].
Definition phone_host : Host :=
  (create_device [88%Z] 0 alice (Some [80%Z]) (Some DevicesWitness.secret) None None host0).2.
Definition nobody : AuthQueryParams := {| q_user_id := None; q_device_id := None; q_legacy_device_id := None |}.
Definition ten_ms : Z := 10000000.
Definition client (token : option bytes) (query : AuthQueryParams) : comp AuthError ClientIdentity :=
  authenticate_client "a" ten_ms (hdb phone_host) regs (FromClient token) query OtherRoute.
Definition from_b (signature : string) : example_request :=
  FromServer {| x_origin := "b"; x_destination := Some "a"; x_key := "ed25519:2" |} signature.

Example requests :
  client (Some [115%Z]) nobody = Ok (User alice [80%Z]) ∧ client (Some [1%Z]) nobody = Err (Fail (UnknownToken false)) ∧
  client None nobody = Err (Fail Unauthorized) ∧ client (Some []) nobody = Err (Fail Unauthorized) ∧
  sender_user <$> client (Some [116%Z]) nobody = Ok [64; 114; 58; 97]%Z ∧
  (authenticate_server config "a" ten_ms ∅ (from_b "second")).1 = Ok "b" ∧
  (authenticate_server config "a" ten_ms ∅ (from_b "first")).1 = Err (Fail Unauthorized).
Proof. by vm_compute. Qed.

(** The phone's token runs out. *)
Lemma phone_auth : ∃ A, AuthInv A (hdb phone_host) ∧ (∀ x n, ends A !! x = Some n → n ≤ i64_max)%Z.
Proof.
  destruct (create_device_run DevicesWitness.no_one host0 [88%Z] 0 alice (Some [80%Z]) DevicesWitness.secret None None
              DevicesWitness.auth_inv0) as (s & Hrun & _ & Hinv); try done.
  { by intros age [= <-]. }
  assert (s = phone_host) as -> by (symmetry; exact (f_equal snd Hrun)).
  eexists. split; [exact Hinv|]. intros x n Hx.
  change (ends _) with ({[(alice, [80%Z]) := 3600%Z]} : gmap who Z) in Hx.
  apply lookup_singleton_Some in Hx as [_ <-]. by vm_compute.
Qed.


(** The sender of the bridge is told by its name alone: it may act as the user of that name of another server. *)
Example sender_of_any_server :
  sender_user <$> client (Some [116%Z]) {| q_user_id := Some [64; 114; 58; 98]%Z; q_device_id := None; q_legacy_device_id := None |} =
  Ok [64; 114; 58; 98]%Z.
Proof. by vm_compute. Qed.
End AuthWitness.
