(* ===== verification/JoinsSpec.v ===== *)
(** Membership events of other servers are let in only after every check: whoever asks and whatever is
    sent, a room changes only for a verified membership event of the asking server's own user.  The rules of
    restricted rooms are decided as a reference definition says, and the template of a join is an event
    this server would authorise, signed for by a local member where the room asks for one. *)

From stdpp Require Import prelude gmap strings.
From Stdlib Require Import ZArith Lia.
From S2P Require Import Prelude TopoSort Event EventAuth StateRes Effects EventStore EventChecks EventHandler LocalEvents LocalEventsSpec PduCount FederationApi FederationApiSpec Joins.

Section Spec.
Context `{!Ruma} {S position : Type} `{!EventStore S position, !RoomServices S position, !RoomAccess S}.
Context `{!PduOfJson, !HandlerLibrary, !Federation, !LocalLibrary, !LocalServices S position}.
Context `{!MembershipLibrary, !MembershipServices S} (config : ModerationConfig).
Context `{!HashIter string, !HashIter (string * string), !HashIter Z, !Scheduler} (fuel : nat).
Context (backoff_base backoff_limit max_fetch_prev_events : Z) (own_name : string) (now : Z).

Abbreviation M A := (eff S HandlerError A).
Abbreviation res A := (comp HandlerError A).

Lemma ensure_Ok b e : ensure b e = Ok tt ↔ b = true.
Proof. destruct b; naive_solver. Qed.
Lemma map_err_Ok {A} e (r : res A) a : map_err e r = Ok a ↔ r = Ok a.
Proof. destruct r as [|[]]; naive_solver. Qed.

(** ** Restricted rooms *)

(** A rule that settles the question: a room of this server that the user is joined to, the spam checker. *)
Definition decisive (s : S) (user : UserId) (rule : AllowRule) : bool :=
  match rule with
  | RoomMembership room => server_in_room s own_name room && is_joined s user room
  | SpamChecker => true
  | OtherAllowRule => false
  end.
(** A rule that this server cannot check. *)
Definition unchecked (s : S) (rule : AllowRule) : bool :=
  match rule with
  | RoomMembership room => negb (server_in_room s own_name room)
  | SpamChecker => false
  | OtherAllowRule => true
  end.

Definition restricted_join_spec (s : S) (user : UserId) (rid : RoomId) : res bool :=
  match room_state_at s rid RoomJoinRules "" ≫= (fun ev => mjoin (de_allow (content ev))) with
  | None => Ok false
  | Some allow =>
      match head (filter (fun rule => decisive s user rule = true) allow) with
      | Some SpamChecker => if meowlnir_accept_make_join rid user then Ok true else Err (Fail EForbidden)
      | Some _ => Ok true
      | None => Err (Fail (if existsb (unchecked s) allow then EUnableToAuthorizeJoin else EForbidden))
      end
  end.

Lemma check_allow_rules_spec s rid user could allow :
  check_allow_rules own_name s rid user could allow =
  match head (filter (fun rule => decisive s user rule = true) allow) with
  | Some SpamChecker => if meowlnir_accept_make_join rid user then Ok true else Err (Fail EForbidden)
  | Some _ => Ok true
  | None => Err (Fail (if negb could || existsb (unchecked s) allow then EUnableToAuthorizeJoin else EForbidden))
  end.
Proof.
  revert could. induction allow as [|rule allow IH]; intros could; [by destruct could|].
  rewrite filter_cons. cbn [check_allow_rules existsb]. destruct rule as [room| |]; cbn [decisive unchecked].
  - destruct (server_in_room s own_name room); cbn [negb andb].
    + destruct (is_joined s user room); [by rewrite decide_True|]. rewrite decide_False by done. by rewrite IH.
    + rewrite decide_False by done. rewrite IH, orb_true_r. by destruct (head _) as [[]|].
  - by rewrite decide_True.
  - rewrite decide_False by done. rewrite IH, orb_true_r. by destruct (head _) as [[]|].
Qed.

Lemma room_state_get_fails s rid ty sk : room_state_at s rid ty sk = None → room_state_get s rid ty sk = Err (Fail ENotFound).
Proof.
  unfold room_state_get, room_state_at. destruct (get_room_shortstatehash s rid); simpl; [|done].
  by destruct (state_lookup _ _ ty sk).
Qed.

Lemma restricted_join_eq s user rid :
  user_can_perform_restricted_join own_name s user rid = restricted_join_spec s user rid.
Proof.
  unfold user_can_perform_restricted_join, restricted_join_spec.
  destruct (room_state_at s rid RoomJoinRules "") as [ev|] eqn:Hev; simpl.
  - apply room_state_get_at in Hev. rewrite Hev. destruct (de_allow (content ev)) as [[[|rule allow]|]|]; simpl; try done.
    apply (check_allow_rules_spec s rid user true (rule :: allow)).
  - by rewrite (room_state_get_fails _ _ _ _ Hev).
Qed.

(** ** What is let in *)

Record open_to (s : S) (origin : string) (rid : RoomId) : Prop := {
  ot_exists : room_exists (room_status s rid) = true;
  ot_resident : server_in_room s own_name rid = true;
  ot_acl : acl_allows s origin rid;
}.

(** The event that was sent, or that event with this server's signature, where a user of this server
    authorises a restricted join. *)
Definition as_sent (s : S) (rid : RoomId) (eid : EventId) (body : string) (rules : VersionRules) (value : CanonicalJsonObject) :=
  ∃ pdu, parse_incoming_pdu (get_room_version s) body (Some rules) = Ok (rid, eid, pdu) ∧
    (value = pdu ∨ hash_and_sign_event pdu rules = Ok value ∧ restricted_join_rule rules = true ∧
       ∃ content user, content_of pdu = Some content ∧ user_field content "join_authorised_via_users_server" = Some user ∧
         user_is_local user = true ∧ str_field content "membership" = Some "join").

Record verified_membership (s : S) (origin : string) (rid : RoomId) (eid : EventId) (body wanted : string)
    (rules : VersionRules) (value : CanonicalJsonObject) (who : UserId) : Prop := {
  vm_rules : get_room_version s rid = Some (Some rules);
  vm_sent : as_sent s rid eid body rules value;
  vm_verified : is_Some (verify_event_json value rules);
  vm_type : str_field value "type" = Some "m.room.member";
  vm_membership : ∃ content, content_of value = Some content ∧ str_field content "membership" = Some wanted;
  vm_sender : user_field value "sender" = Some who;
  vm_state_key : user_field value "state_key" = Some who;
  vm_origin : user_server_name who = origin;
  vm_format : ∃ create, room_create_event (room_status s rid) = Some create ∧
    pdu_format_check_1 value rules (event_id create) = Ok tt;
}.

Lemma cosign_Ok pdu rules value : cosign pdu rules = Ok value →
  value = pdu ∨ hash_and_sign_event pdu rules = Ok value ∧ restricted_join_rule rules = true ∧
    ∃ content user, content_of pdu = Some content ∧ user_field content "join_authorised_via_users_server" = Some user ∧
      user_is_local user = true ∧ str_field content "membership" = Some "join".
Proof.
  unfold cosign. destruct (content_of pdu) as [c|] eqn:Hc; simpl; [|intros [= ->]; by left].
  destruct (user_field c _) as [user|] eqn:Hu; simpl; [|intros [= ->]; by left].
  destruct (restricted_join_rule rules) eqn:Hr; simpl; [|intros [= ->]; by left].
  case_bool_decide as Hj; simpl; [|intros [= ->]; by left].
  destruct (user_is_local user) eqn:Hl; [|intros [= ->]; by left].
  intros ?%map_err_Ok. right. split_and!; [done..|]. by exists c, user.
Qed.

(** What the check of any membership event establishes. *)
Record membership_event (s : S) (rules : VersionRules) (create_event_id : EventId) (rid : RoomId) (eid : EventId) (body : string)
    (value : CanonicalJsonObject) (membership : string) (snd target : UserId) : Prop := {
  me_sent : as_sent s rid eid body rules value;
  me_verified : is_Some (verify_event_json value rules);
  me_type : str_field value "type" = Some "m.room.member";
  me_membership : ∃ content, content_of value = Some content ∧ str_field content "membership" = Some membership;
  me_sender : user_field value "sender" = Some snd;
  me_target : user_field value "state_key" = Some target;
  me_format : pdu_format_check_1 value rules create_event_id = Ok tt;
}.

Lemma validate_any_membership_Ok s body rules create rid eid value membership snd target :
  validate_any_membership_event s body rules create rid eid = Ok (value, membership, snd, target) →
  membership_event s rules create rid eid body value membership snd target.
Proof.
  unfold validate_any_membership_event. intros ([[r i] pdu] & Hparse%map_err_Ok & Hany)%bind_Ok.
  apply bind_Ok in Hany as ([] & Hr%ensure_Ok%bool_decide_eq_true_1 & Hany).
  apply bind_Ok in Hany as ([] & Hi%ensure_Ok%bool_decide_eq_true_1 & Hany). subst.
  apply bind_Ok in Hany as (signed & Hsign%cosign_Ok & Hany). apply bind_Ok in Hany as (v & Hver%ok_or_Ok & Hany).
  apply bind_Ok in Hany as (ty & Hty%ok_or_Ok & Hany).
  apply bind_Ok in Hany as ([] & ->%ensure_Ok%bool_decide_eq_true_1 & Hany).
  apply bind_Ok in Hany as (c & Hc%ok_or_Ok & Hany). apply bind_Ok in Hany as (m & Hmem%ok_or_Ok & Hany).
  apply bind_Ok in Hany as (u & Hu%ok_or_Ok & Hany). apply bind_Ok in Hany as (k & Hk%ok_or_Ok & Hany).
  apply bind_Ok in Hany as ([] & Hf%map_err_Ok & Hany). injection Hany as -> -> -> ->.
  split; [by exists pdu|by exists v|done|by exists c|done..].
Qed.

Lemma validate_own_membership_Ok s origin body rid eid wanted allowed rules value who :
  validate_own_membership s origin body rid eid wanted allowed = Ok (rules, value, who) →
  verified_membership s origin rid eid body wanted rules value who ∧ allowed rules = Ok tt.
Proof.
  unfold validate_own_membership. intros (version & Hv%ok_or_Ok & Hrun)%bind_Ok.
  apply bind_Ok in Hrun as (create & Hcreate%ok_or_Ok & Hrun). apply bind_Ok in Hrun as (rules' & Hrules%ok_or_Ok & Hrun).
  apply bind_Ok in Hrun as ([] & Hallowed & Hrun).
  apply bind_Ok in Hrun as ([[[value' membership] snd] target] & [? ? ? ? ? ? ?]%validate_any_membership_Ok & Hrun).
  apply bind_Ok in Hrun as ([] & Hm%ensure_Ok%bool_decide_eq_true_1 & Hrun).
  apply bind_Ok in Hrun as ([] & Ho%ensure_Ok%bool_decide_eq_true_1 & Hrun).
  apply bind_Ok in Hrun as ([] & Hs%ensure_Ok%bool_decide_eq_true_1 & Hrun). injection Hrun as -> -> ->. subst.
  split; [|done]. split; [done..|by exists create].
Qed.

(** ** The requests *)

Lemma pure_bind {A B} (c : res A) (f : A → M B) s :
  (pure c ≫= f) s = match c with Ok a => f a s | Err e => (Err e, s) end.
Proof. by destruct c. Qed.

(** A run that either failed a check, and changed nothing, or got further with what a check gave. *)
Lemma pure_bind_run {A B} (c : res A) (f : A → M B) s r s' : (pure c ≫= f) s = (r, s') →
  s' = s ∧ is_ok r = false ∨ ∃ a, c = Ok a ∧ f a s = (r, s').
Proof. rewrite pure_bind. destruct c as [a|e]; [eauto|intros [= <- <-]; by left]. Qed.

Abbreviation incoming := (handle_incoming_pdu fuel backoff_base backoff_limit max_fetch_prev_events own_name now).

Lemma handle_run {B} origin rid eid value (f : position → M B) s r s' :
  (handle fuel backoff_base backoff_limit max_fetch_prev_events own_name now origin rid eid value ≫= f) s = (r, s') →
  ∃ h s1, incoming origin rid eid value false s = (h, s1) ∧
    (s' = s1 ∧ is_ok r = false ∨ ∃ pdu_id, h = Ok (Some pdu_id) ∧ f pdu_id s1 = (r, s')).
Proof.
  unfold handle, mbind at 1 2, eff_bind. destruct (incoming origin rid eid value false s) as [[[p|]|e] s1] eqn:Hh; simpl.
  - intros Hrun. exists (Ok (Some p)), s1. eauto.
  - intros [= <- <-]. exists (Ok None), s1. eauto.
  - intros [= <- <-]. exists (Err e), s1. eauto.
Qed.

(** A join that somebody authorises: a joined local user, for who may join by the rules of the room. *)
Definition authorised_join (s : S) (rid : RoomId) (rules : VersionRules) (who : UserId) (value value' : CanonicalJsonObject) : Prop :=
  ∃ content authorising, value !! "content" = Some content ∧ de_authorising_user content = Some authorising ∧
    match authorising with
    | None => value' = value
    | Some user => restricted_join_rule rules = true ∧ user_is_local user = true ∧ is_joined s user rid = true ∧
        restricted_join_spec s who rid = Ok true ∧ hash_and_sign_event value rules = Ok value'
    end.

Lemma check_authorising_user_Ok s rid rules who value value' :
  check_authorising_user own_name s rid rules who value = Ok value' → authorised_join s rid rules who value value'.
Proof.
  unfold check_authorising_user. intros (content & Hc%ok_or_Ok & Hrun)%bind_Ok. apply bind_Ok in Hrun as (auth & Ha%ok_or_Ok & Hrun).
  exists content, auth. split_and!; [done..|]. destruct auth as [user|]; [|by injection Hrun].
  apply bind_Ok in Hrun as ([] & Hr%ensure_Ok & Hrun). apply bind_Ok in Hrun as ([] & Hl%ensure_Ok & Hrun).
  apply bind_Ok in Hrun as ([] & Hj%ensure_Ok & Hrun). apply bind_Ok in Hrun as (can & Hcan & Hrun).
  apply bind_Ok in Hrun as ([] & ->%ensure_Ok & Hrun). apply map_err_Ok in Hrun.
  rewrite restricted_join_eq in Hcan. by split_and!.
Qed.

(** The event of a request was handled, and the request went well only if it is in the timeline then. *)
Definition handled {A} (s : S) (origin : string) (rid : RoomId) (eid : EventId) (value : CanonicalJsonObject) (r : res A)
    (P : position → S → Prop) : Prop :=
  ∃ h s1, incoming origin rid eid value false s = (h, s1) ∧ (is_ok r = true → ∃ pdu_id, h = Ok (Some pdu_id) ∧ P pdu_id s1).

(** What a joining server is told: the room's state before the join and the events that authorise it. *)
Record told (s s1 : S) (rid : RoomId) (omit_members : bool) (value : CanonicalJsonObject) (resp : RoomStateResponse) : Prop := {
  td_event : event resp = value;
  td_state : ∃ h, get_room_shortstatehash s rid = Some h ∧ Forall2 (event_json s1) (state_before_join s1 h omit_members) (state resp);
  td_omitted : members_omitted resp = omit_members;
  td_servers : is_Some (servers_in_room resp) ↔ omit_members = true;
}.

(** A check of a request that went on. *)
Ltac passed H :=
  let a := fresh "a" in let Ha := fresh "Hcheck" in
  apply pure_bind_run in H as [?|(a & Ha & H)]; [by left|].

Lemma open_to_checks s origin rid : room_exists (room_status s rid) = true → participating own_name s rid = Ok tt →
  acl_check origin (server_acl (room_status s rid)) = Ok tt → open_to s origin rid.
Proof. intros ? ?%participating_Ok ?. by split. Qed.

Lemma leave_guarded s origin rid eid body r s' :
  create_leave_event_v2_route fuel backoff_base backoff_limit max_fetch_prev_events own_name now origin rid eid body s = (r, s') →
  s' = s ∧ is_ok r = false ∨
  open_to s origin rid ∧ ∃ rules value who, verified_membership s origin rid eid body "leave" rules value who ∧
    handled s origin rid eid value r (fun _ _ => True).
Proof.
  unfold create_leave_event_v2_route. rewrite bind_gets_id. intros Hrun.
  passed Hrun. passed Hrun. passed Hrun. passed Hrun. destruct a, a0, a1. destruct a2 as [[rules value] who].
  apply validate_own_membership_Ok in Hcheck2 as [Hv _]. apply ensure_Ok in Hcheck.
  right. split; [by apply open_to_checks|]. exists rules, value, who. split; [done|].
  apply handle_run in Hrun as (h & s1 & Hh & Hrun). exists h, s1. split; [done|].
  destruct Hrun as [[_ ->]|(pdu_id & -> & _)]; [done|eauto].
Qed.

Lemma knock_guarded s origin rid eid body r s' :
  create_knock_event_v1_route config fuel backoff_base backoff_limit max_fetch_prev_events own_name now origin rid eid body s = (r, s') →
  s' = s ∧ is_ok r = false ∨
  is_remote_server_forbidden config origin = false ∧ open_to s origin rid ∧ ∃ rules value who,
    verified_membership s origin rid eid body "knock" rules value who ∧ knocking (authorization (room_rules rules)) = true ∧
    handled s origin rid eid (<["event_id" := CString eid]> value) r (fun _ _ => True).
Proof.
  unfold create_knock_event_v1_route. intros Hrun.
  passed Hrun. rewrite bind_gets_id in Hrun. passed Hrun. passed Hrun. passed Hrun. passed Hrun.
  destruct a, a0, a1, a2. destruct a3 as [[rules value] who]. passed Hrun.
  apply validate_own_membership_Ok in Hcheck3 as [Hv Hk%ensure_Ok]. apply ensure_Ok in Hcheck0. apply ensure_Ok, negb_true_iff in Hcheck.
  right. split_and!; [done|by apply open_to_checks|]. exists rules, value, who. split_and!; [done..|].
  apply handle_run in Hrun as (h & s1 & Hh & Hrun). rewrite (vm_origin _ _ _ _ _ _ _ _ _ Hv) in Hh. exists h, s1. split; [done|].
  destruct Hrun as [[_ ->]|(pdu_id & -> & _)]; [done|eauto].
Qed.

Lemma join_guarded s origin rid eid body omit r s' :
  create_join_event_v2_route config fuel backoff_base backoff_limit max_fetch_prev_events own_name now origin rid eid body omit s = (r, s') →
  s' = s ∧ is_ok r = false ∨
  is_remote_server_forbidden config origin = false ∧ open_to s origin rid ∧ ∃ rules value who value',
    verified_membership s origin rid eid body "join" rules value who ∧ authorised_join s rid rules who value value' ∧
    handled s origin rid eid value' r (fun _ s1 => ∃ resp, r = Ok resp ∧ told s s1 rid omit value' resp).
Proof.
  unfold create_join_event_v2_route. intros Hrun.
  passed Hrun. rewrite bind_gets_id in Hrun. passed Hrun. destruct a. destruct a0 as [[rules value] who].
  unfold create_join_event in Hrun. rewrite bind_gets_id in Hrun.
  passed Hrun. passed Hrun. passed Hrun. passed Hrun. passed Hrun. passed Hrun. destruct a, a0, a1.
  apply validate_own_membership_Ok in Hcheck0 as [Hv _]. apply ensure_Ok, negb_true_iff in Hcheck. apply ensure_Ok in Hcheck1.
  apply ok_or_Ok in Hcheck4, Hcheck5. rewrite (vm_sender _ _ _ _ _ _ _ _ _ Hv) in Hcheck5. injection Hcheck5 as <-.
  apply check_authorising_user_Ok in Hcheck6.
  right. split_and!; [done|by apply open_to_checks|]. exists rules, value, who, a4. split_and!; [done..|].
  apply handle_run in Hrun as (h & s1 & Hh & Hrun). rewrite (vm_origin _ _ _ _ _ _ _ _ _ Hv) in Hh. exists h, s1. split; [done|].
  destruct Hrun as [[_ ->]|(pdu_id & -> & Hrun)]; [done|]. intros Hok. exists pdu_id. split; [done|].
  destruct r as [resp|]; [|done]. exists resp. split; [done|].
  rewrite bind_gets_id in Hrun. inv_run Hrun. apply events_json_Ok in Hrun0. inv_run Hrun. inv_run Hrun. inv_run Hrun.
  apply mret_Ok in Hrun as [<- _]. split; simpl; [done|by eexists|done|].
  destruct omit; simpl; split; done || (by intros []) || (by eexists).
Qed.

(** C33: A room changes for another server's membership event only after every check.  Whatever is sent, a
    request to join, leave or knock either is refused and leaves everything as it was, or: the room's list
    lets the server in (for joins and knocks the configuration as well), this server knows the room and is in
    it, and the event was sent under the given room and identifier, its signatures verify, and it is a membership event
    of the kind asked for, of a user of that server about itself, in the format of the room.  A join that
    names who authorises it names a joined user of this server, and the rules of the restricted room let the
    joining user in.  It is then handled as every other event is, and answered well only when it has a place
    in the timeline; who joined is told the state before the join. *)
Theorem remote_membership_guarded (s : S) (origin : string) (rid : RoomId) (eid : EventId) (body : string) :
  (∀ r s', create_leave_event_v2_route fuel backoff_base backoff_limit max_fetch_prev_events own_name now origin rid eid body s = (r, s') →
     s' = s ∧ is_ok r = false ∨
     open_to s origin rid ∧ ∃ rules value who, verified_membership s origin rid eid body "leave" rules value who ∧
       handled s origin rid eid value r (fun _ _ => True)) ∧
  (∀ r s', create_knock_event_v1_route config fuel backoff_base backoff_limit max_fetch_prev_events own_name now origin rid eid body s = (r, s') →
     s' = s ∧ is_ok r = false ∨
     is_remote_server_forbidden config origin = false ∧ open_to s origin rid ∧ ∃ rules value who,
       verified_membership s origin rid eid body "knock" rules value who ∧ knocking (authorization (room_rules rules)) = true ∧
       handled s origin rid eid (<["event_id" := CString eid]> value) r (fun _ _ => True)) ∧
  (∀ omit r s', create_join_event_v2_route config fuel backoff_base backoff_limit max_fetch_prev_events own_name now origin rid eid body omit s = (r, s') →
     s' = s ∧ is_ok r = false ∨
     is_remote_server_forbidden config origin = false ∧ open_to s origin rid ∧ ∃ rules value who value',
       verified_membership s origin rid eid body "join" rules value who ∧ authorised_join s rid rules who value value' ∧
       handled s origin rid eid value' r (fun _ s1 => ∃ resp, r = Ok resp ∧ told s s1 rid omit value' resp)).
Proof. split_and!; [apply leave_guarded|apply knock_guarded|apply join_guarded]. Qed.

(** ** Templates *)

Section Templates.
Context `{!KeyLaws S position, !HashIterLaws (string * string)}.

Lemma select_authorising_user_Ok s rid user candidate : select_authorising_user now s rid user = Ok candidate →
  candidate ∈ room_members s rid ∧ user_is_local candidate = true ∧ user_can_invite now s rid candidate user = true.
Proof.
  unfold select_authorising_user, local_users_in_room. intros Hhead%ok_or_Ok.
  apply head_Some_elem_of, list_elem_of_filter in Hhead as [Hinvite [Hlocal Hin]%list_elem_of_filter]. done.
Qed.

(** Who authorises a join in a template. *)
Definition authorisation_of (s : S) (rules : VersionRules) (rid : RoomId) (user : UserId) (authorising : option UserId) : Prop :=
  match authorising with
  | None => is_joined s user rid = true ∨ is_invited s user rid = true ∨ restricted_join_rule rules = false ∨
            restricted_join_spec s user rid = Ok false
  | Some who => is_joined s user rid = false ∧ is_invited s user rid = false ∧ restricted_join_rule rules = true ∧
      restricted_join_spec s user rid = Ok true ∧ who ∈ room_members s rid ∧ user_is_local who = true ∧
      ∃ invite un, create_event now s (partial_member Invite None user) who (Some rid) = Ok (invite, rules, un)
  end.

Lemma create_event_rules s partial snd rid rules pdu rules' un :
  get_room_version s rid = Some (Some rules) → create_event now s partial snd (Some rid) = Ok (pdu, rules', un) → rules' = rules.
Proof.
  unfold create_event. intros Hv. rewrite Hv. cbn [mbind result_bind ok_or_fail ok_or].
  intros (m & _ & Hrun)%bind_Ok. apply bind_Ok in Hrun as (room & _ & Hrun). apply bind_Ok in Hrun as (create & _ & Hrun).
  apply bind_Ok in Hrun as ([] & _ & Hrun); [by injection Hrun|done].
Qed.

Lemma authorising_user_for_Ok s rules rid user authorising : get_room_version s rid = Some (Some rules) →
  authorising_user_for own_name now s rules rid user = Ok authorising → authorisation_of s rules rid user authorising.
Proof.
  unfold authorising_user_for. intros Hv. destruct (is_joined s user rid) eqn:Hj; [intros [= <-]; by left|].
  destruct (is_invited s user rid) eqn:Hi; [intros [= <-]; by right; left|]. simpl.
  destruct (restricted_join_rule rules) eqn:Hr; [simpl|intros [= <-]; by right; right; left].
  intros (can & Hcan & Hrun)%bind_Ok. rewrite restricted_join_eq in Hcan.
  destruct can; [|injection Hrun as <-; by right; right; right].
  apply bind_Ok in Hrun as (who & (? & ? & Hinv)%select_authorising_user_Ok & Hrun). injection Hrun as <-.
  unfold user_can_invite in Hinv. destruct (create_event _ _ _ _ _) as [[[invite rules'] un]|] eqn:He; [|done].
  rewrite (create_event_rules _ _ _ _ _ _ _ _ Hv He) in He. split_and!; [done..|by exists invite, un].
Qed.

(** C34: The template of a join.  It is made for a server that the configuration and the room's list let in and
    that supports the room's version, for a user of its own, in a room that this server is in.  It is
    the event that this server would authorise against the current state if the user sent it.  Unless the user is joined or
    invited already, or the room or its version does not restrict joins, it names who authorises it: a joined
    user of this server who could invite the user, where the room's rules let the user in.  Where the spam
    checker has to be asked about every join that nobody authorises, it agreed. *)
Theorem join_template_correct (s : S) (new_id : EventId) (origin : string) (rid : RoomId) (user : UserId)
    (ver : VersionRules → bool) (rules : VersionRules) (json : CanonicalJsonObject) :
  create_join_event_template_route config own_name now s new_id origin rid user ver = Ok (rules, json) →
  open_to s origin rid ∧ user_server_name user = origin ∧ is_remote_server_forbidden config origin = false ∧
  get_room_version s rid = Some (Some rules) ∧ ver rules = true ∧
  ∃ authorising, authorisation_of s rules rid user authorising ∧
    (check_all_joins = true → authorising = None → meowlnir_accept_make_join rid user = true) ∧
    ∃ pdu un, made_from now s (partial_member Join authorising user) user (Some rid) rules pdu ∧
      template_json s new_id rules pdu un = Ok json.
Proof.
  unfold create_join_event_template_route, template_allowed. intros ([] & Hopen & Hrun)%bind_Ok.
  apply bind_Ok in Hopen as ([] & He%ensure_Ok & Hopen). apply bind_Ok in Hopen as ([] & Hp & Hopen).
  apply bind_Ok in Hopen as ([] & Hu%ensure_Ok%bool_decide_eq_true_1 & Hacl).
  apply bind_Ok in Hrun as ([] & Hf%ensure_Ok%negb_true_iff & Hrun). apply bind_Ok in Hrun as (version & Hv%ok_or_Ok & Hrun).
  apply bind_Ok in Hrun as (rules' & ->%ok_or_Ok & Hrun). apply bind_Ok in Hrun as ([] & Hver%ensure_Ok & Hrun).
  apply bind_Ok in Hrun as (authorising & Ha & Hrun). apply bind_Ok in Hrun as ([] & Hspam%ensure_Ok & Hrun).
  apply bind_Ok in Hrun as ([[pdu rules2] un] & Hpdu & Hrun). apply bind_Ok in Hrun as (j & Hj & Hrun). injection Hrun as -> ->.
  rewrite (create_event_rules _ _ _ _ _ _ _ _ Hv Hpdu) in Hpdu.
  split_and!; [by apply open_to_checks|done..|]. exists authorising. split; [by apply authorising_user_for_Ok|]. split.
  - intros Hall ->. by rewrite Hall in Hspam.
  - exists pdu, un. split; [|done]. by apply create_event_spec in Hpdu as (_ & _ & ?).
Qed.
End Templates.
End Spec.
