(* ===== verification/Invites.v ===== *)
(** Invites of other servers to users of this one: src/src/api/server/invite.rs.  The room need not be known
    here: what is known of it is the state that comes with the invite, which is checked first. *)

From stdpp Require Import prelude gmap strings.
From Stdlib Require Import ZArith Lia.
From S2P Require Import Prelude TopoSort Event EventAuth StateRes Effects EventStore EventChecks EventHandler LocalEvents PduCount FederationApi Joins FederationApiSpec JoinsSpec.

(** What the request carries.  The version is [None] when this server does not support it; an event of
    the state is [None] when it is stripped, else its JSON as it was sent. *)
Record InviteRequest := {
  room_version : option VersionRules;
  identity : string;
  room : RoomId;
  request_event_id : EventId;
  invite_event : string;
  invite_room_state : list (option string);
  via : list string;
}.

(** Of serde_json: the [m.federate] field of a create event. *)
Class InviteLibrary `{!Ruma} := { de_mfederate : json → option (option bool) }.

(** The lists of banned rooms and of admins, the configuration, the spam checker outside, the tables of
    memberships, and the application services that have to know. *)
Class InviteServices `{!Ruma} (S : Type) := {
  is_banned : S → RoomId → bool;
  is_admin : S → UserId → bool;
  block_non_admin_invites : bool;
  user_may_invite : UserId → UserId → RoomId → bool;
  mark_as_invited : UserId → RoomId → UserId → list (option string) → CanonicalJsonObject → list string → eff S HandlerError unit;
  update_joined_count : RoomId → S → S;
  notify_appservices : Pdu → UserId → eff S HandlerError unit;
}.

Section Invites.
Context `{!Ruma} {S position : Type} `{!EventStore S position, !RoomServices S position, !RoomAccess S}.
Context `{!PduOfJson, !HandlerLibrary, !LocalLibrary, !LocalServices S position}.
Context `{!MembershipLibrary, !MembershipServices S, !InviteLibrary, !InviteServices S} (config : ModerationConfig).
Context `{!HashIter (string * string)} (own_name : string).

Abbreviation M A := (eff S HandlerError A).
Abbreviation res A := (comp HandlerError A).
Abbreviation StateJson := (gmap (string * string) CanonicalJsonObject).

(** No state is fetched for a create event.
    @src src/src/api/server/invite.rs:397-424 validate_invite_create_event *)
Definition validate_invite_create_event (pdu : Pdu) (rules : VersionRules) : res unit :=
  let passes := match auth_check (room_rules rules) pdu None (fun _ _ => None) pdu with
                | Ok b => Ok b
                | Err (Fail _) => Ok false
                | Err Panicked => Err Panicked
                | Err OutOfFuel => Err OutOfFuel
                end in
  passes ← passes;
  _ ← ensure passes EInvalidParam;
  can_federate ← ok_or_fail EBadJson (de_mfederate (content pdu));
  ensure (default true can_federate) EInvalidParam.

(** One event of the state: its identifier, its type and key, and its JSON.
    @src src/src/api/server/invite.rs:301-344 validate_invite_state *)
Definition validate_state_event (s : S) (rules : VersionRules) (rid : RoomId) (raw_pdu : option string) :
    res (EventId * (string * string) * CanonicalJsonObject) :=
  raw_pdu ← ok_or_fail EInvalidParam raw_pdu;
  '(state_event_room_id, state_event_id, state_event_json) ←
    map_err EInvalidParam (parse_incoming_pdu (get_room_version s) raw_pdu (Some rules));
  _ ← ensure (bool_decide (state_event_room_id = rid)) EInvalidParam;
  _ ← ok_or_fail EInvalidParam (verify_event_json state_event_json rules);
  state_key ← ok_or_fail EInvalidParam (str_field state_event_json "state_key");
  event_type ← ok_or_fail EInvalidParam (str_field state_event_json "type");
  Ok (state_event_id, (event_type, state_key), state_event_json).

(** A create event is checked when it is met, whatever its state key.
    @src src/src/api/server/invite.rs:345-364 validate_invite_state *)
Definition checked_create (rules : VersionRules) (key : string * string) (eid : EventId) (json : CanonicalJsonObject)
    (create_event_id : option EventId) : res (option EventId) :=
  if decide (key.1 = RoomCreate) then
    pdu_event ← expect (from_id_val eid json);
    _ ← validate_invite_create_event pdu_event rules;
    Ok (Some eid)
  else Ok create_event_id.

(** @src src/src/api/server/invite.rs:293-364 validate_invite_state *)
Fixpoint collect_invite_state (s : S) (rules : VersionRules) (rid : RoomId) (invite_state : list (option string))
    (create_event_id : option EventId) (state : StateJson) : res (option EventId * StateJson) :=
  match invite_state with
  | [] => Ok (create_event_id, state)
  | raw_pdu :: invite_state =>
      '(eid, key, json) ← validate_state_event s rules rid raw_pdu;
      _ ← ensure (bool_decide (state !! key = None)) EInvalidParam;
      create_event_id ← checked_create rules key eid json create_event_id;
      collect_invite_state s rules rid invite_state create_event_id (<[key := json]> state)
  end.

(** @src src/src/api/server/invite.rs:288-385 validate_invite_state *)
Definition validate_invite_state (s : S) (invite_state : list (option string)) (rules : VersionRules) (rid : RoomId) :
    res (EventId * StateJson) :=
  '(create_event_id, state) ← collect_invite_state s rules rid invite_state None ∅;
  create_event_id ← ok_or_fail EInvalidParam create_event_id;
  _ ← mapR (fun '(_, event_json) => map_err EInvalidParam (pdu_format_check_1 event_json rules create_event_id)) (iter_map state);
  Ok (create_event_id, state).

(** @src src/src/api/server/invite.rs:242-280 validate_invite_membership_event *)
Definition validate_invite_membership_event (s : S) (body : string) (rules : VersionRules) (origin : string)
    (create_event_id : EventId) (rid : RoomId) (eid : EventId) : res (CanonicalJsonObject * UserId * UserId) :=
  '(pdu, target_membership, sender_user, recipient_user) ← validate_any_membership_event s body rules create_event_id rid eid;
  _ ← ensure (bool_decide (user_server_name sender_user = origin)) EForbidden;
  _ ← ensure (user_is_local recipient_user) EInvalidParam;
  _ ← ensure (bool_decide (target_membership = "invite")) EBadJson;
  Ok (pdu, sender_user, recipient_user).

(** A room that this server is not in is remembered by its create event, and the invite in the tables of
    memberships; waking the user's clients is not modelled.
    @src src/src/api/server/invite.rs:164-222 create_invite_route *)
Definition record_invite (req : InviteRequest) (create_event_id : EventId) (create_event_json signed_event : CanonicalJsonObject)
    (pdu : Pdu) (sender_user recipient_user : UserId) : M unit :=
  _ ← modify (add_pdu_outlier create_event_id create_event_json);
  _ ← mark_as_invited recipient_user (room req) sender_user (invite_room_state req) signed_event (via req);
  _ ← modify (update_joined_count (room req));
  notify_appservices pdu recipient_user.

(** What is checked before anything changes: the events and users, and the event with this server's signature.
    @src src/src/api/server/invite.rs:32-151 create_invite_route *)
Definition validate_invite (s : S) (req : InviteRequest) :
    res (EventId * CanonicalJsonObject * CanonicalJsonObject * UserId * UserId) :=
  rules ← ok_or_fail EIncompatibleRoomVersion (room_version req);
  _ ← ensure (negb (is_remote_server_forbidden config (identity req))) EForbidden;
  '(create_event_id, state) ← validate_invite_state s (invite_room_state req) rules (room req);
  create_event_json ← expect (state !! (RoomCreate, ""));
  creator ← expect (user_field create_event_json "sender");
  _ ← ensure (negb (is_remote_server_forbidden config (user_server_name creator))) EForbidden;
  '(signed_event, sender_user, recipient_user) ←
    validate_invite_membership_event s (invite_event req) rules (identity req) create_event_id (room req) (request_event_id req);
  _ ← ensure (negb (is_banned s (room req)) || is_admin s recipient_user) EForbidden;
  _ ← ensure (negb block_non_admin_invites || is_admin s recipient_user) EForbidden;
  _ ← ensure (user_may_invite sender_user recipient_user (room req)) EForbidden;
  _ ← (if server_in_room s own_name (room req) then
         _ ← acl_check (identity req) (server_acl (room_status s (room req)));
         map_err EForbidden (acl_check (user_server_name recipient_user) (server_acl (room_status s (room req))))
       else Ok tt);
  signed_event ← map_err EInvalidParam (hash_and_sign_event signed_event rules);
  Ok (create_event_id, create_event_json, <["event_id" := CString (request_event_id req)]> signed_event, sender_user, recipient_user).

(** @src src/src/api/server/invite.rs:31-230 create_invite_route *)
Definition create_invite_route (req : InviteRequest) : M CanonicalJsonObject :=
  s ← gets id;
  '(create_event_id, create_event_json, signed_event, sender_user, recipient_user) ← pure (validate_invite s req);
  pdu ← pure (expect (from_id_val (request_event_id req) signed_event));
  _ ← (if server_in_room s own_name (room req) then mret tt
       else record_invite req create_event_id create_event_json signed_event pdu sender_user recipient_user);
  gets (fun s => convert_to_outgoing_federation_event s signed_event).
End Invites.

(** * An invite of another server is taken only with a state that fits it: all events of the room, signed, no
    two for one key, with a valid create event; and only from a server and for a user that may be invited. *)

Section Spec.
Context `{!Ruma} {S position : Type} `{!EventStore S position, !RoomServices S position, !RoomAccess S}.
Context `{!PduOfJson, !HandlerLibrary, !LocalLibrary, !LocalServices S position}.
Context `{!MembershipLibrary, !MembershipServices S, !InviteLibrary, !InviteServices S} (config : ModerationConfig).
Context `{!HashIter (string * string), !HashIterLaws (string * string)} (own_name : string).

Abbreviation M A := (eff S HandlerError A).
Abbreviation res A := (comp HandlerError A).

(** ** The state of an invite *)

(** An event that was sent as part of the state, under its key. *)
Definition state_event_sent (s : S) (rules : VersionRules) (rid : RoomId) (sent : list (option string)) (eid : EventId)
    (key : string * string) (json : CanonicalJsonObject) : Prop :=
  ∃ raw, Some raw ∈ sent ∧ parse_incoming_pdu (get_room_version s) raw (Some rules) = Ok (rid, eid, json) ∧
    is_Some (verify_event_json json rules) ∧ str_field json "type" = Some key.1 ∧ str_field json "state_key" = Some key.2.

(** A create event that authorises itself, of a room that is not closed to other servers. *)
Definition valid_create (rules : VersionRules) (eid : EventId) (json : CanonicalJsonObject) : Prop :=
  ∃ pdu, from_id_val eid json = Some pdu ∧
    auth_check (room_rules rules) pdu None (fun _ _ => None) pdu = Ok true ∧
    de_mfederate (content pdu) ≠ Some (Some false) ∧ is_Some (de_mfederate (content pdu)).

Record valid_state (s : S) (rules : VersionRules) (rid : RoomId) (sent : list (option string)) (create_event_id : EventId)
    (state : gmap (string * string) CanonicalJsonObject) : Prop := {
  vs_events key json : state !! key = Some json → ∃ eid, state_event_sent s rules rid sent eid key json;
  vs_all : length sent = size state;
  vs_create : ∃ sk json, state !! (RoomCreate, sk) = Some json ∧ state_event_sent s rules rid sent create_event_id (RoomCreate, sk) json;
  vs_creates sk json : state !! (RoomCreate, sk) = Some json →
    ∃ eid, state_event_sent s rules rid sent eid (RoomCreate, sk) json ∧ valid_create rules eid json;
  vs_format key json : state !! key = Some json → pdu_format_check_1 json rules create_event_id = Ok tt;
}.

Lemma state_event_sent_cons s rules rid o sent eid key json :
  state_event_sent s rules rid sent eid key json → state_event_sent s rules rid (o :: sent) eid key json.
Proof. intros (raw & Hin & ?). exists raw. split; [by constructor|done]. Qed.

Lemma validate_state_event_Ok s rules rid o eid key json : validate_state_event s rules rid o = Ok (eid, key, json) →
  state_event_sent s rules rid [o] eid key json.
Proof.
  unfold validate_state_event. intros (raw & Ho%ok_or_Ok & Hrun)%bind_Ok.
  apply bind_Ok in Hrun as ([[r i] j] & Hparse%map_err_Ok & Hrun).
  apply bind_Ok in Hrun as ([] & Hr%ensure_Ok%bool_decide_eq_true_1 & Hrun). apply bind_Ok in Hrun as (v & Hv%ok_or_Ok & Hrun).
  apply bind_Ok in Hrun as (sk & Hsk%ok_or_Ok & Hrun). apply bind_Ok in Hrun as (ty & Hty%ok_or_Ok & Hrun).
  injection Hrun as <- <- <-. subst. exists raw. split_and!; [by constructor|done|by exists v|done|done].
Qed.

Lemma validate_invite_create_event_Ok rules eid json pdu : from_id_val eid json = Some pdu →
  validate_invite_create_event pdu rules = Ok tt → valid_create rules eid json.
Proof.
  intros Hpdu. unfold validate_invite_create_event. intros (passes & Hp & Hrun)%bind_Ok.
  apply bind_Ok in Hrun as ([] & ->%ensure_Ok & Hrun). apply bind_Ok in Hrun as (fed & Hfed%ok_or_Ok & Hrun%ensure_Ok).
  exists pdu. split_and!; [done| |by rewrite Hfed; intros [= ->]|by exists fed].
  by destruct (auth_check _ _ _ _ _) as [|[]]; simplify_eq.
Qed.

(** What holds of the events of a state that were gone through. *)
Record collected (s : S) (rules : VersionRules) (rid : RoomId) (sent : list (option string)) (create_event_id : option EventId)
    (state : gmap (string * string) CanonicalJsonObject) : Prop := {
  co_events key json : state !! key = Some json → ∃ eid, state_event_sent s rules rid sent eid key json ∧
    (key.1 = RoomCreate → valid_create rules eid json);
  co_all : length sent = size state;
  co_create eid : create_event_id = Some eid → ∃ sk json,
    state !! (RoomCreate, sk) = Some json ∧ state_event_sent s rules rid sent eid (RoomCreate, sk) json;
}.

Lemma collect_invite_state_Ok s rules rid todo sent create state create' state' :
  collected s rules rid sent create state → collect_invite_state s rules rid todo create state = Ok (create', state') →
  ∃ sent', sent' ≡ₚ todo ++ sent ∧ collected s rules rid sent' create' state'.
Proof.
  revert sent create state. induction todo as [|o todo IH]; intros sent create state Hco Hrun; cbn [collect_invite_state] in Hrun.
  { injection Hrun as <- <-. by exists sent. }
  apply bind_Ok in Hrun as ([[eid key] json] & Hev%validate_state_event_Ok & Hrun).
  apply bind_Ok in Hrun as ([] & Hnew%ensure_Ok%bool_decide_eq_true_1 & Hrun). apply bind_Ok in Hrun as (create2 & Hc & Hrun).
  assert (state_event_sent s rules rid (o :: sent) eid key json) as Hsent.
  { destruct Hev as (raw & Hin & ?). apply list_elem_of_singleton in Hin as <-. exists raw. split; [by constructor|done]. }
  assert (create2 = Some eid ∧ key.1 = RoomCreate ∧ valid_create rules eid json ∨ create2 = create ∧ key.1 ≠ RoomCreate) as Hcase.
  { unfold checked_create in Hc. case_decide as Hk; [left|right; by injection Hc].
    apply bind_Ok in Hc as (pdu & Hpdu%ok_or_Ok & Hc). apply bind_Ok in Hc as ([] & Hv & Hc). injection Hc as <-.
    split_and!; [done..|by eapply validate_invite_create_event_Ok]. }
  eapply (IH (o :: sent)) in Hrun as (sent' & Hp & Hco').
  { exists sent'. split; [|done]. rewrite Hp. by rewrite <-Permutation_middle. }
  destruct Hco as [Hevents Hall Hcreate]. split.
  - intros key' json'. destruct (decide (key' = key)) as [->|Hne].
    + rewrite lookup_insert_eq. intros [= <-]. exists eid. split; [done|]. intros ?. by destruct Hcase as [(_ & _ & ?)|[_ ?]].
    + rewrite lookup_insert_ne by done. intros (eid' & ? & ?)%Hevents. exists eid'. split; [by apply state_event_sent_cons|done].
  - rewrite map_size_insert_None by done. simpl. by rewrite Hall.
  - intros eid' Heid. destruct Hcase as [(-> & Hk & _)|[-> _]].
    + injection Heid as ->. destruct key as [ty sk]; simpl in *; subst ty. exists sk, json. by rewrite lookup_insert_eq.
    + destruct (Hcreate _ Heid) as (sk & json' & Hsk & ?). exists sk, json'.
      rewrite lookup_insert_ne by (intros ->; congruence). split; [done|by apply state_event_sent_cons].
Qed.

Lemma state_event_sent_perm s rules rid sent sent' eid key json : sent ≡ₚ sent' →
  state_event_sent s rules rid sent eid key json → state_event_sent s rules rid sent' eid key json.
Proof. intros Hp (raw & Hin & ?). exists raw. by rewrite <-Hp. Qed.

Lemma validate_invite_state_Ok s sent rules rid create state :
  validate_invite_state s sent rules rid = Ok (create, state) → valid_state s rules rid sent create state.
Proof.
  unfold validate_invite_state. intros ([create' state'] & Hcol & Hrun)%bind_Ok.
  apply bind_Ok in Hrun as (c & Hc%ok_or_Ok & Hrun). apply bind_Ok in Hrun as (l & Hformat & Hrun). injection Hrun as -> ->. subst.
  eapply (collect_invite_state_Ok _ _ _ _ []) in Hcol as (sent' & Hp & [Hevents Hall Hcreate]).
  2: { split; [intros key json; by rewrite lookup_empty|by rewrite map_size_empty|done]. }
  rewrite app_nil_r in Hp. split.
  - intros key json (eid & ? & _)%Hevents. exists eid. by eapply state_event_sent_perm.
  - by rewrite <-Hall, Hp.
  - destruct (Hcreate create eq_refl) as (sk & json & ? & ?). exists sk, json. split; [done|by eapply state_event_sent_perm].
  - intros sk json (eid & ? & Hv)%Hevents. exists eid. split; [by eapply state_event_sent_perm|by apply Hv].
  - intros key json Hjson.
    assert ((key, json) ∈ iter_map state) as Hin by (by rewrite iter_map_perm; apply elem_of_map_to_list).
    clear -Hformat Hin. revert l Hformat. induction (iter_map state) as [|[k j] todo IH]; intros l Hf; [by apply not_elem_of_nil in Hin|].
    simpl in Hf. apply bind_Ok in Hf as ([] & Hj%map_err_Ok & Hf). apply bind_Ok in Hf as (l' & Hl' & _).
    apply elem_of_cons in Hin as [[= -> ->]|Hin]; [done|by eapply IH].
Qed.

(** ** The invite *)

Record valid_invite (s : S) (req : InviteRequest) (rules : VersionRules) (create_event_id : EventId)
    (create_json signed : CanonicalJsonObject) (snd recipient : UserId) : Prop := {
  vi_version : room_version req = Some rules;
  vi_origin : is_remote_server_forbidden config (identity req) = false;
  vi_state : ∃ state creator, valid_state s rules (room req) (invite_room_state req) create_event_id state ∧
    state !! (RoomCreate, "") = Some create_json ∧ user_field create_json "sender" = Some creator ∧
    is_remote_server_forbidden config (user_server_name creator) = false;
  vi_event : ∃ value, membership_event s rules create_event_id (room req) (request_event_id req) (invite_event req) value "invite" snd recipient ∧
    ∃ json, hash_and_sign_event value rules = Ok json ∧ signed = <["event_id" := CString (request_event_id req)]> json;
  vi_sender : user_server_name snd = identity req;
  vi_recipient : user_is_local recipient = true;
  vi_banned : is_banned s (room req) = true ∨ block_non_admin_invites = true → is_admin s recipient = true;
  vi_spam : user_may_invite snd recipient (room req) = true;
  vi_acl : server_in_room s own_name (room req) = true →
    acl_allows s (identity req) (room req) ∧ acl_allows s (user_server_name recipient) (room req);
}.

Lemma validate_invite_Ok s req create create_json signed snd recipient :
  validate_invite config own_name s req = Ok (create, create_json, signed, snd, recipient) →
  ∃ rules, valid_invite s req rules create create_json signed snd recipient.
Proof.
  unfold validate_invite. intros (rules & Hrules%ok_or_Ok & Hrun)%bind_Ok.
  apply bind_Ok in Hrun as ([] & Hf%ensure_Ok%negb_true_iff & Hrun).
  apply bind_Ok in Hrun as ([c state] & Hstate%validate_invite_state_Ok & Hrun).
  apply bind_Ok in Hrun as (cj & Hcj%ok_or_Ok & Hrun). apply bind_Ok in Hrun as (creator & Hcr%ok_or_Ok & Hrun).
  apply bind_Ok in Hrun as ([] & Hf'%ensure_Ok%negb_true_iff & Hrun).
  apply bind_Ok in Hrun as ([[value snd'] rec'] & Hev & Hrun).
  apply bind_Ok in Hrun as ([] & Hban%ensure_Ok & Hrun). apply bind_Ok in Hrun as ([] & Hblock%ensure_Ok & Hrun).
  apply bind_Ok in Hrun as ([] & Hspam%ensure_Ok & Hrun). apply bind_Ok in Hrun as ([] & Hacl & Hrun).
  apply bind_Ok in Hrun as (json & Hjson%map_err_Ok & Hrun). injection Hrun as -> -> <- -> ->.
  unfold validate_invite_membership_event in Hev.
  apply bind_Ok in Hev as ([[[v m] u] t] & Hany%validate_any_membership_Ok & Hev).
  apply bind_Ok in Hev as ([] & Ho%ensure_Ok%bool_decide_eq_true_1 & Hev). apply bind_Ok in Hev as ([] & Hl%ensure_Ok & Hev).
  apply bind_Ok in Hev as ([] & ->%ensure_Ok%bool_decide_eq_true_1 & Hev). injection Hev as -> -> ->.
  exists rules. split; [done|done|by exists state, creator|exists value; split; [done|by exists json]|done|done| |done|].
  - intros [Hb|Hb]; [rewrite Hb in Hban|rewrite Hb in Hblock]; done.
  - intros Hres. rewrite Hres in Hacl. by apply bind_Ok in Hacl as ([] & ? & ?%map_err_Ok).
Qed.

(** C35: What an invite of another server does.  It is refused and changes nothing, or the configuration
    deals with the server and with the server that made the room, the state that came with it is valid (every
    event of the room, signed, in the room's format, no two for one type and key, every create event
    authorised by itself and of a room open to other servers), and so is the event: signed, an invite of a local
    user by a user of the asking server, who may invite where rooms are banned or invites blocked only an
    admin, and where this server is in the room the list of the room lets both servers in.  A room that
    this server is in is left as it was, as the invite comes with the room's events; of another the create event and the invite
    are kept. *)
Theorem invite_guarded (s : S) (req : InviteRequest) r (s' : S) :
  create_invite_route config own_name req s = (r, s') →
  s' = s ∧ is_ok r = false ∨
  ∃ rules create create_json signed snd recipient pdu,
    valid_invite s req rules create create_json signed snd recipient ∧ from_id_val (request_event_id req) signed = Some pdu ∧
    (is_ok r = true → r = Ok (convert_to_outgoing_federation_event s' signed)) ∧
    if server_in_room s own_name (room req) then s' = s ∧ is_ok r = true
    else ∃ recorded, record_invite req create create_json signed pdu snd recipient s = (recorded, s') ∧ is_ok recorded = is_ok r.
Proof.
  unfold create_invite_route. rewrite bind_gets_id. intros Hrun.
  apply pure_bind_run in Hrun as [?|([[[[create create_json] signed] snd] recipient] & Hv & Hrun)]; [by left|].
  apply pure_bind_run in Hrun as [?|(pdu & Hpdu%ok_or_Ok & Hrun)]; [by left|]. right.
  apply validate_invite_Ok in Hv as [rules Hv]. exists rules, create, create_json, signed, snd, recipient, pdu.
  split; [done|]. split; [done|].
  destruct (server_in_room s own_name (room req)).
  - unfold mbind, eff_bind, mret, eff_ret, gets in Hrun. injection Hrun as <- <-. done.
  - unfold mbind at 1, eff_bind in Hrun.
    destruct (record_invite req create create_json signed pdu snd recipient s) as [[[]|e] s1]; injection Hrun as <- <-.
    + split; [done|]. by exists (Ok tt).
    + split; [done|]. by exists (Err e).
Qed.
End Spec.
