(* ===== verification/EventStoreDb.v ===== *)
(** The store of events over the database: the marks, outliers and timeline of PduMetadata.v and
    Timeline.v keep the laws that the handling of events relies on (EventStore.v).

    Identifiers are keys byte by byte; events are kept as the JSON text that [serde_json] writes and
    reads, a parameter. *)

From stdpp Require Import prelude gmap strings.
From Stdlib Require Import ZArith Lia.
From S2P Require Import Prelude Bytes PduCount DbSer Database PairKeys Timeline PduMetadata Event RumaExample Effects EventStore.

(** [serde_json]: the text of an object, and the object of a text. *)
Class JsonText `{!Ruma} := {
  json_text : CanonicalJsonObject → bytes;
  object_of_text : bytes → option CanonicalJsonObject;
}.

Local Open Scope Z_scope.

Section EventStoreDb.
Context `{!Parsers, !Ruma, !PduOfJson, !JsonText, !PduJson Pdu}.

(** What is written is read back. *)
Class JsonTextLaws : Prop := {
  text_utf8 j : valid_utf8 (json_text j);
  text_json j : json_ok (json_text j);
  text_read j : parse_pdu (json_text j) = pdu_of_json j;
}.

(** [race] says which of two reads at once is first. *)
Context (race : bool).

(** What a write that cannot fail leaves. *)
Definition written (d : Db) (r : comp db_error Db) : Db := match r with Ok d' => d' | Err _ => d end.

#[export] Instance db_event_store : EventStore Db RawId := {|
  EventStore.get_pdu d id := ok (Timeline.get_pdu race d (str_codes id));
  EventStore.pdu_exists d id := is_ok (Timeline.pdu_exists race d (str_codes id));
  EventStore.get_pdu_id d id := ok (Timeline.get_pdu_id d (str_codes id));
  EventStore.non_outlier_pdu_exists d id := is_ok (Timeline.non_outlier_pdu_exists d (str_codes id));
  EventStore.get_pdu_json d id :=
    text ← ok (select_ok race (pduid ← Timeline.get_pdu_id d (str_codes id); get d pduid_pdu (as_bytes pduid))
                 (get d eventid_outlierpdu (str_codes id)));
    object_of_text text;
  EventStore.outlier_pdu_exists d id := is_ok (Timeline.outlier_pdu_exists d (str_codes id));
  EventStore.is_event_rejected d id := PduMetadata.is_event_rejected d (str_codes id);
  EventStore.is_event_soft_failed d id := PduMetadata.is_event_soft_failed d (str_codes id);
  EventStore.is_event_referenced d rid id := PduMetadata.is_event_referenced d (str_codes rid) (str_codes id);
  EventStore.add_pdu_outlier id j d := written d (PduMetadata.add_pdu_outlier d (str_codes id) (json_text j));
  EventStore.mark_event_rejected id d := PduMetadata.mark_event_rejected d (str_codes id);
  EventStore.mark_event_soft_failed id d := PduMetadata.mark_event_soft_failed d (str_codes id);
  EventStore.mark_as_referenced rid ids d :=
    written d (PduMetadata.mark_as_referenced d (str_codes rid) (str_codes <$> ids));
|}.

(** ** Reads depend on their columns *)

Lemma get_pdu_columns d d' id : d' eventid_pduid = d eventid_pduid → d' pduid_pdu = d pduid_pdu →
  d' eventid_outlierpdu !! id = d eventid_outlierpdu !! id →
  Timeline.get_pdu (P := Pdu) race d' id = Timeline.get_pdu race d id.
Proof. intros He Hp Ho. apply get_pdu_same; [by rewrite He|done|intros; by rewrite Hp]. Qed.

Lemma get_pdu_id_columns d d' id : d' eventid_pduid = d eventid_pduid → Timeline.get_pdu_id d' id = Timeline.get_pdu_id d id.
Proof. intros He. apply get_pdu_id_same. by rewrite He. Qed.

Lemma non_outlier_exists_columns d d' id : d' eventid_pduid = d eventid_pduid → d' pduid_pdu = d pduid_pdu →
  Timeline.non_outlier_pdu_exists d' id = Timeline.non_outlier_pdu_exists d id.
Proof. intros He Hp. unfold Timeline.non_outlier_pdu_exists, Timeline.get_pdu_id, get. by rewrite He, Hp. Qed.

Lemma pdu_exists_columns d d' id : d' eventid_pduid = d eventid_pduid → d' pduid_pdu = d pduid_pdu →
  d' eventid_outlierpdu !! id = d eventid_outlierpdu !! id →
  Timeline.pdu_exists race d' id = Timeline.pdu_exists race d id.
Proof.
  intros He Hp Ho. unfold Timeline.pdu_exists. rewrite (non_outlier_exists_columns d d') by done.
  unfold Timeline.outlier_pdu_exists, get. by rewrite Ho.
Qed.

Lemma select_ok_true {E A} (a b : comp E A) : is_ok (select_ok race a b) = is_ok a || is_ok b.
Proof. unfold select_ok. by destruct race, a, b. Qed.

Lemma mark_rejected_lookup d id id' :
  PduMetadata.is_event_rejected (PduMetadata.mark_event_rejected d id) id' = bool_decide (id' = id) || PduMetadata.is_event_rejected d id'.
Proof.
  unfold PduMetadata.is_event_rejected, PduMetadata.mark_event_rejected, get. rewrite insert_same.
  destruct (decide (id' = id)) as [->|Hne].
  - by rewrite lookup_insert_eq, bool_decide_eq_true_2.
  - by rewrite lookup_insert_ne, bool_decide_eq_false_2 by done.
Qed.

Lemma mark_soft_failed_lookup d id id' :
  PduMetadata.is_event_soft_failed (PduMetadata.mark_event_soft_failed d id) id' = bool_decide (id' = id) || PduMetadata.is_event_soft_failed d id'.
Proof.
  unfold PduMetadata.is_event_soft_failed, PduMetadata.mark_event_soft_failed, get. rewrite insert_same.
  destruct (decide (id' = id)) as [->|Hne].
  - by rewrite lookup_insert_eq, bool_decide_eq_true_2.
  - by rewrite lookup_insert_ne, bool_decide_eq_false_2 by done.
Qed.

(** Marking events as referenced writes one column, a key for each. *)
Lemma mark_as_referenced_run d rid ids : ∃ d', PduMetadata.mark_as_referenced d rid ids = Ok d'
  ∧ (∀ c, c ≠ referencedevents → d' c = d c)
  ∧ ∀ id, PduMetadata.is_event_referenced d' rid id = bool_decide (id ∈ ids) || PduMetadata.is_event_referenced d rid id.
Proof.
  revert d. induction ids as [|x ids IH]; intros d.
  { exists d. split_and!; [done..|]. intros id. by rewrite bool_decide_eq_false_2 by set_solver. }
  cbn [PduMetadata.mark_as_referenced]. unfold put_raw, bput_raw. rewrite serialize_pair. cbn [expect_ok mbind result_bind].
  destruct (IH (insert d referencedevents (pair_key rid x) [])) as (d' & Hrun & Hother & Href).
  exists d'. split_and!; [done| |].
  - intros c Hc. rewrite Hother, insert_other by done. done.
  - intros id. rewrite Href. unfold PduMetadata.is_event_referenced at 1 2, qry, bqry. rewrite serialize_pair. simpl.
    unfold get. rewrite insert_same. destruct (decide (id = x)) as [->|Hne].
    + rewrite lookup_insert_eq, (bool_decide_eq_true_2 (x ∈ x :: ids)) by by left. apply orb_true_r.
    + rewrite lookup_insert_ne. 2:{ intros [= Heq]%app_inv_head. done. }
      f_equal. apply bool_decide_ext. set_solver.
Qed.

Lemma add_outlier_run d id j : written d (PduMetadata.add_pdu_outlier d id j) = insert d eventid_outlierpdu id j.
Proof. unfold PduMetadata.add_pdu_outlier. by rewrite raw_put_json_spec. Qed.

Lemma codes_bool (id id' : string) : bool_decide (str_codes id' = str_codes id) = bool_decide (id' = id).
Proof. apply bool_decide_ext. split; [apply (inj str_codes)|by intros ->]. Qed.

Lemma marked_columns d rid (ids : list string) c : c ≠ referencedevents →
  written d (PduMetadata.mark_as_referenced d rid (str_codes <$> ids)) c = d c.
Proof. destruct (mark_as_referenced_run d rid (str_codes <$> ids)) as (d' & -> & Hother & _). apply Hother. Qed.

Lemma marked_referenced d rid (ids : list string) id :
  PduMetadata.is_event_referenced (written d (PduMetadata.mark_as_referenced d rid (str_codes <$> ids))) rid (str_codes id)
  = bool_decide (id ∈ ids) || PduMetadata.is_event_referenced d rid (str_codes id).
Proof.
  destruct (mark_as_referenced_run d rid (str_codes <$> ids)) as (d' & -> & _ & Href). simpl. rewrite Href.
  f_equal. apply bool_decide_ext. rewrite list_elem_of_fmap. split; [|eauto].
  intros (id' & Heq & Hin). by apply (inj str_codes) in Heq as ->.
Qed.

(** ** The laws *)

Lemma get_pdu_exists d id : is_ok (Timeline.get_pdu (P := Pdu) race d id) = true →
  is_ok (Timeline.pdu_exists race d id) = true.
Proof.
  unfold Timeline.get_pdu, Timeline.pdu_exists. rewrite !select_ok_true, !orb_true_iff.
  unfold get_non_outlier_pdu, Timeline.non_outlier_pdu_exists, get_pdu_from_id, Timeline.outlier_pdu_exists.
  intros [Hget|Hget]; [left|right].
  - destruct (Timeline.get_pdu_id d id) as [pduid|]; [|done]. simpl in *. by destruct (get d pduid_pdu _).
  - by destruct (get d eventid_outlierpdu id).
Qed.

Lemma exists_outlier_bool d id j id' :
  is_ok (Timeline.pdu_exists race (insert d eventid_outlierpdu id j) id')
  = bool_decide (id' = id) || is_ok (Timeline.pdu_exists race d id').
Proof.
  unfold Timeline.pdu_exists. rewrite !select_ok_true, (non_outlier_exists_columns d) by done.
  unfold Timeline.outlier_pdu_exists, get. rewrite insert_same. destruct (decide (id' = id)) as [->|Hne].
  - rewrite lookup_insert_eq, bool_decide_eq_true_2 by done. simpl. apply orb_true_r.
  - by rewrite lookup_insert_ne, bool_decide_eq_false_2 by done.
Qed.

Context `{!JsonTextLaws}.

Lemma get_added_outlier d id j ev : ok (Timeline.get_pdu_id d id) = None → pdu_of_json j = Some ev →
  Timeline.get_pdu race (insert d eventid_outlierpdu id (json_text j)) id = Ok ev.
Proof.
  intros Hid Hj. unfold Timeline.get_pdu, get_non_outlier_pdu. rewrite (get_pdu_id_columns d) by done.
  unfold get at 1. rewrite insert_same, lookup_insert_eq. cbn [ok_or_fail ok_or].
  rewrite deserialized_json by first [apply text_utf8|apply text_json]. rewrite text_read, Hj.
  unfold select_ok. by destruct (Timeline.get_pdu_id d id), race.
Qed.

(** C39: The database keeps events the way their handling asks: an event that is stored as an outlier is
    found, unless it is in the timeline; storing one and marking an event as rejected, soft-failed or
    referenced changes what is said of that event only, and of nothing but that. *)
Theorem database_keeps_events : EventStoreLaws Db RawId.
Proof.
  split; simpl; intros; rewrite ?add_outlier_run;
    try (f_equal; first
      [ apply get_pdu_columns; [by rewrite ?marked_columns|by rewrite ?marked_columns|];
        rewrite ?marked_columns, ?insert_same, ?insert_other by done; done
      | apply get_pdu_id_columns; by rewrite ?marked_columns
      | apply pdu_exists_columns; done ]; fail).
  - apply get_pdu_exists. by destruct (Timeline.get_pdu _ _ _).
  - by erewrite get_added_outlier.
  - f_equal. apply get_pdu_columns; [done..|]. rewrite insert_same. apply lookup_insert_ne.
    intros Heq. apply (inj str_codes) in Heq. congruence.
  - by rewrite exists_outlier_bool, codes_bool.
  - by rewrite mark_rejected_lookup, codes_bool.
  - by rewrite mark_soft_failed_lookup, codes_bool.
  - unfold Timeline.outlier_pdu_exists, get. by rewrite marked_columns.
  - unfold PduMetadata.is_event_rejected, get. by rewrite marked_columns.
  - unfold PduMetadata.is_event_soft_failed, get. by rewrite marked_columns.
  - apply marked_referenced.
Qed.
End EventStoreDb.

Module StoreWitness.
#[local] Instance any_parsers : Parsers := {| json_ok _ := true; cbor_ok _ := true |}.
(** Two events; their texts are "A" and "B", that of anything else is empty. *)
#[local] Instance table : PduOfJson := fun j =>
  match j !! "event_id" with
  | Some (CString id) => if decide (id = "$create") then Some ev_create
                         else if decide (id = "$levels") then Some ev_levels else None
  | _ => None
  end.
#[local] Instance text : JsonText := {|
  json_text j := match j !! "event_id" with
                 | Some (CString id) => if decide (id = "$create") then [65] else if decide (id = "$levels") then [66] else []
                 | _ => []
                 end;
  object_of_text _ := None;
|}.
#[local] Instance read : PduJson Pdu := fun text =>
  if decide (text = [65]) then Some ev_create else if decide (text = [66]) then Some ev_levels else None.
Lemma text_laws : JsonTextLaws.
Proof.
  split; intros j; try done; unfold json_text, text, table, parse_pdu, read, pdu_of_json;
    destruct (j !! "event_id") as [[]|]; try done; repeat case_decide; done.
Qed.

Lemma database_keeps_events_witness : JsonTextLaws ∧ EventStoreLaws Db RawId (H0 := db_event_store true).
Proof. split; [exact text_laws|]. exact (database_keeps_events true (H3 := text_laws)). Defined.
End StoreWitness.
