(* ===== verification/ExampleStore.v ===== *)
(** A store of events in memory and a small world around it, on which the theorems about the handling of
    events are evaluated: an implementation of [EventStore] and [RoomServices] by maps, which obeys
    their laws; JSON that names an event of a given list; and servers that answer from that list. *)

From stdpp Require Import prelude gmap strings.
From Stdlib Require Import ZArith Lia.
From Stdlib.Strings Require Import Ascii.
From S2P Require Import Prelude TopoSort Event EventAuth RumaExample Effects EventStore EventChecks.

(** ** JSON of given events *)

Definition v11_rules : VersionRules :=
  {| room_rules := room_v11; require_room_create_room_id := true; allow_room_create_in_auth_events := true;
     event_id_format := IdV3; events_reference_v1 := false; content_field_redacts := true |}.

(** The same with the identifiers of the first versions, which events carry. *)
Definition v1_rules : VersionRules :=
  {| room_rules := room_v11; require_room_create_room_id := true; allow_room_create_in_auth_events := true;
     event_id_format := IdV1; events_reference_v1 := true; content_field_redacts := false |}.

(** An event's JSON; the "hash" is what its identifier is computed from. *)
Definition json_of (ev : Pdu) : CanonicalJsonObject :=
  {["hash" := CString (event_id ev); "type" := CString (kind ev); "room_id" := CString (default "" (room_id ev));
    "auth_events" := CArray (CString <$> auth_events ev); "prev_events" := CArray (CString <$> prev_events ev);
    "origin_server_ts" := CInteger (origin_server_ts ev)]}
  ∪ match state_key ev with Some sk => {["state_key" := CString sk]} | None => ∅ end.
Definition full_json_of (ev : Pdu) : CanonicalJsonObject := <["event_id" := CString (event_id ev)]> (json_of ev).

(** An event without a sender. *)
Definition malformed : CanonicalJsonObject :=
  {["hash" := CString "$malformed"; "type" := CString "m.room.message"; "room_id" := CString "!r:a";
    "auth_events" := CArray []; "prev_events" := CArray []]}.

Section Library.
Context (rules : VersionRules) (events : list Pdu).

Definition example_event (id : EventId) : option Pdu := snd <$> list_find (fun ev => event_id ev = id) events.

Definition example_pdu_of_json : PduOfJson := fun j => str_field j "event_id" ≫= example_event.

(** A raw event is its identifier; a forged one has no valid signature; no content names an event that it
    redacts. *)
Definition example_library : HandlerLibrary := {|
  json_length _ := Some 100;
  de_object raw :=
    if decide (raw = "$malformed") then Some malformed
    else if decide (event_id_format rules = IdV1) then full_json_of <$> example_event raw
    else json_of <$> example_event raw;
  base64_ok _ _ := true;
  de_room_version _ := Some (Some rules);
  de_content_redacts _ := None;
  reference_hash _ v := str_field v "hash";
  redact _ v := Some v;
  to_canonical_object := full_json_of;
  de_ExtractBody _ := Some None;
  room_version_of_str _ := Some (Some rules);
  rules_v1 := v11_rules;
  verify_event_json v _ := match v !! "forged" with Some _ => None | None => Some VerifiedAll end;
|}.

(** A server that has the given chain for every event, and every event by its identifier. *)
Definition example_federation (chain : list EventId) : Federation := {|
  send_event_authorization _ _ := Some chain;
  send_missing_events _ _ _ _ _ _ := Some [];
  send_event _ id := Some id;
  send_state_ids _ _ _ := Err (Fail ENotFound);
  send_state _ _ _ := None;
  policy_server_allows_event _ v _ _ := Ok v;
|}.
End Library.

(** ** The store *)

Record mem := {
  mem_timeline : gmap EventId (nat * Pdu);
  mem_outliers : gmap EventId CanonicalJsonObject;
  mem_rejected : gset EventId;
  mem_soft_failed : gset EventId;
  mem_referenced : gset (RoomId * EventId);
  mem_keys : list (string * string);
  mem_states : list (gmap Z EventId);
  mem_event_state : gmap EventId Z;
  mem_room_state : option Z;
  mem_extremities : list EventId;
  mem_mindepth : Z;
  mem_pulls : gmap EventId (Z * Z);
}.

Definition empty_mem : mem :=
  {| mem_timeline := ∅; mem_outliers := ∅; mem_rejected := ∅; mem_soft_failed := ∅; mem_referenced := ∅;
     mem_keys := []; mem_states := []; mem_event_state := ∅; mem_room_state := None; mem_extremities := [];
     mem_mindepth := 0; mem_pulls := ∅ |}.

Definition with_outlier (id : EventId) (j : CanonicalJsonObject) (s : mem) : mem :=
  {| mem_timeline := mem_timeline s; mem_outliers := <[id := j]> (mem_outliers s); mem_rejected := mem_rejected s;
     mem_soft_failed := mem_soft_failed s; mem_referenced := mem_referenced s; mem_keys := mem_keys s;
     mem_states := mem_states s; mem_event_state := mem_event_state s; mem_room_state := mem_room_state s;
     mem_extremities := mem_extremities s; mem_mindepth := mem_mindepth s; mem_pulls := mem_pulls s |}.
Definition with_marks (rejected soft_failed : gset EventId) (referenced : gset (RoomId * EventId)) (s : mem) : mem :=
  {| mem_timeline := mem_timeline s; mem_outliers := mem_outliers s; mem_rejected := rejected;
     mem_soft_failed := soft_failed; mem_referenced := referenced; mem_keys := mem_keys s;
     mem_states := mem_states s; mem_event_state := mem_event_state s; mem_room_state := mem_room_state s;
     mem_extremities := mem_extremities s; mem_mindepth := mem_mindepth s; mem_pulls := mem_pulls s |}.
Definition with_timeline (timeline : gmap EventId (nat * Pdu)) (extremities : list EventId) (s : mem) : mem :=
  {| mem_timeline := timeline; mem_outliers := mem_outliers s; mem_rejected := mem_rejected s;
     mem_soft_failed := mem_soft_failed s; mem_referenced := mem_referenced s; mem_keys := mem_keys s;
     mem_states := mem_states s; mem_event_state := mem_event_state s; mem_room_state := mem_room_state s;
     mem_extremities := extremities; mem_mindepth := mem_mindepth s; mem_pulls := mem_pulls s |}.
Definition with_states (keys : list (string * string)) (states : list (gmap Z EventId))
    (event_state : gmap EventId Z) (room_state : option Z) (s : mem) : mem :=
  {| mem_timeline := mem_timeline s; mem_outliers := mem_outliers s; mem_rejected := mem_rejected s;
     mem_soft_failed := mem_soft_failed s; mem_referenced := mem_referenced s; mem_keys := keys;
     mem_states := states; mem_event_state := event_state; mem_room_state := room_state;
     mem_extremities := mem_extremities s; mem_mindepth := mem_mindepth s; mem_pulls := mem_pulls s |}.
Definition with_counts (mindepth : Z) (pulls : gmap EventId (Z * Z)) (s : mem) : mem :=
  {| mem_timeline := mem_timeline s; mem_outliers := mem_outliers s; mem_rejected := mem_rejected s;
     mem_soft_failed := mem_soft_failed s; mem_referenced := mem_referenced s; mem_keys := mem_keys s;
     mem_states := mem_states s; mem_event_state := mem_event_state s; mem_room_state := mem_room_state s;
     mem_extremities := mem_extremities s; mem_mindepth := mindepth; mem_pulls := pulls |}.

(** A short key is a place in the list of keys. *)
Definition key_index (s : mem) (ty sk : string) : option Z :=
  (fun p => Z.of_nat p.1) <$> list_find (fun k => k = (ty, sk)) (mem_keys s).

(** The events an event's authorisation rests on, to a depth. *)
Fixpoint mem_auth_chain (lookup : EventId → option Pdu) (fuel : nat) (ids : list EventId) : gset EventId :=
  match fuel with
  | O => ∅
  | S fuel => list_to_set ids ∪ ⋃ ((fun id => match lookup id with
                                            | Some ev => mem_auth_chain lookup fuel (auth_events ev)
                                            | None => ∅
                                            end) <$> ids)
  end.

Section Store.
Context (events : list Pdu).
#[local] Instance store_json : PduOfJson := example_pdu_of_json events.

#[export] Instance mem_store : EventStore mem nat := {|
  get_pdu s id := match mem_timeline s !! id with
                  | Some (_, ev) => Some ev
                  | None => mem_outliers s !! id ≫= pdu_of_json
                  end;
  pdu_exists s id := bool_decide (is_Some (mem_timeline s !! id)) || bool_decide (is_Some (mem_outliers s !! id));
  get_pdu_id s id := fst <$> mem_timeline s !! id;
  non_outlier_pdu_exists s id := bool_decide (is_Some (mem_timeline s !! id));
  get_pdu_json s id := match mem_timeline s !! id with
                       | Some (_, ev) => Some (full_json_of ev)
                       | None => mem_outliers s !! id
                       end;
  outlier_pdu_exists s id := bool_decide (is_Some (mem_outliers s !! id));
  is_event_rejected s id := bool_decide (id ∈ mem_rejected s);
  is_event_soft_failed s id := bool_decide (id ∈ mem_soft_failed s);
  is_event_referenced s rid id := bool_decide ((rid, id) ∈ mem_referenced s);
  add_pdu_outlier := with_outlier;
  mark_event_rejected id s := with_marks ({[id]} ∪ mem_rejected s) (mem_soft_failed s) (mem_referenced s) s;
  mark_event_soft_failed id s := with_marks (mem_rejected s) ({[id]} ∪ mem_soft_failed s) (mem_referenced s) s;
  mark_as_referenced rid l s :=
    with_marks (mem_rejected s) (mem_soft_failed s) (list_to_set ((fun id => (rid, id)) <$> l) ∪ mem_referenced s) s;
|}.

Lemma bool_or P Q R `{Decision P, Decision Q, Decision R} : (P ↔ Q ∨ R) → bool_decide P = bool_decide Q || bool_decide R.
Proof. intros Hiff. apply eq_bool_prop_intro. rewrite orb_True, !bool_decide_spec. done. Qed.

#[export] Instance mem_store_laws : EventStoreLaws mem nat.
Proof.
  split; try done; simpl.
  - intros s id ev. destruct (mem_timeline s !! id) as [[? ?]|]; [done|].
    by destruct (mem_outliers s !! id).
  - intros s id j ev Hg Hp Hj. rewrite lookup_insert_eq. simpl.
    by destruct (mem_timeline s !! id) as [[? ?]|].
  - intros s id j id' Hne. by rewrite lookup_insert_ne.
  - intros s id j id'. destruct (decide (id' = id)) as [->|Hne].
    + rewrite lookup_insert_eq, (bool_decide_eq_true_2 (id = id)), orb_true_l by done. apply orb_true_r.
    + rewrite lookup_insert_ne by done. by rewrite (bool_decide_eq_false_2 (id' = id)).
  - intros s id id'. apply bool_or. set_solver.
  - intros s id id'. apply bool_or. set_solver.
  - intros s r l id'. apply bool_or. rewrite elem_of_union, elem_of_list_to_set, list_elem_of_fmap. naive_solver.
Qed.

Context (creator : option Pdu).

#[export] Instance mem_services : RoomServices mem nat := {|
  get_shortstatekey := key_index;
  get_statekey_from_short s k := if decide (0 ≤ k)%Z then mem_keys s !! Z.to_nat k else None;
  get_or_create_shortstatekey ty sk s :=
    match key_index s ty sk with
    | Some k => (k, s)
    | None => (Z.of_nat (length (mem_keys s)),
               with_states (mem_keys s ++ [(ty, sk)]) (mem_states s) (mem_event_state s) (mem_room_state s) s)
    end;
  pdu_shortstatehash s id := mem_event_state s !! id;
  state_full_ids s h := default ∅ (mem_states s !! Z.to_nat h);
  get_room_shortstatehash s _ := mem_room_state s;
  event_ids_iter _ ids s := (Ok (mem_auth_chain (get_pdu s) 20 ids), s);
  get_auth_events s _ _ _ :=
    Ok (foldl (fun m '(k, id) =>
          match mem_keys s !! Z.to_nat k, get_pdu s id with Some key, Some ev => <[key := ev]> m | _, _ => m end)
        ∅ (map_to_list (default ∅ (h ← mem_room_state s; mem_states s !! Z.to_nat h))));
  user_can_redact _ _ _ _ := true;
  set_event_state id _ state s :=
    (Ok tt, with_states (mem_keys s) (mem_states s ++ [state])
              (<[id := Z.of_nat (length (mem_states s))]> (mem_event_state s)) (mem_room_state s) s);
  force_state _ entries s :=
    (Ok tt, with_states (mem_keys s) (mem_states s ++ [list_to_map entries]) (mem_event_state s)
              (Some (Z.of_nat (length (mem_states s)))) s);
  get_forward_extremities s _ := remove_dups (mem_extremities s);
  append_pdu pdu _ extremities _ s :=
    let n := size (mem_timeline s) in
    (Ok n, with_timeline (<[event_id pdu := (n, pdu)]> (mem_timeline s)) extremities s);
  room_status _ _ := {| is_disabled := false; room_exists := true; is_resident := true; server_acl := None;
                        room_create_event := creator; first_pdu_ts := Some 0%Z |};
  get_mindepth s _ := mem_mindepth s;
  set_mindepth _ n s := with_counts n (mem_pulls s) s;
  get_room_version _ _ := Some (Some v11_rules);
  candidate_backfill_servers _ _ := [];
  failed_pdu_pulls := mem_pulls;
  set_failed_pdu_pulls pulls s := with_counts (mem_mindepth s) pulls s;
|}.

#[export] Instance mem_services_laws : RoomServicesLaws mem nat.
Proof.
  split; try done; simpl.
  - intros id ty sk s. by destruct (key_index s ty sk).
  - intros id pdu json l rid s Hne. split; [done|]. simpl. by rewrite lookup_insert_ne.
Qed.
End Store.
