(* ===== verification/HandlerExamples.v ===== *)
(** The handling of events on a small room: witnesses, and runs that show where the code does not do
    what it means to. *)

From stdpp Require Import prelude gmap strings.
From Stdlib Require Import ZArith Lia.
From S2P Require Import Prelude TopoSort Event EventAuth RumaExample StateRes StateResMainline Effects EventStore EventChecks StateAtIncoming Outliers EventHandler Extremities OutliersSpec EventHandlerSpec ExampleStore.

(** Alice's room, and what bob sends to it. *)
Definition message (id : EventId) (who : UserId) (prev auth : list EventId) : Pdu :=
  {| event_id := id; room_id := Some "!r:a"; sender := who; origin_server_ts := 10; kind := "m.room.message";
     content := JOther; state_key := None; prev_events := prev; auth_events := auth; redacts := None; depth := 6 |}.
Definition hello : Pdu := message "$hello" bob ["$bob"] ["$create"; "$levels"; "$bob"].
Definition room_events : list Pdu :=
  [ev_create; ev_member "$alice" alice Join; ev_levels; ev_rules JRPublic; ev_member "$bob" bob Join; hello].
Definition state_keys : list (string * string) :=
  [(RoomCreate, ""); (RoomMember, alice); (RoomPowerLevels, ""); (RoomJoinRules, ""); (RoomMember, bob)].
Definition full_state : gmap Z EventId :=
  {[0%Z := "$create"; 1%Z := "$alice"; 2%Z := "$levels"; 3%Z := "$rules"; 4%Z := "$bob"]}.
Definition room_mem : mem :=
  with_timeline (list_to_map (imap (fun i ev => (event_id ev, (i, ev))) (take 5 room_events))) ["$bob"]
    (with_states state_keys [delete 4%Z full_state; full_state] {["$bob" := 0%Z]} (Some 1%Z) empty_mem).

(** Decides a closed goal by computation. *)
Ltac compute_goal := apply (bool_decide_unpack _); vm_compute; exact I.

Module HandlerWitness.
#[local] Instance keys_fwd : HashIter (string * string) := hash_iter_fwd _.
#[local] Instance ids_fwd : HashIter string := hash_iter_fwd _.
#[local] Instance nums_fwd : HashIter Z := hash_iter_fwd _.
#[local] Instance sched : Scheduler := in_order.
#[local] Instance json_table : PduOfJson := example_pdu_of_json room_events.
#[local] Instance library : HandlerLibrary := example_library v11_rules room_events.
#[local] Instance servers : Federation := example_federation ["$create"; "$alice"; "$levels"; "$bob"].
#[local] Instance store : EventStore mem nat := mem_store room_events.
#[local] Instance services : RoomServices mem nat := mem_services room_events (Some ev_create).

Definition run (ev : Pdu) (s : mem) : comp HandlerError (option nat) * mem :=
  handle_incoming_pdu 20 1000 10000 100 "me" 0 "b" "!r:a" (event_id ev) (json_of ev) false s.

(** Bob's message is appended and becomes the only forward extremity. *)
Example hello_is_accepted :
  (run hello room_mem).1 = Ok (Some 5) ∧ mem_extremities (run hello room_mem).2 = ["$hello"].
Proof. by vm_compute. Qed.

Lemma accepted_events_passed_all_checks_witness :
  (run hello room_mem).1 = Ok (Some 5) ∧
  ∃ create_event pdu val s1, Some ev_create = Some create_event ∧
    handle_outlier_pdu "b" create_event "$hello" "!r:a" (json_of hello) room_mem = (Ok (pdu, val), s1).
Proof.
  assert ((run hello room_mem).1 = Ok (Some 5)) as Hok by (vm_compute; reflexivity).
  split; [exact Hok|].
  destruct (accepted_events_passed_all_checks 20 1000 10000 100 "me" 0 "b" "!r:a" "$hello" (json_of hello) false
              room_mem 5 (run hello room_mem).2) as (_ & _ & _ & _ & _ & c & pdu & val & s1 & _ & _ & Hc & Hrun & _).
  - rewrite <-Hok. exact (surjective_pairing _).
  - vm_compute. reflexivity.
  - exists c, pdu, val, s1. split; [exact Hc|exact Hrun].
Defined.

(** A store where bob's message was rejected before it came in again. *)
Definition rejected_mem : mem := mark_event_rejected "$hello" room_mem.


Definition hello_auth : gmap EventId Pdu :=
  {["$create" := ev_create; "$levels" := ev_levels; "$bob" := ev_member "$bob" bob Join]}.

Lemma handle_outlier_correct_witness :
  gather_auth_events hello "b" v11_rules ev_create room_mem = (Ok hello_auth, room_mem) ∧
  (∀ aid, is_Some (hello_auth !! aid) ↔ aid ∈ auth_events hello) ∧
  acceptable room_mem "!r:a" hello hello_auth v11_rules ev_create.
Proof.
  assert (gather_auth_events hello "b" v11_rules ev_create room_mem = (Ok hello_auth, room_mem)) as Hgather
    by (vm_compute; reflexivity).
  split; [exact Hgather|].
  destruct (handle_outlier_correct "b" ev_create "$hello" "!r:a" (json_of hello) room_mem v11_rules (json_of hello)
              hello hello_auth room_mem) as (Hdom & _ & Hverdict); [vm_compute; reflexivity..|exact Hgather| |].
  - intros aid ev Hev. exists "!r:a".
    assert (map_Forall (fun _ ev => room_id_or_hash ev = (Ok "!r:a" : comp HandlerError RoomId)) hello_auth) as Hall
      by compute_goal.
    exact (Hall aid ev Hev).
  - split; [exact Hdom|].
    assert (is_ok (handle_outlier_pdu "b" ev_create "$hello" "!r:a" (json_of hello) room_mem).1 = true) as Hok
      by (vm_compute; reflexivity).
    destruct (handle_outlier_pdu _ _ _ _ _ _) as [[r|e] s']; [|discriminate Hok]. exact (proj1 Hverdict).
Defined.
End HandlerWitness.

(** ** Forward extremities *)

Module ExtremitiesWitness.
#[local] Instance keys_fwd : HashIter (string * string) := hash_iter_fwd _.
#[local] Instance ids_fwd : HashIter string := hash_iter_fwd _.
#[local] Instance nums_fwd : HashIter Z := hash_iter_fwd _.
#[local] Instance sched : Scheduler := in_order.

(** A message that was soft-failed, before it one in the timeline, and after it another. *)
Definition first : Pdu := message "$first" bob [] [].
Definition soft : Pdu := message "$soft" bob ["$first"] [].
Definition last : Pdu := message "$last" bob ["$soft"] [].
Definition events : list Pdu := [first; soft; last].
#[local] Instance json_table : PduOfJson := example_pdu_of_json events.
#[local] Instance library : HandlerLibrary := example_library v11_rules events.
#[local] Instance store : EventStore mem nat := mem_store events.
#[local] Instance services : RoomServices mem nat := mem_services events None.

Definition rank (id : EventId) : nat :=
  match list_find (fun ev => event_id ev = id) events with Some (i, _) => S i | None => 0 end.
Definition soft_mem : mem :=
  with_outlier "$soft" (full_json_of soft)
    (with_timeline {["$first" := (0, first)]} ["$first"] (with_marks ∅ {["$soft"]} ∅ empty_mem)).

(** Every event of a store comes after those before it. *)
Definition ranked_mem (rank : EventId → nat) (B : nat) (s : mem) : Prop :=
  map_Forall (fun u (p : nat * Pdu) => length (prev_events p.2) ≤ B ∧ Forall (fun v => rank v < rank u) (prev_events p.2))
    (mem_timeline s)
  ∧ map_Forall (fun u j => match pdu_of_json j with
      | Some ev => length (prev_events ev) ≤ B ∧ Forall (fun v => rank v < rank u) (prev_events ev)
      | None => True end) (mem_outliers s).
#[local] Instance ranked_mem_dec rank B s : Decision (ranked_mem rank B s).
Proof.
  apply and_dec; [apply _|]. apply map_Forall_dec. intros u j. destruct (pdu_of_json j); apply _.
Defined.
Lemma ranked_mem_spec rank B s : ranked_mem rank B s → ranked s rank B.
Proof.
  intros [Ht Ho] u ev. simpl. destruct (mem_timeline s !! u) as [[n e]|] eqn:Hu.
  - intros [= ->]. destruct (Ht u _ Hu) as [? Hall]. split; [done|]. by apply Forall_forall.
  - destruct (mem_outliers s !! u) as [j|] eqn:Hj; simpl; [|done]. intros Hev.
    specialize (Ho u j Hj). cbv beta in Ho. change (pdu_of_json j = Some ev) in Hev. rewrite Hev in Ho.
    destruct Ho as [? Hall].
    split; [done|]. by apply Forall_forall.
Qed.

(** The event is an extremity and the soft-failed one before it is marked.  The accepted event that
    only the soft-failed one references stays an extremity, though the new event comes after it. *)
Example ancestors_behind_soft_failed_events_stay :
  (calculate_extremities 10 last ["$first"] soft_mem).1 = Ok ["$first"; "$last"]
  ∨ (calculate_extremities 10 last ["$first"] soft_mem).1 = Ok ["$last"; "$first"].
Proof. vm_compute. auto. Qed.


(** Two layers of two rejected events. *)
Definition layer (name : string) (i : nat) : EventId :=
  match i with O => "$" +:+ name +:+ "0" | _ => "$" +:+ name +:+ "1" end.
Definition diamond_events : list Pdu :=
  [message "$a0" bob [] []; message "$b0" bob [] [];
   message "$a1" bob ["$a0"; "$b0"] []; message "$b1" bob ["$a0"; "$b0"] []].
Definition diamond_mem : mem :=
  foldr (fun ev => with_outlier (event_id ev) (full_json_of ev)) (with_marks (list_to_set (event_id <$> diamond_events)) ∅ ∅ empty_mem)
    diamond_events.
#[local] Instance diamond_table : PduOfJson := example_pdu_of_json diamond_events.
#[local] Instance diamond_store : EventStore mem nat := mem_store diamond_events.

Lemma walk_takes_exponentially_long_witness :
  diamonds "!r:a" diamond_mem (layer "a") (layer "b") 1 ∧
  (walk_ancestors 3 "!r:a" ∅ [layer "a" 1; layer "b" 1] diamond_mem).1 = Err OutOfFuel.
Proof.
  assert (diamonds "!r:a" diamond_mem (layer "a") (layer "b") 1) as Hd.
  { split.
    - intros [|[|i]] x Hi Hx; [| |lia]; destruct Hx as [-> | ->]; eexists; split; vm_compute; reflexivity.
    - intros [|[|i]] Hi; [| |lia]; split; vm_compute; reflexivity.
    - intros [|i] [|[|j]] x y Hij Hx Hy; try lia; destruct Hx as [-> | ->], Hy as [-> | ->]; vm_compute; discriminate. }
  split; [exact Hd|]. apply (walk_takes_exponentially_long "!r:a" diamond_mem (layer "a") (layer "b") 1); [exact Hd|simpl; lia].
Defined.
End ExtremitiesWitness.

(** * Runs of the handler that end otherwise than the code's comments say, or in a panic that an answer of
    another server causes. *)

#[local] Instance keys_fwd : HashIter (string * string) := hash_iter_fwd _.
#[local] Instance nums_fwd : HashIter Z := hash_iter_fwd _.
#[local] Instance sched : Scheduler := in_order.

(** ** Rejected auth events *)

Module RejectedAuth.
(** Dave was never let in.  His join is not authorised (the room is for invited users, as no join
    rules are named); a second one is, by the first. *)
Definition join1 : Pdu := mk_event "$join1" RoomMember dave (Some dave) (JMember Join None false) ["$create"; "$levels"].
Definition join2 : Pdu := mk_event "$join2" RoomMember dave (Some dave) (JMember Join None false) ["$create"; "$levels"; "$join1"].
Definition shout : Pdu := message "$shout" dave ["$bob"] ["$create"; "$levels"; "$join2"].
Definition events : list Pdu := room_events ++ [join1; join2; shout].
Definition chain : list EventId := ["$create"; "$alice"; "$levels"; "$join1"; "$join2"].
#[local] Instance json_table : PduOfJson := example_pdu_of_json events.
#[local] Instance library : HandlerLibrary := example_library v11_rules events.
#[local] Instance servers : Federation := example_federation chain.
#[local] Instance store : EventStore mem nat := mem_store events.
#[local] Instance services : RoomServices mem nat := mem_services events (Some ev_create).

Definition outlier (i : HashIter EventId) (ev : Pdu) (s : mem) : comp HandlerError (Pdu * CanonicalJsonObject) * mem :=
  handle_outlier_pdu (HashIter0 := i) "c" ev_create (event_id ev) "!r:a" (json_of ev) s.
Definition is_rejected (i : HashIter EventId) (ev : Pdu) (id : EventId) : bool :=
  bool_decide (id ∈ mem_rejected (outlier i ev room_mem).2).

(** In one order of the hash map the first join is checked, and rejected; in the other it is stored
    before it is checked, and never is.  In both the second join, which only the first one
    authorises, is not rejected, and dave's message is accepted as an outlier. *)
Definition join1_state : StateMap Pdu := {[(RoomCreate, "") := ev_create; (RoomPowerLevels, "") := ev_levels]}.
Example rejected_auth_events_authorise :
  auth_check room_v11 join1 None (fun ty sk => join1_state !! (ty, sk)) ev_create = Ok false ∧
  is_rejected (hash_iter_fwd _) shout "$join1" ≠ is_rejected (hash_iter_bwd _) shout "$join1" ∧
  is_rejected (hash_iter_fwd _) shout "$join2" = false ∧ is_rejected (hash_iter_bwd _) shout "$join2" = false ∧
  is_ok (outlier (hash_iter_fwd _) shout room_mem).1 = true ∧ is_ok (outlier (hash_iter_bwd _) shout room_mem).1 = true.
Proof. vm_compute. repeat split; congruence. Qed.

(** A rejected event that comes in again is given back like one that was accepted. *)
Example rejected_events_are_given_back :
  let s := (outlier (hash_iter_fwd _) join1 room_mem).2 in
  (outlier (hash_iter_fwd _) join1 room_mem).1 = Err (Fail EForbidden) ∧ is_ok (outlier (hash_iter_fwd _) join1 s).1 = true.
Proof. by vm_compute. Qed.
End RejectedAuth.

(** ** Forks with the same state before *)

Module Forks.
#[local] Instance ids_fwd : HashIter string := hash_iter_fwd _.

(** Alice sets a topic while bob says hello: both events have the same state before. *)
Definition topic : Pdu :=
  mk_event "$topic" "m.room.topic" alice (Some "") JOther ["$create"; "$levels"; "$alice"].
Definition both (prev : list EventId) : Pdu := message "$both" bob prev ["$create"; "$levels"; "$bob"].
Definition events : list Pdu := room_events ++ [topic].
#[local] Instance json_table : PduOfJson := example_pdu_of_json events.
#[local] Instance store : EventStore mem nat := mem_store events.
#[local] Instance services : RoomServices mem nat := mem_services events (Some ev_create).

Definition forked_mem : mem :=
  with_timeline (list_to_map (imap (fun i ev => (event_id ev, (i, ev))) events)) ["$hello"; "$topic"]
    (with_states (state_keys ++ [("m.room.topic", "")]) [delete 4%Z full_state; full_state]
       {["$bob" := 0%Z; "$hello" := 1%Z; "$topic" := 1%Z]} (Some 1%Z) empty_mem).
Definition topic_before (prev : list EventId) : option (option EventId) :=
  match (state_before_incoming 20 (both prev) v11_rules forked_mem).1 with
  | Ok (Some state) => Some (state !! 5%Z)
  | _ => None
  end.

(** The event that comes last takes the place of the one before it in the map of states, so that the
    topic is lost in one order of the same two events. *)
Example forks_with_one_state_are_lost :
  topic_before ["$hello"; "$topic"] = Some (Some "$topic") ∧ topic_before ["$topic"; "$hello"] = Some None.
Proof. by vm_compute. Qed.
End Forks.

(** ** Panics *)

Module Panics.
#[local] Instance ids_fwd : HashIter string := hash_iter_fwd _.
#[local] Instance json_table : PduOfJson := example_pdu_of_json room_events.
#[local] Instance store : EventStore mem nat := mem_store room_events.
#[local] Instance services : RoomServices mem nat := mem_services room_events (Some ev_create).

Section Servers.
#[local] Instance library : HandlerLibrary := example_library v11_rules room_events.
#[local] Instance servers : Federation := example_federation [].

(** An event before another that is fetched is not validated: one without a sender will do. *)
Example fetched_prev_event_panics :
  (fetch_prev_events 1000 10000 100 0 20 "b" ["$malformed"] ev_create "!r:a" room_mem).1 = Err Panicked.
Proof. by vm_compute. Qed.
End Servers.

(** States that other servers answer with. *)
Section States.
Context (ids : list EventId).
#[local] Instance library2 : HandlerLibrary := example_library v11_rules room_events.
#[local] Instance servers2 : Federation := {|
  send_event_authorization _ _ := None; send_missing_events _ _ _ _ _ _ := None; send_event _ _ := None;
  send_state_ids _ _ _ := Ok ids; send_state _ _ _ := None; policy_server_allows_event _ v _ _ := Ok v |}.
Definition fetched_state : comp HandlerError (gmap Z EventId) :=
  (fetch_state 1000 10000 0 20 "b" ev_create "!r:a" "$hello" room_mem).1.
End States.

(** A server that names an event of a state twice makes the task panic, and so does one that names fewer
    than fifty events, none of which is known; one that names known events once does not. *)
Example fetched_states_panic :
  fetched_state ["$create"; "$create"] = Err Panicked ∧ fetched_state ["$none"] = Err Panicked ∧
  is_ok (fetched_state ["$create"; "$levels"]) = true.
Proof. by vm_compute. Qed.

(** In the first room versions, where events carry their identifiers, fetching auth events panics on
    every event. *)
Section FirstVersions.
#[local] Instance library3 : HandlerLibrary := example_library v1_rules (room_events ++ [ev_member "$carol" carol Join]).
#[local] Instance servers3 : Federation := example_federation [].
Example fetching_auth_events_panics_in_old_rooms :
  (fetch_and_handle_auth_events 1000 10000 0 20 "b" ["$carol"] ev_create "!r:a" room_mem).1 = Err Panicked.
Proof. by vm_compute. Qed.
End FirstVersions.
End Panics.

(** ** Redactions and gaps *)

Module Inverted.
#[local] Instance ids_fwd : HashIter string := hash_iter_fwd _.
#[local] Instance library : HandlerLibrary := example_library v1_rules room_events.

(** Where the event itself names what it redacts, its content is read instead: such redactions are not
    checked. *)
Definition redaction : Pdu :=
  {| event_id := "$r"; room_id := Some "!r:a"; sender := dave; origin_server_ts := 0; kind := RoomRedaction;
     content := JOther; state_key := None; prev_events := []; auth_events := []; redacts := Some "$hello"; depth := 1 |}.
Example redactions_are_not_found : content_field_redacts v1_rules = false ∧ redacts_id redaction v1_rules = None.
Proof. done. Qed.

#[local] Instance json_table : PduOfJson := example_pdu_of_json room_events.
#[local] Instance store : EventStore mem nat := mem_store room_events.

(** Of an outlier it is counted which of the events before it are there, not which are missing: what
    is before this one, which is missing, is not asked for; with it there, it is. *)
Definition gap_mem (known : bool) : mem :=
  with_outlier "$hello" (full_json_of hello)
    (with_timeline (if known then {["$bob" := (0, ev_member "$bob" bob Join)]} else ∅) [] empty_mem).
Example gaps_are_counted_the_wrong_way :
  (missing_prev (gap_mem false) (∅, []) "$hello").2 = [] ∧ (missing_prev (gap_mem true) (∅, []) "$hello").2 = ["$hello"].
Proof. by vm_compute. Qed.
End Inverted.
