(* ===== verification/LocalExample.v ===== *)
(** Events of this server in a small room: a library that writes events as JSON and reads them back, which
    obeys the laws asked for, and the theorems evaluated on it. *)

From stdpp Require Import prelude gmap strings.
From Stdlib Require Import ZArith Lia.
From S2P Require Import Prelude TopoSort Event EventAuth RumaExample Effects EventStore EventChecks EventHandler ExampleStore HandlerExamples LocalEvents LocalEventsSpec.

#[export] Instance levels_eq_dec : EqDecision RoomPowerLevelsEventContent.
Proof. solve_decision. Defined.
#[export] Instance example_json_eq_dec : EqDecision example_json.
Proof. solve_decision. Defined.

(** ** Events as JSON

    A content is written as its place in a table. *)
Section Json.
Context (contents : list example_json).

Definition opt_field (field : string) (v : option string) (j : CanonicalJsonObject) : CanonicalJsonObject :=
  match v with Some s => <[field := CString s]> j | None => j end.

Definition write_event (pdu : Pdu) (n : Z) : CanonicalJsonObject :=
  opt_field "room_id" (room_id pdu) (opt_field "state_key" (state_key pdu) (opt_field "redacts" (redacts pdu)
    {["event_id" := CString (event_id pdu); "sender" := CString (sender pdu);
      "origin_server_ts" := CInteger (origin_server_ts pdu); "type" := CString (kind pdu); "content" := CInteger n;
      "auth_events" := CArray (CString <$> auth_events pdu); "prev_events" := CArray (CString <$> prev_events pdu);
      "depth" := CInteger (depth pdu)]})).

Definition read_opt (j : CanonicalJsonObject) (field : string) : option (option string) :=
  match j !! field with Some v => Some <$> as_str v | None => Some None end.
Definition read_int (j : CanonicalJsonObject) (field : string) : option Z :=
  match j !! field with Some (CInteger n) => Some n | _ => None end.

Definition read_event : PduOfJson := fun j =>
  eid ← str_field j "event_id"; rid ← read_opt j "room_id"; snd ← str_field j "sender";
  ts ← read_int j "origin_server_ts"; ty ← str_field j "type"; n ← read_int j "content";
  content ← contents !! Z.to_nat n; sk ← read_opt j "state_key"; prev ← references j "prev_events";
  auth ← references j "auth_events"; red ← read_opt j "redacts"; d ← read_int j "depth";
  Some {| event_id := eid; room_id := rid; sender := snd; origin_server_ts := ts; kind := ty; content := content;
          state_key := sk; prev_events := prev; auth_events := auth; redacts := red; depth := d |}.

#[export] Instance local_library : LocalLibrary := {|
  json_of_str _ := JOther;
  to_canonical_pdu pdu _ _ :=
    (fun p => write_event pdu (Z.of_nat p.1)) <$> list_find (fun c => c = content pdu) contents;
  de_member_content j := match j with JMember m a _ => Some (m, a) | _ => None end;
|}.

(** What a written event has in the fields that are read. *)
Lemma write_event_fields pdu n :
  let j := write_event pdu n in
  (read_opt j "room_id" = Some (room_id pdu) ∧ read_opt j "state_key" = Some (state_key pdu) ∧
   read_opt j "redacts" = Some (redacts pdu)) ∧
  (str_field j "sender" = Some (sender pdu) ∧ str_field j "type" = Some (kind pdu)) ∧
  (read_int j "origin_server_ts" = Some (origin_server_ts pdu) ∧ read_int j "content" = Some n ∧
   read_int j "depth" = Some (depth pdu)) ∧
  j !! "auth_events" = Some (CArray (CString <$> auth_events pdu)) ∧
  j !! "prev_events" = Some (CArray (CString <$> prev_events pdu)).
Proof.
  destruct pdu as [? [?|] ? ? ? ? [?|] ? ? [?|] ?]; split_and!; reflexivity.
Qed.
End Json.

(** ** Services *)

#[export] Instance local_services : LocalServices mem nat := {|
  user_is_local u := bool_decide (user_server_name u = "a");
  server_user := "@server:a";
  hash_and_sign_event j _ := Ok (<["hashes" := CObject []]> (<["signatures" := CObject []]> j));
  policy_server_signs _ j _ _ := Ok j;
  get_or_create_shorteventid _ s := s;
  get_or_create_shortroomid _ s := s;
  is_admin_room _ _ := true;
  room_members _ _ := ["@server:a"; alice; bob; carol];
  user_can_redact_local _ _ _ _ := Ok true;
  append_to_state pdu _ s :=
    (Ok (Z.of_nat (length (mem_states s))),
     let state := default ∅ (h ← mem_room_state s; mem_states s !! Z.to_nat h) in
     let state := match state_key pdu ≫= key_index s (kind pdu) with
                  | Some k => <[k := event_id pdu]> state
                  | None => state
                  end in
     with_states (mem_keys s) (mem_states s ++ [state]) (mem_event_state s) (mem_room_state s) s);
  set_room_state _ h s := with_states (mem_keys s) (mem_states s) (mem_event_state s) (Some h) s;
  run_admin_command _ _ := mret tt;
  room_servers _ _ := {["a"; "b"]};
  send_pdu_servers _ _ := mret tt;
|}.

#[export] Instance mem_key_laws events creator : @KeyLaws _ mem nat (mem_services events creator).
Proof.
  split. unfold get_shortstatekey. simpl. unfold key_index. intros s ty sk ty' sk' k Hk Hk'.
  apply fmap_Some in Hk as ([i x] & (Hi & Hx & _)%list_find_Some & ->).
  apply fmap_Some in Hk' as ([i' x'] & (Hi' & Hx' & _)%list_find_Some & Heq). simpl in *.
  assert (i = i') as <- by lia. congruence.
Qed.

#[export] Instance mem_extremity_laws events creator :
  @ExtremityLaws _ mem nat (mem_services events creator) local_services.
Proof.
  split; try done.
  - intros s r. apply NoDup_remove_dups.
  - intros s pdu json l room n s' [= <- <-] x. apply elem_of_remove_dups.
Qed.

#[export] Instance local_signing_laws contents :
  @SigningLaws _ mem nat (read_event contents) (local_library contents) local_services.
Proof.
  split.
  - intros j rules j' f [= <-] Hh Hs. by rewrite !lookup_insert_ne.
  - intros pdu st un j Hj. apply fmap_Some in Hj as ([i c] & _ & ->).
    by destruct (write_event_fields pdu (Z.of_nat i)) as (_ & _ & _ & ? & ?).
  - intros pdu st un j j' eid p Hj Hsame Ha Hp Hid Hread. apply fmap_Some in Hj as ([i c] & (Hi & -> & _)%list_find_Some & ->).
    unfold pdu_of_json, read_event, str_field, read_opt, read_int in Hread.
    destruct (write_event_fields pdu (Z.of_nat i)) as ((Hr & Hs & Hre) & (Hsn & Hk) & (Ht & Hc & Hd) & _).
    unfold str_field, read_opt, read_int in *.
    rewrite Hid, !Hsame in Hread by (rewrite !not_elem_of_cons; split_and!; (discriminate || apply not_elem_of_nil)).
    simpl in Hread. simpl fst in *. rewrite Hr, Hs, Hre, Hsn, Hk, Ht, Hc, Hd, Ha, Hp in Hread. simpl in Hread.
    rewrite Nat2Z.id in Hread.
    replace (contents !! i) with (Some (content pdu : example_json)) in Hread by (symmetry; exact Hi). simpl in Hread. injection Hread as <-. by destruct pdu.
Qed.

Module LocalWitness.
#[local] Instance keys_fwd : HashIter (string * string) := hash_iter_fwd _.
#[local] Instance keys_fwd_laws : HashIterLaws (string * string) := hash_iter_fwd_laws _.
Definition contents : list example_json := [JOther; JMember Leave None false].
#[local] Instance json_events : PduOfJson := read_event contents.
#[local] Instance library_local : LocalLibrary := local_library contents.
#[local] Instance servers : Federation := example_federation [].
#[local] Instance store : EventStore mem nat := mem_store room_events.
#[local] Instance services : RoomServices mem nat := mem_services room_events (Some ev_create).

(** Every event gets the same hash. *)
#[local] Instance library : HandlerLibrary := {|
  json_length _ := Some 100;
  de_object _ := None;
  base64_ok _ _ := true;
  de_room_version _ := Some (Some v11_rules);
  de_content_redacts _ := None;
  reference_hash _ _ := Some "$new";
  redact _ v := Some v;
  to_canonical_object := full_json_of;
  de_ExtractBody _ := Some None;
  room_version_of_str _ := Some (Some v11_rules);
  rules_v1 := v11_rules;
  verify_event_json _ _ := None;
|}.

Definition ask (ty : string) (c : example_json) (sk : option string) : PartialPdu :=
  {| event_type := ty; pp_content := c; sticky := None; unsigned := None; pp_state_key := sk; pp_redacts := None;
     timestamp := None |}.
Definition send (p : PartialPdu) (who : UserId) : comp HandlerError EventId * mem :=
  build_and_append_pdu "a" 20 "$random" p who (Some "!r:a") room_mem.

(** Alice's message names the events that let her send it, and becomes the only forward extremity. *)
Definition alice_says : comp HandlerError (Pdu * CanonicalJsonObject) * mem :=
  create_hash_and_sign_event 20 "$random" (ask "m.room.message" JOther None) alice (Some "!r:a") room_mem.
Example alice_speaks :
  (match alice_says.1 with
   | Ok (pdu, _) => Some (auth_events pdu, prev_events pdu, depth pdu)
   | Err _ => None
   end) = Some (["$create"; "$levels"; "$alice"], ["$bob"], 2%Z) ∧
  (send (ask "m.room.message" JOther None) alice).1 = Ok "$new" ∧
  get_forward_extremities (send (ask "m.room.message" JOther None) alice).2 "!r:a" = ["$new"].
Proof. by vm_compute. Qed.

Lemma local_event_authorised_witness :
  ∃ pdu json s', alice_says = (Ok (pdu, json), s') ∧
  user_is_local alice = true ∧ json !! "event_id" = Some (CString (event_id pdu)) ∧
  ∃ rules, made_from 20 room_mem (ask "m.room.message" JOther None) alice (Some "!r:a") rules pdu ∧
    (¬ reads_id (room_rules rules) pdu → ∃ state types create,
       authorised_by room_mem (Some "!r:a") rules pdu state types create ∧
       auth_check (room_rules rules) pdu None (fun t k => state !! (t, k)) create = Ok true).
Proof.
  assert (∃ pdu json s', alice_says = (Ok (pdu, json), s')) as (pdu & json & s' & Hrun) by (vm_compute; eauto).
  exists pdu, json, s'. split; [exact Hrun|]. exact (local_event_authorised 20 _ _ _ _ _ _ _ _ Hrun).
Defined.

(** Alice may leave the admin room, since bob and the server stay. *)
Definition alice_leaves : PartialPdu := ask RoomMember (JMember Leave None false) (Some alice).
Lemma local_event_appended_witness :
  ∃ pdu json s1 room,
    create_hash_and_sign_event 20 "$random" alice_leaves alice (Some "!r:a") room_mem = (Ok (pdu, json), s1) ∧
    "$new" = event_id pdu ∧ room_id_or_hash (E:=HandlerError) pdu = Ok room ∧
    (∀ x, x ∈ get_forward_extremities (send alice_leaves alice).2 room ↔
       x = "$new" ∨ (x ∈ get_forward_extremities room_mem room ∧
                     (Some "!r:a" ≠ None → x ∈ drop 20 (get_forward_extremities room_mem room)))) ∧
    check_redaction s1 pdu room = Ok tt ∧ check_restricted_join pdu = Ok tt ∧
    (is_admin_room s1 room = true → ∀ membership auth, kind pdu = RoomMember →
       de_member_content (content pdu) = Some (membership, auth) →
       membership = Leave ∨ membership = Ban ∧ state_key pdu ≠ None →
       admin_target pdu alice ≠ server_user ∧ (2 ≤ other_local_members s1 room (admin_target pdu alice))%nat).
Proof.
  apply (local_event_appended "a" 20). vm_compute. reflexivity.
Defined.

(** Bob alone may not leave after her: one local member and the server's user have to stay. *)
Example carol_is_not_local :
  (send (ask RoomMember (JMember Leave None false) (Some carol)) carol).1 = Err (Fail EForbidden).
Proof. by vm_compute. Qed.
End LocalWitness.

(** ** Redactions in the first room versions

    The check compares the server in the event's identifier with the one in what it redacts; when an event
    is created its identifier is a placeholder without a server. *)
Module Redaction.
#[local] Instance keys_fwd : HashIter (string * string) := hash_iter_fwd _.
#[local] Instance store : EventStore mem nat := mem_store room_events.
#[local] Instance services : RoomServices mem nat := mem_services room_events (Some ev_create).

Definition auth_v1 : AuthorizationRules := {|
  use_room_create_sender := true; explicitly_privilege_room_creators := false; special_case_room_aliases := true;
  special_case_room_redaction := true; knocking := false; knock_restricted_join_rule := false;
  limit_notifications_power_levels := false; integer_power_levels := false |}.
Definition first_rules : VersionRules :=
  {| room_rules := {| state_res := StateResV1; room_id_format := RoomIdV1; authorization := auth_v1 |};
     require_room_create_room_id := true; allow_room_create_in_auth_events := true; event_id_format := IdV1;
     events_reference_v1 := true; content_field_redacts := false |}.

(** Redacting the events of others takes level 60; bob has 50. *)
Definition levels_60 : Pdu :=
  mk_event "$levels" RoomPowerLevels alice (Some "")
    (JPower {| pl_ban := 50; pl_events := ∅; pl_events_default := 0; pl_invite := 0; pl_kick := 50; pl_redact := 60;
               pl_state_default := 50; pl_users := {[alice := 100%Z; bob := 50%Z]}; pl_users_default := 0;
               pl_notifications_room := 50 |} [(alice, 100%Z); (bob, 50%Z)]) ["$create"; "$alice"].
Definition state : StateMap Pdu := <[(RoomPowerLevels, "") := levels_60]> (room_state JRPublic).

(** Bob redacts an event of his server. *)
Definition redaction (eid : EventId) : Pdu :=
  {| event_id := eid; room_id := Some "!r:a"; sender := bob; origin_server_ts := 0; kind := RoomRedaction;
     content := JOther; state_key := None; prev_events := ["$bob"]; auth_events := ["$create"; "$levels"; "$bob"];
     redacts := Some "$mine:a"; depth := 2 |}.
Example own_redaction_is_authorised :
  auth_check (room_rules first_rules) (redaction "$new:a") None (fun t k => state !! (t, k)) ev_create = Ok true ∧
  auth_check (room_rules first_rules) (redaction placeholder) None (fun t k => state !! (t, k)) ev_create = Ok false.
Proof. by vm_compute. Qed.
End Redaction.
