(* ===== verification/FederationApiExample.v ===== *)
(** What server "b" reads of alice's room: the answers of the requests on a small room, on which the
    theorems are evaluated. *)

From stdpp Require Import prelude gmap strings.
From Stdlib Require Import ZArith Lia.
From S2P Require Import Prelude TopoSort Event EventAuth RumaExample Effects EventStore EventChecks PduCount ExampleStore HandlerExamples LocalEvents LocalEventsSpec LocalExample FederationApi FederationApiSpec StateRes EventHandler Joins JoinsSpec Invites.

Module ApiWitness.
#[local] Existing Instances LocalWitness.json_events LocalWitness.store LocalWitness.services LocalWitness.library.

(** Three messages after bob's join; the first may not be seen by "b". *)
Definition m1 : Pdu := message "$m1" alice ["$bob"] ["$create"; "$levels"; "$alice"].
Definition m2 : Pdu := message "$m2" bob ["$m1"] ["$create"; "$levels"; "$bob"].
Definition m3 : Pdu := message "$m3" bob ["$m2"; "$m1"] ["$create"; "$levels"; "$bob"].
Definition api_events : list Pdu := take 5 room_events ++ [m1; m2; m3].
Definition api_mem : mem :=
  with_timeline (list_to_map (imap (fun i ev => (event_id ev, (i, ev))) api_events)) ["$m3"] room_mem.

(** The JSON of this example holds no content; what a redaction takes away is the time. *)
Definition redacted (pdu : Pdu) : Pdu :=
  {| event_id := event_id pdu; room_id := room_id pdu; sender := sender pdu; origin_server_ts := 0;
     kind := kind pdu; content := JOther; state_key := state_key pdu; prev_events := prev_events pdu;
     auth_events := auth_events pdu; redacts := redacts pdu; depth := depth pdu |}.

#[local] Instance access : RoomAccess mem := {|
  is_world_readable _ _ := false;
  server_in_room _ server _ := bool_decide (server ∈ ["a"; "b"]);
  server_can_see_event _ server _ eid := bool_decide (server = "a" ∨ eid ≠ "$m1");
  get_pdu_count s eid := (fun p => Normal (Z.of_nat p.1)) <$> mem_timeline s !! eid;
  pdus_rev s _ count :=
    omap (fun ev => match mem_timeline s !! event_id ev with
                    | Some (n, ev) => if decide (ord_cmp (Normal (Z.of_nat n)) count = Lt)
                                      then Some (Ok (Normal (Z.of_nat n), ev)) else None
                    | None => None
                    end) (reverse api_events);
  redact_pdu _ pdu := Some (redacted pdu);
|}.
#[local] Instance redact_laws : RedactLaws mem.
Proof. split. by intros rules pdu pdu' [= <-]. Qed.

Definition hash_of (json : CanonicalJsonObject) : option string := str_field json "hash".
Definition hashes (r : comp HandlerError (list CanonicalJsonObject)) : option (list string) :=
  match r with Ok l => Some (omap hash_of l) | Err _ => None end.

(** "b" may read the last message, not the first, and gets a page without it; "c" is not in the room. *)
Example answers :
  hashes (mapR (get_event_route "a" api_mem "b") ["$m3"]) = Some ["$m3"] ∧
  get_event_route "a" api_mem "b" "$m1" = Err (Fail EForbidden) ∧
  get_event_route "a" api_mem "c" "$m3" = Err (Fail EForbidden) ∧
  hashes (get_backfill_route "a" api_mem "b" "!r:a" ["$m2"] 3) = Some ["$m2"; "$bob"] ∧
  is_ok (get_room_state_route "a" api_mem "b" "!r:a" "$bob") = true.
Proof. by vm_compute. Qed.

Lemma federation_reads_guarded_witness :
  (∃ json, get_event_route "a" api_mem "b" "$m3" = Ok json) ∧
  may_read "a" api_mem "b" "!r:a" ∧ server_can_see_event api_mem "b" "!r:a" "$m3" = true.
Proof.
  destruct (federation_reads_guarded "a" api_mem "b" "!r:a" "$m3" [] 0) as [Hevent _].
  assert (is_ok (get_event_route "a" api_mem "b" "$m3") = true) as Hok by (vm_compute; reflexivity).
  destruct (get_event_route "a" api_mem "b" "$m3") as [json|e] eqn:Hrun; [clear Hok|discriminate Hok].
  split; [exists json; exact eq_refl|].
  destruct (Hevent json eq_refl) as (_ & _ & stored & room & Hstored & Hroom & _ & Hread & Hsee).
  assert (str_field (default ∅ (get_pdu_json api_mem "$m3")) "room_id" = Some "!r:a") as Hr by (vm_compute; reflexivity).
  rewrite Hstored in Hr. simpl in Hr. rewrite Hroom in Hr. injection Hr as ->.
  split; [exact Hread|exact Hsee].
Defined.

(** The first message is sent redacted, the latest not at all, oldest first. *)
Abbreviation missing := (get_missing_events_route "a" 20 api_mem "b" "!r:a" ["$bob"] ["$m3"] 10).
Definition time_of (json : CanonicalJsonObject) : option Z :=
  match json !! "origin_server_ts" with Some (CInteger n) => Some n | _ => None end.
Example the_missing_events :
  (match missing with Ok l => Some ((fun e => (e.1, time_of e.2)) <$> l) | Err _ => None end) =
  Some [("$m1", Some 0%Z); ("$m2", Some 10%Z)].
Proof. by vm_compute. Qed.

Definition known : gset EventId := {["$bob"; "$m1"; "$m2"; "$m3"]}.
Lemma missing_events_correct_witness :
  missing ≠ Err OutOfFuel ∧
  ∀ l, missing = Ok l → may_read "a" api_mem "b" "!r:a" ∧ (length l <= 10)%nat ∧ NoDup l.*1.
Proof.
  destruct (missing_events_correct "a" api_mem "b" "!r:a" ["$bob"] ["$m3"] 10 20 known) as [Hends Hok].
  - intros a b Ha (_ & pdu & Hpdu & Hb).
    assert (forallb (fun x => match get_pdu api_mem x with
                              | Some pdu => forallb (fun y => bool_decide (y ∈ known)) (prev_events pdu)
                              | None => true
                              end) (elements known) = true) as Hall by (vm_compute; reflexivity).
    rewrite forallb_forall in Hall. specialize (Hall a). rewrite Hpdu, forallb_forall in Hall.
    specialize (Hall (proj1 (list_elem_of_In _ _) (proj2 (elem_of_elements known a) Ha)) b
      (proj1 (list_elem_of_In _ _) Hb)).
    exact (bool_decide_eq_true_1 _ Hall).
  - intros x [->|[]%not_elem_of_nil]%elem_of_cons. apply (bool_decide_eq_true_1 _). vm_compute. reflexivity.
  - vm_compute. lia.
  - split; [exact Hends|]. intros l Hl. destruct (Hok l Hl) as (? & ? & ? & _). auto.
Defined.

(** ** The create event of a room of version 12

    It names no room, and a single event is looked for in the room its JSON names: the event that every
    other is authorised by cannot be fetched. *)
Definition create_12 : Pdu :=
  {| event_id := "$create"; room_id := None; sender := alice; origin_server_ts := 0; kind := RoomCreate;
     content := JCreate None [] true; state_key := Some ""; prev_events := []; auth_events := []; redacts := None; depth := 1 |}.
Definition json_12 : CanonicalJsonObject := delete "room_id" (full_json_of create_12).
Example create_event_cannot_be_fetched :
  let s := with_outlier "$create" json_12 empty_mem in
  is_Some (get_pdu_json s "$create") ∧ get_event_route "a" s "b" "$create" = Err (Fail EDatabase).
Proof. split; [by eexists|by vm_compute]. Qed.
End ApiWitness.

(** * Carol, of another server, joins alice's room: a restricted room, where she needs somebody to authorise
    her join.  The theorems on joins are evaluated on the template she gets and on the event she sends. *)

Module JoinWitness.
#[local] Instance keys_fwd : HashIter (string * string) := hash_iter_fwd _.
#[local] Instance keys_fwd_laws : HashIterLaws (string * string) := hash_iter_fwd_laws _.
#[local] Instance ids_fwd : HashIter string := hash_iter_fwd _.
#[local] Instance nums_fwd : HashIter Z := hash_iter_fwd _.
#[local] Instance sched : Scheduler := in_order.

(** Who is joined to the space may join the room. *)
Definition members_only : Pdu := ev_rules JRRestricted.
Definition carol_joins : Pdu :=
  {| event_id := "$join"; room_id := Some "!r:a"; sender := carol; origin_server_ts := 10; kind := RoomMember;
     content := JMember Join (Some alice) false; state_key := Some carol; prev_events := ["$bob"];
     auth_events := ["$create"; "$levels"; "$rules"; "$alice"]; redacts := None; depth := 6 |}.
Definition join_events : list Pdu :=
  [ev_create; ev_member "$alice" alice Join; ev_levels; members_only; ev_member "$bob" bob Join; carol_joins].
Definition join_mem : mem :=
  with_timeline (list_to_map (imap (fun i ev => (event_id ev, (i, ev))) (take 5 join_events))) ["$bob"] room_mem.

Definition member_contents : list example_json := [JOther; JMember Join (Some alice) false; JMember Join None false].
#[local] Instance join_table : PduOfJson := example_pdu_of_json join_events.
#[local] Instance template_library : LocalLibrary := local_library member_contents.
#[local] Instance servers : Federation := example_federation ["$create"; "$alice"; "$levels"; "$rules"; "$bob"].
#[local] Instance store : EventStore mem nat := mem_store join_events.
#[local] Instance services : RoomServices mem nat := mem_services join_events (Some ev_create).

(** What carol sends; a signature is added to it when this server signs. *)
Definition join_json : CanonicalJsonObject :=
  <["sender" := CString carol]>
    (<["content" := CObject [("membership", CString "join"); ("join_authorised_via_users_server", CString alice)]]>
      (json_of carol_joins)).
#[local] Instance library : HandlerLibrary := {|
  json_length _ := Some 100;
  de_object raw := if decide (raw = "$join") then Some join_json else json_of <$> example_event join_events raw;
  base64_ok _ _ := true;
  de_room_version _ := Some (Some v11_rules);
  de_content_redacts _ := None;
  reference_hash _ v := str_field v "hash";
  redact _ v := Some v;
  to_canonical_object := full_json_of;
  de_ExtractBody _ := Some None;
  room_version_of_str _ := Some (Some v11_rules);
  rules_v1 := v11_rules;
  verify_event_json v _ := match v !! "forged" with Some _ => None | None => Some VerifiedAll end;
|}.
#[local] Instance members : MembershipLibrary := {|
  de_allow j := match j with
                | JJoinRule JRRestricted => Some (Some [RoomMembership "!elsewhere:x"; RoomMembership "!space:a"])
                | JJoinRule _ => Some None
                | _ => None
                end;
  member_content m a := JMember m a false;
  de_authorising_user v :=
    content ← as_object v; Some (str_field content "join_authorised_via_users_server");
  restricted_join_rule _ := true;
|}.
#[local] Instance tables : MembershipServices mem := {|
  is_joined _ user room := bool_decide (room = "!space:a" ∧ user = carol) || bool_decide (room = "!r:a" ∧ user ∈ [alice; bob]);
  is_invited _ _ _ := false;
  check_all_joins := false;
  meowlnir_accept_make_join _ _ := false;
|}.
#[local] Instance access : RoomAccess mem := {|
  is_world_readable _ _ := false;
  server_in_room _ server room := bool_decide (server = "a" ∧ room ∈ ["!r:a"; "!space:a"]);
  server_can_see_event _ _ _ _ := true;
  get_pdu_count _ _ := None;
  pdus_rev _ _ _ := [];
  redact_pdu _ pdu := Some pdu;
|}.
Definition config : ModerationConfig :=
  {| server_name := "a"; allowed_remote_server_names _ := false; forbidden_remote_server_names h := bool_decide (h = "c");
     forbidden_remote_room_directory_server_names _ := false; prevent_media_downloads_from _ := false;
     ignore_messages_from_server_names _ := false; host h := h |}.

(** The template names alice; dave, who is not in the space, may be let in by another server, as a rule
    could not be checked; his server is not dealt with anyway. *)
Abbreviation template origin user :=
  (create_join_event_template_route config "a" 20 join_mem "$random" origin "!r:a" user (fun _ => true)).
Example templates :
  user_can_perform_restricted_join "a" join_mem carol "!r:a" = Ok true ∧
  user_can_perform_restricted_join "a" join_mem dave "!r:a" = Err (Fail EUnableToAuthorizeJoin) ∧
  is_ok (template "b" carol) = true ∧ template "c" dave = Err (Fail EForbidden).
Proof. by vm_compute. Qed.

Lemma join_template_correct_witness :
  ∃ rules json, template "b" carol = Ok (rules, json) ∧ open_to "a" join_mem "b" "!r:a" ∧
  ∃ authorising pdu, authorisation_of "a" 20 join_mem rules "!r:a" carol authorising ∧
    made_from 20 join_mem (partial_member Join authorising carol) carol (Some "!r:a") rules pdu.
Proof.
  assert (is_ok (template "b" carol) = true) as Hok by (vm_compute; reflexivity).
  destruct (template "b" carol) as [[rules json]|e] eqn:Hrun; [clear Hok|discriminate Hok].
  exists rules, json. split; [exact eq_refl|].
  destruct (join_template_correct config "a" 20 join_mem "$random" "b" "!r:a" carol (fun _ => true) rules json Hrun)
    as (Hopen & _ & _ & _ & _ & authorising & Ha & _ & pdu & _ & Hmade & _).
  split; [exact Hopen|]. exists authorising, pdu. split; [exact Ha|exact Hmade].
Defined.

(** Carol's event is taken, and her server told the state without her; another server may not send it. *)
Definition join (origin : string) : comp HandlerError RoomStateResponse * mem :=
  create_join_event_v2_route config 20 1000 10000 100 "a" 0 origin "!r:a" "$join" "$join" true join_mem.
Example carol_is_let_in :
  (match (join "b").1 with Ok resp => Some (length (Joins.state resp), servers_in_room resp) | Err _ => None end)
    = Some (3, Some ["a"; "b"]) ∧
  (join "a").1 = Err (Fail EInvalidParam) ∧ (join "c").1 = Err (Fail EForbidden) ∧
  get_pdu_id (join "b").2 "$join" = Some 5 ∧ get_pdu_id (join "a").2 "$join" = None.
Proof. by vm_compute. Qed.

Lemma remote_membership_guarded_witness :
  is_ok (join "b").1 = true ∧ open_to "a" join_mem "b" "!r:a" ∧
  ∃ rules value who value', verified_membership join_mem "b" "!r:a" "$join" "$join" "join" rules value who ∧
    authorised_join "a" join_mem "!r:a" rules who value value'.
Proof.
  assert (is_ok (join "b").1 = true) as Hok by (vm_compute; reflexivity). split; [exact Hok|].
  destruct (remote_membership_guarded config 20 1000 10000 100 "a" 0 join_mem "b" "!r:a" "$join" "$join") as (_ & _ & Hjoin).
  destruct (Hjoin true (join "b").1 (join "b").2 (surjective_pairing _)) as [[_ Hno]|(_ & Hopen & rules & value & who & value' & Hv & Ha & _)].
  - rewrite Hok in Hno. discriminate Hno.
  - split; [exact Hopen|]. exists rules, value, who, value'. split; [exact Hv|exact Ha].
Defined.
End JoinWitness.

(** * Carol, of another server, invites alice to her room: the invite is taken, and what other states that come
    with an invite do. *)

Module InviteWitness.
#[local] Instance keys_fwd : HashIter (string * string) := hash_iter_fwd _.
#[local] Instance keys_fwd_laws : HashIterLaws (string * string) := hash_iter_fwd_laws _.

(** Create events of carol's room, and her invite. *)
Definition carol_create (id : EventId) (sk : string) (auth : list EventId) : Pdu :=
  {| event_id := id; room_id := Some "!den:b"; sender := carol; origin_server_ts := 0; kind := RoomCreate;
     content := JCreate (Some carol) [] true; state_key := Some sk; prev_events := []; auth_events := auth;
     redacts := None; depth := 1 |}.
Definition carol_invites (auth : list EventId) : Pdu :=
  {| event_id := "$invite:b"; room_id := Some "!den:b"; sender := carol; origin_server_ts := 1; kind := RoomMember;
     content := JMember Invite None false; state_key := Some alice; prev_events := []; auth_events := auth;
     redacts := None; depth := 2 |}.
Definition invite_events : list Pdu :=
  [carol_create "$den:b" "" []; carol_create "$odd:b" "x" ["$odd:b"]; carol_create "$one:b" "" ["$odd:b"];
   carol_invites ["$den:b"]].

Definition invite_json (ev : Pdu) : CanonicalJsonObject :=
  <["sender" := CString (sender ev)]> (<["content" := CObject [("membership", CString "invite")]]> (full_json_of ev)).

#[local] Instance invite_table : PduOfJson := example_pdu_of_json invite_events.
#[local] Instance store : EventStore mem nat := mem_store invite_events.
#[local] Instance services : RoomServices mem nat := mem_services invite_events None.
#[local] Instance member_library : LocalLibrary := local_library [].
(** "$hollow:b" is a create event whose JSON lacks what an event needs. *)
#[local] Instance library : HandlerLibrary := {|
  json_length _ := Some 100;
  de_object raw :=
    if decide (raw = "$hollow:b") then Some (invite_json (carol_create "$hollow:b" "" []))
    else invite_json <$> example_event invite_events raw;
  base64_ok _ _ := true;
  de_room_version _ := Some (Some v11_rules);
  de_content_redacts _ := None;
  reference_hash _ v := str_field v "hash";
  redact _ v := Some v;
  to_canonical_object := full_json_of;
  de_ExtractBody _ := Some None;
  room_version_of_str _ := Some (Some v11_rules);
  rules_v1 := v11_rules;
  verify_event_json v _ := Some VerifiedAll;
|}.
#[local] Instance members : MembershipLibrary := {|
  de_allow _ := None; member_content m a := JMember m a false; de_authorising_user _ := Some None; restricted_join_rule _ := true;
|}.
#[local] Instance tables : MembershipServices mem := {|
  is_joined _ _ _ := false; is_invited _ _ _ := false; check_all_joins := false; meowlnir_accept_make_join _ _ := false;
|}.
#[local] Instance access : RoomAccess mem := {|
  is_world_readable _ _ := false; server_in_room _ _ _ := false; server_can_see_event _ _ _ _ := true;
  get_pdu_count _ _ := None; pdus_rev _ _ _ := []; redact_pdu _ pdu := Some pdu;
|}.
#[local] Instance federated : InviteLibrary := {|
  de_mfederate j := match j with JCreate _ _ f => Some (Some f) | _ => Some None end;
|}.
#[local] Instance invites : InviteServices mem := {|
  is_banned _ _ := false; is_admin _ _ := false; block_non_admin_invites := false; user_may_invite _ _ _ := true;
  mark_as_invited _ _ _ _ _ _ := mret tt; update_joined_count _ s := s; notify_appservices _ _ := mret tt;
|}.
Definition config : ModerationConfig :=
  {| server_name := "a"; allowed_remote_server_names _ := false; forbidden_remote_server_names h := bool_decide (h = "c");
     forbidden_remote_room_directory_server_names _ := false; prevent_media_downloads_from _ := false;
     ignore_messages_from_server_names _ := false; host h := h |}.

Definition ask (rules : VersionRules) (state : list (option string)) : InviteRequest :=
  {| room_version := Some rules; identity := "b"; room := "!den:b"; request_event_id := "$invite:b";
     invite_event := "$invite:b"; invite_room_state := state; via := ["b"] |}.
Abbreviation invite rules state := (create_invite_route config "a" (ask rules state) empty_mem).

(** The invite is answered and the create event kept; stripped state is refused. *)
Example alice_is_invited :
  is_ok (invite v11_rules [Some "$den:b"]).1 = true ∧
  dom (mem_outliers (invite v11_rules [Some "$den:b"]).2) = {["$den:b"]} ∧
  (invite v11_rules [None]).1 = Err (Fail EInvalidParam) ∧ (invite v11_rules []).1 = Err (Fail EInvalidParam) ∧
  (invite v11_rules [Some "$den:b"; Some "$den:b"]).1 = Err (Fail EInvalidParam).
Proof. split_and!; [by vm_compute|apply (bool_decide_eq_true_1 _); by vm_compute|by vm_compute..]. Qed.

Lemma invite_guarded_witness :
  is_ok (invite v11_rules [Some "$den:b"]).1 = true ∧
  ∃ rules create create_json signed snd recipient,
    valid_invite config "a" empty_mem (ask v11_rules [Some "$den:b"]) rules create create_json signed snd recipient.
Proof.
  assert (is_ok (invite v11_rules [Some "$den:b"]).1 = true) as Hok by (vm_compute; reflexivity). split; [exact Hok|].
  destruct (invite_guarded config "a" empty_mem (ask v11_rules [Some "$den:b"]) _ _ (surjective_pairing _))
    as [[_ Hno]|(rules & create & json & signed & u & t & pdu & Hv & _)].
  - rewrite Hok in Hno. discriminate Hno.
  - exists rules, create, json, signed, u, t. exact Hv.
Defined.

(** ** States that should be refused

    A create event is expected to have what an event needs, and the state to have a create event without state
    key once it has one; signatures speak for neither.  In the first versions of rooms, where servers name their
    events, a create event can be in the format of the room with a state key. *)
Example odd_states_panic :
  (invite v11_rules [Some "$hollow:b"]).1 = Err Panicked ∧ (invite v1_rules [Some "$odd:b"]).1 = Err Panicked.
Proof. by vm_compute. Qed.

(** With two create events the state's is the one without state key, and its identifier that of the other: under
    it the event is kept. *)
Example wrong_create_event_is_kept :
  match validate_invite_state empty_mem [Some "$one:b"; Some "$odd:b"] v1_rules "!den:b" with
  | Ok (create_event_id, state) => create_event_id = "$odd:b" ∧
      (state !! (RoomCreate, "") ≫= fun json => str_field json "event_id") = Some "$one:b"
  | Err _ => False
  end.
Proof. by vm_compute. Qed.
End InviteWitness.
